(* ===== verification/_CoqProject ===== *)
-Q . S2P
Prelude.v
Base64.v
Netip.v
Prog.v
Status.v
Problem.v
Resource.v
Nonce.v
NonceProps.v
Tnauthlist.v
TnauthlistSpec.v
StoreSpec.v
Host.v
Platform.v
Identifier.v
Slhdsa.v
Jws.v
Json.v
Compact.v
Network.v
Resolver.v
Chain.v
Validators.v
Tkauth.v
ChainProps.v
Worker.v
Issuance.v
Wire.v
Http.v
Accounts.v
Orders.v
Revoke.v
Server.v
Lifecycle.v
System.v
SystemSteps.v
SystemRules.v
SystemWorker.v
SystemIssuance.v
SystemRequests.v
SystemOrders.v
SystemRevoke.v
SystemRun.v
SystemDemo.v
JsonProps.v
SystemProps.v
Memstore.v
MemstoreRefine.v
MemstoreCalls.v
MemstoreSystem.v
MemstoreProps.v
NetworkProps.v
ValidatorProps.v
ResolverProps.v
TkauthProps.v
ServerProps.v
Authority.v
Responses.v
JwsProps.v
Slhdsatest.v
Quickstart.v
ProblemProps.v
Sqldb.v
Sqlitestore.v
SqliteRel.v
SqliteCalls.v
SqliteSerial.v
Testing.v
Storetest.v
Ordertest.v
Issuancetest.v
StoretestProps.v
SqliteProps.v
StoretestSuite.v
Noncetest.v
NoncetestProps.v
Clone.v
CloneProps.v
RunLoop.v
Renewal.v
