(* ===== verification/Prelude.v ===== *)
(** * go-acme-server: a verification development

    An ACME server library in Go: HTTP handlers for accounts, orders, authorizations, challenges,
    finalization and revocation (RFC 8555), background workers that validate challenges and issue
    certificates through a CA of the host, a store interface with an in-memory and an SQLite
    implementation, a nonce manager, and validators for the http-01, dns-01, tls-alpn-01 and tkauth-01 challenges.
    The definitions translate the source function by function and keep its names.

    ** Conventions

    A Go string is a [string] and a byte slice a list of bytes. A duration is a number of
    nanoseconds and an instant the nanoseconds since January 1 of year 1, the zero time. Machine
    integers are [Z], and the arithmetic that can wrap is written with [i64] and [u64]. A result with
    an error is a [result]; the error [ErrPanic] stands for a nil dereference or another panic.
    Go's [==] is decidable equality. Maps are [gmap]s, or lists where the order of iteration is seen.

    Code that calls the store, the clock, the CA or the network is a [prog] (Prog.v): a tree of
    calls and continuations that does not fix what a call answers. One definition serves runs with
    any answers ([runs]), runs alone ([exec]) and runs interleaved with others ([wp], pools). A
    context that ends is an error of the call it interrupts.

    Code outside the repository is a field of a class: [Platform] (Platform.v) for the standard
    library's parsers, X.509 and cryptography and for the composite and SLH-DSA packages,
    [JSONText] and [JSONStructs] for the tokenizer and the decoder of encoding/json, [DNSMessage] for
    the DNS codec, [NetPlatform] for the HTTP client and TLS, [Builder] for the ASN.1 encoder and the
    certificates the SLH-DSA helpers start from, with the laws [BuilderLaws] for values of less than
    2 GiB, [Gob] for encoding/gob, whose law [GobLaws] is the round trip of values without nil
    subproblems. The documents the handlers, messages and tokens decode are the classes [StrictJSON],
    [PayloadJSON], [CompactJSON] and [TokenJSON]: the decoder of the source is UnmarshalStrict of
    Json.v, from which [Json.strictJSON] builds the documents of a JWS, and what is shown of their
    clients holds for any decoder.
    Parsers and encoders of the standard library that the properties depend on are modelled:
    base64 (Base64.v), IP addresses and prefixes (Netip.v), string functions on ASCII, time, and
    binary64 arithmetic, which is that of the specification in the Standard Library.

    ** Files

    - Status.v, Problem.v, Resource.v: src/status.go, problem.go, resource.go and work.go, the
      statuses with their transitions, problem documents and errors, and the stored records.
      ProblemProps.v decodes problem documents.
    - Nonce.v, NonceProps.v: src/nonce/nonce.go.
    - Tnauthlist.v, TnauthlistSpec.v: src/tnauthlist.go and the RFC 8226 grammar.
    - StoreSpec.v: the contract of src/store.go as an abstract store with one step per call.
    - Host.v: the server, its configuration, the calls it makes ([op]) and the records it exchanges
      with the host (src/server.go, config.go, issuer.go, limit.go).
    - Identifier.v, Slhdsa.v, Jws.v, Json.v, Compact.v, Chain.v: src/identifier.go, slhdsa.go,
      internal/jws, csr.go and chain.go. JsonProps.v, JwsProps.v and ChainProps.v hold their properties.
    - Slhdsatest.v: src/internal/slhdsatest and the encoder of src/internal/slhdsaspki.
    - Worker.v, Issuance.v: src/worker.go and issuance.go. RunLoop.v: the loop of Run with its
      goroutines, slots, wake-ups and cancellation as a transition system.
    - Wire.v, Http.v, Accounts.v, Orders.v, Revoke.v, Server.v: src/wire.go, request.go, account.go,
      eab.go, order.go, finalize.go, revoke.go, renewal.go, certificate.go, refusal.go, config.go and
      server.go, up to [ServeHTTP]. ServerProps.v holds the limits of the configuration, Authority.v
      and Responses.v what a request may do and is answered with. Renewal.v: the lifetime advisor of
      renewal.go.
    - Network.v, Resolver.v, Validators.v, Tkauth.v: src/challenge. NetworkProps.v, ValidatorProps.v,
      ResolverProps.v and TkauthProps.v hold their properties.
    - Lifecycle.v, System.v and the files System*.v: the whole server as a pool of requests and
      worker turns over a shared history of calls.
    - Memstore.v: src/memstore/memstore.go. MemstoreRefine.v, MemstoreCalls.v, MemstoreProps.v and
      MemstoreSystem.v relate it to the contract. Clone.v and CloneProps.v: its copies, on a heap of
      slices and pointers.
    - Sqldb.v, Sqlitestore.v: src/test/interop/sqlitestore. The tables of the schema with their keys
      and constraints, the effect of every statement of queries.go, connections and transactions; and
      every method of the store as a program of calls of database/sql. SqliteRel.v relates the tables
      to the contract, and SqliteCalls.v does so for every method and makes the store an instance of
      the interface. SqliteSerial.v runs methods of several processes at the same time, and
      SqliteProps.v brings both together.
    - Testing.v, Storetest.v, Ordertest.v, Issuancetest.v, Noncetest.v: the conformance suites of
      src/storetest and src/noncetest as programs with checks and concurrent parts. StoretestProps.v,
      StoretestSuite.v and NoncetestProps.v run them.
    - Quickstart.v: src/examples/quickstart/main.go.

    ** What the theorems show

    - SystemProps.v. The state of the system is the history of calls made by any number of requests
      and worker turns, interleaved at every call, with arbitrary answers of the CA, the validators,
      the policies and the clock, within the contract of the store. Readings of the clock are part of
      the history. In every reachable history, a CA is asked to issue only for an order that was
      dispatched when all its identifiers were authorized for its account, by authorizations that had
      not expired at the reading of the clock that decided it, with one operation for an order, and a
      certificate is recorded only if its chain passed every check;
      authorizations become valid only by a validation or an approval; orders, authorizations,
      challenges, certificates and accounts only take the transitions of status.go; revocations are
      recorded before the CA is told.
    - Authority.v and Responses.v. In every run of a request, with any answers, nothing but public
      reads happens before the nonce is spent and the signature verified, writes concern records of
      the signer, an account is created for the key that signed and gets a new key only with a
      message that key signed, and the answer is a success or a problem document, with a nonce when
      one is owed.
    - MemstoreProps.v and MemstoreSystem.v. Every sequence of calls of the in-memory store is one the
      contract allows, and the server running on it simulates the server of System.v. The copies it
      hands out share no memory with what it keeps (CloneProps.v).
    - SqliteSerial.v and SqliteProps.v. On one SQLite database, with any number of processes whose
      statements and commits fail and which crash at any point, the committed tables are those of the
      calls made one after the other and every method that returned answered accordingly. When the
      calls that committed are legal in the order they committed, the versions represent the stores
      the contract gives for them, and every legal call that returned without an error of the backend
      answered what the contract says of one of these stores.
    - Conformance suites. Every store that meets the contract of StoreSpec.v passes the store suite,
      under every schedule of its concurrent tests, the in-memory store and the SQLite store among
      them, and the nonce manager passes the nonce suites.
    - Validators. For arbitrary answers of resolvers and peers: connections go to permitted numeric
      addresses and allowed ports only, in bounded number; a success implies the proof the protocol
      asks for; DNS answers come from the alias chain of the name, each name of which is asked once,
      each configured server at most once for it; a tkauth-01 grant follows from a
      verified token for this identifier and this account key, and a token matches one account key
      only. PublicAddress is characterized address by address.
    - RunLoop.v. At most one call of Run is active, it holds at most its configured number of tasks,
      and once its context has ended it returns after a bounded number of transitions, counted with
      the selects that still took another case.
    - Components. Nonces are used once and stay valid within their lifetime and capacity; accepted
      authority lists are those of the grammar; chain and request checks are equal to their
      specifications; accepted account keys are the well-formed ones and survive their canonical
      encoding; a request built for an SLH-DSA key passes the checks; the default renewal window lies
      at two thirds and five sixths of the lifetime up to rounding; strict JSON accepts the documents
      with unique, exactly named members within the depth limit, and the walk over embedded structs
      terminates.

    Every theorem with hypotheses is applied to concrete values next to it or in the file's Demo
    module; SystemDemo.v holds the run of the system that the witnesses of SystemProps.v use.

    ** Bounds

    Recursion is structural almost everywhere: redirects and aliases recurse on the number left,
    loops over slices on the list. The fuel of the DER reader, of nonce eviction and of the address
    parser is the length of its input, the number of live nonces and the number of groups, and
    the fuel of the embedded struct walk is the nesting of the type, proved enough in JsonProps.v. A
    problem is copied and read with fuel for the nesting of its subproblems; the theorem on copies
    holds for every problem that the fuel is enough to read. Revisions, fences and sequence numbers
    are stored in columns of 64 bits; [sql_capacity] says how many more calls they have room for, and
    the theorems on the SQLite store ask for fewer calls than that. Its index columns hold the times
    from 1970 to 2262, which [sqlite_legal] asks for, along with values that come back unchanged
    from gob and keys that come back from PKIX.

    ** Not modelled

    In System.v worker turns start at any time, which covers every schedule of Run; RunLoop.v models
    its loop without what the tasks do. Log messages are left out, and failures of the conformance
    suites keep only their format strings. The programs under test/interop/cmd and the files, signals
    and sockets of the quickstart program are input and output around the library. SQLite itself is
    represented by the effect of the statements the store uses and by the isolation its documentation
    gives to immediate and deferred transactions; the pragmas of a connection, which the store sets
    when it opens a database and reads back in Settings, are left out. Byte layouts of TLS, HTTP,
    X.509 and DNS messages belong to the parameters above.

    Values are not shared except in Clone.v, so the aliasing test of the store suite reads back what
    was created and no more. A response is what a handler passes to the response writer; a status
    outside 200 to 999, which only a problem of the host can carry, is not followed into net/http.
    Where the source ranges over a map and returns the first error, in the validators of a
    configuration and the members of a JSON object, the model visits the entries in one order, so
    which of several errors is reported may differ from a run of the program. *)

From stdpp Require Export base tactics option list list_numbers gmap strings fin_maps sorting pretty.
From Stdlib Require Export ZArith Lia.
From Stdlib Require Export Strings.Byte.
From Stdlib Require Import Floats.SpecFloat.

(** ** Go notations

    Go's [==] and [!=] on comparable values are decidable equality tests. *)

Declare Scope go_scope.
Delimit Scope go_scope with go.

Notation "x == y" := (bool_decide (x = y)) (at level 70, no associativity) : go_scope.
Notation "x != y" := (negb (bool_decide (x = y))) (at level 70, no associativity) : go_scope.

#[global] Open Scope go_scope.

(** ** Results

    A Go call that returns [(value, error)] with exactly one of them meaningful. *)

Inductive result (E A : Type) : Type :=
| Ok (a : A)
| Err (e : E).

Arguments Ok {E A} a.
Arguments Err {E A} e.

Definition result_bind {E A B} (r : result E A) (k : A → result E B) : result E B :=
  match r with
  | Ok a => k a
  | Err e => Err e
  end.

Notation "'try' x := r 'in' k" := (result_bind r (λ x, k))
  (at level 200, x pattern, r at level 100, k at level 200, right associativity) : go_scope.

Definition is_Ok {E A} (r : result E A) : bool :=
  match r with Ok _ => true | Err _ => false end.

(** ** Machine integers *)

(** The value of an unsigned 64-bit expression. *)
Definition u64 (z : Z) : Z := z `mod` 2 ^ 64.

(** The value of a signed 64-bit expression: Go's [int], [int64] and [time.Duration]. *)
Definition i64 (z : Z) : Z := (z + 2 ^ 63) `mod` 2 ^ 64 - 2 ^ 63.

(** ** Time

    A [time.Time] is the number of nanoseconds since the zero time, January 1 of year 1 in UTC,
    so the zero value is 0. A [time.Duration] is a signed 64-bit number of nanoseconds. *)

Notation Time := Z (only parsing).
Notation Duration := Z (only parsing).

Definition zeroTime : Time := 0%Z.
Definition IsZero (t : Time) : bool := (t =? 0)%Z.
Definition After (t u : Time) : bool := (u <? t)%Z.
Definition Before (t u : Time) : bool := (t <? u)%Z.

(** Durations of package [time]. *)
Definition Second : Duration := 1000000000%Z.
Definition Minute : Duration := (60 * Second)%Z.
Definition Hour : Duration := (60 * Minute)%Z.

(** [t.Truncate(time.Second)] rounds down to a multiple of a second since the zero time. *)
Definition TruncateSecond (t : Time) : Time := (t - t `mod` Second)%Z.

(** ** Floating point

    [float64] values are the binary64 numbers of the standard library's specification of floating
    point, with its rounding to nearest even. *)

Notation float64 := spec_float (only parsing).

Definition f64_add : float64 → float64 → float64 := SFadd 53 1024.
Definition f64_mul : float64 → float64 → float64 := SFmul 53 1024.
Definition f64_div : float64 → float64 → float64 := SFdiv 53 1024.

(** The conversion of an integer, rounded to nearest. *)
Definition f64_of_int (z : Z) : float64 := binary_normalize 53 1024 z 0 false.

(** Go's [==], [<], [<=] and [>]: every comparison with a NaN is false. *)
Definition f64_eq (x y : float64) : bool := if SFcompare x y is Some Eq then true else false.
Definition f64_lt (x y : float64) : bool := if SFcompare x y is Some Lt then true else false.
Definition f64_le (x y : float64) : bool := f64_lt x y || f64_eq x y.

(** The integer part. *)
Definition f64_trunc (x : float64) : option Z :=
  let shifted (m e : Z) := if (0 <=? e)%Z then (m * 2 ^ e)%Z else (m / 2 ^ (- e))%Z in
  match x with
  | S754_zero _ => Some 0%Z
  | S754_finite false m e => Some (shifted (Zpos m) e)
  | S754_finite true m e => Some (- shifted (Zpos m) e)%Z
  | S754_infinity _ | S754_nan => None
  end.

(** [math.Ceil] of a finite number, as an integer. *)
Definition f64_ceil (x : float64) : option Z :=
  z ← f64_trunc x;
  Some (if f64_lt (f64_of_int z) x then (z + 1)%Z else z).

(** ** Bytes

    A Go [string] is a Rocq [string], whose characters are bytes, and a [[]byte] a list of bytes. *)

Notation bytes := (list Byte.byte) (only parsing).

#[export] Instance byte_eq_dec : EqDecision Byte.byte := Byte.byte_eq_dec.

(** Go's conversions between strings and byte slices. *)
Notation string_bytes := String.list_byte_of_string.
Notation bytes_string := String.string_of_list_byte.

(** [len] of a slice. *)
Notation len l := (Z.of_nat (length l)) (only parsing).

(** The numeric value of a byte. *)
Definition bz (b : Byte.byte) : Z := Z.of_N (Byte.to_N b).

(** ** Automation *)

Create HintDb acme.

Lemma negb_bool_decide_true (P : Prop) `{Decision P} : negb (bool_decide P) = true ↔ ¬ P.
Proof. rewrite negb_true_iff. apply bool_decide_eq_false. Qed.

Lemma negb_bool_decide_false (P : Prop) `{Decision P} : negb (bool_decide P) = false ↔ P.
Proof. rewrite negb_false_iff. apply bool_decide_eq_true. Qed.

Lemma bool_decide_is_Some_Some {A} (x : A) : bool_decide (is_Some (Some x)) = true.
Proof. done. Qed.

Lemma bool_decide_is_Some_None {A} : bool_decide (is_Some (@None A)) = false.
Proof. done. Qed.

Lemma After_true t u : After t u = true ↔ (u < t)%Z.
Proof. apply Z.ltb_lt. Qed.

Lemma After_false t u : After t u = false ↔ (t ≤ u)%Z.
Proof. apply Z.ltb_ge. Qed.

Lemma Before_true t u : Before t u = true ↔ (t < u)%Z.
Proof. apply Z.ltb_lt. Qed.

Lemma Before_false t u : Before t u = false ↔ (u ≤ t)%Z.
Proof. apply Z.ltb_ge. Qed.

Lemma IsZero_true t : IsZero t = true ↔ t = 0%Z.
Proof. apply Z.eqb_eq. Qed.

Lemma IsZero_false t : IsZero t = false ↔ t ≠ 0%Z.
Proof. apply Z.eqb_neq. Qed.

(** Turns the conditions of Go [if] statements into propositions. *)
Ltac go_bool :=
  repeat match goal with
  | H : bool_decide _ = true |- _ => apply bool_decide_eq_true in H
  | H : bool_decide _ = false |- _ => apply bool_decide_eq_false in H
  | H : negb (bool_decide _) = true |- _ => apply negb_bool_decide_true in H
  | H : negb (bool_decide _) = false |- _ => apply negb_bool_decide_false in H
  | H : negb _ = true |- _ => apply negb_true_iff in H
  | H : negb _ = false |- _ => apply negb_false_iff in H
  | H : _ && _ = true |- _ => apply andb_true_iff in H as [? ?]
  | H : _ && _ = false |- _ => apply andb_false_iff in H
  | H : _ || _ = true |- _ => apply orb_true_iff in H
  | H : _ || _ = false |- _ => apply orb_false_iff in H as [? ?]
  | H : (_ <? _)%Z = true |- _ => apply Z.ltb_lt in H
  | H : (_ <? _)%Z = false |- _ => apply Z.ltb_ge in H
  | H : (_ <=? _)%Z = true |- _ => apply Z.leb_le in H
  | H : (_ <=? _)%Z = false |- _ => apply Z.leb_gt in H
  | H : (_ =? _)%Z = true |- _ => apply Z.eqb_eq in H
  | H : (_ =? _)%Z = false |- _ => apply Z.eqb_neq in H
  | H : After _ _ = true |- _ => apply After_true in H
  | H : After _ _ = false |- _ => apply After_false in H
  | H : Before _ _ = true |- _ => apply Before_true in H
  | H : Before _ _ = false |- _ => apply Before_false in H
  | H : IsZero _ = true |- _ => apply IsZero_true in H
  | H : IsZero _ = false |- _ => apply IsZero_false in H
  end.

(** Splits every conditional of the goal and the hypotheses and turns the conditions into
    propositions, closing the contradictory cases. *)
Ltac go_cases :=
  repeat (case_match; simplify_eq/=; try done); go_bool; simplify_eq/=.

(** ** Lemmas on machine integers *)

Lemma u64_range z : (0 ≤ u64 z < 2 ^ 64)%Z.
Proof. apply Z.mod_pos_bound. lia. Qed.

Lemma u64_small z : (0 ≤ z < 2 ^ 64)%Z → u64 z = z.
Proof. apply Z.mod_small. Qed.

(** A 64-bit counter that is incremented once always changes, wrap-around included. *)
Lemma u64_succ_ne z : u64 (z + 1) ≠ z.
Proof.
  unfold u64. intros Heq.
  pose proof (Z.mod_pos_bound (z + 1) (2 ^ 64) ltac:(lia)) as Hr.
  rewrite Heq in Hr. destruct (decide (z + 1 = 2 ^ 64)%Z) as [E|E].
  - rewrite E, Z_mod_same_full in Heq. lia.
  - rewrite Z.mod_small in Heq; lia.
Qed.

Lemma i64_range z : (- 2 ^ 63 ≤ i64 z < 2 ^ 63)%Z.
Proof. unfold i64. pose proof (Z.mod_pos_bound (z + 2 ^ 63) (2 ^ 64)). lia. Qed.

Lemma i64_small z : (- 2 ^ 63 ≤ z < 2 ^ 63)%Z → i64 z = z.
Proof. intros H. unfold i64. rewrite Z.mod_small; lia. Qed.

Lemma TruncateSecond_bounds t : (t - Second < TruncateSecond t ≤ t)%Z.
Proof.
  unfold TruncateSecond. pose proof (Z.mod_pos_bound t Second). unfold Second in *. lia.
Qed.
