(* ===== verification/Base64.v ===== *)
(** * Base64 (package encoding/base64)

    [RawURLEncoding.EncodeToString] and [RawURLEncoding.Strict().DecodeString] as the server uses
    them, and the strict decoders of the other encodings. The strict decoder refuses non-zero trailing bits, but like every decoder of the package
    it skips carriage returns and line feeds wherever they stand. *)

From S2P Require Import Prelude.

(** ** The alphabet *)

Definition alphabet : bytes :=
  string_bytes "ABCDEFGHIJKLMNOPQRSTUVWXYZabcdefghijklmnopqrstuvwxyz0123456789-_".

(** The character of a 6-bit value. *)
Definition char_of (d : Z) : Byte.byte := nth (Z.to_nat d) alphabet "000"%byte.

(** The 6-bit value of a character. *)
Definition digit_of (c : Byte.byte) : option Z :=
  let v := bz c in
  if (65 <=? v)%Z && (v <=? 90)%Z then Some (v - 65)%Z
  else if (97 <=? v)%Z && (v <=? 122)%Z then Some (v - 71)%Z
  else if (48 <=? v)%Z && (v <=? 57)%Z then Some (v + 4)%Z
  else if (v =? 45)%Z then Some 62%Z
  else if (v =? 95)%Z then Some 63%Z
  else None.

(** The low 8 bits of an integer as a byte. *)
Definition zb (z : Z) : Byte.byte := default "000"%byte (Byte.of_N (Z.to_N (z `mod` 256))).

(** ** Encoding *)

(** The 6-bit values of a byte sequence, three bytes at a time. *)
Fixpoint digits (b : bytes) : list Z :=
  match b with
  | [] => []
  | [x] => [bz x `div` 4; bz x `mod` 4 * 16]%Z
  | [x; y] => [bz x `div` 4; bz x `mod` 4 * 16 + bz y `div` 16; bz y `mod` 16 * 4]%Z
  | x :: y :: z :: b =>
      ([bz x `div` 4; bz x `mod` 4 * 16 + bz y `div` 16; bz y `mod` 16 * 4 + bz z `div` 64;
        bz z `mod` 64] ++ digits b)%Z
  end.

Definition encode (b : bytes) : string := bytes_string (map char_of (digits b)).

(** ** Strict decoding *)

Definition newline (c : Byte.byte) : bool := (bz c =? 10)%Z || (bz c =? 13)%Z.

(** The bytes of a sequence of 6-bit values. An incomplete group of one value, or trailing bits
    that are not zero, are corrupt input. *)
Fixpoint undigits (d : list Z) : option bytes :=
  match d with
  | [] => Some []
  | [_] => None
  | [p; q] => if (q `mod` 16 =? 0)%Z then Some [zb (p * 4 + q `div` 16)] else None
  | [p; q; r] =>
      if (r `mod` 4 =? 0)%Z
      then Some [zb (p * 4 + q `div` 16); zb (q `mod` 16 * 16 + r `div` 4)] else None
  | p :: q :: r :: s :: d =>
      (λ b, zb (p * 4 + q `div` 16) :: zb (q `mod` 16 * 16 + r `div` 4) ::
            zb (r `mod` 4 * 64 + s) :: b) <$> undigits d
  end.

Definition decode (s : string) : option bytes :=
  mapM digit_of (filter (λ c, newline c = false) (string_bytes s)) ≫= undigits.

(** The strict decoders of all four encodings. *)
Inductive Encoding : Type := RawURLEncoding | URLEncoding | RawStdEncoding | StdEncoding.

Definition std_digit_of (c : Byte.byte) : option Z :=
  let v := bz c in
  if (v =? 43)%Z then Some 62%Z
  else if (v =? 47)%Z then Some 63%Z
  else if (v =? 45)%Z || (v =? 95)%Z then None
  else digit_of c.

(** Takes the padding off complete groups of four characters. *)
Fixpoint unpad (c : bytes) : option bytes :=
  let pad b := (bz b =? 61)%Z in
  match c with
  | [] => Some []
  | p :: q :: r :: s :: c =>
      if pad s && (c == []) then Some (if pad r then [p; q] else [p; q; r])
      else (λ l, p :: q :: r :: s :: l) <$> unpad c
  | _ => None
  end.

Definition DecodeString (enc : Encoding) (s : string) : option bytes :=
  let c := filter (λ c, newline c = false) (string_bytes s) in
  let digit := match enc with RawURLEncoding | URLEncoding => digit_of | _ => std_digit_of end in
  c ← match enc with URLEncoding | StdEncoding => unpad c | _ => Some c end;
  mapM digit c ≫= undigits.

(** ** Bytes and digits *)

Lemma bz_range c : (0 ≤ bz c < 256)%Z.
Proof. unfold bz. pose proof (Byte.to_N_bounded c). lia. Qed.

Lemma zb_bz c : zb (bz c) = c.
Proof.
  unfold zb. rewrite Z.mod_small by apply bz_range. unfold bz. rewrite N2Z.id.
  by rewrite Byte.of_to_N.
Qed.

Lemma bz_zb z : bz (zb z) = (z `mod` 256)%Z.
Proof.
  unfold zb. pose proof (Z.mod_pos_bound z 256 ltac:(lia)) as Hr.
  destruct (Byte.of_N (Z.to_N (z `mod` 256))) as [c|] eqn:Hc; simpl.
  - unfold bz. rewrite (Byte.to_of_N _ Hc). lia.
  - apply Byte.of_N_None_iff in Hc. lia.
Qed.

Lemma zb_eq z c : z = bz c → zb z = c.
Proof. intros ->. apply zb_bz. Qed.

Lemma digit_of_char_of d : (0 ≤ d < 64)%Z → digit_of (char_of d) = Some d.
Proof.
  intros Hd. assert (∀ n : nat, (n < 64)%nat → digit_of (char_of (Z.of_nat n)) = Some (Z.of_nat n))
    as Hall.
  { intros n Hn. do 64 (destruct n as [|n]; [by vm_compute|]). lia. }
  specialize (Hall (Z.to_nat d)). rewrite Z2Nat.id in Hall by lia. apply Hall. lia.
Qed.

Lemma digit_of_Some c d : digit_of c = Some d → (0 ≤ d < 64)%Z ∧ char_of d = c.
Proof. destruct c; vm_compute; intros [= <-]; by repeat split. Qed.

Lemma digit_of_newline c d : digit_of c = Some d → newline c = false.
Proof. by destruct c; vm_compute. Qed.

(** Three-byte induction over byte sequences. *)
Lemma bytes_ind3 (P : bytes → Prop) :
  P [] → (∀ x, P [x]) → (∀ x y, P [x; y]) → (∀ x y z b, P b → P (x :: y :: z :: b)) →
  ∀ b, P b.
Proof.
  intros H0 H1 H2 H3. fix IH 1. intros [|x [|y [|z b]]]; [done..|]. apply H3, IH.
Qed.

(** Four-digit induction over digit sequences. *)
Lemma digits_ind4 (P : list Z → Prop) :
  P [] → (∀ p, P [p]) → (∀ p q, P [p; q]) → (∀ p q r, P [p; q; r]) →
  (∀ p q r s d, P d → P (p :: q :: r :: s :: d)) → ∀ d, P d.
Proof.
  intros H0 H1 H2 H3 H4. fix IH 1. intros [|p [|q [|r [|s d]]]]; [done..|]. apply H4, IH.
Qed.

Lemma digits_range b : Forall (λ d, 0 ≤ d < 64)%Z (digits b).
Proof.
  induction b as [|x|x y|x y z b IH] using bytes_ind3; cbn [digits app];
    try pose proof (bz_range x); try pose proof (bz_range y); try pose proof (bz_range z);
    repeat (apply Forall_cons; split); try done; Z.to_euclidean_division_equations; lia.
Qed.

Lemma undigits_digits b : undigits (digits b) = Some b.
Proof.
  induction b as [|x|x y|x y z b IH] using bytes_ind3; cbn [digits app undigits];
    try pose proof (bz_range x); try pose proof (bz_range y); try pose proof (bz_range z); [done|..].
  - rewrite (proj2 (Z.eqb_eq _ _)) by (Z.to_euclidean_division_equations; lia).
    do 2 f_equal. apply zb_eq. Z.to_euclidean_division_equations; lia.
  - rewrite (proj2 (Z.eqb_eq _ _)) by (Z.to_euclidean_division_equations; lia).
    repeat f_equal; apply zb_eq; Z.to_euclidean_division_equations; lia.
  - rewrite IH. simpl. repeat f_equal; apply zb_eq; Z.to_euclidean_division_equations; lia.
Qed.

Lemma digits_undigits d b :
  Forall (λ d, 0 ≤ d < 64)%Z d → undigits d = Some b → digits b = d.
Proof.
  revert b. induction d as [|p|p q|p q r|p q r s d IH] using digits_ind4; intros b Hd Hb;
    rewrite ?Forall_cons in Hd; cbn [undigits] in Hb.
  - by simplify_eq/=.
  - done.
  - case_match; simplify_eq/=. rewrite bz_zb. apply Z.eqb_eq in H.
    repeat f_equal; Z.to_euclidean_division_equations; lia.
  - case_match; simplify_eq/=. rewrite !bz_zb. apply Z.eqb_eq in H.
    repeat f_equal; Z.to_euclidean_division_equations; lia.
  - destruct (undigits d) as [b'|]; simplify_eq/=. rewrite !bz_zb.
    destruct Hd as (? & ? & ? & ? & Hd). rewrite (IH _ Hd eq_refl).
    repeat f_equal; Z.to_euclidean_division_equations; lia.
Qed.

Lemma mapM_digit_of_char_of d :
  Forall (λ d, 0 ≤ d < 64)%Z d → mapM digit_of (map char_of d) = Some d.
Proof.
  induction 1 as [|x d Hx _ IH]; [done|]. cbn [map mapM]. by rewrite digit_of_char_of, IH.
Qed.

Lemma map_char_of_digit_of l d :
  mapM digit_of l = Some d → Forall (λ d, 0 ≤ d < 64)%Z d ∧ map char_of d = l.
Proof.
  revert d. induction l as [|c l IH]; simpl; intros d Hd; [by injection Hd as <-|].
  destruct (digit_of c) as [x|] eqn:Hx; simplify_eq/=.
  destruct (mapM digit_of l) as [d'|]; simplify_eq/=. destruct (IH d' eq_refl) as [Hr <-].
  apply digit_of_Some in Hx as [Hx <-]. injection Hd as <-. by split; [constructor|].
Qed.

Lemma filter_newline_chars d :
  Forall (λ d, 0 ≤ d < 64)%Z d →
  filter (λ c, newline c = false) (map char_of d) = map char_of d.
Proof.
  induction 1 as [|x d Hx _ IH]; [done|]. cbn [map]. rewrite filter_cons_True, IH; [done|].
  eapply digit_of_newline. by apply digit_of_char_of.
Qed.

Lemma string_bytes_app (a b : string) : string_bytes (a +:+ b) = string_bytes a ++ string_bytes b.
Proof.
  unfold String.list_byte_of_string. rewrite <- map_app. f_equal. induction a as [|c a IH]; [done|]. by apply (f_equal (cons c)).
Qed.

Lemma filter_newline_none l :
  Forall (λ c, newline c = false) l → filter (λ c, newline c = false) l = l.
Proof. induction 1 as [|c l Hc _ IH]; [done|]. by rewrite filter_cons_True, IH. Qed.

(** ** Round trips *)

Lemma decode_encode b : decode (encode b) = Some b.
Proof.
  unfold decode, encode. rewrite String.list_byte_of_string_of_list_byte.
  rewrite filter_newline_chars, mapM_digit_of_char_of by apply digits_range.
  simpl. apply undigits_digits.
Qed.

#[export] Instance encode_inj : Inj (=) (=) encode.
Proof. intros b b' Heq. apply (f_equal decode) in Heq. rewrite !decode_encode in Heq. congruence. Qed.

(** Line breaks do not count, wherever they stand. *)
Lemma decode_newline pre c post :
  newline (Ascii.byte_of_ascii c) = true → decode (pre +:+ String c post) = decode (pre +:+ post).
Proof.
  intros Hc. unfold decode. rewrite !string_bytes_app.
  change (string_bytes (String c post)) with (Ascii.byte_of_ascii c :: string_bytes post).
  rewrite !filter_app, filter_cons_False; [done|]. by rewrite Hc.
Qed.

(** A value without line breaks decodes only if it is the encoding of the result. *)
Lemma encode_decode s b :
  Forall (λ c, newline c = false) (string_bytes s) → decode s = Some b → encode b = s.
Proof.
  unfold decode, encode. intros Hnl. rewrite filter_newline_none by done.
  destruct (mapM digit_of (string_bytes s)) as [d|] eqn:Hd; [|done]. simpl. intros Hb.
  apply map_char_of_digit_of in Hd as [Hr Hd]. rewrite (digits_undigits d b Hr Hb), Hd.
  apply String.string_of_list_byte_of_string.
Qed.
