(* ===== verification/Netip.v ===== *)
(** * IP addresses (package net/netip)

    [netip.Addr] with the methods the server uses. A string is handled through the numbers of its
    bytes. *)

From S2P Require Import Prelude Base64.

(** An IPv4 address by its four bytes or an IPv6 address by its eight 16-bit groups. *)
Inductive Addr : Type :=
| Addr4 (octets : list Z)
| Addr6 (groups : list Z) (zone : string).

#[export] Instance Addr_eq_dec : EqDecision Addr.
Proof. solve_decision. Defined.

Definition codes (s : string) : list Z := map bz (string_bytes s).
Definition text (l : list Z) : string := bytes_string (map zb l).

Definition isDigit (c : Z) : bool := (48 <=? c)%Z && (c <=? 57)%Z.

(** ** Parsing *)

(** The loop of [parseIPv4Fields]: the value and number of digits of the current field, the
    previous character and the fields so far. *)
Fixpoint parseFields (s : list Z) (val digLen : Z) (prev : option Z) (fields : list Z)
    : option (list Z) :=
  match s with
  | [] => if (length fields =? 3)%nat then Some (fields ++ [val]) else None
  | c :: s =>
      if isDigit c then
        if (digLen =? 1)%Z && (val =? 0)%Z then None
        else
          let val := (val * 10 + (c - 48))%Z in
          if (255 <? val)%Z then None else parseFields s val (digLen + 1) (Some c) fields
      else if (c =? 46)%Z then
        if bool_decide (prev = None ∨ s = [] ∨ prev = Some 46%Z) then None
        else if (length fields =? 3)%nat then None
        else parseFields s 0 0 (Some c) (fields ++ [val])
      else None
  end.

Definition parseIPv4 (s : list Z) : option Addr := Addr4 <$> parseFields s 0 0 None [].

Definition hexValue (c : Z) : option Z :=
  if isDigit c then Some (c - 48)%Z
  else if (97 <=? c)%Z && (c <=? 102)%Z then Some (c - 87)%Z
  else if (65 <=? c)%Z && (c <=? 70)%Z then Some (c - 55)%Z
  else None.

(** Reads the hexadecimal digits of one group: its value, their number and the rest. More than
    four digits are an error. *)
Fixpoint parseGroup (s : list Z) (acc : Z) (off : nat) : option (Z * nat * list Z) :=
  match s with
  | c :: s' =>
      match hexValue c with
      | Some d => if (3 <? off)%nat then None else parseGroup s' (acc * 16 + d)%Z (S off)
      | None => Some (acc, off, s)
      end
  | [] => Some (acc, off, [])
  end.

(** The loop of [parseIPv6]: the groups so far, the position of the ellipsis among them and the
    rest of the string. Eight rounds fill the address. *)
Fixpoint parseGroups (fuel : nat) (s : list Z) (ellipsis : option nat) (groups : list Z)
    : option (list Z * option nat * list Z) :=
  match fuel with
  | O => Some (groups, ellipsis, s)
  | S fuel =>
      match parseGroup s 0 0 with
      | None => None
      | Some (acc, off, rest) =>
          if (off =? 0)%nat then None
          else match rest with
          | 46%Z :: _ =>
              (* an embedded IPv4 address *)
              if bool_decide (ellipsis = None) && negb (length groups =? 6)%nat then None
              else if (6 <? length groups)%nat then None
              else match parseFields s 0 0 None [] with
              | Some [a; b; c; d] =>
                  Some (groups ++ [a * 256 + b; c * 256 + d]%Z, ellipsis, [])
              | _ => None
              end
          | [] => Some (groups ++ [acc], ellipsis, [])
          | c :: rest =>
              let groups := groups ++ [acc] in
              if negb (c =? 58)%Z then None
              else match rest with
              | [] => None
              | 58%Z :: rest =>
                  if bool_decide (is_Some ellipsis) then None
                  else match rest with
                  | [] => Some (groups, Some (length groups), [])
                  | _ => parseGroups fuel rest (Some (length groups)) groups
                  end
              | _ => parseGroups fuel rest ellipsis groups
              end
          end
      end
  end.

(** Splits at the first occurrence of a character. *)
Fixpoint cutAt (c : Z) (s : list Z) : list Z * option (list Z) :=
  match s with
  | [] => ([], None)
  | x :: s => if (x =? c)%Z then ([], Some s)
              else let (before, after) := cutAt c s in (x :: before, after)
  end.

(** [strings.Cut] at a one-byte separator. *)
Definition Cut (sep : Z) (s : string) : string * option string :=
  let (before, after) := cutAt sep (codes s) in (text before, text <$> after).

Definition parseIPv6 (s : list Z) : option Addr :=
  let (s, zone) := cutAt 37 s in
  if bool_decide (zone = Some []) then None
  else
    let zone := default "" (text <$> zone) in
    let leading := match s with 58%Z :: 58%Z :: s => Some s | _ => None end in
    let ellipsis := match leading with Some _ => Some 0%nat | None => None end in
    let s := default s leading in
    if bool_decide (leading = Some []) then Some (Addr6 (replicate 8 0%Z) zone)
    else match parseGroups 8 s ellipsis [] with
    | None => None
    | Some (groups, ellipsis, rest) =>
        if negb (bool_decide (rest = [])) then None
        else if (length groups <? 8)%nat then
          match ellipsis with
          | None => None
          | Some e =>
              Some (Addr6 (take e groups ++ replicate (8 - length groups) 0%Z ++ drop e groups) zone)
          end
        else if bool_decide (is_Some ellipsis) then None
        else Some (Addr6 groups zone)
    end.

(** The first dot, colon or percent sign decides. *)
Fixpoint parseAs (s rest : list Z) : option Addr :=
  match rest with
  | [] => None
  | c :: rest =>
      if (c =? 46)%Z then parseIPv4 s
      else if (c =? 58)%Z then parseIPv6 s
      else if (c =? 37)%Z then None
      else parseAs s rest
  end.

Definition ParseAddr (s : string) : option Addr := parseAs (codes s) (codes s).

(** [netip.AddrFromSlice]. *)
Fixpoint pairs (b : list Z) : list Z :=
  match b with
  | x :: y :: b => (x * 256 + y)%Z :: pairs b
  | _ => []
  end.

Definition AddrFromSlice (b : bytes) : option Addr :=
  if (length b =? 4)%nat then Some (Addr4 (map bz b))
  else if (length b =? 16)%nat then Some (Addr6 (pairs (map bz b)) "")
  else None.

(** ** Methods *)

Definition Zone (a : Addr) : string :=
  match a with Addr4 _ => "" | Addr6 _ zone => zone end.

Definition Is4In6 (a : Addr) : bool :=
  match a with
  | Addr6 [0; 0; 0; 0; 0; 65535; _; _]%Z _ => true
  | _ => false
  end.

Definition IsUnspecified (a : Addr) : bool :=
  match a with
  | Addr4 octets => bool_decide (octets = [0; 0; 0; 0]%Z)
  | Addr6 groups zone => bool_decide (groups = replicate 8 0%Z ∧ zone = "")
  end.

Definition IsMulticast (a : Addr) : bool :=
  match a with
  | Addr4 (o :: _) => (Z.land o 0xf0 =? 0xe0)%Z
  | Addr6 (g :: _) _ => (Z.shiftr g 8 =? 0xff)%Z
  | _ => false
  end.

Definition IsLoopback (a : Addr) : bool :=
  match a with
  | Addr4 (o :: _) => (o =? 127)%Z
  | Addr6 [0; 0; 0; 0; 0; 65535; x; _]%Z _ => (Z.shiftr x 8 =? 127)%Z
  | Addr6 groups _ => bool_decide (groups = [0; 0; 0; 0; 0; 0; 0; 1]%Z)
  | _ => false
  end.

Definition IsLinkLocalUnicast (a : Addr) : bool :=
  match a with
  | Addr4 (o :: p :: _) => (o =? 169)%Z && (p =? 254)%Z
  | Addr6 [0; 0; 0; 0; 0; 65535; x; _]%Z _ => (x =? 169 * 256 + 254)%Z
  | Addr6 (g :: _) _ => (Z.land g 0xffc0 =? 0xfe80)%Z
  | _ => false
  end.

Definition IsGlobalUnicast (a : Addr) : bool :=
  match a with
  | Addr4 octets =>
      negb (bool_decide (octets = [0; 0; 0; 0]%Z)) && negb (bool_decide (octets = [255; 255; 255; 255]%Z))
  | Addr6 _ _ => negb (IsUnspecified a)
  end && negb (IsLoopback a) && negb (IsMulticast a) && negb (IsLinkLocalUnicast a).

Definition Is4 (a : Addr) : bool := if a is Addr4 _ then true else false.

(** The address as a number, and the number of its bits. *)
Definition addrValue (a : Addr) : Z :=
  match a with
  | Addr4 octets => fold_left (λ n o, n * 256 + o)%Z octets 0%Z
  | Addr6 groups _ => fold_left (λ n g, n * 65536 + g)%Z groups 0%Z
  end.
Definition AddrBitLen (a : Addr) : Z := if Is4 a then 32%Z else 128%Z.

(** A [netip.Prefix]; the zero prefix has no address. *)
Record Prefix : Type := mkPrefix {
  pfx_Addr : option Addr;
  pfx_Bits : Z
}.

Definition Prefix_IsValid (p : Prefix) : bool :=
  match pfx_Addr p with
  | Some a => (0 <=? pfx_Bits p)%Z && (pfx_Bits p <=? AddrBitLen a)%Z
  | None => false
  end.

(** [Prefix.Contains]: the same family and the same leading bits, no zone. *)
Definition Contains (p : Prefix) (a : Addr) : bool :=
  match pfx_Addr p with
  | Some net =>
      Prefix_IsValid p && (Zone a == "") && (AddrBitLen net =? AddrBitLen a)%Z &&
      let shift := (AddrBitLen a - pfx_Bits p)%Z in
      (Z.shiftr (addrValue a) shift =? Z.shiftr (addrValue net) shift)%Z
  | None => false
  end.

Definition Unmap (a : Addr) : Addr :=
  match a with
  | Addr6 [0; 0; 0; 0; 0; 65535; x; y]%Z _ =>
      Addr4 [Z.shiftr x 8; Z.land x 0xff; Z.shiftr y 8; Z.land y 0xff]
  | _ => a
  end.

(** ** Text *)

(** The digits of a number below [base ^ fuel], without leading zeros. *)
Fixpoint digitsOf (fuel : nat) (base n : Z) : list Z :=
  match fuel with
  | O => []
  | S fuel => (if (n <? base)%Z then [] else digitsOf fuel base (n `div` base)) ++ [n `mod` base]%Z
  end.

Definition decText (n : Z) : list Z := map (λ d, d + 48)%Z (digitsOf 3 10 n).
Definition hexDigit (d : Z) : Z := if (d <? 10)%Z then (d + 48)%Z else (d + 87)%Z.
Definition hexText (n : Z) : list Z := map hexDigit (digitsOf 4 16 n).

Definition string4 (octets : list Z) : list Z :=
  match octets with
  | [a; b; c; d] => decText a ++ [46]%Z ++ decText b ++ [46]%Z ++ decText c ++ [46]%Z ++ decText d
  | _ => []
  end.

(** The number of leading zero groups. *)
Fixpoint zeroRun (groups : list Z) : nat :=
  match groups with
  | g :: groups => if (g =? 0)%Z then S (zeroRun groups) else 0%nat
  | [] => 0%nat
  end.

(** The start and length of the first longest run of at least two zero groups. *)
Fixpoint longestRun (groups : list Z) (i : nat) (best : option (nat * nat)) : option (nat * nat) :=
  match groups with
  | [] => best
  | _ :: rest =>
      let l := zeroRun groups in
      let best := if (2 <=? l)%nat && (default 0%nat (snd <$> best) <? l)%nat
                  then Some (i, l) else best in
      longestRun rest (S i) best
  end.

Definition colonText (groups : list Z) : list Z :=
  match groups with
  | [] => []
  | g :: groups => hexText g ++ concat (map (λ g, 58%Z :: hexText g) groups)
  end.

Definition string6 (groups : list Z) (zone : string) : list Z :=
  match longestRun groups 0 None with
  | Some (start, l) => colonText (take start groups) ++ [58; 58]%Z ++ colonText (drop (start + l) groups)
  | None => colonText groups
  end ++ (if bool_decide (zone = "") then [] else 37%Z :: codes zone).

Definition Addr_String (a : Addr) : string :=
  text match a with
       | Addr4 octets => string4 octets
       | Addr6 [0; 0; 0; 0; 0; 65535; x; y]%Z zone =>
           codes "::ffff:" ++ string4 [Z.shiftr x 8; Z.land x 0xff; Z.shiftr y 8; Z.land y 0xff] ++
           (if bool_decide (zone = "") then [] else 37%Z :: codes zone)
       | Addr6 groups zone => string6 groups zone
       end.
