(* ===== verification/Prog.v ===== *)
(** * Effectful programs

    Code that calls the store, the clock and the host interfaces is a tree of calls: [Vis e k]
    makes the call [e] and continues with its answer. The tree does not fix what a call answers,
    so one definition of a handler serves an execution on its own, an execution interleaved with
    others and an environment that fails calls at will. [wp] reasons about a tree while other
    threads may change the state between two of its calls, and [pool_ok_reachable] carries it to
    every interleaving of a pool of trees. *)

From S2P Require Import Prelude.

Inductive prog (E : Type → Type) (A : Type) : Type :=
| Ret (a : A)
| Vis {X : Type} (e : E X) (k : X → prog E A).

Arguments Ret {E A} a.
Arguments Vis {E A X} e k.

Fixpoint prog_bind {E A B} (f : A → prog E B) (p : prog E A) : prog E B :=
  match p with
  | Ret a => f a
  | Vis e k => Vis e (λ x, prog_bind f (k x))
  end.

#[export] Instance prog_mret {E} : MRet (prog E) := λ A, Ret.
#[export] Instance prog_mbind {E} : MBind (prog E) := λ A B, prog_bind.

(** One call. *)
Definition call {E X} (e : E X) : prog E X := Vis e Ret.

(** ** Running a program alone

    [answer] gives the answer of a call and the state after it. *)
Fixpoint exec {E S A} (answer : ∀ X, E X → S → X * S) (p : prog E A) (s : S) : A * S :=
  match p with
  | Ret a => (a, s)
  | Vis e k => let (x, s) := answer _ e s in exec answer (k x) s
  end.

(** ** Runs of a program alone

    A run is a sequence of calls with any answers and the result they lead to. *)

Inductive called (E : Type → Type) : Type :=
| Ev {X : Type} (e : E X) (x : X).

Arguments Ev {E X} e x.

Fixpoint runs {E A} (p : prog E A) (tr : list (called E)) (a : A) : Prop :=
  match p with
  | Ret a' => tr = [] ∧ a = a'
  | Vis e k => ∃ x tr', tr = Ev e x :: tr' ∧ runs (k x) tr' a
  end.

Lemma runs_bind {E A B} (f : A → prog E B) (p : prog E A) tr b :
  runs (p ≫= f) tr b ↔ ∃ tr1 a tr2, tr = tr1 ++ tr2 ∧ runs p tr1 a ∧ runs (f a) tr2 b.
Proof.
  change (p ≫= f) with (prog_bind f p). revert tr. induction p as [a|X e k IH]; intros tr; simpl.
  - split; [intros Hrun; by exists [], a, tr|by intros (tr1 & a' & tr2 & -> & [-> ->] & Hrun)].
  - split.
    + intros (x & tr' & -> & Hrun). apply IH in Hrun as (tr1 & a & tr2 & -> & Hp & Hf).
      exists (Ev e x :: tr1), a, tr2. naive_solver.
    + intros (tr1 & a & tr2 & -> & (x & tr' & -> & Hp) & Hf). exists x, (tr' ++ tr2).
      split; [done|]. apply IH. eauto 10.
Qed.

Lemma runs_call {E X} (e : E X) tr x : runs (call e) tr x ↔ tr = [Ev e x].
Proof. simpl. naive_solver. Qed.

Lemma runs_ret {E A} (a : A) tr b : runs (mret a : prog E A) tr b ↔ tr = [] ∧ b = a.
Proof. done. Qed.

(** Running a program alone with the answers of a function records a run of it. *)
Definition traced {E S} (answer : ∀ X, E X → S → X * S) : ∀ X, E X → S * list (called E) → X * (S * list (called E)) :=
  λ X e st, let (x, s) := answer X e st.1 in (x, (s, st.2 ++ [Ev e x])).

Lemma runs_traced {E S A} (answer : ∀ X, E X → S → X * S) (p : prog E A) (s : S) (tr : list (called E)) :
  ∃ tr', (exec (traced answer) p (s, tr)).2.2 = tr ++ tr' ∧ runs p tr' (exec (traced answer) p (s, tr)).1.
Proof.
  revert s tr. induction p as [a|X e k IH]; intros s tr; [exists []; by rewrite app_nil_r|].
  assert (exec (traced answer) (Vis e k) (s, tr) =
    exec (traced answer) (k (answer X e s).1) ((answer X e s).2, tr ++ [Ev e (answer X e s).1])) as ->.
  { simpl. unfold traced at 1. simpl. by destruct (answer X e s). }
  destruct (IH (answer X e s).1 (answer X e s).2 (tr ++ [Ev e (answer X e s).1])) as (tr' & Htr & Hrun).
  exists (Ev e (answer X e s).1 :: tr'). rewrite Htr, <- app_assoc. simpl. eauto.
Qed.

(** The run of a program alone from its initial state. *)
Definition run_of {E S A} (answer : ∀ X, E X → S → X * S) (p : prog E A) (s : S) : list (called E) :=
  (exec (traced answer) p (s, [])).2.2.

Lemma runs_run_of {E S A} (answer : ∀ X, E X → S → X * S) (p : prog E A) (s : S) :
  runs p (run_of answer p s) (exec (traced answer) p (s, [])).1.
Proof. unfold run_of. by destruct (runs_traced answer p s []) as (tr & -> & Hrun). Qed.

(** ** Programs that share a growing state

    [step e w x w'] is the call [e] made in the state [w], its answer [x] and the state after it.
    States grow along [le], and [I] is an invariant every call keeps as long as its guarantee
    [guar] holds when it is made. *)

Section wp.
Context {E : Type → Type} {W : Type}.
Context (le : relation W) `{!PreOrder le} (I : W → Prop).
Context (guar : ∀ X, E X → W → Prop) (step : ∀ X, E X → W → X → W → Prop).

(** [wp p Q w]: started in [w], every call of [p] is guaranteed by what is known when the program
    decides to make it, and [Q] holds of the result, whatever the other threads add to the state
    before each call. *)
Fixpoint wp {A} (p : prog E A) (Q : A → W → Prop) (w : W) : Prop :=
  match p with
  | Ret a => Q a w
  | Vis e k =>
      guar _ e w ∧
      ∀ w0 x w', le w w0 → I w0 → guar _ e w0 → step _ e w0 x w' → le w0 w' → I w' → wp (k x) Q w'
  end.

Definition stable {A} (Q : A → W → Prop) : Prop := ∀ a w w', le w w' → Q a w → Q a w'.

Lemma wp_conseq {A} (p : prog E A) (Q Q' : A → W → Prop) w :
  (∀ a w', le w w' → Q a w' → Q' a w') → wp p Q w → wp p Q' w.
Proof.
  revert w. induction p as [a|X e k IH]; intros w HQ; simpl; [by apply HQ|].
  intros [Hg Hk]. split; [done|]. intros w0 x w' Hle HI Hg0 Hstep Hle' HI'.
  apply IH; [|by eapply Hk]. intros a w'' Hle''. apply HQ. by repeat (etrans; [done|]).
Qed.

Lemma wp_bind {A B} (f : A → prog E B) (p : prog E A) (Q : B → W → Prop) w :
  wp p (λ a, wp (f a) Q) w → wp (p ≫= f) Q w.
Proof.
  change (p ≫= f) with (prog_bind f p).
  revert w. induction p as [a|X e k IH]; intros w; simpl; [done|].
  intros [Hg Hk]. split; [done|]. intros. by eapply IH, Hk.
Qed.

(** The result state satisfies the invariant when the initial one does. *)
Lemma wp_inv {A} (p : prog E A) (Q : A → W → Prop) w :
  I w → wp p Q w → wp p (λ a w', I w' ∧ Q a w') w.
Proof.
  revert w. induction p as [a|X e k IH]; intros w HI; simpl; [done|].
  intros [Hg Hk]. split; [done|]. intros. eapply IH; [done|]. by eapply Hk.
Qed.

(** A call: its guarantee now, and what follows from the step it makes. *)
Lemma wp_call {X} (e : E X) (Q : X → W → Prop) w :
  guar _ e w →
  (∀ w0 x w', le w w0 → I w0 → guar _ e w0 → step _ e w0 x w' → le w0 w' → I w' → Q x w') →
  wp (call e) Q w.
Proof. done. Qed.

(** What is safe stays safe in a larger state when guarantees do. *)
Lemma wp_le {A} (p : prog E A) (Q : A → W → Prop) w w' :
  (∀ X (e : E X) v v', le v v' → guar _ e v → guar _ e v') → stable Q →
  le w w' → wp p Q w → wp p Q w'.
Proof.
  intros Hguar HQ Hle. destruct p as [a|X e k]; simpl; [by apply HQ|].
  intros [Hg Hk]. split; [by eapply Hguar|]. intros w0 x w'' Hle'. apply Hk. by etrans.
Qed.

End wp.

(** ** Interleavings *)

Section pool.
Context {E : Type → Type} {W : Type}.
Context (step : ∀ X, E X → W → X → W → Prop).
Context (starts : prog E unit → Prop).

(** A state with the threads that run on it. One step is one call of one thread or a new thread. *)
Inductive pool_step : W * list (prog E unit) → W * list (prog E unit) → Prop :=
| pool_call w w' ts i X (e : E X) k x :
    ts !! i = Some (Vis e k) → step X e w x w' → pool_step (w, ts) (w', <[i := k x]> ts)
| pool_spawn w ts p : starts p → pool_step (w, ts) (w, ts ++ [p]).

Context (le : relation W) `{!PreOrder le} (I : W → Prop) (guar : ∀ X, E X → W → Prop).

(** A thread that is safe in the state [w]. *)
Definition safe (w : W) (p : prog E unit) : Prop := wp le I guar step p (λ _ _, True) w.

Definition pool_ok (c : W * list (prog E unit)) : Prop := I c.1 ∧ Forall (safe c.1) c.2.

Context (guar_le : ∀ X (e : E X) v v', le v v' → guar _ e v → guar _ e v').
Context (step_ok : ∀ X (e : E X) w x w', I w → guar _ e w → step X e w x w' → le w w' ∧ I w').
Context (starts_ok : ∀ p w, I w → starts p → safe w p).

Lemma safe_all w w' ts : le w w' → Forall (safe w) ts → Forall (safe w') ts.
Proof. intros Hle Hts. eapply Forall_impl; [done|]. intros p. by apply wp_le. Qed.

Lemma pool_ok_step c c' : pool_step c c' → pool_ok c → pool_ok c'.
Proof.
  intros [w w' ts i X e k x Hi Hstep|w ts p Hp] [HI Hts]; simpl in *.
  - pose proof Hts as Hall. rewrite Forall_lookup in Hts. destruct (Hts _ _ Hi) as [Hg Hk].
    destruct (step_ok _ _ _ _ _ HI Hg Hstep) as [Hle HI']. split; [done|].
    apply Forall_insert; [by apply (safe_all w)|]. by eapply (Hk w).
  - split; [done|]. apply Forall_app. split; [done|]. constructor; [by apply starts_ok|done].
Qed.

Lemma pool_ok_reachable c c' : rtc pool_step c c' → pool_ok c → pool_ok c'.
Proof. induction 1; eauto using pool_ok_step. Qed.

End pool.

(** Programs run one after the other, each to its end, are one interleaving. *)
Section exec_pool.
Context {E : Type → Type} {W : Type}.
Context (step : ∀ X, E X → W → X → W → Prop) (starts : prog E unit → Prop).
Context (answer : ∀ X, E X → W → X * W).
Context (answer_ok : ∀ X (e : E X) w, step X e w (answer X e w).1 (answer X e w).2).

Lemma exec_thread ts (p : prog E unit) w :
  ∃ ts', rtc (pool_step step starts) (w, ts ++ [p]) ((exec answer p w).2, ts').
Proof.
  revert w. induction p as [a|X e k IH]; intros w; simpl; [by eexists|].
  pose proof (answer_ok X e w) as Hstep. destruct (answer X e w) as [x w'] eqn:Heq. simpl in *.
  destruct (IH x w') as [ts' Hrun]. exists ts'. eapply rtc_l; [|exact Hrun].
  assert (ts ++ [k x] = <[length ts := k x]> (ts ++ [Vis e k])) as ->.
  { by rewrite insert_app_r_alt, Nat.sub_diag by lia. }
  eapply pool_call; [|exact Hstep]. by rewrite list_lookup_middle.
Qed.

Lemma exec_pool c (p : prog E unit) w ts :
  starts p → rtc (pool_step step starts) c (w, ts) →
  ∃ ts', rtc (pool_step step starts) c ((exec answer p w).2, ts').
Proof.
  intros Hp Hrun. destruct (exec_thread ts p w) as [ts' Hthread]. exists ts'.
  etrans; [exact Hrun|]. eapply rtc_l; [by apply pool_spawn|done].
Qed.

End exec_pool.
