(* ===== verification/Status.v ===== *)
(** * Resource statuses (src/status.go)

    The statuses of accounts, orders, authorizations and challenges with the transitions that
    RFC 8555 section 7.1.6 allows. A status is a Go string: the named constants are constructors
    and [Other] stands for any string that is none of them. *)

From S2P Require Import Prelude.

Inductive AccountStatus : Type :=
| AccountValid
| AccountDeactivated
| AccountRevoked
| AccountOther (s : string).

Inductive OrderStatus : Type :=
| OrderPending
| OrderReady
| OrderProcessing
| OrderValid
| OrderInvalid
| OrderOther (s : string).

Inductive AuthorizationStatus : Type :=
| AuthorizationPending
| AuthorizationValid
| AuthorizationInvalid
| AuthorizationDeactivated
| AuthorizationExpired
| AuthorizationRevoked
| AuthorizationOther (s : string).

Inductive ChallengeStatus : Type :=
| ChallengePending
| ChallengeProcessing
| ChallengeValid
| ChallengeInvalid
| ChallengeOther (s : string).

#[export] Instance AccountStatus_eq_dec : EqDecision AccountStatus.
Proof. solve_decision. Defined.

#[export] Instance OrderStatus_eq_dec : EqDecision OrderStatus.
Proof. solve_decision. Defined.

#[export] Instance AuthorizationStatus_eq_dec : EqDecision AuthorizationStatus.
Proof. solve_decision. Defined.

#[export] Instance ChallengeStatus_eq_dec : EqDecision ChallengeStatus.
Proof. solve_decision. Defined.

(** ** Wire names: the conversions [string(status)] *)

Definition AccountStatus_string (s : AccountStatus) : string :=
  match s with
  | AccountValid => "valid"
  | AccountDeactivated => "deactivated"
  | AccountRevoked => "revoked"
  | AccountOther s => s
  end.

Definition OrderStatus_string (s : OrderStatus) : string :=
  match s with
  | OrderPending => "pending"
  | OrderReady => "ready"
  | OrderProcessing => "processing"
  | OrderValid => "valid"
  | OrderInvalid => "invalid"
  | OrderOther s => s
  end.

Definition AuthorizationStatus_string (s : AuthorizationStatus) : string :=
  match s with
  | AuthorizationPending => "pending"
  | AuthorizationValid => "valid"
  | AuthorizationInvalid => "invalid"
  | AuthorizationDeactivated => "deactivated"
  | AuthorizationExpired => "expired"
  | AuthorizationRevoked => "revoked"
  | AuthorizationOther s => s
  end.

Definition ChallengeStatus_string (s : ChallengeStatus) : string :=
  match s with
  | ChallengePending => "pending"
  | ChallengeProcessing => "processing"
  | ChallengeValid => "valid"
  | ChallengeInvalid => "invalid"
  | ChallengeOther s => s
  end.

(** ** Methods *)

Definition AccountStatus_Known (s : AccountStatus) : bool :=
  match s with
  | AccountValid | AccountDeactivated | AccountRevoked => true
  | _ => false
  end.

Definition AccountStatus_CanTransition (s next : AccountStatus) : bool :=
  (s == AccountValid) && ((next == AccountDeactivated) || (next == AccountRevoked)).

Definition OrderStatus_Known (s : OrderStatus) : bool :=
  match s with
  | OrderPending | OrderReady | OrderProcessing | OrderValid | OrderInvalid => true
  | _ => false
  end.

Definition OrderStatus_Terminal (s : OrderStatus) : bool :=
  (s == OrderValid) || (s == OrderInvalid).

Definition OrderStatus_CanTransition (s next : OrderStatus) : bool :=
  match s with
  | OrderPending => (next == OrderReady) || (next == OrderInvalid)
  | OrderReady => (next == OrderProcessing) || (next == OrderInvalid)
  | OrderProcessing => (next == OrderValid) || (next == OrderInvalid)
  | OrderValid | OrderInvalid => false
  | _ => false
  end.

Definition AuthorizationStatus_Known (s : AuthorizationStatus) : bool :=
  match s with
  | AuthorizationPending | AuthorizationValid | AuthorizationInvalid
  | AuthorizationDeactivated | AuthorizationExpired | AuthorizationRevoked => true
  | _ => false
  end.

Definition AuthorizationStatus_Terminal (s : AuthorizationStatus) : bool :=
  AuthorizationStatus_Known s && (s != AuthorizationPending) && (s != AuthorizationValid).

Definition AuthorizationStatus_CanTransition (s next : AuthorizationStatus) : bool :=
  match s with
  | AuthorizationPending =>
      (next == AuthorizationValid) || (next == AuthorizationInvalid) ||
      (next == AuthorizationDeactivated) || (next == AuthorizationExpired)
  | AuthorizationValid =>
      (next == AuthorizationDeactivated) || (next == AuthorizationExpired) ||
      (next == AuthorizationRevoked)
  | AuthorizationInvalid | AuthorizationDeactivated | AuthorizationExpired
  | AuthorizationRevoked => false
  | _ => false
  end.

Definition ChallengeStatus_Known (s : ChallengeStatus) : bool :=
  match s with
  | ChallengePending | ChallengeProcessing | ChallengeValid | ChallengeInvalid => true
  | _ => false
  end.

Definition ChallengeStatus_Terminal (s : ChallengeStatus) : bool :=
  (s == ChallengeValid) || (s == ChallengeInvalid).

Definition ChallengeStatus_CanTransition (s next : ChallengeStatus) : bool :=
  match s with
  | ChallengePending =>
      (next == ChallengeProcessing) || (next == ChallengeValid) || (next == ChallengeInvalid)
  | ChallengeProcessing => (next == ChallengeValid) || (next == ChallengeInvalid)
  | ChallengeValid | ChallengeInvalid => false
  | _ => false
  end.
