(* ===== verification/Problem.v ===== *)
(** * Identifiers, problems and errors

    The identifier values of src/identifier.go, the problem documents of src/problem.go, the store
    errors of src/store.go and the Go error values that carry them. *)

From S2P Require Import Prelude.

(** ** Identifiers (src/identifier.go) *)

Inductive IdentifierType : Type :=
| IdentifierDNS
| IdentifierIP
| IdentifierTNAuthList
| IdentifierNfInstanceID
| IdentifierURI
| IdentifierOther (s : string).

#[export] Instance IdentifierType_eq_dec : EqDecision IdentifierType.
Proof. solve_decision. Defined.

#[export] Instance IdentifierType_countable : Countable IdentifierType.
Proof.
  apply (inj_countable'
    (λ t, match t with
          | IdentifierDNS => inl 0%nat
          | IdentifierIP => inl 1%nat
          | IdentifierTNAuthList => inl 2%nat
          | IdentifierNfInstanceID => inl 3%nat
          | IdentifierURI => inl 4%nat
          | IdentifierOther s => inr s
          end)
    (λ c : nat + string,
          match c with
          | inl 0%nat => IdentifierDNS
          | inl 1%nat => IdentifierIP
          | inl 2%nat => IdentifierTNAuthList
          | inl 3%nat => IdentifierNfInstanceID
          | inl _ => IdentifierURI
          | inr s => IdentifierOther s
          end)).
  by intros [].
Defined.

Definition IdentifierType_string (t : IdentifierType) : string :=
  match t with
  | IdentifierDNS => "dns"
  | IdentifierIP => "ip"
  | IdentifierTNAuthList => "TNAuthList"
  | IdentifierNfInstanceID => "NfInstanceId"
  | IdentifierURI => "uri"
  | IdentifierOther s => s
  end.

Record Identifier : Type := mkIdentifier {
  id_Type : IdentifierType;
  id_Value : string
}.

#[export] Instance Identifier_eq_dec : EqDecision Identifier.
Proof. solve_decision. Defined.

#[export] Instance Identifier_countable : Countable Identifier.
Proof.
  apply (inj_countable' (λ i, (id_Type i, id_Value i)) (λ p, mkIdentifier p.1 p.2)).
  by intros [].
Defined.

(** ** Problem documents (src/problem.go) *)

Inductive ErrorType : Type :=
| ErrorAccountDoesNotExist
| ErrorAlreadyReplaced
| ErrorAlreadyRevoked
| ErrorBadCSR
| ErrorBadNonce
| ErrorBadPublicKey
| ErrorBadRevocationReason
| ErrorBadSignatureAlgorithm
| ErrorCAA
| ErrorCompound
| ErrorConnection
| ErrorDNS
| ErrorDNSSEC
| ErrorExternalAccountRequired
| ErrorIncorrectResponse
| ErrorInvalidContact
| ErrorInvalidProfile
| ErrorMalformed
| ErrorOrderNotReady
| ErrorRateLimited
| ErrorRejectedIdentifier
| ErrorServerInternal
| ErrorTLS
| ErrorUnauthorized
| ErrorUnsupportedContact
| ErrorUnsupportedIdentifier
| ErrorUserActionRequired
| ErrorTypeOther (s : string).

#[export] Instance ErrorType_eq_dec : EqDecision ErrorType.
Proof. solve_decision. Defined.

(** A problem. Subproblems are pointers, so an entry may be nil. *)
Inductive Problem : Type := mkProblem {
  p_Type : ErrorType;
  p_Detail : string;
  p_Status : Z;
  p_Identifier : option Identifier;
  p_Subproblems : list (option Problem);
  p_Algorithms : list string;
  p_RetryAfter : Duration
}.

(** Decidable equality, by recursion through the list of subproblems. *)
Definition option_Problem_eq_dec (eq_dec : ∀ p q : Problem, Decision (p = q))
    (o o' : option Problem) : Decision (o = o') :=
  match o, o' with
  | Some p, Some q => match eq_dec p q with
                      | left E => left (f_equal Some E)
                      | right N => right (λ E, N (Some_inj _ _ E))
                      end
  | None, None => left eq_refl
  | Some _, None => right (λ E, Some_ne_None _ E)
  | None, Some _ => right (λ E, None_ne_Some _ E)
  end.

#[export] Instance Problem_eq_dec : EqDecision Problem.
Proof.
  unfold EqDecision, RelDecision. fix go 1. intros p q.
  destruct p as [t d s i subs a r], q as [t' d' s' i' subs' a' r'].
  destruct (decide (t = t')) as [->|]; [|right; congruence].
  destruct (decide (d = d')) as [->|]; [|right; congruence].
  destruct (decide (s = s')) as [->|]; [|right; congruence].
  destruct (decide (i = i')) as [->|]; [|right; congruence].
  destruct (decide (a = a')) as [->|]; [|right; congruence].
  destruct (decide (r = r')) as [->|]; [|right; congruence].
  assert (Decision (subs = subs')) as Hsubs.
  { revert subs'. induction subs as [|o subs IH]; intros [|o' subs'].
    - by left.
    - by right.
    - by right.
    - destruct (option_Problem_eq_dec go o o') as [->|]; [|right; congruence].
      destruct (IH subs') as [->|]; [by left|right; congruence]. }
  destruct Hsubs as [->|]; [by left|right; congruence].
Defined.

Definition NewProblem (t : ErrorType) (detail : string) : Problem :=
  mkProblem t detail 0 None [] [] 0.

Definition Compound (detail : string) (subproblems : list (option Problem)) : Problem :=
  mkProblem ErrorCompound detail 0 None subproblems [] 0.

Definition WithStatus (p : Problem) (status : Z) : Problem := {| p with p_Status := status |}.

Definition WithIdentifier (p : Problem) (id : Identifier) : Problem :=
  {| p with p_Identifier := Some id |}.

Definition WithRetryAfter (p : Problem) (d : Duration) : Problem :=
  {| p with p_RetryAfter := d |}.

(** Returns a rejectedIdentifier problem that names the offending identifier. *)
Definition rejected (id : Identifier) (detail : string) : Problem :=
  WithIdentifier (NewProblem ErrorRejectedIdentifier detail) id.

Definition ProblemNamespace : string := "urn:ietf:params:acme:error:".

Definition ErrorType_string (t : ErrorType) : string :=
  match t with
  | ErrorAccountDoesNotExist => "accountDoesNotExist"
  | ErrorAlreadyReplaced => "alreadyReplaced"
  | ErrorAlreadyRevoked => "alreadyRevoked"
  | ErrorBadCSR => "badCSR"
  | ErrorBadNonce => "badNonce"
  | ErrorBadPublicKey => "badPublicKey"
  | ErrorBadRevocationReason => "badRevocationReason"
  | ErrorBadSignatureAlgorithm => "badSignatureAlgorithm"
  | ErrorCAA => "caa"
  | ErrorCompound => "compound"
  | ErrorConnection => "connection"
  | ErrorDNS => "dns"
  | ErrorDNSSEC => "dnssec"
  | ErrorExternalAccountRequired => "externalAccountRequired"
  | ErrorIncorrectResponse => "incorrectResponse"
  | ErrorInvalidContact => "invalidContact"
  | ErrorInvalidProfile => "invalidProfile"
  | ErrorMalformed => "malformed"
  | ErrorOrderNotReady => "orderNotReady"
  | ErrorRateLimited => "rateLimited"
  | ErrorRejectedIdentifier => "rejectedIdentifier"
  | ErrorServerInternal => "serverInternal"
  | ErrorTLS => "tls"
  | ErrorUnauthorized => "unauthorized"
  | ErrorUnsupportedContact => "unsupportedContact"
  | ErrorUnsupportedIdentifier => "unsupportedIdentifier"
  | ErrorUserActionRequired => "userActionRequired"
  | ErrorTypeOther s => s
  end.

Definition URN (t : ErrorType) : string := ProblemNamespace +:+ ErrorType_string t.

(** The map [defaultStatus]. *)
Definition defaultStatus (t : ErrorType) : option Z :=
  match t with
  | ErrorAlreadyReplaced => Some 409
  | ErrorCAA | ErrorExternalAccountRequired | ErrorOrderNotReady | ErrorUnauthorized
  | ErrorUserActionRequired => Some 403
  | ErrorRateLimited => Some 429
  | ErrorServerInternal => Some 500
  | ErrorTypeOther _ => None
  | _ => Some 400
  end%Z.

Definition HTTPStatus (p : Problem) : Z :=
  if (p_Status p != 0%Z) then p_Status p
  else match defaultStatus (p_Type p) with
       | Some status => status
       | None => 500%Z
       end.

(** [Problem.Error]. *)
Definition Problem_Error (p : Problem) : string :=
  if (p_Detail p == "") then URN (p_Type p) else URN (p_Type p) +:+ ": " +:+ p_Detail p.

(** ** Errors

    The errors the program creates or distinguishes. [ErrContext] is the error of a context that
    ended, [ErrMsg] any error without structure, [ErrWrap] an error of [fmt.Errorf] that puts a
    prefix before its [%w], [ErrJWS] the error of package jws and [ErrPanic] the run-time panic of
    a nil dereference, which is not an error value of Go but ends the operation all the same. *)

(** The rejection codes of package jws (src/internal/jws/jws.go). *)
Inductive Code : Type :=
| CodeMalformed
| CodeBadNonce
| CodeBadSignatureAlgorithm
| CodeBadPublicKey
| CodeBadSignature.

#[export] Instance Code_eq_dec : EqDecision Code.
Proof. solve_decision. Defined.

Inductive error : Type :=
| ErrNotFound
| ErrConflict
| ErrRevisionMismatch
| ErrAlreadyReplaced
| ErrContext (cause : string)
| ErrMsg (msg : string)
| ErrWrap (msg : string) (err : error)
| ErrProblem (p : Problem)
| ErrRetryable (p : option Problem) (err : option error)
| ErrJWS (code : Code) (detail : string)
| ErrPanic.

(** Results of fallible calls. *)
Notation Res := (result error) (only parsing).

(** The error of a context, if it has ended. *)
Notation Ctx := (option error) (only parsing).

(** The chain of [errors.Unwrap]: the error followed by its causes. *)
Fixpoint error_chain (e : error) : list error :=
  e :: match e with
       | ErrWrap _ cause => error_chain cause
       | ErrRetryable _ (Some cause) => error_chain cause
       | _ => []
       end.

Definition is_ErrNotFound (e : error) : bool :=
  if e is ErrNotFound then true else false.
Definition is_ErrConflict (e : error) : bool :=
  if e is ErrConflict then true else false.
Definition is_ErrRevisionMismatch (e : error) : bool :=
  if e is ErrRevisionMismatch then true else false.
Definition is_ErrAlreadyReplaced (e : error) : bool :=
  if e is ErrAlreadyReplaced then true else false.

(** [errors.Is(err, ErrNotFound)] and its kin. *)
Definition IsNotFound (e : error) : bool := existsb is_ErrNotFound (error_chain e).
Definition IsConflict (e : error) : bool := existsb is_ErrConflict (error_chain e).
Definition IsRevisionMismatch (e : error) : bool := existsb is_ErrRevisionMismatch (error_chain e).
Definition IsAlreadyReplaced (e : error) : bool := existsb is_ErrAlreadyReplaced (error_chain e).

(** [errors.AsType[*Problem](err)]: the first problem of the chain. *)
Definition AsProblem (e : error) : option Problem :=
  head (omap (λ x, if x is ErrProblem p then Some p else None) (error_chain e)).

(** [errors.AsType[*RetryableError](err)]: the problem field of the first retryable error. *)
Definition AsRetryable (e : error) : option (option Problem) :=
  head (omap (λ x, if x is ErrRetryable p _ then Some p else None) (error_chain e)).

(** [errors.AsType[*jws.Error](err)]: the first JWS error of the chain. *)
Definition AsJWS (e : error) : option (Code * string) :=
  head (omap (λ x, if x is ErrJWS code detail then Some (code, detail) else None) (error_chain e)).

(** [err.Error()]. A retryable error without a problem would dereference nil. *)
Fixpoint error_Error (e : error) : string :=
  match e with
  | ErrNotFound => "acmeserver: resource not found"
  | ErrConflict => "acmeserver: resource already exists"
  | ErrRevisionMismatch => "acmeserver: resource revision mismatch"
  | ErrAlreadyReplaced => "acmeserver: certificate already replaced"
  | ErrContext cause => cause
  | ErrMsg msg => msg
  | ErrWrap prefix err => prefix +:+ error_Error err
  | ErrProblem p => Problem_Error p
  | ErrRetryable p err =>
      default "" (Problem_Error <$> p) +:+
      match err with Some err => ": " +:+ error_Error err | None => "" end
  | ErrJWS _ detail => detail
  | ErrPanic => "runtime error: invalid memory address or nil pointer dereference"
  end.
