(* ===== verification/Resource.v ===== *)
(** * Stored resources (src/resource.go, src/work.go, src/issuer.go)

    The records a store persists, with the methods that read a status at a given time. *)

From S2P Require Import Prelude Status Problem.

(** ** Challenge types, task kinds and keys *)

Inductive ChallengeType : Type :=
| ChallengeHTTP01
| ChallengeDNS01
| ChallengeTLSALPN01
| ChallengeTKAuth01
| ChallengeTypeOther (s : string).

#[export] Instance ChallengeType_eq_dec : EqDecision ChallengeType.
Proof. solve_decision. Defined.

Definition ChallengeType_string (t : ChallengeType) : string :=
  match t with
  | ChallengeHTTP01 => "http-01"
  | ChallengeDNS01 => "dns-01"
  | ChallengeTLSALPN01 => "tls-alpn-01"
  | ChallengeTKAuth01 => "tkauth-01"
  | ChallengeTypeOther s => s
  end.

Inductive TaskKind : Type :=
| TaskValidate
| TaskIssue
| TaskKindOther (s : string).

#[export] Instance TaskKind_eq_dec : EqDecision TaskKind.
Proof. solve_decision. Defined.

(** The public keys of [crypto.PublicKey] the program distinguishes. *)
Inductive Curve : Type :=
| P256
| P384
| P521
| CurveOther (name : string).

#[export] Instance Curve_eq_dec : EqDecision Curve.
Proof. solve_decision. Defined.

Inductive PublicKey : Type :=
| KeyECDSA (curve : Curve) (x y : Z)
| KeyRSA (n e : Z)
| KeyEd25519 (k : bytes)
| KeyOther (description : string).

#[export] Instance PublicKey_eq_dec : EqDecision PublicKey.
Proof. solve_decision. Defined.

(** ** Accounts *)

Record Account : Type := mkAccount {
  acct_ID : string;
  acct_Status : AccountStatus;
  acct_Key : PublicKey;
  acct_KeyThumbprint : string;
  acct_Contact : list string;
  acct_TermsOfServiceAgreed : bool;
  acct_ExternalAccountID : string;
  acct_ExternalAccountClaim : string;
  acct_CreatedAt : Time;
  acct_Revision : Z
}.

#[export] Instance Account_eq_dec : EqDecision Account.
Proof. solve_decision. Defined.

(** ** Orders *)

(** How one identifier of an order was validated. *)
Record Validation : Type := mkValidation {
  v_Identifier : Identifier;
  v_Type : ChallengeType;
  v_Validated : Time;
  v_CACertificate : bool;
  v_GrantExpires : Time;
  v_Names : list Identifier;
  v_NFType : string;
  v_PreApproved : bool
}.

#[export] Instance Validation_eq_dec : EqDecision Validation.
Proof. solve_decision. Defined.

(** The durable authorization decision made before the first CA call. *)
Record IssuanceState : Type := mkIssuanceState {
  is_OperationID : string;
  is_AuthorizedAt : Time;
  is_Deadline : Time;
  is_Validations : list Validation
}.

#[export] Instance IssuanceState_eq_dec : EqDecision IssuanceState.
Proof. solve_decision. Defined.

(** The outcome of an issuance attempt (src/issuer.go). *)
Record IssueResult : Type := mkIssueResult {
  ir_Chain : list bytes;
  ir_CAReference : string;
  ir_Pending : bool;
  ir_RetryAfter : Duration;
  ir_Rejected : option Problem
}.

#[export] Instance IssueResult_eq_dec : EqDecision IssueResult.
Proof. solve_decision. Defined.

Record Order : Type := mkOrder {
  ord_ID : string;
  ord_AccountID : string;
  ord_Status : OrderStatus;
  ord_Expires : Time;
  ord_Identifiers : list Identifier;
  ord_NotBefore : Time;
  ord_NotAfter : Time;
  ord_AuthorizationIDs : list string;
  ord_Error : option Problem;
  ord_CSR : bytes;
  ord_CertificateID : string;
  ord_Issuance : option IssuanceState;
  ord_UnpublishedResult : option IssueResult;
  ord_Replaces : string;
  ord_Profile : string;
  ord_CreatedAt : Time;
  ord_Revision : Z
}.

#[export] Instance Order_eq_dec : EqDecision Order.
Proof. solve_decision. Defined.

(** The status clients see at [now]: an expired pending or ready order is invalid. *)
Definition StatusAt (o : Order) (now : Time) : OrderStatus :=
  if ((ord_Status o == OrderPending) || (ord_Status o == OrderReady)) &&
     negb (After (ord_Expires o) now)
  then OrderInvalid
  else ord_Status o.

(** ** Authorizations and challenges *)

Record Authorization : Type := mkAuthorization {
  az_ID : string;
  az_AccountID : string;
  az_OrderID : string;
  az_Identifier : Identifier;
  az_Status : AuthorizationStatus;
  az_Expires : Time;
  az_Wildcard : bool;
  az_ChallengeIDs : list string;
  az_CACertificate : bool;
  az_GrantExpires : Time;
  az_GrantNames : list Identifier;
  az_GrantNFType : string;
  az_PreApproved : bool;
  az_CreatedAt : Time;
  az_Revision : Z
}.

#[export] Instance Authorization_eq_dec : EqDecision Authorization.
Proof. solve_decision. Defined.

(** The identifier as the order named it, with the wildcard prefix restored. *)
Definition orderIdentifier (a : Authorization) : Identifier :=
  let id := az_Identifier a in
  if az_Wildcard a then {| id with id_Value := "*." +:+ id_Value id |} else id.

Record Challenge : Type := mkChallenge {
  ch_ID : string;
  ch_AuthorizationID : string;
  ch_AccountID : string;
  ch_Type : ChallengeType;
  ch_Status : ChallengeStatus;
  ch_Token : string;
  ch_AuthorityToken : string;
  ch_KeyThumbprint : string;
  ch_Validated : Time;
  ch_Error : option Problem;
  ch_Revision : Z
}.

#[export] Instance Challenge_eq_dec : EqDecision Challenge.
Proof. solve_decision. Defined.

(** ** Certificates *)

Record Certificate : Type := mkCertificate {
  crt_ID : string;
  crt_AccountID : string;
  crt_OrderID : string;
  crt_CAReference : string;
  crt_Chain : list bytes;
  crt_NotBefore : Time;
  crt_NotAfter : Time;
  crt_Revoked : bool;
  crt_RevokedAt : Time;
  crt_RevocationReason : Z;
  crt_RevocationOperationID : string;
  crt_RevocationRequestedAt : Time;
  crt_RenewalID : string;
  crt_ReplacedByOrderID : string;
  crt_Validations : list Validation;
  crt_CreatedAt : Time;
  crt_Revision : Z
}.

#[export] Instance Certificate_eq_dec : EqDecision Certificate.
Proof. solve_decision. Defined.

(** ** Tasks (src/work.go) *)

Record Task : Type := mkTask {
  task_ID : string;
  task_Kind : TaskKind;
  task_TargetID : string;
  task_AccountID : string;
  task_RunAt : Time;
  task_Attempts : Z;
  task_LeaseUntil : Time;
  task_Fence : Z;
  task_CreatedAt : Time
}.

#[export] Instance Task_eq_dec : EqDecision Task.
Proof. solve_decision. Defined.

(** ** The order error of a lost authorization (src/store.go) *)

Definition InvalidAuthorizationProblem : Problem :=
  NewProblem ErrorUnauthorized "an order authorization is no longer valid".
