(* ===== verification/Nonce.v ===== *)
(** * The nonce manager (src/nonce/nonce.go)

    The state of [nonce.Manager] and its operations. The clock is read once per operation and the
    random source delivers a list of 16-byte reads, an exhausted source being the error of
    [io.ReadFull]. The mutex makes each operation one atomic step. *)

From S2P Require Import Prelude Status Problem Base64.

Definition DefaultTTL : Duration := Hour.
Definition DefaultCapacity : Z := 100000.

(** Records a nonce in issue order for expiry and eviction. *)
Record entry : Type := mkEntry {
  e_value : string;
  e_expires : Time
}.

#[export] Instance entry_eq_dec : EqDecision entry.
Proof. solve_decision. Defined.

Record Manager : Type := mkManager {
  m_ttl : Duration;
  m_capacity : Z;
  m_live : gmap string Time;
  m_queue : list entry;
  m_head : nat
}.

(** The options that are not functions. *)
Record Options : Type := mkOptions {
  opt_TTL : Duration;
  opt_Capacity : Z
}.

Definition New (opts : Options) : Manager :=
  {| m_ttl := if (opt_TTL opts <=? 0)%Z then DefaultTTL else opt_TTL opts;
     m_capacity := if (opt_Capacity opts <=? 0)%Z then DefaultCapacity else opt_Capacity opts;
     m_live := ∅;
     m_queue := [];
     m_head := 0 |}.

(** [len(m.live)]. *)
Definition Len (m : Manager) : Z := Z.of_nat (size (m_live m)).

(** Whether compaction keeps an entry: the live nonce was issued by it. *)
Definition current (live : gmap string Time) (e : entry) : bool :=
  match live !! e_value e with
  | Some expires => (expires =? e_expires e)%Z
  | None => false
  end.

(** Compacts consumed entries once either the prefix or retained tombstones reach the bound. *)
Definition compact (m : Manager) : Manager :=
  if (m_head m <? length (m_queue m) `div` 2)%nat && (len (m_queue m) - Len m <? m_capacity m)%Z
  then m
  else {| m with m_queue := filter (λ e, current (m_live m) e = true) (drop (m_head m) (m_queue m));
                 m_head := 0%nat |}.

(** The loop of [purge] over the queue from its head: the live nonces it leaves and the number of
    entries it passed. *)
Fixpoint purgeLoop (now : Time) (live : gmap string Time) (rest : list entry)
    : gmap string Time * nat :=
  match rest with
  | [] => (live, 0%nat)
  | e :: rest =>
      if match live !! e_value e with Some expires => Before now expires | None => false end
      then (live, 0%nat)
      else let (live, n) := purgeLoop now (delete (e_value e) live) rest in (live, S n)
  end.

(** Drops expired nonces from the front of the queue and skips consumed ones. *)
Definition purge (now : Time) (m : Manager) : Manager :=
  let (live, n) := purgeLoop now (m_live m) (drop (m_head m) (m_queue m)) in
  compact {| m with m_live := live; m_head := (m_head m + n)%nat |}.

(** The loop of [evictOldest] over the queue from its head. *)
Fixpoint evictLoop (live : gmap string Time) (rest : list entry) : gmap string Time * nat :=
  match rest with
  | [] => (live, 0%nat)
  | e :: rest =>
      if bool_decide (is_Some (live !! e_value e)) then (delete (e_value e) live, 1%nat)
      else let (live, n) := evictLoop live rest in (live, S n)
  end.

(** Drops the oldest outstanding nonce. *)
Definition evictOldest (m : Manager) : Manager :=
  let (live, n) := evictLoop (m_live m) (drop (m_head m) (m_queue m)) in
  compact {| m with m_live := live; m_head := (m_head m + n)%nat |}.

(** The eviction loop of [Issue]. Every round passes an entry, so the entries behind the head are
    enough fuel. *)
Fixpoint evictSurplus (fuel : nat) (m : Manager) : Manager :=
  if (m_capacity m <=? Len m)%Z && (m_head m <? length (m_queue m))%nat then
    match fuel with
    | O => m
    | S fuel => evictSurplus fuel (evictOldest m)
    end
  else m.

(** The drawing loop of [Issue]: the first value that is not live. *)
Fixpoint draw (live : gmap string Time) (reads : list (Res bytes)) : Res string :=
  match reads with
  | [] => Err (ErrMsg "EOF")
  | Err err :: _ => Err err
  | Ok buf :: reads =>
      let value := encode buf in
      if bool_decide (is_Some (live !! value)) then draw live reads else Ok value
  end.

(** Returns a fresh nonce and drops expired or surplus nonces. *)
Definition Issue (ctx : Ctx) (now : Time) (reads : list (Res bytes)) (m : Manager)
    : Res string * Manager :=
  if ctx is Some err then (Err err, m)
  else
    let m := purge now m in
    let m := evictSurplus (length (m_queue m) - m_head m) m in
    match draw (m_live m) reads with
    | Err err => (Err err, m)
    | Ok value =>
        let expires := (now + m_ttl m)%Z in
        (Ok value, {| m with m_live := <[value := expires]> (m_live m);
                             m_queue := m_queue m ++ [mkEntry value expires] |})
    end.

(** Invalidates the nonce and reports whether it was valid. *)
Definition Consume (ctx : Ctx) (value : string) (now : Time) (m : Manager) : Res bool * Manager :=
  if ctx is Some err then (Err err, m)
  else match m_live m !! value with
  | None => (Ok false, m)
  | Some expires => (Ok (Before now expires), {| m with m_live := delete value (m_live m) |})
  end.

(** ** Invariant *)

(** The entries behind the head. *)
Definition pending (m : Manager) : list entry := drop (m_head m) (m_queue m).

(** The head stays inside the queue, every live nonce was issued by an entry behind the head, and
    the outstanding nonces stay within the capacity. *)
Record wf (m : Manager) : Prop := mkWf {
  wf_head : (m_head m ≤ length (m_queue m))%nat;
  wf_entry : ∀ v t, m_live m !! v = Some t → mkEntry v t ∈ pending m;
  wf_capacity : (0 < m_capacity m)%Z;
  wf_bound : (Len m ≤ m_capacity m)%Z
}.

(** The operations of a manager as one type, for sequences of them. *)
Inductive call : Type :=
| CallIssue (ctx : Ctx) (now : Time) (reads : list (Res bytes))
| CallConsume (ctx : Ctx) (value : string) (now : Time).

(** What a call tells its caller: the nonce it issued or the nonce it accepted. *)
Inductive event : Type :=
| Issued (value : string) (expires : Time)
| Accepted (value : string) (now : Time)
| Nothing.

Definition step (c : call) (m : Manager) : event * Manager :=
  match c with
  | CallIssue ctx now reads =>
      let (r, m') := Issue ctx now reads m in
      (match r with Ok v => Issued v (now + m_ttl m)%Z | Err _ => Nothing end, m')
  | CallConsume ctx value now =>
      let (r, m') := Consume ctx value now m in
      (match r with Ok true => Accepted value now | _ => Nothing end, m')
  end.

Fixpoint run (cs : list call) (m : Manager) : list event * Manager :=
  match cs with
  | [] => ([], m)
  | c :: cs => let (e, m) := step c m in let (es, m) := run cs m in (e :: es, m)
  end.
