(* ===== verification/NonceProps.v ===== *)
(** * Properties of the nonce manager

    The invariant of [nonce.Manager], single use of every issued nonce, the survival of an issued
    nonce until its expiry and the bound on the retained queue. *)

From S2P Require Import Prelude Status Problem Base64 Nonce.

(** ** The loops *)

(** What one of the loops leaves of the live nonces after passing [n] entries of [rest]. *)
Record passed (live live' : gmap string Time) (rest : list entry) (n : nat) : Prop := mkPassed {
  passed_length : (n ≤ length rest)%nat;
  passed_live : live' ⊆ live;
  passed_entry : ∀ v t, live' !! v = Some t → mkEntry v t ∈ rest → mkEntry v t ∈ drop n rest
}.

Lemma passed_refl live rest : passed live live rest 0.
Proof. split; [lia|done|done]. Qed.

(** Passing an entry whose nonce is not live afterwards. *)
Lemma passed_cons live live0 live' e rest n :
  passed live0 live' rest n → live0 ⊆ live → live' !! e_value e = None →
  passed live live' (e :: rest) (S n).
Proof.
  intros [Hn Hlive Hent] Hsub He. split; simpl; [lia|by etrans|].
  intros v t Hv [<-|Hin]%elem_of_cons; [by simpl in He; congruence|eauto].
Qed.

Lemma purgeLoop_passed now live rest :
  passed live (purgeLoop now live rest).1 rest (purgeLoop now live rest).2.
Proof.
  revert live. induction rest as [|e rest IH]; intros live; simpl; [apply passed_refl|].
  destruct (match live !! e_value e with Some _ => _ | None => _ end); [apply passed_refl|].
  specialize (IH (delete (e_value e) live)). destruct (purgeLoop _ _ rest) as [live' n]. simpl in *.
  eapply passed_cons; [done|apply delete_subseteq|].
  pose proof (passed_live _ _ _ _ IH) as Hsub. destruct (live' !! e_value e) as [t|] eqn:Ht; [|done].
  eapply lookup_weaken in Ht; [|done]. by rewrite lookup_delete_eq in Ht.
Qed.

Lemma evictLoop_passed live rest :
  passed live (evictLoop live rest).1 rest (evictLoop live rest).2.
Proof.
  revert live. induction rest as [|e rest IH]; intros live; simpl; [apply passed_refl|].
  case_bool_decide as He; simpl.
  - eapply passed_cons; [apply passed_refl|apply delete_subseteq|]. apply lookup_delete_eq.
  - specialize (IH live). destruct (evictLoop live rest) as [live' n]. simpl in *.
    eapply passed_cons; [done|done|]. apply eq_None_not_Some in He.
    pose proof (passed_live _ _ _ _ IH) as Hsub. destruct (live' !! e_value e) as [t|] eqn:Ht; [|done].
    eapply lookup_weaken in Ht; [|done]. congruence.
Qed.

Lemma evictLoop_progress live rest : rest ≠ [] → (0 < (evictLoop live rest).2)%nat.
Proof.
  destruct rest as [|e rest]; [done|]. intros _. simpl. case_bool_decide; simpl; [lia|].
  destruct (evictLoop live rest). simpl. lia.
Qed.

(** ** Compaction *)

Lemma compact_live m : m_live (compact m) = m_live m.
Proof. unfold compact. by case_match. Qed.

Lemma compact_capacity m : m_capacity (compact m) = m_capacity m.
Proof. unfold compact. by case_match. Qed.

Lemma compact_ttl m : m_ttl (compact m) = m_ttl m.
Proof. unfold compact. by case_match. Qed.

(** Compaction keeps the entries behind the head that issued a live nonce, in their order. *)
Lemma compact_pending m :
  pending (compact m) = pending m ∨
  pending (compact m) = filter (λ e, current (m_live m) e = true) (pending m).
Proof. unfold compact. case_match; [by left|right]. by unfold pending. Qed.

Lemma compact_head m :
  (m_head m ≤ length (m_queue m))%nat → (m_head (compact m) ≤ length (m_queue (compact m)))%nat.
Proof. unfold compact. case_match; simpl; lia. Qed.

Lemma compact_length m : (length (pending (compact m)) ≤ length (pending m))%nat.
Proof. destruct (compact_pending m) as [->| ->]; [lia|apply length_filter]. Qed.

Lemma compact_entry m v t :
  m_live m !! v = Some t → mkEntry v t ∈ pending m → mkEntry v t ∈ pending (compact m).
Proof.
  intros Hv Hin. destruct (compact_pending m) as [->| ->]; [done|].
  apply list_elem_of_filter. split; [|done]. unfold current. simpl. rewrite Hv. by apply Z.eqb_refl.
Qed.

(** Advancing the head and then compacting, as [purge] and [evictOldest] do. *)
Lemma wf_advance m live n :
  wf m → passed (m_live m) live (pending m) n →
  wf (compact {| m with m_live := live; m_head := (m_head m + n)%nat |}) ∧
  (length (pending (compact {| m with m_live := live; m_head := (m_head m + n)%nat |})) ≤
   length (pending m) - n)%nat.
Proof.
  intros [Hhead Hentry Hcap Hbound] [Hn Hlive Hent].
  set (m' := {| m with m_live := live; m_head := (m_head m + n)%nat |}).
  assert (pending m' = drop n (pending m)) as Hp by (unfold pending; simpl; by rewrite drop_drop).
  split; [split|].
  - apply compact_head. unfold pending in Hn. rewrite length_drop in Hn. simpl. lia.
  - intros v t. rewrite compact_live. simpl. intros Hv. apply compact_entry; [done|].
    rewrite Hp. apply Hent; [done|]. apply Hentry. by eapply lookup_weaken.
  - by rewrite compact_capacity.
  - unfold Len. rewrite compact_live, compact_capacity. simpl. unfold Len in Hbound.
    apply map_subseteq_size in Hlive. lia.
  - etrans; [apply compact_length|]. by rewrite Hp, length_drop.
Qed.

Lemma wf_purge now m : wf m → wf (purge now m).
Proof.
  intros Hm. unfold purge. pose proof (purgeLoop_passed now (m_live m) (pending m)) as Hp.
  unfold pending in Hp. destruct (purgeLoop _ _ _) as [live n]. by apply wf_advance.
Qed.

Lemma wf_evictOldest m :
  wf m → pending m ≠ [] →
  wf (evictOldest m) ∧ (length (pending (evictOldest m)) < length (pending m))%nat.
Proof.
  intros Hm Hne. unfold evictOldest. pose proof (evictLoop_passed (m_live m) (pending m)) as Hp.
  pose proof (evictLoop_progress (m_live m) (pending m) Hne) as Hpos. unfold pending in Hp, Hpos.
  destruct (evictLoop _ _) as [live n]. simpl in *.
  destruct (wf_advance m live n Hm Hp) as [Hwf Hlen]. split; [done|].
  pose proof (passed_length _ _ _ _ Hp). unfold pending in *. lia.
Qed.

Lemma pending_nonempty m :
  wf m → (m_head m <? length (m_queue m))%nat = true → pending m ≠ [].
Proof.
  intros _ H%Nat.ltb_lt Hnil. apply (f_equal length) in Hnil. unfold pending in Hnil.
  rewrite length_drop in Hnil. simpl in Hnil. lia.
Qed.

(** When no entry is left behind the head, no nonce is outstanding. *)
Lemma wf_drained m : wf m → (m_head m <? length (m_queue m))%nat = false → Len m = 0%Z.
Proof.
  intros Hm H%Nat.ltb_ge. unfold Len. enough (m_live m = ∅) as -> by done.
  apply map_empty. intros v. destruct (m_live m !! v) as [t|] eqn:Hv; [|done].
  apply (wf_entry _ Hm) in Hv. unfold pending in Hv. rewrite drop_ge in Hv by done.
  by apply not_elem_of_nil in Hv.
Qed.

(** The eviction loop of [Issue] ends below the capacity. *)
Lemma wf_evictSurplus fuel m :
  wf m → (length (pending m) ≤ fuel)%nat →
  wf (evictSurplus fuel m) ∧ (Len (evictSurplus fuel m) < m_capacity (evictSurplus fuel m))%Z.
Proof.
  revert m. induction fuel as [|fuel IH]; intros m Hm Hfuel; cbn [evictSurplus];
    destruct (_ && _) eqn:Hloop.
  1, 3: apply andb_true_iff in Hloop as [_ Hloop]; apply pending_nonempty in Hloop; [|done].
  - destruct (pending m); [done|simpl in Hfuel; lia].
  - destruct (wf_evictOldest m) as [Hwf Hlen]; [done..|]. apply IH; [done|lia].
  - split; [done|]. apply andb_false_iff in Hloop as [Hloop|Hloop]; [by apply Z.leb_gt in Hloop|].
    rewrite (wf_drained m Hm Hloop). apply Hm.
  - split; [done|]. apply andb_false_iff in Hloop as [Hloop|Hloop]; [by apply Z.leb_gt in Hloop|].
    rewrite (wf_drained m Hm Hloop). apply Hm.
Qed.

(** The state [Issue] draws a nonce in. *)
Definition prepared (now : Time) (m : Manager) : Manager :=
  evictSurplus (length (m_queue (purge now m)) - m_head (purge now m)) (purge now m).

#[local] Arguments prepared : simpl never.

Lemma wf_prepared now m :
  wf m → wf (prepared now m) ∧ (Len (prepared now m) < m_capacity (prepared now m))%Z.
Proof.
  intros Hm. apply wf_evictSurplus; [by apply wf_purge|]. unfold pending. by rewrite length_drop.
Qed.

Lemma draw_Ok live reads v : draw live reads = Ok v → live !! v = None.
Proof.
  induction reads as [|[buf|err] reads IH]; simpl; [done| |done].
  case_bool_decide as H; [done|]. intros [= <-]. by apply eq_None_not_Some.
Qed.

Lemma Issue_prepared now reads m :
  Issue None now reads m =
  match draw (m_live (prepared now m)) reads with
  | Err err => (Err err, prepared now m)
  | Ok v => (Ok v, {| (prepared now m) with
      m_live := <[v := (now + m_ttl (prepared now m))%Z]> (m_live (prepared now m));
      m_queue := m_queue (prepared now m) ++ [mkEntry v (now + m_ttl (prepared now m))] |})
  end.
Proof. done. Qed.

Lemma wf_issue m v t :
  wf m → (Len m < m_capacity m)%Z → m_live m !! v = None →
  wf {| m with m_live := <[v := t]> (m_live m); m_queue := m_queue m ++ [mkEntry v t] |}.
Proof.
  intros [Hhead Hentry Hcap Hbound] Hroom Hnew. split; simpl.
  - rewrite length_app. simpl. lia.
  - intros w u Hw. unfold pending. simpl. rewrite drop_app_le by done. apply elem_of_app.
    destruct (decide (v = w)) as [<-|Hne].
    + rewrite lookup_insert_eq in Hw. right. apply list_elem_of_singleton. congruence.
    + rewrite lookup_insert_ne in Hw by done. left. by apply Hentry.
  - done.
  - unfold Len in *. simpl. rewrite map_size_insert_None by done. lia.
Qed.

Lemma wf_consume m v : wf m → wf {| m with m_live := delete v (m_live m) |}.
Proof.
  intros [Hhead Hentry Hcap Hbound]. split; simpl; [done| |done|].
  - intros w u Hw. apply Hentry. by eapply lookup_weaken, delete_subseteq.
  - unfold Len in *. simpl. pose proof (map_subseteq_size _ _ (delete_subseteq (m_live m) v)). lia.
Qed.

Lemma wf_step c m : wf m → wf (step c m).2.
Proof.
  intros Hm. destruct c as [[err|] now reads|[err|] v now]; simpl; try done.
  - destruct (wf_prepared now m Hm) as [Hp Hroom]. pose proof (Issue_prepared now reads m) as Heq.
    destruct (Issue None now reads m) as [r m']. simpl.
    destruct (draw _ reads) as [v|err] eqn:Hd; simplify_eq; [|done].
    apply wf_issue; [done|done|]. by eapply draw_Ok.
  - destruct (m_live m !! v); [by apply wf_consume|done].
Qed.

Lemma wf_New opts : wf (New opts).
Proof.
  split; simpl; [lia|done| |]; unfold Len; simpl; destruct (Z.leb_spec (opt_Capacity opts) 0);
    unfold DefaultCapacity; rewrite ?map_size_empty; lia.
Qed.

Lemma wf_run cs m : wf m → wf (run cs m).2.
Proof.
  revert m. induction cs as [|c cs IH]; intros m Hm; simpl; [done|].
  apply (wf_step c) in Hm. destruct (step c m) as [e m']. simpl in *. specialize (IH _ Hm).
  by destruct (run cs m') as [es m''].
Qed.

(** ** Single use *)

(** The operations invalidate nonces and add at most the one they issue. *)
Lemma advance_live m live n :
  m_live (compact {| m with m_live := live; m_head := n |}) = live.
Proof. apply compact_live. Qed.

Lemma purge_live now m : m_live (purge now m) ⊆ m_live m.
Proof.
  unfold purge. pose proof (purgeLoop_passed now (m_live m) (drop (m_head m) (m_queue m))) as [].
  destruct (purgeLoop _ _ _) as [live n]. by rewrite advance_live.
Qed.

Lemma evictOldest_live m : m_live (evictOldest m) ⊆ m_live m.
Proof.
  unfold evictOldest. pose proof (evictLoop_passed (m_live m) (drop (m_head m) (m_queue m))) as [].
  destruct (evictLoop _ _) as [live n]. by rewrite advance_live.
Qed.

Lemma evictSurplus_live fuel m : m_live (evictSurplus fuel m) ⊆ m_live m.
Proof.
  revert m. induction fuel as [|fuel IH]; intros m; cbn [evictSurplus]; case_match; try done.
  etrans; [apply IH|apply evictOldest_live].
Qed.

Lemma prepared_live now m : m_live (prepared now m) ⊆ m_live m.
Proof. etrans; [apply evictSurplus_live|apply purge_live]. Qed.

Lemma evictSurplus_ttl fuel m : m_ttl (evictSurplus fuel m) = m_ttl m.
Proof.
  revert m. induction fuel as [|fuel IH]; intros m; cbn [evictSurplus]; case_match; try done.
  rewrite IH. unfold evictOldest. destruct (evictLoop _ _). by rewrite compact_ttl.
Qed.

Lemma prepared_ttl now m : m_ttl (prepared now m) = m_ttl m.
Proof.
  unfold prepared. rewrite evictSurplus_ttl. unfold purge. destruct (purgeLoop _ _ _).
  by rewrite compact_ttl.
Qed.

(** The live nonces after a step, by what the step reported. *)
Lemma step_live c m w t :
  m_live (step c m).2 !! w = Some t →
  (m_live m !! w = Some t ∧ (∀ now, (step c m).1 ≠ Accepted w now)) ∨ (step c m).1 = Issued w t.
Proof.
  destruct c as [[err|] now reads|[err|] v now]; cbn [step]; try (by left).
  - rewrite Issue_prepared. destruct (draw _ reads) as [v|err] eqn:Hd; simpl.
    + rewrite prepared_ttl. destruct (decide (v = w)) as [<-|Hne].
      * rewrite lookup_insert_eq. intros [= <-]. by right.
      * rewrite lookup_insert_ne by done. intros Hw. left. split; [|done].
        by eapply lookup_weaken, prepared_live.
    + intros Hw. left. split; [|done]. by eapply lookup_weaken, prepared_live.
  - simpl. destruct (m_live m !! v) as [u|] eqn:Hv; simpl; [|by left].
    destruct (decide (v = w)) as [<-|Hne]; [by rewrite lookup_delete_eq|].
    rewrite lookup_delete_ne by done. intros Hw. left. split; [done|].
    intros now'. destruct (Before now u); congruence.
Qed.

(** The step that accepts a nonce found it live and unexpired. *)
Lemma step_accepted c m v now :
  (step c m).1 = Accepted v now → ∃ t, m_live m !! v = Some t ∧ (now < t)%Z.
Proof.
  destruct c as [ctx now' reads|[err|] w now']; simpl.
  - by destruct (Issue ctx now' reads m) as [[?|?] ?].
  - done.
  - destruct (m_live m !! w) as [t|] eqn:Hw; simpl; [|done].
    destruct (Before now' t) eqn:Hb; [|done]. intros [= <- <-]. go_bool. eauto.
Qed.

(** An acceptance uses up an issue of the same nonce: it comes before its expiry, and nothing
    between the two accepted the nonce. *)
Definition uses_issue (es : list event) (i : nat) (v : string) (now : Time) : Prop :=
  ∃ j t, (j < i)%nat ∧ es !! j = Some (Issued v t) ∧ (now < t)%Z ∧
    ∀ k now', (j < k < i)%nat → es !! k ≠ Some (Accepted v now').

(** Every live nonce was issued and not accepted since. *)
Definition issued_live (es : list event) (m : Manager) : Prop :=
  ∀ v t, m_live m !! v = Some t →
    ∃ j, es !! j = Some (Issued v t) ∧ ∀ k now, (j < k)%nat → es !! k ≠ Some (Accepted v now).

Lemma issued_live_step es c m :
  issued_live es m → issued_live (es ++ [(step c m).1]) (step c m).2.
Proof.
  intros H v t [[Hv Hna]|He]%step_live.
  - destruct (H _ _ Hv) as (j & Hj & Hlater). exists j. split; [by apply lookup_app_l_Some|].
    intros k now Hk Heq. apply lookup_snoc_Some in Heq as [[_ Heq]|[_ Heq]]; [by eapply Hlater|].
    by eapply Hna.
  - exists (length es). split; [rewrite list_lookup_middle by done; by rewrite He|].
    intros k now Hk Heq. apply lookup_lt_Some in Heq. rewrite length_app in Heq. simpl in Heq. lia.
Qed.

Lemma uses_issue_run cs es m i v now :
  issued_live es m → (length es ≤ i)%nat →
  (es ++ (run cs m).1) !! i = Some (Accepted v now) → uses_issue (es ++ (run cs m).1) i v now.
Proof.
  revert es m. induction cs as [|c cs IH]; intros es m Hlive Hi; simpl.
  { rewrite app_nil_r. intros Heq%lookup_lt_Some. lia. }
  pose proof (issued_live_step es c m Hlive) as Hlive'. pose proof (step_accepted c m) as Hacc.
  destruct (step c m) as [e m'] eqn:Hstep. specialize (IH (es ++ [e]) m' Hlive').
  destruct (run cs m') as [es' m'']. simpl in *. rewrite <-app_assoc in IH. simpl in IH.
  destruct (decide (i = length es)) as [->|Hne].
  - rewrite list_lookup_middle by done. intros [= ->].
    destruct (Hacc v now eq_refl) as (t & Ht & Hnow). destruct (Hlive _ _ Ht) as (j & Hj & Hlater).
    apply lookup_lt_Some in Hj as Hjlt. exists j, t.
    split; [done|]. split; [by apply lookup_app_l_Some|]. split; [done|].
    intros k now' Hk Heq. rewrite lookup_app_l in Heq by lia. by apply (Hlater k now'); [lia|].
  - apply IH. rewrite length_app. simpl. lia.
Qed.

(** ** Survival until expiry *)

(** An outstanding nonce with at most [k] later entries and no other entry of its value. *)
Record held (v : string) (t : Time) (k : nat) (m : Manager) : Prop := mkHeld {
  held_wf : wf m;
  held_live : m_live m !! v = Some t;
  held_split : ∃ pre post, pending m = pre ++ mkEntry v t :: post ∧ (length post ≤ k)%nat ∧
    Forall (λ e, e_value e ≠ v) pre ∧ Forall (λ e, e_value e ≠ v) post
}.

Lemma purgeLoop_stop now live pre post v t :
  live !! v = Some t → (now < t)%Z → Forall (λ e, e_value e ≠ v) pre →
  ((purgeLoop now live (pre ++ mkEntry v t :: post)).2 ≤ length pre)%nat ∧
  (purgeLoop now live (pre ++ mkEntry v t :: post)).1 !! v = Some t.
Proof.
  intros Hv Ht Hpre. revert live Hv. induction Hpre as [|e pre He _ IH]; intros live Hv; simpl.
  - rewrite Hv, (proj2 (Before_true now t)) by done. split; [simpl; lia|done].
  - destruct (match live !! e_value e with Some _ => _ | None => _ end); [split; [simpl; lia|done]|].
    destruct (IH (delete (e_value e) live)) as [Hn Hlive]; [by rewrite lookup_delete_ne|].
    destruct (purgeLoop _ _ _). simpl in *. split; [lia|done].
Qed.

Lemma evictLoop_stop live pre post v t :
  live !! v = Some t → Forall (λ e, e_value e ≠ v) pre →
  Exists (λ e, is_Some (live !! e_value e)) pre →
  ((evictLoop live (pre ++ mkEntry v t :: post)).2 ≤ length pre)%nat ∧
  (evictLoop live (pre ++ mkEntry v t :: post)).1 !! v = Some t.
Proof.
  intros Hv Hpre Hex. induction Hpre as [|e pre He _ IH]; simpl; [by apply Exists_nil in Hex|].
  case_bool_decide as Hlive; simpl.
  - rewrite lookup_delete_ne by done. split; [lia|done].
  - apply Exists_cons in Hex as [|Hex]; [done|]. destruct (IH Hex) as [Hn Hl].
    destruct (evictLoop _ _). simpl in *. split; [lia|done].
Qed.

Lemma held_advance v t k m live n pre post :
  held v t k m → pending m = pre ++ mkEntry v t :: post → (length post ≤ k)%nat →
  Forall (λ e, e_value e ≠ v) pre → Forall (λ e, e_value e ≠ v) post →
  passed (m_live m) live (pending m) n → (n ≤ length pre)%nat → live !! v = Some t →
  held v t k (compact {| m with m_live := live; m_head := (m_head m + n)%nat |}).
Proof.
  intros Hm Hp Hk Hpre Hpost Hpass Hn Hv. set (m' := {| m with m_live := live; m_head := _ |}).
  split; [by apply (wf_advance m live n), Hpass; apply Hm|by rewrite compact_live|].
  assert (pending m' = drop n pre ++ mkEntry v t :: post) as Hp'.
  { unfold pending, m' in *. simpl. rewrite <-drop_drop, Hp. by rewrite drop_app_le. }
  destruct (compact_pending m') as [->| ->]; rewrite Hp'.
  - exists (drop n pre), post. by repeat split; [|apply Forall_drop|].
  - rewrite filter_app, filter_cons_True.
    2: { unfold current. simpl. rewrite Hv. apply Z.eqb_refl. }
    eexists _, _. split; [done|]. split; [etrans; [apply length_filter|done]|].
    rewrite !Forall_forall in *. split; intros e [_ He]%list_elem_of_filter; [|by apply Hpost].
    apply Hpre. apply list_elem_of_lookup in He as [i Hi]. rewrite lookup_drop in Hi.
    by eapply list_elem_of_lookup_2.
Qed.

Lemma held_purge v t k now m : held v t k m → (now < t)%Z → held v t k (purge now m).
Proof.
  intros Hm Ht. pose proof Hm as [Hwf Hv (pre & post & Hp & Hk & Hpre & Hpost)].
  unfold purge. pose proof (purgeLoop_passed now (m_live m) (pending m)) as Hpass.
  destruct (purgeLoop_stop now (m_live m) pre post v t Hv Ht Hpre) as [Hn Hlive].
  rewrite <-Hp in Hn, Hlive. unfold pending in Hpass, Hn, Hlive.
  destruct (purgeLoop _ _ _) as [live n]. by eapply held_advance.
Qed.

Lemma size_keys {V} (m : gmap string V) l :
  (∀ k, is_Some (m !! k) → k ∈ l) → (size m ≤ length l)%nat.
Proof.
  revert m. induction l as [|x l IH]; intros m Hm; simpl.
  - enough (m = ∅) as -> by (by rewrite map_size_empty). apply map_empty. intros k.
    apply eq_None_not_Some. intros Hk%Hm. by apply not_elem_of_nil in Hk.
  - etrans; [|apply le_n_S, (IH (delete x m))].
    + rewrite map_size_delete. destruct (m !! x); simpl; lia.
    + intros k [u Hk]. apply lookup_delete_Some in Hk as [Hne Hk].
      destruct (elem_of_cons l k x) as [Hin _]. destruct Hin; [by apply Hm|congruence|done].
Qed.

(** The live nonces of a full manager do not all lie at or behind a recent entry. *)
Lemma held_older v t k m pre post :
  wf m → pending m = pre ++ mkEntry v t :: post → (length post ≤ k)%nat →
  (Z.of_nat k + 1 < Len m)%Z → Exists (λ e, is_Some (m_live m !! e_value e)) pre.
Proof.
  intros Hwf Hp Hk Hlen. destruct (decide (Exists (λ e, is_Some (m_live m !! e_value e)) pre))
    as [|Hno]; [done|]. exfalso. apply not_Exists_Forall in Hno; [|intros e; apply _].
  rewrite Forall_forall in Hno.
  assert (size (m_live m) ≤ length (map e_value (mkEntry v t :: post)))%nat as Hsize.
  { apply size_keys. intros w [u Hw]. pose proof (wf_entry _ Hwf _ _ Hw) as Hin.
    rewrite Hp in Hin. apply elem_of_app in Hin as [Hin|Hin].
    - apply Hno in Hin. simpl in Hin. rewrite Hw in Hin. by destruct Hin.
    - change w with (e_value (mkEntry w u)). by apply list_elem_of_fmap_2. }
  rewrite length_map in Hsize. simpl in Hsize. unfold Len in Hlen. lia.
Qed.

Lemma evictOldest_capacity m : m_capacity (evictOldest m) = m_capacity m.
Proof. unfold evictOldest. destruct (evictLoop _ _). by rewrite compact_capacity. Qed.

Lemma held_evictSurplus v t k fuel m :
  held v t k m → (Z.of_nat k + 1 < m_capacity m)%Z →
  held v t k (evictSurplus fuel m) ∧ m_capacity (evictSurplus fuel m) = m_capacity m.
Proof.
  revert m. induction fuel as [|fuel IH]; intros m Hm Hcap; cbn [evictSurplus]; [by case_match|].
  destruct (_ && _) eqn:Hloop; [|done]. apply andb_true_iff in Hloop as [Hfull _]. go_bool.
  rewrite <-(evictOldest_capacity m) in Hcap |- *. apply IH; [|done].
  rewrite evictOldest_capacity in Hcap.
  pose proof Hm as [Hwf Hv (pre & post & Hp & Hk & Hpre & Hpost)].
  pose proof (held_older v t k m pre post Hwf Hp Hk ltac:(lia)) as Hold.
  unfold evictOldest. pose proof (evictLoop_passed (m_live m) (pending m)) as Hpass.
  destruct (evictLoop_stop (m_live m) pre post v t Hv Hpre Hold) as [Hn Hlive].
  rewrite <-Hp in Hn, Hlive. unfold pending in Hpass, Hn, Hlive.
  destruct (evictLoop _ _) as [live n]. by eapply held_advance.
Qed.

Lemma purge_capacity now m : m_capacity (purge now m) = m_capacity m.
Proof. unfold purge. destruct (purgeLoop _ _ _). by rewrite compact_capacity. Qed.

Lemma held_step v t k c m :
  held v t k m → (if c is CallIssue _ _ _ then Z.of_nat k + 1 < m_capacity m else True)%Z →
  match c with CallIssue _ now _ => (now < t)%Z | CallConsume _ w _ => w ≠ v end →
  held v t (match c with CallIssue _ _ _ => S k | _ => k end) (step c m).2 ∧
  m_capacity (step c m).2 = m_capacity m.
Proof.
  intros Hm Hcap Hc.
  assert (held v t (S k) m) as HmS.
  { destruct Hm as [Hwf Hv (pre & post & ? & ? & ?)]. split; [done..|]. exists pre, post.
    split; [done|]. split; [lia|done]. }
  destruct c as [[err|] now reads|[err|] w now]; cbn [step]; try done.
  - rewrite Issue_prepared.
    destruct (held_evictSurplus v t k (length (m_queue (purge now m)) - m_head (purge now m))
      (purge now m)) as [Hp Hpc]; [by apply held_purge|by rewrite purge_capacity|].
    fold (prepared now m) in Hp, Hpc. rewrite purge_capacity in Hpc.
    destruct (draw _ reads) as [w|err] eqn:Hd; simpl; (split; [|done]).
    + apply draw_Ok in Hd. destruct (wf_prepared now m (held_wf _ _ _ _ Hm)) as [Hwf Hroom].
      destruct Hp as [_ Hv (pre & post & Hpend & Hk & Hpre & Hpost)].
      assert (w ≠ v) as Hne by congruence. split; [by apply wf_issue|simpl; by rewrite lookup_insert_ne|].
      exists pre, (post ++ [mkEntry w (now + m_ttl (prepared now m))]). simpl. split.
      * unfold pending in *. simpl. rewrite drop_app_le by apply Hwf. rewrite Hpend.
        by rewrite <-app_assoc.
      * rewrite length_app. simpl. split; [lia|]. split; [done|]. apply Forall_app. by split; [|constructor].
    + destruct Hp as [Hwf Hv (pre & post & ? & ? & ?)]. split; [done..|]. exists pre, post.
      split; [done|]. split; [lia|done].
  - simpl. destruct (m_live m !! w) eqn:Hw; [|done]. split; [|done].
    destruct Hm as [Hwf Hv Hs]. split; [by apply wf_consume|simpl; by rewrite lookup_delete_ne|done].
Qed.

(** The number of nonces a sequence of calls may issue. *)
Definition issues (cs : list call) : nat :=
  length (filter (λ c, (if c is CallIssue _ _ _ then true else false) = true) cs).

Lemma held_run v t k cs m :
  held v t k m → (Z.of_nat (k + issues cs) < m_capacity m)%Z →
  Forall (λ c, match c with CallIssue _ now _ => (now < t)%Z | CallConsume _ w _ => w ≠ v end) cs →
  m_live (run cs m).2 !! v = Some t.
Proof.
  intros Hm Hcap Hcs. revert k m Hm Hcap. induction Hcs as [|c cs Hc _ IH]; intros k m Hm Hcap; simpl.
  { apply Hm. }
  unfold issues in Hcap, IH. rewrite filter_cons in Hcap.
  destruct (held_step v t k c m) as [Hm' Hcap']; [done| |done|].
  { destruct c; [|done]. rewrite decide_True in Hcap by done. simpl in Hcap. lia. }
  destruct (step c m) as [e m']. simpl in *. rewrite <-Hcap' in Hcap.
  assert (m_live (run cs m').2 !! v = Some t) as Hrun; [|by destruct (run cs m')].
  destruct c; [rewrite decide_True in Hcap by done|rewrite decide_False in Hcap by done];
    (eapply IH; [done|]); simpl in Hcap; lia.
Qed.

(** The entries [Issue] keeps were in the queue before. *)
Lemma advance_pending m live n e :
  e ∈ pending (compact {| m with m_live := live; m_head := (m_head m + n)%nat |}) → e ∈ pending m.
Proof.
  intros He. set (m' := {| m with m_live := live; m_head := _ |}) in He.
  assert (e ∈ pending m') as Hin.
  { destruct (compact_pending m') as [H|H]; rewrite H in He; [done|].
    by apply list_elem_of_filter in He as [_ He]. }
  unfold pending, m' in Hin |- *. simpl in Hin. rewrite <-drop_drop in Hin.
  apply list_elem_of_lookup in Hin as [i Hi]. rewrite lookup_drop in Hi.
  by eapply list_elem_of_lookup_2.
Qed.

Lemma evictSurplus_pending fuel m e : e ∈ pending (evictSurplus fuel m) → e ∈ pending m.
Proof.
  revert m. induction fuel as [|fuel IH]; intros m; cbn [evictSurplus]; case_match; try done.
  intros He%IH. unfold evictOldest in He. destruct (evictLoop _ _). by apply advance_pending in He.
Qed.

Lemma prepared_pending now m e : e ∈ pending (prepared now m) → e ∈ m_queue m.
Proof.
  intros He%evictSurplus_pending. unfold purge in He. destruct (purgeLoop _ _ _).
  apply advance_pending in He. unfold pending in He. apply list_elem_of_lookup in He as [i Hi].
  rewrite lookup_drop in Hi. by eapply list_elem_of_lookup_2.
Qed.

(** A nonce that was just issued and whose value is not that of a queued entry. *)
Lemma held_issue now reads m v m1 :
  wf m → Issue None now reads m = (Ok v, m1) → Forall (λ e, e_value e ≠ v) (m_queue m) →
  held v (now + m_ttl m) 0 m1.
Proof.
  intros Hm. rewrite Issue_prepared. destruct (draw _ reads) as [w|] eqn:Hd; [|done].
  intros [= -> <-] Hfresh. apply draw_Ok in Hd. destruct (wf_prepared now m Hm) as [Hwf Hroom].
  rewrite <-(prepared_ttl now m). split; [by apply wf_issue|by apply lookup_insert_eq|].
  exists (pending (prepared now m)), []. unfold pending at 1. simpl.
  rewrite drop_app_le by apply Hwf. split; [done|]. split; [done|]. split; [|done].
  rewrite Forall_forall in *. intros e He%prepared_pending. by apply Hfresh.
Qed.

(** ** The retained queue *)

Lemma length_keys {V} (m : gmap string V) l :
  NoDup l → (∀ k, k ∈ l → is_Some (m !! k)) → (length l ≤ size m)%nat.
Proof.
  intros Hnd. revert m. induction Hnd as [|x l Hx _ IH]; intros m Hm; simpl; [lia|].
  destruct (Hm x) as [u Hu]; [left|].
  assert (length l ≤ size (delete x m))%nat as Hlen.
  { apply IH. intros k Hk. rewrite lookup_delete_ne by (by intros ->). apply Hm. by right. }
  rewrite map_size_delete, Hu in Hlen. simpl in Hlen.
  assert (size m ≠ 0%nat) by (rewrite map_size_non_empty_iff; intros ->; by rewrite lookup_empty in Hu).
  lia.
Qed.

(** The values of the queued entries are distinct. *)
Definition distinct (m : Manager) : Prop := NoDup (map e_value (m_queue m)).

Lemma sublist_values l l' : l `sublist_of` l' → NoDup (map e_value l') → NoDup (map e_value l).
Proof. intros Hs Hnd. eapply sublist_NoDup; [done|]. by apply (fmap_sublist e_value). Qed.

Lemma compact_distinct m : distinct m → distinct (compact m).
Proof.
  unfold distinct, compact. intros Hm. case_match; [done|]. simpl.
  eapply sublist_values; [|done]. etrans; [apply sublist_filter|apply sublist_drop].
Qed.

(** Compaction leaves fewer than [capacity] entries that issued no live nonce. *)
Lemma compact_queue m :
  distinct m → (0 < m_capacity m)%Z →
  (len (m_queue (compact m)) < Len (compact m) + m_capacity (compact m))%Z.
Proof.
  intros Hm Hcap. unfold Len. rewrite compact_live, compact_capacity. unfold compact.
  destruct (_ && _) eqn:Hc; simpl.
  - apply andb_true_iff in Hc as [_ Hc]. go_bool. unfold Len in Hc. lia.
  - assert (length (filter (λ e, current (m_live m) e = true) (drop (m_head m) (m_queue m))) ≤
      size (m_live m))%nat as Hlen; [|lia].
    rewrite <-(length_map e_value). apply length_keys.
    + eapply sublist_values; [|exact Hm]. etrans; [apply sublist_filter|apply sublist_drop].
    + intros k (e & -> & [He _]%list_elem_of_filter)%list_elem_of_fmap. unfold current in He.
      by destruct (m_live m !! e_value e).
Qed.

Record tidy (m : Manager) : Prop := mkTidy {
  tidy_distinct : distinct m;
  tidy_capacity : (0 < m_capacity m)%Z;
  tidy_queue : (len (m_queue m) < Len m + m_capacity m)%Z
}.

Lemma tidy_compact m : distinct m → (0 < m_capacity m)%Z → tidy (compact m).
Proof.
  intros Hm Hcap. split; [by apply compact_distinct|by rewrite compact_capacity|by apply compact_queue].
Qed.

Lemma tidy_evictSurplus fuel m : tidy m → tidy (evictSurplus fuel m).
Proof.
  revert m. induction fuel as [|fuel IH]; intros m Hm; cbn [evictSurplus]; case_match; try done.
  apply IH. unfold evictOldest. destruct (evictLoop _ _). apply tidy_compact; apply Hm.
Qed.

Lemma tidy_prepared now m : distinct m → (0 < m_capacity m)%Z → tidy (prepared now m).
Proof.
  intros Hm Hcap. apply tidy_evictSurplus. unfold purge. destruct (purgeLoop _ _ _).
  by apply tidy_compact.
Qed.

Lemma prepared_queue now m v :
  distinct m → v ∉ map e_value (m_queue m) → v ∉ map e_value (m_queue (prepared now m)).
Proof.
  intros _ Hv. assert (∀ m', m_queue (compact m') `sublist_of` m_queue m') as Hc.
  { intros m'. unfold compact. case_match; simpl; [done|]. etrans; [apply sublist_filter|apply sublist_drop]. }
  assert (∀ fuel m', m_queue (evictSurplus fuel m') `sublist_of` m_queue m') as He.
  { induction fuel as [|fuel IH]; intros m'; cbn [evictSurplus]; case_match; try done.
    etrans; [apply IH|]. unfold evictOldest. destruct (evictLoop _ _). by etrans; [apply Hc|]. }
  intros Hin. apply Hv. eapply elem_of_sublist; [exact Hin|]. apply (fmap_sublist e_value).
  unfold prepared. etrans; [apply He|]. unfold purge. destruct (purgeLoop _ _ _).
  by etrans; [apply Hc|].
Qed.

(** The random source repeats no value that is still queued. *)
Fixpoint fresh_run (cs : list call) (m : Manager) : Prop :=
  match cs with
  | [] => True
  | c :: cs =>
      match (step c m).1 with
      | Issued v _ => v ∉ map e_value (m_queue m)
      | _ => True
      end ∧ fresh_run cs (step c m).2
  end.

#[export] Instance fresh_run_dec cs m : Decision (fresh_run cs m).
Proof.
  revert m. induction cs as [|c cs IH]; intros m; simpl; [apply _|].
  apply and_dec; [destruct (step c m).1; apply _|apply IH].
Defined.

Definition bounded (m : Manager) : Prop :=
  distinct m ∧ wf m ∧ (len (m_queue m) < 2 * m_capacity m)%Z.

Lemma bounded_step c m :
  bounded m → match (step c m).1 with Issued v _ => v ∉ map e_value (m_queue m) | _ => True end →
  bounded (step c m).2.
Proof.
  intros (Hd & Hwf & Hb) Hfresh. pose proof (wf_step c m Hwf) as Hwf'.
  destruct c as [[err|] now reads|[err|] w now]; cbn [step] in *; try done.
  - rewrite Issue_prepared in *. destruct (wf_prepared now m Hwf) as [Hp Hroom].
    destruct (tidy_prepared now m Hd (wf_capacity _ Hwf)) as [Hpd Hpc Hpq].
    destruct (draw _ reads) as [v|err]; simpl in *; (split; [|split; [done|]]).
    + unfold distinct. simpl. rewrite map_app. apply NoDup_app. split; [done|].
      split; [|apply NoDup_singleton]. intros x Hx Hx'%list_elem_of_singleton. simpl in Hx'. subst x.
      by apply (prepared_queue now m v Hd Hfresh).
    + simpl. rewrite length_app. simpl. lia.
    + done.
    + lia.
  - simpl in *. by destruct (m_live m !! w).
Qed.

Lemma bounded_run cs m : bounded m → fresh_run cs m → bounded (run cs m).2.
Proof.
  revert m. induction cs as [|c cs IH]; intros m Hm; simpl; [done|]. intros [Hc Hcs].
  apply (bounded_step c) in Hm; [|done]. destruct (step c m) as [e m']. simpl in *.
  specialize (IH _ Hm Hcs). by destruct (run cs m').
Qed.

(** ** Properties *)

(** Whatever is called on a new manager, at most [capacity] nonces are outstanding, the head
    stays inside the queue and every outstanding nonce is recorded behind it with its expiry, so
    expiry and eviction reach it. *)
Theorem nonce_invariant opts cs : wf (run cs (New opts)).2.
Proof. apply wf_run, wf_New. Qed.

(** C30. A nonce is accepted at most once per issue: an accepted nonce was issued before, the
    acceptance comes before the expiry of that issue, and no call in between accepted it. *)
Theorem nonce_single_use opts cs i v now :
  (run cs (New opts)).1 !! i = Some (Accepted v now) → uses_issue (run cs (New opts)).1 i v now.
Proof. intros Hi. apply (uses_issue_run cs []); [done|simpl; lia|done]. Qed.

(** A manager for two nonces that live ten seconds, and the nonce of sixteen zero bytes. *)
Definition example : Manager := New (mkOptions (10 * Second) 2).
Definition zeroRead : Res bytes := Ok (replicate 16 "000"%byte).
Definition zeroNonce : string := "AAAAAAAAAAAAAAAAAAAAAA".

Lemma nonce_single_use_witness :
  let cs := [CallIssue None 0 [zeroRead]; CallConsume None zeroNonce Second;
             CallConsume None zeroNonce Second] in
  (run cs example).1 = [Issued zeroNonce (10 * Second); Accepted zeroNonce Second; Nothing] ∧
  uses_issue (run cs example).1 1 zeroNonce Second.
Proof.
  split; [by vm_compute|]. apply (nonce_single_use (mkOptions (10 * Second) 2)). by vm_compute.
Defined.

(** An issued nonce whose value is not already queued is accepted when it is used for the first
    time before its expiry, as long as fewer than [capacity] further nonces were issued since. *)
Theorem nonce_stays_valid m now reads v m1 cs now' :
  wf m → Issue None now reads m = (Ok v, m1) → Forall (λ e, e_value e ≠ v) (m_queue m) →
  Forall (λ c, match c with
               | CallIssue _ later _ => (later < now + m_ttl m)%Z
               | CallConsume _ w _ => w ≠ v
               end) cs →
  (Z.of_nat (issues cs) < m_capacity m1)%Z → (now' < now + m_ttl m)%Z →
  (Consume None v now' (run cs m1).2).1 = Ok true.
Proof.
  intros Hm Hissue Hfresh Hcs Hcap Hnow. pose proof (held_issue _ _ _ _ _ Hm Hissue Hfresh) as Hheld.
  simpl. rewrite (held_run v (now + m_ttl m) 0 cs m1 Hheld Hcap Hcs). simpl.
  by rewrite (proj2 (Before_true _ _) Hnow).
Qed.

Lemma nonce_stays_valid_witness :
  let m1 := (Issue None 0 [zeroRead] example).2 in
  let cs := [CallIssue None Second [zeroRead; Ok (replicate 16 "001"%byte)]] in
  (Consume None zeroNonce (9 * Second) (run cs m1).2).1 = Ok true.
Proof.
  apply (nonce_stays_valid example 0 [zeroRead] zeroNonce).
  - apply (wf_New (mkOptions (10 * Second) 2)).
  - by vm_compute.
  - constructor.
  - repeat constructor.
  - by vm_compute.
  - by vm_compute.
Defined.

(** With a random source that repeats no queued value, the manager retains fewer than twice
    [capacity] queue entries, consumed ones included. *)
Theorem nonce_queue_bound opts cs :
  fresh_run cs (New opts) →
  (len (m_queue (run cs (New opts)).2) < 2 * m_capacity (run cs (New opts)).2)%Z.
Proof.
  intros Hfresh. apply bounded_run; [|done]. pose proof (wf_New opts) as Hwf.
  split; [constructor|]. split; [done|]. pose proof (wf_capacity _ Hwf). simpl in *. lia.
Qed.

Lemma nonce_queue_bound_witness :
  let cs := [CallIssue None 0 [zeroRead]; CallConsume None zeroNonce Second;
             CallIssue None Second [Ok (replicate 16 "001"%byte)]] in
  (len (m_queue (run cs example).2) < 2 * m_capacity (run cs example).2)%Z.
Proof.
  apply (nonce_queue_bound (mkOptions (10 * Second) 2)). apply (bool_decide_unpack _). by vm_compute.
Defined.
