(* ===== verification/Tnauthlist.v ===== *)
(** * TN Authorization Lists (src/tnauthlist.go)

    The DER cursor of the server, the checks of an authority list against RFC 8226 and the
    normalization of a TNAuthList identifier. The grammar the checks accept is stated with a DER
    encoder: a byte string is accepted exactly when it is the encoding of a well-formed list. *)

From S2P Require Import Prelude Status Problem Resource Base64.

(** ** Limits *)

Definition maxTNAuthListBytes : Z := Z.shiftl 8 10.
Definition maxTNEntries : Z := 512.
Definition maxServiceProviderCodeLength : Z := 64.
Definition maxTelephoneNumberLength : Z := 15.

Definition telephoneNumberAlphabet : bytes := string_bytes "0123456789#*".

Definition errTNAuthList : error := ErrMsg "acmeserver: invalid TN authorization list".

(** ** The cursor *)

(** [value<<8 | int(b)] over a sequence of bytes. *)
Definition appendOctet (value : Z) (b : Byte.byte) : Z := i64 (Z.lor (Z.shiftl value 8) (bz b)).

(** Reads one tag, length and value and returns them with the rest of the buffer. *)
Definition tlv (buf : bytes) : Res (Byte.byte * bytes * bytes) :=
  match buf with
  | tag :: l0 :: rest =>
      if (Z.land (bz tag) 0x1f =? 0x1f)%Z then Err errTNAuthList
      else
        let size := bz l0 in
        let sized :=
          if (Z.land size 0x80 =? 0)%Z then Ok (size, rest)
          else
            let octets := Z.land size 0x7f in
            if (octets =? 0)%Z || (4 <? octets)%Z || (len rest <? octets)%Z ||
               match rest with b :: _ => (bz b =? 0)%Z | [] => false end
            then Err errTNAuthList
            else
              let size := fold_left appendOctet (take (Z.to_nat octets) rest) 0%Z in
              if (size <? 0x80)%Z then Err errTNAuthList
              else Ok (size, drop (Z.to_nat octets) rest) in
        match sized with
        | Err err => Err err
        | Ok (size, rest) =>
            if (len rest <? size)%Z then Err errTNAuthList
            else Ok (tag, take (Z.to_nat size) rest, drop (Z.to_nat size) rest)
        end
  | _ => Err errTNAuthList
  end.

(** Reads the next value and returns its contents when the tag is the expected one. *)
Definition expect (tag : Z) (buf : bytes) : Res (bytes * bytes) :=
  match tlv buf with
  | Err err => Err err
  | Ok (got, content, rest) => if (bz got =? tag)%Z then Ok (content, rest) else Err errTNAuthList
  end.

(** Reads a canonical DER INTEGER that fits in an [int64] and is not negative. *)
Definition derInteger (raw : bytes) : Res Z :=
  match raw with
  | [] => Err errTNAuthList
  | b0 :: more =>
      if (8 <? len raw)%Z || negb (Z.land (bz b0) 0x80 =? 0)%Z then Err errTNAuthList
      else if match more with
              | b1 :: _ => (bz b0 =? 0)%Z && (Z.land (bz b1) 0x80 =? 0)%Z
              | [] => false
              end
      then Err errTNAuthList
      else Ok (fold_left appendOctet raw 0%Z)
  end.

(** ** The checks *)

Definition checkServiceProviderCode (value : bytes) : option error :=
  if (len value =? 0)%Z || (maxServiceProviderCodeLength <? len value)%Z then Some errTNAuthList
  else if existsb (λ c, (bz c <? 0x21)%Z || (0x7e <? bz c)%Z) value then Some errTNAuthList
  else None.

Definition checkTelephoneNumber (value : bytes) : option error :=
  if (len value =? 0)%Z || (maxTelephoneNumberLength <? len value)%Z then Some errTNAuthList
  else if existsb (λ c, negb (bool_decide (c ∈ telephoneNumberAlphabet))) value
  then Some errTNAuthList
  else None.

(** [strconv.ParseInt] in base 10 of a string without a sign, [None] for an error. *)
Definition parseDigits (value : bytes) : option Z :=
  let step (acc : option Z) (c : Byte.byte) :=
    acc ≫= λ n, if (48 <=? bz c)%Z && (bz c <=? 57)%Z then Some (n * 10 + (bz c - 48))%Z else None in
  if (len value =? 0)%Z then None
  else fold_left step value (Some 0%Z) ≫= λ n, if (n <? 2 ^ 63)%Z then Some n else None.

(** The loop that reads the fields after the count of a range. *)
Fixpoint checkFields (fuel : nat) (buf : bytes) : option error :=
  match buf, fuel with
  | [], _ => None
  | _, O => Some (ErrMsg "fuel")
  | _, S fuel =>
      match tlv buf with
      | Err err => Some err
      | Ok (_, _, rest) => checkFields fuel rest
      end
  end.

Definition checkTelephoneNumberRange (body : bytes) : option error :=
  match expect 0x16 body with
  | Err err => Some err
  | Ok (start, fields) =>
      if checkTelephoneNumber start is Some err then Some err
      else match expect 0x02 fields with
      | Err err => Some err
      | Ok (raw, fields) =>
          match derInteger raw with
          | Err _ => Some errTNAuthList
          | Ok count =>
              if (count <? 2)%Z then Some errTNAuthList
              else if checkFields (length fields) fields is Some err then Some err
              else if existsb (λ c, bool_decide (c ∈ string_bytes "#*")) start
              then Some errTNAuthList
              else
                let limit := fold_left (λ limit _, i64 (limit * 10)) start 1%Z in
                match parseDigits start with
                | None => Some errTNAuthList
                | Some first =>
                    if (limit <=? count)%Z || (limit <=? i64 (first + count))%Z
                    then Some errTNAuthList else None
                end
          end
      end
  end.

(** Checks one alternative of the TNEntry choice. *)
Definition checkTNEntry (tag : Byte.byte) (content : bytes) : option error :=
  let alternative (inner : Z) (check : bytes → option error) :=
    match expect inner content with
    | Ok (value, []) => check value
    | _ => Some errTNAuthList
    end in
  if (bz tag =? 0xa0)%Z then alternative 0x16%Z checkServiceProviderCode
  else if (bz tag =? 0xa1)%Z then alternative 0x30%Z checkTelephoneNumberRange
  else if (bz tag =? 0xa2)%Z then alternative 0x16%Z checkTelephoneNumber
  else Some errTNAuthList.

(** The loop over the entries, which returns the number of entries it read. *)
Fixpoint checkEntries (fuel : nat) (count : Z) (buf : bytes) : Res Z :=
  match buf, fuel with
  | [], _ => Ok count
  | _, O => Err (ErrMsg "fuel")
  | _, S fuel =>
      let count := (count + 1)%Z in
      if (maxTNEntries <? count)%Z then Err errTNAuthList
      else match tlv buf with
      | Err err => Err err
      | Ok (tag, content, rest) =>
          if checkTNEntry tag content is Some err then Err err
          else checkEntries fuel count rest
      end
  end.

Definition checkTNAuthList (der : bytes) : option error :=
  if (len der =? 0)%Z || (maxTNAuthListBytes <? len der)%Z then Some errTNAuthList
  else match expect 0x30 der with
  | Ok (body, []) =>
      match checkEntries (length body) 0 body with
      | Err err => Some err
      | Ok count => if (count =? 0)%Z then Some errTNAuthList else None
      end
  | _ => Some errTNAuthList
  end.

(** Decodes the base64url form of a TN Authorization List and checks its DER. *)
Definition normalizeTNAuthList (value : string) : Res Identifier :=
  let id := mkIdentifier IdentifierTNAuthList value in
  if (value == "") then
    Err (ErrProblem (NewProblem ErrorMalformed "TNAuthList identifier value is empty"))
  else match decode value with
  | None => Err (ErrProblem (rejected id "TNAuthList identifier is not unpadded base64url"))
  | Some der =>
      if checkTNAuthList der is Some _
      then Err (ErrProblem (rejected id "TNAuthList identifier is not a valid authority list"))
      else Ok id
  end.
