(* ===== verification/TnauthlistSpec.v ===== *)
(** * The grammar of TN Authorization Lists

    A DER encoder for the lists of RFC 8226 and the proof that the checks of src/tnauthlist.go
    accept exactly its outputs, so that a list has one encoding. *)

From S2P Require Import Prelude Status Problem Resource Base64 Tnauthlist.

(** ** Big-endian numbers *)

Fixpoint be_value (l : bytes) : Z :=
  match l with
  | [] => 0%Z
  | b :: l => (bz b * 256 ^ len l + be_value l)%Z
  end.

Fixpoint be (k : nat) (n : Z) : bytes :=
  match k with
  | O => []
  | S k => zb (n `div` 256 ^ Z.of_nat k) :: be k n
  end.

(** ** DER *)

(** The octets of a positive length and the octets of a non-negative INTEGER. *)
Definition octets (n : Z) : nat := Z.to_nat (Z.log2 n `div` 8 + 1).
Definition intOctets (n : Z) : nat :=
  if (n =? 0)%Z then 1%nat else Z.to_nat ((Z.log2 n + 1) `div` 8 + 1).

Definition derLength (n : Z) : bytes :=
  if (n <? 128)%Z then [zb n] else zb (128 + Z.of_nat (octets n)) :: be (octets n) n.

Definition der (tag : Byte.byte) (content : bytes) : bytes :=
  tag :: derLength (len content) ++ content.

Definition derInt (n : Z) : bytes := be (intOctets n) n.

(** A tag of one octet. *)
Definition tag_ok (tag : Byte.byte) : Prop := Z.land (bz tag) 0x1f ≠ 0x1f%Z.

(** ** Authority lists *)

Inductive TNEntry : Type :=
| ServiceProviderCode (code : bytes)
| TelephoneNumberRange (start : bytes) (count : Z) (extensions : list (Byte.byte * bytes))
| TelephoneNumber (number : bytes).

Definition encodeField (f : Byte.byte * bytes) : bytes := der f.1 f.2.

Definition encodeEntry (e : TNEntry) : bytes :=
  match e with
  | ServiceProviderCode code => der (zb 0xa0) (der (zb 0x16) code)
  | TelephoneNumberRange start count extensions =>
      der (zb 0xa1) (der (zb 0x30)
        (der (zb 0x16) start ++ der (zb 0x02) (derInt count) ++ concat (map encodeField extensions)))
  | TelephoneNumber number => der (zb 0xa2) (der (zb 0x16) number)
  end.

Definition encodeList (l : list TNEntry) : bytes := der (zb 0x30) (concat (map encodeEntry l)).

(** The value of a string of digits. *)
Definition decimal (l : bytes) : Z := fold_left (λ n c, n * 10 + (bz c - 48))%Z l 0%Z.

Definition wf_code (v : bytes) : Prop :=
  (1 ≤ len v ≤ 64)%Z ∧ Forall (λ c, 0x21 ≤ bz c ≤ 0x7e)%Z v.
Definition wf_number (v : bytes) : Prop :=
  (1 ≤ len v ≤ 15)%Z ∧ Forall (λ c, c ∈ telephoneNumberAlphabet) v.

(** A range starts at a number without prefix characters and all its numbers have its length. *)
Definition wf_entry (e : TNEntry) : Prop :=
  match e with
  | ServiceProviderCode code => wf_code code
  | TelephoneNumberRange start count extensions =>
      (1 ≤ len start ≤ 15)%Z ∧ Forall (λ c, 48 ≤ bz c ≤ 57)%Z start ∧
      (2 ≤ count)%Z ∧ (decimal start + count < 10 ^ len start)%Z ∧
      Forall (λ f, tag_ok f.1) extensions
  | TelephoneNumber number => wf_number number
  end.

Definition wf_list (l : list TNEntry) : Prop :=
  (1 ≤ len l ≤ 512)%Z ∧ Forall wf_entry l ∧ (len (encodeList l) ≤ 8192)%Z.

(** ** Lemmas on big-endian numbers *)

Lemma be_length k n : length (be k n) = k.
Proof. induction k; simpl; congruence. Qed.

Lemma be_value_range l : (0 ≤ be_value l < 256 ^ len l)%Z.
Proof.
  induction l as [|b l IH]; [done|]. cbn [be_value length].
  rewrite Nat2Z.inj_succ, Z.pow_succ_r by lia. pose proof (bz_range b). nia.
Qed.

Lemma be_value_be k n : be_value (be k n) = (n `mod` 256 ^ Z.of_nat k)%Z.
Proof.
  induction k as [|k IH]; [by rewrite Z.mod_1_r|]. cbn [be be_value].
  rewrite be_length, IH, bz_zb, Nat2Z.inj_succ, Z.pow_succ_r, (Z.mul_comm 256) by lia.
  rewrite (Z.rem_mul_r n) by lia. lia.
Qed.

Lemma be_add k m n : be k (m * 256 ^ Z.of_nat k + n) = be k n.
Proof.
  revert m. induction k as [|k IH]; intros m; [done|]. cbn [be].
  rewrite Nat2Z.inj_succ, Z.pow_succ_r by lia.
  replace (m * (256 * 256 ^ Z.of_nat k) + n)%Z with (m * 256 * 256 ^ Z.of_nat k + n)%Z by lia.
  rewrite IH, Z.div_add_l by lia. f_equal.
  rewrite <-(zb_bz (zb (n `div` _))), bz_zb. unfold zb. do 3 f_equal.
  rewrite Z.mod_mod, Z.add_comm, Z.mod_add by lia. done.
Qed.

Lemma be_be_value l : be (length l) (be_value l) = l.
Proof.
  induction l as [|b l IH]; [done|]. cbn [be be_value length].
  pose proof (be_value_range l). rewrite be_add, IH. f_equal. apply zb_eq.
  rewrite Z.div_add_l, Z.div_small by lia. lia.
Qed.

Lemma be_value_unique k n : (0 ≤ n < 256 ^ Z.of_nat k)%Z → be_value (be k n) = n.
Proof. intros Hn. rewrite be_value_be. by apply Z.mod_small. Qed.

Lemma shiftl_lor v b : (0 ≤ b < 256)%Z → Z.lor (Z.shiftl v 8) b = (v * 256 + b)%Z.
Proof.
  intros Hb. assert (Z.land (Z.shiftl v 8) b = 0%Z) as Hland.
  { apply Z.bits_inj'. intros i Hi. rewrite Z.land_spec, Z.shiftl_spec, Z.bits_0 by lia.
    rewrite <-(Z.mod_small b (2 ^ 8)) by lia. destruct (decide (i < 8)%Z).
    - by rewrite (Z.testbit_neg_r v) by lia.
    - rewrite Z.mod_pow2_bits_high by lia. apply andb_false_r. }
  rewrite <-Z.lxor_lor, <-Z.add_nocarry_lxor by done. by rewrite Z.shiftl_mul_pow2.
Qed.

Lemma appendOctet_eq v b :
  (0 ≤ v)%Z → (v * 256 + bz b < 2 ^ 63)%Z → appendOctet v b = (v * 256 + bz b)%Z.
Proof.
  intros Hv Hmax. pose proof (bz_range b). unfold appendOctet. rewrite shiftl_lor by done.
  apply i64_small. lia.
Qed.

Lemma fold_appendOctet l v :
  (0 ≤ v)%Z → (v * 256 ^ len l + be_value l < 2 ^ 63)%Z →
  fold_left appendOctet l v = (v * 256 ^ len l + be_value l)%Z.
Proof.
  revert v. induction l as [|b l IH]; intros v Hv Hmax; [simpl; lia|].
  cbn [fold_left be_value length] in *. rewrite Nat2Z.inj_succ, Z.pow_succ_r in * by lia.
  pose proof (be_value_range l). pose proof (bz_range b).
  rewrite appendOctet_eq, IH by nia. lia.
Qed.

Lemma fold_octets l : (len l ≤ 7)%Z → fold_left appendOctet l 0%Z = be_value l.
Proof.
  intros Hlen. pose proof (be_value_range l).
  assert (256 ^ len l ≤ 256 ^ 7)%Z by (apply Z.pow_le_mono_r; lia).
  rewrite fold_appendOctet; lia.
Qed.

Lemma log2_pow256 k : (0 ≤ k)%Z → Z.log2 (256 ^ k) = (8 * k)%Z.
Proof.
  intros Hk. change 256%Z with (2 ^ 8)%Z. rewrite <-Z.pow_mul_r by lia. apply Z.log2_pow2. lia.
Qed.

(** The number of octets is the one for which the leading octet is not zero. *)
Lemma octets_unique k n :
  (256 ^ Z.of_nat k ≤ n < 256 ^ Z.of_nat (S k))%Z → octets n = S k.
Proof.
  intros [Hlo Hhi]. unfold octets.
  assert (0 < n)%Z by (pose proof (Z.pow_pos_nonneg 256 (Z.of_nat k)); lia).
  apply Z.log2_le_mono in Hlo. rewrite log2_pow256 in Hlo by lia.
  change 256%Z with (2 ^ 8)%Z in Hhi. rewrite <-Z.pow_mul_r in Hhi by lia.
  apply Z.log2_lt_pow2 in Hhi; [|lia]. Z.to_euclidean_division_equations; lia.
Qed.

Lemma octets_range n :
  (0 < n)%Z → ∃ k, octets n = S k ∧ (256 ^ Z.of_nat k ≤ n < 256 ^ Z.of_nat (S k))%Z.
Proof.
  intros Hn. exists (Z.to_nat (Z.log2 n `div` 8)).
  assert (0 ≤ Z.log2 n `div` 8)%Z by (apply Z.div_pos; [apply Z.log2_nonneg|lia]).
  split; [unfold octets; lia|]. rewrite Nat2Z.inj_succ, Z2Nat.id by done.
  change 256%Z with (2 ^ 8)%Z. rewrite <-!Z.pow_mul_r by lia.
  destruct (Z.log2_spec n Hn) as [Hlo Hhi]. split.
  - etrans; [|exact Hlo]. apply Z.pow_le_mono_r; [lia|]. Z.to_euclidean_division_equations; lia.
  - eapply Z.lt_le_trans; [exact Hhi|]. apply Z.pow_le_mono_r; [lia|].
    Z.to_euclidean_division_equations; lia.
Qed.

(** ** The cursor reads exactly the DER encodings *)

Lemma land_80 c : Z.land (bz c) 0x80 = (if (bz c <? 128) then 0 else 128)%Z.
Proof. by destruct c. Qed.

Lemma land_7f c : Z.land (bz c) 0x7f = (bz c `mod` 128)%Z.
Proof. by destruct c. Qed.

Lemma der_app tag content rest :
  der tag content ++ rest = tag :: derLength (len content) ++ content ++ rest.
Proof. unfold der. simpl. by rewrite <-app_assoc. Qed.

Lemma take_length_app {A} (l k : list A) n : n = len l → take (Z.to_nat n) (l ++ k) = l.
Proof. intros ->. rewrite Nat2Z.id. apply take_app_length. Qed.

Lemma drop_length_app {A} (l k : list A) n : n = len l → drop (Z.to_nat n) (l ++ k) = k.
Proof. intros ->. rewrite Nat2Z.id. apply drop_app_length. Qed.

Lemma tlv_der tag content rest :
  tag_ok tag → (len content < 2 ^ 32)%Z →
  tlv (der tag content ++ rest) = Ok (tag, content, rest).
Proof.
  intros Htag Hlen. rewrite der_app. unfold derLength.
  destruct (len content <? 128)%Z eqn:Hshort; go_bool; unfold tlv; simpl.
  - rewrite (proj2 (Z.eqb_neq _ _) Htag), land_80, bz_zb, Z.mod_small by lia.
    rewrite (proj2 (Z.ltb_lt _ _) Hshort), Z.eqb_refl.
    rewrite length_app, Nat2Z.inj_add, (proj2 (Z.ltb_ge _ _)) by lia.
    by rewrite take_length_app, drop_length_app.
  - destruct (octets_range (len content)) as (k & Hk & Hlo & Hhi); [lia|].
    assert (Z.of_nat k < 4)%Z as Hk4.
    { destruct (decide (Z.of_nat k < 4)%Z); [done|].
      assert (256 ^ 4 ≤ 256 ^ Z.of_nat k)%Z by (apply Z.pow_le_mono_r; lia). lia. }
    rewrite Hk, (proj2 (Z.eqb_neq _ _) Htag), land_80, land_7f, !bz_zb.
    rewrite (Z.mod_small (128 + _)) by lia. rewrite (proj2 (Z.ltb_ge _ _)) by lia.
    replace ((128 + Z.of_nat (S k)) `mod` 128)%Z with (Z.of_nat (S k))
      by (Z.to_euclidean_division_equations; lia).
    set (size := be (S k) (len content)).
    assert (len size = Z.of_nat (S k)) as Hsize by (unfold size; by rewrite be_length).
    replace (128 =? 0)%Z with false by done.
    rewrite (proj2 (Z.eqb_neq (Z.of_nat (S k)) 0)), (proj2 (Z.ltb_ge 4 _)) by lia.
    rewrite length_app, Nat2Z.inj_add, (proj2 (Z.ltb_ge _ (Z.of_nat (S k)))) by lia.
    assert (match size ++ content ++ rest with b :: _ => (bz b =? 0)%Z | [] => false end = false) as ->.
    { unfold size. simpl. rewrite bz_zb. apply Z.eqb_neq.
      rewrite Nat2Z.inj_succ, Z.pow_succ_r in Hhi by lia.
      assert (0 < len content `div` 256 ^ Z.of_nat k < 256)%Z; [|Z.to_euclidean_division_equations; lia].
      split; [apply Z.div_str_pos; lia|apply Z.div_lt_upper_bound; lia]. }
    cbn [orb]. rewrite take_length_app, drop_length_app by done.
    rewrite fold_octets by lia. unfold size. rewrite be_value_unique by lia.
    rewrite (proj2 (Z.ltb_ge (len content) 128)) by lia.
    rewrite length_app, Nat2Z.inj_add, (proj2 (Z.ltb_ge _ _)) by lia.
    by rewrite take_length_app, drop_length_app.
Qed.

Lemma be_octets l b :
  (bz b ≠ 0)%Z → be (octets (be_value (b :: l))) (be_value (b :: l)) = b :: l ∧
  octets (be_value (b :: l)) = S (length l).
Proof.
  intros Hb. assert (octets (be_value (b :: l)) = S (length l)) as Hk.
  { apply octets_unique. pose proof (be_value_range (b :: l)) as Hr. cbn [length] in Hr.
    split; [|apply Hr]. cbn [be_value]. pose proof (be_value_range l). pose proof (bz_range b). nia. }
  split; [|done]. rewrite Hk. apply (be_be_value (b :: l)).
Qed.

Lemma tlv_Ok buf tag content rest :
  tlv buf = Ok (tag, content, rest) →
  tag_ok tag ∧ (len content < 2 ^ 32)%Z ∧ buf = der tag content ++ rest.
Proof.
  destruct buf as [|t [|l0 buf]]; [done..|]. unfold tlv.
  destruct (Z.land (bz t) 0x1f =? 0x1f)%Z eqn:Htag; [done|]. apply Z.eqb_neq in Htag.
  rewrite land_80. pose proof (bz_range l0) as Hl0. destruct (bz l0 <? 128)%Z eqn:Hshort; go_bool.
  - replace (0 =? 0)%Z with true by done. destruct (len buf <? bz l0)%Z eqn:Hlen; [done|]. go_bool.
    intros [= <- <- <-].
    assert (len (take (Z.to_nat (bz l0)) buf) = bz l0) as Hc by (rewrite length_take; lia).
    split; [done|]. rewrite der_app, Hc, take_drop. split; [lia|]. unfold derLength.
    rewrite (proj2 (Z.ltb_lt _ _)), zb_bz by lia. done.
  - replace (128 =? 0)%Z with false by done. rewrite land_7f.
    replace (bz l0 `mod` 128)%Z with (bz l0 - 128)%Z by (Z.to_euclidean_division_equations; lia).
    set (o := (bz l0 - 128)%Z). destruct ((o =? 0)%Z || _ || _ || _) eqn:Hcond; [done|].
    rewrite !orb_false_iff in Hcond. destruct Hcond as [[[Ho Ho4] Hfit] Hb0].
    apply Z.eqb_neq in Ho. rewrite Z.ltb_ge in Ho4, Hfit.
    destruct buf as [|b buf]; [simpl in *; lia|]. apply Z.eqb_neq in Hb0.
    assert (take (Z.to_nat o) (b :: buf) = b :: take (pred (Z.to_nat o)) buf) as Htake
      by (destruct (Z.to_nat o) eqn:?; [lia|done]).
    rewrite Htake. set (l := take (pred (Z.to_nat o)) buf) in *.
    assert (len (b :: l) = o) as Hlen.
    { rewrite <-Htake, length_take. cbn [length] in *. lia. }
    rewrite fold_octets by lia. destruct (be_value (b :: l) <? 0x80)%Z eqn:Hmin; [done|].
    destruct (len (drop _ _) <? _)%Z eqn:Hfits; [done|]. go_bool. intros [= <- <- <-].
    change (bz b * 256 ^ len l + be_value l)%Z with (be_value (b :: l)).
    destruct (be_octets l b Hb0) as [Hbe Hoct].
    assert (len (take (Z.to_nat (be_value (b :: l))) (drop (Z.to_nat o) (b :: buf))) =
      be_value (b :: l)) as Hc.
    { pose proof (be_value_range (b :: l)). rewrite length_take. lia. }
    split; [done|]. rewrite der_app, Hc, take_drop. unfold derLength.
    rewrite (proj2 (Z.ltb_ge _ _)), Hbe, Hoct by done. split.
    + pose proof (be_value_range (b :: l)).
      assert (256 ^ len (b :: l) ≤ 256 ^ 4)%Z by (apply Z.pow_le_mono_r; lia). lia.
    + cbn [length] in Hlen. f_equal. simpl app. f_equal.
      * symmetry. apply zb_eq. lia.
      * rewrite <-(take_drop (Z.to_nat o) (b :: buf)) at 1. by rewrite Htake.
Qed.

Lemma len_der tag content : (len content + 2 ≤ len (der tag content))%Z.
Proof.
  unfold der, derLength. cbn [length]. rewrite length_app.
  destruct (_ <? _)%Z; cbn [length]; lia.
Qed.

Lemma der_unique tag content rest tag' content' rest' :
  tag_ok tag → tag_ok tag' → (len content < 2 ^ 32)%Z → (len content' < 2 ^ 32)%Z →
  der tag content ++ rest = der tag' content' ++ rest' →
  tag = tag' ∧ content = content' ∧ rest = rest'.
Proof.
  intros Ht Ht' Hc Hc' Heq. pose proof (tlv_der tag content rest Ht Hc) as H.
  rewrite Heq, tlv_der in H by done. by injection H.
Qed.

(** [expect] reads exactly a value with the tag. *)
Lemma expect_Ok t buf content rest :
  tag_ok (zb t) → (0 ≤ t < 256)%Z →
  expect t buf = Ok (content, rest) ↔ (len content < 2 ^ 32)%Z ∧ buf = der (zb t) content ++ rest.
Proof.
  intros Htag Ht. unfold expect. split.
  - destruct (tlv buf) as [[[got c] r]|] eqn:Htlv; [|done].
    apply tlv_Ok in Htlv as (_ & Hlen & ->). destruct (bz got =? t)%Z eqn:Hgot; [|done].
    apply Z.eqb_eq in Hgot as <-. intros [= <- <-]. by rewrite zb_bz.
  - intros [Hlen ->]. rewrite tlv_der by done. by rewrite bz_zb, Z.mod_small, Z.eqb_refl.
Qed.

Lemma tlv_Err buf err : tlv buf = Err err → err = errTNAuthList.
Proof. unfold tlv. intros H. repeat case_match; simplify_eq; done. Qed.

Lemma expect_Err t buf err : expect t buf = Err err → err = errTNAuthList.
Proof.
  unfold expect. destruct (tlv buf) as [[[got c] r]|e] eqn:Htlv; intros H.
  - case_match; by simplify_eq.
  - simplify_eq. by eapply tlv_Err.
Qed.

(** ** Integers *)

Lemma pow256 k : (0 ≤ k)%Z → (256 ^ k = 2 ^ (8 * k))%Z.
Proof. intros Hk. change 256%Z with (2 ^ 8)%Z. by rewrite <-Z.pow_mul_r by lia. Qed.

(** The octets of a positive INTEGER leave the sign bit clear and no octet to spare. *)
Lemma intOctets_unique k n :
  (0 < n < 128 * 256 ^ Z.of_nat k)%Z → (k = 0%nat ∨ 256 ^ Z.of_nat k ≤ 2 * n)%Z →
  intOctets n = S k.
Proof.
  intros [Hn Hhi] Hlo. unfold intOctets. rewrite (proj2 (Z.eqb_neq _ _)) by lia.
  rewrite pow256 in Hhi by lia. change 128%Z with (2 ^ 7)%Z in Hhi.
  rewrite <-Z.pow_add_r in Hhi by lia. apply Z.log2_lt_pow2 in Hhi; [|lia].
  pose proof (Z.log2_nonneg n). destruct Hlo as [->|Hlo].
  - Z.to_euclidean_division_equations; lia.
  - apply Z.log2_le_mono in Hlo. rewrite log2_pow256, Z.log2_double in Hlo by lia.
    Z.to_euclidean_division_equations; lia.
Qed.

Lemma intOctets_range n :
  (0 < n)%Z → ∃ k, intOctets n = S k ∧ (n < 128 * 256 ^ Z.of_nat k)%Z ∧
    (k = 0%nat ∨ 256 ^ Z.of_nat k ≤ 2 * n)%Z.
Proof.
  intros Hn. exists (Z.to_nat ((Z.log2 n + 1) `div` 8)). pose proof (Z.log2_nonneg n).
  assert (0 ≤ (Z.log2 n + 1) `div` 8)%Z as Hd by (apply Z.div_pos; lia).
  unfold intOctets. rewrite (proj2 (Z.eqb_neq _ _)) by lia. split; [lia|].
  rewrite Z2Nat.id, pow256 by done. change 128%Z with (2 ^ 7)%Z. rewrite <-Z.pow_add_r by lia.
  destruct (Z.log2_spec n Hn) as [Hlo Hhi]. split.
  - eapply Z.lt_le_trans; [exact Hhi|]. apply Z.pow_le_mono_r; [lia|].
    Z.to_euclidean_division_equations; lia.
  - destruct (decide ((Z.log2 n + 1) `div` 8 = 0)%Z) as [->|Hne]; [by left|right].
    transitivity (2 ^ (Z.succ (Z.log2 n)))%Z; [|rewrite Z.pow_succ_r by lia; lia].
    apply Z.pow_le_mono_r; [lia|]. Z.to_euclidean_division_equations; lia.
Qed.

Lemma derInteger_value b0 more :
  (len (b0 :: more) ≤ 8)%Z → (bz b0 < 128)%Z →
  fold_left appendOctet (b0 :: more) 0%Z = be_value (b0 :: more) ∧
  (be_value (b0 :: more) < 2 ^ 63)%Z ∧
  (be_value (b0 :: more) < 128 * 256 ^ len more)%Z.
Proof.
  intros Hlen Hb0. pose proof (be_value_range more). pose proof (bz_range b0).
  assert (256 ^ len more ≤ 256 ^ 7)%Z by (apply Z.pow_le_mono_r; cbn [length] in Hlen; lia).
  assert (be_value (b0 :: more) < 128 * 256 ^ len more)%Z by (cbn [be_value]; nia).
  split; [|lia]. rewrite fold_appendOctet; lia.
Qed.

Lemma derInteger_Ok raw n : derInteger raw = Ok n → (0 ≤ n < 2 ^ 63)%Z ∧ raw = derInt n.
Proof.
  destruct raw as [|b0 more]; [done|]. cbn [derInteger].
  destruct (_ || _) eqn:Hcond; [done|]. apply orb_false_iff in Hcond as [Hlen Hsign]. go_bool.
  rewrite land_80 in Hsign. destruct (bz b0 <? 128)%Z eqn:Hb0; [|done]. go_bool.
  destruct (derInteger_value b0 more) as (Hfold & Hmax & Htop); [done..|].
  destruct (match more with b1 :: _ => _ | [] => _ end) eqn:Hmin; [done|]. rewrite Hfold.
  intros [= <-]. change (bz b0 * 256 ^ len more + be_value more)%Z with (be_value (b0 :: more)).
  pose proof (be_value_range (b0 :: more)) as Hr. split; [lia|].
  assert (intOctets (be_value (b0 :: more)) = length (b0 :: more)) as Hk.
  { destruct (decide (be_value (b0 :: more) = 0)%Z) as [H0|Hpos].
    - rewrite H0. destruct more as [|b1 more]; [done|]. exfalso. cbn [be_value length] in *.
      pose proof (bz_range b0). pose proof (bz_range b1). pose proof (be_value_range more).
      assert (bz b0 = 0 ∧ bz b1 = 0)%Z as [Hz0 Hz1] by nia. rewrite land_80, Hz0, Hz1 in Hmin. done.
    - apply (intOctets_unique (length more)); [lia|].
      destruct more as [|b1 more]; [by left|right]. cbn [be_value length] in *.
      pose proof (bz_range b0). pose proof (bz_range b1). pose proof (be_value_range more).
      rewrite Nat2Z.inj_succ, Z.pow_succ_r by lia. rewrite land_80 in Hmin.
      destruct (bz b1 <? 128)%Z eqn:Hb1; [|apply Z.ltb_ge in Hb1; nia].
      rewrite andb_true_r in Hmin. apply Z.eqb_neq in Hmin. nia. }
  unfold derInt. rewrite Hk. symmetry. apply be_be_value.
Qed.

Lemma derInteger_derInt n : (0 ≤ n < 2 ^ 63)%Z → derInteger (derInt n) = Ok n.
Proof.
  intros Hn. destruct (decide (n = 0)%Z) as [->|Hne]; [by vm_compute|].
  destruct (intOctets_range n) as (k & Hk & Hhi & Hlo); [lia|]. unfold derInt. rewrite Hk.
  assert (Z.of_nat k ≤ 7)%Z as Hk7.
  { destruct Hlo as [->|Hlo]; [lia|]. destruct (decide (Z.of_nat k ≤ 7)%Z); [done|].
    assert (256 ^ 8 ≤ 256 ^ Z.of_nat k)%Z by (apply Z.pow_le_mono_r; lia). lia. }
  assert (0 ≤ n `div` 256 ^ Z.of_nat k < 128)%Z as Hb0.
  { split; [apply Z.div_pos; lia|apply Z.div_lt_upper_bound; lia]. }
  cbn [be derInteger]. cbn [length]. rewrite be_length.
  rewrite (proj2 (Z.ltb_ge _ _)), land_80, bz_zb, (Z.mod_small (n `div` _)) by lia.
  rewrite (proj2 (Z.ltb_lt _ 128)) by lia. replace (0 =? 0)%Z with true by done. cbn [orb negb].
  assert (match be k n with
    | b1 :: _ => (n `div` 256 ^ Z.of_nat k =? 0)%Z && (Z.land (bz b1) 0x80 =? 0)%Z
    | [] => false end = false) as ->.
  { destruct k as [|k]; [done|]. destruct Hlo as [|Hlo]; [done|]. cbn [be].
    apply andb_false_iff. destruct (decide (n `div` 256 ^ Z.of_nat (S k) = 0)%Z) as [H0|H0];
      [right|left; by apply Z.eqb_neq].
    apply Z.div_small_iff in H0; [|lia]. destruct H0 as [H0|H0]; [|lia].
    rewrite Nat2Z.inj_succ, Z.pow_succ_r in Hlo, H0 by lia.
    assert (128 ≤ n `div` 256 ^ Z.of_nat k < 256)%Z as Hb1.
    { split; [apply Z.div_le_lower_bound; lia|apply Z.div_lt_upper_bound; lia]. }
    by rewrite land_80, bz_zb, Z.mod_small, (proj2 (Z.ltb_ge _ _)) by lia. }
  change (zb (n `div` 256 ^ Z.of_nat k) :: be k n) with (be (S k) n).
  assert (n < 256 ^ Z.of_nat (S k))%Z by (rewrite Nat2Z.inj_succ, Z.pow_succ_r by lia; lia).
  rewrite fold_appendOctet, be_value_unique by (rewrite ?be_value_unique; lia). done.
Qed.

(** ** The checks accept exactly the grammar *)

Lemma existsb_false {A} (p : A → bool) (P : A → Prop) l :
  (∀ x, p x = false ↔ P x) → existsb p l = false ↔ Forall P l.
Proof.
  intros Hp. induction l as [|x l IH]; simpl; [by split|].
  by rewrite orb_false_iff, Forall_cons, IH, Hp.
Qed.

Lemma checkServiceProviderCode_None v : checkServiceProviderCode v = None ↔ wf_code v.
Proof.
  unfold checkServiceProviderCode, wf_code, maxServiceProviderCodeLength.
  rewrite <-(existsb_false (λ c, (bz c <? 0x21)%Z || (0x7e <? bz c)%Z)) by
    (intros c; rewrite orb_false_iff, !Z.ltb_ge; lia).
  destruct (_ || _) eqn:Hlen; [apply orb_true_iff in Hlen|apply orb_false_iff in Hlen];
    rewrite Z.eqb_eq, ?Z.ltb_lt in Hlen || rewrite Z.eqb_neq, Z.ltb_ge in Hlen.
  - split; [done|lia].
  - destruct (existsb _ v); split; [done|by intros [_ ?]|split; [lia|done]|done].
Qed.

Lemma checkTelephoneNumber_None v : checkTelephoneNumber v = None ↔ wf_number v.
Proof.
  unfold checkTelephoneNumber, wf_number, maxTelephoneNumberLength.
  rewrite <-(existsb_false (λ c, negb (bool_decide (c ∈ telephoneNumberAlphabet)))) by
    (intros c; by rewrite negb_bool_decide_false).
  destruct (_ || _) eqn:Hlen; [apply orb_true_iff in Hlen|apply orb_false_iff in Hlen];
    rewrite Z.eqb_eq, ?Z.ltb_lt in Hlen || rewrite Z.eqb_neq, Z.ltb_ge in Hlen.
  - split; [done|lia].
  - destruct (existsb _ v); split; [done|by intros [_ ?]|split; [lia|done]|done].
Qed.

(** The characters of a number that are not prefixes are the digits. *)
Lemma alphabet_digit c :
  c ∈ telephoneNumberAlphabet ∧ c ∉ string_bytes "#*" ↔ (48 ≤ bz c ≤ 57)%Z.
Proof.
  rewrite <-!Z.leb_le, <-(bool_decide_eq_true (c ∈ _)), <-(negb_bool_decide_true (c ∈ _)).
  rewrite <-!andb_true_iff.
  assert (bool_decide (c ∈ telephoneNumberAlphabet) && negb (bool_decide (c ∈ string_bytes "#*")) =
    (48 <=? bz c)%Z && (bz c <=? 57)%Z) as -> by (by destruct c). done.
Qed.

Lemma parseDigits_digits l :
  Forall (λ c, 48 ≤ bz c ≤ 57)%Z l → (1 ≤ len l ≤ 15)%Z →
  parseDigits l = Some (decimal l) ∧ (0 ≤ decimal l < 10 ^ len l)%Z.
Proof.
  intros Hl Hlen. unfold parseDigits, decimal. rewrite (proj2 (Z.eqb_neq _ _)) by lia.
  assert (∀ n, (0 ≤ n)%Z → fold_left (λ acc c, acc ≫= λ n, if (48 <=? bz c)%Z && (bz c <=? 57)%Z
      then Some (n * 10 + (bz c - 48))%Z else None) l (Some n) =
    Some (fold_left (λ n c, n * 10 + (bz c - 48))%Z l n) ∧
    (0 ≤ fold_left (λ n c, n * 10 + (bz c - 48)) l n < (n + 1) * 10 ^ len l)%Z) as Hfold.
  { clear Hlen. induction Hl as [|c l Hc _ IH]; intros n Hn; [simpl; split; [done|lia]|].
    cbn [fold_left length]. rewrite Nat2Z.inj_succ, Z.pow_succ_r by lia. simpl mbind.
    rewrite (proj2 (Z.leb_le 48 _)), (proj2 (Z.leb_le _ 57)) by lia. cbn [andb].
    destruct (IH (n * 10 + (bz c - 48))%Z) as [-> Hr]; [lia|]. split; [done|].
    split; [apply Hr|]. nia. }
  destruct (Hfold 0%Z) as [-> Hr]; [lia|]. simpl. rewrite Z.add_0_l, Z.mul_1_l in Hr.
  assert (10 ^ len l ≤ 10 ^ 15)%Z by (apply Z.pow_le_mono_r; lia).
  by rewrite (proj2 (Z.ltb_lt _ _)) by lia.
Qed.

Lemma fold_limit (l : bytes) :
  (len l ≤ 15)%Z → fold_left (λ limit _, i64 (limit * 10)) l 1%Z = (10 ^ len l)%Z.
Proof.
  intros Hlen. rewrite <-(Z.mul_1_l (10 ^ len l)).
  assert (∀ v, (0 ≤ v)%Z → (v * 10 ^ len l < 2 ^ 63)%Z →
    fold_left (λ limit _, i64 (limit * 10)) l v = (v * 10 ^ len l)%Z) as Hfold.
  { clear Hlen. induction l as [|c l IH]; intros v Hv Hmax; [simpl; lia|].
    cbn [fold_left length] in *. rewrite Nat2Z.inj_succ, Z.pow_succ_r in * by lia.
    rewrite i64_small, IH by nia. lia. }
  assert (10 ^ len l ≤ 10 ^ 15)%Z by (apply Z.pow_le_mono_r; lia). apply Hfold; lia.
Qed.

Lemma tag_ok_zb t : (0 ≤ t < 256)%Z → (Z.land t 0x1f ≠ 0x1f)%Z → tag_ok (zb t).
Proof. intros Ht H. unfold tag_ok. by rewrite bz_zb, Z.mod_small. Qed.

Lemma len_der_app tag content rest :
  (len content + 2 + len rest ≤ len (der tag content ++ rest))%Z.
Proof. pose proof (len_der tag content). rewrite length_app. lia. Qed.

(** A sequence of values: what the loop over the remaining fields accepts. *)
Lemma checkFields_None fuel buf :
  (length buf ≤ fuel)%nat → (len buf < 2 ^ 32)%Z →
  checkFields fuel buf = None ↔
  ∃ fs, Forall (λ f, tag_ok f.1) fs ∧ buf = concat (map encodeField fs).
Proof.
  revert buf. induction fuel as [|fuel IH]; intros buf Hfuel Hlen.
  { destruct buf; [|simpl in Hfuel; lia]. split; [|done]. exists []. by split. }
  destruct buf as [|b buf]; [split; [exists []; by split|done]|]. cbn [checkFields].
  destruct (tlv (b :: buf)) as [[[tag content] rest]|err] eqn:Htlv.
  - apply tlv_Ok in Htlv as (Htag & Hc & Heq). pose proof (len_der_app tag content rest) as Hd.
    rewrite Heq in Hfuel, Hlen |- *. rewrite IH by lia. split.
    + intros (fs & Hfs & ->). exists ((tag, content) :: fs). by split; [constructor|].
    + intros ([|[t c] fs] & Hfs & Heq2); [by rewrite <-Heq in Heq2|].
      apply Forall_cons in Hfs as [Ht Hfs]. exists fs. split; [done|].
      change (concat _) with (der t c ++ concat (map encodeField fs)) in Heq2.
      pose proof (len_der_app t c (concat (map encodeField fs))) as Hd2. rewrite <-Heq2 in Hd2.
      apply der_unique in Heq2 as (_ & _ & ->); [done..|lia].
  - split; [done|]. intros ([|[t c] fs] & Hfs & Heq); [done|].
    apply Forall_cons in Hfs as [Ht _].
    change (concat _) with (der t c ++ concat (map encodeField fs)) in Heq.
    pose proof (len_der_app t c (concat (map encodeField fs))) as Hd2. rewrite <-Heq in Hd2.
    rewrite Heq, tlv_der in Htlv; [done..|lia].
Qed.

Lemma checkFields_Some fuel buf err :
  (length buf ≤ fuel)%nat → checkFields fuel buf = Some err → err = errTNAuthList.
Proof.
  revert buf. induction fuel as [|fuel IH]; intros [|b buf] Hfuel; simpl in Hfuel; try done; [lia|].
  cbn [checkFields]. destruct (tlv (b :: buf)) as [[[tag content] rest]|e] eqn:Htlv.
  - apply tlv_Ok in Htlv as (_ & _ & Heq). pose proof (len_der_app tag content rest) as Hd.
    rewrite <-Heq in Hd. simpl in Hd. apply IH. lia.
  - intros [= <-]. by eapply tlv_Err.
Qed.

Lemma expect_Ok' t buf content rest :
  tag_ok (zb t) → (0 ≤ t < 256)%Z → (len buf < 2 ^ 32)%Z →
  expect t buf = Ok (content, rest) ↔ buf = der (zb t) content ++ rest.
Proof.
  intros Htag Ht Hlen. rewrite expect_Ok by done. split; [by intros [_ ?]|]. intros Heq.
  split; [|done]. pose proof (len_der_app (zb t) content rest). rewrite <-Heq in *. lia.
Qed.

Lemma expect_der t content rest :
  (0 ≤ t < 256)%Z → (Z.land t 0x1f ≠ 0x1f)%Z → (len content < 2 ^ 32)%Z →
  expect t (der (zb t) content ++ rest) = Ok (content, rest).
Proof. intros Ht Hland Hlen. apply expect_Ok; [by apply tag_ok_zb|done|done]. Qed.

Lemma checkTelephoneNumberRange_None body :
  (len body < 2 ^ 32)%Z →
  checkTelephoneNumberRange body = None ↔
  ∃ start count fs, wf_entry (TelephoneNumberRange start count fs) ∧
    body = der (zb 0x16) start ++ der (zb 0x02) (derInt count) ++ concat (map encodeField fs).
Proof.
  intros Hlen. unfold checkTelephoneNumberRange. split.
  - destruct (expect 0x16 body) as [[start fields]|] eqn:Hstart; [|done].
    apply expect_Ok' in Hstart; [subst body|by apply tag_ok_zb|lia|done].
    pose proof (len_der_app (zb 0x16) start fields).
    destruct (checkTelephoneNumber start) eqn:Hnum; [done|].
    apply checkTelephoneNumber_None in Hnum as [Hslen Hsalpha].
    destruct (expect 0x02 fields) as [[raw fields']|] eqn:Hraw; [|done].
    apply expect_Ok' in Hraw; [subst fields|by apply tag_ok_zb|lia|lia].
    pose proof (len_der_app (zb 0x02) raw fields').
    destruct (derInteger raw) as [count|] eqn:Hint; [|done].
    apply derInteger_Ok in Hint as [Hcount ->]. destruct (count <? 2)%Z eqn:H2; [done|].
    destruct (checkFields _ fields') eqn:Hfs; [done|].
    apply checkFields_None in Hfs as (fs & Hfs & ->); [|done|lia].
    destruct (existsb _ start) eqn:Hprefix; [done|].
    rewrite (existsb_false _ (λ c, c ∉ string_bytes "#*")) in Hprefix by
      (intros c; by rewrite bool_decide_eq_false).
    assert (Forall (λ c, 48 ≤ bz c ≤ 57)%Z start) as Hdigits.
    { rewrite Forall_forall in *. intros c Hc. apply alphabet_digit. auto. }
    rewrite fold_limit by lia. destruct (parseDigits_digits start Hdigits Hslen) as [-> Hdec].
    destruct (_ || _) eqn:Hbound; [done|]. intros _. apply orb_false_iff in Hbound as [Hc1 Hc2].
    go_bool. assert (10 ^ len start ≤ 10 ^ 15)%Z by (apply Z.pow_le_mono_r; lia).
    rewrite i64_small in Hc2 by lia. by exists start, count, fs.
  - intros (start & count & fs & (Hslen & Hdigits & Hcount & Hbound & Hfs) & ->).
    pose proof (len_der_app (zb 0x16) start
      (der (zb 0x02) (derInt count) ++ concat (map encodeField fs))) as Hl1.
    pose proof (len_der_app (zb 0x02) (derInt count) (concat (map encodeField fs))) as Hl2.
    rewrite expect_der by (done || lia).
    assert (wf_number start) as Hnum.
    { split; [done|]. rewrite Forall_forall in *. intros c Hc. by apply alphabet_digit, Hdigits. }
    rewrite (proj2 (checkTelephoneNumber_None _) Hnum).
    rewrite expect_der by (done || lia).
    destruct (parseDigits_digits start Hdigits Hslen) as [Hparse Hdec].
    assert (10 ^ len start ≤ 10 ^ 15)%Z by (apply Z.pow_le_mono_r; lia).
    rewrite derInteger_derInt by lia. rewrite (proj2 (Z.ltb_ge count 2)) by lia.
    assert (len (concat (map encodeField fs)) < 2 ^ 32)%Z as Hl3 by lia.
    rewrite (proj2 (checkFields_None _ _ (le_n _) Hl3) (ex_intro _ fs (conj Hfs eq_refl))).
    rewrite (proj2 (existsb_false _ (λ c, c ∉ string_bytes "#*") start
      (λ c, bool_decide_eq_false _))).
    2: { rewrite Forall_forall in *. intros c Hc. by apply alphabet_digit, Hdigits. }
    rewrite fold_limit, Hparse by lia. rewrite i64_small by lia.
    by rewrite !(proj2 (Z.leb_gt _ _)) by lia.
Qed.

(** The three alternatives of an entry, by tag and content. *)
Lemma encodeEntry_tag e :
  ∃ tag content, encodeEntry e = der tag content ∧ tag_ok tag.
Proof. destruct e; simpl; eexists _, _; (split; [done|by apply tag_ok_zb]). Qed.

Lemma alternative_None inner content (check : bytes → option error) :
  (0 ≤ inner < 256)%Z → (Z.land inner 0x1f ≠ 0x1f)%Z → (len content < 2 ^ 32)%Z →
  match expect inner content with
  | Ok (value, []) => check value
  | _ => Some errTNAuthList
  end = None ↔ ∃ value, content = der (zb inner) value ∧ check value = None.
Proof.
  intros Hi Hland Hlen. split.
  - destruct (expect inner content) as [[value [|]]|] eqn:He; [|done..]. intros Hcheck.
    apply expect_Ok' in He; [|by apply tag_ok_zb|done|done]. rewrite app_nil_r in He. eauto.
  - intros (value & -> & Hcheck). pose proof (len_der (zb inner) value).
    rewrite <-(app_nil_r (der _ _)), expect_der by (done || lia). done.
Qed.

Lemma der_inj tag content tag' content' :
  tag_ok tag → tag_ok tag' → (len (der tag content) < 2 ^ 32)%Z →
  der tag content = der tag' content' → tag = tag' ∧ content = content'.
Proof.
  intros Ht Ht' Hlen Heq. pose proof (len_der tag content). pose proof (len_der tag' content').
  rewrite <-Heq in *. rewrite <-(app_nil_r (der tag _)), <-(app_nil_r (der tag' _)) in Heq.
  apply der_unique in Heq as (-> & -> & _); [done..|lia|lia].
Qed.

Lemma checkTNEntry_None tag content :
  tag_ok tag → (len (der tag content) < 2 ^ 32)%Z →
  checkTNEntry tag content = None ↔ ∃ e, wf_entry e ∧ der tag content = encodeEntry e.
Proof.
  intros Htag Hlen. pose proof (len_der tag content) as Hc. unfold checkTNEntry. split.
  - intros Hcheck.
    destruct (bz tag =? 0xa0)%Z eqn:H0; [|destruct (bz tag =? 0xa1)%Z eqn:H1;
      [|destruct (bz tag =? 0xa2)%Z eqn:H2; [|done]]];
      apply alternative_None in Hcheck as (value & -> & Hcheck); try (done || lia).
    + apply checkServiceProviderCode_None in Hcheck. apply Z.eqb_eq in H0.
      exists (ServiceProviderCode value). split; [done|]. simpl. by rewrite <-H0, zb_bz.
    + pose proof (len_der (zb 0x30) value). apply Z.eqb_eq in H1.
      apply checkTelephoneNumberRange_None in Hcheck as (start & count & fs & Hwf & ->); [|lia].
      exists (TelephoneNumberRange start count fs). split; [done|]. simpl. by rewrite <-H1, zb_bz.
    + apply checkTelephoneNumber_None in Hcheck. apply Z.eqb_eq in H2.
      exists (TelephoneNumber value). split; [done|]. simpl. by rewrite <-H2, zb_bz.
  - intros ([code|start count fs|number] & Hwf & Heq); cbn [encodeEntry] in Heq;
      (apply der_inj in Heq as [-> ->]; [|done|by apply tag_ok_zb|done]);
      rewrite !bz_zb; cbn [Z.modulo Z.eqb]; apply alternative_None; try (done || lia).
    + eexists; split; [done|]. by apply checkServiceProviderCode_None.
    + eexists; split; [done|]. apply checkTelephoneNumberRange_None; [|by eauto].
      pose proof (len_der (zb 0x30) (der (zb 0x16) start ++ der (zb 0x02) (derInt count) ++
        concat (map encodeField fs))). lia.
    + eexists; split; [done|]. by apply checkTelephoneNumber_None.
Qed.

(** The loop over the entries accepts the sequences of well-formed entries. *)
Lemma checkEntries_Ok fuel count buf n :
  (length buf ≤ fuel)%nat → (len buf < 2 ^ 32)%Z → (count ≤ maxTNEntries)%Z →
  checkEntries fuel count buf = Ok n ↔
  (n ≤ maxTNEntries)%Z ∧
  ∃ l, Forall wf_entry l ∧ n = (count + len l)%Z ∧ buf = concat (map encodeEntry l).
Proof.
  revert count buf. induction fuel as [|fuel IH]; intros count buf Hfuel Hlen Hcount.
  { destruct buf; [|simpl in Hfuel; lia]. cbn [checkEntries]. split.
    - intros [= <-]. split; [done|]. exists []. simpl. split; [done|]. split; [lia|done].
    - intros (_ & [|e l] & _ & -> & Heq); [simpl; f_equal; lia|].
      destruct (encodeEntry_tag e) as (t & c & He & _). simpl in Heq. by rewrite He in Heq. }
  destruct buf as [|b buf].
  { cbn [checkEntries]. split.
    - intros [= <-]. split; [done|]. exists []. simpl. split; [done|]. split; [lia|done].
    - intros (_ & [|e l] & _ & -> & Heq); [simpl; f_equal; lia|].
      destruct (encodeEntry_tag e) as (t & c & He & _). simpl in Heq. by rewrite He in Heq. }
  cbn [checkEntries]. split.
  - destruct (maxTNEntries <? count + 1)%Z eqn:Hmax; [done|]. apply Z.ltb_ge in Hmax.
    destruct (tlv (b :: buf)) as [[[tag content] rest]|err] eqn:Htlv; [|done].
    apply tlv_Ok in Htlv as (Htag & Hc & Heq). pose proof (len_der_app tag content rest) as Hd.
    assert (len (der tag content) ≤ len (b :: buf))%Z as Hde by (rewrite Heq, length_app; lia).
    rewrite Heq in Hfuel, Hlen. destruct (checkTNEntry tag content) eqn:Hentry; [done|].
    apply checkTNEntry_None in Hentry as (e & Hwf & He); [|done|rewrite Heq in Hde; lia].
    intros Hrec. apply IH in Hrec as (Hn & l & Hl & -> & ->); [|lia..]. split; [done|].
    exists (e :: l). split; [by constructor|]. cbn [length map concat]. split; [lia|].
    by rewrite Heq, He.
  - intros (Hn & [|e l] & Hl & -> & Heq); [done|]. apply Forall_cons in Hl as [He Hl].
    cbn [length] in Hn. rewrite (proj2 (Z.ltb_ge _ _)) by lia.
    destruct (encodeEntry_tag e) as (t & c & Henc & Ht). cbn [map concat] in Heq.
    rewrite Henc in Heq. pose proof (len_der_app t c (concat (map encodeEntry l))) as Hd.
    assert (len (der t c) ≤ len (b :: buf))%Z as Hde by (rewrite Heq, length_app; lia).
    rewrite Heq in Hfuel, Hlen, Hde |- *. rewrite tlv_der by (done || lia).
    rewrite (proj2 (checkTNEntry_None t c Ht ltac:(lia)) (ex_intro _ e (conj He (eq_sym Henc)))).
    apply IH; [lia..|]. cbn [length]. split; [lia|]. exists l. split; [done|]. split; [lia|done].
Qed.

Lemma checkTNAuthList_None d :
  checkTNAuthList d = None ↔ ∃ l, wf_list l ∧ d = encodeList l.
Proof.
  unfold checkTNAuthList, maxTNAuthListBytes. change (Z.shiftl 8 10) with 8192%Z. split.
  - destruct (_ || _) eqn:Hlen; [done|]. apply orb_false_iff in Hlen as [_ Hlen]. go_bool.
    destruct (expect 0x30 d) as [[body [|]]|] eqn:He; [|done..].
    apply expect_Ok' in He; [|by apply tag_ok_zb|lia|lia]. rewrite app_nil_r in He.
    pose proof (len_der (zb 0x30) body). rewrite <-He in *.
    destruct (checkEntries (length body) 0 body) as [n|] eqn:Hentries; [|done].
    apply checkEntries_Ok in Hentries as (Hn & l & Hl & -> & ->); [|done|lia|unfold maxTNEntries; lia].
    destruct (_ =? 0)%Z eqn:H0; [done|]. intros _. apply Z.eqb_neq in H0.
    exists l. unfold wf_list, encodeList. rewrite <-He. unfold maxTNEntries in Hn.
    repeat split; [lia|lia|done|done].
  - intros (l & (Hn & Hl & Hlen) & ->).
    pose proof (len_der (zb 0x30) (concat (map encodeEntry l))) as Hd. unfold encodeList in *.
    rewrite (proj2 (Z.eqb_neq _ 0)), (proj2 (Z.ltb_ge _ _)) by lia. cbn [orb].
    rewrite <-(app_nil_r (der _ _)), expect_der by (done || lia).
    set (body := concat (map encodeEntry l)) in *.
    assert (checkEntries (length body) 0 body = Ok (len l)) as ->.
    { apply checkEntries_Ok; [done|lia|done|]. unfold maxTNEntries. split; [lia|]. by exists l. }
    by rewrite (proj2 (Z.eqb_neq _ _)) by lia.
Qed.

(** ** One encoding per list *)

Lemma fields_inj fs fs' :
  Forall (λ f, tag_ok f.1) fs → Forall (λ f, tag_ok f.1) fs' →
  (len (concat (map encodeField fs)) < 2 ^ 32)%Z →
  concat (map encodeField fs) = concat (map encodeField fs') → fs = fs'.
Proof.
  intros Hfs. revert fs'. induction Hfs as [|[t c] fs Ht _ IH]; intros [|[t' c'] fs'] Hfs' Hlen Heq;
    try done. apply Forall_cons in Hfs' as [Ht' Hfs']. simpl in Ht, Ht'.
  change (concat _) with (der t c ++ concat (map encodeField fs)) in Heq at 1.
  change (concat (map encodeField ((t', c') :: fs')))
    with (der t' c' ++ concat (map encodeField fs')) in Heq.
  change (concat _) with (der t c ++ concat (map encodeField fs)) in Hlen.
  pose proof (len_der_app t c (concat (map encodeField fs))).
  pose proof (len_der_app t' c' (concat (map encodeField fs'))) as Hl'. rewrite <-Heq in Hl'.
  apply der_unique in Heq as (-> & -> & Heq); [|done|done|lia|lia].
  f_equal. apply IH; [done|lia|done].
Qed.

(** The tag and content of an entry. *)
Definition entryField (e : TNEntry) : Byte.byte * bytes :=
  match e with
  | ServiceProviderCode code => (zb 0xa0, der (zb 0x16) code)
  | TelephoneNumberRange start count extensions =>
      (zb 0xa1, der (zb 0x30)
        (der (zb 0x16) start ++ der (zb 0x02) (derInt count) ++ concat (map encodeField extensions)))
  | TelephoneNumber number => (zb 0xa2, der (zb 0x16) number)
  end.

Lemma encodeEntry_field e : encodeEntry e = encodeField (entryField e).
Proof. by destruct e. Qed.

Lemma entryField_ok e : tag_ok (entryField e).1.
Proof. destruct e; by apply tag_ok_zb. Qed.

Lemma derInt_inj n n' : (0 ≤ n < 2 ^ 63)%Z → (0 ≤ n' < 2 ^ 63)%Z → derInt n = derInt n' → n = n'.
Proof.
  intros Hn Hn' Heq. pose proof (derInteger_derInt n Hn) as H. rewrite Heq, derInteger_derInt in H by done.
  congruence.
Qed.

Lemma wf_range_count start count fs :
  wf_entry (TelephoneNumberRange start count fs) → (0 ≤ count < 2 ^ 63)%Z.
Proof.
  intros (Hlen & Hdigits & Hcount & Hbound & _).
  destruct (parseDigits_digits start Hdigits Hlen) as [_ Hdec].
  assert (10 ^ len start ≤ 10 ^ 15)%Z by (apply Z.pow_le_mono_r; lia). lia.
Qed.

Lemma entryField_inj e e' :
  wf_entry e → wf_entry e' → (len (entryField e).2 < 2 ^ 32)%Z → entryField e = entryField e' → e = e'.
Proof.
  intros Hwf Hwf' Hlen Heq. apply (f_equal fst) in Heq as Htag. apply (f_equal snd) in Heq.
  assert (∀ t c c', (0 ≤ t < 256)%Z → (Z.land t 0x1f ≠ 0x1f)%Z → (len (der (zb t) c) < 2 ^ 32)%Z →
    der (zb t) c = der (zb t) c' → c = c') as Hinj.
  { intros t c c' Ht Hland Hl Hder. by apply der_inj in Hder as [_ ?]; [|by apply tag_ok_zb..|]. }
  destruct e as [code|start count fs|number], e' as [code'|start' count' fs'|number']; try done;
    cbn [entryField snd] in *; apply Hinj in Heq; try done; try congruence.
  set (fields := concat (map encodeField fs)) in *. set (fields' := concat (map encodeField fs')) in *.
  pose proof (len_der (zb 0x30) (der (zb 0x16) start ++ der (zb 0x02) (derInt count) ++ fields)) as Hl.
  pose proof (len_der_app (zb 0x16) start (der (zb 0x02) (derInt count) ++ fields)) as Hl1.
  pose proof (len_der_app (zb 0x16) start' (der (zb 0x02) (derInt count') ++ fields')) as Hl1'.
  pose proof (len_der_app (zb 0x02) (derInt count) fields) as Hl2.
  pose proof (len_der_app (zb 0x02) (derInt count') fields') as Hl2'.
  rewrite <-Heq in Hl1'.
  apply der_unique in Heq as (_ & -> & Heq); [|by apply tag_ok_zb..|lia|lia]. rewrite <-Heq in Hl2'.
  apply der_unique in Heq as (_ & Hc & Heq); [|by apply tag_ok_zb..|lia|lia].
  apply derInt_inj in Hc as ->; [|by eapply wf_range_count..].
  apply fields_inj in Heq as ->; [done|apply Hwf|apply Hwf'|unfold fields in *; lia].
Qed.

Lemma encodeList_inj l l' : wf_list l → wf_list l' → encodeList l = encodeList l' → l = l'.
Proof.
  intros (_ & Hl & Hlen) (_ & Hl' & _) Heq. unfold encodeList in *.
  apply der_inj in Heq as [_ Heq]; [|by apply tag_ok_zb..|lia].
  pose proof (len_der (zb 0x30) (concat (map encodeEntry l))) as Hd.
  assert (∀ k, map encodeEntry k = map encodeField (map entryField k)) as Hmap.
  { intros k. rewrite map_map. apply map_ext. apply encodeEntry_field. }
  rewrite !Hmap in Heq. rewrite Hmap in Hd, Hlen.
  assert (∀ k, Forall (λ f, tag_ok f.1) (map entryField k)) as Hok.
  { intros k. apply Forall_fmap, Forall_true. intros e. apply entryField_ok. }
  assert (Forall (λ e, len (entryField e).2 < 2 ^ 32)%Z l) as Hsmall.
  { assert (len (concat (map encodeField (map entryField l))) < 2 ^ 32)%Z as Hs by lia. clear -Hs.
    induction l as [|e l IH]; [done|]. cbn [map concat] in Hs. rewrite length_app in Hs.
    pose proof (len_der (entryField e).1 (entryField e).2). unfold encodeField at 1 in Hs.
    constructor; [lia|apply IH; lia]. }
  apply fields_inj in Heq; [|done|done|lia]. clear Hd Hlen Hmap Hok. revert l' Hl' Heq.
  induction Hl as [|e l He _ IH]; intros [|e' l'] Hl' Heq; try done.
  apply Forall_cons in Hl' as [He' Hl']. apply Forall_cons in Hsmall as [Hse Hsmall].
  injection Heq as Hfield Heq. f_equal; [by apply entryField_inj|by apply IH].
Qed.

(** ** Refusals *)

Lemma checkTelephoneNumber_Some v err : checkTelephoneNumber v = Some err → err = errTNAuthList.
Proof. unfold checkTelephoneNumber. intros H. repeat case_match; by simplify_eq. Qed.

Lemma checkTelephoneNumberRange_Some body err :
  checkTelephoneNumberRange body = Some err → err = errTNAuthList.
Proof.
  unfold checkTelephoneNumberRange. intros H.
  repeat case_match; simplify_eq; try done; try (by eapply expect_Err).
  - by eapply checkTelephoneNumber_Some.
  - by eapply checkFields_Some.
Qed.

Lemma checkTNEntry_Some tag content err : checkTNEntry tag content = Some err → err = errTNAuthList.
Proof.
  unfold checkTNEntry, checkServiceProviderCode. intros H.
  repeat case_match; simplify_eq; try done;
    by eauto using checkTelephoneNumber_Some, checkTelephoneNumberRange_Some.
Qed.

Lemma checkEntries_Err fuel count buf err :
  (length buf ≤ fuel)%nat → checkEntries fuel count buf = Err err → err = errTNAuthList.
Proof.
  revert count buf. induction fuel as [|fuel IH]; intros count [|b buf] Hfuel; simpl in Hfuel;
    try done; [lia|]. cbn [checkEntries].
  destruct (_ <? _)%Z; [by intros [= <-]|].
  destruct (tlv (b :: buf)) as [[[tag content] rest]|e] eqn:Htlv;
    [|intros [= <-]; by eapply tlv_Err].
  destruct (checkTNEntry tag content) eqn:He; [intros [= <-]; by eapply checkTNEntry_Some|].
  apply tlv_Ok in Htlv as (_ & _ & Heq). pose proof (len_der_app tag content rest) as Hd.
  rewrite <-Heq in Hd. simpl in Hd. apply IH. lia.
Qed.

Lemma checkTNAuthList_Some d err : checkTNAuthList d = Some err → err = errTNAuthList.
Proof.
  unfold checkTNAuthList. intros H. repeat case_match; simplify_eq; try done.
  by eapply checkEntries_Err.
Qed.

(** ** Properties *)

(** C37. A byte string passes [checkTNAuthList] exactly when it is the DER encoding of a well-formed
    authority list, and then of one list only. Every other input is refused with the one error of
    the file, so the loops over entries and fields always come to an end. *)
Theorem tnauthlist_grammar d :
  (checkTNAuthList d = None ↔
   ∃ l, wf_list l ∧ d = encodeList l ∧ ∀ l', wf_list l' → d = encodeList l' → l' = l) ∧
  (checkTNAuthList d = None ∨ checkTNAuthList d = Some errTNAuthList).
Proof.
  split.
  - rewrite checkTNAuthList_None. split.
    + intros (l & Hl & ->). exists l. split; [done|]. split; [done|].
      intros l' Hl' Heq. symmetry. by apply encodeList_inj.
    + intros (l & Hl & Heq & _). eauto.
  - destruct (checkTNAuthList d) as [err|] eqn:H; [right|by left].
    by rewrite (checkTNAuthList_Some _ _ H).
Qed.

(** A TNAuthList identifier value without line breaks is accepted exactly when it is the
    unpadded base64url form of the encoding of a well-formed list, and it is kept unchanged. *)
Theorem normalizeTNAuthList_canonical value id :
  Forall (λ c, newline c = false) (string_bytes value) →
  normalizeTNAuthList value = Ok id ↔
  id = mkIdentifier IdentifierTNAuthList value ∧
  ∃ l, wf_list l ∧ value = encode (encodeList l).
Proof.
  intros Hnl. unfold normalizeTNAuthList. split.
  - case_bool_decide; [done|]. destruct (decode value) as [d|] eqn:Hd; [|done].
    destruct (checkTNAuthList d) eqn:Hcheck; [done|]. intros [= <-]. split; [done|].
    apply checkTNAuthList_None in Hcheck as (l & Hl & ->). exists l. split; [done|].
    symmetry. by apply encode_decode.
  - intros (-> & l & Hl & ->). rewrite bool_decide_eq_false_2.
    + rewrite decode_encode. by rewrite (proj2 (checkTNAuthList_None _) (ex_intro _ l (conj Hl eq_refl))).
    + intros Heq. apply (f_equal decode) in Heq. rewrite decode_encode in Heq. discriminate Heq.
Qed.

Lemma normalizeTNAuthList_canonical_witness :
  normalizeTNAuthList "MAigBhYEMTIzNA" = Ok (mkIdentifier IdentifierTNAuthList "MAigBhYEMTIzNA") ∧
  ∃ l, wf_list l ∧ "MAigBhYEMTIzNA"%string = encode (encodeList l).
Proof.
  split; [by vm_compute|].
  apply (normalizeTNAuthList_canonical "MAigBhYEMTIzNA"
    (mkIdentifier IdentifierTNAuthList "MAigBhYEMTIzNA")); [|by vm_compute].
  vm_compute. repeat constructor.
Defined.

(** C38. Line breaks do not count when a TNAuthList value is checked: a value with a carriage return
    or a line feed at any place is accepted exactly when the value without it is. The decoder skips
    the line break and the identifier keeps the value as the client sent it, so an accepted value
    and the same value with a line break are two identifiers of one authority list. *)
Theorem normalizeTNAuthList_line_break pre post c :
  newline (Ascii.byte_of_ascii c) = true →
  let value := pre +:+ post in
  let broken := pre +:+ String c post in
  decode broken = decode value ∧ broken ≠ value ∧
  (normalizeTNAuthList broken = Ok (mkIdentifier IdentifierTNAuthList broken) ↔
   normalizeTNAuthList value = Ok (mkIdentifier IdentifierTNAuthList value)).
Proof.
  intros Hc value broken. pose proof (decode_newline pre c post Hc) as Hd. fold broken value in Hd. split; [done|].
  split.
  { intros Heq. apply (f_equal (λ s, length (string_bytes s))) in Heq. unfold broken, value in Heq.
    rewrite !string_bytes_app, !length_app in Heq.
    change (string_bytes (String c post)) with (Ascii.byte_of_ascii c :: string_bytes post) in Heq. simpl length in Heq. lia. }
  unfold normalizeTNAuthList. rewrite Hd, (bool_decide_eq_false_2 (broken = "")) by by destruct pre.
  destruct (decode value) as [der|] eqn:Hder; [|by case_bool_decide].
  case_bool_decide as Hempty; [|by destruct (checkTNAuthList der)].
  rewrite Hempty in Hder. vm_compute in Hder. injection Hder as <-. by vm_compute.
Qed.

Lemma normalizeTNAuthList_line_break_witness :
  normalizeTNAuthList ("MAigBhYE" +:+ String (Ascii.ascii_of_nat 10) "MTIzNA") =
  Ok (mkIdentifier IdentifierTNAuthList ("MAigBhYE" +:+ String (Ascii.ascii_of_nat 10) "MTIzNA")).
Proof. apply (normalizeTNAuthList_line_break "MAigBhYE" "MTIzNA" (Ascii.ascii_of_nat 10)); by vm_compute. Defined.
