(* ===== verification/StoreSpec.v ===== *)
(** * The store contract (src/store.go)

    The calls of the [Store] interface as a type of requests indexed by their results, and the
    abstract store that gives them their meaning: resources in finite maps, the orders in creation
    order and the tasks in the order they were enqueued, with no secondary index. The comments of
    src/store.go state what each call does; [spec_exec] is that contract as a function, and
    [legal] lists what a caller has to respect for it. *)

From S2P Require Import Prelude Status Problem Resource.

(** ** Calls *)

Inductive storeCall : Type → Type :=
| CallCreateAccount (account : Account) : storeCall Account
| CallAccount (id : string) : storeCall Account
| CallAccountByKey (thumbprint : string) : storeCall Account
| CallUpdateAccount (account : Account) : storeCall Account
| CallCreateOrder (order : Order) (authzs : list Authorization) (challenges : list Challenge)
    : storeCall (Order * list Authorization * list Challenge)
| CallOrder (id : string) : storeCall Order
| CallOrderIDs (accountID after : string) (limit : Z) : storeCall (list string)
| CallAuthorization (id : string) : storeCall Authorization
| CallUpdateAuthorization (authz : Authorization) : storeCall Authorization
| CallAuthorizedFor (accountID : string) (identifiers : list Identifier) (now : Time)
    : storeCall bool
| CallChallenge (id : string) : storeCall Challenge
| CallCertificate (id : string) : storeCall Certificate
| CallCertificateByRenewalID (renewalID : string) : storeCall Certificate
| CallUpdateCertificate (cert : Certificate) : storeCall Certificate
| CallAcceptChallenge (challenge : Challenge) (task : Task) : storeCall (Challenge * Task)
| CallFinalizeOrder (order : Order) (task : Task) : storeCall (Order * Task)
| CallBeginIssuance (task : Task) (order : Order) (account : Account)
    (authzs : list Authorization) : storeCall Order
| CallClaimTask (now leaseUntil : Time) : storeCall Task
| CallRescheduleTask (task : Task) : storeCall Task
| CallRetryValidation (task : Task) (challenge : Challenge) : storeCall (Task * Challenge)
| CallFinishTask (task : Task) : storeCall unit
| CallCompleteValidation (task : Task) (challenge : Challenge) (authz : Authorization)
    (order : Order) : storeCall (Challenge * Authorization * Order)
| CallCompleteIssuance (task : Task) (order : Order) (cert : option Certificate)
    : storeCall (Order * option Certificate)
| CallPendingTasks (before : Time) : storeCall Z
| CallLeasedTasks (now : Time) : storeCall Z
| CallAccountValidations (accountID : string) : storeCall Z.

(** A store implementation executes calls one at a time on its state. *)
Class StoreImpl (S : Type) : Type :=
  store_exec : ∀ {X : Type}, storeCall X → Ctx → S → Res X * S.

(** ** The abstract store *)

Record AStore : Type := mkAStore {
  as_accounts : gmap string Account;
  as_orders : gmap string Order;
  as_created : list (string * string);  (* account and order IDs in creation order *)
  as_authzs : gmap string Authorization;
  as_challenges : gmap string Challenge;
  as_certificates : gmap string Certificate;
  as_tasks : list Task                  (* in the order they were enqueued *)
}.

Definition AStore_empty : AStore := mkAStore ∅ ∅ [] ∅ ∅ ∅ [].

(** The value of a map that satisfies a condition, when there is one. *)
Definition find_value {V : Type} (p : V → bool) (m : gmap string V) : option V :=
  snd <$> head (filter (λ e : string * V, p e.2 = true) (map_to_list m)).

Definition has_value {V : Type} (p : V → bool) (m : gmap string V) : bool :=
  bool_decide (is_Some (find_value p m)).

(** ** Revision and fence checks *)

(** Compares the revision of the stored version with the caller's. *)
Definition check_revision (stored : option Z) (revision : Z) : option error :=
  match stored with
  | None => Some ErrNotFound
  | Some r => if (r == revision) then None else Some ErrRevisionMismatch
  end.

Definition spec_checkOrder (order : Order) (a : AStore) : option error :=
  check_revision (ord_Revision <$> as_orders a !! ord_ID order) (ord_Revision order).

Definition spec_checkAuthz (authz : Authorization) (a : AStore) : option error :=
  check_revision (az_Revision <$> as_authzs a !! az_ID authz) (az_Revision authz).

Definition spec_checkChallenge (challenge : Challenge) (a : AStore) : option error :=
  check_revision (ch_Revision <$> as_challenges a !! ch_ID challenge) (ch_Revision challenge).

Definition find_task (id : string) (tasks : list Task) : option Task :=
  head (filter (λ t, task_ID t = id) tasks).

Definition spec_checkTask (task : Task) (a : AStore) : option error :=
  check_revision (task_Fence <$> find_task (task_ID task) (as_tasks a)) (task_Fence task).

Definition spec_newTask (task : Task) (a : AStore) : option error :=
  if find_task (task_ID task) (as_tasks a) is Some _ then Some ErrConflict else None.

(** ** Task queue *)

Definition enqueued (task : Task) : Task :=
  {| task with task_Fence := 0%Z; task_Attempts := 0%Z; task_LeaseUntil := zeroTime |}.

Definition remove_task (id : string) (tasks : list Task) : list Task :=
  filter (λ t, task_ID t ≠ id) tasks.

Definition update_task (id : string) (f : Task → Task) (tasks : list Task) : list Task :=
  map (λ t, if (task_ID t == id) then f t else t) tasks.

Definition released (runAt : Time) (t : Task) : Task :=
  {| t with task_RunAt := runAt; task_LeaseUntil := zeroTime |}.

(** A task holds a lease past [now]. *)
Definition leased (now : Time) (t : Task) : bool :=
  (task_LeaseUntil t != zeroTime) && (now <? task_LeaseUntil t)%Z.

Definition runnable (now : Time) (t : Task) : bool :=
  (task_RunAt t <=? now)%Z && negb (leased now t).

(** The runnable task with the earliest [RunAt], the first enqueued of several. *)
Fixpoint earliest (now : Time) (tasks : list Task) : option Task :=
  match tasks with
  | [] => None
  | t :: tasks =>
      if runnable now t then
        match earliest now tasks with
        | Some u => if (task_RunAt u <? task_RunAt t)%Z then Some u else Some t
        | None => Some t
        end
      else earliest now tasks
  end.

Definition claimed (leaseUntil : Time) (t : Task) : Task :=
  {| t with task_LeaseUntil := leaseUntil;
            task_Fence := u64 (task_Fence t + 1);
            task_Attempts := i64 (task_Attempts t + 1) |}.

Definition count_tasks (p : Task → bool) (tasks : list Task) : Z :=
  Z.of_nat (length (filter (λ t, p t = true) tasks)).

(** ** Updates shared by several calls *)

Definition bump_account (b : Account) : Account :=
  {| b with acct_Revision := u64 (acct_Revision b + 1) |}.
Definition bump_order (o : Order) : Order := {| o with ord_Revision := u64 (ord_Revision o + 1) |}.
Definition bump_authz (z : Authorization) : Authorization :=
  {| z with az_Revision := u64 (az_Revision z + 1) |}.
Definition bump_challenge (c : Challenge) : Challenge :=
  {| c with ch_Revision := u64 (ch_Revision c + 1) |}.

Definition put_order (o : Order) (a : AStore) : AStore :=
  {| a with as_orders := <[ord_ID o := o]> (as_orders a) |}.
Definition put_authz (z : Authorization) (a : AStore) : AStore :=
  {| a with as_authzs := <[az_ID z := z]> (as_authzs a) |}.
Definition put_challenge (c : Challenge) (a : AStore) : AStore :=
  {| a with as_challenges := <[ch_ID c := c]> (as_challenges a) |}.
Definition put_tasks (l : list Task) (a : AStore) : AStore := {| a with as_tasks := l |}.

(** An order for which no issuance was dispatched and which can still become valid. *)
Definition spec_undispatched (o : Order) : bool :=
  match ord_Status o with
  | OrderPending | OrderReady => true
  | OrderProcessing => (ord_Issuance o == None)
  | _ => false
  end.

Definition spec_invalidated (o : Order) : Order :=
  bump_order {| o with ord_Status := OrderInvalid; ord_Error := Some InvalidAuthorizationProblem |}.

(** The certificate with a renewal identifier. *)
Definition find_renewal (renewalID : string) (a : AStore) : option Certificate :=
  find_value (λ c, crt_RenewalID c == renewalID) (as_certificates a).

(** Marks the predecessor of a new order, unless an order that is not invalid already replaced it. *)
Definition spec_replace (order : Order) (a : AStore) : Res AStore :=
  if (ord_Replaces order == "") then Ok a
  else match find_renewal (ord_Replaces order) a with
  | None => Err ErrNotFound
  | Some cert =>
      let taken := match as_orders a !! crt_ReplacedByOrderID cert with
                   | Some previous => StatusAt previous (ord_CreatedAt order) != OrderInvalid
                   | None => false
                   end in
      if taken then Err ErrAlreadyReplaced
      else
        let cert := {| cert with crt_ReplacedByOrderID := ord_ID order;
                                 crt_Revision := u64 (crt_Revision cert + 1) |} in
        Ok {| a with as_certificates := <[crt_ID cert := cert]> (as_certificates a) |}
  end.

(** An authorization the account holds for the identifier that lets it revoke certificates. *)
Definition authorizes (accountID : string) (identifier : Identifier) (now : Time)
    (z : Authorization) : bool :=
  (az_AccountID z == accountID) && (orderIdentifier z == identifier) &&
  (az_Status z == AuthorizationValid) && negb (az_PreApproved z) && (now <? az_Expires z)%Z.

(** One authorization of a dispatch snapshot is the stored version, valid and unexpired. *)
Definition snapshot_error (authorizedAt : Time) (a : AStore) (entry : Authorization * string)
    : option error :=
  let (z, id) := entry in
  match spec_checkAuthz z a with
  | Some err => Some err
  | None => if (az_ID z == id) && (az_Status z == AuthorizationValid) &&
               (authorizedAt <? az_Expires z)%Z
            then None else Some ErrRevisionMismatch
  end.

Definition account_current (account : Account) (a : AStore) : bool :=
  match as_accounts a !! acct_ID account with
  | Some stored => (acct_Revision stored == acct_Revision account) &&
                   (acct_Status stored == AccountValid)
  | None => false
  end.

(** The first error of several checks. *)
Fixpoint first_error (errs : list (option error)) : option error :=
  match errs with
  | [] => None
  | Some err :: _ => Some err
  | None :: errs => first_error errs
  end.

(** The position of an order ID in a list, counted from 1; the empty ID names the start. *)
Definition page_start (after : string) (ids : list string) : option nat :=
  if (after == "") then Some 0%nat
  else (λ p : nat * string, S p.1) <$> list_find (λ id, id = after) ids.

Definition orders_of (accountID : string) (created : list (string * string)) : list string :=
  map snd (filter (λ e : string * string, e.1 = accountID) created).

(** Runs the update when every check passes. *)
Definition guarded {X : Type} (errs : list (option error)) (x : X) (a' a : AStore)
    : Res X * AStore :=
  match first_error errs with
  | Some err => (Err err, a)
  | None => (Ok x, a')
  end.

Definition lookup_result {X : Type} (o : option X) (a : AStore) : Res X * AStore :=
  (match o with Some x => Ok x | None => Err ErrNotFound end, a).

(** ** The contract *)

Definition spec_createAccount (account : Account) (a : AStore) : Res Account * AStore :=
  let account := {| account with acct_Revision := 1%Z |} in
  let claim := acct_ExternalAccountClaim account in
  if bool_decide (is_Some (as_accounts a !! acct_ID account)) ||
     has_value (λ b, acct_KeyThumbprint b == acct_KeyThumbprint account) (as_accounts a) ||
     ((claim != "") && has_value (λ b, acct_ExternalAccountClaim b == claim) (as_accounts a))
  then (Err ErrConflict, a)
  else (Ok account, {| a with as_accounts := <[acct_ID account := account]> (as_accounts a) |}).

Definition spec_updateAccount (account : Account) (a : AStore) : Res Account * AStore :=
  let next := bump_account account in
  let claim := acct_ExternalAccountClaim account in
  let other (p : Account → bool) :=
    has_value (λ b, (acct_ID b != acct_ID account) && p b) (as_accounts a) in
  match check_revision (acct_Revision <$> as_accounts a !! acct_ID account)
          (acct_Revision account) with
  | Some err => (Err err, a)
  | None =>
      if other (λ b, acct_KeyThumbprint b == acct_KeyThumbprint account) ||
         ((claim != "") && other (λ b, acct_ExternalAccountClaim b == claim))
      then (Err ErrConflict, a)
      else (Ok next, {| a with as_accounts := <[acct_ID account := next]> (as_accounts a) |})
  end.

Definition spec_createOrder (order : Order) (authzs : list Authorization)
    (challenges : list Challenge) (a : AStore)
    : Res (Order * list Authorization * list Challenge) * AStore :=
  let order' := {| order with ord_Revision := 1%Z |} in
  let authzs' := map (λ z, {| z with az_Revision := 1%Z |}) authzs in
  let challenges' := map (λ c, {| c with ch_Revision := 1%Z |}) challenges in
  if bool_decide (is_Some (as_orders a !! ord_ID order)) ||
     existsb (λ z, bool_decide (is_Some (as_authzs a !! az_ID z))) authzs ||
     existsb (λ c, bool_decide (is_Some (as_challenges a !! ch_ID c))) challenges
  then (Err ErrConflict, a)
  else match spec_replace order a with
  | Err err => (Err err, a)
  | Ok b =>
      let b := put_order order' b in
      let b := {| b with as_created := as_created b ++ [(ord_AccountID order, ord_ID order)] |} in
      let b := fold_left (λ b z, put_authz z b) authzs' b in
      let b := fold_left (λ b c, put_challenge c b) challenges' b in
      (Ok (order', authzs', challenges'), b)
  end.

Definition spec_updateAuthorization (authz : Authorization) (a : AStore)
    : Res Authorization * AStore :=
  match spec_checkAuthz authz a with
  | Some err => (Err err, a)
  | None =>
      let b := put_authz (bump_authz authz) a in
      let b :=
        match as_orders b !! az_OrderID authz with
        | Some order =>
            if AuthorizationStatus_Terminal (az_Status authz) && spec_undispatched order
            then put_order (spec_invalidated order) b else b
        | None => b
        end in
      (Ok (bump_authz authz), b)
  end.

Definition spec_orderIDs (accountID after : string) (limit : Z) (a : AStore)
    : Res (list string) * AStore :=
  let ids := orders_of accountID (as_created a) in
  match page_start after ids with
  | None => (Err ErrNotFound, a)
  | Some start => (Ok (take (Z.to_nat limit) (drop start ids)), a)
  end.

Definition spec_authorizedFor (accountID : string) (identifiers : list Identifier) (now : Time)
    (a : AStore) : bool :=
  match as_accounts a !! accountID with
  | Some account =>
      (acct_Status account == AccountValid) && negb (identifiers == []) &&
      forallb (λ identifier, has_value (authorizes accountID identifier now) (as_authzs a))
        identifiers
  | None => false
  end.

Definition spec_beginIssuance (task : Task) (order : Order) (account : Account)
    (authzs : list Authorization) (a : AStore) : Res Order * AStore :=
  let next := bump_order order in
  let mismatch (ok : bool) := if ok then None else Some ErrRevisionMismatch in
  let dispatchable :=
    match ord_Issuance order, as_orders a !! ord_ID order with
    | Some _, Some stored =>
        (ord_Status stored == OrderProcessing) && (ord_Issuance stored == None) &&
        (length authzs == length (ord_AuthorizationIDs order))
    | _, _ => false
    end in
  let authorizedAt := default zeroTime (is_AuthorizedAt <$> ord_Issuance order) in
  guarded
    ([spec_checkTask task a; spec_checkOrder order a; mismatch (account_current account a);
      mismatch dispatchable] ++
     map (snapshot_error authorizedAt a) (zip authzs (ord_AuthorizationIDs order)))
    next (put_order next a) a.

Definition spec_claimTask (now leaseUntil : Time) (a : AStore) : Res Task * AStore :=
  match earliest now (as_tasks a) with
  | None => (Err ErrNotFound, a)
  | Some t =>
      (Ok (claimed leaseUntil t),
       put_tasks (update_task (task_ID t) (claimed leaseUntil) (as_tasks a)) a)
  end.

Definition spec_completeIssuance (task : Task) (order : Order) (cert : option Certificate)
    (a : AStore) : Res (Order * option Certificate) * AStore :=
  let cert' := (λ c, {| c with crt_Revision := 1%Z |}) <$> cert in
  let conflict :=
    match cert with
    | Some c =>
        if bool_decide (is_Some (as_certificates a !! crt_ID c)) ||
           ((crt_RenewalID c != "") && bool_decide (is_Some (find_renewal (crt_RenewalID c) a)))
        then Some ErrConflict else None
    | None => None
    end in
  let b := put_order (bump_order order) a in
  let b := match cert' with
           | Some c => {| b with as_certificates := <[crt_ID c := c]> (as_certificates b) |}
           | None => b
           end in
  guarded [spec_checkTask task a; spec_checkOrder order a; conflict]
    (bump_order order, cert') (put_tasks (remove_task (task_ID task) (as_tasks b)) b) a.

Definition spec_exec {X : Type} (c : storeCall X) (a : AStore) : Res X * AStore :=
  match c with
  | CallCreateAccount account => spec_createAccount account a
  | CallAccount id => lookup_result (as_accounts a !! id) a
  | CallAccountByKey thumbprint =>
      lookup_result (find_value (λ b, acct_KeyThumbprint b == thumbprint) (as_accounts a)) a
  | CallUpdateAccount account => spec_updateAccount account a
  | CallCreateOrder order authzs challenges => spec_createOrder order authzs challenges a
  | CallOrder id => lookup_result (as_orders a !! id) a
  | CallOrderIDs accountID after limit => spec_orderIDs accountID after limit a
  | CallAuthorization id => lookup_result (as_authzs a !! id) a
  | CallUpdateAuthorization authz => spec_updateAuthorization authz a
  | CallAuthorizedFor accountID identifiers now =>
      (Ok (spec_authorizedFor accountID identifiers now a), a)
  | CallChallenge id => lookup_result (as_challenges a !! id) a
  | CallCertificate id => lookup_result (as_certificates a !! id) a
  | CallCertificateByRenewalID renewalID =>
      if (renewalID == "") then (Err ErrNotFound, a)
      else lookup_result (find_renewal renewalID a) a
  | CallUpdateCertificate cert =>
      let next := {| cert with crt_Revision := u64 (crt_Revision cert + 1) |} in
      guarded [check_revision (crt_Revision <$> as_certificates a !! crt_ID cert)
                 (crt_Revision cert)]
        next {| a with as_certificates := <[crt_ID cert := next]> (as_certificates a) |} a
  | CallAcceptChallenge challenge task =>
      guarded [spec_checkChallenge challenge a; spec_newTask task a]
        (bump_challenge challenge, enqueued task)
        (put_tasks (as_tasks a ++ [enqueued task]) (put_challenge (bump_challenge challenge) a)) a
  | CallFinalizeOrder order task =>
      guarded [spec_checkOrder order a; spec_newTask task a]
        (bump_order order, enqueued task)
        (put_tasks (as_tasks a ++ [enqueued task]) (put_order (bump_order order) a)) a
  | CallBeginIssuance task order account authzs => spec_beginIssuance task order account authzs a
  | CallClaimTask now leaseUntil => spec_claimTask now leaseUntil a
  | CallRescheduleTask task =>
      guarded [spec_checkTask task a]
        {| task with task_LeaseUntil := zeroTime |}
        (put_tasks (update_task (task_ID task) (released (task_RunAt task)) (as_tasks a)) a) a
  | CallRetryValidation task challenge =>
      guarded [spec_checkTask task a; spec_checkChallenge challenge a]
        ({| task with task_LeaseUntil := zeroTime |}, bump_challenge challenge)
        (put_tasks (update_task (task_ID task) (released (task_RunAt task)) (as_tasks a))
           (put_challenge (bump_challenge challenge) a)) a
  | CallFinishTask task =>
      guarded [spec_checkTask task a] tt
        (put_tasks (remove_task (task_ID task) (as_tasks a)) a) a
  | CallCompleteValidation task challenge authz order =>
      guarded [spec_checkTask task a; spec_checkChallenge challenge a; spec_checkAuthz authz a;
               spec_checkOrder order a]
        (bump_challenge challenge, bump_authz authz, bump_order order)
        (put_tasks (remove_task (task_ID task) (as_tasks a))
           (put_order (bump_order order)
              (put_authz (bump_authz authz) (put_challenge (bump_challenge challenge) a)))) a
  | CallCompleteIssuance task order cert => spec_completeIssuance task order cert a
  | CallPendingTasks before => (Ok (count_tasks (runnable before) (as_tasks a)), a)
  | CallLeasedTasks now => (Ok (count_tasks (leased now) (as_tasks a)), a)
  | CallAccountValidations accountID =>
      (Ok (count_tasks (λ t, (task_Kind t == TaskValidate) && (task_AccountID t == accountID))
             (as_tasks a)), a)
  end.

(** ** Obligations of the caller *)

(** The stored version of an authorization keeps the account and identifier it was created for. *)
Definition keeps_scope (authz : Authorization) (a : AStore) : Prop :=
  ∀ stored, as_authzs a !! az_ID authz = Some stored →
    az_AccountID authz = az_AccountID stored ∧ orderIdentifier authz = orderIdentifier stored.

(** New resources carry non-empty and distinct IDs, stored ones keep the fields a store indexes,
    times are not before the zero time and a page of orders ends within the [int] range. *)
Definition legal {X : Type} (c : storeCall X) (a : AStore) : Prop :=
  match c with
  | CallCreateAccount account => acct_ID account ≠ "" ∧ acct_KeyThumbprint account ≠ ""
  | CallUpdateAccount account => acct_KeyThumbprint account ≠ ""
  | CallCreateOrder order authzs challenges =>
      ord_ID order ≠ "" ∧ ord_AccountID order ≠ "" ∧
      NoDup (map az_ID authzs) ∧ "" ∉ map az_ID authzs ∧ "" ∉ map ch_ID challenges
  | CallOrderIDs accountID _ limit =>
      (0 < limit)%Z ∧ (Z.of_nat (length (orders_of accountID (as_created a))) + limit < 2 ^ 63)%Z
  | CallUpdateAuthorization authz => keeps_scope authz a
  | CallUpdateCertificate cert =>
      ∀ stored, as_certificates a !! crt_ID cert = Some stored →
        crt_RenewalID cert = crt_RenewalID stored
  | CallAcceptChallenge _ task | CallFinalizeOrder _ task => task_ID task ≠ ""
  | CallCompleteValidation _ _ authz _ => keeps_scope authz a
  | CallCompleteIssuance _ _ (Some cert) => crt_ID cert ≠ ""
  | CallLeasedTasks now => (0 ≤ now)%Z
  | _ => True
  end.

(** The calls that look at the context before they answer: a store may refuse an argument first. *)
Definition checks_context {X : Type} (c : storeCall X) : bool :=
  match c with
  | CallCreateAccount account => (acct_ID account != "") && (acct_KeyThumbprint account != "")
  | CallOrderIDs _ _ limit => (0 <? limit)%Z
  | CallCertificateByRenewalID renewalID => renewalID != ""
  | _ => true
  end.

(** ** Implementations

    What an implementation [S] promises: a relation to abstract stores under which every call that
    its [store_legal] admits returns what the contract says and keeps the relation, and a call on an
    ended context returns its error and changes nothing. [store_room] is the part of the state that
    bounds how much more the implementation can number. *)
Class StoreSpec (S : Type) `{StoreImpl S} : Type := {
  store_rel : S → AStore → Prop;
  store_room : S → Prop;
  store_legal : ∀ {X : Type}, storeCall X → AStore → Prop;
  store_refines : ∀ X (c : storeCall X) (s : S) (a : AStore),
    store_rel s a → store_room s → store_legal c a →
    (store_exec c None s).1 = (spec_exec c a).1 ∧
    store_rel (store_exec c None s).2 (spec_exec c a).2;
  store_ended : ∀ X (c : storeCall X) (err : error) (s : S),
    checks_context c = true → store_exec c (Some err) s = (Err err, s)
}.

(** ** Revisions *)

Lemma check_revision_None stored r : check_revision stored r = None ↔ stored = Some r.
Proof.
  unfold check_revision. destruct stored as [r'|]; [|done]. case_bool_decide; naive_solver.
Qed.

(** ** Searching values *)

Lemma find_value_Some {V} (p : V → bool) (m : gmap string V) v :
  find_value p m = Some v → ∃ k, m !! k = Some v ∧ p v = true.
Proof.
  unfold find_value. destruct (filter _ _) as [|[k w] l] eqn:E; simpl; [done|].
  intros [= ->]. exists k.
  assert ((k, v) ∈ filter (λ e : string * V, p e.2 = true) (map_to_list m)) as Hin
    by (rewrite E; left).
  apply list_elem_of_filter in Hin as [Hp Hin]. by apply elem_of_map_to_list in Hin.
Qed.

Lemma find_value_None {V} (p : V → bool) (m : gmap string V) k v :
  find_value p m = None → m !! k = Some v → p v = false.
Proof.
  unfold find_value. destruct (filter _ _) as [|e l] eqn:E; simpl; [|done].
  intros _ Hk. destruct (p v) eqn:Hp; [|done].
  assert ((k, v) ∈ filter (λ e : string * V, p e.2 = true) (map_to_list m)) as Hin
    by (apply list_elem_of_filter; split; [done|by apply elem_of_map_to_list]).
  rewrite E in Hin. by apply not_elem_of_nil in Hin.
Qed.

(** When the condition singles out one key, the search finds its value. *)
Lemma find_value_unique {V} (p : V → bool) (m : gmap string V) k v :
  m !! k = Some v → p v = true →
  (∀ k' v', m !! k' = Some v' → p v' = true → k' = k) →
  find_value p m = Some v.
Proof.
  intros Hk Hp Huniq. destruct (find_value p m) as [w|] eqn:E.
  - apply find_value_Some in E as (k' & Hk' & Hw). rewrite (Huniq _ _ Hk' Hw) in Hk'. congruence.
  - by rewrite (find_value_None _ _ _ _ E Hk) in Hp.
Qed.

Lemma has_value_true {V} (p : V → bool) (m : gmap string V) :
  has_value p m = true ↔ ∃ k v, m !! k = Some v ∧ p v = true.
Proof.
  unfold has_value. rewrite bool_decide_eq_true. split.
  - intros [v Hv]. apply find_value_Some in Hv as [k ?]. by exists k, v.
  - intros (k & v & Hk & Hp). destruct (find_value p m) eqn:E; [done|].
    by rewrite (find_value_None _ _ _ _ E Hk) in Hp.
Qed.

Lemma has_value_false {V} (p : V → bool) (m : gmap string V) :
  has_value p m = false ↔ ∀ k v, m !! k = Some v → p v = false.
Proof.
  rewrite <-not_true_iff_false, has_value_true. split.
  - intros H k v Hk. apply not_true_iff_false. intros Hp. apply H. by exists k, v.
  - intros H (k & v & Hk & Hp). by rewrite (H _ _ Hk) in Hp.
Qed.

(** ** Failed calls *)

(** A call that fails changes nothing. *)
Lemma spec_exec_Err {X} (c : storeCall X) a err : (spec_exec c a).1 = Err err → (spec_exec c a).2 = a.
Proof.
  destruct c; simpl; unfold lookup_result, spec_createAccount, spec_updateAccount, spec_createOrder,
    spec_updateAuthorization, spec_orderIDs, spec_beginIssuance, spec_claimTask, spec_completeIssuance, guarded;
    repeat (case_match; simpl); done.
Qed.
