(* ===== verification/Host.v ===== *)
(** * The server and its environment (src/server.go, src/config.go, src/issuer.go, src/limit.go,
      src/refusal.go, src/renewal.go)

    The configuration of a [Server], the values the host interfaces exchange with it and the calls
    it makes. A call is the only way a handler or worker touches anything outside its own
    variables: the store, the clocks, the random source, the nonce manager and the host's policy,
    issuer, revoker, validators, limiter and recorder. Logging is not modelled. *)

From S2P Require Import Prelude Base64 Netip Prog Status Problem Resource StoreSpec.

(** ** Contexts (package context)

    A context ends at its deadline and, unless it was detached, when the request it belongs to is
    canceled. *)

Record Context : Type := mkContext {
  ctx_deadline : option Time;
  ctx_cancelable : bool
}.

(** The context of an HTTP request or of [Run]. *)
Definition Background : Context := mkContext None true.

(** [context.WithoutCancel] drops the deadline as well. *)
Definition WithoutCancel (parent : Context) : Context := mkContext None false.

Definition WithDeadline (parent : Context) (d : Time) : Context :=
  {| parent with ctx_deadline := Some match ctx_deadline parent with
                                      | Some p => Z.min p d
                                      | None => d
                                      end |}.

(** ** X.509 values (package crypto/x509)

    The fields of parsed requests and certificates the server reads. *)

Record Extension : Type := mkExtension {
  ext_Id : list Z;
  ext_Critical : bool;
  ext_Value : bytes
}.

Record CertificateRequest : Type := mkCertificateRequest {
  csr_Raw : bytes;
  csr_RawTBSCertificateRequest : bytes;
  csr_Signature : bytes;
  csr_RawSubjectPublicKeyInfo : bytes;
  csr_Extensions : list Extension;
  csr_DNSNames : list string;
  csr_IPAddresses : list bytes;
  csr_URIs : list string;
  csr_CommonName : string
}.

Record X509Certificate : Type := mkX509Certificate {
  x_Raw : bytes;
  x_RawTBSCertificate : bytes;
  x_Signature : bytes;
  x_RawSubjectPublicKeyInfo : bytes;
  x_PublicKey : option PublicKey;
  x_Extensions : list Extension;
  x_DNSNames : list string;
  x_IPAddresses : list bytes;
  x_URIs : list string;
  x_CommonName : string;
  x_NotBefore : Time;
  x_NotAfter : Time;
  x_Version : Z;
  x_BasicConstraintsValid : bool;
  x_IsCA : bool;
  x_KeyUsage : Z;
  x_AuthorityKeyId : bytes;
  x_SerialNumber : option Z
}.

(** ** Requests to the host CA (src/issuer.go) *)

Record IssueRequest : Type := mkIssueRequest {
  iq_OperationID : string;
  iq_AccountID : string;
  iq_AccountURL : string;
  iq_OrderID : string;
  iq_CSR : CertificateRequest;
  iq_CSRDER : bytes;
  iq_Identifiers : list Identifier;
  iq_NotBefore : Time;
  iq_NotAfter : Time;
  iq_Validations : list Validation;
  iq_Deadline : Time;
  iq_RecoveryOnly : bool;
  iq_Profile : string
}.

Record RevokeRequest : Type := mkRevokeRequest {
  rq_OperationID : string;
  rq_Certificate : X509Certificate;
  rq_DER : bytes;
  rq_Reason : Z;
  rq_AccountID : string
}.

Record ValidationRequest : Type := mkValidationRequest {
  vq_Challenge : Challenge;
  vq_Identifier : Identifier;
  vq_Wildcard : bool;
  vq_KeyAuthorization : string;
  vq_AccountKeyThumbprint : string;
  vq_AuthorityToken : string
}.

Record ValidationGrant : Type := mkValidationGrant {
  vg_CACertificate : bool;
  vg_Expires : Time;
  vg_Names : list Identifier;
  vg_NFType : string
}.

(** The grant of a validator that only proves control. *)
Definition noGrant : ValidationGrant := mkValidationGrant false zeroTime [] "".

(** ** Limits and refusals (src/limit.go, src/refusal.go) *)

Inductive LimitKind : Type :=
| LimitNewNonce
| LimitNewAccount
| LimitNewOrder
| LimitChallengeResponse
| LimitRenewalInfo.

Record LimitRequest : Type := mkLimitRequest {
  lq_Kind : LimitKind;
  lq_Client : option Addr;  (* None is the zero Addr *)
  lq_Account : option Account;
  lq_Identifiers : list Identifier;
  lq_Replaces : string;
  lq_PendingValidations : Z
}.

Inductive RefusalKind : Type :=
| RefusalFinalize
| RefusalRevocation.

Record Refusal : Type := mkRefusal {
  rf_Kind : RefusalKind;
  rf_AccountID : string;
  rf_OrderID : string;
  rf_Identifiers : list Identifier;
  rf_CSR : bytes;
  rf_Certificate : bytes;
  rf_Reason : Z;
  rf_Problem : option Problem
}.

(** The renewal window of an advisor (src/renewal.go). *)
Record RenewalInfo : Type := mkRenewalInfo {
  ri_Start : Time;
  ri_End : Time;
  ri_ExplanationURL : string;
  ri_RetryAfter : Duration
}.

(** ** Calls *)

Inductive op : Type → Type :=
(* store *)
| OpStore {X} (ctx : Context) (c : storeCall X) : op (Res X)
(* clocks: the server's clock and the wall clock of contexts *)
| OpNow : op Time
| OpWallNow : op Time
(* crypto/rand *)
| OpRandRead (n : nat) : op (Res bytes)
(* nonce manager *)
| OpNonceIssue (ctx : Context) : op (Res string)
| OpNonceConsume (ctx : Context) (nonce : string) : op (Res bool)
(* host interfaces; a policy also returns the record it may have changed *)
| OpAllow (ctx : Context) (req : LimitRequest) : op (option error)
| OpPolicyNewAccount (ctx : Context) (account : Account) : op (option error * Account)
| OpPolicyNewOrder (ctx : Context) (account : Account) (order : Order) : op (option error * Order)
| OpPreApprove (ctx : Context) (account : Account) (order : Order)
    : op (Res (list Identifier) * Order)
| OpDefaultProfile (ctx : Context) (account : Account) : op (Res string)
| OpAuthorizeIssuance (ctx : Context) (req : IssueRequest) : op (option error)
| OpIssue (ctx : Context) (req : IssueRequest) : op (IssueResult * option error)
| OpRevoke (ctx : Context) (req : RevokeRequest) : op (option error)
| OpValidate (ctx : Context) (typ : ChallengeType) (req : ValidationRequest) : op (option error)
| OpValidateGrant (ctx : Context) (typ : ChallengeType) (req : ValidationRequest)
    : op (Res ValidationGrant)
| OpMACKey (ctx : Context) (keyID : string) : op (Res bytes)
| OpRenewalInfo (ctx : Context) (cert : Certificate) : op (Res RenewalInfo)
| OpRecordRefusal (ctx : Context) (refusal : Refusal) : op (option error)
(* the wake channel of Run *)
| OpWake : op unit.

Notation Prog := (prog op).

Definition Now : Prog Time := call OpNow.

(** A call of the store. *)
Definition store {X} (ctx : Context) (c : storeCall X) : Prog (Res X) := call (OpStore ctx c).

(** [context.WithTimeout] reads the wall clock. *)
Definition WithTimeout (parent : Context) (timeout : Duration) : Prog Context :=
  now ← call OpWallNow; mret (WithDeadline parent (now + timeout)).

(** ** The server (src/server.go) *)

Record WorkerConfig : Type := mkWorkerConfig {
  wc_Concurrency : Z;
  wc_PollInterval : Duration;
  wc_Lease : Duration;
  wc_TaskTimeout : Duration;
  wc_MaxAttempts : Z;
  wc_RetryDelay : Duration;
  wc_StaleAfter : Duration;
  wc_External : bool
}.

Record DirectoryMeta : Type := mkDirectoryMeta {
  meta_TermsOfService : string;
  meta_Website : string;
  meta_CAAIdentities : list string;
  meta_ExternalAccountRequired : bool
}.

Record Profile : Type := mkProfile {
  prof_Name : string;
  prof_Description : string;
  prof_URL : string
}.

(** A configured validator: whether it implements [GrantingValidator]. *)
Inductive Validator : Type :=
| PlainValidator
| GrantingValidator.

#[export] Instance ChallengeType_countable : Countable ChallengeType.
Proof.
  apply (inj_countable'
    (λ t, match t with
          | ChallengeHTTP01 => inl 0%nat | ChallengeDNS01 => inl 1%nat
          | ChallengeTLSALPN01 => inl 2%nat | ChallengeTKAuth01 => inl 3%nat
          | ChallengeTypeOther s => inr s
          end)
    (λ x, match x with
          | inl 0%nat => ChallengeHTTP01 | inl 1%nat => ChallengeDNS01
          | inl 2%nat => ChallengeTLSALPN01 | inl _ => ChallengeTKAuth01
          | inr s => ChallengeTypeOther s
          end)).
  by intros [].
Defined.

(** The fields of a [Server]. Of an optional host interface only its presence is part of the
    server; what it does is the answer of a call. *)
Record Server : Type := mkServer {
  s_baseURL : string;
  s_basePath : string;
  s_meta : DirectoryMeta;
  s_maxBody : Z;
  s_hasMeta : bool;
  s_validators : gmap ChallengeType Validator;
  s_eabKeys : bool;
  s_singleUseEAB : bool;
  s_preApprover : bool;
  s_profileChooser : bool;
  s_issuancePolicy : bool;
  s_requireTOS : bool;
  s_ipIdentifiers : bool;
  s_tnAuthList : bool;
  s_tnAuthListOutlive : bool;
  s_nfInstanceIDs : bool;
  s_tokenAuthority : string;
  s_renewal : bool;
  s_profiles : gmap string Profile;
  s_defaultProfile : string;
  s_orderLifetime : Duration;
  s_authzLifetime : Duration;
  s_maxIdentifiers : Z;
  s_maxValidations : Z;
  s_detachedWrite : Duration;
  s_workers : WorkerConfig;
  s_revocationReasons : list Z;
  s_reasonsText : string;
  s_refusals : bool;
  s_limits : bool
}.

(** Resource path segments below the base URL. *)
Definition resourceDirectory : string := "directory".
Definition resourceNewNonce : string := "new-nonce".
Definition resourceNewAccount : string := "new-account".
Definition resourceNewOrder : string := "new-order".
Definition resourceRevokeCert : string := "revoke-cert".
Definition resourceKeyChange : string := "key-change".
Definition accountPathPrefix : string := "acct/".
Definition orderPathPrefix : string := "order/".
Definition authzPathPrefix : string := "authz/".
Definition challengePathPrefix : string := "chall/".
Definition certPathPrefix : string := "cert/".
Definition renewalPathPrefix : string := "renewal-info/".
Definition profilePathPrefix : string := "profiles/".

Definition resourceURL (s : Server) (resource : string) : string := s_baseURL s +:+ resource.
Definition accountURL (s : Server) (id : string) : string := resourceURL s (accountPathPrefix +:+ id).

(** ** Random identifiers (src/ids.go, src/order.go) *)

(** Returns a random 128-bit identifier in base64url form. *)
Definition newID : Prog (Res string) :=
  r ← call (OpRandRead 16);
  mret match r with
       | Err err => Err (ErrWrap "acmeserver: random identifier: " err)
       | Ok b => Ok (encode b)
       end.

(** Returns a random challenge token with 256 bits of entropy. *)
Definition newToken : Prog (Res string) :=
  r ← call (OpRandRead 32);
  mret match r with
       | Err err => Err err
       | Ok b => Ok (encode b)
       end.

(** ** Host errors (src/account.go, src/limit.go) *)

(** The problem of an error from a host interface: the problem it carries or serverInternal. *)
Definition hostError (err : error) (what : string) : Problem :=
  match AsProblem err with
  | Some p => p
  | None => NewProblem ErrorServerInternal (what +:+ " failed")
  end.

(** Maps an error from a host interface to a problem. *)
Definition hostProblem (err : option error) (what : string) : option Problem :=
  (λ err, hostError err what) <$> err.

(** Asks the limiter about a request. *)
Definition checkLimit (s : Server) (ctx : Context) (req : LimitRequest) : Prog (option Problem) :=
  if negb (s_limits s) then mret None
  else
    err ← call (OpAllow ctx req);
    mret (hostProblem err "rate limit check").

(** Wakes an in-process [Run]; the warning about a missing [Run] is only logged. *)
Definition workAccepted : Prog unit := call OpWake.
