(* ===== verification/Platform.v ===== *)
(** * Code the server calls but does not contain

    The functions of packages outside the repository that the server applies to values: parsers
    and printers of [crypto/x509], [encoding/asn1], [net/url] and [golang.org/x/crypto/cryptobyte],
    the digests and signature checks, and the IDNA tables. They are fields of one class, so every
    definition that uses one takes it as an argument and nothing is assumed about it. *)

From S2P Require Import Prelude Status Problem Resource StoreSpec Prog Host.

(** A parsed URL (package net/url). [url_rest] stands for the parts only [URL.String] reads. *)
Record URL : Type := mkURL {
  url_Scheme : string;
  url_Opaque : string;
  url_User : bool;
  url_Host : string;
  url_Path : string;
  url_EscapedPath : string;
  url_RawQuery : string;
  url_Fragment : string;
  url_rest : string
}.

(** An [asn1.RawValue]. *)
Record RawValue : Type := mkRawValue {
  raw_Class : Z;
  raw_Tag : Z;
  raw_IsCompound : bool;
  raw_Bytes : bytes
}.

(** The basic constraints of src/csr.go, as [encoding/asn1] fills them. *)
Record basicConstraints : Type := mkBasicConstraints {
  bc_IsCA : bool;
  bc_MaxPathLen : Z
}.

(** The SLH-DSA parameter sets of [circl] and a key of one of them with its encoding. *)
Inductive slhdsaID : Type :=
| SHA2_128s | SHA2_128f | SHA2_192s | SHA2_192f | SHA2_256s | SHA2_256f
| SHAKE_128s | SHAKE_128f | SHAKE_192s | SHAKE_192f | SHAKE_256s | SHAKE_256f.

#[export] Instance slhdsaID_eq_dec : EqDecision slhdsaID.
Proof. solve_decision. Defined.

Record slhdsaKey : Type := mkSlhdsaKey {
  slh_ID : slhdsaID;
  slh_bytes : bytes
}.

#[export] Instance slhdsaKey_eq_dec : EqDecision slhdsaKey.
Proof. solve_decision. Defined.

(** The public keys of certificate requests. *)
Inductive CertKey : Type :=
| CertKeyPKIX (key : PublicKey)
| CertKeyMLDSA (raw : bytes)
| CertKeyComposite (raw : bytes)
| CertKeySLHDSA (key : slhdsaKey).

Class Platform : Type := {
  (* strings.ToLower on a string with bytes above 0x7f, strconv.Quote *)
  strings_ToLower : string → string;
  strconv_Quote : string → string;
  (* strings.EqualFold on strings with bytes above 0x7f *)
  strings_EqualFold : string → string → bool;
  (* time.Duration.String, time.Parse with time.RFC3339 *)
  Duration_String : Duration → string;
  time_ParseRFC3339 : string → Res Time;
  (* mime.ParseMediaType: the media type; net/mail.ParseAddress: the name and the address *)
  mime_ParseMediaType : string → Res string;
  mail_ParseAddress : string → Res (string * string);
  (* net/url: Query().Get on a raw query, QueryEscape; encoding/pem *)
  url_QueryGet : string → string → string;
  url_QueryEscape : string → string;
  pem_Encode : bytes → bytes;
  (* unicode/utf8 *)
  utf8_ValidString : string → bool;
  (* golang.org/x/net/idna, profile Registration *)
  idna_ToUnicode : string → Res string;
  idna_ToASCII : string → Res string;
  (* net/url *)
  url_Parse : string → Res URL;
  URL_String : URL → string;
  (* crypto/x509 *)
  x509_ParseCertificateRequest : bytes → Res CertificateRequest;
  x509_ParseCertificate : bytes → Res X509Certificate;
  x509_MarshalPKIXPublicKey : PublicKey → Res bytes;
  (* encoding/asn1: a value and the bytes after it *)
  asn1_UnmarshalNames : bytes → Res (list RawValue * bytes);
  asn1_UnmarshalBasicConstraints : bytes → basicConstraints → Res (basicConstraints * bytes);
  (* crypto/sha256, crypto/sha512 and crypto/hmac over the hash of the given size *)
  sha256_Sum256 : bytes → bytes;
  sha512_Sum384 : bytes → bytes;
  sha512_Sum512 : bytes → bytes;
  hmac_Sum : Z → bytes → bytes → bytes;
  (* crypto/ecdsa, crypto/rsa and crypto/ed25519 *)
  ecdsa_OnCurve : Curve → Z → Z → bool;
  ecdsa_Verify : Curve → Z → Z → bytes → Z → Z → bool;
  rsa_VerifyPKCS1v15 : Z → Z → bytes → bytes → bool;
  ed25519_Verify : bytes → bytes → bytes → bool;
  (* cryptobyte.String: a value and the bytes after it *)
  cryptobyte_ReadSequence : bytes → option (bytes * bytes);
  cryptobyte_ReadObjectIdentifier : bytes → option (list Z * bytes);
  cryptobyte_ReadBitString : bytes → option (bytes * Z * bytes);
  (* circl slhdsa *)
  slhdsa_UnmarshalBinary : slhdsaID → bytes → Res slhdsaKey;
  slhdsa_Verify : slhdsaKey → bytes → bytes → bool;
  (* go-composite-mldsa/compositex509 *)
  composite_ParsePKIXPublicKey : bytes → Res CertKey;
  composite_MarshalPKIXPublicKey : CertKey → Res bytes;
  composite_CheckCertificateRequestSignature : CertificateRequest → option error;
  composite_CheckSignatureFrom : X509Certificate → X509Certificate → option error
}.
