(* ===== verification/Identifier.v ===== *)
(** * Identifier normalization (src/identifier.go)

    The canonical form of every identifier type. A DNS label with the prefix xn-- and an https URI
    go through packages outside the repository; the rest is computed here. *)

From S2P Require Import Prelude Status Problem Resource Base64 Netip StoreSpec Prog Host Platform Tnauthlist.

(** ** Strings *)

(** [strings.HasPrefix]. *)
Definition HasPrefix (prefix s : string) : bool := String.prefix prefix s.

(** [s[n:]]. *)
Definition tail_from (n : nat) (s : string) : string := String.substring n (String.length s - n) s.

Definition TrimPrefix (prefix s : string) : string :=
  if HasPrefix prefix s then tail_from (String.length prefix) s else s.

Definition lowerASCII (c : Z) : Z := if (65 <=? c)%Z && (c <=? 90)%Z then (c + 32)%Z else c.

Definition isASCII (s : string) : bool := forallb (λ c, c <? 0x80)%Z (codes s).

(** [strings.Split] at a one-byte separator. *)
Fixpoint splitAt (sep : Z) (s cur : list Z) : list (list Z) :=
  match s with
  | [] => [rev cur]
  | c :: s => if (c =? sep)%Z then rev cur :: splitAt sep s [] else splitAt sep s (c :: cur)
  end.

Definition Split (sep : Z) (s : string) : list string := map text (splitAt sep (codes s) []).

(** A byte from '!' to '~'. *)
Definition printable (c : Z) : bool := (32 <? c)%Z && (c <? 0x7f)%Z.

(** ** Errors

    Normalization errors are problems. *)
Definition refuse {A} (p : Problem) : Res A := Err (ErrProblem p).

(** ** Constants *)

Definition nfInstanceURNPrefix : string := "urn:uuid:".
Definition maxDNSNameLength : nat := 253.
Definition maxDNSLabelLength : nat := 63.
Definition maxURILength : nat := 2048.
Definition maxNFTypeLength : nat := 32.
Definition schemeHTTPS : string := "https".

Section Identifier.
Context `{Platform}.

(** [strings.ToLower]: bytewise on ASCII. *)
Definition ToLower (s : string) : string :=
  if isASCII s then text (map lowerASCII (codes s)) else strings_ToLower s.

(** [strings.EqualFold]: bytewise on ASCII. *)
Definition EqualFold (s t : string) : bool :=
  if isASCII s && isASCII t then map lowerASCII (codes s) == map lowerASCII (codes t)
  else strings_EqualFold s t.

Definition Identifier_String (id : Identifier) : string :=
  IdentifierType_string (id_Type id) +:+ ":" +:+ id_Value id.

Definition IsWildcard (id : Identifier) : bool :=
  (id_Type id == IdentifierDNS) && HasPrefix "*." (id_Value id).

(** ** Network function instances *)

Definition isHexLower (c : Z) : bool := isDigit c || ((97 <=? c)%Z && (c <=? 102)%Z).

(** The loop over the characters of a UUID. *)
Fixpoint uuidForm (i : nat) (s : list Z) : bool :=
  match s with
  | [] => true
  | c :: s =>
      (if bool_decide (i = 8 ∨ i = 13 ∨ i = 18 ∨ i = 23)%nat then (c =? 45)%Z else isHexLower c) &&
      uuidForm (S i) s
  end.

Definition normalizeNfInstanceID (value : string) : Res Identifier :=
  let id := mkIdentifier IdentifierNfInstanceID value in
  if (value == "") then refuse (NewProblem ErrorMalformed "NfInstanceId identifier value is empty")
  else if negb (String.length value =? 36)%nat
  then refuse (rejected id "NfInstanceId identifier is not a UUID")
  else
    let lower := ToLower value in
    if negb (uuidForm 0 (codes lower)) then refuse (rejected id "NfInstanceId identifier is not a UUID")
    else if forallb (λ c, (c =? 48)%Z || (c =? 45)%Z) (codes lower)
    then refuse (rejected id "NfInstanceId identifier is the nil UUID")
    else Ok (mkIdentifier IdentifierNfInstanceID lower).

(** ** URIs *)

Definition normalizeURI (value : string) : Res Identifier :=
  let id := mkIdentifier IdentifierURI value in
  let refusal := rejected id ("uri identifier must be an absolute https URI without user information " +:+
                              "or a fragment") in
  if (value == "") then refuse (NewProblem ErrorMalformed "uri identifier value is empty")
  else if (maxURILength <? String.length value)%nat
  then refuse (rejected id "uri identifier exceeds 2048 characters")
  else if negb (forallb printable (codes value))
  then refuse (rejected id "uri identifier must be ASCII without spaces or control characters")
  else match url_Parse value with
  | Err _ => refuse refusal
  | Ok u =>
      if negb (EqualFold (url_Scheme u) schemeHTTPS) || (url_Host u == "") || url_User u ||
         (url_Fragment u != "") || (url_Opaque u != "")
      then refuse refusal
      else
        let u := {| u with url_Scheme := schemeHTTPS; url_Host := ToLower (url_Host u) |} in
        Ok (mkIdentifier IdentifierURI (URL_String u))
  end.

Definition URI (id : Identifier) : string :=
  match id_Type id with
  | IdentifierNfInstanceID => nfInstanceURNPrefix +:+ id_Value id
  | IdentifierURI => id_Value id
  | _ => ""
  end.

Definition uriNameIdentifier (name : string) : Res Identifier :=
  let n := String.length nfInstanceURNPrefix in
  if (n <? String.length name)%nat && EqualFold (String.substring 0 n name) nfInstanceURNPrefix
  then normalizeNfInstanceID (tail_from n name)
  else normalizeURI name.

Definition ValidNFType (value : string) : bool :=
  if (value == "") || (maxNFTypeLength <? String.length value)%nat then false
  else forallb printable (codes value).

(** ** DNS names *)

(** Reports whether a label decodes as Punycode to a registrable name and encodes back to itself. *)
Definition validALabel (label : string) : bool :=
  match idna_ToUnicode label with
  | Err _ => false
  | Ok uLabel =>
      match idna_ToASCII uLabel with
      | Err _ => false
      | Ok aLabel => aLabel == label
      end
  end.

Definition labelByte (c : Z) : bool :=
  ((97 <=? c)%Z && (c <=? 122)%Z) || isDigit c || (c =? 45)%Z.

(** Returns why a lowercase label is not a valid host name label, or an empty string. *)
Definition checkDNSLabel (label : string) : string :=
  if (label == "") then "dns identifier contains an empty label"
  else if (maxDNSLabelLength <? String.length label)%nat
  then "dns identifier label exceeds 63 characters"
  else if bool_decide (head (codes label) = Some 45%Z ∨ last (codes label) = Some 45%Z)
  then "dns identifier label starts or ends with a hyphen"
  else if negb (forallb labelByte (codes label))
  then "dns identifier contains a character outside letters, digits and hyphens"
  else if HasPrefix "xn--" label && negb (validALabel label)
  then "dns identifier label " +:+ label +:+ " is not a valid A-label"
  else "".

(** The first reason one of the labels has. *)
Fixpoint labelReason (labels : list string) : string :=
  match labels with
  | [] => ""
  | label :: labels =>
      let reason := checkDNSLabel label in
      if (reason != "") then reason else labelReason labels
  end.

Definition normalizeDNS (value : string) : Res Identifier :=
  let id := mkIdentifier IdentifierDNS value in
  if (value == "") then refuse (NewProblem ErrorMalformed "dns identifier value is empty")
  else if negb (isASCII value)
  then refuse (rejected id "dns identifier must use ASCII labels; encode internationalized names as A-labels")
  else
    let name := ToLower value in
    if (maxDNSNameLength <? String.length name)%nat
    then refuse (rejected id "dns identifier exceeds 253 characters")
    else
      let base := TrimPrefix "*." name in
      if existsb (λ c, c =? 42)%Z (codes base)
      then refuse (rejected id "wildcard is only allowed as the complete leftmost label")
      else if (base == "") then refuse (rejected id "dns identifier has no labels")
      else if bool_decide (is_Some (ParseAddr base))
      then refuse (rejected id "IP addresses use the ip identifier type")
      else
        let reason := labelReason (Split 46 base) in
        if (reason != "") then refuse (rejected id reason)
        else Ok (mkIdentifier IdentifierDNS name).

(** ** IP addresses *)

Definition normalizeIP (value : string) : Res Identifier :=
  let id := mkIdentifier IdentifierIP value in
  if (value == "") then refuse (NewProblem ErrorMalformed "ip identifier value is empty")
  else match ParseAddr value with
  | None => refuse (rejected id "ip identifier is not a valid IP address")
  | Some addr =>
      if (Zone addr != "") then refuse (rejected id "ip identifier must not carry a zone")
      else if Is4In6 addr
      then refuse (rejected id "IPv4-mapped IPv6 addresses must be given in IPv4 form")
      else if IsUnspecified addr || IsMulticast addr
      then refuse (rejected id "unspecified and multicast addresses cannot be issued")
      else Ok (mkIdentifier IdentifierIP (Addr_String addr))
  end.

(** ** Normalization *)

Definition Normalize (id : Identifier) : Res Identifier :=
  match id_Type id with
  | IdentifierDNS => normalizeDNS (id_Value id)
  | IdentifierIP => normalizeIP (id_Value id)
  | IdentifierTNAuthList => normalizeTNAuthList (id_Value id)
  | IdentifierNfInstanceID => normalizeNfInstanceID (id_Value id)
  | IdentifierURI => normalizeURI (id_Value id)
  | IdentifierOther s =>
      refuse (NewProblem ErrorUnsupportedIdentifier
             ("identifier type " +:+ strconv_Quote s +:+ " is not supported"))
  end.

(** The loop of [NormalizeIdentifiers]: the identifiers seen so far and the output. *)
Fixpoint normalizeLoop (ids : list Identifier) (seen : gset Identifier) (out : list Identifier)
    : Res (list Identifier) :=
  match ids with
  | [] => Ok out
  | id :: ids =>
      match Normalize id with
      | Err p => Err p
      | Ok normalized =>
          if bool_decide (normalized ∈ seen) then
            refuse (WithIdentifier (NewProblem ErrorMalformed
              ("identifier " +:+ Identifier_String normalized +:+ " is listed more than once")) normalized)
          else normalizeLoop ids ({[normalized]} ∪ seen) (out ++ [normalized])
      end
  end.

Definition NormalizeIdentifiers (ids : list Identifier) : Res (list Identifier) :=
  normalizeLoop ids ∅ [].

End Identifier.
