(* ===== verification/Slhdsa.v ===== *)
(** * SLH-DSA keys and signatures (src/slhdsa.go, src/internal/slhdsaspki)

    Which signature checker a certificate request or chain link goes to and what is checked before
    an SLH-DSA signature is verified. Reading ASN.1 and the signature algorithms themselves belong
    to packages outside the repository. *)

From S2P Require Import Prelude Status Problem Resource StoreSpec Prog Host Platform.

(** ** Package slhdsaspki *)

(** The arc of the RFC 9909 identifiers. *)
Definition sigAlgs (n : Z) : list Z := [2; 16; 840; 1; 101; 3; 4; 3; n]%Z.

Definition algorithms : list (slhdsaID * list Z) :=
  [(SHA2_128s, sigAlgs 20); (SHA2_128f, sigAlgs 21); (SHA2_192s, sigAlgs 22);
   (SHA2_192f, sigAlgs 23); (SHA2_256s, sigAlgs 24); (SHA2_256f, sigAlgs 25);
   (SHAKE_128s, sigAlgs 26); (SHAKE_128f, sigAlgs 27); (SHAKE_192s, sigAlgs 28);
   (SHAKE_192f, sigAlgs 29); (SHAKE_256s, sigAlgs 30); (SHAKE_256f, sigAlgs 31)].

Definition OID (id : slhdsaID) : option (list Z) := snd <$> head (filter (λ a, a.1 = id) algorithms).
Definition FromOID (oid : list Z) : option slhdsaID := fst <$> head (filter (λ a, a.2 = oid) algorithms).

(** The key usage bit that lets a certificate sign others. *)
Definition KeyUsageCertSign : Z := 32.

Definition malformedKey : error := ErrMsg "malformed SLH-DSA public key".

Section Slhdsa.
Context `{Platform}.

(** Reads an AlgorithmIdentifier: its identifier, whether its parameters are absent and the rest. *)
Definition ReadAlgorithm (s : bytes) : option (list Z * bool * bytes) :=
  match cryptobyte_ReadSequence s with
  | None => None
  | Some (alg, s) =>
      match cryptobyte_ReadObjectIdentifier alg with
      | None => None
      | Some (oid, alg) => Some (oid, alg == [], s)
      end
  end.

(** The parameter set an AlgorithmIdentifier names, with the rest of [ReadAlgorithm]. *)
Definition readSLHDSA (s : bytes) : option (slhdsaID * bool * bytes) :=
  match ReadAlgorithm s with
  | None => None
  | Some (oid, absent, s) => (λ id, (id, absent, s)) <$> FromOID oid
  end.

(** Parses a SubjectPublicKeyInfo. [Ok None] is a key of another kind. *)
Definition slhdsaspki_Parse (der : bytes) : Res (option slhdsaKey) :=
  match cryptobyte_ReadSequence der with
  | Some (info, []) =>
      match readSLHDSA info with
      | None => Ok None
      | Some (id, absent, info) =>
          match cryptobyte_ReadBitString info with
          | Some (bits, bitLength, []) =>
              if negb absent || (bitLength `mod` 8 != 0)%Z then Err malformedKey
              else match slhdsa_UnmarshalBinary id bits with
              | Err _ => Err malformedKey
              | Ok key => Ok (Some key)
              end
          | _ => Err malformedKey
          end
      end
  | _ => Ok None
  end.

(** ** src/slhdsa.go *)

Definition parseCSRKey (spki : bytes) : Res CertKey :=
  match slhdsaspki_Parse spki with
  | Err err => Err err
  | Ok (Some key) => Ok (CertKeySLHDSA key)
  | Ok None => composite_ParsePKIXPublicKey spki
  end.

(** The signed part's successor in a signed structure: the rest after the outer header and the
    first inner sequence. *)
Definition afterTBS (raw : bytes) : option bytes :=
  match cryptobyte_ReadSequence raw with
  | Some (request, _) => snd <$> cryptobyte_ReadSequence request
  | None => None
  end.

Definition checkCSRSignature (csr : CertificateRequest) : option error :=
  match afterTBS (csr_Raw csr) with
  | None => Some (ErrMsg "malformed certificate request")
  | Some request =>
      match readSLHDSA request with
      | None => composite_CheckCertificateRequestSignature csr
      | Some (id, absent, _) =>
          if negb absent then Some (ErrMsg "SLH-DSA signature parameters must be absent")
          else match slhdsaspki_Parse (csr_RawSubjectPublicKeyInfo csr) with
          | Err err => Some err
          | Ok None => Some (ErrMsg "CSR key does not match the SLH-DSA signature algorithm")
          | Ok (Some key) =>
              if (slh_ID key != id)
              then Some (ErrMsg "CSR key does not match the SLH-DSA signature algorithm")
              else if negb (slhdsa_Verify key (csr_RawTBSCertificateRequest csr) (csr_Signature csr))
              then Some (ErrMsg "SLH-DSA signature verification failed")
              else None
          end
      end
  end.

Definition ConstraintViolationError : error :=
  ErrMsg "x509: invalid signature: parent certificate cannot sign this kind of certificate".

Definition checkSignatureFrom (cert parent : X509Certificate) : option error :=
  match slhdsaspki_Parse (x_RawSubjectPublicKeyInfo parent) with
  | Err err => Some err
  | Ok None => composite_CheckSignatureFrom cert parent
  | Ok (Some key) =>
      if ((x_Version parent == 3%Z) && negb (x_BasicConstraintsValid parent)) ||
         (x_BasicConstraintsValid parent && negb (x_IsCA parent))
      then Some ConstraintViolationError
      else if (x_KeyUsage parent != 0%Z) && (Z.land (x_KeyUsage parent) KeyUsageCertSign == 0%Z)
      then Some ConstraintViolationError
      else match afterTBS (x_Raw cert) with
      | None => Some (ErrMsg "malformed certificate")
      | Some signed =>
          let mismatch := ErrMsg "certificate is not signed with the SLH-DSA key of its issuer" in
          match readSLHDSA signed with
          | None => Some mismatch
          | Some (id, absent, _) =>
              if (id != slh_ID key) then Some mismatch
              else if negb absent then Some (ErrMsg "SLH-DSA signature parameters must be absent")
              else if negb (slhdsa_Verify key (x_RawTBSCertificate cert) (x_Signature cert))
              then Some (ErrMsg "SLH-DSA signature verification failed")
              else None
          end
      end
  end.

End Slhdsa.
