(* ===== verification/Jws.v ===== *)
(** * Package jws (src/internal/jws)

    The restricted JWS profile of RFC 8555 section 6.2: parsing of a request, of the inner JWS of a
    key change and of an external account binding, verification of their signatures, and the JWK
    form and thumbprint of a key. Strict JSON decoding is the class [StrictJSON]: one decoder for
    each struct the package decodes into. [Json.strictJSON] builds it from [UnmarshalStrict]; what
    is shown here holds for any decoder. *)

From S2P Require Import Prelude Status Problem Resource Base64 Netip StoreSpec Prog Host Platform.

(** ** Decoded documents *)

(** A [json.RawMessage]: the text of a member, absent when the member is. *)
Notation RawMessage := (option bytes) (only parsing).

Record envelopeJSON : Type := mkEnvelope {
  env_Protected : option string;
  env_Payload : option string;
  env_Signature : option string;
  env_Header : RawMessage;
  env_Signatures : RawMessage
}.

Record headerJSON : Type := mkHeaderJSON {
  hdr_Alg : option string;
  hdr_Nonce : option string;
  hdr_URL : option string;
  hdr_KID : option string;
  hdr_JWK : RawMessage;
  hdr_Crit : RawMessage;
  hdr_B64 : RawMessage
}.

(** A JWK; [jwk_private] lists the private members that are present. *)
Record jwkJSON : Type := mkJWK {
  jwk_Kty : string;
  jwk_Crv : string;
  jwk_X : string;
  jwk_Y : string;
  jwk_N : string;
  jwk_E : string;
  jwk_private : list bytes
}.

(** [UnmarshalStrict] into each of them. *)
Class StrictJSON : Type := {
  json_envelope : bytes → Res envelopeJSON;
  json_header : bytes → Res headerJSON;
  json_jwk : bytes → Res jwkJSON
}.

(** ** Messages *)

Record Header : Type := mkHeader {
  h_Algorithm : string;
  h_Nonce : string;
  h_URL : string;
  h_KeyID : string;
  h_Key : option PublicKey
}.

Record Message : Type := mkMessage {
  m_Header : Header;
  m_Payload : bytes;
  m_signingInput : bytes;
  m_signature : bytes
}.

(** States which header shape a JWS must have. *)
Record profile : Type := mkJWSProfile {
  prof_nonce : bool;
  prof_embeddedKey : option bool;
  prof_algorithms : list string
}.

Definition Algorithms : list string := ["ES256"; "ES384"; "ES512"; "RS256"; "EdDSA"].
Definition MACAlgorithms : list string := ["HS256"; "HS384"; "HS512"].

Definition requestProfile : profile := mkJWSProfile true None Algorithms.
Definition innerProfile : profile := mkJWSProfile false (Some true) Algorithms.
Definition macProfile : profile := mkJWSProfile false (Some false) MACAlgorithms.

(** ** Errors *)

Definition malformed (detail : string) : error := ErrJWS CodeMalformed detail.
Definition badKey (detail : string) : error := ErrJWS CodeBadPublicKey detail.
Definition badSignature : error := ErrJWS CodeBadSignature "JWS signature verification failed".
Definition keyMismatch (alg : string) : error :=
  malformed ("JWS key type does not match algorithm " +:+ alg).

(** Returns the detail of a JWS error or the message of any other error. *)
Definition detailOf (err : error) : string :=
  match AsJWS err with
  | Some (_, detail) => detail
  | None => error_Error err
  end.

(** ** Base64url *)

Definition isBase64URLByte (c : Z) : bool :=
  ((65 <=? c)%Z && (c <=? 90)%Z) || ((97 <=? c)%Z && (c <=? 122)%Z) || isDigit c ||
  (c =? 45)%Z || (c =? 95)%Z.

(** Reports whether [s] uses only the unpadded base64url alphabet. *)
Definition isBase64URL (s : string) : bool := forallb isBase64URLByte (codes s).

(** Decodes unpadded base64url and rejects every character outside its alphabet. *)
Definition decodeBase64 (s : string) : option bytes := if isBase64URL s then decode s else None.

(** ** Integers *)

(** [big.Int.SetBytes]. *)
Definition SetBytes (b : bytes) : Z := fold_left (λ n c, n * 256 + bz c)%Z b 0%Z.

(** [big.Int.BitLen]. *)
Definition BitLen (n : Z) : Z := if (n =? 0)%Z then 0%Z else (Z.log2 (Z.abs n) + 1)%Z.

(** The [k] low bytes of a number, most significant first. *)
Fixpoint fixedBytes (k : nat) (n : Z) : bytes :=
  match k with
  | O => []
  | S k => fixedBytes k (n `div` 256) ++ [zb (n `mod` 256)]
  end.

(** [big.Int.Bytes]: the bytes of the absolute value without leading zeros. *)
Definition bigBytes (n : Z) : bytes := fixedBytes (Z.to_nat ((BitLen n + 7) `div` 8)) (Z.abs n).

(** ** HMAC algorithms *)

(** The output size of the hash of an HMAC algorithm. *)
Definition macHash (alg : string) : option Z :=
  if (alg == "HS256") then Some 32%Z
  else if (alg == "HS384") then Some 48%Z
  else if (alg == "HS512") then Some 64%Z
  else None.

(** Lists the HMAC algorithms a key of the given length may be used with. *)
Definition MACAlgorithmsFor (keyLength : Z) : list string :=
  filter (λ alg, default 0%Z (macHash alg) ≤ keyLength)%Z MACAlgorithms.

(** ** Keys *)

Definition MinRSABits : Z := 2048.
Definition MaxRSABits : Z := 4096.
Definition maxRSAExponent : Z := (Z.shiftl 1 31 - 1)%Z.
Definition Ed25519PublicKeySize : nat := 32.

(** Returns the JWA name and coordinate size of a supported curve. *)
Definition curveName (curve : Curve) : option (string * nat) :=
  match curve with
  | P256 => Some ("P-256", 32%nat)
  | P384 => Some ("P-384", 48%nat)
  | P521 => Some ("P-521", 66%nat)
  | CurveOther _ => None
  end.

Definition namedCurve (crv : string) : option (Curve * nat) :=
  if (crv == "P-256") then Some (P256, 32%nat)
  else if (crv == "P-384") then Some (P384, 48%nat)
  else if (crv == "P-521") then Some (P521, 66%nat)
  else None.

(** The text of [%q] for a string of base64url or curve name characters. *)
Definition quote : string := bytes_string [x22].
Definition quoted (s : string) : string := quote +:+ s +:+ quote.

(** A member of a canonical JWK. *)
Definition member (name value : string) : string := quoted name +:+ ":" +:+ quoted value.

Section Jws.
Context `{Platform} `{StrictJSON}.

(** Decodes an EC JWK and checks that the point lies on the named curve. *)
Definition parseECKey (k : jwkJSON) : Res PublicKey :=
  match namedCurve (jwk_Crv k) with
  | None => Err (badKey ("unsupported EC curve " +:+ strconv_Quote (jwk_Crv k)))
  | Some (curve, size) =>
      match decodeBase64 (jwk_X k), decodeBase64 (jwk_Y k) with
      | None, _ => Err (badKey "EC x coordinate is not valid base64url")
      | Some _, None => Err (badKey "EC y coordinate is not valid base64url")
      | Some x, Some y =>
          if negb (length x =? size)%nat || negb (length y =? size)%nat
          then Err (badKey ("EC coordinates on " +:+ jwk_Crv k +:+ " must be " +:+ pretty size +:+
                            " bytes"))
          else if negb (ecdsa_OnCurve curve (SetBytes x) (SetBytes y))
          then Err (badKey "EC point is not on the curve")
          else Ok (KeyECDSA curve (SetBytes x) (SetBytes y))
      end
  end.

(** Decodes an RSA JWK and enforces the modulus and exponent bounds. *)
Definition parseRSAKey (k : jwkJSON) : Res PublicKey :=
  match decodeBase64 (jwk_N k) with
  | None | Some [] => Err (badKey "RSA modulus is missing or not valid base64url")
  | Some n =>
      match decodeBase64 (jwk_E k) with
      | None | Some [] => Err (badKey "RSA exponent is missing or not valid base64url")
      | Some e =>
          let exponent := SetBytes e in
          let modulus := SetBytes n in
          if (2 ^ 63 - 1 <? exponent)%Z || (exponent <? 3)%Z || (maxRSAExponent <? exponent)%Z ||
             Z.even exponent
          then Err (badKey "RSA public exponent must be odd and between 3 and 2^31-1")
          else if (BitLen modulus <? MinRSABits)%Z || (MaxRSABits <? BitLen modulus)%Z
          then Err (badKey ("RSA modulus must be between 2048 and 4096 bits, got " +:+
                            pretty (BitLen modulus)))
          else if Z.even modulus then Err (badKey "RSA modulus must be odd")
          else Ok (KeyRSA modulus exponent)
      end
  end.

(** Decodes an Ed25519 JWK. *)
Definition parseOKPKey (k : jwkJSON) : Res PublicKey :=
  if (jwk_Crv k != "Ed25519")
  then Err (badKey ("unsupported OKP curve " +:+ strconv_Quote (jwk_Crv k)))
  else match decodeBase64 (jwk_X k) with
  | None => Err (badKey "OKP x coordinate is not valid base64url")
  | Some x =>
      if negb (length x =? Ed25519PublicKeySize)%nat
      then Err (badKey "Ed25519 public key must be 32 bytes")
      else Ok (KeyEd25519 x)
  end.

(** Parses a public JWK into a Go public key. *)
Definition ParseJWK (raw : bytes) : Res PublicKey :=
  match json_jwk raw with
  | Err err => Err (badKey ("invalid JWK: " +:+ detailOf err))
  | Ok k =>
      if (jwk_private k != []) then Err (badKey "JWK contains private key material")
      else if (jwk_Kty k == "EC") then parseECKey k
      else if (jwk_Kty k == "RSA") then parseRSAKey k
      else if (jwk_Kty k == "OKP") then parseOKPKey k
      else if (jwk_Kty k == "") then Err (badKey "JWK has no key type")
      else Err (badKey ("unsupported JWK key type " +:+ strconv_Quote (jwk_Kty k)))
  end.

(** Encodes a public key as the RFC 7638 canonical JWK. *)
Definition MarshalJWK (key : PublicKey) : Res string :=
  match key with
  | KeyECDSA curve x y =>
      match curveName curve with
      | None => Err (ErrMsg "jws: unsupported EC curve")
      | Some (crv, size) =>
          if negb (ecdsa_OnCurve curve x y) then Err (ErrWrap "jws: " (ErrMsg "invalid public key"))
          else Ok ("{" +:+ member "crv" crv +:+ "," +:+ member "kty" "EC" +:+ "," +:+
                   member "x" (encode (fixedBytes size x)) +:+ "," +:+
                   member "y" (encode (fixedBytes size y)) +:+ "}")
      end
  | KeyRSA n e =>
      if (n <=? 0)%Z || (e <=? 0)%Z then Err (ErrMsg "jws: invalid RSA public key")
      else Ok ("{" +:+ member "e" (encode (bigBytes e)) +:+ "," +:+ member "kty" "RSA" +:+ "," +:+
               member "n" (encode (bigBytes n)) +:+ "}")
  | KeyEd25519 k =>
      if negb (length k =? Ed25519PublicKeySize)%nat
      then Err (ErrMsg "jws: invalid Ed25519 public key")
      else Ok ("{" +:+ member "crv" "Ed25519" +:+ "," +:+ member "kty" "OKP" +:+ "," +:+
               member "x" (encode k) +:+ "}")
  | KeyOther description => Err (ErrMsg ("jws: unsupported public key type " +:+ description))
  end.

(** Returns the base64url RFC 7638 SHA-256 thumbprint of a public key. *)
Definition Thumbprint (key : PublicKey) : Res string :=
  try canonical := MarshalJWK key in Ok (encode (sha256_Sum256 (string_bytes canonical))).

(** ** Parsing *)

(** The nonce of a header under a profile. *)
Definition headerNonce (prof : profile) (nonce : option string) : Res string :=
  if prof_nonce prof then
    match nonce with
    | None => Err (ErrJWS CodeBadNonce "JWS protected header has no nonce")
    | Some nonce =>
        if (nonce == "") then Err (ErrJWS CodeBadNonce "JWS protected header has no nonce")
        else if negb (isBase64URL nonce) then Err (malformed "JWS nonce is not valid base64url")
        else Ok nonce
    end
  else match nonce with
  | Some _ => Err (malformed "JWS protected header must not have a nonce here")
  | None => Ok ""
  end.

(** Decodes the protected header and checks the ACME parameter rules of the profile. *)
Definition parseHeader (protected : bytes) (prof : profile) : Res Header :=
  match json_header protected with
  | Err err => Err (malformed ("JWS protected header: " +:+ detailOf err))
  | Ok hdr =>
      if bool_decide (is_Some (hdr_Crit hdr))
      then Err (malformed "JWS critical header parameters are not supported")
      else if bool_decide (is_Some (hdr_B64 hdr))
      then Err (malformed "JWS b64 header parameter is not supported")
      else
        let alg := default "" (hdr_Alg hdr) in
        let url := default "" (hdr_URL hdr) in
        if (alg == "") then Err (malformed "JWS protected header has no alg")
        else if negb (bool_decide (alg ∈ prof_algorithms prof))
        then Err (ErrJWS CodeBadSignatureAlgorithm
                    ("JWS algorithm " +:+ strconv_Quote alg +:+ " is not supported"))
        else if (url == "") then Err (malformed "JWS protected header has no url")
        else
          try nonce := headerNonce prof (hdr_Nonce hdr) in
          match hdr_KID hdr, hdr_JWK hdr with
          | Some _, Some _ | None, None =>
              Err (malformed "JWS protected header must have exactly one of jwk and kid")
          | Some kid, None =>
              if (prof_embeddedKey prof == Some true)
              then Err (malformed "JWS protected header must carry the key in jwk here")
              else if (kid == "") then Err (malformed "JWS kid is empty")
              else Ok (mkHeader alg nonce url kid None)
          | None, Some jwk =>
              if (prof_embeddedKey prof == Some false)
              then Err (malformed "JWS protected header must name the key in kid here")
              else try key := ParseJWK jwk in Ok (mkHeader alg nonce url "" (Some key))
          end
  end.

(** Decodes a flattened JWS against the header profile. *)
Definition parse (body : bytes) (prof : profile) : Res Message :=
  match json_envelope body with
  | Err err => Err (malformed ("invalid JWS: " +:+ detailOf err))
  | Ok env =>
      if bool_decide (is_Some (env_Signatures env))
      then Err (malformed "JWS general serialization is not allowed")
      else if bool_decide (is_Some (env_Header env))
      then Err (malformed "JWS unprotected header is not allowed")
      else match env_Protected env, env_Payload env, env_Signature env with
      | Some protected, Some payload, Some signature =>
          match decodeBase64 protected with
          | None | Some [] => Err (malformed "JWS protected header is not valid base64url")
          | Some protectedBytes =>
              match decodeBase64 payload with
              | None => Err (malformed "JWS payload is not valid base64url")
              | Some payloadBytes =>
                  match decodeBase64 signature with
                  | None | Some [] => Err (malformed "JWS signature is not valid base64url")
                  | Some signatureBytes =>
                      try header := parseHeader protectedBytes prof in
                      Ok (mkMessage header payloadBytes
                            (string_bytes (protected +:+ "." +:+ payload)) signatureBytes)
                  end
              end
          end
      | _, _, _ => Err (malformed "JWS must have protected, payload and signature members")
      end
  end.

Definition jws_Parse (body : bytes) : Res Message := parse body requestProfile.
Definition ParseInner (body : bytes) : Res Message := parse body innerProfile.
Definition ParseMAC (body : bytes) : Res Message := parse body macProfile.

(** ** Verification *)

(** Verifies a fixed-width R||S signature over a digest. *)
Definition verifyECDSA (alg : string) (key : PublicKey) (curve : Curve) (size : nat)
    (digest signature : bytes) : option error :=
  match key with
  | KeyECDSA c x y =>
      if (c != curve) then Some (keyMismatch alg)
      else if negb (length signature =? 2 * size)%nat then Some badSignature
      else
        let r := SetBytes (take size signature) in
        let s := SetBytes (drop size signature) in
        if negb (ecdsa_Verify curve x y digest r s) then Some badSignature else None
  | _ => Some (keyMismatch alg)
  end.

(** Verifies a JWS signature over the signing input with the named algorithm. *)
Definition verifySignature (alg : string) (key : PublicKey) (signingInput signature : bytes)
    : option error :=
  if (alg == "ES256") then verifyECDSA alg key P256 32 (sha256_Sum256 signingInput) signature
  else if (alg == "ES384") then verifyECDSA alg key P384 48 (sha512_Sum384 signingInput) signature
  else if (alg == "ES512") then verifyECDSA alg key P521 66 (sha512_Sum512 signingInput) signature
  else if (alg == "RS256") then
    match key with
    | KeyRSA n e =>
        if negb (rsa_VerifyPKCS1v15 n e (sha256_Sum256 signingInput) signature)
        then Some badSignature else None
    | _ => Some (keyMismatch alg)
    end
  else if (alg == "EdDSA") then
    match key with
    | KeyEd25519 pub =>
        if negb (length pub =? Ed25519PublicKeySize)%nat then Some (keyMismatch alg)
        else if negb (ed25519_Verify pub signingInput signature) then Some badSignature else None
    | _ => Some (keyMismatch alg)
    end
  else Some (ErrJWS CodeBadSignatureAlgorithm
               ("JWS algorithm " +:+ strconv_Quote alg +:+ " is not supported")).

(** Checks the signature with a public key that must match the declared algorithm. *)
Definition Verify (m : Message) (key : PublicKey) : option error :=
  verifySignature (h_Algorithm (m_Header m)) key (m_signingInput m) (m_signature m).

(** Checks an HMAC signature with the shared key. *)
Definition VerifyMAC (m : Message) (key : bytes) : option error :=
  let alg := h_Algorithm (m_Header m) in
  match macHash alg with
  | None => Some (ErrJWS CodeBadSignatureAlgorithm
                    ("JWS algorithm " +:+ strconv_Quote alg +:+ " is not an HMAC"))
  | Some size =>
      if (len key <? size)%Z
      then Some (ErrJWS CodeBadSignatureAlgorithm
                   (alg +:+ " needs a MAC key of at least " +:+ pretty (size * 8)%Z +:+
                    " bits and this key is shorter"))
      else if (hmac_Sum size key (m_signingInput m) != m_signature m) then Some badSignature
      else None
  end.

End Jws.
