(* ===== verification/Json.v ===== *)
(** * Strict JSON (src/internal/jws/json.go)

    The structural pass over the token stream of a document and the check of member names against
    the Go type a document is decoded into. The tokenizer and the decoder of [encoding/json] are
    the class [JSONText]. *)

From S2P Require Import Prelude Status Problem Resource Base64 Netip StoreSpec Prog Host Platform Identifier Jws.

(** ** Tokens and documents *)

(** A [json.Token]; numbers, booleans and null are [TokScalar]. *)
Inductive delim : Type := ObjectOpen | ObjectClose | ArrayOpen | ArrayClose.

Inductive token : Type :=
| TokDelim (d : delim)
| TokString (s : string)
| TokScalar.

(** A document decoded into [any], with the members of an object in the order of the text and every
    one of them kept. Go has a map there, which keeps the last of equal names and has no order: the
    two differ in the members only on a text with duplicate names, which [checkJSON] refuses before
    anything is decoded, and where several members are wrong Go may report another of them. *)
Inductive json : Type :=
| JString (s : string)
| JScalar
| JArray (items : list json)
| JObject (members : list (string * json)).

(** ** The structural pass *)

Definition MaxDepth : nat := 32.

Record jsonFrame : Type := mkFrame {
  fr_object : bool;
  fr_keys : gset string;
  fr_expectKey : bool
}.

Section CheckJSON.
Context `{Platform}.

(** The count of complete values after one more ends with [stack] open. *)
Definition counted (stack : list jsonFrame) (values : nat) : nat :=
  match stack with [] => S values | _ => values end.

(** The top frame after the start of a value. *)
Definition valueStarts (stack : list jsonFrame) : list jsonFrame :=
  match stack with
  | top :: rest => if fr_object top then {| top with fr_expectKey := true |} :: rest else stack
  | [] => []
  end.

(** The loop of [checkJSON]: the tokens left and the error after them, [None] for [io.EOF]. *)
Fixpoint checkTokens (toks : list token) (err : option error) (stack : list jsonFrame) (values : nat)
    : option error :=
  match toks with
  | [] =>
      match err with
      | Some err => Some (malformed ("invalid JSON: " +:+ error_Error err))
      | None =>
          if bool_decide (stack ≠ []) then Some (malformed "invalid JSON: unterminated value")
          else if (values =? 0)%nat then Some (malformed "invalid JSON: empty document") else None
      end
  | tok :: toks =>
      if bool_decide (stack = []) && (0 <? values)%nat
      then Some (malformed "invalid JSON: content after the first value")
      else
        let expectKey := match stack with
                         | top :: _ => fr_object top && fr_expectKey top
                         | [] => false
                         end in
        match expectKey, stack with
        | true, top :: rest =>
            match tok with
            | TokDelim ObjectClose => checkTokens toks err rest (counted rest values)
            | TokString key =>
                if bool_decide (key ∈ fr_keys top)
                then Some (malformed ("invalid JSON: duplicate member " +:+ strconv_Quote key))
                else checkTokens toks err
                       (mkFrame (fr_object top) ({[key]} ∪ fr_keys top) false :: rest) values
            | _ => Some (malformed "invalid JSON: object member name is not a string")
            end
        | _, _ =>
            let stack := valueStarts stack in
            match tok with
            | TokDelim ObjectOpen | TokDelim ArrayOpen =>
                let object := if tok is TokDelim ObjectOpen then true else false in
                if (MaxDepth <=? length stack)%nat
                then Some (malformed ("invalid JSON: nesting exceeds " +:+ pretty MaxDepth +:+ " levels"))
                else checkTokens toks err (mkFrame object ∅ object :: stack) values
            | TokDelim ObjectClose | TokDelim ArrayClose =>
                match stack with
                | [] => Some ErrPanic
                | _ :: rest => checkTokens toks err rest (counted rest values)
                end
            | TokString _ | TokScalar => checkTokens toks err stack (counted stack values)
            end
        end
  end.

(** Walks the token stream once. *)
Definition checkJSON (stream : list token * option error) : option error :=
  checkTokens stream.1 stream.2 [] 0.

End CheckJSON.

(** ** Go types *)

(** What [reflect] tells of a struct field. *)
Record fieldInfo : Type := mkField {
  fd_Name : string;
  fd_Tag : string;
  fd_Anonymous : bool;
  fd_Exported : bool
}.

(** The types documents are decoded into. A struct type is known by its name. *)
Inductive gotype : Type :=
| TPointer (elem : gotype)
| TUnmarshaler
| TStruct (name : string) (fields : list (fieldInfo * gotype))
| TMap (elem : gotype)
| TSlice (elem : gotype)
| TOther.

Fixpoint deref (t : gotype) : gotype := match t with TPointer t => deref t | _ => t end.

(** The part of a tag before the first comma. *)
Definition beforeComma (s : string) : string := text (cutAt 44 (codes s)).1.

(** One field of a struct: the fields found on this level and the structs of the next. *)
Definition fieldStep (fields : gmap string gotype) (acc : gmap string gotype * list gotype)
    (field : fieldInfo * gotype) : gmap string gotype * list gotype :=
  let '(found, next) := acc in
  let '(info, t) := field in
  if (fd_Tag info == "-") then acc
  else
    let name := beforeComma (fd_Tag info) in
    let fieldType := match t with TPointer elem => elem | _ => t end in
    let isStruct := if fieldType is TStruct _ _ then true else false in
    if fd_Anonymous info && (name == "") && isStruct then (found, next ++ [fieldType])
    else if negb (fd_Exported info) then acc
    else
      let name := if (name == "") then fd_Name info else name in
      if fields !! name is Some _ then acc else (<[name := t]> found, next).

(** One level: each struct type once. *)
Definition levelStep (fields : gmap string gotype) (acc : list string * (gmap string gotype * list gotype))
    (st : gotype) : list string * (gmap string gotype * list gotype) :=
  let '(visited, found) := acc in
  match st with
  | TStruct name members =>
      if bool_decide (name ∈ visited) then acc
      else (name :: visited, fold_left (fieldStep fields) members found)
  | _ => acc
  end.

Fixpoint fieldsLoop (fuel : nat) (level : list gotype) (visited : list string)
    (fields : gmap string gotype) : gmap string gotype :=
  match fuel, level with
  | O, _ | _, [] => fields
  | S fuel, _ =>
      let '(visited, (found, next)) := fold_left (levelStep fields) level (visited, (∅, [])) in
      fieldsLoop fuel next visited (fields ∪ found)
  end.

(** The nesting of struct types, which bounds the number of levels. *)
Fixpoint structDepth (t : gotype) : nat :=
  match t with
  | TPointer t | TMap t | TSlice t => structDepth t
  | TStruct _ fields => S (list_max (map (λ f, structDepth f.2) fields))
  | TUnmarshaler | TOther => O
  end.

(** Returns the exact JSON member names of a struct type with the type each one decodes into. *)
Definition jsonFields (t : gotype) : gmap string gotype := fieldsLoop (structDepth t) [t] [] ∅.

(** ** Member names *)

Section CheckMembers.
Context `{Platform}.

(** The field a member would be assigned to by ignoring case. *)
Definition folded (key : string) (fields : gmap string gotype) : option string :=
  fst <$> head (filter (λ f : string * gotype, EqualFold key f.1 = true) (map_to_list fields)).

(** The error of a member that matches a field only when case is ignored. *)
Definition foldedError (key : string) (fields : gmap string gotype) : option error :=
  name ← folded key fields;
  Some (malformed ("invalid JSON: member " +:+ strconv_Quote key +:+ " differs from " +:+
                   strconv_Quote name +:+ " only in case")).

(** Checks the member names of one decoded value against the type it decodes into. *)
Fixpoint checkMembers (value : json) (t : gotype) {struct value} : option error :=
  match deref t, value with
  | TStruct name fs, JObject members =>
      let fields := jsonFields (TStruct name fs) in
      (fix loop (members : list (string * json)) : option error :=
         match members with
         | [] => None
         | (key, member) :: members =>
             match match fields !! key with
                   | Some field => checkMembers member field
                   | None => foldedError key fields
                   end with
             | Some err => Some err
             | None => loop members
             end
         end) members
  | TMap elem, JObject members =>
      (fix loop (members : list (string * json)) : option error :=
         match members with
         | [] => None
         | (_, member) :: members =>
             match checkMembers member elem with Some err => Some err | None => loop members end
         end) members
  | TSlice elem, JArray items =>
      (fix loop (items : list json) : option error :=
         match items with
         | [] => None
         | item :: items =>
             match checkMembers item elem with Some err => Some err | None => loop items end
         end) items
  | _, _ => None
  end.

End CheckMembers.

(** ** Strict decoding *)

(** The tokenizer and the decoder of [encoding/json]: the tokens of the text with the error that
    ends them, [None] for the end of the text, and the first value of the text. *)
Class JSONText : Type := {
  json_Tokens : bytes → list token * option error;
  json_Decode : bytes → Res json
}.

Section UnmarshalStrict.
Context `{Platform} `{JSONText}.

Definition checkMemberNames (data : bytes) (t : option gotype) : option error :=
  match t with
  | None => None
  | Some t =>
      match json_Decode data with
      | Err err => Some (malformed ("invalid JSON: " +:+ error_Error err))
      | Ok document => checkMembers document t
      end
  end.

(** Decodes [data] with the decoder [unmarshal] of the type [t]. *)
Definition UnmarshalStrict {A} (unmarshal : bytes → Res A) (t : option gotype) (data : bytes) : Res A :=
  match checkJSON (json_Tokens data) with
  | Some err => Err err
  | None =>
      match checkMemberNames data t with
      | Some err => Err err
      | None =>
          match unmarshal data with
          | Err err => Err (malformed ("invalid JSON: " +:+ error_Error err))
          | Ok v => Ok v
          end
      end
  end.

End UnmarshalStrict.

(** ** The documents of a JWS

    The struct types of src/internal/jws/jws.go and jwk.go, and the decoders of [Jws.StrictJSON]
    as [UnmarshalStrict] at these types over the [json.Unmarshal] of [encoding/json]. *)

Definition exported (t : gotype) (fields : list (string * string)) : list (fieldInfo * gotype) :=
  map (λ '(name, tag), (mkField name tag false true, t)) fields.

Definition envelope_type : gotype :=
  TStruct "envelopeJSON"
    (exported (TPointer TOther) [("Protected", "protected"); ("Payload", "payload");
                                 ("Signature", "signature")] ++
     exported TUnmarshaler [("Header", "header"); ("Signatures", "signatures")]).

Definition header_type : gotype :=
  TStruct "headerJSON"
    (exported (TPointer TOther) [("Alg", "alg"); ("Nonce", "nonce"); ("URL", "url"); ("KID", "kid")] ++
     exported TUnmarshaler [("JWK", "jwk"); ("Crit", "crit"); ("B64", "b64")]).

Definition jwk_type : gotype :=
  TStruct "jwkJSON"
    (exported TOther [("Kty", "kty"); ("Crv", "crv"); ("X", "x"); ("Y", "y"); ("N", "n"); ("E", "e")] ++
     exported (TPointer TUnmarshaler)
       [("D", "d"); ("P", "p"); ("Q", "q"); ("DP", "dp"); ("DQ", "dq"); ("QI", "qi"); ("Oth", "oth");
        ("K", "k")]).

Class JSONStructs : Type := {
  Unmarshal_envelope : bytes → Res envelopeJSON;
  Unmarshal_header : bytes → Res headerJSON;
  Unmarshal_jwk : bytes → Res jwkJSON
}.

(** [reflect.TypeOf] of the pointer each call passes. *)
Definition strictJSON `{Platform} `{JSONText} `{JSONStructs} : StrictJSON := {|
  json_envelope := UnmarshalStrict Unmarshal_envelope (Some (TPointer envelope_type));
  json_header := UnmarshalStrict Unmarshal_header (Some (TPointer header_type));
  json_jwk := UnmarshalStrict Unmarshal_jwk (Some (TPointer jwk_type))
|}.
