(* ===== verification/Compact.v ===== *)
(** * Compact JWS (src/internal/jws/compact.go)

    The serialization of an Authority Token: three base64url parts, a restricted protected header
    and the signature over the first two parts. *)

From S2P Require Import Prelude Status Problem Resource Base64 Netip StoreSpec Prog Host Platform Identifier Jws.

Definition maxX5CLength : nat := 10.

(** The protected header members a compact JWS may carry. *)
Record compactHeaderJSON : Type := mkCompactHeaderJSON {
  chj_Alg : option string;
  chj_Typ : option string;
  chj_Cty : option string;
  chj_X5U : option string;
  chj_X5C : option (list string);
  chj_KID : option string;
  chj_JWK : RawMessage;
  chj_Crit : RawMessage;
  chj_B64 : RawMessage
}.

(** [UnmarshalStrict] (Json.v) into it. *)
Class CompactJSON : Type := { json_compactHeader : bytes → Res compactHeaderJSON }.

Record CompactHeader : Type := mkCompactHeader {
  cm_Algorithm : string;
  cm_Type : string;
  cm_X5U : string;
  cm_X5C : list bytes;
  cm_KeyID : string
}.

Record CompactMessage : Type := mkCompactMessage {
  cmsg_Header : CompactHeader;
  cmsg_Payload : bytes;
  cmsg_signingInput : bytes;
  cmsg_signature : bytes
}.

(** The certificates of an x5c header, or [None] when one is not base64 or empty. *)
Fixpoint decodeX5C (encoded : list string) : option (list bytes) :=
  match encoded with
  | [] => Some []
  | e :: encoded =>
      match DecodeString StdEncoding e with
      | Some (b :: der) => (λ chain, (b :: der) :: chain) <$> decodeX5C encoded
      | _ => None
      end
  end.

Section Compact.
Context `{Platform} `{CompactJSON}.

(** Decodes the protected header and checks the parameters a token may use. *)
Definition parseCompactHeader (protected : bytes) : Res CompactHeader :=
  match json_compactHeader protected with
  | Err err => Err (malformed ("compact JWS protected header: " +:+ detailOf err))
  | Ok raw =>
      if bool_decide (is_Some (chj_Crit raw)) then Err (malformed "compact JWS crit header is not supported")
      else if bool_decide (is_Some (chj_B64 raw)) then Err (malformed "compact JWS b64 header is not supported")
      else if bool_decide (is_Some (chj_JWK raw))
      then Err (malformed "compact JWS must not carry an embedded key")
      else if bool_decide (is_Some (chj_Cty raw)) then Err (malformed "compact JWS cty header is not supported")
      else match chj_Alg raw with
      | None => Err (malformed "compact JWS protected header needs alg")
      | Some alg =>
          if negb (bool_decide (alg ∈ Algorithms))
          then Err (ErrJWS CodeBadSignatureAlgorithm ("compact JWS algorithm " +:+ alg +:+ " is not supported"))
          else if match chj_Typ raw with Some typ => negb (EqualFold typ "JWT") | None => false end
          then Err (malformed "compact JWS typ must be JWT")
          else if (chj_X5U raw == Some "") then Err (malformed "compact JWS x5u is empty")
          else
            let header x5c := mkCompactHeader alg (default "" (chj_Typ raw)) (default "" (chj_X5U raw)) x5c
                                (default "" (chj_KID raw)) in
            match chj_X5C raw with
            | None => Ok (header [])
            | Some encoded =>
                if (length encoded =? 0)%nat || (maxX5CLength <? length encoded)%nat
                then Err (malformed "compact JWS x5c length is not acceptable")
                else match decodeX5C encoded with
                | None => Err (malformed "compact JWS x5c is not valid base64")
                | Some chain => Ok (header chain)
                end
            end
      end
  end.

(** Decodes a compact JWS of the form protected.payload.signature without verifying its
    signature. *)
Definition ParseCompact (token : string) : Res CompactMessage :=
  match Split 46 token with
  | [protected; payload; signature] =>
      match decodeBase64 protected with
      | None | Some [] => Err (malformed "compact JWS protected header is not valid base64url")
      | Some protectedBytes =>
          match decodeBase64 payload with
          | None | Some [] => Err (malformed "compact JWS payload is not valid base64url")
          | Some payloadBytes =>
              match decodeBase64 signature with
              | None | Some [] => Err (malformed "compact JWS signature is not valid base64url")
              | Some signatureBytes =>
                  try header := parseCompactHeader protectedBytes in
                  Ok (mkCompactMessage header payloadBytes
                        (string_bytes (protected +:+ "." +:+ payload)) signatureBytes)
              end
          end
      end
  | _ => Err (malformed "compact JWS must have three parts")
  end.

(** Checks the signature with a public key that must match the declared algorithm; a missing key
    is of no supported type. *)
Definition CompactVerify (m : CompactMessage) (key : option PublicKey) : option error :=
  verifySignature (cm_Algorithm (cmsg_Header m)) (default (KeyOther "nil") key) (cmsg_signingInput m) (cmsg_signature m).

End Compact.
