(* ===== verification/Network.v ===== *)
(** * Validation egress (src/challenge/network.go)

    The validators reach the network only through the calls [netOp]: lookups by the resolver of the
    host, TCP connections, requests and handshakes on them, and the trust source of token
    authorities. A context that ends is an error of the call it interrupts. *)

From S2P Require Import Prelude Status Problem Resource Base64 Netip StoreSpec Prog Host Platform Identifier Jws.

(** ** Calls *)

(** A connection, an HTTP request on it and its response. The body is what can be read before the
    end of the stream or an error. *)
Notation Conn := nat (only parsing).

Record HTTPResponse : Type := mkHTTPResponse {
  resp_StatusCode : Z;
  resp_Location : string;
  resp_Body : bytes;
  resp_BodyError : option error
}.

(** A [tls.ConnectionState]. *)
Record ConnectionState : Type := mkConnectionState {
  cs_NegotiatedProtocol : string;
  cs_PeerCertificates : list X509Certificate
}.

(** The Token Authority a token points at (src/challenge/tkauth.go). *)
Record TokenAuthorityRef : Type := mkTokenAuthorityRef {
  ref_URL : string;
  ref_Chain : list bytes;
  ref_Issuer : string;
  ref_KeyID : string
}.

Inductive netOp : Type → Type :=
| NetLookupIP (network host : string) : netOp (Res (list (option Addr)))
| NetLookupTXT (name : string) : netOp (Res (list string))
| NetDial (destination : string) : netOp (Res Conn)
| NetSend (conn : Conn) (target : URL) : netOp (Res HTTPResponse)
| NetHandshake (conn : Conn) (sni : string) : netOp (Res ConnectionState)
| NetAuthority (ref : TokenAuthorityRef) : netOp (Res (option X509Certificate))
| NetNow : netOp Time.

Notation Net := (prog netOp).

(** ** Errors *)

Definition incorrect (detail : string) : error := ErrProblem (NewProblem ErrorIncorrectResponse detail).
Definition dnsFailure (detail : string) : error := ErrProblem (NewProblem ErrorDNS detail).

(** Marks a failure for retry and names the problem type reported once the attempts run out. *)
Definition retryable (typ : ErrorType) (detail : string) (err : error) : error :=
  if AsProblem err is Some _ then err
  else if AsRetryable err is Some _ then err
  else ErrRetryable (Some (NewProblem typ detail)) (Some err).

(** ** The address policy *)

Definition pfx4 (octets : list Z) (bits : Z) : Prefix := mkPrefix (Some (Addr4 octets)) bits.
Definition pfx6 (groups : list Z) (bits : Z) : Prefix :=
  mkPrefix (Some (Addr6 (take 8 (groups ++ replicate 8 0%Z)) "")) bits.

Definition specialNetworks : list Prefix :=
  [pfx4 [0; 0; 0; 0] 8; pfx4 [10; 0; 0; 0] 8; pfx4 [100; 64; 0; 0] 10; pfx4 [127; 0; 0; 0] 8;
   pfx4 [169; 254; 0; 0] 16; pfx4 [172; 16; 0; 0] 12; pfx4 [192; 0; 0; 0] 24; pfx4 [192; 0; 2; 0] 24;
   pfx4 [192; 31; 196; 0] 24; pfx4 [192; 52; 193; 0] 24; pfx4 [192; 88; 99; 0] 24;
   pfx4 [192; 168; 0; 0] 16; pfx4 [192; 175; 48; 0] 24; pfx4 [198; 18; 0; 0] 15;
   pfx4 [198; 51; 100; 0] 24; pfx4 [203; 0; 113; 0] 24; pfx4 [224; 0; 0; 0] 3;
   pfx6 [0x2001] 23; pfx6 [0x2001; 0xdb8] 32; pfx6 [0x2002] 16; pfx6 [0x2620; 0x4f; 0x8000] 48;
   pfx6 [0x3fff] 20]%Z.

(** Reports whether an address is ordinary public unicast under the conservative default policy. *)
Definition PublicAddress (address : option Addr) : bool :=
  match Unmap <$> address with
  | None => false
  | Some a =>
      if (Zone a != "") || negb (IsGlobalUnicast a) then false
      else if negb (Is4 a) && negb (Contains (pfx6 [0x2000%Z] 3) a) then false
      else negb (existsb (λ prefix, Contains prefix a) specialNetworks)
  end.

(** ** Configuration *)

(** [no_Resolver] tells whether one was given. *)
Record NetworkOptions : Type := mkNetworkOptions {
  no_Resolver : bool;
  no_AllowedNetworks : list Prefix;
  no_Timeout : Duration;
  no_MaxAddresses : Z
}.

Record networkPolicy : Type := mkNetworkPolicy {
  np_allowed : list Prefix;
  np_timeout : Duration;
  np_maxAddresses : Z
}.

(** Rejects invalid settings and copies the configured network permissions. *)
Definition newNetwork (options : NetworkOptions) : Res networkPolicy :=
  if negb (no_Resolver options) || (no_Timeout options <? 0)%Z || (no_MaxAddresses options <? 0)%Z
  then Err (ErrMsg "challenge: resolver is required and limits must not be negative")
  else if existsb (λ prefix, negb (Prefix_IsValid prefix) || default false (Is4In6 <$> pfx_Addr prefix))
            (no_AllowedNetworks options)
  then Err (ErrMsg "challenge: allowed networks must be valid unmapped prefixes")
  else
    let timeout := if (no_Timeout options =? 0)%Z then (10 * Second)%Z else no_Timeout options in
    let maxAddresses := if (no_MaxAddresses options =? 0)%Z then 32%Z else no_MaxAddresses options in
    Ok (mkNetworkPolicy (no_AllowedNetworks options) timeout maxAddresses).

(** Applies explicit network permissions after normalizing IPv4-mapped addresses. *)
Definition permits (p : networkPolicy) (address : option Addr) : bool :=
  match Unmap <$> address with
  | None => false
  | Some a =>
      if (Zone a != "") then false
      else if PublicAddress (Some a) then true
      else existsb (λ prefix, Contains prefix a) (np_allowed p)
  end.

(** [net.JoinHostPort]. *)
Definition JoinHostPort (host port : string) : string :=
  if bool_decide (58%Z ∈ codes host) then "[" +:+ host +:+ "]:" +:+ port else host +:+ ":" +:+ port.

(** The destination of one address. An invalid address has the text "invalid IP". *)
Definition destination (address : option Addr) (port : Z) : string :=
  JoinHostPort (default "invalid IP" (Addr_String ∘ Unmap <$> address)) (pretty port).

(** Checks the unpadded base64url alphabet without accepting whitespace. *)
Definition base64URL (value : string) : bool := isBase64URL value && (value != "").

Section Network.
Context `{Platform}.

(** The addresses an answer or a numeric host gives, once each of them is permitted. *)
Definition checkAddresses (p : networkPolicy) (addresses : list (option Addr)) : Res (list (option Addr)) :=
  if (len addresses =? 0)%Z || (np_maxAddresses p <? len addresses)%Z
  then Err (incorrect "destination address count is outside the limit")
  else if negb (forallb (permits p) addresses)
  then Err (incorrect "validation destination is denied by egress policy")
  else Ok addresses.

(** Resolves once and rejects the entire answer if any destination violates egress policy. *)
Definition resolve (p : networkPolicy) (host : string) : Net (Res (list (option Addr))) :=
  match ParseAddr host with
  | Some a => mret (checkAddresses p [Some a])
  | None =>
      match Normalize (mkIdentifier IdentifierDNS host) with
      | Ok id =>
          if IsWildcard id then mret (Err (incorrect "invalid validation hostname"))
          else
            r ← call (NetLookupIP "ip" (id_Value id +:+ "."));
            mret match r with
                 | Err err =>
                     Err (retryable ErrorDNS "validation destination could not be resolved"
                            (ErrWrap "challenge: destination resolution: " err))
                 | Ok addresses => checkAddresses p addresses
                 end
      | Err _ => mret (Err (incorrect "invalid validation hostname"))
      end
  end.

(** Tries the addresses in turn; [last] is the error of the last attempt. *)
Fixpoint dialLoop (addresses : list (option Addr)) (port : Z) (last : option error) : Net (Res Conn) :=
  match addresses with
  | [] =>
      mret (Err (retryable ErrorConnection "could not connect to the validation destination"
                   (match last with
                    | Some err => ErrWrap "challenge: connection failed: " err
                    | None => ErrMsg "challenge: connection failed: %!w(<nil>)"
                    end)))
  | address :: addresses =>
      r ← call (NetDial (destination address port));
      match r with
      | Ok connection => mret (Ok connection)
      | Err err => dialLoop addresses port (Some err)
      end
  end.

(** Dials only numeric addresses from the approved resolution result. *)
Definition dial (p : networkPolicy) (host : string) (port : Z) : Net (Res Conn) :=
  r ← resolve p host;
  match r with
  | Err err => mret (Err err)
  | Ok addresses => dialLoop addresses port None
  end.

(** Checks identifier scope and the captured proof before any network access. *)
Definition checkRequest (req : ValidationRequest) (typ : ChallengeType) : Res Identifier :=
  try id := Normalize (vq_Identifier req) in
  let token := ch_Token (vq_Challenge req) in
  let thumbprint := vq_AccountKeyThumbprint req in
  if (ch_Type (vq_Challenge req) != typ) ||
     ((id_Type id != IdentifierDNS) && (id_Type id != IdentifierIP)) ||
     IsWildcard id || (vq_Wildcard req && (typ != ChallengeDNS01)) ||
     ((id_Type id == IdentifierIP) && (typ == ChallengeDNS01))
  then Err (incorrect "identifier does not support this challenge")
  else if (String.length token <? 22)%nat || (256 <? String.length token)%nat || negb (base64URL token) ||
          negb (String.length thumbprint =? 43)%nat || negb (base64URL thumbprint) ||
          (vq_KeyAuthorization req != token +:+ "." +:+ thumbprint)
  then Err (incorrect "invalid captured key authorization")
  else Ok id.

End Network.
