(* ===== verification/Resolver.v ===== *)
(** * The DNS resolver of the validators (src/challenge/resolver.go)

    Lookups over TCP at configured servers, with bounded alias traversal. The message codec of
    [golang.org/x/net/dns/dnsmessage] is the class [DNSMessage]. *)

From S2P Require Import Prelude Status Problem Resource Base64 Netip StoreSpec Prog Host Platform Identifier Jws Network.

(** ** Messages *)

(** Record types; [ClassINET] is class 1. *)
Inductive DNSType : Type := TypeA | TypeAAAA | TypeCNAME | TypeTXT | DNSTypeOther (n : Z).

#[export] Instance DNSType_eq_dec : EqDecision DNSType.
Proof. solve_decision. Defined.

Definition ClassINET : Z := 1.

Record Question : Type := mkQuestion {
  q_Name : string;
  q_Type : DNSType;
  q_Class : Z
}.

Inductive ResourceBody : Type :=
| AResource (a : bytes)
| AAAAResource (aaaa : bytes)
| CNAMEResource (cname : string)
| TXTResource (txt : list string).

Record ResourceHeader : Type := mkResourceHeader {
  rh_Name : string;
  rh_Type : DNSType;
  rh_Class : Z
}.

Record DNSResource : Type := mkDNSResource {
  rr_Header : ResourceHeader;
  rr_Body : ResourceBody
}.

Record DNSHeader : Type := mkDNSHeader {
  dh_ID : Z;
  dh_Response : bool;
  dh_OpCode : Z;
  dh_Truncated : bool;
  dh_RCode : Z
}.

(** One record of the answer section: its header and, for the types that are decoded, the body or
    the error of decoding it; for every other type the error of skipping it. *)
Record answerRecord : Type := mkAnswerRecord {
  ar_Header : ResourceHeader;
  ar_Decoded : Res ResourceBody;
  ar_Skipped : option error
}.

Class DNSMessage : Type := {
  dns_NewName : string → Res string;
  dns_Pack : Z → Question → Res bytes;
  dns_Start : bytes → Res DNSHeader;
  dns_AllQuestions : bytes → Res (list Question);
  (* the records of the answer section, and the error after them if the section is not done *)
  dns_Answers : bytes → list answerRecord * option error
}.

(** ** Calls *)

Record AddrPort : Type := mkAddrPort {
  ap_Addr : option Addr;
  ap_Port : Z
}.

(** A connection whose deadline cannot be set counts as a failed one. *)
Inductive dnsOp : Type → Type :=
| DNSRandom : dnsOp (Res Z)
| DNSContextErr : dnsOp (option error)
| DNSUntilDeadline : dnsOp Duration
| DNSConnect (timeout : Duration) (server : AddrPort) : dnsOp (Res Conn)
| DNSWrite (conn : Conn) (wire : bytes) : dnsOp (option error)
| DNSRead (conn : Conn) (n : Z) : dnsOp (Res bytes).

Notation DNS := (prog dnsOp).

(** ** Configuration *)

Record ResolverOptions : Type := mkResolverOptions {
  ro_Servers : list AddrPort;
  ro_Timeout : Duration;
  ro_MaxCNAMEs : Z;
  ro_MaxResponseBytes : Z;
  ro_MaxRecords : Z
}.

Record Resolver : Type := mkResolver {
  rs_servers : list AddrPort;
  rs_timeout : Duration;
  rs_maxCNAMEs : Z;
  rs_maxBytes : Z;
  rs_maxRecords : Z
}.

Definition orDefault (value default : Z) : Z := if (value =? 0)%Z then default else value.

Definition invalidEndpoint (server : AddrPort) : bool :=
  match ap_Addr server with
  | None => true
  | Some a => (ap_Port server =? 0)%Z || (Zone a != "")
  end.

(** Constructs a resolver with ten-second, eight-alias, 16-KiB and 64-record defaults. *)
Definition NewResolver (options : ResolverOptions) : Res Resolver :=
  if (len (ro_Servers options) =? 0)%Z || (3 <? len (ro_Servers options))%Z ||
     (ro_Timeout options <? 0)%Z || (ro_MaxCNAMEs options <? 0)%Z ||
     (ro_MaxResponseBytes options <? 0)%Z || (65535 <? ro_MaxResponseBytes options)%Z ||
     (ro_MaxRecords options <? 0)%Z
  then Err (ErrMsg "challenge: invalid resolver configuration")
  else if existsb invalidEndpoint (ro_Servers options)
  then Err (ErrMsg "challenge: invalid resolver endpoint")
  else Ok (mkResolver (ro_Servers options) (orDefault (ro_Timeout options) (10 * Second))
             (orDefault (ro_MaxCNAMEs options) 8) (orDefault (ro_MaxResponseBytes options) (Z.shiftl 16 10))
             (orDefault (ro_MaxRecords options) 64)).

(** ** Big-endian numbers *)

Definition uint16 (b : bytes) : Z := fold_left (λ n c, n * 256 + bz c)%Z b 0%Z.
Definition putUint16 (n : Z) : bytes := [zb (n `div` 256); zb n].

(** [wire[i:i+2]]. *)
Definition field (wire : bytes) (i : nat) : Z := uint16 (take 2 (drop i wire)).

(** ** Responses *)

Definition errNameDoesNotExist : error := ErrMsg "challenge: DNS name does not exist".

(** The decoded record types are kept, all others skipped. *)
Definition validationBody (r : answerRecord) : Res (option ResourceBody) :=
  match rh_Type (ar_Header r) with
  | TypeA | TypeAAAA | TypeCNAME | TypeTXT =>
      match ar_Decoded r with Ok body => Ok (Some body) | Err err => Err err end
  | DNSTypeOther _ => match ar_Skipped r with Some err => Err err | None => Ok None end
  end.

Fixpoint validationAnswers (records : list answerRecord) (last : option error) : Res (list DNSResource) :=
  match records with
  | [] => match last with Some err => Err err | None => Ok [] end
  | r :: records =>
      try body := validationBody r in
      try answers := validationAnswers records last in
      Ok (match body with
          | Some body => mkDNSResource (ar_Header r) body :: answers
          | None => answers
          end)
  end.

(** ** Answers *)

Section Resolver.
Context `{Platform} `{DNSMessage}.

(** Validates the DNS envelope before decoding bounded answer records. *)
Definition parseResponse (r : Resolver) (wire : bytes) (id : Z) (question : Question) : Res (list DNSResource) :=
  let badHeader := Err (dnsFailure "invalid DNS response header") in
  match dns_Start wire with
  | Err _ => badHeader
  | Ok header =>
      if negb (dh_ID header =? id)%Z || negb (dh_Response header) || negb (dh_OpCode header =? 0)%Z ||
         dh_Truncated header
      then badHeader
      else if (rs_maxRecords r <? field wire 6 + field wire 8 + field wire 10)%Z
      then Err (dnsFailure "DNS response exceeds the record limit")
      else if negb (field wire 4 =? 1)%Z then Err (dnsFailure "DNS response question count differs")
      else
        let differs := Err (dnsFailure "DNS response question differs") in
        match dns_AllQuestions wire with
        | Ok [q] =>
            if (q_Type q != q_Type question) || negb (q_Class q =? q_Class question)%Z ||
               negb (EqualFold (q_Name q) (q_Name question))
            then differs
            else if (dh_RCode header =? 3)%Z
            then Err (ErrRetryable (Some (NewProblem ErrorDNS "DNS name does not exist")) (Some errNameDoesNotExist))
            else if negb (dh_RCode header =? 0)%Z
            then Err (ErrMsg "DNS resolver returned a transient failure")
            else
              let section := dns_Answers wire in
              match validationAnswers section.1 section.2 with
              | Err _ => Err (dnsFailure "invalid DNS answer encoding")
              | Ok answers => Ok answers
              end
        | _ => differs
        end
  end.

(** Exchanges one length-prefixed DNS message with a numeric TCP resolver endpoint. *)
Definition exchange (r : Resolver) (timeout : Duration) (server : AddrPort) (query : bytes) : DNS (Res bytes) :=
  c ← call (DNSConnect timeout server);
  match c with
  | Err err => mret (Err err)
  | Ok connection =>
      w ← call (DNSWrite connection (putUint16 (len query) ++ query));
      match w with
      | Some err => mret (Err err)
      | None =>
          size ← call (DNSRead connection 2);
          match size with
          | Err err => mret (Err err)
          | Ok size =>
              let length := uint16 size in
              if (length <? 12)%Z || (rs_maxBytes r <? length)%Z
              then mret (Err (dnsFailure "DNS response exceeds the message limit"))
              else call (DNSRead connection length)
          end
      end
  end.

(** The loop of [query] over the servers left; [last] is the error of the last attempt. *)
Fixpoint queryLoop (r : Resolver) (servers : list AddrPort) (query : bytes) (id : Z) (question : Question)
    (last : option error) : DNS (Res (list DNSResource)) :=
  match servers with
  | [] =>
      mret (Err match last with
                | Some err => ErrWrap "challenge: DNS query failed: " err
                | None => ErrMsg "challenge: DNS query failed: %!w(<nil>)"
                end)
  | server :: rest =>
      ended ← call DNSContextErr;
      match ended with
      | Some err => mret (Err err)
      | None =>
          until ← call DNSUntilDeadline;
          response ← exchange r (until `quot` len servers) server query;
          match response with
          | Err err => queryLoop r rest query id question (Some err)
          | Ok response =>
              match parseResponse r response id question with
              | Ok answers => mret (Ok answers)
              | Err err =>
                  if AsProblem err is Some _ then mret (Err err)
                  else queryLoop r rest query id question (Some err)
              end
          end
      end
  end.

(** Tries each explicitly configured resolver once for a bounded DNS question. *)
Definition query (r : Resolver) (name : string) (typ : DNSType) : DNS (Res (list DNSResource)) :=
  match dns_NewName name with
  | Err _ => mret (Err (dnsFailure "invalid DNS query name"))
  | Ok qname =>
      random ← call DNSRandom;
      match random with
      | Err err => mret (Err err)
      | Ok id =>
          let question := mkQuestion qname typ ClassINET in
          match dns_Pack id question with
          | Err err => mret (Err err)
          | Ok query => queryLoop r (rs_servers r) query id question None
          end
      end
  end.

(** Selects records for one owner and rejects contradictory aliases at that owner. *)
Fixpoint matchLoop (answers : list DNSResource) (name : string) (typ : DNSType)
    (matching : list DNSResource) (alias : string) : Res (list DNSResource * string) :=
  match answers with
  | [] =>
      if (alias != "") && (0 <? len matching)%Z
      then Err (dnsFailure "CNAME and proof records share an owner")
      else Ok (matching, alias)
  | answer :: answers =>
      if negb (rh_Class (rr_Header answer) =? ClassINET)%Z || negb (EqualFold (rh_Name (rr_Header answer)) name)
      then matchLoop answers name typ matching alias
      else match rr_Body answer with
      | CNAMEResource cname =>
          let target := ToLower cname in
          if (alias != "") && (alias != target) then Err (dnsFailure "conflicting CNAME records")
          else matchLoop answers name typ matching target
      | _ =>
          matchLoop answers name typ
            (if (rh_Type (rr_Header answer) == typ) then matching ++ [answer] else matching) alias
      end
  end.

Definition matchingAnswers (answers : list DNSResource) (name : string) (typ : DNSType)
    : Res (list DNSResource * string) :=
  matchLoop answers name typ [] "".

(** [strings.TrimSuffix] of a dot. *)
Definition trimDot (s : string) : string :=
  match rev (codes s) with
  | c :: rest => if (c =? 46)%Z then text (rev rest) else s
  | [] => s
  end.

(** The loop of [lookup] with [hops] aliases left to follow. The answers are kept while they
    contain the next owner; [None] asks again. *)
Fixpoint lookupLoop (hops : nat) (r : Resolver) (name : string) (typ : DNSType) (seen : list string)
    (answers : option (list DNSResource)) : DNS (Res (list DNSResource)) :=
  a ← match answers with Some answers => mret (Ok answers) | None => query r name typ end;
  match a with
  | Err err => mret (Err err)
  | Ok answers =>
      match matchingAnswers answers name typ with
      | Err err => mret (Err err)
      | Ok (matching, alias) =>
          if (alias == "") then mret (Ok matching)
          else match hops with
          | O => mret (Err (dnsFailure "CNAME traversal limit or loop"))
          | S hops =>
              if bool_decide (alias ∈ seen) then mret (Err (dnsFailure "CNAME traversal limit or loop"))
              else
                let present := existsb (λ a, EqualFold (rh_Name (rr_Header a)) alias) answers in
                lookupLoop hops r alias typ (alias :: seen)
                  (if present then Some answers else None)
          end
      end
  end.

(** Traverses only answer-owner CNAMEs and never accepts unrelated records as proof. *)
Definition Resolver_lookup (r : Resolver) (name : string) (typ : DNSType) : DNS (Res (list DNSResource)) :=
  let name := ToLower (trimDot name) +:+ "." in
  lookupLoop (Z.to_nat (rs_maxCNAMEs r)) r name typ [name] None.

(** The values of TXT records, the character strings of each joined. *)
Definition txtValues (records : list DNSResource) : list string :=
  omap (λ record, match rr_Body record with
                  | TXTResource txt => Some (String.concat "" txt)
                  | _ => None
                  end) records.

(** Returns each TXT record separately while joining the character strings within that record. *)
Definition LookupTXT (r : Resolver) (name : string) : DNS (Res (list string)) :=
  records ← Resolver_lookup r name TypeTXT;
  match records with
  | Err err => mret (Err err)
  | Ok records => mret (Ok (txtValues records))
  end.

(** The addresses of A and AAAA records. *)
Definition addressOf (record : DNSResource) : option Addr :=
  match rr_Body record with
  | AResource a | AAAAResource a => AddrFromSlice a
  | _ => None
  end.

(** The lookups of the record types of an address family. *)
Fixpoint familyLoop (r : Resolver) (host : string) (types : list DNSType) (addresses : list Addr)
    : DNS (Res (list Addr)) :=
  match types with
  | [] => mret (Ok addresses)
  | typ :: types =>
      records ← Resolver_lookup r host typ;
      match records with
      | Err err => mret (Err err)
      | Ok records => familyLoop r host types (addresses ++ omap addressOf records)
      end
  end.

(** Resolves A and AAAA records through the same bounded resolver policy used for TXT proofs. *)
Definition LookupNetIP (r : Resolver) (network host : string) : DNS (Res (list Addr)) :=
  if (network == "ip") then familyLoop r host [TypeA; TypeAAAA] []
  else if (network == "ip4") then familyLoop r host [TypeA] []
  else if (network == "ip6") then familyLoop r host [TypeAAAA] []
  else mret (Err (ErrMsg "challenge: unsupported address family")).

End Resolver.
