(* ===== verification/Chain.v ===== *)
(** * Certificate requests and issued chains (src/csr.go, src/chain.go, src/ids.go)

    The identifiers a request or certificate asserts and the checks a chain passes before the
    server publishes it. *)

From S2P Require Import Prelude Status Problem Resource Base64 Netip StoreSpec Prog Host Platform Tnauthlist Identifier Slhdsa Jws.

(** ** Object identifiers *)

Definition tnAuthListOID : list Z := [1; 3; 6; 1; 5; 5; 7; 1; 26]%Z.
Definition subjectAltNameOID : list Z := [2; 5; 29; 17]%Z.
Definition basicConstraintsOID : list Z := [2; 5; 29; 19]%Z.
Definition ClassContextSpecific : Z := 2.

(** [net.IP.String]. *)
Definition hexByte (b : Byte.byte) : list Z := [hexDigit (bz b `div` 16); hexDigit (bz b `mod` 16)].

Definition netIP_String (ip : bytes) : string :=
  match AddrFromSlice ip with
  | Some addr => Addr_String (Unmap addr)
  | None => if (ip == []) then "<nil>" else "?" +:+ text (concat (map hexByte ip))
  end.

(** ** Names of an issuance (src/chain.go, src/csr.go, src/issuance.go) *)

(** Reports whether the names requested or issued include every order identifier and add only
    names an authority token granted. *)
Definition coversIdentifiers (names order granted : list Identifier) : bool :=
  forallb (λ id, bool_decide (id ∈ names)) order &&
  forallb (λ id, bool_decide (id ∈ order) || bool_decide (id ∈ granted)) names.

Definition grantedNames (validations : list Validation) : list Identifier :=
  concat (map v_Names validations).

(** Returns the earliest grant expiry among the validations, or zero when none is bounded. *)
Definition grantExpiry (validations : list Validation) : Time :=
  fold_left (λ bound v,
    if negb (IsZero (v_GrantExpires v)) && (IsZero bound || Before (v_GrantExpires v) bound)
    then v_GrantExpires v else bound) validations zeroTime.

(** Returns the notAfter an issuance asks the CA for. *)
Definition issuedNotAfter (order : Order) : Time :=
  let notAfter := ord_NotAfter order in
  let bound := match ord_Issuance order with
               | Some state => grantExpiry (is_Validations state)
               | None => zeroTime
               end in
  if negb (IsZero bound) && (IsZero notAfter || After notAfter bound) then bound else notAfter.

(** Reports whether the common name is outside the identifier model. *)
Definition commonNameExempt (ids : list Identifier) : bool :=
  ((length ids =? 1)%nat && (id_Type <$> head ids == Some IdentifierTNAuthList)) ||
  existsb (λ id, id_Type id == IdentifierNfInstanceID) ids.

(** Interprets an IP common name as an IP identifier and every other value as DNS. *)
Definition commonNameIdentifier (name : string) : Identifier :=
  mkIdentifier (if ParseAddr name is Some _ then IdentifierIP else IdentifierDNS) name.

(** ** Authority lists in extensions (src/tnauthlist.go) *)

Definition tnAuthListExtension (extensions : list Extension) : Res (option Identifier) :=
  match filter (λ e, ext_Id e = tnAuthListOID) extensions with
  | [] => Ok None
  | [found] =>
      match checkTNAuthList (ext_Value found) with
      | Some err => Err err
      | None => Ok (Some (mkIdentifier IdentifierTNAuthList (encode (ext_Value found))))
      end
  | _ => Err (ErrMsg "duplicate TN authorization list extension")
  end.

(** ** Resource identifiers of certificates (src/ids.go) *)

(** Returns the RFC 9773 identifier of a leaf, or an empty string without an authority key
    identifier. The serial is the DER INTEGER content, so a leading one bit needs a zero byte. *)
Definition renewalID (leaf : X509Certificate) : string :=
  match x_SerialNumber leaf with
  | None => ""
  | Some n =>
      if (x_AuthorityKeyId leaf == []) || (n <=? 0)%Z then ""
      else
        let serial := bigBytes n in
        let serial := match serial with
                      | b :: _ => if (Z.land (bz b) 0x80 =? 0)%Z then serial else zb 0 :: serial
                      | [] => serial
                      end in
        encode (x_AuthorityKeyId leaf) +:+ "." +:+ encode serial
  end.

(** Rejects keys the server does not issue for. *)
Definition checkCSRKey (key : CertKey) : option Problem :=
  match key with
  | CertKeyPKIX (KeyRSA n _) =>
      if (BitLen n <? MinRSABits)%Z || (MaxRSABits <? BitLen n)%Z
      then Some (NewProblem ErrorBadCSR "CSR RSA key must have 2048 to 4096 bits") else None
  | CertKeyPKIX (KeyECDSA (CurveOther _) _ _) =>
      Some (NewProblem ErrorBadCSR "CSR EC key uses an unsupported curve")
  | CertKeyPKIX (KeyECDSA _ _ _) | CertKeyPKIX (KeyEd25519 _) => None
  | CertKeyMLDSA _ | CertKeyComposite _ | CertKeySLHDSA _ => None
  | CertKeyPKIX (KeyOther _) => Some (NewProblem ErrorBadCSR "CSR key type is not supported")
  end.

Section Chain.
Context `{Platform}.

Definition certificateID (leafDER : bytes) : string := encode (sha256_Sum256 leafDER).

(** ** Subject alternative names *)

Definition supportedName (name : RawValue) : bool :=
  (raw_Class name == ClassContextSpecific) && negb (raw_IsCompound name) &&
  ((raw_Tag name == 2%Z) || (raw_Tag name == 6%Z) || (raw_Tag name == 7%Z)).

(** Rejects SAN forms that no identifier covers: anything but DNS names, URIs and IP addresses. *)
Fixpoint checkSANExtensions (extensions : list Extension) : option error :=
  match extensions with
  | [] => None
  | extension :: extensions =>
      if (ext_Id extension != subjectAltNameOID) then checkSANExtensions extensions
      else match asn1_UnmarshalNames (ext_Value extension) with
      | Ok (names, []) =>
          if negb (forallb supportedName names)
          then Some (ErrMsg "unsupported subject alternative name type")
          else checkSANExtensions extensions
      | _ => Some (ErrMsg "invalid subject alternative name extension")
      end
  end.

(** Applies a fallible function to every element, stopping at the first error. *)
Fixpoint traverse {A B} (f : A → Res B) (l : list A) : Res (list B) :=
  match l with
  | [] => Ok []
  | a :: l => try b := f a in try bs := traverse f l in Ok (b :: bs)
  end.

Definition mapError {A} (err : error) (r : Res A) : Res A :=
  match r with Ok a => Ok a | Err _ => Err err end.

Definition ipName (ip : bytes) : Res Identifier :=
  match AddrFromSlice ip with
  | None => Err (ErrMsg "invalid IP SAN")
  | Some addr => Ok (mkIdentifier IdentifierIP (Addr_String (Unmap addr)))
  end.

(** Returns the complete supported SAN set of a certificate. *)
Definition certificateSANs (leaf : X509Certificate) : Res (list Identifier) :=
  match checkSANExtensions (x_Extensions leaf) with
  | Some err => Err err
  | None =>
      try tnAuthList := tnAuthListExtension (x_Extensions leaf) in
      try uris := traverse (λ uri, mapError (ErrMsg "unsupported URI SAN") (uriNameIdentifier uri))
                    (x_URIs leaf) in
      let dns := map (mkIdentifier IdentifierDNS) (x_DNSNames leaf) in
      try ips := traverse ipName (x_IPAddresses leaf) in
      match NormalizeIdentifiers (option_list tnAuthList ++ uris ++ dns ++ ips) with
      | Ok (id :: ids) => Ok (id :: ids)
      | _ => Err (ErrMsg "invalid certificate identifiers")
      end
  end.

(** Returns the identifier the common name of a certificate asserts, if any. *)
Definition certificateCommonName (leaf : X509Certificate) (ids : list Identifier)
    : Res (option Identifier) :=
  if (x_CommonName leaf == "") || commonNameExempt ids then Ok None
  else try cn := Normalize (commonNameIdentifier (x_CommonName leaf)) in Ok (Some cn).

(** Returns the complete supported SAN set and checks the common name against it. *)
Definition certificateIdentifiers (leaf : X509Certificate) : Res (list Identifier) :=
  try ids := certificateSANs leaf in
  match certificateCommonName leaf ids with
  | Ok None => Ok ids
  | Ok (Some cn) =>
      if (id_Value cn != "") && negb (bool_decide (cn ∈ ids))
      then Err (ErrMsg "common name is outside the SAN set") else Ok ids
  | Err _ => Err (ErrMsg "common name is outside the SAN set")
  end.

(** Returns every identity a certificate asserts, adding a common name that its SAN set does not
    cover. *)
Definition revocationIdentifiers (leaf : X509Certificate) : Res (list Identifier) :=
  try ids := certificateSANs leaf in
  try cn := certificateCommonName leaf ids in
  match cn with
  | None => Ok ids
  | Some cn =>
      if (id_Value cn != "") && negb (bool_decide (cn ∈ ids)) then Ok (ids ++ [cn]) else Ok ids
  end.

(** ** Certificate requests (src/csr.go) *)

(** Returns whether a certificate request asks for a CA certificate. *)
Fixpoint basicConstraintsLoop (extensions : list Extension) (found : bool) (value : basicConstraints)
    : Res bool :=
  match extensions with
  | [] => Ok (bc_IsCA value)
  | extension :: extensions =>
      if (ext_Id extension != basicConstraintsOID)
      then basicConstraintsLoop extensions found value
      else if found then Err (ErrMsg "duplicate basic constraints extension")
      else match asn1_UnmarshalBasicConstraints (ext_Value extension) value with
      | Ok (value, []) => basicConstraintsLoop extensions true value
      | _ => Err (ErrMsg "invalid basic constraints extension")
      end
  end.

Definition csrCACertificate (extensions : list Extension) : Res bool :=
  basicConstraintsLoop extensions false (mkBasicConstraints false (-1)).

(** The URI names of a request, or the problem of the first unacceptable one. *)
Fixpoint csrURIs (uris : list string) : result Problem (list Identifier) :=
  match uris with
  | [] => Ok []
  | uri :: uris =>
      match uriNameIdentifier uri with
      | Err _ => Err (NewProblem ErrorBadCSR ("CSR URI name " +:+ uri +:+ " is not acceptable"))
      | Ok id => try ids := csrURIs uris in Ok (id :: ids)
      end
  end.

(** Normalizes the identifiers of a request and drops repeated ones. *)
Fixpoint normalizeCSR (raw normalized : list Identifier) : result Problem (list Identifier) :=
  match raw with
  | [] => Ok normalized
  | id :: raw =>
      match Normalize id with
      | Err _ =>
          Err (NewProblem ErrorBadCSR
                 ("CSR identifier " +:+ Identifier_String id +:+ " is not acceptable"))
      | Ok n => normalizeCSR raw (if bool_decide (n ∈ normalized) then normalized
                                  else normalized ++ [n])
      end
  end.

Definition csrIdentifiers (csr : CertificateRequest) : result Problem (list Identifier) :=
  match tnAuthListExtension (csr_Extensions csr) with
  | Err _ => Err (NewProblem ErrorBadCSR "CSR TN authorization list is not acceptable")
  | Ok tnAuthList =>
      let dns := map (mkIdentifier IdentifierDNS) (csr_DNSNames csr) in
      let ips := map (λ ip, mkIdentifier IdentifierIP (netIP_String ip)) (csr_IPAddresses csr) in
      try uris := csrURIs (csr_URIs csr) in
      let raw := option_list tnAuthList ++ dns ++ ips ++ uris in
      let raw := if (csr_CommonName csr != "") && negb (commonNameExempt raw)
                 then raw ++ [commonNameIdentifier (csr_CommonName csr)] else raw in
      if (raw == []) then Err (NewProblem ErrorBadCSR "CSR requests no identifiers")
      else normalizeCSR raw []
  end.

(** The comparison of the request key with the account key, which only keys that can sign JWS
    need. *)
Definition checkKeyReuse (key : CertKey) (account : Account) : option Problem :=
  if key is CertKeySLHDSA _ then None
  else match x509_MarshalPKIXPublicKey (acct_Key account) with
  | Err _ => Some (NewProblem ErrorServerInternal "account key could not be read")
  | Ok accountKey =>
      match composite_MarshalPKIXPublicKey key with
      | Err _ => Some (NewProblem ErrorBadCSR "CSR key could not be read")
      | Ok csrKey =>
          if (csrKey == accountKey)
          then Some (NewProblem ErrorBadCSR "CSR key must not be the account key") else None
      end
  end.

(** Parses a CSR and checks that it may finalize the order. *)
Definition checkCSR (der : bytes) (order : Order) (account : Account) (granted : list Identifier)
    : result Problem CertificateRequest :=
  match x509_ParseCertificateRequest der with
  | Err _ => Err (NewProblem ErrorBadCSR "CSR could not be parsed")
  | Ok csr =>
      if checkCSRSignature csr is Some _ then Err (NewProblem ErrorBadCSR "CSR signature is invalid")
      else match parseCSRKey (csr_RawSubjectPublicKeyInfo csr) with
      | Err _ => Err (NewProblem ErrorBadCSR "CSR key could not be read")
      | Ok key =>
          match checkCSRKey key, checkKeyReuse key account with
          | Some p, _ => Err p
          | None, Some p => Err p
          | None, None =>
              if checkSANExtensions (csr_Extensions csr) is Some _ then
                Err (NewProblem ErrorBadCSR "CSR requests unsupported subject alternative name types")
              else
                try requested := csrIdentifiers csr in
                if negb (coversIdentifiers requested (ord_Identifiers order) granted)
                then Err (NewProblem ErrorBadCSR "CSR identifiers do not match the order")
                else Ok csr
          end
      end
  end.

(** ** Issued chains (src/chain.go) *)

(** Checks the leaf CA basic constraint. *)
Definition checkLeafCACertificate (leaf : X509Certificate) (csr : CertificateRequest) (order : Order)
    : option error :=
  if negb (existsb (λ id, id_Type id == IdentifierTNAuthList) (ord_Identifiers order)) then
    if x_IsCA leaf
    then Some (ErrMsg "leaf is a CA certificate but the order did not authorize one") else None
  else match csrCACertificate (csr_Extensions csr) with
  | Err err => Some err
  | Ok requested =>
      if (x_IsCA leaf != requested)
      then Some (ErrMsg "leaf CA basic constraint does not match the certificate request") else None
  end.

(** Parses every element of the chain, the first of them element [i]. *)
Fixpoint parseChain (i : nat) (chain : list bytes) : Res (list X509Certificate) :=
  match chain with
  | [] => Ok []
  | der :: chain =>
      match x509_ParseCertificate der with
      | Err err => Err (ErrWrap ("chain element " +:+ pretty i +:+ ": ") err)
      | Ok cert => try certs := parseChain (S i) chain in Ok (cert :: certs)
      end
  end.

(** Checks the signature of every element by its successor. *)
Fixpoint checkLinks (i : nat) (certs : list X509Certificate) : option error :=
  match certs with
  | cert :: (parent :: _) as rest =>
      match checkSignatureFrom cert parent with
      | Some err => Some (ErrWrap ("chain element " +:+ pretty i +:+ " is not signed by element " +:+
                                   pretty (S i) +:+ ": ") err)
      | None => checkLinks (S i) rest
      end
  | _ => None
  end.

(** The validity of the leaf against the time, the order and the authority tokens. *)
Definition checkValidity (leaf : X509Certificate) (order : Order) (now : Time) : option error :=
  let start := TruncateSecond (ord_NotBefore order) in
  let bound := match ord_Issuance order with
               | Some state => grantExpiry (is_Validations state)
               | None => zeroTime
               end in
  let requested := issuedNotAfter order in
  if negb (After (x_NotAfter leaf) now) || negb (After (x_NotAfter leaf) (x_NotBefore leaf))
  then Some (ErrMsg "leaf certificate validity is invalid or expired")
  else if Before (x_NotBefore leaf) start
  then Some (ErrMsg "leaf notBefore is earlier than the accepted order")
  else if After (x_NotBefore leaf) now && After (x_NotBefore leaf) start
  then Some (ErrMsg "leaf certificate is not valid yet")
  else if negb (IsZero bound) && After (x_NotAfter leaf) bound
  then Some (ErrMsg "leaf certificate outlives the authority token")
  else if negb (IsZero requested) && After (x_NotAfter leaf) (TruncateSecond requested)
  then Some (ErrMsg "leaf notAfter is later than the requested validity")
  else None.

(** Checks the issued key, identifiers, accepted validity and chain signatures before publication. *)
Definition checkChain (chain : list bytes) (csr : CertificateRequest) (order : Order) (now : Time)
    : Res X509Certificate :=
  match parseChain 0 chain with
  | Err err => Err err
  | Ok [] => Err (ErrMsg "empty chain")
  | Ok (leaf :: rest) =>
      if (x_RawSubjectPublicKeyInfo leaf != csr_RawSubjectPublicKeyInfo csr)
      then Err (ErrMsg "leaf public key does not match the CSR")
      else match checkValidity leaf order now with
      | Some err => Err err
      | None =>
          let granted := match ord_Issuance order with
                         | Some state => grantedNames (is_Validations state)
                         | None => []
                         end in
          match certificateIdentifiers leaf with
          | Err _ => Err (ErrMsg "leaf identifiers do not match the order")
          | Ok ids =>
              if negb (coversIdentifiers ids (ord_Identifiers order) granted)
              then Err (ErrMsg "leaf identifiers do not match the order")
              else match checkLeafCACertificate leaf csr order, checkLinks 0 (leaf :: rest) with
              | Some err, _ => Err err
              | None, Some err => Err err
              | None, None => Ok leaf
              end
          end
      end
  end.

End Chain.
