(* ===== verification/Validators.v ===== *)
(** * The DNS, HTTP and TLS validators (src/challenge/dns.go, http.go, tlsalpn.go)

    What the validators do with the answers of the network. The redirect loop is the one of the
    client of [net/http], which dials through the validator and asks it before it follows. *)

From S2P Require Import Prelude Status Problem Resource Base64 Netip StoreSpec Prog Host Platform Identifier Jws Chain Network.

(** Functions of [net/url], [net/http], [crypto/tls] and [encoding/asn1]: [URL.Parse] of a
    reference, the ASCII form of a host, the two handshake errors [errors.As] finds, and the octet
    string with the bytes after it. *)
Class NetPlatform : Type := {
  url_ParseRef : URL → string → Res URL;
  http_idnaASCII : string → string;
  tls_HandshakeError : error → bool;
  asn1_UnmarshalOctets : bytes → Res (bytes * bytes)
}.

(** ** Strings *)

(** The part before and after the last occurrence of a byte. *)
Fixpoint cutLast (c : Z) (s : list Z) : option (list Z * list Z) :=
  match s with
  | [] => None
  | d :: s =>
      match cutLast c s with
      | Some (before, after) => Some (d :: before, after)
      | None => if (d =? c)%Z then Some ([], s) else None
      end
  end.

(** [strings.TrimRight] with a set of bytes. *)
Definition TrimRight (cutset s : list Z) : list Z :=
  rev ((fix trim (s : list Z) : list Z :=
          match s with
          | c :: s' => if bool_decide (c ∈ cutset) then trim s' else s
          | [] => []
          end) (rev s)).

(** [strings.Contains]. *)
Fixpoint containsCodes (needle s : list Z) : bool :=
  bool_decide (take (length needle) s = needle) ||
  match s with _ :: s => containsCodes needle s | [] => false end.

(** [strconv.Atoi]. *)
Definition Atoi (s : list Z) : option Z :=
  let '(sign, ds) := match s with
                     | c :: ds => if (c =? 43)%Z then (1, ds)%Z else if (c =? 45)%Z then (-1, ds)%Z else (1, s)%Z
                     | [] => (1, [])%Z
                     end in
  if (ds == []) || negb (forallb isDigit ds) then None
  else
    let n := (sign * fold_left (λ n c, n * 10 + (c - 48)) ds 0)%Z in
    if (- 2 ^ 63 <=? n)%Z && (n <? 2 ^ 63)%Z then Some n else None.

(** ** URLs *)

(** [splitHostPort] of [net/url]: the host without brackets and the port after a valid colon. *)
Definition hostPort (host : list Z) : list Z * list Z :=
  let '(h, port) := match cutLast 58 host with
                    | Some (before, after) => if forallb isDigit after then (before, after) else (host, [])
                    | None => (host, [])
                    end in
  match h with
  | 91%Z :: rest =>
      match cutLast 93 rest with
      | Some (inner, []) => (inner, port)
      | _ => (h, port)
      end
  | _ => (h, port)
  end.

Definition Hostname (u : URL) : string := text (hostPort (codes (url_Host u))).1.
Definition Port (u : URL) : string := text (hostPort (codes (url_Host u))).2.

(** [net.SplitHostPort]: the host and the port, or why the address has none. *)
Definition SplitHostPort (s : list Z) : result string (list Z * list Z) :=
  match cutLast 58 s with
  | None => Err "missing port in address"
  | Some (before, port) =>
      match s with
      | 91%Z :: rest =>
          match cutAt 93 rest with
          | (_, None) => Err "missing ']' in address"
          | (host, Some after) =>
              if bool_decide (after = 58%Z :: port) then
                if bool_decide (91%Z ∈ rest) then Err "unexpected '[' in address"
                else if bool_decide (93%Z ∈ after) then Err "unexpected ']' in address"
                else Ok (host, port)
              else if bool_decide (head after = Some 58%Z) then Err "too many colons in address"
              else Err "missing port in address"
          end
      | _ =>
          if bool_decide (58%Z ∈ before) then Err "too many colons in address"
          else if bool_decide (91%Z ∈ s) then Err "unexpected '[' in address"
          else if bool_decide (93%Z ∈ s) then Err "unexpected ']' in address"
          else Ok (before, port)
      end
  end.

(** Enforces the redirect scheme, authority and destination port policy before dialing. *)
Definition checkHTTPURL (target : URL) : option error :=
  if ((url_Scheme target != "http") && (url_Scheme target != "https")) || (Hostname target == "") ||
     url_User target || (url_Opaque target != "") || (url_Fragment target != "")
  then Some (incorrect "HTTP redirect target is not permitted")
  else if (Port target != "") && (Port target != "80") && (Port target != "443")
  then Some (incorrect "HTTP redirect port is not permitted")
  else None.

(** ** Configuration *)

Record DNSOptions : Type := mkDNSOptions { do_Resolver : bool; do_Timeout : Duration }.
Record DNS01 : Type := mkDNS01 { d01_timeout : Duration }.

(** Constructs a DNS validator with a required resolver and a ten-second default timeout. *)
Definition NewDNS01 (options : DNSOptions) : Res DNS01 :=
  if negb (do_Resolver options) || (do_Timeout options <? 0)%Z
  then Err (ErrMsg "challenge: DNS resolver is required and timeout must not be negative")
  else Ok (mkDNS01 (if (do_Timeout options =? 0)%Z then (10 * Second)%Z else do_Timeout options)).

Record HTTPOptions : Type := mkHTTPOptions {
  ho_Network : NetworkOptions;
  ho_TestPort : Z;
  ho_MaxRedirects : Z;
  ho_MaxResponseBytes : Z
}.

Record HTTP01 : Type := mkHTTP01 {
  h01_network : networkPolicy;
  h01_testPort : Z;
  h01_redirects : Z;
  h01_maxBody : Z
}.

(** Constructs an HTTP validator with an immutable egress configuration. *)
Definition NewHTTP01 (options : HTTPOptions) : Res HTTP01 :=
  try network := newNetwork (ho_Network options) in
  if (ho_TestPort options <? 0)%Z || (65535 <? ho_TestPort options)%Z ||
     (ho_MaxRedirects options <? 0)%Z || (ho_MaxResponseBytes options <? 0)%Z
  then Err (ErrMsg "challenge: HTTP limits are invalid")
  else
    let redirects := if (ho_MaxRedirects options =? 0)%Z then 10%Z else ho_MaxRedirects options in
    let maxBody := if (ho_MaxResponseBytes options =? 0)%Z then 4096%Z else ho_MaxResponseBytes options in
    Ok (mkHTTP01 network (ho_TestPort options) redirects maxBody).

Record TLSALPNOptions : Type := mkTLSALPNOptions { to_Network : NetworkOptions; to_TestPort : Z }.
Record TLSALPN01 : Type := mkTLSALPN01 { t01_network : networkPolicy; t01_port : Z }.

(** Constructs a TLS-ALPN validator with an immutable egress configuration. *)
Definition NewTLSALPN01 (options : TLSALPNOptions) : Res TLSALPN01 :=
  try network := newNetwork (to_Network options) in
  if (to_TestPort options <? 0)%Z || (65535 <? to_TestPort options)%Z
  then Err (ErrMsg "challenge: invalid TLS test port")
  else Ok (mkTLSALPN01 network (if (to_TestPort options =? 0)%Z then 443%Z else to_TestPort options)).

Section Validators.
Context `{Platform} `{NetPlatform}.

(** ** dns-01 *)

(** Requires a matching TXT digest for a base or wildcard DNS identifier. *)
Definition DNS01_Validate (request : ValidationRequest) : Net (option error) :=
  match checkRequest request ChallengeDNS01 with
  | Err err => mret (Some err)
  | Ok id =>
      r ← call (NetLookupTXT ("_acme-challenge." +:+ id_Value id +:+ "."));
      match r with
      | Err err => mret (Some (retryable ErrorDNS "TXT lookup failed" err))
      | Ok records =>
          if (64 <? len records)%Z then mret (Some (dnsFailure "TXT response exceeds the record limit"))
          else
            let expected := encode (sha256_Sum256 (string_bytes (vq_KeyAuthorization request))) in
            mret (if bool_decide (expected ∈ records) then None
                  else Some (incorrect "DNS challenge proof did not match"))
      end
  end.

(** ** http-01 *)

(** Resolves and checks the hostname again for every new connection. *)
Definition HTTP01_dial (v : HTTP01) (address : string) : Net (Res Conn) :=
  match SplitHostPort (codes address) with
  | Err why => mret (Err (ErrMsg ("address " +:+ address +:+ ": " +:+ why)))
  | Ok (host, rawPort) =>
      match Atoi rawPort with
      | Some port =>
          if negb (port =? 80)%Z && negb (port =? 443)%Z
          then mret (Err (incorrect "HTTP destination port is not permitted"))
          else
            let port := if negb (h01_testPort v =? 0)%Z && (port =? 80)%Z then h01_testPort v else port in
            dial (h01_network v) (text host) port
      | None => mret (Err (incorrect "HTTP destination port is not permitted"))
      end
  end.

(** The address the transport of [net/http] dials for a URL. *)
Definition canonicalAddr (u : URL) : string :=
  let port := if (Port u == "") then (if (url_Scheme u == "https") then "443" else "80") else Port u in
  JoinHostPort (http_idnaASCII (Hostname u)) port.

(** The error the client returns for a request of a URL. *)
Definition clientError (target : string) (err : error) : error :=
  ErrWrap ("Get " +:+ strconv_Quote target +:+ ": ") err.

Definition isRedirect (resp : HTTPResponse) : bool :=
  bool_decide (resp_StatusCode resp ∈ [301; 302; 303; 307; 308]%Z) && (resp_Location resp != "").

(** [client.Do] with [hops] redirects left to follow: one request after the other on its own
    connection. The validator refuses a redirect once more requests were made than it allows. *)
Fixpoint clientDo (hops : nat) (v : HTTP01) (u : URL) : Net (Res HTTPResponse) :=
  c ← HTTP01_dial v (canonicalAddr u);
  match c with
  | Err err => mret (Err (clientError (URL_String u) err))
  | Ok connection =>
      r ← call (NetSend connection u);
      match r with
      | Err err => mret (Err (clientError (URL_String u) err))
      | Ok resp =>
          if negb (isRedirect resp) then mret (Ok resp)
          else
            let location := resp_Location resp in
            match url_ParseRef u location with
            | Err err =>
                mret (Err (clientError (URL_String u)
                             (ErrMsg ("failed to parse Location header " +:+ strconv_Quote location +:+ ": " +:+
                                      error_Error err))))
            | Ok next =>
                match hops with
                | O => mret (Err (clientError location (incorrect "HTTP redirect limit exceeded")))
                | S hops =>
                    match checkHTTPURL next with
                    | Some err => mret (Err (clientError location err))
                    | None => clientDo hops v next
                    end
                end
            end
      end
  end.

(** Reports whether a request failed during a TLS handshake. *)
Definition tlsFailure (err : error) : bool :=
  tls_HandshakeError err || containsCodes (codes "tls: ") (codes (error_Error err)).

(** [io.ReadAll] of the body behind an [io.LimitReader]. *)
Definition readLimited (resp : HTTPResponse) (n : Z) : Res bytes :=
  if (n <=? 0)%Z then Ok []
  else if (len (resp_Body resp) <? n)%Z
  then match resp_BodyError resp with Some err => Err err | None => Ok (resp_Body resp) end
  else Ok (take (Z.to_nat n) (resp_Body resp)).

(** The URL of the proof of a token at a host. *)
Definition proofURL (host token : string) : URL :=
  let host := if bool_decide (58%Z ∈ codes host) then "[" +:+ host +:+ "]" else host in
  let path := "/.well-known/acme-challenge/" +:+ token in
  mkURL "http" "" false host path path "" "" "".

(** Fetches and compares the proof through bounded HTTP or HTTPS redirects on ports 80 and 443. *)
Definition HTTP01_Validate (v : HTTP01) (request : ValidationRequest) : Net (option error) :=
  match checkRequest request ChallengeHTTP01 with
  | Err err => mret (Some err)
  | Ok id =>
      match url_Parse (URL_String (proofURL (id_Value id) (ch_Token (vq_Challenge request)))) with
      | Err err => mret (Some err)
      | Ok target =>
          r ← clientDo (Z.to_nat (h01_redirects v)) v target;
          match r with
          | Err err =>
              let typ := if tlsFailure err then ErrorTLS else ErrorConnection in
              mret (Some (retryable typ "HTTP validation request failed"
                            (ErrWrap "challenge: HTTP validation: " err)))
          | Ok response =>
              if negb (resp_StatusCode response =? 200)%Z
              then mret (Some (incorrect "HTTP challenge response was not 200"))
              else match readLimited response (i64 (h01_maxBody v + 1)) with
              | Err err =>
                  mret (Some (retryable ErrorConnection "HTTP proof could not be read"
                                (ErrWrap "challenge: HTTP proof read: " err)))
              | Ok body =>
                  mret (if (h01_maxBody v <? len body)%Z ||
                           (text (TrimRight [32; 9; 13; 10]%Z (map bz body)) != vq_KeyAuthorization request)
                        then Some (incorrect "HTTP challenge proof did not match") else None)
              end
          end
      end
  end.

(** ** tls-alpn-01 *)

Definition ALPNProtocol : string := "acme-tls/1".
Definition acmeIdentifierOID : list Z := [1; 3; 6; 1; 5; 5; 7; 1; 31]%Z.

(** A connection that bounds the bytes read from it: the bytes left after a read of at most
    [want] bytes of which the peer sent [n], and the count or the error of the read. *)
Definition limitedRead (remaining want sent : Z) : Z * Res Z :=
  if (remaining <=? 0)%Z then (remaining, Err (incorrect "TLS handshake exceeds the byte limit"))
  else
    let n := Z.min sent (Z.min want remaining) in
    ((remaining - n)%Z, Ok n).

Definition handshakeLimit : Z := Z.shiftl 256 10.

(** Requires one SAN entry of the exact authorized identifier type and value. *)
Definition checkSingleSAN (cert : X509Certificate) (id : Identifier) : option error :=
  match find (λ e, ext_Id e == subjectAltNameOID) (x_Extensions cert) with
  | None => Some (incorrect "TLS certificate SAN is missing")
  | Some extension =>
      let single := Some (incorrect "TLS certificate must contain exactly one SAN") in
      match asn1_UnmarshalNames (ext_Value extension) with
      | Ok ([name], []) =>
          if negb (raw_Class name =? ClassContextSpecific)%Z || raw_IsCompound name then single
          else if (id_Type id == IdentifierDNS) && (raw_Tag name =? 2)%Z &&
                  EqualFold (bytes_string (raw_Bytes name)) (id_Value id)
          then None
          else if (id_Type id == IdentifierIP) && (raw_Tag name =? 7)%Z then
            match AddrFromSlice (raw_Bytes name), ParseAddr (id_Value id) with
            | Some address, Some want =>
                if (address == want) then None else Some (incorrect "TLS certificate SAN did not match")
            | Some _, None => Some ErrPanic
            | None, _ => Some (incorrect "TLS certificate SAN did not match")
            end
          else Some (incorrect "TLS certificate SAN did not match")
      | _ => single
      end
  end.

(** Checks the RFC 8737 proof without applying ordinary X.509 trust or validity rules. *)
Definition checkALPNProof (state : ConnectionState) (id : Identifier) (keyAuthorization : string)
    : option error :=
  match (if (cs_NegotiatedProtocol state != ALPNProtocol) then [] else cs_PeerCertificates state) with
  | [] => Some (incorrect "TLS ALPN was not negotiated")
  | cert :: _ =>
      match checkSingleSAN cert id with
      | Some err => Some err
      | None =>
          match find (λ e, ext_Id e == acmeIdentifierOID) (x_Extensions cert) with
          | None => Some (incorrect "TLS proof extension is missing")
          | Some extension =>
              match asn1_UnmarshalOctets (ext_Value extension) with
              | Ok (proof, []) =>
                  if negb (ext_Critical extension) || (proof != sha256_Sum256 (string_bytes keyAuthorization))
                  then Some (incorrect "TLS proof extension did not match") else None
              | _ => Some (incorrect "TLS proof extension did not match")
              end
          end
      end
  end.

(** Returns the reverse-mapping DNS name required for IP challenge SNI. *)
Definition reverseName (address : Addr) : string :=
  match address with
  | Addr4 octets => text (concat (map (λ o, decText o ++ [46%Z]) (rev octets))) +:+ "in-addr.arpa"
  | Addr6 groups _ =>
      let nibbles := concat (map (λ g, [g `div` 4096; g `div` 256 `mod` 16; g `div` 16 `mod` 16; g `mod` 16]%Z) groups) in
      text (concat (map (λ d, [hexDigit d; 46%Z]) (rev nibbles))) +:+ "ip6.arpa"
  end.

(** Validates DNS or IP proof using RFC 8737 and the reverse-mapping SNI rule of RFC 8738. *)
Definition TLSALPN01_Validate (v : TLSALPN01) (request : ValidationRequest) : Net (option error) :=
  match checkRequest request ChallengeTLSALPN01 with
  | Err err => mret (Some err)
  | Ok id =>
      c ← dial (t01_network v) (id_Value id) (t01_port v);
      match c with
      | Err err => mret (Some err)
      | Ok connection =>
          match (if (id_Type id == IdentifierIP) then reverseName <$> ParseAddr (id_Value id)
                 else Some (id_Value id)) with
          | None => mret (Some ErrPanic)
          | Some sni =>
              h ← call (NetHandshake connection sni);
              let err := match h with
                         | Err err => Some err
                         | Ok state => checkALPNProof state id (vq_KeyAuthorization request)
                         end in
              mret match err with
                   | None => None
                   | Some err =>
                       Some (retryable ErrorTLS "TLS handshake with the validation destination failed"
                               (ErrWrap "challenge: TLS validation: " err))
                   end
          end
      end
  end.

End Validators.
