(* ===== verification/Tkauth.v ===== *)
(** * The Authority Token validator (src/challenge/tkauth.go)

    Every check of a tkauth-01 response: the request, the compact token, the certificate of its
    authority, the signature and the claims, and the grant of an accepted token. *)

From S2P Require Import Prelude Status Problem Resource Base64 Netip StoreSpec Prog Host Platform Identifier Jws Compact Network Validators.

(** The bound of this package, named apart from the one of the response parser. *)
Definition challenge_maxAuthorityTokenLength : Z := Z.shiftl 16 10.
Definition maxTokenNames : nat := 100.

(** ** Documents *)

(** The atc claim of RFC 9447 section 4 with the NF profile parameters. *)
Record atcClaimJSON : Type := mkAtcClaim {
  atc_TokenType : string;
  atc_TokenValue : string;
  atc_CA : bool;
  atc_Fingerprint : string;
  atc_NFType : option string;
  atc_Names : option (list string)
}.

(** The Authority Token payload of RFC 9448 section 5; numbers are 64-bit integers. *)
Record authorityTokenJSON : Type := mkAuthorityToken {
  tok_Issuer : string;
  tok_Expires : option Z;
  tok_NotBefore : option Z;
  tok_TokenID : string;
  tok_ATC : option atcClaimJSON
}.

(** [UnmarshalStrict] (Json.v) into it, and [strings.TrimSpace] on a string with bytes above 0x7f. *)
Class TokenJSON : Type := {
  json_authorityToken : bytes → Res authorityTokenJSON;
  strings_TrimSpace : string → string
}.

(** ** Time *)

(** The seconds from January 1 of year 1 to the Unix epoch, added with wrap-around. *)
Definition unixToInternal : Z := 62135596800.
Definition time_Unix (sec : Z) : Time := (i64 (sec + unixToInternal) * Second)%Z.

(** [Time.Add], whose seconds stop short of the ends of the 64-bit range instead of wrapping. *)
Definition time_Add (t : Time) (d : Duration) : Time :=
  let sec := ((t + d) `div` Second)%Z in
  let sec := if (2 ^ 63 <=? sec)%Z then (2 ^ 63 - 1)%Z
             else if (sec <? - 2 ^ 63)%Z then (- (2 ^ 63 - 1))%Z
             else sec in
  (sec * Second + (t + d) `mod` Second)%Z.

(** ** Strings *)

(** [hex.DecodeString]. *)
Fixpoint hexDecode (s : list Z) : option bytes :=
  match s with
  | [] => Some []
  | h :: l :: s =>
      h ← hexValue h; l ← hexValue l; b ← hexDecode s; Some (zb (h * 16 + l) :: b)
  | [_] => None
  end.

Definition isSpace (c : Z) : bool := (c =? 32)%Z || ((9 <=? c)%Z && (c <=? 13)%Z).

Fixpoint dropSpaces (s : list Z) : list Z :=
  match s with
  | c :: s' => if isSpace c then dropSpaces s' else s
  | [] => []
  end.

(** ** Comparisons *)

(** Decodes an authority list from any of the base64 forms a Token Authority may emit. *)
Definition decodeAuthorityList (value : string) : option bytes :=
  match DecodeString RawURLEncoding value with
  | Some der => Some der
  | None =>
      match DecodeString URLEncoding value with
      | Some der => Some der
      | None =>
          match DecodeString RawStdEncoding value with
          | Some der => Some der
          | None => DecodeString StdEncoding value
          end
      end
  end.

(** Reports whether two base64 encodings carry the same authority list. *)
Definition sameAuthorityList (tkvalue identifier : string) : bool :=
  match decode identifier, decodeAuthorityList tkvalue with
  | Some want, Some got => got == want
  | _, _ => false
  end.

Section Tkauth.
Context `{Platform} `{CompactJSON} `{TokenJSON}.

Definition TrimSpace (s : string) : string :=
  if isASCII s then text (rev (dropSpaces (rev (dropSpaces (codes s))))) else strings_TrimSpace s.

(** Reports whether an atc fingerprint identifies the account key: the thumbprint itself or the
    hexadecimal form of the same digest. *)
Definition matchesAccountKey (fingerprint thumbprint : string) : bool :=
  if (fingerprint == thumbprint) then true
  else match decode thumbprint, Cut 32 fingerprint with
  | Some digest, (algorithm, Some value) =>
      if negb (EqualFold algorithm "SHA256") then false
      else match hexDecode (filter (λ c, c ≠ 58%Z) (codes (TrimSpace value))) with
      | Some got => got == digest
      | None => false
      end
  | _, _ => false
  end.

(** Reports whether a token value names the NF instance of a normalized identifier. *)
Definition sameNfInstance (tkvalue identifier : string) : bool :=
  match Normalize (mkIdentifier IdentifierNfInstanceID tkvalue) with
  | Ok id => id_Value id == identifier
  | Err _ => false
  end.

(** ** Configuration *)

(** [tk_Authorities] tells whether a trust source was given; the clock is a call. *)
Record TKAuthOptions : Type := mkTKAuthOptions { tk_Authorities : bool; tk_ClockSkew : Duration }.
Record TKAuth01 : Type := mkTKAuth01 { tk_skew : Duration }.

Definition NewTKAuth01 (options : TKAuthOptions) : Res TKAuth01 :=
  if negb (tk_Authorities options) || (tk_ClockSkew options <? 0)%Z
  then Err (ErrMsg "challenge: token authorities are required and the clock skew must not be negative")
  else Ok (mkTKAuth01 (if (tk_ClockSkew options =? 0)%Z then Minute else tk_ClockSkew options)).

(** ** The steps of a validation *)

(** Checks identifier scope and the captured proof before the token is parsed. *)
Definition checkTKAuthRequest (req : ValidationRequest) : Res Identifier :=
  try id := Normalize (vq_Identifier req) in
  let token := ch_Token (vq_Challenge req) in
  let thumbprint := vq_AccountKeyThumbprint req in
  if (ch_Type (vq_Challenge req) != ChallengeTKAuth01) || vq_Wildcard req ||
     ((id_Type id != IdentifierTNAuthList) && (id_Type id != IdentifierNfInstanceID))
  then Err (incorrect "identifier does not support this challenge")
  else if (String.length token <? 22)%nat || (256 <? String.length token)%nat || negb (base64URL token) ||
          negb (String.length thumbprint =? 43)%nat || negb (base64URL thumbprint) ||
          (vq_KeyAuthorization req != token +:+ "." +:+ thumbprint)
  then Err (incorrect "invalid captured key authorization")
  else if (vq_AuthorityToken req == "") || 
          (challenge_maxAuthorityTokenLength <? Z.of_nat (String.length (vq_AuthorityToken req)))%Z
  then Err (incorrect "the authority token is missing or too large")
  else Ok id.

(** Decodes the token payload and checks that the mandatory claims are present and well formed. *)
Definition parseAuthorityToken (payload : bytes) : Res authorityTokenJSON :=
  match json_authorityToken payload with
  | Err _ => Err (incorrect "the authority token payload is not a valid claim set")
  | Ok claims =>
      if (tok_Expires claims == None) then Err (incorrect "the authority token has no exp claim")
      else if (tok_TokenID claims == "") then Err (incorrect "the authority token has no jti claim")
      else match tok_ATC claims with
      | None => Err (incorrect "the authority token has no atc claim")
      | Some atc =>
          if (atc_TokenType atc == "") || (atc_TokenValue atc == "") || (atc_Fingerprint atc == "")
          then Err (incorrect "the atc claim is missing a mandatory key")
          else Ok claims
      end
  end.

(** Builds the Token Authority reference of a token and rejects a header that names none. *)
Definition authorityRef (header : CompactHeader) (issuer : string) : Res TokenAuthorityRef :=
  if (cm_X5U header != "") then
    let refused := Err (incorrect "the authority token x5u is not an https URL") in
    match url_Parse (cm_X5U header) with
    | Err _ => refused
    | Ok target =>
        if (url_Scheme target != "https") || (url_Host target == "") || url_User target then refused
        else Ok (mkTokenAuthorityRef (cm_X5U header) [] issuer (cm_KeyID header))
    end
  else if (cm_X5C header != [])
  then Ok (mkTokenAuthorityRef "" (cm_X5C header) issuer (cm_KeyID header))
  else Err (incorrect "the authority token names no token authority certificate").

(** Checks the claims of a verified token against the challenge identifier and the account key. *)
Definition checkClaims (v : TKAuth01) (claims : authorityTokenJSON) (id : Identifier) (thumbprint : string)
    (now : Time) : option error :=
  match tok_ATC claims with
  | None => Some ErrPanic
  | Some atc =>
      if negb (EqualFold (atc_TokenType atc) (IdentifierType_string (id_Type id)))
      then Some (incorrect "the authority token attests another identifier type")
      else if (id_Type id == IdentifierTNAuthList) && negb (sameAuthorityList (atc_TokenValue atc) (id_Value id))
      then Some (incorrect "the authority token attests another authority list")
      else if (id_Type id == IdentifierNfInstanceID) && negb (sameNfInstance (atc_TokenValue atc) (id_Value id))
      then Some (incorrect "the authority token attests another NF instance")
      else match tok_Expires claims with
      | None => Some ErrPanic
      | Some expires =>
          if After now (time_Add (time_Unix expires) (tk_skew v))
          then Some (incorrect "the authority token has expired")
          else if match tok_NotBefore claims with
                  | Some notBefore => Before now (time_Add (time_Unix notBefore) (- tk_skew v))
                  | None => false
                  end
          then Some (incorrect "the authority token is not valid yet")
          else if negb (matchesAccountKey (atc_Fingerprint atc) thumbprint)
          then Some (incorrect "the authority token is bound to another account key")
          else None
      end
  end.

(** Classifies and normalizes one sans entry of an NF token. *)
Definition tokenName (raw : string) : Res Identifier :=
  if HasPrefix "urn:uuid:" (ToLower raw)
  then Normalize (mkIdentifier IdentifierNfInstanceID (tail_from 9 raw))
  else if containsCodes (codes "://") (codes raw) then Normalize (mkIdentifier IdentifierURI raw)
  else if ParseAddr raw is Some _ then Normalize (mkIdentifier IdentifierIP raw)
  else Normalize (mkIdentifier IdentifierDNS raw).

(** The loop over the sans entries; [names] are the names gathered so far. *)
Fixpoint nfNames (raws : list string) (instance : Identifier) (names : list Identifier)
    : Res (list Identifier) :=
  match raws with
  | [] => Ok names
  | raw :: raws =>
      match tokenName raw with
      | Err _ =>
          Err (incorrect ("the authority token sans entry " +:+ strconv_Quote raw +:+ " is not a supported name"))
      | Ok id =>
          if (id_Type id == IdentifierNfInstanceID) && (id != instance)
          then Err (incorrect "the authority token sans name another NF instance")
          else if (id != instance) && negb (bool_decide (id ∈ names))
          then nfNames raws instance (names ++ [id])
          else nfNames raws instance names
      end
  end.

(** Returns the names and NF type an NF Certificate Authority Token grants beyond its instance. *)
Definition nfGrant (atc : atcClaimJSON) (instance : Identifier) : Res (list Identifier * string) :=
  if match atc_NFType atc with Some t => negb (ValidNFType t) | None => false end
  then Err (incorrect "the authority token nftype is not an RFC 9310 NF type")
  else
    let nfType := default "" (atc_NFType atc) in
    match atc_Names atc with
    | None => Ok ([], nfType)
    | Some raws =>
        if (maxTokenNames <? length raws)%nat
        then Err (incorrect "the authority token sans list is too long")
        else try names := nfNames raws instance [] in Ok (names, nfType)
    end.

(** ** Validation *)

(** The grant of a token whose signature and claims were accepted. *)
Definition tokenGrant (claims : authorityTokenJSON) (id : Identifier) : Res ValidationGrant :=
  match tok_Expires claims, tok_ATC claims with
  | Some expires, Some atc =>
      if (id_Type id == IdentifierNfInstanceID) then
        try granted := nfGrant atc id in
        Ok (mkValidationGrant false (time_Unix expires) granted.1 granted.2)
      else Ok (mkValidationGrant (atc_CA atc) (time_Unix expires) [] "")
  | _, _ => Err ErrPanic
  end.

(** Performs the token checks an ACME server owns at response time. A grant that comes with an
    error is the error alone. *)
Definition ValidateGrant (v : TKAuth01) (request : ValidationRequest) : Net (Res ValidationGrant) :=
  match checkTKAuthRequest request with
  | Err err => mret (Err err)
  | Ok id =>
      match ParseCompact (vq_AuthorityToken request) with
      | Err _ => mret (Err (incorrect "authority token is not a supported JWT"))
      | Ok token =>
          match (try claims := parseAuthorityToken (cmsg_Payload token) in
                 try ref := authorityRef (cmsg_Header token) (tok_Issuer claims) in
                 Ok (claims, ref)) with
          | Err err => mret (Err err)
          | Ok (claims, ref) =>
              r ← call (NetAuthority ref);
              match r with
              | Err err => mret (Err err)
              | Ok None => mret (Err (ErrMsg "challenge: the token authority source returned no certificate"))
              | Ok (Some certificate) =>
                  now ← call NetNow;
                  mret
                    (if Before now (x_NotBefore certificate) || After now (x_NotAfter certificate)
                     then Err (incorrect "the token authority certificate is not valid at this time")
                     else match CompactVerify token (x_PublicKey certificate) with
                     | Some _ => Err (incorrect "authority token signature is invalid")
                     | None =>
                         match checkClaims v claims id (vq_AccountKeyThumbprint request) now with
                         | Some err => Err err
                         | None => tokenGrant claims id
                         end
                     end)
              end
          end
      end
  end.

(** Checks the response and discards what it authorizes. *)
Definition TKAuth01_Validate (v : TKAuth01) (request : ValidationRequest) : Net (option error) :=
  r ← ValidateGrant v request; mret match r with Ok _ => None | Err err => Some err end.

End Tkauth.

(** ** A fixed trust source *)

(** Certificates by x5u URL, and those accepted as the leaf of an x5c chain; an entry may be a
    missing certificate. *)
Record StaticTokenAuthorities : Type := mkStaticTokenAuthorities {
  sta_ByURL : gmap string (option X509Certificate);
  sta_Certificates : list (option X509Certificate)
}.

Fixpoint matchLeaf (certificates : list (option X509Certificate)) (chain : list bytes)
    : Res (option X509Certificate) :=
  match certificates with
  | [] => Err (incorrect "the token authority certificate is not trusted")
  | certificate :: certificates =>
      match chain, certificate with
      | [], _ => matchLeaf certificates chain
      | _ :: _, None => Err ErrPanic
      | leaf :: _, Some cert =>
          if (x_Raw cert == leaf) then Ok certificate else matchLeaf certificates chain
      end
  end.

(** Returns the configured certificate that a token reference names. *)
Definition AuthorityCertificate (a : StaticTokenAuthorities) (ref : TokenAuthorityRef)
    : Res (option X509Certificate) :=
  if (ref_URL ref != "") then
    match sta_ByURL a !! ref_URL ref with
    | Some (Some certificate) => Ok (Some certificate)
    | _ => Err (incorrect "the token authority URL is not trusted")
    end
  else matchLeaf (sta_Certificates a) (ref_Chain ref).
