(* ===== verification/ChainProps.v ===== *)
(** * What accepted chains and certificate requests satisfy

    [checkChain] and [checkCSR] as sets of conditions instead of sequences of early returns. *)

From S2P Require Import Prelude Status Problem Resource Base64 Netip StoreSpec Prog Host Platform Tnauthlist Identifier Slhdsa Jws Chain.

(** ** The conditions *)

(** The authority tokens of an order's dispatch: the names they grant and their earliest expiry. *)
Definition order_granted (o : Order) : list Identifier :=
  match ord_Issuance o with Some st => grantedNames (is_Validations st) | None => [] end.
Definition order_bound (o : Order) : Time :=
  match ord_Issuance o with Some st => grantExpiry (is_Validations st) | None => zeroTime end.

Record validity_ok (leaf : X509Certificate) (o : Order) (now : Time) : Prop := {
  val_unexpired : (now < x_NotAfter leaf)%Z;
  val_nonempty : (x_NotBefore leaf < x_NotAfter leaf)%Z;
  val_start : (TruncateSecond (ord_NotBefore o) ≤ x_NotBefore leaf)%Z;
  val_started : (x_NotBefore leaf ≤ now ∨ x_NotBefore leaf ≤ TruncateSecond (ord_NotBefore o))%Z;
  val_token : order_bound o ≠ zeroTime → (x_NotAfter leaf ≤ order_bound o)%Z;
  val_requested : issuedNotAfter o ≠ zeroTime → (x_NotAfter leaf ≤ TruncateSecond (issuedNotAfter o))%Z
}.

Definition covers (names order granted : list Identifier) : Prop :=
  order ⊆ names ∧ ∀ id, id ∈ names → id ∈ order ∨ id ∈ granted.

Section Conditions.
Context `{Platform}.

(** Whether a request asks for a CA certificate: what its only basic constraints extension says,
    and no when it has none. *)
Definition requestsCA (csr : CertificateRequest) (isCA : bool) : Prop :=
  match filter (λ e, ext_Id e = basicConstraintsOID) (csr_Extensions csr) with
  | [] => isCA = false
  | [e] => ∃ value, asn1_UnmarshalBasicConstraints (ext_Value e) (mkBasicConstraints false (-1)) = Ok (value, []) ∧
                    bc_IsCA value = isCA
  | _ => False
  end.

(** An end-entity certificate, unless the order is for an authority list, where the request says
    which it is. *)
Definition ca_ok (leaf : X509Certificate) (csr : CertificateRequest) (o : Order) : Prop :=
  if decide (Exists (λ id, id_Type id = IdentifierTNAuthList) (ord_Identifiers o))
  then requestsCA csr (x_IsCA leaf) else x_IsCA leaf = false.

(** The names a request or certificate carries: authority lists, the three kinds of alternative
    names, and the common name. *)
Inductive subjectName : Type :=
| NameTN (value : bytes)
| NameDNS (name : string)
| NameIP (ip : bytes)
| NameURI (uri : string)
| NameCN (name : string).

(** The identifier a name stands for, and its normal form. *)
Definition rawName (n : subjectName) : Res Identifier :=
  match n with
  | NameTN value =>
      if checkTNAuthList value is Some err then Err err else Ok (mkIdentifier IdentifierTNAuthList (encode value))
  | NameDNS name => Ok (mkIdentifier IdentifierDNS name)
  | NameIP ip => Ok (mkIdentifier IdentifierIP (netIP_String ip))
  | NameURI uri => uriNameIdentifier uri
  | NameCN name => Ok (mkIdentifier (if ParseAddr name is Some _ then IdentifierIP else IdentifierDNS) name)
  end.

Definition normalName (n : subjectName) (id : Identifier) : Prop :=
  ∃ raw, rawName n = Ok raw ∧ Normalize raw = Ok id.

(** The common name is no identity beside an authority list alone or a network function instance. *)
Definition isInstance (n : subjectName) : bool :=
  if n is NameURI uri then if uriNameIdentifier uri is Ok id then id_Type id == IdentifierNfInstanceID else false else false.
Definition exempt (names : list subjectName) : bool :=
  match names with [NameTN _] => true | _ => existsb isInstance names end.

Definition tnValues (extensions : list Extension) : list bytes :=
  map ext_Value (filter (λ e, ext_Id e = tnAuthListOID) extensions).

(** The names of a request. *)
Definition csrSANs (csr : CertificateRequest) : list subjectName :=
  map NameTN (tnValues (csr_Extensions csr)) ++ map NameDNS (csr_DNSNames csr) ++
  map NameIP (csr_IPAddresses csr) ++ map NameURI (csr_URIs csr).
Definition csrNames (csr : CertificateRequest) : list subjectName :=
  csrSANs csr ++ if (csr_CommonName csr != "") && negb (exempt (csrSANs csr)) then [NameCN (csr_CommonName csr)] else [].

(** The names of a certificate, without its common name. *)
Definition leafSANs (leaf : X509Certificate) : list subjectName :=
  map NameTN (tnValues (x_Extensions leaf)) ++ map NameURI (x_URIs leaf) ++
  map NameDNS (x_DNSNames leaf) ++ map NameIP (x_IPAddresses leaf).

(** No alternative names but DNS names, URIs and addresses. *)
Definition san_ok (extensions : list Extension) : Prop :=
  ∀ e, e ∈ extensions → ext_Id e = subjectAltNameOID →
    ∃ names, asn1_UnmarshalNames (ext_Value e) = Ok (names, []) ∧
      ∀ name, name ∈ names → raw_Class name = ClassContextSpecific ∧ raw_IsCompound name = false ∧
        raw_Tag name ∈ [2; 6; 7]%Z.

(** Every name of the request is acceptable and is one the order or an authority token names, and
    every identifier of the order is among them. *)
Record csr_names_ok (csr : CertificateRequest) (o : Order) (granted : list Identifier) : Prop := {
  cn_forms : san_ok (csr_Extensions csr);
  cn_lists : (length (tnValues (csr_Extensions csr)) ≤ 1)%nat;
  cn_some : csrNames csr ≠ [];
  cn_names : ∃ ids, Forall2 normalName (csrNames csr) ids ∧ covers ids (ord_Identifiers o) granted
}.

(** The same of a certificate, whose names are distinct and include its common name. *)
Record leaf_names_ok (leaf : X509Certificate) (o : Order) (granted : list Identifier) : Prop := {
  ln_forms : san_ok (x_Extensions leaf);
  ln_lists : (length (tnValues (x_Extensions leaf)) ≤ 1)%nat;
  ln_addresses : Forall (λ ip, is_Some (AddrFromSlice ip)) (x_IPAddresses leaf);
  ln_some : leafSANs leaf ≠ [];
  ln_names : ∃ ids, Forall2 normalName (leafSANs leaf) ids ∧ NoDup ids ∧ covers ids (ord_Identifiers o) granted ∧
    (x_CommonName leaf = "" ∨ exempt (leafSANs leaf) = true ∨
     ∃ cn, normalName (NameCN (x_CommonName leaf)) cn ∧ (cn ∈ ids ∨ id_Value cn = ""))
}.

(** A key the server issues for. *)
Definition key_ok (key : CertKey) : Prop :=
  match key with
  | CertKeyPKIX (KeyRSA n _) => (2 ^ 2047 ≤ Z.abs n < 2 ^ 4096)%Z
  | CertKeyPKIX (KeyECDSA curve _ _) => curve ∈ [P256; P384; P521]
  | CertKeyPKIX (KeyEd25519 _) | CertKeyMLDSA _ | CertKeyComposite _ | CertKeySLHDSA _ => True
  | CertKeyPKIX (KeyOther _) => False
  end.

(** The key of a request, read as an SLH-DSA key where it is one. *)
Definition csr_key (csr : CertificateRequest) (key : CertKey) : Prop :=
  let spki := csr_RawSubjectPublicKeyInfo csr in
  (∃ k, slhdsaspki_Parse spki = Ok (Some k) ∧ key = CertKeySLHDSA k) ∨
  slhdsaspki_Parse spki = Ok None ∧ composite_ParsePKIXPublicKey spki = Ok key.

(** The request is signed with its key. An SLH-DSA signature names the parameter set of the key and
    has no parameters. *)
Definition csr_signed (csr : CertificateRequest) : Prop :=
  match readSLHDSA <$> afterTBS (csr_Raw csr) with
  | None => False
  | Some None => composite_CheckCertificateRequestSignature csr = None
  | Some (Some (id, absent, _)) =>
      absent = true ∧ ∃ k, slhdsaspki_Parse (csr_RawSubjectPublicKeyInfo csr) = Ok (Some k) ∧ slh_ID k = id ∧
        slhdsa_Verify k (csr_RawTBSCertificateRequest csr) (csr_Signature csr) = true
  end.

(** The key is not the account's. SLH-DSA keys sign no JWS. *)
Definition csr_fresh (account : Account) (key : CertKey) : Prop :=
  (∃ k, key = CertKeySLHDSA k) ∨
  ∃ accountKey csrKey, x509_MarshalPKIXPublicKey (acct_Key account) = Ok accountKey ∧
    composite_MarshalPKIXPublicKey key = Ok csrKey ∧ csrKey ≠ accountKey.

Definition links_ok (certs : list X509Certificate) : Prop :=
  ∀ i cert parent, certs !! i = Some cert → certs !! S i = Some parent →
    checkSignatureFrom cert parent = None.

Record chain_ok (chain : list bytes) (csr : CertificateRequest) (o : Order) (now : Time)
    (leaf : X509Certificate) : Prop := {
  chain_parsed : ∃ rest, Forall2 (λ der cert, x509_ParseCertificate der = Ok cert) chain (leaf :: rest) ∧
                         links_ok (leaf :: rest);
  chain_key : x_RawSubjectPublicKeyInfo leaf = csr_RawSubjectPublicKeyInfo csr;
  chain_validity : validity_ok leaf o now;
  chain_names : leaf_names_ok leaf o (order_granted o);
  chain_ca : ca_ok leaf csr o
}.

(** ** The checks decide them *)

Lemma coversIdentifiers_spec names order granted :
  coversIdentifiers names order granted = true ↔ covers names order granted.
Proof.
  unfold coversIdentifiers, covers. rewrite andb_true_iff, !forallb_forall. f_equiv.
  - split; intros Hall id Hin.
    + apply (bool_decide_eq_true_1 (id ∈ names)). apply Hall. by apply list_elem_of_In.
    + apply bool_decide_eq_true. by apply Hall, list_elem_of_In.
  - apply forall_proper. intros id. by rewrite <-list_elem_of_In, orb_true_iff, !bool_decide_eq_true.
Qed.

Lemma parseChain_spec i chain certs :
  parseChain i chain = Ok certs ↔ Forall2 (λ der cert, x509_ParseCertificate der = Ok cert) chain certs.
Proof.
  revert i certs. induction chain as [|der chain IH]; intros i certs; simpl.
  { split; [intros [= <-]; constructor|intros Hnil; by inv Hnil]. }
  split.
  - destruct (x509_ParseCertificate der) as [cert|err] eqn:Hder; [|done].
    destruct (parseChain (S i) chain) as [certs'|err] eqn:Hrest; [|done].
    intros [= <-]. constructor; [done|]. by apply (IH (S i)).
  - intros Hall. inv Hall. case_match; simplify_eq. by rewrite (proj2 (IH (S i) _)) by done.
Qed.

Lemma checkLinks_spec i certs : checkLinks i certs = None ↔ links_ok certs.
Proof.
  revert i. induction certs as [|cert certs IH]; intros i; [done|].
  destruct certs as [|parent certs].
  { split; [|done]. intros _ j c p Hc Hp. by destruct j. }
  change (checkLinks i (cert :: parent :: certs)) with
    (match checkSignatureFrom cert parent with
     | Some err => Some (ErrWrap ("chain element " +:+ pretty i +:+ " is not signed by element " +:+
                                   pretty (S i) +:+ ": ") err)
     | None => checkLinks (S i) (parent :: certs)
     end).
  split.
  - destruct (checkSignatureFrom cert parent) eqn:Hsig; [done|]. intros Hrest.
    apply (IH (S i)) in Hrest. intros [|j] c p Hc Hp; [naive_solver|by eapply Hrest].
  - intros Hall. rewrite (Hall 0%nat cert parent) by done. apply (IH (S i)).
    intros j c p Hc Hp. by eapply (Hall (S j)).
Qed.

Lemma checkValidity_spec leaf o now : checkValidity leaf o now = None ↔ validity_ok leaf o now.
Proof.
  unfold checkValidity. fold (order_bound o). cbv zeta. split.
  - intros Hnone. repeat (case_match; [done|]). go_bool. destruct_or!; go_bool; split; unfold zeroTime; lia.
  - intros [H1 H2 H3 H4 H5 H6]. unfold zeroTime in *. repeat case_match; go_bool; destruct_or?; go_bool; done || lia.
Qed.

Lemma basicConstraintsLoop_spec extensions found value isCA :
  basicConstraintsLoop extensions found value = Ok isCA ↔
  match filter (λ e, ext_Id e = basicConstraintsOID) extensions with
  | [] => bc_IsCA value = isCA
  | [e] => found = false ∧ ∃ value', asn1_UnmarshalBasicConstraints (ext_Value e) value = Ok (value', []) ∧ bc_IsCA value' = isCA
  | _ => False
  end.
Proof.
  revert found value. induction extensions as [|e extensions IH]; intros found value; simpl; [naive_solver|].
  destruct (decide (ext_Id e = basicConstraintsOID)) as [He|He].
  - rewrite filter_cons_True, bool_decide_eq_true_2 by done. simpl. destruct found; [case_match; naive_solver|].
    destruct (asn1_UnmarshalBasicConstraints _ _) as [[value' [|b rest]]|err] eqn:Hu.
    + rewrite (IH true value'). clear IH. destruct (filter _ extensions) as [|e1 [|e2 l]]; naive_solver.
    + clear IH. destruct (filter _ extensions); naive_solver.
    + clear IH. destruct (filter _ extensions); naive_solver.
  - rewrite filter_cons_False, bool_decide_eq_false_2 by done. simpl. apply IH.
Qed.

Lemma csrCACertificate_spec csr isCA : csrCACertificate (csr_Extensions csr) = Ok isCA ↔ requestsCA csr isCA.
Proof.
  unfold csrCACertificate, requestsCA. rewrite basicConstraintsLoop_spec. by repeat case_match; naive_solver.
Qed.

Lemma checkLeafCACertificate_spec leaf csr o : checkLeafCACertificate leaf csr o = None ↔ ca_ok leaf csr o.
Proof.
  unfold checkLeafCACertificate, ca_ok.
  assert (existsb (λ id, id_Type id == IdentifierTNAuthList) (ord_Identifiers o) = true ↔
          Exists (λ id, id_Type id = IdentifierTNAuthList) (ord_Identifiers o)) as Hex.
  { rewrite existsb_exists, Exists_exists. f_equiv. intros id.
    by rewrite list_elem_of_In, bool_decide_eq_true. }
  case_decide as Hd.
  - rewrite (proj2 Hex Hd), <- csrCACertificate_spec. simpl. destruct (csrCACertificate _) as [b|err]; [|done].
    case_match; go_bool; naive_solver.
  - destruct (existsb _ _); [naive_solver|]. simpl. by destruct (x_IsCA leaf).
Qed.

Lemma checkSANExtensions_spec extensions : checkSANExtensions extensions = None ↔ san_ok extensions.
Proof.
  assert (∀ name, supportedName name = true ↔ raw_Class name = ClassContextSpecific ∧ raw_IsCompound name = false ∧
    raw_Tag name ∈ [2; 6; 7]%Z) as Hname.
  { intros name. unfold supportedName. rewrite !elem_of_cons, elem_of_nil. destruct (raw_IsCompound name); simpl;
      repeat case_bool_decide; simpl; naive_solver. }
  induction extensions as [|e extensions IH]; simpl; [split; [|done]; by intros _ e He%elem_of_nil|].
  assert (san_ok (e :: extensions) ↔ (ext_Id e = subjectAltNameOID → ∃ names,
    asn1_UnmarshalNames (ext_Value e) = Ok (names, []) ∧ forallb supportedName names = true) ∧ san_ok extensions) as ->.
  { unfold san_ok.
    assert (∀ names, forallb supportedName names = true ↔ ∀ name, name ∈ names → raw_Class name = ClassContextSpecific ∧
      raw_IsCompound name = false ∧ raw_Tag name ∈ [2; 6; 7]%Z) as Hall.
    { intros names. rewrite forallb_forall.
      split; intros Hall name Hin%list_elem_of_In; [by apply Hname, Hall|by apply Hname, Hall]. }
    setoid_rewrite Hall. split; [intros Hs; split; [intros He; apply Hs; [apply list_elem_of_here|done]|intros e' Hin; by apply Hs, list_elem_of_further]|].
    intros [Hs1 Hs2] e' [->|Hin]%elem_of_cons He; [by apply Hs1|by apply Hs2]. }
  case_bool_decide as He; simpl; [|rewrite IH; naive_solver].
  destruct (asn1_UnmarshalNames (ext_Value e)) as [[names [|b rest]]|err];
    [|split; [done|]; intros [Hs _]; by destruct (Hs He) as (? & [=] & _)..].
  destruct (forallb supportedName names) eqn:Hall; simpl.
  - rewrite IH. split; [|by intros [_ ?]]. intros ?. split; [by exists names|done].
  - split; [done|]. intros [Hs _]. destruct (Hs He) as (names' & [= <-] & Hall'). by rewrite Hall in Hall'.
Qed.

Lemma BitLen_bounds n : (MinRSABits ≤ BitLen n ≤ MaxRSABits)%Z ↔ (2 ^ 2047 ≤ Z.abs n < 2 ^ 4096)%Z.
Proof.
  unfold BitLen, MinRSABits, MaxRSABits. pose proof (Z.pow_pos_nonneg 2 2047 ltac:(lia) ltac:(lia)).
  destruct (Z.eqb_spec n 0) as [->|Hn]; [rewrite Z.abs_0; generalize dependent (2 ^ 2047)%Z; lia|].
  rewrite (Z.log2_le_pow2 (Z.abs n) 2047), (Z.log2_lt_pow2 (Z.abs n) 4096) by lia.
  generalize (Z.log2 (Z.abs n)). lia.
Qed.

Lemma checkCSRKey_spec key : checkCSRKey key = None ↔ key_ok key.
Proof.
  destruct key as [[[]| | |]| | |]; simpl; try done; try (rewrite !elem_of_cons, elem_of_nil; naive_solver).
  rewrite <- BitLen_bounds. destruct (Z.ltb_spec (BitLen n) MinRSABits), (Z.ltb_spec MaxRSABits (BitLen n)); simpl;
    (split; [done || lia|done || lia]).
Qed.

Lemma parseCSRKey_spec csr key : parseCSRKey (csr_RawSubjectPublicKeyInfo csr) = Ok key ↔ csr_key csr key.
Proof.
  unfold parseCSRKey, csr_key. destruct (slhdsaspki_Parse _) as [[k|]|err]; split.
  - intros [= <-]. left. by exists k.
  - by intros [(k' & [= ->] & ->)|[[=] _]].
  - by right.
  - by intros [(k' & [=] & _)|[_ ?]].
  - done.
  - by intros [(k' & [=] & _)|[[=] _]].
Qed.

Lemma checkCSRSignature_spec csr : checkCSRSignature csr = None ↔ csr_signed csr.
Proof.
  unfold checkCSRSignature, csr_signed. destruct (afterTBS _) as [algorithm|]; [|done]. simpl.
  destruct (readSLHDSA algorithm) as [[[id absent] rest]|]; [|done].
  destruct absent; simpl; [|by split; [|intros [? _]]].
  destruct (slhdsaspki_Parse _) as [[k|]|err]; [|by split; [|intros (_ & ? & [=] & _)]..].
  case_bool_decide; simpl.
  - destruct (slhdsa_Verify _ _ _) eqn:Hv; simpl; split; try done; [by intros _; split; [|exists k]|].
    intros (_ & k' & [= <-] & _ & Hv'). by rewrite Hv in Hv'.
  - split; [done|]. by intros (_ & k' & [= <-] & ? & _).
Qed.

Lemma checkKeyReuse_spec key account : checkKeyReuse key account = None ↔ csr_fresh account key.
Proof. unfold checkKeyReuse, csr_fresh. repeat (case_match; go_bool; simplify_eq); naive_solver. Qed.

(** ** Names *)

(** The identifiers that names stand for. *)
Definition raws (names : list subjectName) (raw : list Identifier) : Prop := Forall2 (λ n id, rawName n = Ok id) names raw.

Lemma raws_app names1 names2 raw :
  raws (names1 ++ names2) raw ↔ ∃ raw1 raw2, raw = raw1 ++ raw2 ∧ raws names1 raw1 ∧ raws names2 raw2.
Proof.
  split; [intros (raw1 & raw2 & ? & ? & ->)%Forall2_app_inv_l; by exists raw1, raw2|].
  intros (raw1 & raw2 & -> & ? & ?). by apply Forall2_app.
Qed.

Lemma raws_map {A} (c : A → subjectName) (f : A → Identifier) l raw :
  (∀ a, rawName (c a) = Ok (f a)) → raws (map c l) raw ↔ raw = map f l.
Proof.
  intros Hc. split.
  - revert raw. induction l as [|a l IH]; intros raw Hraw; inv Hraw; [done|]. simpl. f_equal; [congruence|by apply IH].
  - intros ->. induction l; constructor; auto.
Qed.

Lemma tnAuthListExtension_spec extensions raw :
  (∃ tn, tnAuthListExtension extensions = Ok tn ∧ raw = option_list tn) ↔
  (length (tnValues extensions) ≤ 1)%nat ∧ raws (map NameTN (tnValues extensions)) raw.
Proof.
  unfold tnAuthListExtension, tnValues, raws. destruct (filter _ extensions) as [|e [|e' rest]]; simpl.
  - split; [intros (tn & [= <-] & ->); by split; [lia|]|]. intros [_ Hraw]. inv Hraw. by exists None.
  - destruct (checkTNAuthList (ext_Value e)) as [err|] eqn:Hcheck.
    + split; [naive_solver|]. intros [_ Hraw]. inv Hraw. simpl in *. by rewrite Hcheck in *.
    + split; [intros (tn & [= <-] & ->); split; [lia|]; repeat constructor; simpl; by rewrite Hcheck|].
      intros [_ Hraw]. inv Hraw. match goal with Hn : Forall2 _ [] _ |- _ => inv Hn end. simpl in *.
      rewrite Hcheck in *. simplify_eq. by eexists.
  - split; [naive_solver|lia].
Qed.

Lemma csrURIs_spec uris raw : csrURIs uris = Ok raw ↔ raws (map NameURI uris) raw.
Proof.
  revert raw. induction uris as [|uri uris IH]; intros raw; simpl.
  { split; [intros [= <-]; constructor|intros Hraw; by inv Hraw]. }
  split.
  - destruct (uriNameIdentifier uri) as [id|err] eqn:Hid; [|done]. destruct (csrURIs uris) as [ids|p] eqn:Hids; [|done].
    intros [= <-]. constructor; [done|]. by apply IH.
  - intros Hraw. inversion Hraw as [|? id ? ids Hid Hids]; subst. simpl in Hid. rewrite Hid.
    apply IH in Hids. by rewrite Hids.
Qed.

Lemma traverse_spec {A B} (f : A → Res B) l bs : traverse f l = Ok bs ↔ Forall2 (λ a b, f a = Ok b) l bs.
Proof.
  revert bs. induction l as [|a l IH]; intros bs; simpl.
  { split; [intros [= <-]; constructor|intros Hbs; by inv Hbs]. }
  split.
  - destruct (f a) as [b|err] eqn:Hb; [|done]. simpl. destruct (traverse f l) as [bs'|err] eqn:Hl; [|done].
    intros [= <-]. constructor; [done|]. by apply IH.
  - intros Hbs. inversion Hbs as [|? b ? bs' Hb Hl]; subst. rewrite Hb. simpl. apply IH in Hl. by rewrite Hl.
Qed.

Lemma uri_type uri id : uriNameIdentifier uri = Ok id → id_Type id = IdentifierNfInstanceID ∨ id_Type id = IdentifierURI.
Proof.
  unfold uriNameIdentifier, normalizeNfInstanceID, normalizeURI, refuse.
  repeat (case_match; try done); intros [= <-]; simpl; auto.
Qed.

Lemma Normalize_type id id' : Normalize id = Ok id' → id_Type id' = id_Type id.
Proof.
  unfold Normalize, normalizeDNS, normalizeIP, normalizeTNAuthList, normalizeNfInstanceID, normalizeURI, refuse.
  repeat (case_match; try done); intros [= <-]; done.
Qed.

Lemma rawName_types n id :
  rawName n = Ok id →
  (id_Type id = IdentifierTNAuthList ↔ ∃ value, n = NameTN value) ∧ (id_Type id == IdentifierNfInstanceID) = isInstance n.
Proof.
  destruct n as [value|name|ip|uri|name]; simpl.
  - case_match; [done|]. intros [= <-]. simpl. split; [by split; [eexists|]|done].
  - intros [= <-]. by split; [split; [|intros [? ?]]|].
  - intros [= <-]. by split; [split; [|intros [? ?]]|].
  - intros Huri. rewrite Huri. split; [|done].
    destruct (uri_type _ _ Huri) as [-> | ->]; by split; [|intros [? ?]].
  - intros [= <-]. by case_match; (split; [split; [|intros [? ?]]|]).
Qed.

Lemma commonNameExempt_raws names raw : raws names raw → commonNameExempt raw = exempt names.
Proof.
  intros Hraws. assert (existsb (λ id, id_Type id == IdentifierNfInstanceID) raw = existsb isInstance names) as Hex.
  { induction Hraws as [|n id names raw Hid _ IH]; simpl; [done|]. f_equal; [by apply rawName_types|done]. }
  unfold commonNameExempt. rewrite Hex. destruct Hraws as [|n id names raw Hid Hrest]; [done|].
  destruct (rawName_types _ _ Hid) as [Htn _].
  destruct Hrest as [|n' id' names raw Hid' Hrest]; [|by destruct n].
  simpl. rewrite orb_false_r. destruct (decide (id_Type id = IdentifierTNAuthList)) as [Ht|Ht].
  - rewrite Ht. destruct (proj1 Htn Ht) as [value ->]. done.
  - rewrite (bool_decide_eq_false_2 (Some (id_Type id) = _)) by congruence. simpl. destruct n; try done. by destruct Ht; apply Htn; eexists.
Qed.

Lemma commonNameExempt_types ids ids' : map id_Type ids = map id_Type ids' → commonNameExempt ids = commonNameExempt ids'.
Proof.
  intros Heq. unfold commonNameExempt. f_equal; [f_equal|].
  - by rewrite <- (length_map id_Type ids), Heq, length_map.
  - destruct ids, ids'; simplify_eq/=; [done|]. by match goal with Ht : id_Type _ = _ |- _ => rewrite Ht end.
  - revert ids' Heq. induction ids as [|id ids IH]; intros [|id' ids'] Heq; simplify_eq/=; [done|].
    f_equal; [by match goal with Ht : id_Type _ = _ |- _ => rewrite Ht end|auto].
Qed.

Lemma Forall2_normalName names ids :
  Forall2 normalName names ids ↔ ∃ raw, raws names raw ∧ Forall2 (λ r id, Normalize r = Ok id) raw ids.
Proof.
  split.
  - induction 1 as [|n id names ids (r & Hr & Hid) _ (raw & Hraw & Hids)]; [exists []; by repeat constructor|].
    exists (r :: raw). split; by constructor.
  - intros (raw & Hraw & Hids). revert ids Hids. induction Hraw as [|n r names raw Hr _ IH]; intros ids Hids; inv Hids; [done|].
    constructor; [by exists r|auto].
Qed.

Lemma exempt_normal names ids : Forall2 normalName names ids → commonNameExempt ids = exempt names.
Proof.
  intros (raw & Hraw & Hids)%Forall2_normalName. rewrite <- (commonNameExempt_raws _ _ Hraw). apply commonNameExempt_types.
  clear Hraw. induction Hids as [|r id raw ids Hid _ IH]; simpl; [done|]. f_equal; [by apply Normalize_type|done].
Qed.

Lemma covers_ext ids ids' order granted :
  (∀ id, id ∈ ids ↔ id ∈ ids') → covers ids order granted ↔ covers ids' order granted.
Proof. intros Heq. unfold covers. set_solver. Qed.

Lemma elem_of_kept (n : Identifier) acc ids id :
  id ∈ (if bool_decide (n ∈ acc) then acc else acc ++ [n]) ++ ids ↔ id ∈ acc ++ n :: ids.
Proof. case_bool_decide; set_solver. Qed.

(** The loop drops repeated identifiers only. *)
Lemma normalizeCSR_spec raw acc order granted :
  (∃ out, normalizeCSR raw acc = Ok out ∧ covers out order granted) ↔
  ∃ ids, Forall2 (λ r id, Normalize r = Ok id) raw ids ∧ covers (acc ++ ids) order granted.
Proof.
  revert acc. induction raw as [|r raw IH]; intros acc; simpl.
  { split; [intros (out & [= <-] & Hc); exists []; by rewrite app_nil_r|].
    intros (ids & Hids & Hc). inv Hids. rewrite app_nil_r in Hc. by exists acc. }
  destruct (Normalize r) as [n|err] eqn:Hn.
  - rewrite IH. split.
    + intros (ids & Hids & Hc). exists (n :: ids). split; [by constructor|]. eapply covers_ext; [|exact Hc].
      intros id. by rewrite elem_of_kept.
    + intros (ids & Hids & Hc). inversion Hids as [|? n' ? ids' Hn' Hids']; subst. assert (n' = n) as -> by congruence. exists ids'. split; [done|].
      eapply covers_ext; [|exact Hc]. intros id. apply elem_of_kept.
  - split; [by intros (out & [=] & _)|]. intros (ids & Hids & _). inversion Hids as [|? n' ? ids' Hn' Hids']; congruence.
Qed.

Lemma csrSANs_spec csr raw :
  (∃ tn uris, tnAuthListExtension (csr_Extensions csr) = Ok tn ∧ csrURIs (csr_URIs csr) = Ok uris ∧
     raw = option_list tn ++ map (mkIdentifier IdentifierDNS) (csr_DNSNames csr) ++
       map (λ ip, mkIdentifier IdentifierIP (netIP_String ip)) (csr_IPAddresses csr) ++ uris) ↔
  (length (tnValues (csr_Extensions csr)) ≤ 1)%nat ∧ raws (csrSANs csr) raw.
Proof.
  unfold csrSANs. rewrite raws_app. setoid_rewrite raws_app. setoid_rewrite raws_app. split.
  - intros (tn & uris & Htn & Huris & ->). apply csrURIs_spec in Huris.
    destruct (proj1 (tnAuthListExtension_spec (csr_Extensions csr) (option_list tn))) as [Hlen Hraw]; [by exists tn|].
    split; [done|]. eexists _, _. split; [reflexivity|]. split; [done|]. eexists _, _. split; [reflexivity|].
    split; [by apply (raws_map NameDNS (mkIdentifier IdentifierDNS))|]. eexists _, _. split; [reflexivity|]. split; [|done].
    by apply (raws_map NameIP (λ ip, mkIdentifier IdentifierIP (netIP_String ip))).
  - intros (Hlen & raw1 & ? & -> & Hraw1 & raw2 & ? & -> & Hraw2 & raw3 & raw4 & -> & Hraw3 & Hraw4).
    destruct (proj2 (tnAuthListExtension_spec (csr_Extensions csr) raw1)) as (tn & Htn & ->); [done|].
    apply (raws_map NameDNS (mkIdentifier IdentifierDNS)) in Hraw2 as ->; [|done].
    apply (raws_map NameIP (λ ip, mkIdentifier IdentifierIP (netIP_String ip))) in Hraw3 as ->; [|done].
    apply csrURIs_spec in Hraw4. by exists tn, raw4.
Qed.

Lemma csrNames_raws csr raw :
  raws (csrNames csr) raw ↔ ∃ raw0, raws (csrSANs csr) raw0 ∧
    raw = if (csr_CommonName csr != "") && negb (commonNameExempt raw0)
          then raw0 ++ [commonNameIdentifier (csr_CommonName csr)] else raw0.
Proof.
  unfold csrNames. rewrite raws_app. split.
  - intros (raw0 & raw1 & -> & Hraw0 & Hraw1). exists raw0. split; [done|].
    rewrite (commonNameExempt_raws _ _ Hraw0). case_match; [|inv Hraw1; by rewrite app_nil_r].
    f_equal. by apply (raws_map NameCN commonNameIdentifier [_]) in Hraw1.
  - intros (raw0 & Hraw0 & ->). rewrite (commonNameExempt_raws _ _ Hraw0).
    case_match; [exists raw0, [commonNameIdentifier (csr_CommonName csr)]|exists raw0, []; rewrite app_nil_r; by repeat constructor].
    split_and!; [done|done|]. by apply (raws_map NameCN commonNameIdentifier [_]).
Qed.

Lemma csrIdentifiers_spec csr order granted :
  (∃ requested, csrIdentifiers csr = Ok requested ∧ covers requested order granted) ↔
  (length (tnValues (csr_Extensions csr)) ≤ 1)%nat ∧ csrNames csr ≠ [] ∧
  ∃ ids, Forall2 normalName (csrNames csr) ids ∧ covers ids order granted.
Proof.
  unfold csrIdentifiers. split.
  - intros (requested & Hok & Hc). destruct (tnAuthListExtension _) as [tn|err] eqn:Htn; [|done].
    destruct (csrURIs _) as [uris|p] eqn:Huris; [|done]. cbn [result_bind] in Hok.
    destruct (proj1 (csrSANs_spec csr (option_list tn ++ map (mkIdentifier IdentifierDNS) (csr_DNSNames csr) ++
       map (λ ip, mkIdentifier IdentifierIP (netIP_String ip)) (csr_IPAddresses csr) ++ uris))) as [Hlen Hraw0]; [by exists tn, uris|].
    set (raw0 := option_list tn ++ _) in *.
    pose proof (proj2 (csrNames_raws csr _) (ex_intro _ raw0 (conj Hraw0 eq_refl))) as Hraw.
    set (raw := if _ && _ then raw0 ++ _ else raw0) in *. case_bool_decide as Hempty; [done|]. split; [done|]. split.
    { intros Hnil. rewrite Hnil in Hraw. by inv Hraw. }
    destruct (proj1 (normalizeCSR_spec raw [] order granted)) as (ids & Hids & Hc'); [by exists requested|].
    exists ids. split; [|done]. apply Forall2_normalName. by exists raw.
  - intros (Hlen & Hsome & ids & (raw & Hraw & Hids)%Forall2_normalName & Hc).
    apply csrNames_raws in Hraw as Hraw0. destruct Hraw0 as (raw0 & Hraw0 & Heq).
    destruct (proj2 (csrSANs_spec csr raw0)) as (tn & uris & -> & -> & Heq0); [done|]. cbn [result_bind].
    rewrite <- Heq0, <- Heq. rewrite bool_decide_eq_false_2; [|intros ->; inv Hraw; congruence].
    apply (normalizeCSR_spec raw []). by exists ids.
Qed.

Lemma normalizeLoop_spec raw seen out ids :
  normalizeLoop raw seen out = Ok ids ↔
  ∃ new, ids = out ++ new ∧ Forall2 (λ r id, Normalize r = Ok id) raw new ∧ NoDup new ∧ ∀ id, id ∈ new → id ∉ seen.
Proof.
  revert seen out. induction raw as [|r raw IH]; intros seen out; simpl.
  { split; [intros [= <-]; exists []; rewrite app_nil_r; split_and!; [done|done|constructor|by intros ? ?%elem_of_nil]|].
    intros (new & -> & Hnew & _). inv Hnew. by rewrite app_nil_r. }
  destruct (Normalize r) as [n|err] eqn:Hn;
    [|split; [done|]; intros (new & _ & Hnew & _); inversion Hnew; congruence].
  case_bool_decide as Hseen.
  { split; [done|]. intros (new & _ & Hnew & _ & Hfresh). inversion Hnew as [|? n' ? new' Hn' ?]; subst.
    assert (n' = n) as -> by congruence. destruct (Hfresh n); [apply list_elem_of_here|done]. }
  rewrite IH. split.
  - intros (new & -> & Hnew & Hnodup & Hfresh). exists (n :: new). rewrite <- app_assoc. split_and!; [done|by constructor| |].
    + constructor; [|done]. intros Hin. apply (Hfresh n Hin). set_solver.
    + intros id [->|Hin]%elem_of_cons; [done|]. specialize (Hfresh id Hin). set_solver.
  - intros (new & -> & Hnew & Hnodup & Hfresh). inversion Hnew as [|? n' ? new' Hn' Hnew']; subst.
    assert (n' = n) as -> by congruence. apply NoDup_cons in Hnodup as [Hnin Hnodup]. exists new'. rewrite <- app_assoc.
    split_and!; [done|done|done|]. intros id Hin. rewrite elem_of_union, elem_of_singleton. intros [->|Hs]; [done|].
    by apply (Hfresh id); [apply list_elem_of_further|].
Qed.

Lemma ipName_spec ips raw :
  Forall2 (λ ip id, ipName ip = Ok id) ips raw ↔
  Forall (λ ip, is_Some (AddrFromSlice ip)) ips ∧ raw = map (λ ip, mkIdentifier IdentifierIP (netIP_String ip)) ips.
Proof.
  revert raw. induction ips as [|ip ips IH]; intros raw.
  { split; [intros Hraw; by inv Hraw|by intros [_ ->]]. }
  split.
  - intros Hraw. inversion Hraw as [|? id ? raw' Hid Hraw']; subst. apply IH in Hraw' as [Hall ->].
    unfold ipName in Hid. destruct (AddrFromSlice ip) as [addr|] eqn:Ha; [|done]. injection Hid as <-.
    split; [by constructor|]. simpl. do 2 f_equal. unfold netIP_String. by rewrite Ha.
  - intros [Hall ->]. apply Forall_cons in Hall as [[addr Ha] Hall]. simpl. constructor; [|by apply IH].
    unfold ipName, netIP_String. by rewrite Ha.
Qed.

Lemma mapError_Ok {A} err (r : Res A) a : mapError err r = Ok a ↔ r = Ok a.
Proof. by destruct r. Qed.

Lemma raws_URI uris raw :
  raws (map NameURI uris) raw ↔ Forall2 (λ uri id, mapError (ErrMsg "unsupported URI SAN") (uriNameIdentifier uri) = Ok id) uris raw.
Proof.
  rewrite <- csrURIs_spec. revert raw. induction uris as [|uri uris IH]; intros raw; simpl.
  { split; [by intros [= <-]|intros Hraw; by inv Hraw]. }
  split.
  - destruct (uriNameIdentifier uri) as [id|] eqn:Hid; [|done]. destruct (csrURIs uris) as [ids|]; [|done].
    intros [= <-]. constructor; [by rewrite Hid|]. by apply IH.
  - intros Hraw. inversion Hraw as [|? id ? raw' Hid Hraw']; subst. apply mapError_Ok in Hid. rewrite Hid.
    apply IH in Hraw'. by rewrite Hraw'.
Qed.

Lemma leafSANs_spec leaf raw :
  (∃ tn uris ips, tnAuthListExtension (x_Extensions leaf) = Ok tn ∧
     traverse (λ uri, mapError (ErrMsg "unsupported URI SAN") (uriNameIdentifier uri)) (x_URIs leaf) = Ok uris ∧
     traverse ipName (x_IPAddresses leaf) = Ok ips ∧
     raw = option_list tn ++ uris ++ map (mkIdentifier IdentifierDNS) (x_DNSNames leaf) ++ ips) ↔
  (length (tnValues (x_Extensions leaf)) ≤ 1)%nat ∧ Forall (λ ip, is_Some (AddrFromSlice ip)) (x_IPAddresses leaf) ∧
  raws (leafSANs leaf) raw.
Proof.
  unfold leafSANs. rewrite raws_app. setoid_rewrite raws_app. setoid_rewrite raws_app. split.
  - intros (tn & uris & ips & Htn & Huris & Hips & ->).
    apply traverse_spec, raws_URI in Huris. apply traverse_spec, ipName_spec in Hips as [Hall ->].
    destruct (proj1 (tnAuthListExtension_spec (x_Extensions leaf) (option_list tn))) as [Hlen Hraw]; [by exists tn|].
    split; [done|]. split; [done|]. eexists _, _. split; [reflexivity|]. split; [done|]. eexists _, _. split; [reflexivity|].
    split; [done|]. eexists _, _. split; [reflexivity|].
    split; [by apply (raws_map NameDNS (mkIdentifier IdentifierDNS))|].
    by apply (raws_map NameIP (λ ip, mkIdentifier IdentifierIP (netIP_String ip))).
  - intros (Hlen & Hall & raw1 & ? & -> & Hraw1 & raw2 & ? & -> & Hraw2 & raw3 & raw4 & -> & Hraw3 & Hraw4).
    destruct (proj2 (tnAuthListExtension_spec (x_Extensions leaf) raw1)) as (tn & Htn & ->); [done|].
    apply (raws_map NameDNS (mkIdentifier IdentifierDNS)) in Hraw3 as ->; [|done].
    apply (raws_map NameIP (λ ip, mkIdentifier IdentifierIP (netIP_String ip))) in Hraw4; [|done].
    exists tn, raw2, raw4. split_and!; [done| | |done]; apply traverse_spec; [by apply raws_URI|by apply ipName_spec].
Qed.

Lemma certificateSANs_spec leaf ids :
  certificateSANs leaf = Ok ids ↔
  san_ok (x_Extensions leaf) ∧ (length (tnValues (x_Extensions leaf)) ≤ 1)%nat ∧
  Forall (λ ip, is_Some (AddrFromSlice ip)) (x_IPAddresses leaf) ∧ leafSANs leaf ≠ [] ∧
  Forall2 normalName (leafSANs leaf) ids ∧ NoDup ids.
Proof.
  unfold certificateSANs, NormalizeIdentifiers. rewrite <- checkSANExtensions_spec. split.
  - intros Hok. destruct (checkSANExtensions _) eqn:Hsan; [done|].
    destruct (tnAuthListExtension _) as [tn|] eqn:Htn; [|done]. cbn [result_bind] in Hok.
    destruct (traverse _ (x_URIs leaf)) as [uris|] eqn:Huris; [|done]. cbn [result_bind] in Hok.
    destruct (traverse ipName _) as [ips|] eqn:Hips; [|done]. cbn [result_bind] in Hok.
    destruct (proj1 (leafSANs_spec leaf _) (ex_intro _ tn (ex_intro _ uris (ex_intro _ ips
      (conj Htn (conj Huris (conj Hips eq_refl))))))) as (Hlen & Haddr & Hraw).
    set (raw := option_list tn ++ _) in *. destruct (normalizeLoop raw ∅ []) as [[|id ids']|] eqn:Hnorm; [done| |done].
    injection Hok as <-. apply normalizeLoop_spec in Hnorm as (new & Heq & Hnew & Hnodup & _). simpl in Heq. subst new.
    assert (Forall2 normalName (leafSANs leaf) (id :: ids')) as Hids by (apply Forall2_normalName; by exists raw).
    split_and!; try done. intros Hnil. rewrite Hnil in Hids. by inv Hids.
  - intros (-> & Hlen & Haddr & Hsome & Hids & Hnodup). apply Forall2_normalName in Hids as (raw & Hraw & Hids).
    destruct (proj2 (leafSANs_spec leaf raw)) as (tn & uris & ips & -> & -> & -> & Heq); [done|]. cbn [result_bind].
    rewrite <- Heq. rewrite (proj2 (normalizeLoop_spec raw ∅ [] ids)).
    + destruct ids; [|done]. apply Forall2_nil_inv_r in Hids as ->. by apply Forall2_nil_inv_r in Hraw.
    + exists ids. split_and!; [done|done|done|]. intros id _. apply not_elem_of_empty.
Qed.

Lemma certificateCommonName_spec leaf ids :
  Forall2 normalName (leafSANs leaf) ids →
  certificateCommonName leaf ids =
    if (x_CommonName leaf == "") || exempt (leafSANs leaf) then Ok None
    else try cn := Normalize (commonNameIdentifier (x_CommonName leaf)) in Ok (Some cn).
Proof. intros Hids. unfold certificateCommonName. by rewrite (exempt_normal _ _ Hids). Qed.

Lemma certificateIdentifiers_spec leaf o granted :
  (∃ ids, certificateIdentifiers leaf = Ok ids ∧ covers ids (ord_Identifiers o) granted) ↔ leaf_names_ok leaf o granted.
Proof.
  unfold certificateIdentifiers. split.
  - intros (ids & Hok & Hc). destruct (certificateSANs leaf) as [ids'|] eqn:Hsans; [|done]. cbn [result_bind] in Hok.
    apply certificateSANs_spec in Hsans as (? & ? & ? & ? & Hids & ?). rewrite (certificateCommonName_spec _ _ Hids) in Hok.
    assert (ids' = ids ∧ (x_CommonName leaf = "" ∨ exempt (leafSANs leaf) = true ∨
      ∃ cn, normalName (NameCN (x_CommonName leaf)) cn ∧ (cn ∈ ids ∨ id_Value cn = ""))) as [-> Hcn].
    { case_bool_decide; simpl in Hok; [injection Hok as ->; auto|].
      destruct (exempt (leafSANs leaf)); simpl in Hok; [injection Hok as ->; auto|].
      destruct (Normalize _) as [cn|] eqn:Hcn; simpl in Hok; [|done].
      assert (normalName (NameCN (x_CommonName leaf)) cn) by by eexists.
      case_bool_decide; simpl in Hok; [injection Hok as ->; eauto 10|].
      case_bool_decide; simpl in Hok; [injection Hok as ->; eauto 10|done]. }
    split; try done. by exists ids.
  - intros [Hforms Hlists Haddr Hsome (ids & Hids & Hnodup & Hc & Hcn)]. exists ids. split; [|done].
    rewrite (proj2 (certificateSANs_spec leaf ids)) by done. cbn [result_bind]. rewrite (certificateCommonName_spec _ _ Hids).
    case_bool_decide; [done|]. destruct (exempt (leafSANs leaf)); [done|]. simpl.
    destruct Hcn as [?|[?|(cn & (raw & [= <-] & Hcn) & Hin)]]; [done|done|].
    unfold commonNameIdentifier. rewrite Hcn. simpl. destruct Hin as [Hin|Hin].
    + rewrite (bool_decide_eq_true_2 (cn ∈ ids)) by done. by rewrite andb_false_r.
    + by rewrite (bool_decide_eq_true_2 (id_Value cn = "")).
Qed.

Lemma checkChain_inv chain csr o now leaf : checkChain chain csr o now = Ok leaf → chain_ok chain csr o now leaf.
Proof.
  unfold checkChain. fold (order_granted o).
  destruct (parseChain 0 chain) as [[|cert rest]|err] eqn:Hparse; [done| |done].
  case_match eqn:Hkey; [done|]. go_bool. destruct (checkValidity cert o now) eqn:Hval; [done|].
  cbv zeta. destruct (certificateIdentifiers cert) as [ids|err] eqn:Hids; [|done].
  destruct (coversIdentifiers _ _ _) eqn:Hcov; [|done]. simpl negb. cbv iota.
  destruct (checkLeafCACertificate cert csr o) eqn:Hca; [done|].
  destruct (checkLinks 0 _) eqn:Hlinks; [done|]. intros [= <-].
  apply parseChain_spec in Hparse. apply checkLinks_spec in Hlinks.
  apply checkValidity_spec in Hval. apply checkLeafCACertificate_spec in Hca.
  apply coversIdentifiers_spec in Hcov. split; eauto. apply certificateIdentifiers_spec. by exists ids.
Qed.

(** C33. [checkChain] accepts a chain for an order exactly when the chain parses, every element is
    signed by the next, the leaf has the key of the certificate request, its validity, names and
    basic constraint fit the order. The validity has not ended, is inside what the order and the
    authority tokens allow, and has begun or begins no later than the order asked for. Every DNS
    name, URI, address and authority list of the leaf is acceptable, they are distinct, each is an
    identifier of the order or granted by an authority token, and every identifier of the order is
    among them. The common name is one of them, too, unless it is exempt. The leaf is a CA
    certificate exactly when the request asked for one where the order is for an authority list,
    and never for another order. *)
Theorem checkChain_exact chain csr o now leaf :
  checkChain chain csr o now = Ok leaf ↔ chain_ok chain csr o now leaf.
Proof.
  split; [apply checkChain_inv|].
  intros [(rest & Hparse & Hlinks) Hkey Hval (ids & Hids & Hcov)%certificateIdentifiers_spec Hca].
  apply (parseChain_spec 0) in Hparse. apply (checkLinks_spec 0) in Hlinks.
  apply checkValidity_spec in Hval. apply checkLeafCACertificate_spec in Hca.
  apply coversIdentifiers_spec in Hcov. unfold checkChain. fold (order_granted o).
  by rewrite Hparse, Hkey, bool_decide_eq_true_2, Hval, Hids, Hcov, Hca, Hlinks.
Qed.

(** C34. A request may finalize an order exactly when it parses, is signed with its own key, has a
    key the server issues for that is not the account's, and its names fit the order. Such keys are
    RSA keys of 2048 to 4096 bits, ECDSA keys on the curves P-256, P-384 and P-521, and Ed25519,
    ML-DSA, composite and SLH-DSA keys. The alternative names are DNS names, addresses and URIs, and
    there is at most one authority list. Each of them, and the common name where it counts as an
    identity, is acceptable and is an identifier of the order or granted by an authority token, and
    every identifier of the order is among them. *)
Theorem checkCSR_exact der o account granted csr :
  checkCSR der o account granted = Ok csr ↔
  x509_ParseCertificateRequest der = Ok csr ∧ csr_signed csr ∧
  (∃ key, csr_key csr key ∧ key_ok key ∧ csr_fresh account key) ∧ csr_names_ok csr o granted.
Proof.
  assert (csr_names_ok csr o granted ↔ checkSANExtensions (csr_Extensions csr) = None ∧
    ∃ requested, csrIdentifiers csr = Ok requested ∧ coversIdentifiers requested (ord_Identifiers o) granted = true) as ->.
  { rewrite checkSANExtensions_spec. setoid_rewrite coversIdentifiers_spec. rewrite csrIdentifiers_spec.
    split; [by intros [? ? ? ?]|by intros (? & ? & ? & ?)]. }
  rewrite <- checkCSRSignature_spec. setoid_rewrite <- parseCSRKey_spec. setoid_rewrite <- checkCSRKey_spec.
  setoid_rewrite <- checkKeyReuse_spec. unfold checkCSR, result_bind. split.
  - intros Hok. repeat (case_match; simplify_eq). go_bool. split_and!; eauto.
  - intros (-> & -> & (key & -> & -> & ->) & -> & requested & -> & ->). done.
Qed.

End Conditions.

(** ** The bound authority tokens put on a validity *)

Lemma grantExpiry_fold validations bound :
  let t := fold_left (λ bound v,
    if negb (IsZero (v_GrantExpires v)) && (IsZero bound || Before (v_GrantExpires v) bound)
    then v_GrantExpires v else bound) validations bound in
  (t = bound ∨ ∃ v, v ∈ validations ∧ t = v_GrantExpires v ∧ v_GrantExpires v ≠ zeroTime) ∧
  (bound ≠ zeroTime → t ≠ zeroTime ∧ t ≤ bound)%Z ∧
  ∀ v, v ∈ validations → v_GrantExpires v ≠ zeroTime → t ≠ zeroTime ∧ (t ≤ v_GrantExpires v)%Z.
Proof.
  revert bound. induction validations as [|v validations IH]; intros bound; simpl.
  { split; [by left|]. split; [lia|]. intros v Hv. by apply not_elem_of_nil in Hv. }
  set (next := if negb (IsZero (v_GrantExpires v)) && _ then v_GrantExpires v else bound).
  assert ((next = bound ∨ next = v_GrantExpires v ∧ v_GrantExpires v ≠ zeroTime) ∧
    (bound ≠ zeroTime → next ≠ zeroTime ∧ next ≤ bound)%Z ∧
    (v_GrantExpires v ≠ zeroTime → next ≠ zeroTime ∧ next ≤ v_GrantExpires v)%Z) as (H1 & H2 & H3).
  { unfold next, zeroTime. case_match; go_bool; destruct_or?; go_bool; split_and!; lia. }
  destruct (IH next) as (I1 & I2 & I3). split_and!.
  - destruct I1 as [I1|(u & Hu & I1)]; [|right; exists u; set_solver].
    rewrite I1. destruct H1 as [H1|[H1 Hne]]; [by left|right; exists v; set_solver].
  - naive_solver lia.
  - intros u [->|Hu]%elem_of_cons Hne; [naive_solver lia|by apply I3].
Qed.

(** The certificate an order asks the CA for never outlives an authority token it rests on,
    nor the end the client asked for: [issuedNotAfter] is the earliest of them, and unbounded only
    when there is neither. *)
Theorem issuedNotAfter_earliest (o : Order) (st : IssuanceState) :
  ord_Issuance o = Some st →
  let ends : list Time := filter (λ t : Time, t ≠ zeroTime) (ord_NotAfter o :: map v_GrantExpires (is_Validations st)) in
  (ends = [] ∧ issuedNotAfter o = zeroTime) ∨
  (issuedNotAfter o ∈ ends ∧ Forall (λ t : Time, issuedNotAfter o ≤ t)%Z ends).
Proof.
  intros Hst ends. unfold issuedNotAfter. rewrite Hst.
  destruct (grantExpiry_fold (is_Validations st) zeroTime) as (H1 & _ & H3).
  fold (grantExpiry (is_Validations st)) in H1, H3.
  set (bound := grantExpiry (is_Validations st)) in *. cbv zeta.
  assert (∀ t, t ∈ ends ↔ t ≠ zeroTime ∧ (t = ord_NotAfter o ∨ ∃ v, v ∈ is_Validations st ∧ t = v_GrantExpires v)) as Hends.
  { intros t. unfold ends. rewrite list_elem_of_filter, elem_of_cons, list_elem_of_fmap. naive_solver. }
  set (notAfter := if negb (IsZero bound) && _ then bound else ord_NotAfter o).
  destruct (decide (notAfter = zeroTime)) as [Hz|Hz]; [left|right].
  - split; [|done]. apply elem_of_nil_inv. intros t (Hne & Ht)%Hends.
    destruct Ht as [->|(v & Hv & ->)]; [|destruct (H3 v Hv Hne)]; unfold notAfter, zeroTime in *;
      case_match; go_bool; destruct_or?; go_bool; lia.
  - split.
    + apply Hends. split; [done|]. unfold notAfter in *. case_match; [right|by left].
      destruct H1 as [->|(v & Hv & -> & Hne)]; [done|]. by exists v.
    + apply Forall_forall. intros t (Hne & Ht)%Hends.
      destruct Ht as [->|(v & Hv & ->)]; [|destruct (H3 v Hv Hne)]; unfold notAfter, zeroTime in *;
        case_match; go_bool; destruct_or?; go_bool; lia.
Qed.

(** An order until 100 with two authority tokens until 70 and 90. *)
Definition sample_validation (expires : Time) : Validation :=
  mkValidation (mkIdentifier IdentifierTNAuthList "") (ChallengeTypeOther "") 0 false expires [] "" false.
Definition sample_state : IssuanceState :=
  mkIssuanceState "" 0 0 [sample_validation 90; sample_validation zeroTime; sample_validation 70].
Definition sample_order : Order :=
  mkOrder "" "" OrderProcessing 0 [] 0 100 [] None [] "" (Some sample_state) None "" "" 0 0.

Lemma issuedNotAfter_earliest_witness :
  issuedNotAfter sample_order ∈ [100; 90; 70]%Z ∧ issuedNotAfter sample_order = 70%Z.
Proof.
  split; [|done]. destruct (issuedNotAfter_earliest sample_order sample_state eq_refl) as [[Hnil _]|[Hin _]];
    [discriminate Hnil|exact Hin].
Defined.
