(* ===== verification/Worker.v ===== *)
(** * Background validation (src/worker.go)

    The worker of [Run]: one claim of a task with the deadline of its lease, and the run of a
    validation task from the loads to the commit, with its retries and reschedules. *)

From S2P Require Import Prelude Status Problem Resource StoreSpec Prog Host Platform Identifier.

(** ** Statuses at a time (src/wire.go) *)

Definition effectiveOrderStatus (order : Order) (now : Time) : OrderStatus := StatusAt order now.

(** The status clients see, treating an expired pending or valid authorization as expired. *)
Definition effectiveAuthzStatus (authz : Authorization) (now : Time) : AuthorizationStatus :=
  if ((az_Status authz == AuthorizationPending) || (az_Status authz == AuthorizationValid)) &&
     negb (After (az_Expires authz) now)
  then AuthorizationExpired
  else az_Status authz.

(** ** Releasing and removing tasks *)

Section Worker.
Context `{Platform} (s : Server).

(** Returns a context for one phase of a task run, bounded by [TaskTimeout] and by the end of the
    lease. *)
Definition taskPhase (base : Context) : Prog Context :=
  WithTimeout base (wc_TaskTimeout (s_workers s)).

(** The doubling loop of [retryDelay] with [n] iterations left. *)
Fixpoint retryLoop (n : nat) (delay limit : Duration) : Duration :=
  match n with
  | O => delay
  | S n => if (delay <? limit)%Z then retryLoop n (i64 (delay * 2)) limit else delay
  end.

(** Returns the exponential backoff before the next attempt of a task. *)
Definition retryDelay (task : Task) : Duration :=
  let delay := wc_RetryDelay (s_workers s) in
  retryLoop (Z.to_nat (task_Attempts task - 1)) delay (i64 (32 * delay)).

(** Stores a rescheduled task. *)
Definition storeReschedule (base : Context) (task : Task) : Prog unit :=
  ctx ← taskPhase base;
  _ ← store ctx (CallRescheduleTask task);
  mret tt.

Definition runAt (task : Task) (t : Time) : Task := {| task with task_RunAt := t |}.

(** Releases the task for a later attempt with exponential backoff. *)
Definition reschedule (base : Context) (task : Task) (now : Time) : Prog unit :=
  storeReschedule base (runAt task (now + retryDelay task)).

(** Removes a task that has nothing left to do. *)
Definition finishTask (base : Context) (task : Task) : Prog unit :=
  ctx ← taskPhase base;
  _ ← store ctx (CallFinishTask task);
  mret tt.

(** Drops a task whose target vanished and releases one whose lookup failed for another reason. *)
Definition dropOnNotFound (base : Context) (task : Task) (err : error) : Prog unit :=
  if IsNotFound err then finishTask base task
  else now ← Now; reschedule base task now.

(** ** Loading the targets of a validation *)

(** Loads the challenge, authorization and account of a validation task. [None] means that no
    proof is needed and the task was released or removed. *)
Definition validationTargets (base : Context) (task : Task)
    : Prog (option (Challenge * Authorization * Account)) :=
  ctx ← taskPhase base;
  r ← store ctx (CallChallenge (task_TargetID task));
  match r with
  | Err err => _ ← dropOnNotFound base task err; mret None
  | Ok ch =>
      if (ch_Status ch != ChallengeProcessing) then _ ← finishTask base task; mret None
      else
        r ← store ctx (CallAuthorization (ch_AuthorizationID ch));
        match r with
        | Err err => _ ← dropOnNotFound base task err; mret None
        | Ok authz =>
            r ← store ctx (CallAccount (ch_AccountID ch));
            match r with
            | Err err => _ ← dropOnNotFound base task err; mret None
            | Ok account => mret (Some (ch, authz, account))
            end
        end
  end.

(** ** Running a validator *)

Definition unusableName : Problem :=
  NewProblem ErrorServerInternal "the validator granted an unusable name".

(** The loop of [checkGrant] over the granted names. *)
Fixpoint grantNames (granted names : list Identifier) : Res (list Identifier) :=
  match granted with
  | [] => Ok names
  | name :: granted =>
      match Normalize name with
      | Err _ => Err (ErrProblem unusableName)
      | Ok id =>
          if (id_Type id != IdentifierDNS) && (id_Type id != IdentifierIP) &&
             (id_Type id != IdentifierURI)
          then Err (ErrProblem unusableName)
          else grantNames granted (if bool_decide (id ∈ names) then names else names ++ [id])
      end
  end.

(** Normalizes the names a validator granted and refuses any that a certificate request cannot
    add to an order. *)
Definition checkGrant (grant : ValidationGrant) : Res ValidationGrant :=
  if (vg_NFType grant != "") && negb (ValidNFType (vg_NFType grant))
  then Err (ErrProblem (NewProblem ErrorServerInternal "the validator granted an invalid NF type"))
  else try names := grantNames (vg_Names grant) [] in Ok {| grant with vg_Names := names |}.

(** Runs a validator under its own task timeout and reports what the response authorizes. *)
Definition validate (base : Context) (v : Validator) (req : ValidationRequest)
    : Prog (Res ValidationGrant) :=
  ctx ← taskPhase base;
  match v with
  | PlainValidator =>
      err ← call (OpValidate ctx (ch_Type (vq_Challenge req)) req);
      mret match err with Some err => Err err | None => Ok noGrant end
  | GrantingValidator =>
      r ← call (OpValidateGrant ctx (ch_Type (vq_Challenge req)) req);
      mret match r with Err err => Err err | Ok grant => checkGrant grant end
  end.

(** ** Committing a validation *)

(** The status of one authorization of an order: [updated] stands in for its stored copy. *)
Definition authzStatus (ctx : Context) (id : string) (updated : option Authorization) (now : Time)
    : Prog (Res AuthorizationStatus) :=
  let load :=
    r ← store ctx (CallAuthorization id);
    mret match r with Err err => Err err | Ok authz => Ok (effectiveAuthzStatus authz now) end in
  match updated with
  | Some updated => if (id == az_ID updated) then mret (Ok (effectiveAuthzStatus updated now)) else load
  | None => load
  end.

(** The loop of [deriveOrderStatus]. *)
Fixpoint deriveLoop (ctx : Context) (ids : list string) (updated : option Authorization) (now : Time)
    (allValid : bool) : Prog (Res OrderStatus) :=
  match ids with
  | [] => mret (Ok (if allValid then OrderReady else OrderPending))
  | id :: ids =>
      r ← authzStatus ctx id updated now;
      match r with
      | Err err => mret (Err err)
      | Ok status =>
          if (status == AuthorizationInvalid) || (status == AuthorizationExpired) ||
             (status == AuthorizationDeactivated) || (status == AuthorizationRevoked)
          then mret (Ok OrderInvalid)
          else deriveLoop ctx ids updated now (if (status != AuthorizationValid) then false else allValid)
      end
  end.

(** Returns the order status implied by its authorizations. *)
Definition deriveOrderStatus (ctx : Context) (order : Order) (updated : option Authorization)
    : Prog (Res OrderStatus) :=
  now ← Now;
  if negb (After (ord_Expires order) now) then mret (Ok OrderInvalid)
  else deriveLoop ctx (ord_AuthorizationIDs order) updated now true.

Definition settledProblem (status : AuthorizationStatus) : Problem :=
  NewProblem ErrorMalformed
    ("authorization was " +:+ AuthorizationStatus_string status +:+ " before validation").

(** The loop of [completeValidation] with [n] rounds left. *)
Fixpoint completeLoop (n : nat) (base ctx : Context) (task : Task) (ch : Challenge)
    (authz : Authorization) : Prog unit :=
  match n with
  | O => now ← Now; reschedule base task now
  | S n =>
      r ← store ctx (CallOrder (az_OrderID authz));
      match r with
      | Err err => dropOnNotFound base task err
      | Ok order =>
          r ← deriveOrderStatus ctx order (Some authz);
          match r with
          | Err _ => now ← Now; reschedule base task now
          | Ok status =>
              let order :=
                if (ord_Status order == OrderPending) && (status != OrderPending)
                then {| order with ord_Status := status |} else order in
              r ← store ctx (CallCompleteValidation task ch authz order);
              match r with
              | Ok _ => mret tt
              | Err err =>
                  if negb (IsRevisionMismatch err) then now ← Now; reschedule base task now
                  else
                    r ← store ctx (CallAuthorization (az_ID authz));
                    match r with
                    | Err err => dropOnNotFound base task err
                    | Ok current =>
                        now ← Now;
                        let status := effectiveAuthzStatus current now in
                        if (status != AuthorizationPending) then
                          let ch := {| ch with ch_Status := ChallengeInvalid; ch_Validated := zeroTime;
                                               ch_Error := Some (settledProblem status) |} in
                          completeLoop n base ctx task ch current
                        else
                          completeLoop n base ctx task ch
                            {| authz with az_Revision := az_Revision current |}
                    end
              end
          end
      end
  end.

(** Commits a validation result, deriving the order status from every authorization. *)
Definition completeValidation (base : Context) (task : Task) (ch : Challenge)
    (authz : Authorization) : Prog unit :=
  ctx ← taskPhase base;
  completeLoop 3 base ctx task ch authz.

(** ** Retrying a validation *)

(** Returns the problem a client sees for a validation failure that may clear on a later attempt. *)
Definition retryProblem (err : error) (fallback : string) : Problem :=
  match AsRetryable err with
  | Some (Some p) => p
  | _ => NewProblem ErrorServerInternal fallback
  end.

(** Stores the error of a failed attempt on the processing challenge and releases the task. *)
Definition retryValidation (base : Context) (task : Task) (ch : Challenge) (now : Time) : Prog unit :=
  let task := runAt task (now + retryDelay task) in
  ctx ← taskPhase base;
  r ← store ctx (CallRetryValidation task ch);
  match r with
  | Ok _ => mret tt
  | Err err => if IsRevisionMismatch err then storeReschedule base task else mret tt
  end.

(** ** One validation task *)

Definition failedChallenge (ch : Challenge) (p : Problem) : Challenge :=
  {| ch with ch_Status := ChallengeInvalid; ch_Error := Some p |}.

Definition failedAuthz (authz : Authorization) : Authorization :=
  {| authz with az_Status := AuthorizationInvalid |}.

Definition validChallenge (ch : Challenge) (now : Time) : Challenge :=
  {| ch with ch_Status := ChallengeValid; ch_Validated := now; ch_Error := None |}.

Definition validAuthz (authz : Authorization) (grant : ValidationGrant) (now : Time) : Authorization :=
  {| authz with az_Status := AuthorizationValid; az_Expires := (now + s_authzLifetime s)%Z;
                az_CACertificate := vg_CACertificate grant; az_GrantExpires := vg_Expires grant;
                az_GrantNames := vg_Names grant; az_GrantNFType := vg_NFType grant |}.

Definition validationRequest (ch : Challenge) (authz : Authorization) : ValidationRequest :=
  mkValidationRequest ch (az_Identifier authz) (az_Wildcard authz)
    (ch_Token ch +:+ "." +:+ ch_KeyThumbprint ch) (ch_KeyThumbprint ch) (ch_AuthorityToken ch).

(** The outcome of a validator: commit, retry or give up. *)
Definition settleValidation (base : Context) (task : Task) (ch : Challenge) (authz : Authorization)
    (outcome : Res ValidationGrant) (now : Time) : Prog unit :=
  let outcome :=
    if negb (After (az_Expires authz) now)
    then Err (ErrProblem (NewProblem ErrorUnauthorized "authorization expired during validation"))
    else outcome in
  match outcome with
  | Ok grant => completeValidation base task (validChallenge ch now) (validAuthz authz grant now)
  | Err err =>
      match AsProblem err with
      | Some p => completeValidation base task (failedChallenge ch p) (failedAuthz authz)
      | None =>
          if (task_Attempts task <? wc_MaxAttempts (s_workers s))%Z && After (az_Expires authz) now then
            let p := retryProblem err "validation attempt failed and will be retried" in
            retryValidation base task {| ch with ch_Error := Some p |} now
          else
            let p := retryProblem err "validation could not be completed" in
            completeValidation base task (failedChallenge ch p) (failedAuthz authz)
      end
  end.

(** Validates a challenge and records the result on the challenge, its authorization and its
    order. *)
Definition runValidation (base : Context) (task : Task) : Prog unit :=
  targets ← validationTargets base task;
  match targets with
  | None => mret tt
  | Some (ch, authz, account) =>
      now ← Now;
      let status := effectiveAuthzStatus authz now in
      if (status != AuthorizationPending)
      then completeValidation base task (failedChallenge ch (settledProblem status)) authz
      else if (acct_Status account != AccountValid) then
        let p := NewProblem ErrorUnauthorized "account is no longer valid" in
        completeValidation base task (failedChallenge ch p) (failedAuthz authz)
      else match s_validators s !! ch_Type ch with
      | None =>
          let p := NewProblem ErrorServerInternal
                     "no validator is configured for this challenge type" in
          completeValidation base task (failedChallenge ch p) (failedAuthz authz)
      | Some validator =>
          outcome ← validate base validator (validationRequest ch authz);
          now ← Now;
          settleValidation base task ch authz outcome now
      end
  end.

(** ** Claims and readiness *)

(** One claim of [Run]: the task and the end of its run. The wall clock is read before the claim,
    so the run cannot outlast the lease the store records. *)
Definition claim (ctx : Context) : Prog (Res (Task * Time)) :=
  wall ← call OpWallNow;
  now ← Now;
  r ← store ctx (CallClaimTask now (now + wc_Lease (s_workers s)));
  mret match r with
       | Err err => Err err
       | Ok task => Ok (task, wall + wc_Lease (s_workers s))%Z
       end.

(** Reports whether accepted work is being picked up. *)
Definition Ready (ctx : Context) : Prog (option error) :=
  now ← Now;
  r ← store ctx (CallPendingTasks (now - wc_StaleAfter (s_workers s)));
  match r with
  | Err err => mret (Some (ErrWrap "acmeserver: pending task count: " err))
  | Ok stale =>
      if (stale =? 0)%Z then mret None
      else
        r ← store ctx (CallLeasedTasks now);
        match r with
        | Err err => mret (Some (ErrWrap "acmeserver: leased task count: " err))
        | Ok leased =>
            if (0 <? leased)%Z then mret None
            else mret (Some (ErrMsg ("acmeserver: " +:+ pretty stale +:+
                   " tasks have waited longer than " +:+
                   Duration_String (wc_StaleAfter (s_workers s)) +:+
                   " and no worker holds a lease")))
        end
  end.

End Worker.
