(* ===== verification/Issuance.v ===== *)
(** * Background issuance (src/issuance.go)

    The run of an issuance task: the snapshot of account and authorizations a dispatch rests on,
    the durable dispatch before the first CA call, the CA call and the publication or refusal of
    its result. [process] of src/worker.go selects between validation and issuance. *)

From S2P Require Import Prelude Status Problem Resource StoreSpec Prog Host Platform Chain Worker.

Section Issuance.
Context `{Platform} (s : Server).

(** ** Commits *)

(** Stores an issuance outcome under its own task timeout. *)
Definition completeIssuance (base : Context) (task : Task) (order : Order) (cert : option Certificate)
    : Prog (option error) :=
  ctx ← taskPhase s base;
  r ← store ctx (CallCompleteIssuance task order cert);
  mret match r with Ok _ => None | Err err => Some err end.

(** Releases the task of a failed fenced commit. *)
Definition handleIssuanceCommit (base : Context) (task : Task) (err : option error) : Prog unit :=
  match err with
  | None => mret tt
  | Some _ => now ← Now; reschedule s base task now
  end.

Definition failedOrder (order : Order) (p : option Problem) : Order :=
  {| order with ord_Status := OrderInvalid; ord_Error := p |}.

(** Records a definitive refusal without discarding any retained CA result. *)
Definition failOrder (base : Context) (task : Task) (order : Order) (p : option Problem) : Prog unit :=
  err ← completeIssuance base task (failedOrder order p) None;
  handleIssuanceCommit base task err.

(** ** The order of a task *)

(** Loads the order of an issuance task. [None] means that it no longer needs the CA. *)
Definition issuanceOrder (base : Context) (task : Task) : Prog (option Order) :=
  ctx ← taskPhase s base;
  r ← store ctx (CallOrder (task_TargetID task));
  match r with
  | Err err => _ ← dropOnNotFound s base task err; mret None
  | Ok order =>
      if (ord_Status order != OrderProcessing) then _ ← finishTask s base task; mret None
      else mret (Some order)
  end.

(** ** Evidence *)

(** The loop of [validationEvidence]: the first valid challenge. *)
Fixpoint evidenceLoop (ctx : Context) (v : Validation) (ids : list string) : Prog (Res Validation) :=
  match ids with
  | [] => mret (Err (ErrMsg "valid authorization has no successful challenge"))
  | id :: ids =>
      r ← store ctx (CallChallenge id);
      match r with
      | Err err => mret (Err err)
      | Ok ch =>
          if (ch_Status ch == ChallengeValid)
          then mret (Ok {| v with v_Type := ch_Type ch; v_Validated := ch_Validated ch |})
          else evidenceLoop ctx v ids
      end
  end.

(** The evidence before its challenge is known. The challenge type of Go's zero value is empty. *)
Definition evidenceOf (a : Authorization) : Validation :=
  let expires :=
    if s_tnAuthListOutlive s && (id_Type (az_Identifier a) == IdentifierTNAuthList)
    then zeroTime else az_GrantExpires a in
  mkValidation (orderIdentifier a) (ChallengeTypeOther "") zeroTime (az_CACertificate a) expires
    (az_GrantNames a) (az_GrantNFType a) false.

(** Loads the successful challenge that authorized an identifier. *)
Definition validationEvidence (ctx : Context) (a : Authorization) : Prog (Res Validation) :=
  let v := evidenceOf a in
  if az_PreApproved a
  then mret (Ok {| v with v_PreApproved := true; v_Validated := az_CreatedAt a |})
  else evidenceLoop ctx v (az_ChallengeIDs a).

(** ** The dispatch decision *)

(** The earlier of the deadline and the expiries of one authorization and its token. *)
Definition narrowDeadline (a : Authorization) (deadline : Time) : Time :=
  let deadline := if Before (az_Expires a) deadline then az_Expires a else deadline in
  if negb (IsZero (az_GrantExpires a)) && Before (az_GrantExpires a) deadline
  then az_GrantExpires a else deadline.

(** The loop of [issuanceAuthorization]. *)
Fixpoint authorizationLoop (ctx : Context) (ids : list string) (now : Time)
    (authzs : list Authorization) (state : IssuanceState)
    : Prog (Res (result Problem (list Authorization * IssuanceState))) :=
  match ids with
  | [] => mret (Ok (Ok (authzs, state)))
  | id :: ids =>
      r ← store ctx (CallAuthorization id);
      match r with
      | Err err => mret (Err err)
      | Ok a =>
          if (effectiveAuthzStatus a now != AuthorizationValid)
          then mret (Ok (Err InvalidAuthorizationProblem))
          else if negb (IsZero (az_GrantExpires a)) && negb (After (az_GrantExpires a) now)
          then mret (Ok (Err (NewProblem ErrorUnauthorized
                                "authority token expired before issuance dispatch")))
          else
            r ← validationEvidence ctx a;
            match r with
            | Err err => mret (Err err)
            | Ok v =>
                authorizationLoop ctx ids now (authzs ++ [a])
                  {| state with is_Validations := is_Validations state ++ [v];
                                is_Deadline := narrowDeadline a (is_Deadline state) |}
            end
      end
  end.

(** Collects the authorization revisions, evidence and earliest deadline for one dispatch. The
    outer result is a lookup failure, the inner one a problem that refuses the order. *)
Definition issuanceAuthorization (ctx : Context) (operationID : string) (order : Order) (now : Time)
    : Prog (Res (result Problem (list Authorization * IssuanceState))) :=
  authorizationLoop ctx (ord_AuthorizationIDs order) now []
    (mkIssuanceState operationID now (ord_Expires order) []).

Definition withIssuance (order : Order) (state : option IssuanceState) : Order :=
  {| order with ord_Issuance := state |}.

(** Reads the account and authorizations one dispatch rests on and sets the issuance state it
    proposes. *)
Definition dispatchSnapshot (base : Context) (task : Task) (order : Order)
    : Prog (option (list Authorization * Account * Order)) :=
  ctx ← taskPhase s base;
  now ← Now;
  if negb (After (ord_Expires order) now) then
    _ ← failOrder base task order
          (Some (NewProblem ErrorUnauthorized "order expired before issuance dispatch"));
    mret None
  else
    r ← store ctx (CallAccount (ord_AccountID order));
    match r with
    | Err err => _ ← dropOnNotFound s base task err; mret None
    | Ok account =>
        if (acct_Status account != AccountValid) then
          _ ← failOrder base task order (Some (NewProblem ErrorUnauthorized "account is no longer valid"));
          mret None
        else
          r ← issuanceAuthorization ctx (task_ID task) order now;
          match r with
          | Err err => _ ← dropOnNotFound s base task err; mret None
          | Ok (Err p) => _ ← failOrder base task order (Some p); mret None
          | Ok (Ok (authzs, state)) => mret (Some (authzs, account, withIssuance order (Some state)))
          end
    end.

(** Builds an owned request from the immutable accepted CSR and persisted authorization decision. *)
Definition issueRequest (order : Order) : Prog (Res IssueRequest) :=
  let der := ord_CSR order in
  match x509_ParseCertificateRequest der with
  | Err err => mret (Err err)
  | Ok csr =>
      match ord_Issuance order with
      | None => mret (Err ErrPanic)
      | Some state =>
          now ← Now;
          mret (Ok (mkIssueRequest (is_OperationID state) (ord_AccountID order)
            (accountURL s (ord_AccountID order)) (ord_ID order) csr der (ord_Identifiers order)
            (ord_NotBefore order) (issuedNotAfter order) (is_Validations state) (is_Deadline state)
            (negb (After (is_Deadline state) now)) (ord_Profile order)))
      end
  end.

(** Runs the issuance policy under its own task timeout. *)
Definition authorizeIssuance (base : Context) (req : IssueRequest) : Prog (option error) :=
  ctx ← taskPhase s base;
  call (OpAuthorizeIssuance ctx req).

(** Applies current host policy before persisting a dispatch decision. *)
Definition checkIssuancePolicy (base : Context) (task : Task) (order : Order) : Prog bool :=
  r ← issueRequest order;
  err ← match r with
        | Err err => mret (Some err)
        | Ok req => if s_issuancePolicy s then authorizeIssuance base req else mret None
        end;
  match err with
  | None => mret true
  | Some err =>
      let order := withIssuance order None in
      _ ← match AsProblem err with
          | Some p => failOrder base task order (Some p)
          | None =>
              if (task_Attempts task <? wc_MaxAttempts (s_workers s))%Z
              then now ← Now; reschedule s base task now
              else failOrder base task order
                     (Some (NewProblem ErrorServerInternal "issuance policy could not be evaluated"))
          end;
      mret false
  end.

(** Records the dispatch decision and releases the task when the checked snapshot no longer holds.
    The stored order carries its new revision. *)
Definition storeDispatch (base : Context) (task : Task) (order : Order) (account : Account)
    (authzs : list Authorization) : Prog (option Order) :=
  ctx ← taskPhase s base;
  r ← store ctx (CallBeginIssuance task order account authzs);
  match r with
  | Ok order => mret (Some order)
  | Err _ => now ← Now; _ ← reschedule s base task now; mret None
  end.

(** Commits the first authorization decision before any external CA operation. *)
Definition beginIssuance (base : Context) (task : Task) (order : Order) : Prog (option Order) :=
  snapshot ← dispatchSnapshot base task order;
  match snapshot with
  | None => mret None
  | Some (authzs, account, order) =>
      ok ← checkIssuancePolicy base task order;
      if negb ok then mret None
      else
        now ← Now;
        let deadline := default zeroTime (is_Deadline <$> ord_Issuance order) in
        if negb (After deadline now) then
          _ ← failOrder base task (withIssuance order None)
                (Some (NewProblem ErrorUnauthorized "authorization expired before issuance dispatch"));
          mret None
        else storeDispatch base task order account authzs
  end.

(** ** The CA call and its result *)

(** Calls the issuer under its own task timeout. *)
Definition issue (base : Context) (req : IssueRequest) : Prog (IssueResult * option error) :=
  ctx ← taskPhase s base;
  call (OpIssue ctx req).

Definition retained (order : Order) (result : IssueResult) : Order :=
  {| order with ord_UnpublishedResult := Some result |}.

Definition unacceptable : Problem :=
  NewProblem ErrorServerInternal "issuer returned an unacceptable certificate".

Definition duplicate : Problem :=
  NewProblem ErrorServerInternal "issuer returned a duplicate certificate".

(** The certificate the server stores for a published chain. *)
Definition issuedCertificate (order : Order) (leafDER : bytes) (leaf : X509Certificate)
    (result : IssueResult) (validations : list Validation) (now : Time) : Certificate :=
  mkCertificate (certificateID leafDER) (ord_AccountID order) (ord_ID order) (ir_CAReference result)
    (ir_Chain result) (x_NotBefore leaf) (x_NotAfter leaf) false zeroTime 0 "" zeroTime
    (renewalID leaf) "" validations now 0.

(** Retains every returned chain and publishes only an unambiguous acceptable result. *)
Definition recordIssuedResult (base : Context) (task : Task) (order : Order) (csr : CertificateRequest)
    (result : IssueResult) (now : Time) (issueErr : option error) : Prog unit :=
  let refuse := failOrder base task (retained order result) (Some unacceptable) in
  match checkChain (ir_Chain result) csr order now, ir_Chain result with
  | Ok leaf, leafDER :: _ =>
      if bool_decide (is_Some issueErr) || ir_Pending result || bool_decide (is_Some (ir_Rejected result))
      then refuse
      else
        let validations := default [] (is_Validations <$> ord_Issuance order) in
        let cert := issuedCertificate order leafDER leaf result validations now in
        let order := {| order with ord_Status := OrderValid; ord_CertificateID := crt_ID cert;
                                   ord_Error := None |} in
        err ← completeIssuance base task order (Some cert);
        if default false (IsConflict <$> err) then
          failOrder base task {| (retained order result) with ord_CertificateID := "" |} (Some duplicate)
        else handleIssuanceCommit base task err
  | _, _ => refuse
  end.

(** The part of [runIssuance] after the dispatch is durable: the CA call and its outcome. *)
Definition dispatched (base : Context) (task : Task) (order : Order) : Prog unit :=
  r ← issueRequest order;
  match r with
  | Err _ => now ← Now; reschedule s base task now
  | Ok req =>
      '(result, err) ← issue base req;
      now ← Now;
      if negb (ir_Chain result == []) then
        recordIssuedResult base task order (iq_CSR req) result now err
      else match err, ir_Rejected result, ir_Pending result with
      | Some _, _, _ => reschedule s base task now
      | None, Some p, false => failOrder base task order (Some p)
      | None, None, true =>
          storeReschedule s base
            (runAt task (now + Z.max (ir_RetryAfter result) (wc_PollInterval (s_workers s))))
      | None, _, _ => reschedule s base task now
      end
  end.

(** Dispatches an authorized order or recovers its existing CA operation. *)
Definition runIssuance (base : Context) (task : Task) : Prog unit :=
  r ← issuanceOrder base task;
  match r with
  | None => mret tt
  | Some order =>
      match ord_Issuance order with
      | Some _ => dispatched base task order
      | None =>
          r ← beginIssuance base task order;
          match r with
          | None => mret tt
          | Some order => dispatched base task order
          end
      end
  end.

(** ** Tasks (src/worker.go) *)

(** Runs one claimed task, detached from the Run context and bounded by the end of its lease. *)
Definition process (ctx : Context) (task : Task) (leaseEnd : Time) : Prog unit :=
  let base := WithDeadline (WithoutCancel ctx) leaseEnd in
  match task_Kind task with
  | TaskValidate => runValidation s base task
  | TaskIssue => runIssuance base task
  | TaskKindOther _ => finishTask s base task
  end.

(** One turn of [Run]: a claim and, when there is a task, its run. *)
Definition work (ctx : Context) : Prog unit :=
  r ← claim s ctx;
  match r with
  | Err _ => mret tt
  | Ok (task, leaseEnd) => process ctx task leaseEnd
  end.

End Issuance.
