(* ===== verification/Wire.v ===== *)
(** * Wire forms (src/wire.go, src/problem.go)

    The JSON objects clients receive, as records with the members of the Go structs, and the views
    that fill them from stored resources. *)

From S2P Require Import Prelude Status Problem Resource Base64 Netip StoreSpec Prog Host Platform Worker.

(** ** RFC 3339 times (package time) *)

(** The proleptic Gregorian date of a day, counted from January 1 of year 1. The era of 400 years
    starts on March 1, so that the leap day ends its year. *)
Definition civil (day : Z) : Z * Z * Z :=
  let z := (day + 306)%Z in
  let era := (z `div` 146097)%Z in
  let doe := (z - era * 146097)%Z in
  let yoe := ((doe - doe `div` 1460 + doe `div` 36524 - doe `div` 146096) `div` 365)%Z in
  let doy := (doe - (365 * yoe + yoe `div` 4 - yoe `div` 100))%Z in
  let mp := ((5 * doy + 2) `div` 153)%Z in
  let d := (doy - (153 * mp + 2) `div` 5 + 1)%Z in
  let m := (if mp <? 10 then mp + 3 else mp - 9)%Z in
  (yoe + era * 400 + (if m <=? 2 then 1 else 0), m, d)%Z.

(** A number with at least [width] digits. *)
Definition padded (width : nat) (n : Z) : string :=
  let s := pretty n in
  text (replicate (width - String.length s) 48%Z) +:+ s.

(** [t.UTC().Format(time.RFC3339)]. *)
Definition FormatRFC3339 (t : Time) : string :=
  let secs := (t `div` Second)%Z in
  let '(y, m, d) := civil (secs `div` 86400)%Z in
  let s := (secs `mod` 86400)%Z in
  padded 4 y +:+ "-" +:+ padded 2 m +:+ "-" +:+ padded 2 d +:+ "T" +:+
  padded 2 (s `div` 3600)%Z +:+ ":" +:+ padded 2 ((s `div` 60) `mod` 60)%Z +:+ ":" +:+
  padded 2 (s `mod` 60)%Z +:+ "Z".

(** Returns the RFC 3339 UTC form of [t], or an empty string for the zero time. *)
Definition formatTime (t : Time) : string := if IsZero t then "" else FormatRFC3339 t.

(** ** Wire objects *)

Record accountJSON : Type := mkAccountJSON {
  aj_Status : AccountStatus;
  aj_Contact : list string;
  aj_TermsOfServiceAgreed : bool;
  aj_Orders : string
}.

Record orderJSON : Type := mkOrderJSON {
  oj_Status : OrderStatus;
  oj_Expires : string;
  oj_Identifiers : list Identifier;
  oj_NotBefore : string;
  oj_NotAfter : string;
  oj_Error : option Problem;
  oj_Authorizations : list string;
  oj_Finalize : string;
  oj_Certificate : string;
  oj_Replaces : string;
  oj_Profile : string
}.

Record challengeJSON : Type := mkChallengeJSON {
  cj_Type : ChallengeType;
  cj_URL : string;
  cj_Status : ChallengeStatus;
  cj_Token : string;
  cj_TKAuthType : string;
  cj_TokenAuthority : string;
  cj_Validated : string;
  cj_Error : option Problem
}.

Record authorizationJSON : Type := mkAuthorizationJSON {
  zj_Identifier : Identifier;
  zj_Status : AuthorizationStatus;
  zj_Expires : string;
  zj_Challenges : list challengeJSON;
  zj_Wildcard : bool
}.

(** ** Problem documents (src/problem.go) *)

Record subproblemJSON : Type := mkSubproblemJSON {
  sj_Type : string;
  sj_Detail : string;
  sj_Identifier : option Identifier
}.

Record problemJSON : Type := mkProblemJSON {
  pj_Type : string;
  pj_Detail : string;
  pj_Status : Z;
  pj_Identifier : option Identifier;
  pj_Subproblems : list subproblemJSON;
  pj_Algorithms : list string
}.

Definition subproblemOf (p : Problem) : subproblemJSON :=
  mkSubproblemJSON (URN (p_Type p)) (p_Detail p) (p_Identifier p).

(** The object [Problem.MarshalJSON] encodes. *)
Definition problemObject (p : Problem) : problemJSON :=
  mkProblemJSON (URN (p_Type p)) (p_Detail p) (HTTPStatus p) (p_Identifier p)
    (map subproblemOf (omap id (p_Subproblems p))) (p_Algorithms p).

(** ** Views *)

Definition TKAuthTypeATC : string := "atc".

(** The seconds clients should wait before polling a processing order again. *)
Definition processingRetryAfter : Z := 3.

Definition accountView (s : Server) (account : Account) : accountJSON :=
  mkAccountJSON (acct_Status account) (acct_Contact account) (acct_TermsOfServiceAgreed account)
    (accountURL s (acct_ID account) +:+ "/orders").

Definition orderView (s : Server) (order : Order) (now : Time) : orderJSON :=
  let status := effectiveOrderStatus order now in
  mkOrderJSON status (formatTime (ord_Expires order)) (ord_Identifiers order)
    (formatTime (ord_NotBefore order)) (formatTime (ord_NotAfter order)) (ord_Error order)
    (map (λ id, resourceURL s (authzPathPrefix +:+ id)) (ord_AuthorizationIDs order))
    (resourceURL s (orderPathPrefix +:+ ord_ID order +:+ "/finalize"))
    (if (ord_CertificateID order != "") && (status == OrderValid)
     then resourceURL s (certPathPrefix +:+ ord_CertificateID order) else "")
    (ord_Replaces order) (ord_Profile order).

Definition challengeView (s : Server) (ch : Challenge) : challengeJSON :=
  let tkauth := ch_Type ch == ChallengeTKAuth01 in
  mkChallengeJSON (ch_Type ch) (resourceURL s (challengePathPrefix +:+ ch_ID ch)) (ch_Status ch)
    (ch_Token ch) (if tkauth then TKAuthTypeATC else "") (if tkauth then s_tokenAuthority s else "")
    (formatTime (ch_Validated ch)) (ch_Error ch).

(** A valid authorization lists only the challenge that validated it. *)
Definition authorizationView (s : Server) (authz : Authorization) (challenges : list Challenge)
    (now : Time) : authorizationJSON :=
  let status := effectiveAuthzStatus authz now in
  let shown := if (status == AuthorizationValid)
               then filter (λ ch, ch_Status ch = ChallengeValid) challenges else challenges in
  mkAuthorizationJSON (az_Identifier authz) status (formatTime (az_Expires authz))
    (map (challengeView s) shown) (az_Wildcard authz).
