(* ===== verification/Http.v ===== *)
(** * Requests and responses (src/request.go, src/server.go, src/wire.go, src/limit.go)

    The HTTP values handlers exchange, the reading of a signed request with its nonce and
    signature, and the writers every answer goes through. A handler is a program that ends in a
    [Response]. The [requestState] of the source is the [spent] argument of the problem writer:
    whether the request spent a valid nonce. *)

From S2P Require Import Prelude Status Problem Resource Base64 Netip StoreSpec Prog Host Platform Identifier Jws Worker Wire.

(** ** HTTP values (package net/http) *)

Record Request : Type := mkRequest {
  r_Context : Context;
  r_Method : string;
  r_Path : string;
  r_EscapedPath : string;
  r_RawQuery : string;
  r_ForceQuery : bool;
  r_ContentType : string;
  r_Body : option (Res bytes);  (* no body, a body that cannot be read or its bytes *)
  r_RemoteAddr : string
}.

(** The values of the directory object. *)
Inductive metaValue : Type :=
| MetaString (s : string)
| MetaList (l : list string)
| MetaBool (b : bool)
| MetaMap (m : gmap string string).

Inductive directoryValue : Type :=
| DirectoryURL (url : string)
| DirectoryMetaObject (meta : gmap string metaValue).

Inductive Body : Type :=
| BodyEmpty
| BodyProblem (p : problemJSON)
| BodyAccount (v : accountJSON)
| BodyOrder (v : orderJSON)
| BodyOrders (urls : list string)
| BodyAuthorization (v : authorizationJSON)
| BodyChallenge (v : challengeJSON)
| BodyRenewalInfo (start stop explanationURL : string)
| BodyDirectory (members : gmap string directoryValue)
| BodyText (s : string)
| BodyBytes (b : bytes).

(** Headers in the order they were added. *)
Notation headers := (list (string * string)) (only parsing).

(** What a handler passes to the [http.ResponseWriter]: the argument of [WriteHeader], the headers
    set before it and the body. [net/http] panics on a status outside 100 to 999 and sends one below
    200 as an informational response. Only a problem of a hook of the host can carry such a status,
    and what the client then receives is not modelled. *)
Record Response : Type := mkResponse {
  rs_Status : Z;
  rs_Headers : headers;
  rs_Body : Body
}.

(** [Header.Add] and [Header.Set]. *)
Definition addHeader (k v : string) (h : headers) : headers := h ++ [(k, v)].
Definition setHeader (k v : string) (h : headers) : headers :=
  filter (λ e : string * string, e.1 ≠ k) h ++ [(k, v)].
Definition getHeader (k : string) (h : headers) : option string :=
  snd <$> head (filter (λ e : string * string, e.1 = k) h).

Definition StatusOK : Z := 200.
Definition StatusCreated : Z := 201.
Definition StatusNoContent : Z := 204.
Definition StatusNotFound : Z := 404.
Definition StatusMethodNotAllowed : Z := 405.
Definition StatusConflict : Z := 409.
Definition StatusRequestEntityTooLarge : Z := 413.
Definition StatusUnsupportedMediaType : Z := 415.

Definition contentTypeJSON : string := "application/json".
Definition contentTypeJOSE : string := "application/jose+json".
Definition contentTypeProblem : string := "application/problem+json".
Definition contentTypePEMChain : string := "application/pem-certificate-chain".
Definition contentTypeText : string := "text/plain; charset=utf-8".

(** A link header value. *)
Definition link (url rel : string) : string :=
  "<" +:+ url +:+ ">;rel=" +:+ quoted rel.

(** Returns the problem for an unknown resource path. *)
Definition notFound : Problem := WithStatus (NewProblem ErrorMalformed "unknown resource") StatusNotFound.

(** ** Early returns

    A handler leaves with the answer of [fail] when a step yields a problem. *)
Definition orElse {A B} (p : Prog (result Problem A)) (fail : Problem → Prog B) (k : A → Prog B)
    : Prog B :=
  r ← p;
  match r with
  | Err e => fail e
  | Ok a => k a
  end.

Notation "x ←! p 'else' f ; k" := (orElse p f (λ x, k))
  (at level 20, p at level 100, f at level 100, k at level 200, only parsing) : go_scope.

(** The same for steps that themselves end in a result. *)
Definition andThen {A B} (p : Prog (result Problem A)) (k : A → Prog (result Problem B))
    : Prog (result Problem B) := orElse p (λ e, mret (Err e)) k.

Notation "x ←? p ; k" := (andThen p (λ x, k))
  (at level 20, p at level 100, k at level 200, only parsing) : go_scope.

(** A problem, if there is one, as a result. *)
Definition refused (o : option Problem) : result Problem unit :=
  match o with Some p => Err p | None => Ok tt end.

(** ** The client address (src/limit.go, package net/netip) *)

(** The index of the last occurrence of a character. *)
Definition lastIndex (c : Z) (s : list Z) : option nat :=
  (λ p : nat * Z, length s - S p.1)%nat <$> list_find (λ x, x = c) (rev s).

(** [strconv.ParseUint(s, 10, 16)]. *)
Definition parsePort (s : list Z) : option Z :=
  if bool_decide (s = []) || negb (forallb isDigit s) then None
  else
    let n := fold_left (λ n c, n * 10 + (c - 48))%Z s 0%Z in
    if (n <? 65536)%Z then Some n else None.

(** The address of [netip.ParseAddrPort]. *)
Definition ParseAddrPort (s : string) : option Addr :=
  let l := codes s in
  match lastIndex 58 l with
  | None => None
  | Some i =>
      let ip := take i l in
      let port := drop (S i) l in
      let bracketed := bool_decide (head ip = Some 91%Z) in
      if bool_decide (ip = []) || bool_decide (parsePort port = None) ||
         (bracketed && (bool_decide (last ip ≠ Some 93%Z) || (length ip <? 2)%nat))
      then None
      else
        let inner := if bracketed then take (length ip - 2) (drop 1 ip) else ip in
        match ParseAddr (text inner) with
        | Some (Addr4 o) => if bracketed then None else Some (Addr4 o)
        | Some (Addr6 g z) => if bracketed then Some (Addr6 g z) else None
        | None => None
        end
  end.

(** Returns the address of the client connection. *)
Definition clientAddr (r : Request) : option Addr :=
  match ParseAddrPort (r_RemoteAddr r) with
  | Some addr => Some (Unmap addr)
  | None => Unmap <$> ParseAddr (r_RemoteAddr r)
  end.

(** ** Payloads

    The payload structs of the handlers and [UnmarshalStrict] into each of them. *)

(** src/account.go *)
Record newAccountJSON : Type := mkNewAccountJSON {
  na_Contact : list string;
  na_TermsOfServiceAgreed : bool;
  na_OnlyReturnExisting : bool;
  na_ExternalAccountBinding : bytes  (* empty when the member is absent *)
}.

Record accountUpdateJSON : Type := mkAccountUpdateJSON {
  au_Contact : option (list string);
  au_Status : option string
}.

Record keyChangeJSON : Type := mkKeyChangeJSON {
  kc_Account : string;
  kc_OldKey : bytes
}.

(** src/order.go, src/finalize.go *)
Record newOrderJSON : Type := mkNewOrderJSON {
  no_Identifiers : list Identifier;
  no_NotBefore : string;
  no_NotAfter : string;
  no_Replaces : string;
  no_Profile : string
}.

Record challengeResponseJSON : Type := mkChallengeResponseJSON {
  cr_TKAuth : string;
  cr_ATC : string
}.

(** src/revoke.go *)
Record revokeJSON : Type := mkRevokeJSON {
  rv_Certificate : string;
  rv_Reason : option Z
}.

(** [UnmarshalStrict] (Json.v) into each of them. What is shown of the handlers holds for any
    decoder. *)
Class PayloadJSON : Type := {
  json_newAccount : bytes → Res newAccountJSON;
  json_accountUpdate : bytes → Res accountUpdateJSON;
  json_keyChange : bytes → Res keyChangeJSON;
  json_newOrder : bytes → Res newOrderJSON;
  json_authorizationUpdate : bytes → Res string;   (* the status member *)
  json_challengeResponse : bytes → Res challengeResponseJSON;
  json_finalize : bytes → Res string;              (* the csr member *)
  json_revoke : bytes → Res revokeJSON
}.

(** ** Resource identifiers (src/request.go, src/ids.go) *)

Definition maxIDLength : nat := 64.
Definition maxRenewalIDLength : nat := (2 * maxIDLength + 1)%nat.

(** Reports whether [s] is a well formed opaque resource ID. *)
Definition validID (s : string) : bool :=
  if (s == "") || (maxIDLength <? String.length s)%nat then false
  else forallb isBase64URLByte (codes s).

(** Reports whether [s] has the shape of an RFC 9773 certificate identifier. *)
Definition validRenewalID (s : string) : bool :=
  if (maxRenewalIDLength <? String.length s)%nat then false
  else match Cut 46 s with
  | (aki, Some serial) => validID aki && validID serial
  | (_, None) => false
  end.

Section Http.
Context `{Platform} `{StrictJSON} (s : Server).

(** Extracts the account ID from an account URL of this server. *)
Definition accountIDFromURL (u : string) : option string :=
  let prefix := resourceURL s accountPathPrefix in
  if HasPrefix prefix u then
    let id := tail_from (String.length prefix) u in
    if validID id then Some id else None
  else None.

(** ** Response writers (src/server.go, src/wire.go) *)

(** Adds the headers every non-directory response carries. *)
Definition setCommonHeaders (h : headers) : headers :=
  addHeader "Link" (link (resourceURL s resourceDirectory) "index")
    (setHeader "Cache-Control" "no-store" h).

(** Attaches a fresh nonce. A failure leaves the response unchanged. *)
Definition addNonce (ctx : Context) (h : headers) : Prog headers :=
  r ← call (OpNonceIssue ctx);
  mret match r with Ok nonce => setHeader "Replay-Nonce" nonce h | Err _ => h end.

(** [d.Seconds()]: the whole seconds and the rest, each a [float64]. *)
Definition Seconds (d : Duration) : float64 :=
  f64_add (f64_of_int (d `quot` Second)) (f64_div (f64_of_int (d `rem` Second)) (f64_of_int Second)).

(** [int64(math.Ceil(d.Seconds()))]. *)
Definition ceilSeconds (d : Duration) : Z := default 0%Z (f64_ceil (Seconds d)).

(** Writes a problem document with the index link and no nonce. *)
Definition writeProblemWithoutNonce (h : headers) (p : Problem) : Prog Response :=
  let h := setCommonHeaders h in
  let h := if (0 <? p_RetryAfter p)%Z
           then setHeader "Retry-After" (pretty (ceilSeconds (p_RetryAfter p))) h else h in
  let h := setHeader "Content-Type" contentTypeProblem h in
  mret (mkResponse (HTTPStatus p) h (BodyProblem (problemObject p))).

(** Writes a problem document with the index link and a fresh nonce. A request that spent no nonce
    gets one only when the limiter allows a newNonce for the client. *)
Definition writeProblem (r : Request) (spent : bool) (h : headers) (p : Problem) : Prog Response :=
  let ctx := r_Context r in
  refusal ← (if spent then mret None
             else checkLimit s ctx (mkLimitRequest LimitNewNonce (clientAddr r) None [] "" 0));
  match refusal with
  | Some refusal =>
      writeProblemWithoutNonce h (if (p_Type p == ErrorBadNonce) then refusal else p)
  | None => h ← addNonce ctx h; writeProblemWithoutNonce h p
  end.

(** Rejects a request whose method the resource does not support. *)
Definition writeMethodNotAllowed (r : Request) (allowed : string) : Prog Response :=
  writeProblem r false (setHeader "Allow" allowed [])
    (WithStatus (NewProblem ErrorMalformed "method not allowed") StatusMethodNotAllowed).

(** Writes a JSON resource with the common headers and a fresh nonce. *)
Definition writeJSON (ctx : Context) (h : headers) (status : Z) (v : Body) : Prog Response :=
  h ← addNonce ctx (setCommonHeaders h);
  mret (mkResponse status (setHeader "Content-Type" contentTypeJSON h) v).

(** Writes an order with its URL in Location and asks processing clients to poll later. *)
Definition writeOrder (ctx : Context) (status : Z) (order : Order) (now : Time) : Prog Response :=
  let h := setHeader "Location" (resourceURL s (orderPathPrefix +:+ ord_ID order)) [] in
  let view := orderView s order now in
  let h := if (oj_Status view == OrderProcessing)
           then setHeader "Retry-After" (pretty processingRetryAfter) h else h in
  writeJSON ctx h status (BodyOrder view).

(** Writes a challenge and asks clients to poll a processing one later. *)
Definition writeChallenge (ctx : Context) (h : headers) (ch : Challenge) : Prog Response :=
  let h := if (ch_Status ch == ChallengeProcessing)
           then setHeader "Retry-After" (pretty processingRetryAfter) h else h in
  writeJSON ctx h StatusOK (BodyChallenge (challengeView s ch)).

(** Returns a problem for a store failure. *)
Definition storeProblem (err : error) (resource : string) : Problem :=
  if IsNotFound err then notFound
  else NewProblem ErrorServerInternal (resource +:+ " lookup failed").

(** A store call whose error becomes the problem of [f]. *)
Definition storeOr {X} (ctx : Context) (c : storeCall X) (f : error → Problem)
    : Prog (result Problem X) :=
  r ← store ctx c;
  mret match r with Ok x => Ok x | Err err => Err (f err) end.

(** ** Signed requests (src/request.go) *)

Inductive keyMode : Type :=
| keyModeAccount
| keyModeEmbedded
| keyModeEither.

#[export] Instance keyMode_eq_dec : EqDecision keyMode.
Proof. solve_decision. Defined.

Record signedRequest : Type := mkSignedRequest {
  sr_Account : option Account;
  sr_Key : PublicKey;
  sr_Payload : bytes
}.

(** Maps a JWS rejection to the ACME problem the client receives. *)
Definition problemFromJWS (err : error) : Problem :=
  match AsJWS err with
  | None => NewProblem ErrorMalformed "invalid JWS"
  | Some (CodeBadNonce, detail) => NewProblem ErrorBadNonce detail
  | Some (CodeBadSignatureAlgorithm, detail) =>
      {| (NewProblem ErrorBadSignatureAlgorithm detail) with p_Algorithms := Algorithms |}
  | Some (CodeBadPublicKey, detail) => NewProblem ErrorBadPublicKey detail
  | Some (CodeBadSignature, detail) => NewProblem ErrorUnauthorized detail
  | Some (CodeMalformed, detail) => NewProblem ErrorMalformed detail
  end.

(** Reads at most [maxBody] bytes and rejects longer bodies. *)
Definition readBody (r : Request) : result Problem bytes :=
  match r_Body r with
  | None => Err (NewProblem ErrorMalformed "request has no body")
  | Some (Err _) => Err (NewProblem ErrorMalformed "request body could not be read")
  | Some (Ok content) =>
      let body := take (Z.to_nat (i64 (s_maxBody s + 1))) content in
      if (s_maxBody s <? len body)%Z
      then Err (WithStatus (NewProblem ErrorMalformed
                  ("request body exceeds " +:+ pretty (s_maxBody s) +:+ " bytes"))
                  StatusRequestEntityTooLarge)
      else Ok body
  end.

(** Resolves a kid to a valid account of this server. *)
Definition lookupAccount (r : Request) (kid : string) : Prog (result Problem Account) :=
  match accountIDFromURL kid with
  | None => mret (Err (NewProblem ErrorMalformed "JWS kid is not an account URL of this server"))
  | Some id =>
      account ←? storeOr (r_Context r) (CallAccount id)
                   (λ err, if IsNotFound err
                           then NewProblem ErrorAccountDoesNotExist "account does not exist"
                           else NewProblem ErrorServerInternal "account lookup failed");
      mret (if (acct_Status account != AccountValid)
            then Err (NewProblem ErrorUnauthorized
                        ("account is " +:+ AccountStatus_string (acct_Status account)))
            else Ok account)
  end.

(** The key of a request: embedded, or the key of the account it names. *)
Definition requestKey (r : Request) (mode : keyMode) (msg : Message)
    : Prog (result Problem signedRequest) :=
  match h_Key (m_Header msg) with
  | Some key =>
      mret (if (mode == keyModeAccount)
            then Err (NewProblem ErrorMalformed "this resource requires kid, not an embedded jwk")
            else Ok (mkSignedRequest None key (m_Payload msg)))
  | None =>
      if (mode == keyModeEmbedded)
      then mret (Err (NewProblem ErrorMalformed "this resource requires an embedded jwk, not kid"))
      else
        account ←? lookupAccount r (h_KeyID (m_Header msg));
        mret (Ok (mkSignedRequest (Some account) (acct_Key account) (m_Payload msg)))
  end.

(** The URL a JWS has to name for a request to [rel]. *)
Definition expectedURL (r : Request) (rel : string) : string :=
  if (r_RawQuery r != "") || r_ForceQuery r
  then resourceURL s rel +:+ "?" +:+ r_RawQuery r else resourceURL s rel.

(** The checks after the nonce was spent: the URL, the key and the signature. *)
Definition authenticate (r : Request) (rel : string) (mode : keyMode) (msg : Message)
    : Prog (result Problem signedRequest) :=
  if (h_URL (m_Header msg) != expectedURL r rel) || (r_EscapedPath r != s_basePath s +:+ rel)
  then mret (Err (NewProblem ErrorUnauthorized "JWS url does not match the request URL"))
  else
    req ←? requestKey r mode msg;
    mret match Verify msg (sr_Key req) with
         | Some err => Err (problemFromJWS err)
         | None => Ok req
         end.

(** Validates a POST body against RFC 8555 section 6. The boolean tells whether a nonce was spent. *)
Definition readSignedRequest (r : Request) (rel : string) (mode : keyMode)
    : Prog (bool * result Problem signedRequest) :=
  let unsupported := WithStatus (NewProblem ErrorMalformed ("Content-Type must be " +:+ contentTypeJOSE))
                       StatusUnsupportedMediaType in
  match mime_ParseMediaType (r_ContentType r) with
  | Err _ => mret (false, Err unsupported)
  | Ok mediaType =>
      if (mediaType != contentTypeJOSE) then mret (false, Err unsupported)
      else match readBody r with
      | Err p => mret (false, Err p)
      | Ok body =>
          match jws_Parse body with
          | Err err => mret (false, Err (problemFromJWS err))
          | Ok msg =>
              v ← call (OpNonceConsume (r_Context r) (h_Nonce (m_Header msg)));
              match v with
              | Err _ => mret (false, Err (NewProblem ErrorServerInternal "nonce lookup failed"))
              | Ok false =>
                  mret (false, Err (NewProblem ErrorBadNonce
                    "JWS has an invalid anti-replay nonce: it is unknown, expired or was already used"))
              | Ok true => req ← authenticate r rel mode msg; mret (true, req)
              end
          end
      end
  end.

(** A signed request of an account: the account and the payload. *)
Definition readAccountRequest (r : Request) (rel : string)
    : Prog (bool * result Problem (Account * bytes)) :=
  '(spent, req) ← readSignedRequest r rel keyModeAccount;
  mret (spent, match req with
               | Err p => Err p
               | Ok req =>
                   match sr_Account req with
                   | Some account => Ok (account, sr_Payload req)
                   | None => Err (NewProblem ErrorServerInternal (error_Error ErrPanic))
                   end
               end).

(** Rejects a request that carries a payload where POST-as-GET is required. *)
Definition requireEmptyPayload (payload : bytes) : result Problem unit :=
  if (payload != [])
  then Err (NewProblem ErrorMalformed "this resource only accepts POST-as-GET requests")
  else Ok tt.

(** Decodes a request payload with the strict JSON rules. *)
Definition decodePayload {A} (decoder : bytes → Res A) (payload : bytes) : result Problem A :=
  match decoder payload with
  | Err err => Err (NewProblem ErrorMalformed ("request payload: " +:+ error_Error err))
  | Ok v => Ok v
  end.

End Http.
