(* ===== verification/Accounts.v ===== *)
(** * Account handlers (src/account.go, src/eab.go)

    newAccount with external account bindings, account updates and deactivation, the order list
    and key rollover. *)

From S2P Require Import Prelude Status Problem Resource Base64 Netip StoreSpec Prog Host Platform Identifier Jws Worker Wire Http.

Definition maxContacts : nat := 10.
Definition ordersPageSize : nat := 100.
Definition maxExternalAccountKeyID : nat := 256.

Section Accounts.
Context `{Platform} `{StrictJSON} `{PayloadJSON} (s : Server).

(** ** External account bindings (src/eab.go) *)

(** Refuses a binding whose algorithm needs a longer MAC key than the host holds. *)
Definition shortMACKeyProblem (key : bytes) (detail : string) : Problem :=
  let usable := MACAlgorithmsFor (len key) in
  if (usable == [])
  then NewProblem ErrorUnauthorized
         "external account key is too short for any HMAC algorithm. Ask the server operator for a new key"
  else {| (NewProblem ErrorBadSignatureAlgorithm ("externalAccountBinding: " +:+ detail))
          with p_Algorithms := usable |}.

(** The problem of a binding that does not parse. *)
Definition bindingProblem (err : error) : Problem :=
  let p := problemFromJWS err in
  if (p_Type p == ErrorBadSignatureAlgorithm) then {| p with p_Algorithms := MACAlgorithms |}
  else NewProblem ErrorMalformed ("externalAccountBinding: " +:+ p_Detail p).

(** The checks of a binding once its MAC key is known. *)
Definition checkBinding (msg : Message) (key : bytes) (accountThumbprint : string)
    : result Problem string :=
  match VerifyMAC msg key with
  | Some err =>
      match AsJWS err with
      | Some (CodeBadSignatureAlgorithm, detail) => Err (shortMACKeyProblem key detail)
      | _ => Err (NewProblem ErrorUnauthorized
                    "externalAccountBinding signature verification failed")
      end
  | None =>
      match ParseJWK (m_Payload msg) with
      | Err err =>
          Err (NewProblem ErrorMalformed ("externalAccountBinding payload: " +:+ error_Error err))
      | Ok boundKey =>
          let mismatch :=
            Err (NewProblem ErrorMalformed "externalAccountBinding payload is not the account key") in
          match Thumbprint boundKey with
          | Err _ => mismatch
          | Ok boundThumbprint =>
              if (boundThumbprint != accountThumbprint) then mismatch
              else Ok (h_KeyID (m_Header msg))
          end
      end
  end.

(** Verifies an external account binding and returns its key identifier. *)
Definition verifyExternalAccountBinding (ctx : Context) (accountThumbprint : string) (raw : bytes)
    : Prog (result Problem string) :=
  if negb (s_eabKeys s)
  then mret (Err (NewProblem ErrorMalformed "external account bindings are not accepted"))
  else match ParseMAC raw with
  | Err err => mret (Err (bindingProblem err))
  | Ok msg =>
      if (h_URL (m_Header msg) != resourceURL s resourceNewAccount)
      then mret (Err (NewProblem ErrorMalformed
                        "externalAccountBinding url does not match the request URL"))
      else if (maxExternalAccountKeyID <? String.length (h_KeyID (m_Header msg)))%nat
      then mret (Err (NewProblem ErrorMalformed
                        ("externalAccountBinding kid exceeds " +:+ pretty maxExternalAccountKeyID +:+
                         " bytes")))
      else
        r ← call (OpMACKey ctx (h_KeyID (m_Header msg)));
        mret match r with
             | Err err =>
                 if IsNotFound err
                 then Err (NewProblem ErrorUnauthorized "external account key is unknown")
                 else Err (hostError err "external account key lookup")
             | Ok key => checkBinding msg key accountThumbprint
             end
  end.

(** ** Contacts *)

(** The problem of one contact URL. Only mailto with one bare address is supported. *)
Definition contactProblem (contact : string) : option Problem :=
  let invalid (what : string) :=
    Some (NewProblem ErrorInvalidContact ("contact " +:+ strconv_Quote contact +:+ what)) in
  match url_Parse contact with
  | Err _ => invalid " is not a URL"
  | Ok u =>
      if (url_Scheme u == "") then invalid " is not a URL"
      else if negb (EqualFold (url_Scheme u) "mailto")
      then Some (NewProblem ErrorUnsupportedContact
                   ("contact scheme " +:+ strconv_Quote (url_Scheme u) +:+ " is not supported"))
      else if (url_Opaque u == "") || (url_RawQuery u != "") || (url_Fragment u != "") ||
              existsb (λ c, c =? 44)%Z (codes (url_Opaque u))
      then invalid " must be a single mailto address without parameters"
      else match mail_ParseAddress (url_Opaque u) with
      | Err _ => invalid " is not a valid email address"
      | Ok (name, address) =>
          if (name != "") || (address != url_Opaque u) then invalid " is not a valid email address"
          else None
      end
  end.

(** Checks contact URLs. *)
Definition validateContacts (contacts : list string) : option Problem :=
  if (maxContacts <? length contacts)%nat
  then Some (NewProblem ErrorMalformed ("at most " +:+ pretty maxContacts +:+ " contacts are allowed"))
  else head (omap contactProblem contacts).

(** ** New accounts *)

(** The external account of a newAccount payload, empty without a binding. *)
Definition externalAccount (ctx : Context) (thumbprint : string) (payload : newAccountJSON)
    : Prog (result Problem string) :=
  if (na_ExternalAccountBinding payload == []) then
    mret (if meta_ExternalAccountRequired (s_meta s)
          then Err (NewProblem ErrorExternalAccountRequired "an external account binding is required")
          else Ok "")
  else verifyExternalAccountBinding ctx thumbprint (na_ExternalAccountBinding payload).

(** Validates a newAccount payload and returns the account to store. *)
Definition buildAccount (ctx : Context) (key : PublicKey) (thumbprint : string)
    (payload : newAccountJSON) (client : option Addr) : Prog (result Problem Account) :=
  match validateContacts (na_Contact payload) with
  | Some p => mret (Err p)
  | None =>
      if s_requireTOS s && negb (na_TermsOfServiceAgreed payload)
      then mret (Err (NewProblem ErrorUserActionRequired "the terms of service must be agreed to"))
      else
        externalID ←? externalAccount ctx thumbprint payload;
        r ← newID;
        match r with
        | Err _ => mret (Err (NewProblem ErrorServerInternal "account creation failed"))
        | Ok id =>
            now ← Now;
            let account :=
              mkAccount id AccountValid key thumbprint (na_Contact payload)
                (na_TermsOfServiceAgreed payload) externalID
                (if s_singleUseEAB s then externalID else "") now 0 in
            refusal ← checkLimit s ctx (mkLimitRequest LimitNewAccount client (Some account) [] "" 0);
            _ ←? Ret (refused refusal);
            '(err, account) ← call (OpPolicyNewAccount ctx account);
            _ ←? Ret (refused (hostProblem err "account policy"));
            mret (Ok account)
        end
  end.

(** Answers a newAccount request whose key already owns an account. *)
Definition writeExistingAccount (r : Request) (h : headers) (account : Account) : Prog Response :=
  if (acct_Status account != AccountValid)
  then writeProblem s r true h (NewProblem ErrorUnauthorized
         ("the account owning this key is " +:+ AccountStatus_string (acct_Status account)))
  else writeJSON s (r_Context r) (setHeader "Location" (accountURL s (acct_ID account)) h) StatusOK
         (BodyAccount (accountView s account)).

(** Stores a new account or answers with the one a concurrent request created. *)
Definition createAccount (r : Request) (h : headers) (thumbprint : string) (account : Account)
    : Prog Response :=
  let fail := writeProblem s r true h in
  res ← store (r_Context r) (CallCreateAccount account);
  match res with
  | Ok account =>
      writeJSON s (r_Context r) (setHeader "Location" (accountURL s (acct_ID account)) h)
        StatusCreated (BodyAccount (accountView s account))
  | Err err =>
      if IsConflict err then
        res ← store (r_Context r) (CallAccountByKey thumbprint);
        match res with
        | Ok existing => writeExistingAccount r h existing
        | Err lookupErr =>
            if IsNotFound lookupErr && (acct_ExternalAccountClaim account != "")
            then fail (NewProblem ErrorUnauthorized
                         "the external account key is already bound to another account")
            else fail (NewProblem ErrorServerInternal "account creation failed")
        end
      else fail (NewProblem ErrorServerInternal "account creation failed")
  end.

(** Creates an account or returns the one owning the signing key. *)
Definition serveNewAccount (r : Request) : Prog Response :=
  let ctx := r_Context r in
  let tos := meta_TermsOfService (s_meta s) in
  let h := if (tos != "") then addHeader "Link" (link tos "terms-of-service") [] else [] in
  '(spent, req) ← readSignedRequest s r resourceNewAccount keyModeEmbedded;
  let fail := writeProblem s r spent h in
  req ←! Ret req else fail;
  payload ←! Ret (decodePayload json_newAccount (sr_Payload req)) else fail;
  match Thumbprint (sr_Key req) with
  | Err _ => fail (NewProblem ErrorBadPublicKey "account key cannot be thumbprinted")
  | Ok thumbprint =>
      res ← store ctx (CallAccountByKey thumbprint);
      match res with
      | Ok existing => writeExistingAccount r h existing
      | Err err =>
          if negb (IsNotFound err) then fail (NewProblem ErrorServerInternal "account lookup failed")
          else if na_OnlyReturnExisting payload
          then fail (NewProblem ErrorAccountDoesNotExist "no account owns this key")
          else
            account ←! buildAccount ctx (sr_Key req) thumbprint payload (clientAddr r) else fail;
            createAccount r h thumbprint account
      end
  end.

(** ** Account updates *)

(** Reads a signed request for an account resource and checks that the account owns it. *)
Definition readOwnedAccount (r : Request) (id rel : string)
    : Prog (bool * result Problem (Account * bytes)) :=
  '(spent, req) ← readAccountRequest s r rel;
  mret (spent, match req with
               | Err p => Err p
               | Ok (account, payload) =>
                   if (acct_ID account != id)
                   then Err (NewProblem ErrorUnauthorized
                               "the signing account does not own this resource")
                   else Ok (account, payload)
               end).

Definition conflictProblem (detail : string) : Problem :=
  WithStatus (NewProblem ErrorMalformed detail) StatusConflict.

(** Stores an account update and maps store errors to problems. *)
Definition updateAccount (ctx : Context) (account : Account) : Prog (result Problem Account) :=
  storeOr ctx (CallUpdateAccount account) (λ err,
    if IsConflict err then conflictProblem "another account already uses this key"
    else if IsRevisionMismatch err
    then conflictProblem "the account changed concurrently, retry the request"
    else if IsNotFound err then NewProblem ErrorAccountDoesNotExist "account does not exist"
    else NewProblem ErrorServerInternal "account update failed").

(** The account a payload asks for. *)
Definition updatedAccount (account : Account) (payload : accountUpdateJSON) : Account :=
  let account := match au_Contact payload with
                 | Some contact => {| account with acct_Contact := contact |}
                 | None => account
                 end in
  match au_Status payload with
  | Some _ => {| account with acct_Status := AccountDeactivated |}
  | None => account
  end.

(** Returns the account, updates it or deactivates it. *)
Definition serveAccount (r : Request) (id : string) : Prog Response :=
  let ctx := r_Context r in
  '(spent, req) ← readOwnedAccount r id (accountPathPrefix +:+ id);
  let fail := writeProblem s r spent [] in
  req ←! Ret req else fail;
  let '(account, body) := req in
  if (body == []) then writeJSON s ctx [] StatusOK (BodyAccount (accountView s account))
  else
    payload ←! Ret (decodePayload json_accountUpdate body) else fail;
    if default false ((λ status : string, status != AccountStatus_string AccountDeactivated) <$> au_Status payload)
    then fail (NewProblem ErrorMalformed "status can only be changed to deactivated")
    else
      _ ←! Ret (refused (au_Contact payload ≫= validateContacts)) else fail;
      account ←! updateAccount ctx (updatedAccount account payload) else fail;
      writeJSON s ctx [] StatusOK (BodyAccount (accountView s account)).

(** ** Order lists *)

(** The URLs of the orders that are not invalid. *)
Fixpoint orderURLs (ctx : Context) (ids : list string) (now : Time) (urls : list string)
    : Prog (result Problem (list string)) :=
  match ids with
  | [] => mret (Ok urls)
  | orderID :: ids =>
      order ←? storeOr ctx (CallOrder orderID)
                 (λ _, NewProblem ErrorServerInternal "order listing failed");
      orderURLs ctx ids now
        (if (effectiveOrderStatus order now != OrderInvalid)
         then urls ++ [resourceURL s (orderPathPrefix +:+ orderID)] else urls)
  end.

(** Lists the orders of an account. *)
Definition serveAccountOrders (r : Request) (id : string) : Prog Response :=
  let ctx := r_Context r in
  let rel := accountPathPrefix +:+ id +:+ "/orders" in
  '(spent, req) ← readOwnedAccount r id rel;
  let fail := writeProblem s r spent [] in
  req ←! Ret req else fail;
  _ ←! Ret (requireEmptyPayload req.2) else fail;
  let cursor := url_QueryGet (r_RawQuery r) "cursor" in
  if (cursor != "") && negb (validID cursor) then fail (NewProblem ErrorMalformed "unknown cursor")
  else
    ids ←! storeOr ctx (CallOrderIDs id cursor (Z.of_nat ordersPageSize + 1))
             (λ err, if IsNotFound err then NewProblem ErrorMalformed "unknown cursor"
                     else NewProblem ErrorServerInternal "order listing failed") else fail;
    let more := (ordersPageSize <? length ids)%nat in
    let ids := if more then take ordersPageSize ids else ids in
    now ← Now;
    urls ←! orderURLs ctx ids now [] else fail;
    let h :=
      if more
      then addHeader "Link" (link (resourceURL s rel +:+ "?cursor=" +:+
                                   url_QueryEscape (default "" (last ids))) "next") []
      else [] in
    writeJSON s ctx h StatusOK (BodyOrders urls).

(** ** Key rollover *)

(** Maps an inner JWS failure to malformed. *)
Definition innerProblem (err : error) : Problem :=
  let p := problemFromJWS err in
  if (p_Type p == ErrorBadSignatureAlgorithm) || (p_Type p == ErrorBadPublicKey) then p
  else NewProblem ErrorMalformed ("inner JWS: " +:+ p_Detail p).

(** The checks of the inner JWS: the new key and its thumbprint. *)
Definition checkKeyChange (account : Account) (body : bytes) : result Problem (PublicKey * string) :=
  match ParseInner body with
  | Err err => Err (innerProblem err)
  | Ok inner =>
      if (h_URL (m_Header inner) != resourceURL s resourceKeyChange)
      then Err (NewProblem ErrorMalformed "inner JWS url does not match the outer JWS url")
      else match h_Key (m_Header inner) with
      | None => Err (NewProblem ErrorServerInternal (error_Error ErrPanic))
      | Some newKey =>
          match Verify inner newKey with
          | Some err => Err (innerProblem err)
          | None =>
              try payload := decodePayload json_keyChange (m_Payload inner) in
              if (kc_Account payload != accountURL s (acct_ID account))
              then Err (NewProblem ErrorMalformed
                          "inner JWS account does not match the signing account")
              else match ParseJWK (kc_OldKey payload) with
              | Err err => Err (NewProblem ErrorMalformed ("inner JWS oldKey: " +:+ error_Error err))
              | Ok oldKey =>
                  match Thumbprint oldKey with
                  | Ok oldThumbprint =>
                      if (oldThumbprint != acct_KeyThumbprint account)
                      then Err (NewProblem ErrorMalformed
                                  "inner JWS oldKey is not the current account key")
                      else match Thumbprint newKey with
                      | Err _ => Err (NewProblem ErrorBadPublicKey "new key cannot be thumbprinted")
                      | Ok newThumbprint =>
                          if (newThumbprint == oldThumbprint)
                          then Err (NewProblem ErrorMalformed "new key is the current account key")
                          else Ok (newKey, newThumbprint)
                      end
                  | Err _ => Err (NewProblem ErrorMalformed
                                    "inner JWS oldKey is not the current account key")
                  end
              end
          end
      end
  end.

(** Replaces the account key. *)
Definition serveKeyChange (r : Request) : Prog Response :=
  let ctx := r_Context r in
  '(spent, req) ← readAccountRequest s r resourceKeyChange;
  let fail := writeProblem s r spent [] in
  req ←! Ret req else fail;
  let '(account, body) := req in
  change ←! Ret (checkKeyChange account body) else fail;
  let '(newKey, newThumbprint) := change in
  res ← updateAccount ctx {| account with acct_Key := newKey; acct_KeyThumbprint := newThumbprint |};
  match res with
  | Ok account => writeJSON s ctx [] StatusOK (BodyAccount (accountView s account))
  | Err p =>
      if (p_Type p == ErrorMalformed) && (p_Status p == StatusConflict) then
        other ← store ctx (CallAccountByKey newThumbprint);
        writeProblem s r spent
          match other with
          | Ok other => setHeader "Location" (accountURL s (acct_ID other)) []
          | Err _ => []
          end p
      else fail p
  end.

End Accounts.
