(* ===== verification/Orders.v ===== *)
(** * Order, authorization and challenge handlers (src/order.go, src/finalize.go, src/renewal.go)

    newOrder with its policy reviews and pre-approvals, the order, authorization and challenge
    resources and finalization. *)

From S2P Require Import Prelude Status Problem Resource Base64 Netip StoreSpec Prog Host Platform Identifier Jws Chain Worker Wire Http.

Definition maxAuthorityTokenLength : Z := Z.shiftl 16 10.

(** Returns the Authority Token of a response, from whichever field carries it. *)
Definition authorityToken (p : challengeResponseJSON) : string :=
  if (cr_TKAuth p != "") then cr_TKAuth p else cr_ATC p.

(** Counts the identifiers of one type. *)
Definition countIdentifiers (ids : list Identifier) (typ : IdentifierType) : nat :=
  length (filter (λ id, id_Type id = typ) ids).

(** Checks a challenge response payload against what the challenge type expects. *)
Definition checkChallengeResponse (typ : ChallengeType) (payload : challengeResponseJSON)
    : option Problem :=
  let token := authorityToken payload in
  if (typ != ChallengeTKAuth01) then
    if (token != "")
    then Some (NewProblem ErrorMalformed
                 ("a " +:+ ChallengeType_string typ +:+ " response does not carry an authority token"))
    else None
  else if (token == "")
  then Some (NewProblem ErrorMalformed
               "a tkauth-01 response needs the authority token in tkauth or atc")
  else if (cr_TKAuth payload != "") && (cr_ATC payload != "") && (cr_TKAuth payload != cr_ATC payload)
  then Some (NewProblem ErrorMalformed "the tkauth and atc fields carry different authority tokens")
  else if (maxAuthorityTokenLength <? Z.of_nat (String.length token))%Z
  then Some (NewProblem ErrorMalformed
               ("the authority token exceeds " +:+ pretty maxAuthorityTokenLength +:+ " characters"))
  else None.

(** Reports whether any validated identifier of the predecessor appears in the new order. *)
Definition sharesIdentifier (validations : list Validation) (identifiers : list Identifier) : bool :=
  existsb (λ v, bool_decide (v_Identifier v ∈ identifiers)) validations.

(** Maps a CreateOrder failure of a replacing order to its problem. *)
Definition replacementProblem (err : error) : option Problem :=
  if IsAlreadyReplaced err
  then Some (NewProblem ErrorAlreadyReplaced
               "the certificate is already being replaced by another order")
  else if IsNotFound err then Some (NewProblem ErrorMalformed "replaces names an unknown certificate")
  else None.

Section Orders.
Context `{Platform} `{StrictJSON} `{PayloadJSON} (s : Server).

(** ** New orders *)

(** Returns the configured challenge types that may validate the identifier. *)
Definition challengeTypesFor (id : Identifier) : list ChallengeType :=
  let token := (id_Type id == IdentifierTNAuthList) || (id_Type id == IdentifierNfInstanceID) in
  filter (λ typ,
    bool_decide (is_Some (s_validators s !! typ)) &&
    Bool.eqb (typ == ChallengeTKAuth01) token &&
    negb (IsWildcard id && (typ != ChallengeDNS01)) &&
    negb ((id_Type id == IdentifierIP) && (typ == ChallengeDNS01)) = true)
    [ChallengeHTTP01; ChallengeDNS01; ChallengeTLSALPN01; ChallengeTKAuth01].

(** The problem of an identifier whose type the server does not accept. *)
Definition unsupportedIdentifier (id : Identifier) : option Problem :=
  let unsupported detail := Some (WithIdentifier (NewProblem ErrorUnsupportedIdentifier detail) id) in
  if (id_Type id == IdentifierIP) && negb (s_ipIdentifiers s)
  then unsupported "IP identifiers are not supported"
  else if (id_Type id == IdentifierTNAuthList) && negb (s_tnAuthList s)
  then unsupported "TNAuthList identifiers are not supported"
  else if (id_Type id == IdentifierNfInstanceID) && negb (s_nfInstanceIDs s)
  then unsupported "NfInstanceId identifiers are not supported"
  else if (id_Type id == IdentifierURI)
  then unsupported "uri names come only from authority tokens"
  else None.

(** The checks of the identifiers of a newOrder payload and their canonical forms. *)
Definition orderIdentifiers (ids : list Identifier) : result Problem (list Identifier) :=
  if (ids == []) then Err (NewProblem ErrorMalformed "an order needs at least one identifier")
  else if (s_maxIdentifiers s <? len ids)%Z
  then Err (NewProblem ErrorMalformed
              ("an order may have at most " +:+ pretty (s_maxIdentifiers s) +:+ " identifiers"))
  else
    try _ := refused (head (omap unsupportedIdentifier ids)) in
    match NormalizeIdentifiers ids with
    | Err err => Err (default (NewProblem ErrorServerInternal (error_Error ErrPanic)) (AsProblem err))
    | Ok identifiers =>
        let lists := countIdentifiers identifiers IdentifierTNAuthList in
        let nfInstances := countIdentifiers identifiers IdentifierNfInstanceID in
        if (1 <? lists)%nat
        then Err (NewProblem ErrorMalformed "an order may have at most one TNAuthList identifier")
        else if (1 <? nfInstances)%nat
        then Err (NewProblem ErrorMalformed "an order may have at most one NfInstanceId identifier")
        else if (0 <? nfInstances)%nat && (0 <? lists)%nat
        then Err (NewProblem ErrorMalformed
                    "an order may not combine NfInstanceId and TNAuthList identifiers")
        else match head (filter (λ id, challengeTypesFor id = []) identifiers) with
        | Some id =>
            Err (WithIdentifier (NewProblem ErrorRejectedIdentifier
                   "no supported validation method for this identifier") id)
        | None => Ok identifiers
        end
    end.

(** Parses an optional RFC 3339 timestamp from an order payload. *)
Definition parseTime (value field : string) : result Problem Time :=
  if (value == "") then Ok zeroTime
  else match time_ParseRFC3339 value with
  | Err _ => Err (NewProblem ErrorMalformed (field +:+ " is not an RFC 3339 timestamp"))
  | Ok t => Ok t
  end.

(** A validity period that ends no later than it starts. *)
Definition emptyPeriod (notBefore notAfter : Time) : bool :=
  negb (IsZero notBefore) && negb (IsZero notAfter) && negb (After notAfter notBefore).

Definition orderPeriod (payload : newOrderJSON) : result Problem (Time * Time) :=
  try notBefore := parseTime (no_NotBefore payload) "notBefore" in
  try notAfter := parseTime (no_NotAfter payload) "notAfter" in
  if emptyPeriod notBefore notAfter
  then Err (NewProblem ErrorMalformed "notAfter must be later than notBefore")
  else Ok (notBefore, notAfter).

Definition offers (profile : string) : bool := bool_decide (is_Some (s_profiles s !! profile)).

(** Returns the profile a new order is issued under. *)
Definition selectProfile (ctx : Context) (account : Account) (requested : string)
    : Prog (result Problem string) :=
  if (requested != "") then
    mret (if offers requested then Ok requested
          else Err (NewProblem ErrorInvalidProfile "the server does not offer the requested profile"))
  else if negb (s_profileChooser s) then mret (Ok (s_defaultProfile s))
  else
    r ← call (OpDefaultProfile ctx account);
    mret match r with
         | Err err => Err (hostError err "profile choice")
         | Ok chosen =>
             if (chosen == "") then Ok (s_defaultProfile s)
             else if offers chosen then Ok chosen
             else Err (hostError (ErrMsg "the policy chose a profile the server does not offer")
                         "profile choice")
         end.

(** Checks a replaces value against the stored predecessor (src/renewal.go). *)
Definition checkReplaces (ctx : Context) (account : Account) (identifiers : list Identifier)
    (replaces : string) : Prog (result Problem string) :=
  if (replaces == "") || negb (s_renewal s) then mret (Ok "")
  else if negb (validRenewalID replaces)
  then mret (Err (NewProblem ErrorMalformed "replaces is not a certificate identifier"))
  else
    cert ←? storeOr ctx (CallCertificateByRenewalID replaces)
              (λ err, if IsNotFound err
                      then NewProblem ErrorMalformed "replaces names an unknown certificate"
                      else storeProblem err "certificate");
    mret (if (crt_AccountID cert != acct_ID account)
          then Err (NewProblem ErrorUnauthorized "replaces names a certificate of another account")
          else if negb (sharesIdentifier (crt_Validations cert) identifiers)
          then Err (NewProblem ErrorMalformed
                      "the order shares no identifier with the certificate it replaces")
          else Ok replaces).

Definition withPeriod (order : Order) (notBefore notAfter : Time) : Order :=
  {| order with ord_NotBefore := notBefore; ord_NotAfter := notAfter |}.

(** Asks the policy about a new order and keeps only its changes to NotBefore and NotAfter. *)
Definition reviewOrder (ctx : Context) (account : Account) (order : Order)
    : Prog (result Problem Order) :=
  '(err, reviewed) ← call (OpPolicyNewOrder ctx account order);
  let notBefore := ord_NotBefore reviewed in
  let notAfter := ord_NotAfter reviewed in
  mret match err with
       | Some err => Err (hostError err "order policy")
       | None =>
           if (withPeriod reviewed (ord_NotBefore order) (ord_NotAfter order) != order)
           then Err (hostError (ErrMsg
                  "the policy changed order fields other than NotBefore and NotAfter") "order policy")
           else if emptyPeriod notBefore notAfter
           then Err (hostError (ErrMsg "the policy set NotAfter no later than NotBefore")
                       "order policy")
           else Ok (withPeriod order notBefore notAfter)
       end.

(** Validates a newOrder payload and returns the order to store, without authorizations. *)
Definition buildOrder (ctx : Context) (account : Account) (payload : newOrderJSON) (now : Time)
    (client : option Addr) : Prog (result Problem Order) :=
  identifiers ←? Ret (orderIdentifiers (no_Identifiers payload));
  period ←? Ret (orderPeriod payload);
  profile ←? selectProfile ctx account (no_Profile payload);
  replaces ←? checkReplaces ctx account identifiers (no_Replaces payload);
  r ← newID;
  match r with
  | Err _ => mret (Err (NewProblem ErrorServerInternal "order creation failed"))
  | Ok id =>
      let order :=
        mkOrder id (acct_ID account) OrderPending (now + s_orderLifetime s) identifiers
          (fst period) (snd period) [] None [] "" None None replaces profile now 0 in
      refusal ← checkLimit s ctx
                  (mkLimitRequest LimitNewOrder client (Some account) identifiers replaces 0);
      _ ←? Ret (refused refusal);
      reviewOrder ctx account order
  end.

(** The identifiers of [ids] in canonical form, all of which the order has to contain. *)
Fixpoint grantedIdentifiers (order : Order) (ids : list Identifier) : option (gset Identifier) :=
  match ids with
  | [] => Some ∅
  | id :: ids =>
      match Normalize id with
      | Ok normalized =>
          if bool_decide (normalized ∈ ord_Identifiers order)
          then (λ granted, {[normalized]} ∪ granted) <$> grantedIdentifiers order ids
          else None
      | Err _ => None
      end
  end.

(** Asks a PreApprover policy which identifiers of a new order need no challenge. *)
Definition preApprove (ctx : Context) (account : Account) (order : Order)
    : Prog (result Problem (gset Identifier)) :=
  if negb (s_preApprover s) then mret (Ok ∅)
  else
    '(ids, reviewed) ← call (OpPreApprove ctx account order);
    mret match ids with
         | Err err => Err (hostError err "pre-approval policy")
         | Ok ids =>
             if (reviewed != order)
             then Err (hostError (ErrMsg "the policy changed the order") "pre-approval policy")
             else match grantedIdentifiers order ids with
             | None => Err (hostError (ErrMsg
                         "the policy returned an identifier the order does not contain")
                         "pre-approval policy")
             | Some granted => Ok granted
             end
         end.

Definition creationFailed : Problem := NewProblem ErrorServerInternal "order creation failed".

(** A random value, or the problem of a failed order creation. *)
Definition random (gen : Prog (Res string)) : Prog (result Problem string) :=
  r ← gen;
  mret match r with Ok x => Ok x | Err _ => Err creationFailed end.

(** The challenges of one authorization, one for each type. *)
Fixpoint buildChallenges (accountID authzID : string) (types : list ChallengeType)
    : Prog (result Problem (list Challenge)) :=
  match types with
  | [] => mret (Ok [])
  | typ :: types =>
      challengeID ←? random newID;
      token ←? random newToken;
      challenges ←? buildChallenges accountID authzID types;
      mret (Ok (mkChallenge challengeID authzID accountID typ ChallengePending token "" "" zeroTime
                  None 0 :: challenges))
  end.

(** The authorization of one identifier before its challenges are known. *)
Definition newAuthorization (order : Order) (id : Identifier) (authzID : string) : Authorization :=
  let wildcard := IsWildcard id in
  let identifier := if wildcard then {| id with id_Value := TrimPrefix "*." (id_Value id) |} else id in
  mkAuthorization authzID (ord_AccountID order) (ord_ID order) identifier AuthorizationPending
    (ord_Expires order) wildcard [] false zeroTime [] "" false (ord_CreatedAt order) 0.

(** The loop of [buildAuthorizations] over the identifiers. *)
Fixpoint authorizationsFor (order : Order) (ids : list Identifier) (preApproved : gset Identifier)
    : Prog (result Problem (list Authorization * list Challenge)) :=
  match ids with
  | [] => mret (Ok ([], []))
  | id :: ids =>
      authzID ←? random newID;
      let authz := newAuthorization order id authzID in
      built ←? (if bool_decide (id ∈ preApproved)
                then mret (Ok ({| authz with az_Status := AuthorizationValid;
                                             az_PreApproved := true |}, []))
                else
                  challenges ←? buildChallenges (ord_AccountID order) authzID (challengeTypesFor id);
                  mret (Ok ({| authz with az_ChallengeIDs := map ch_ID challenges |}, challenges)));
      rest ←? authorizationsFor order ids preApproved;
      mret (Ok (fst built :: fst rest, snd built ++ snd rest))
  end.

(** Creates one authorization per identifier. An order whose authorizations are all valid starts
    ready. *)
Definition buildAuthorizations (order : Order) (preApproved : gset Identifier)
    : Prog (result Problem (Order * list Authorization * list Challenge)) :=
  built ←? authorizationsFor order (ord_Identifiers order) preApproved;
  let '(authzs, challenges) := built in
  let status := if (size preApproved =? length (ord_Identifiers order))%nat
                then OrderReady else ord_Status order in
  mret (Ok ({| order with ord_AuthorizationIDs := map az_ID authzs; ord_Status := status |},
            authzs, challenges)).

(** Creates an order with its authorizations and challenges. *)
Definition serveNewOrder (r : Request) : Prog Response :=
  let ctx := r_Context r in
  '(spent, req) ← readAccountRequest s r resourceNewOrder;
  let fail := writeProblem s r spent [] in
  req ←! Ret req else fail;
  let '(account, body) := req in
  payload ←! Ret (decodePayload json_newOrder body) else fail;
  now ← Now;
  order ←! buildOrder ctx account payload now (clientAddr r) else fail;
  preApproved ←! preApprove ctx account order else fail;
  built ←! buildAuthorizations order preApproved else fail;
  let '(order, authzs, challenges) := built in
  res ← store ctx (CallCreateOrder order authzs challenges);
  match res with
  | Ok (order, _, _) => writeOrder s ctx StatusCreated order now
  | Err err =>
      match replacementProblem err with
      | Some p => if (ord_Replaces order != "") then fail p else fail creationFailed
      | None => fail creationFailed
      end
  end.

(** ** Orders *)

(** Reads a signed request for an order resource and loads the order the account owns. *)
Definition readOwnedOrder (r : Request) (id rel : string)
    : Prog (bool * result Problem (Account * bytes * Order)) :=
  let ctx := r_Context r in
  '(spent, req) ← readAccountRequest s r rel;
  loaded ← (req ←? Ret req;
            order ←? storeOr ctx (CallOrder id) (λ err, storeProblem err "order");
            let '(account, payload) := req in
            if (ord_AccountID order != acct_ID account)
            then mret (Err (NewProblem ErrorUnauthorized
                              "the signing account does not own this order"))
            else if (ord_Status order == OrderPending) || (ord_Status order == OrderReady) then
              r ← deriveOrderStatus ctx order None;
              mret match r with
                   | Err err => Err (storeProblem err "authorization")
                   | Ok status => Ok (account, payload, {| order with ord_Status := status |})
                   end
            else mret (Ok (account, payload, order)));
  mret (spent, loaded).

(** Returns an order. *)
Definition serveOrder (r : Request) (id : string) : Prog Response :=
  '(spent, req) ← readOwnedOrder r id (orderPathPrefix +:+ id);
  let fail := writeProblem s r spent [] in
  req ←! Ret req else fail;
  let '(_, payload, order) := req in
  _ ←! Ret (requireEmptyPayload payload) else fail;
  now ← Now;
  writeOrder s (r_Context r) StatusOK order now.

(** ** Finalization (src/finalize.go) *)

(** Tells the recorder about a refused request (src/refusal.go). *)
Definition recordRefusal (parent : Context) (refusal : Refusal) (p : Problem) : Prog unit :=
  if negb (s_refusals s) || (p_Type p == ErrorServerInternal) then mret tt
  else
    ctx ← WithTimeout (WithoutCancel parent) (s_detachedWrite s);
    _ ← call (OpRecordRefusal ctx {| refusal with rf_Problem := Some p |});
    mret tt.

(** Loads the authorizations of an order. *)
Fixpoint loadAuthorizations (ctx : Context) (ids : list string)
    : Prog (result Problem (list Authorization)) :=
  match ids with
  | [] => mret (Ok [])
  | id :: ids =>
      authz ←? storeOr ctx (CallAuthorization id) (λ err, storeProblem err "authorization");
      authzs ←? loadAuthorizations ctx ids;
      mret (Ok (authz :: authzs))
  end.

Definition orderAuthorizations (ctx : Context) (order : Order)
    : Prog (result Problem (list Authorization)) := loadAuthorizations ctx (ord_AuthorizationIDs order).

(** Requires every authorization of the order to have granted exactly what the request asks for. *)
Definition checkCAGrants (authzs : list Authorization) (csr : CertificateRequest) : option Problem :=
  match csrCACertificate (csr_Extensions csr) with
  | Err _ => Some (NewProblem ErrorBadCSR "CSR basic constraints could not be read")
  | Ok requested =>
      if existsb (λ authz, az_CACertificate authz != requested) authzs
      then Some (NewProblem ErrorBadCSR
                   "CSR CA basic constraint does not match the granted authorization")
      else None
  end.

Definition finalizeFailed : Problem := NewProblem ErrorServerInternal "finalization failed".

(** Commits the accepted request: the order is processing and its issuance is enqueued. *)
Definition commitFinalize (r : Request) (order : Order) (der : bytes) (now : Time) : Prog Response :=
  let ctx := r_Context r in
  let fail := writeProblem s r true [] in
  id ← newID;
  match id with
  | Err _ => fail finalizeFailed
  | Ok taskID =>
      let order := {| order with ord_Status := OrderProcessing; ord_CSR := der |} in
      let task := mkTask taskID TaskIssue (ord_ID order) (ord_AccountID order) now 0 zeroTime 0 now in
      res ← store ctx (CallFinalizeOrder order task);
      match res with
      | Ok (order, _) => _ ← workAccepted; writeOrder s ctx StatusOK order now
      | Err err =>
          if IsRevisionMismatch err then
            res ← store ctx (CallOrder (ord_ID order));
            let changed := NewProblem ErrorOrderNotReady "order changed concurrently, retry the request" in
            match res with
            | Err _ => fail changed
            | Ok current =>
                if (ord_CSR current != der) then fail changed
                else writeOrder s ctx StatusOK current now
            end
          else fail finalizeFailed
      end
  end.

(** Accepts a CSR for a ready order and enqueues issuance. *)
Definition serveFinalize (r : Request) (id : string) : Prog Response :=
  let ctx := r_Context r in
  '(spent, req) ← readOwnedOrder r id (orderPathPrefix +:+ id +:+ "/finalize");
  req ←! Ret req else writeProblem s r spent [];
  let '(account, body, order) := req in
  let refuse (csr : bytes) (p : Problem) :=
    _ ← recordRefusal ctx (mkRefusal RefusalFinalize (ord_AccountID order) (ord_ID order)
                             (ord_Identifiers order) csr [] 0 None) p;
    writeProblem s r spent [] p in
  csr ←! Ret (decodePayload json_finalize body) else refuse [];
  match decode csr with
  | None | Some [] => refuse [] (NewProblem ErrorMalformed "csr is not valid base64url")
  | Some der =>
      now ← Now;
      let status := effectiveOrderStatus order now in
      let finalized := (status == OrderProcessing) || (status == OrderValid) in
      if finalized && (ord_CSR order == der) then writeOrder s ctx StatusOK order now
      else if finalized
      then refuse der (NewProblem ErrorOrderNotReady
                         "order was already finalized with a different CSR")
      else if (status != OrderReady)
      then refuse der (NewProblem ErrorOrderNotReady ("order is " +:+ OrderStatus_string status))
      else if (ord_Profile order != "") && negb (offers (ord_Profile order))
      then refuse der (NewProblem ErrorInvalidProfile
                         "the server no longer offers the profile of this order")
      else
        authzs ←! orderAuthorizations ctx order else refuse der;
        request ←! Ret (checkCSR der order account (concat (map az_GrantNames authzs))) else refuse der;
        _ ←! Ret (refused (checkCAGrants authzs request)) else refuse der;
        commitFinalize r order der now
  end.

(** ** Authorizations *)

(** Moves a pending or valid authorization to deactivated. *)
Definition deactivateAuthorization (ctx : Context) (authz : Authorization) (now : Time)
    : Prog (result Problem Authorization) :=
  let status := effectiveAuthzStatus authz now in
  if (status == AuthorizationDeactivated) then mret (Ok authz)
  else if negb (AuthorizationStatus_CanTransition status AuthorizationDeactivated)
  then mret (Err (NewProblem ErrorMalformed
         ("authorization is " +:+ AuthorizationStatus_string status +:+ " and cannot be deactivated")))
  else storeOr ctx (CallUpdateAuthorization {| authz with az_Status := AuthorizationDeactivated |})
         (λ err, if IsRevisionMismatch err
                 then WithStatus (NewProblem ErrorMalformed
                        "the authorization changed concurrently, retry the request") StatusConflict
                 else NewProblem ErrorServerInternal "authorization update failed").

(** Loads the challenges of an authorization in their stored order. *)
Fixpoint loadChallenges (ctx : Context) (ids : list string) : Prog (result Problem (list Challenge)) :=
  match ids with
  | [] => mret (Ok [])
  | id :: ids =>
      ch ←? storeOr ctx (CallChallenge id)
              (λ _, NewProblem ErrorServerInternal "challenge lookup failed");
      challenges ←? loadChallenges ctx ids;
      mret (Ok (ch :: challenges))
  end.

(** Returns or deactivates an authorization. *)
Definition serveAuthorization (r : Request) (id : string) : Prog Response :=
  let ctx := r_Context r in
  '(spent, req) ← readAccountRequest s r (authzPathPrefix +:+ id);
  let fail := writeProblem s r spent [] in
  req ←! Ret req else fail;
  let '(account, body) := req in
  authz ←! storeOr ctx (CallAuthorization id) (λ err, storeProblem err "authorization") else fail;
  if (az_AccountID authz != acct_ID account)
  then fail (NewProblem ErrorUnauthorized "the signing account does not own this authorization")
  else
    now ← Now;
    authz ←! (if (body == []) then mret (Ok authz)
              else
                status ←? Ret (decodePayload json_authorizationUpdate body);
                if (status != AuthorizationStatus_string AuthorizationDeactivated)
                then mret (Err (NewProblem ErrorMalformed "status can only be changed to deactivated"))
                else deactivateAuthorization ctx authz now) else fail;
    challenges ←! loadChallenges ctx (az_ChallengeIDs authz) else fail;
    writeJSON s ctx [] StatusOK (BodyAuthorization (authorizationView s authz challenges now)).

(** ** Challenges *)

Definition challengeFailed : Problem := NewProblem ErrorServerInternal "challenge update failed".

(** Stores an accepted response. A concurrent response that was stored answers for this one. *)
Definition storeResponse (ctx : Context) (ch : Challenge) (task : Task)
    : Prog (result Problem Challenge) :=
  res ← store ctx (CallAcceptChallenge ch task);
  match res with
  | Ok (ch, _) => _ ← workAccepted; mret (Ok ch)
  | Err err =>
      if IsRevisionMismatch err then
        res ← store ctx (CallChallenge (ch_ID ch));
        mret match res with
             | Ok current =>
                 if (ch_Status current != ChallengePending) then Ok current else Err challengeFailed
             | Err _ => Err challengeFailed
             end
      else mret (Err challengeFailed)
  end.

(** Moves a pending challenge to processing and enqueues its validation. *)
Definition acceptChallenge (ctx : Context) (ch : Challenge) (account : Account) (client : option Addr)
    (payload : challengeResponseJSON) : Prog (result Problem Challenge) :=
  if (ch_Status ch != ChallengePending) then mret (Ok ch)
  else
    _ ←? Ret (refused (checkChallengeResponse (ch_Type ch) payload));
    authz ←? storeOr ctx (CallAuthorization (ch_AuthorizationID ch))
               (λ _, NewProblem ErrorServerInternal "authorization lookup failed");
    now ← Now;
    let status := effectiveAuthzStatus authz now in
    if (status != AuthorizationPending)
    then mret (Err (NewProblem ErrorMalformed
                      ("authorization is " +:+ AuthorizationStatus_string status)))
    else
      pending ←? storeOr ctx (CallAccountValidations (acct_ID account))
                   (λ _, NewProblem ErrorServerInternal "validation count failed");
      if (s_maxValidations s <=? pending)%Z
      then mret (Err (WithRetryAfter (NewProblem ErrorRateLimited
             ("the account has " +:+ pretty pending +:+
              " validations waiting or running, the limit is " +:+ pretty (s_maxValidations s)))
             (wc_TaskTimeout (s_workers s))))
      else
        refusal ← checkLimit s ctx (mkLimitRequest LimitChallengeResponse client (Some account)
                                      [orderIdentifier authz] "" pending);
        _ ←? Ret (refused refusal);
        id ← newID;
        match id with
        | Err _ => mret (Err challengeFailed)
        | Ok taskID =>
            let ch := {| ch with ch_Status := ChallengeProcessing;
                                 ch_KeyThumbprint := acct_KeyThumbprint account;
                                 ch_AuthorityToken := authorityToken payload |} in
            let task := mkTask taskID TaskValidate (ch_ID ch) (acct_ID account) now 0 zeroTime 0 now in
            storeResponse ctx ch task
        end.

(** Returns a challenge or accepts the client's response to it. *)
Definition serveChallenge (r : Request) (id : string) : Prog Response :=
  let ctx := r_Context r in
  '(spent, req) ← readAccountRequest s r (challengePathPrefix +:+ id);
  req ←! Ret req else writeProblem s r spent [];
  let '(account, body) := req in
  ch ←! storeOr ctx (CallChallenge id) (λ err, storeProblem err "challenge")
          else writeProblem s r spent [];
  if (ch_AccountID ch != acct_ID account)
  then writeProblem s r spent []
         (NewProblem ErrorUnauthorized "the signing account does not own this challenge")
  else
    let h := addHeader "Link" (link (resourceURL s (authzPathPrefix +:+ ch_AuthorizationID ch)) "up") [] in
    let fail := writeProblem s r spent h in
    ch ←! (if (body == []) then mret (Ok ch)
           else
             payload ←? Ret (decodePayload json_challengeResponse body);
             acceptChallenge ctx ch account (clientAddr r) payload) else fail;
    writeChallenge s ctx h ch.

End Orders.
