(* ===== verification/Revoke.v ===== *)
(** * Revocation, renewal information and certificates (src/revoke.go, src/renewal.go,
      src/certificate.go) *)

From S2P Require Import Prelude Status Problem Resource Base64 Netip StoreSpec Prog Host Platform Identifier Jws Chain Worker Wire Http Orders.

(** ** Renewal windows (src/renewal.go) *)

Definition DefaultRenewalRetryAfter : Duration := (6 * Hour)%Z.

(** Returns a window that opened at [since] and ends at [now]. *)
Definition ImmediateRenewal (since now : Time) : Time * Time :=
  let stop := TruncateSecond now in
  let start := TruncateSecond since in
  (if negb (Before start stop) then (stop - Minute)%Z else start, stop).

(** [d.Round(time.Second).Seconds()] of a positive duration, as an integer. *)
Definition roundSeconds (d : Duration) : Z :=
  let r := (d `mod` Second)%Z in
  if (r + r <? Second)%Z then (d `div` Second)%Z
  else if (d + (Second - r) <? 2 ^ 63)%Z then ((d - r) `div` Second + 1)%Z
  else ((2 ^ 63 - 1) `div` Second)%Z.

Section Revoke.
Context `{Platform} `{StrictJSON} `{PayloadJSON} (s : Server).

(** Answers the unauthenticated renewalInfo GET. *)
Definition serveRenewalInfo (r : Request) (id : string) : Prog Response :=
  let ctx := r_Context r in
  let fail := writeProblem s r false [] in
  if (r_Method r != "GET") && (r_Method r != "HEAD") then writeMethodNotAllowed s r "GET, HEAD"
  else if negb (s_renewal s) || negb (validRenewalID id) then fail notFound
  else
    refusal ← checkLimit s ctx (mkLimitRequest LimitRenewalInfo (clientAddr r) None [] "" 0);
    match refusal with
    | Some p => writeProblemWithoutNonce s [] p
    | None =>
        cert ←! storeOr ctx (CallCertificateByRenewalID id) (λ err, storeProblem err "certificate")
                  else fail;
        res ← call (OpRenewalInfo ctx cert);
        match res with
        | Err err =>
            fail (default (NewProblem ErrorServerInternal "renewal information unavailable")
                    (AsProblem err))
        | Ok info =>
            if negb (After (ri_End info) (ri_Start info))
            then fail (NewProblem ErrorServerInternal "renewal information unavailable")
            else
              let retryAfter := if (ri_RetryAfter info <=? 0)%Z then DefaultRenewalRetryAfter
                                else ri_RetryAfter info in
              let h := setHeader "Content-Type" contentTypeJSON
                         (setHeader "Retry-After" (pretty (roundSeconds retryAfter))
                            (setCommonHeaders s [])) in
              mret (mkResponse StatusOK h
                      (BodyRenewalInfo (formatTime (ri_Start info)) (formatTime (ri_End info))
                         (ri_ExplanationURL info)))
        end
    end.

(** ** Certificates (src/certificate.go) *)

(** Encodes DER certificates as a PEM chain. *)
Definition pemChain (chain : list bytes) : bytes := concat (map pem_Encode chain).

(** Returns the certificate chain as PEM. *)
Definition serveCertificate (r : Request) (id : string) : Prog Response :=
  let ctx := r_Context r in
  '(spent, req) ← readAccountRequest s r (certPathPrefix +:+ id);
  let fail := writeProblem s r spent [] in
  req ←! Ret req else fail;
  let '(account, body) := req in
  cert ←! storeOr ctx (CallCertificate id) (λ err, storeProblem err "certificate") else fail;
  if (crt_AccountID cert != acct_ID account)
  then fail (NewProblem ErrorUnauthorized "the signing account does not own this certificate")
  else
    _ ←! Ret (requireEmptyPayload body) else fail;
    h ← addNonce ctx (setCommonHeaders s []);
    mret (mkResponse StatusOK (setHeader "Content-Type" contentTypePEMChain h)
            (BodyBytes (pemChain (crt_Chain cert)))).

(** ** Revocation (src/revoke.go) *)

(** Accepts the issuing account, an account authorized for every identifier or the certificate
    key. *)
Definition authorizeRevocation (ctx : Context) (req : signedRequest) (cert : Certificate)
    (leaf : X509Certificate) : Prog (option Problem) :=
  match sr_Account req with
  | Some account =>
      if (acct_ID account == crt_AccountID cert) then mret None
      else match revocationIdentifiers leaf with
      | Err _ => mret (Some (NewProblem ErrorUnauthorized
                               "certificate identifiers cannot be authorized"))
      | Ok ids =>
          if existsb (λ id, id_Type id == IdentifierNfInstanceID) ids
          then mret (Some (NewProblem ErrorUnauthorized
                 ("a network function certificate is revoked by the enrolling account " +:+
                  "or with the certificate key")))
          else
            now ← Now;
            res ← store ctx (CallAuthorizedFor (acct_ID account) ids now);
            mret match res with
                 | Err err => Some (storeProblem err "authorization")
                 | Ok true => None
                 | Ok false => Some (NewProblem ErrorUnauthorized
                     "the signing account is not authorized for every certificate identifier")
                 end
      end
  | None =>
      let mismatch := NewProblem ErrorUnauthorized "the signing key is not the certificate key" in
      mret match Thumbprint (sr_Key req) with
           | Err _ => Some (NewProblem ErrorBadPublicKey "signing key cannot be thumbprinted")
           | Ok signer =>
               match x_PublicKey leaf with
               | None => Some mismatch
               | Some key =>
                   match Thumbprint key with
                   | Err _ => Some mismatch
                   | Ok certKey => if (signer != certKey) then Some mismatch else None
                   end
               end
           end
  end.

Definition notRecorded : Problem :=
  NewProblem ErrorServerInternal "revocation could not be recorded".

Definition withOperation (cert : Certificate) (id : string) (reason : Z) (requestedAt : Time)
    : Certificate :=
  {| cert with crt_RevocationOperationID := id; crt_RevocationReason := reason;
               crt_RevocationRequestedAt := requestedAt |}.

(** The loop of [beginRevocation] with [n] rounds left. *)
Fixpoint beginLoop (n : nat) (ctx : Context) (cert : Certificate) (reason : Z)
    : Prog (result Problem Certificate) :=
  match n with
  | O => mret (Err notRecorded)
  | S n =>
      if crt_Revoked cert
      then mret (Err (NewProblem ErrorAlreadyRevoked "certificate is already revoked"))
      else if (crt_RevocationOperationID cert != "") then mret (Ok cert)
      else
        id ← newID;
        match id with
        | Err _ => mret (Err notRecorded)
        | Ok id =>
            now ← Now;
            res ← store ctx (CallUpdateCertificate (withOperation cert id reason now));
            match res with
            | Ok cert => mret (Ok cert)
            | Err err =>
                if negb (IsRevisionMismatch err) then mret (Err notRecorded)
                else
                  cert ←? storeOr ctx (CallCertificate (crt_ID cert))
                            (λ err, storeProblem err "certificate");
                  beginLoop n ctx cert reason
            end
        end
  end.

(** Commits the operation ID and reason before the CA call. *)
Definition beginRevocation (ctx : Context) (cert : Certificate) (reason : Z)
    : Prog (result Problem Certificate) := beginLoop 2 ctx cert reason.

(** A context for a write that outlives the client request. *)
Definition detached (parent : Context) : Prog Context :=
  WithTimeout (WithoutCancel parent) (s_detachedWrite s).

(** The loop of [recordRevocation] with [n] rounds left: writes the accepted operation [op] over
    [cert]. *)
Fixpoint recordLoop (n : nat) (ctx : Context) (op cert : Certificate) : Prog (option Problem) :=
  match n with
  | O => mret (Some notRecorded)
  | S n =>
      now ← Now;
      let cert := withOperation {| cert with crt_Revoked := true; crt_RevokedAt := now |}
                    (crt_RevocationOperationID op) (crt_RevocationReason op)
                    (crt_RevocationRequestedAt op) in
      res ← store ctx (CallUpdateCertificate cert);
      match res with
      | Ok _ => mret None
      | Err err =>
          if negb (IsRevisionMismatch err) then mret (Some notRecorded)
          else
            res ← store ctx (CallCertificate (crt_ID cert));
            match res with
            | Err _ => mret (Some notRecorded)
            | Ok current => if crt_Revoked current then mret None else recordLoop n ctx op current
            end
      end
  end.

(** Stores the revocation, detached from the client request because the CA has already acted. *)
Definition recordRevocation (parent : Context) (cert : Certificate) : Prog (option Problem) :=
  ctx ← detached parent;
  recordLoop 2 ctx cert cert.

(** Clears the recorded operation after the CA refused it with a problem. *)
Definition abandonRevocation (parent : Context) (cert : Certificate) : Prog unit :=
  ctx ← detached parent;
  _ ← store ctx (CallUpdateCertificate (withOperation cert "" 0 zeroTime));
  mret tt.

(** The stored certificate a revocation request names. *)
Definition revokedCertificate (ctx : Context) (der : bytes) : Prog (result Problem Certificate) :=
  let unknown := WithStatus (NewProblem ErrorMalformed "certificate was not issued by this server")
                   StatusNotFound in
  cert ←? storeOr ctx (CallCertificate (certificateID der))
            (λ err, if IsNotFound err then unknown else storeProblem err "certificate");
  mret (if (head (crt_Chain cert) == Some der) then Ok cert else Err unknown).

(** Revokes a certificate on proof from its account or its key. *)
Definition serveRevokeCert (r : Request) : Prog Response :=
  let ctx := r_Context r in
  '(spent, req) ← readSignedRequest s r resourceRevokeCert keyModeEither;
  let fail := writeProblem s r spent [] in
  req ←! Ret req else fail;
  let accountID := default "" (acct_ID <$> sr_Account req) in
  let refuse (der : bytes) (reason : Z) (p : Problem) :=
    _ ← recordRefusal s ctx (mkRefusal RefusalRevocation accountID "" [] [] der reason None) p;
    fail p in
  payload ←! Ret (decodePayload json_revoke (sr_Payload req)) else refuse [] 0%Z;
  let reason := default 0%Z (rv_Reason payload) in
  match decode (rv_Certificate payload) with
  | None | Some [] =>
      refuse [] reason (NewProblem ErrorMalformed "certificate is not valid base64url")
  | Some der =>
      match x509_ParseCertificate der with
      | Err _ => refuse der reason (NewProblem ErrorMalformed "certificate could not be parsed")
      | Ok leaf =>
          if negb (bool_decide (reason ∈ s_revocationReasons s))
          then refuse der reason (NewProblem ErrorBadRevocationReason
                 ("revocation reason " +:+ pretty reason +:+ " is not allowed. " +:+ s_reasonsText s))
          else
            cert ←! revokedCertificate ctx der else refuse der reason;
            p ← authorizeRevocation ctx req cert leaf;
            _ ←! Ret (refused p) else refuse der reason;
            cert ←! beginRevocation ctx cert reason else refuse der reason;
            err ← call (OpRevoke ctx (mkRevokeRequest (crt_RevocationOperationID cert) leaf der
                                        (crt_RevocationReason cert) accountID));
            match err with
            | Some err =>
                match AsProblem err with
                | Some p => _ ← abandonRevocation ctx cert; refuse der reason p
                | None => fail (NewProblem ErrorServerInternal "revocation failed")
                end
            | None =>
                p ← recordRevocation ctx cert;
                _ ←! Ret (refused p) else fail;
                h ← addNonce ctx (setCommonHeaders s []);
                mret (mkResponse StatusOK h BodyEmpty)
            end
      end
  end.

End Revoke.
