(* ===== verification/Server.v ===== *)
(** * Configuration and routing (src/server.go, src/config.go, src/refusal.go)

    The construction of a [Server] from a [Config] with its checks and defaults, and the dispatch
    of a request to its handler. *)

From S2P Require Import Prelude Status Problem Resource Base64 Netip StoreSpec Prog Host Platform Identifier Jws Chain Worker Issuance Wire Http Accounts Orders Revoke.

(** ** Configuration *)

Definition DefaultMaxRequestBody : Z := Z.shiftl 64 10.
Definition DefaultOrderLifetime : Duration := (7 * 24 * Hour)%Z.
Definition DefaultAuthorizationLifetime : Duration := (30 * 24 * Hour)%Z.
Definition DefaultMaxIdentifiers : Z := 100.
Definition DefaultDetachedWriteTimeout : Duration := (30 * Second)%Z.
Definition maxProfileNameLength : nat := 64.

(** A configuration. Of a host interface only its presence, and whether a policy implements the
    optional interfaces, is part of it. *)
Record Config : Type := mkConfig {
  cfg_BaseURL : string;
  cfg_AllowInsecureBaseURL : bool;
  cfg_Store : bool;
  cfg_Nonces : bool;
  cfg_Meta : DirectoryMeta;
  cfg_MaxRequestBody : Z;
  cfg_Issuer : bool;
  cfg_Revoker : bool;
  cfg_RevocationReasons : list Z;
  cfg_Refusals : bool;
  cfg_Limits : bool;
  cfg_Validators : gmap ChallengeType (option Validator);
  cfg_ExternalAccounts : bool;
  cfg_SingleUseExternalAccounts : bool;
  cfg_PreApprover : bool;
  cfg_ProfileChooser : bool;
  cfg_IssuancePolicy : bool;
  cfg_RequireTermsOfServiceAgreed : bool;
  cfg_IPIdentifiers : bool;
  cfg_TNAuthListIdentifiers : bool;
  cfg_TNAuthListCertificatesOutliveTokens : bool;
  cfg_NfInstanceIDIdentifiers : bool;
  cfg_TokenAuthority : string;
  cfg_OrderLifetime : Duration;
  cfg_AuthorizationLifetime : Duration;
  cfg_MaxIdentifiers : Z;
  cfg_MaxPendingValidations : Z;
  cfg_DetachedWriteTimeout : Duration;
  cfg_Profiles : list Profile;
  cfg_DefaultProfile : string;
  cfg_RenewalInfo : bool;
  cfg_Workers : WorkerConfig
}.

(** Returns a configuration error with the package prefix. *)
Definition errorf (detail : string) : error := ErrMsg ("acmeserver: " +:+ detail).

(** ** Revocation reasons (src/refusal.go) *)

Definition defaultRevocationReasons : list Z := [0; 1; 3; 4; 5]%Z.

Definition revocationReasonNames : gmap Z string :=
  list_to_map [(0, "unspecified"); (1, "keyCompromise"); (2, "cACompromise");
               (3, "affiliationChanged"); (4, "superseded"); (5, "cessationOfOperation");
               (9, "privilegeWithdrawn"); (10, "aACompromise")]%Z.

(** Checks the configured reason codes. *)
Fixpoint validateRevocationReasons (reasons : list Z) : option error :=
  match reasons with
  | [] => None
  | reason :: reasons =>
      match revocationReasonNames !! reason with
      | Some _ => validateRevocationReasons reasons
      | None => Some (errorf ("Config.RevocationReasons has " +:+ pretty reason +:+
                  ". Only 0 to 5, 9 and 10 are allowed, because an ACME revocation is final"))
      end
  end.

(** [slices.Compact]: keeps the first of equal neighbours. *)
Fixpoint Compact (l : list Z) : list Z :=
  match l with
  | x :: (y :: _) as rest => if (x =? y)%Z then Compact rest else x :: Compact rest
  | _ => l
  end.

(** Returns the allowed reason codes in ascending order without repeats. *)
Definition revocationReasons (configured : list Z) : list Z :=
  if (configured == []) then defaultRevocationReasons
  else Compact (merge_sort Z.le configured).

(** Lists the allowed reason codes by name. *)
Definition revocationReasonsText (reasons : list Z) : string :=
  let names := map (λ reason, default "" (revocationReasonNames !! reason) +:+ " (" +:+ pretty reason +:+
                              ")") reasons in
  match names with
  | [name] => "The allowed reason is " +:+ name
  | _ => "The allowed reasons are " +:+ String.concat ", " (removelast names) +:+ " and " +:+
         default "" (last names)
  end.

(** ** Worker defaults (src/server.go) *)

(** Returns the worker configuration with defaults applied. *)
Definition withDefaults (c : WorkerConfig) : Res WorkerConfig :=
  if (wc_Concurrency c <? 0)%Z || (wc_PollInterval c <? 0)%Z || (wc_Lease c <? 0)%Z ||
     (wc_TaskTimeout c <? 0)%Z || (wc_MaxAttempts c <? 0)%Z || (wc_RetryDelay c <? 0)%Z ||
     (wc_StaleAfter c <? 0)%Z
  then Err (errorf "Config.Workers values must not be negative")
  else
    let orDefault (v d : Z) := if (v =? 0)%Z then d else v in
    let '(lease, taskTimeout) :=
      match (wc_Lease c =? 0)%Z, (wc_TaskTimeout c =? 0)%Z with
      | true, true => (2 * Minute, 30 * Second)%Z
      | true, false => (Z.max (2 * Minute) (i64 (2 * wc_TaskTimeout c)), wc_TaskTimeout c)%Z
      | false, true => (wc_Lease c, Z.min (30 * Second) (wc_Lease c `div` 2))%Z
      | false, false => (wc_Lease c, wc_TaskTimeout c)
      end in
    if (taskTimeout <=? 0)%Z || (lease <? i64 (2 * taskTimeout))%Z
    then Err (errorf "Config.Workers.Lease must be at least twice TaskTimeout")
    else
      Ok (mkWorkerConfig (orDefault (wc_Concurrency c) 4%Z) (orDefault (wc_PollInterval c) Second)
            lease taskTimeout (orDefault (wc_MaxAttempts c) 5%Z)
            (orDefault (wc_RetryDelay c) (5 * Second)%Z) (orDefault (wc_StaleAfter c) Minute)
            (wc_External c)).

(** ** Profile names (src/config.go) *)

Definition alnum (c : Z) : bool :=
  ((97 <=? c)%Z && (c <=? 122)%Z) || ((65 <=? c)%Z && (c <=? 90)%Z) || isDigit c.

(** Reports whether name is usable as a profile name. *)
Definition validProfileName (name : string) : bool :=
  if (name == "") || (maxProfileNameLength <? String.length name)%nat then false
  else match codes name with
  | [] => false
  | c :: rest =>
      alnum c && forallb (λ c, alnum c || (c =? 46)%Z || (c =? 95)%Z || (c =? 45)%Z) rest
  end.

Section Server.
Context `{Platform} `{StrictJSON} `{PayloadJSON}.

(** ** URLs (src/config.go) *)

(** Validates the base URL and returns it with a trailing slash. *)
Definition normalizeBaseURL (raw : string) (allowInsecure : bool) : Res URL :=
  if (raw == "") then Err (ErrMsg "acmeserver: Config.BaseURL is required")
  else match url_Parse raw with
  | Err err => Err (ErrWrap "acmeserver: Config.BaseURL: " err)
  | Ok u =>
      if (url_Scheme u != schemeHTTPS) && negb ((url_Scheme u == "http") && allowInsecure) then
        if (url_Scheme u == "http")
        then Err (ErrMsg "acmeserver: Config.BaseURL must use https unless AllowInsecureBaseURL is set")
        else Err (ErrMsg "acmeserver: Config.BaseURL must be an absolute http or https URL")
      else if (url_Host u == "") || url_User u || (url_RawQuery u != "") || (url_Fragment u != "") ||
              (url_EscapedPath u != url_Path u) || (url_Opaque u != "")
      then Err (ErrMsg ("acmeserver: Config.BaseURL must have a host and no user info, query, fragment " +:+
                        "or path that needs percent-encoding"))
      else if bool_decide (last (codes (url_Path u)) = Some 47%Z) then Ok u
      else Ok {| u with url_Path := url_Path u +:+ "/" |}
  end.

(** Reports whether raw is an absolute https URL without user info or a fragment. *)
Definition isHTTPSURL (raw : string) : bool :=
  match url_Parse raw with
  | Err _ => false
  | Ok u => (url_Scheme u == schemeHTTPS) && (url_Host u != "") && negb (url_User u) &&
            (url_Fragment u == "") && (url_Opaque u == "")
  end.

(** ** Checks of a configuration *)

(** The problem of one profile among those named before it. *)
Definition profileError (seen : gset string) (p : Profile) : option error :=
  let name := prof_Name p in
  if negb (validProfileName name)
  then Some (errorf ("Config.Profiles has the invalid name " +:+ strconv_Quote name))
  else if bool_decide (name ∈ seen) then Some (errorf ("Config.Profiles names " +:+ name +:+ " twice"))
  else if Bool.eqb (prof_Description p == "") (prof_URL p == "")
  then Some (errorf ("Config.Profiles[" +:+ name +:+ "] needs exactly one of Description and URL"))
  else if (prof_URL p != "") && negb (isHTTPSURL (prof_URL p))
  then Some (errorf ("Config.Profiles[" +:+ name +:+ "].URL must be an absolute https URL"))
  else if (prof_Description p != "") && negb (utf8_ValidString (prof_Description p))
  then Some (errorf ("Config.Profiles[" +:+ name +:+ "].Description must be valid UTF-8"))
  else None.

(** The loop of [validateProfiles]: the names seen. *)
Fixpoint profilesLoop (profiles : list Profile) (seen : gset string) : Res (gset string) :=
  match profiles with
  | [] => Ok seen
  | p :: profiles =>
      match profileError seen p with
      | Some err => Err err
      | None => profilesLoop profiles ({[prof_Name p]} ∪ seen)
      end
  end.

(** Checks the profile names, descriptions and default of a configuration. *)
Definition validateProfiles (profiles : list Profile) (defaultProfile : string) : option error :=
  if (length profiles =? 0)%nat then
    if (defaultProfile != "") then Some (errorf "Config.DefaultProfile needs Config.Profiles") else None
  else match profilesLoop profiles ∅ with
  | Err err => Some err
  | Ok seen =>
      if bool_decide (defaultProfile ∈ seen) then None
      else Some (errorf "Config.DefaultProfile must name one of Config.Profiles")
  end.

(** Reports whether a validator is configured for tkauth-01. *)
Definition hasTKAuth (cfg : Config) : bool :=
  match cfg_Validators cfg !! ChallengeTKAuth01 with
  | Some (Some _) => true
  | _ => false
  end.

(** Checks that the Authority Token identifiers have a tkauth-01 validator and a usable token
    authority URL. *)
Definition validateAuthorityTokens (cfg : Config) : option error :=
  if cfg_TNAuthListIdentifiers cfg && negb (hasTKAuth cfg)
  then Some (errorf "Config.TNAuthListIdentifiers needs a tkauth-01 validator")
  else if cfg_TNAuthListCertificatesOutliveTokens cfg && negb (cfg_TNAuthListIdentifiers cfg)
  then Some (errorf "Config.TNAuthListCertificatesOutliveTokens needs Config.TNAuthListIdentifiers")
  else if cfg_NfInstanceIDIdentifiers cfg && negb (hasTKAuth cfg)
  then Some (errorf "Config.NfInstanceIDIdentifiers needs a tkauth-01 validator")
  else if (cfg_TokenAuthority cfg != "") && negb (isHTTPSURL (cfg_TokenAuthority cfg))
  then Some (errorf "Config.TokenAuthority must be an absolute https URL")
  else None.

(** The problem of one configured validator. *)
Definition validatorError (e : ChallengeType * option Validator) : option error :=
  match e with
  | (typ, None) => Some (errorf ("Config.Validators[" +:+ ChallengeType_string typ +:+ "] is nil"))
  | (ChallengeTypeOther typ, _) =>
      Some (errorf ("Config.Validators has the unknown challenge type " +:+ typ))
  | _ => None
  end.

(** The first error of several. *)
Definition firstError (errs : list (option error)) : option error := head (omap id errs).

(** Checks the required dependencies and limits of a configuration. The source visits the
    validators in the order of a map range: where several of them are wrong, Go may report another
    of them than this order does. *)
Definition validate (cfg : Config) : option error :=
  let require (ok : bool) (detail : string) := if ok then None else Some (errorf detail) in
  firstError
    ([require (cfg_Store cfg) "Config.Store is required";
      require (cfg_Nonces cfg) "Config.Nonces is required";
      require (cfg_Issuer cfg) "Config.Issuer is required";
      require (cfg_Revoker cfg) "Config.Revoker is required";
      require (negb (size (cfg_Validators cfg) =? 0)%nat)
        "Config.Validators needs at least one validator";
      require (negb (meta_ExternalAccountRequired (cfg_Meta cfg)) || cfg_ExternalAccounts cfg)
        "Config.ExternalAccounts is required when Meta.ExternalAccountRequired is set";
      require (negb (cfg_SingleUseExternalAccounts cfg) || cfg_ExternalAccounts cfg)
        "Config.SingleUseExternalAccounts needs Config.ExternalAccounts";
      require (negb (cfg_RequireTermsOfServiceAgreed cfg) ||
               (meta_TermsOfService (cfg_Meta cfg) != ""))
        "Config.RequireTermsOfServiceAgreed needs Meta.TermsOfService";
      require (negb ((cfg_MaxRequestBody cfg <? 0)%Z || (cfg_OrderLifetime cfg <? 0)%Z ||
                     (cfg_AuthorizationLifetime cfg <? 0)%Z || (cfg_MaxIdentifiers cfg <? 0)%Z ||
                     (cfg_MaxPendingValidations cfg <? 0)%Z || (cfg_DetachedWriteTimeout cfg <? 0)%Z))
        "Config limits must not be negative";
      validateAuthorityTokens cfg] ++
     map validatorError (map_to_list (cfg_Validators cfg)) ++
     [validateRevocationReasons (cfg_RevocationReasons cfg);
      validateProfiles (cfg_Profiles cfg) (cfg_DefaultProfile cfg)]).

(** Validates the configuration and returns a Server. *)
Definition New (cfg : Config) : Res Server :=
  try base := normalizeBaseURL (cfg_BaseURL cfg) (cfg_AllowInsecureBaseURL cfg) in
  match validate cfg with
  | Some err => Err err
  | None =>
      try workers := withDefaults (cfg_Workers cfg) in
      let orDefault (v d : Z) := if (v =? 0)%Z then d else v in
      let reasons := revocationReasons (cfg_RevocationReasons cfg) in
      let profiles : gmap string Profile :=
        fold_left (λ m p, <[prof_Name p := p]> m) (cfg_Profiles cfg) ∅ in
      let meta := cfg_Meta cfg in
      let maxIdentifiers := orDefault (cfg_MaxIdentifiers cfg) DefaultMaxIdentifiers in
      Ok (mkServer (URL_String base) (url_Path base) meta
            (orDefault (cfg_MaxRequestBody cfg) DefaultMaxRequestBody)
            ((meta_TermsOfService meta != "") || (meta_Website meta != "") ||
             (meta_CAAIdentities meta != []) || meta_ExternalAccountRequired meta ||
             (0 <? size profiles)%nat)
            (omap id (cfg_Validators cfg))
            (cfg_ExternalAccounts cfg) (cfg_SingleUseExternalAccounts cfg) (cfg_PreApprover cfg)
            (cfg_ProfileChooser cfg) (cfg_IssuancePolicy cfg) (cfg_RequireTermsOfServiceAgreed cfg)
            (cfg_IPIdentifiers cfg) (cfg_TNAuthListIdentifiers cfg)
            (cfg_TNAuthListCertificatesOutliveTokens cfg) (cfg_NfInstanceIDIdentifiers cfg)
            (cfg_TokenAuthority cfg) (cfg_RenewalInfo cfg) profiles (cfg_DefaultProfile cfg)
            (orDefault (cfg_OrderLifetime cfg) DefaultOrderLifetime)
            (orDefault (cfg_AuthorizationLifetime cfg) DefaultAuthorizationLifetime)
            maxIdentifiers (orDefault (cfg_MaxPendingValidations cfg) maxIdentifiers)
            (orDefault (cfg_DetachedWriteTimeout cfg) DefaultDetachedWriteTimeout)
            workers reasons (revocationReasonsText reasons) (cfg_Refusals cfg) (cfg_Limits cfg))
  end.

(** ** Unsigned resources (src/server.go) *)

Section Routes.
Context (s : Server).

Definition readMethod (r : Request) : bool := (r_Method r == "GET") || (r_Method r == "HEAD").

(** Returns the description URL a profile is advertised with. *)
Definition profileURL (p : Profile) : string :=
  if (prof_URL p != "") then prof_URL p else resourceURL s (profilePathPrefix +:+ prof_Name p).

(** A member that is present only under a condition. *)
Definition memberIf {V} (b : bool) (name : string) (v : V) : list (string * V) :=
  if b then [(name, v)] else [].

(** Returns the directory meta member. *)
Definition metaObject : gmap string metaValue :=
  let meta := s_meta s in
  list_to_map
    (memberIf (meta_TermsOfService meta != "") "termsOfService" (MetaString (meta_TermsOfService meta)) ++
     memberIf (meta_Website meta != "") "website" (MetaString (meta_Website meta)) ++
     memberIf (meta_CAAIdentities meta != []) "caaIdentities" (MetaList (meta_CAAIdentities meta)) ++
     memberIf (meta_ExternalAccountRequired meta) "externalAccountRequired" (MetaBool true) ++
     memberIf (0 <? size (s_profiles s))%nat "profiles" (MetaMap (profileURL <$> s_profiles s))).

(** Writes the directory object. *)
Definition serveDirectory (r : Request) : Prog Response :=
  if negb (readMethod r) then writeMethodNotAllowed s r "GET, HEAD"
  else
    let url (name resource : string) := [(name, DirectoryURL (resourceURL s resource))] in
    let directory :=
      url "newNonce" resourceNewNonce ++ url "newAccount" resourceNewAccount ++
      url "newOrder" resourceNewOrder ++ url "revokeCert" resourceRevokeCert ++
      url "keyChange" resourceKeyChange ++
      memberIf (s_renewal s) "renewalInfo" (DirectoryURL (resourceURL s "renewal-info")) ++
      memberIf (s_hasMeta s) "meta" (DirectoryMetaObject metaObject) in
    mret (mkResponse StatusOK (setHeader "Content-Type" contentTypeJSON [])
            (BodyDirectory (list_to_map directory))).

(** Writes the plain-text description of a profile the server publishes itself. *)
Definition serveProfile (r : Request) (name : string) : Prog Response :=
  if negb (readMethod r) then writeMethodNotAllowed s r "GET, HEAD"
  else
    let description := default "" (prof_Description <$> s_profiles s !! name) in
    if (description == "") then writeProblem s r false [] notFound
    else
      let h := setHeader "Content-Length" (pretty (String.length description))
                 (setHeader "Content-Type" contentTypeText []) in
      mret (mkResponse StatusOK h (if (r_Method r == "GET") then BodyText description else BodyEmpty)).

(** Answers HEAD with 200 and GET with 204, both with a fresh nonce. *)
Definition serveNewNonce (r : Request) : Prog Response :=
  let ctx := r_Context r in
  if negb (readMethod r) then writeMethodNotAllowed s r "GET, HEAD"
  else
    refusal ← checkLimit s ctx (mkLimitRequest LimitNewNonce (clientAddr r) None [] "" 0);
    match refusal with
    | Some p => writeProblemWithoutNonce s [] p
    | None =>
        res ← call (OpNonceIssue ctx);
        match res with
        | Err _ =>
            writeProblemWithoutNonce s [] (NewProblem ErrorServerInternal "nonce issuance failed")
        | Ok nonce =>
            let h := setHeader "Replay-Nonce" nonce (setCommonHeaders s []) in
            mret (mkResponse (if (r_Method r == "HEAD") then StatusOK else StatusNoContent) h BodyEmpty)
        end
    end.

(** ** Routing *)

(** Runs the handler for POST requests and rejects every other method. *)
Definition servePOST (r : Request) (handler : Request → Prog Response) : Prog Response :=
  if (r_Method r != "POST") then writeMethodNotAllowed s r "POST" else handler r.

(** The handler of a resource with an ID, if the path names one. *)
Definition resourceHandler (kind id suffix : string) : option (Request → Prog Response) :=
  let kind := kind +:+ "/" in
  if (kind == accountPathPrefix) && (suffix == "") then Some (λ r, serveAccount s r id)
  else if (kind == accountPathPrefix) && (suffix == "orders")
  then Some (λ r, serveAccountOrders s r id)
  else if (kind == orderPathPrefix) && (suffix == "") then Some (λ r, serveOrder s r id)
  else if (kind == orderPathPrefix) && (suffix == "finalize") then Some (λ r, serveFinalize s r id)
  else if (kind == authzPathPrefix) && (suffix == "") then Some (λ r, serveAuthorization s r id)
  else if (kind == challengePathPrefix) && (suffix == "") then Some (λ r, serveChallenge s r id)
  else if (kind == certPathPrefix) && (suffix == "") then Some (λ r, serveCertificate s r id)
  else None.

(** Routes a request to a resource that carries an ID in its path. *)
Definition serveResource (r : Request) (rel : string) : Prog Response :=
  let unknown := writeProblem s r false [] notFound in
  match Cut 47 rel with
  | (_, None) => unknown
  | (kind, Some rest) =>
      if (kind +:+ "/" == renewalPathPrefix) then serveRenewalInfo s r rest
      else if (kind +:+ "/" == profilePathPrefix) then serveProfile r rest
      else
        let '(id, after) := Cut 47 rest in
        if negb (validID id) then unknown
        else match resourceHandler kind id (default "" after) with
        | None => unknown
        | Some handler => servePOST r handler
        end
  end.

(** Routes a request to the resource named by its path. *)
Definition ServeHTTP (r : Request) : Prog Response :=
  if negb (HasPrefix (s_basePath s) (r_Path r)) then writeProblem s r false [] notFound
  else
    let rel := tail_from (String.length (s_basePath s)) (r_Path r) in
    if (rel == resourceDirectory) then serveDirectory r
    else if (rel == resourceNewNonce) then serveNewNonce r
    else if (rel == resourceNewAccount) then servePOST r (serveNewAccount s)
    else if (rel == resourceNewOrder) then servePOST r (serveNewOrder s)
    else if (rel == resourceRevokeCert) then servePOST r (serveRevokeCert s)
    else if (rel == resourceKeyChange) then servePOST r (serveKeyChange s)
    else serveResource r rel.

End Routes.
End Server.
