(* ===== verification/Lifecycle.v ===== *)
(** * Life cycles of stored resources

    The abstract contract of the server as a whole. Each kind of stored resource has a step
    relation that lists every change it may ever see, and a history of the store is acceptable when
    all its changes are such steps and every state satisfies the invariant that ties orders,
    authorizations and certificates together. The history also records the calls that leave the
    server, so that what a call needs is stated of the history before it.

    This file defines the relations and proves what they give about two points of one history;
    that the handlers and workers keep to them, however they interleave, is the subject of
    System.v. *)

From S2P Require Import Prelude Status Problem Resource Base64 StoreSpec Prog Host Platform Chain Orders Revoke.

(** ** Histories *)

(** Calls that leave the server, with the answers that matter: readings of the clock, random
    numbers, validations that succeeded, approvals, and the requests to the CA. *)
Inductive event : Type :=
| EvNow (now : Time)
| EvRandom (b : bytes)
| EvValidated (req : ValidationRequest)
| EvPreApproved (order : Order) (ids : list Identifier)
| EvIssue (req : IssueRequest)
| EvRevoke (req : RevokeRequest).

(** A history, newest entry first: states the store went through and calls made. *)
Inductive entry : Type :=
| Committed (a : AStore)
| Called (ev : event).

Notation World := (list entry) (only parsing).

(** The state of the store. *)
Fixpoint current (w : World) : AStore :=
  match w with
  | [] => AStore_empty
  | Committed a :: _ => a
  | Called _ :: w => current w
  end.

(** ** Changes of one resource *)

(** The changes of an order, revision aside. *)
Inductive order_next : Order → Order → Prop :=
| order_kept o : order_next o o
| order_derived o status :
    ord_Status o = OrderPending → OrderStatus_CanTransition OrderPending status = true →
    order_next o {| o with ord_Status := status |}
| order_invalidated o :
    spec_undispatched o = true →
    order_next o {| o with ord_Status := OrderInvalid;
                           ord_Error := Some InvalidAuthorizationProblem |}
| order_finalized o der :
    ord_Status o = OrderReady →
    order_next o {| o with ord_Status := OrderProcessing; ord_CSR := der |}
| order_dispatched o st :
    ord_Status o = OrderProcessing → ord_Issuance o = None →
    order_next o {| o with ord_Issuance := Some st |}
| order_failed o p result :
    ord_Status o = OrderProcessing →
    order_next o {| o with ord_Status := OrderInvalid; ord_Error := p;
                           ord_UnpublishedResult := result |}
| order_published o st id :
    ord_Status o = OrderProcessing → ord_Issuance o = Some st →
    order_next o {| o with ord_Status := OrderValid; ord_CertificateID := id; ord_Error := None |}.

(** The changes of an authorization. *)
Inductive authz_next : Authorization → Authorization → Prop :=
| authz_kept z : authz_next z z
| authz_validated z expires ca grantExpires names nfType :
    az_Status z = AuthorizationPending →
    authz_next z {| z with az_Status := AuthorizationValid; az_Expires := expires;
                           az_CACertificate := ca; az_GrantExpires := grantExpires;
                           az_GrantNames := names; az_GrantNFType := nfType |}
| authz_failed z :
    az_Status z = AuthorizationPending →
    authz_next z {| z with az_Status := AuthorizationInvalid |}
| authz_deactivated z :
    az_Status z = AuthorizationPending ∨ az_Status z = AuthorizationValid →
    authz_next z {| z with az_Status := AuthorizationDeactivated |}.

(** The changes of a challenge. *)
Inductive challenge_next : Challenge → Challenge → Prop :=
| challenge_accepted c thumbprint token :
    ch_Status c = ChallengePending →
    challenge_next c {| c with ch_Status := ChallengeProcessing; ch_KeyThumbprint := thumbprint;
                               ch_AuthorityToken := token |}
| challenge_retried c p :
    ch_Status c = ChallengeProcessing → challenge_next c {| c with ch_Error := p |}
| challenge_settled c status validated p :
    ch_Status c = ChallengeProcessing → status = ChallengeValid ∨ status = ChallengeInvalid →
    challenge_next c {| c with ch_Status := status; ch_Validated := validated; ch_Error := p |}.

(** The changes of a certificate. *)
Inductive cert_next : Certificate → Certificate → Prop :=
| cert_replaced c id : cert_next c {| c with crt_ReplacedByOrderID := id |}
| cert_operation c id reason t :
    crt_Revoked c = false → cert_next c (withOperation c id reason t)
| cert_revoked c now id reason t :
    crt_Revoked c = false →
    cert_next c (withOperation {| c with crt_Revoked := true; crt_RevokedAt := now |} id reason t).

(** The changes of an account. *)
Inductive account_next : Account → Account → Prop :=
| account_updated b contact status :
    acct_Status b = AccountValid → status = AccountValid ∨ status = AccountDeactivated →
    account_next b {| b with acct_Contact := contact; acct_Status := status |}
| account_rekeyed b key thumbprint :
    acct_Status b = AccountValid →
    account_next b {| b with acct_Key := key; acct_KeyThumbprint := thumbprint |}.

(** A stored change carries the next revision. *)
Definition order_step (o o' : Order) : Prop :=
  ∃ u, order_next o u ∧ o' = {| u with ord_Revision := (ord_Revision o + 1)%Z |}.
Definition authz_step (z z' : Authorization) : Prop :=
  ∃ u, authz_next z u ∧ z' = {| u with az_Revision := (az_Revision z + 1)%Z |}.
Definition challenge_step (c c' : Challenge) : Prop :=
  ∃ u, challenge_next c u ∧ c' = {| u with ch_Revision := (ch_Revision c + 1)%Z |}.
Definition cert_step (c c' : Certificate) : Prop :=
  ∃ u, cert_next c u ∧ c' = {| u with crt_Revision := (crt_Revision c + 1)%Z |}.
Definition account_step (b b' : Account) : Prop :=
  ∃ u, account_next b u ∧ b' = {| u with acct_Revision := (acct_Revision b + 1)%Z |}.

(** Stored resources are never removed and change only by steps. *)
Definition map_step {V} (step : V → V → Prop) (m m' : gmap string V) : Prop :=
  ∀ id v, m !! id = Some v → ∃ v', m' !! id = Some v' ∧ (v' = v ∨ step v v').

(** ** What a state and its past have to satisfy *)

(** The authorization of an order for one of its identifiers. *)
Definition order_authz (a : AStore) (o : Order) (zid : string) (identifier : Identifier) : Prop :=
  ∃ z, as_authzs a !! zid = Some z ∧ az_OrderID z = ord_ID o ∧ az_AccountID z = ord_AccountID o ∧
       orderIdentifier z = identifier.

Definition authz_valid (a : AStore) (zid : string) : Prop :=
  ∃ z, as_authzs a !! zid = Some z ∧ az_Status z = AuthorizationValid.

(** The evidence a dispatch records for an authorization. *)
Definition evidence_of (z : Authorization) (v : Validation) : Prop :=
  v_Identifier v = orderIdentifier z ∧ v_CACertificate v = az_CACertificate z ∧
  v_Names v = az_GrantNames z ∧ v_NFType v = az_GrantNFType z ∧ v_PreApproved v = az_PreApproved z.

(** An authorization that backs a dispatch: the evidence is its own, its authority token had not
    expired at the decision and signing has to start before either expires. *)
Definition backs (st : IssuanceState) (z : Authorization) (v : Validation) : Prop :=
  evidence_of z v ∧ (is_Deadline st ≤ az_Expires z)%Z ∧
  (az_GrantExpires z ≠ zeroTime →
   (is_AuthorizedAt st < az_GrantExpires z)%Z ∧ (is_Deadline st ≤ az_GrantExpires z)%Z).

(** The state a dispatch of the order was decided in: its account is valid and so is each of its
    authorizations, unexpired at the time of the decision. *)
Definition dispatchable (a : AStore) (o : Order) (st : IssuanceState) : Prop :=
  (∃ o0, as_orders a !! ord_ID o = Some o0 ∧ ord_Status o0 = OrderProcessing ∧
         ord_Issuance o0 = None ∧ ord_CSR o0 = ord_CSR o) ∧
  (∃ b, as_accounts a !! ord_AccountID o = Some b ∧ acct_Status b = AccountValid) ∧
  Forall2 (λ zid v, ∃ z, as_authzs a !! zid = Some z ∧ az_Status z = AuthorizationValid ∧
                         (is_AuthorizedAt st < az_Expires z)%Z ∧ backs st z v)
    (ord_AuthorizationIDs o) (is_Validations st) ∧
  (is_Deadline st ≤ ord_Expires o)%Z.

(** Some point of the past satisfies [P]. *)
Definition past (w : World) (P : AStore → Prop) : Prop :=
  ∃ w0, w0 `suffix_of` w ∧ P (current w0).

(** The server read the time [t] from its clock in a state that satisfies [P]. *)
Definition clocked (w : World) (t : Time) (P : AStore → Prop) : Prop :=
  ∃ w0, (Called (EvNow t) :: w0) `suffix_of` w ∧ P (current w0).

(** The order is finalized and waits for its dispatch. *)
Definition awaiting (o : Order) (a : AStore) : Prop :=
  ∃ o0, as_orders a !! ord_ID o = Some o0 ∧ ord_Status o0 = OrderProcessing ∧ ord_Issuance o0 = None.

(** The dispatch of an order was stored in a state that justifies it, and its time of decision was
    read from the clock while the order waited for it. *)
Definition decided (w : World) (o : Order) (st : IssuanceState) : Prop :=
  ∃ w0, w0 `suffix_of` w ∧ dispatchable (current w0) o st ∧ clocked w0 (is_AuthorizedAt st) (awaiting o).

(** A validator accepted a proof for the authorization. *)
Definition validated (w : World) (z : Authorization) : Prop :=
  ∃ req, Called (EvValidated req) ∈ w ∧ ch_AuthorizationID (vq_Challenge req) = az_ID z ∧
         vq_Identifier req = az_Identifier z ∧ vq_Wildcard req = az_Wildcard z.

Section Lifecycle.
Context `{Platform}.

(** The host's policy approved the authorization when its order was created. *)
Definition approved (w : World) (z : Authorization) : Prop :=
  ∃ order ids id, Called (EvPreApproved order ids) ∈ w ∧ ord_ID order = az_OrderID z ∧ id ∈ ids ∧
                  Identifier.Normalize id = Ok (orderIdentifier z).

(** The chain of a stored certificate passed the checks of publication for its order. *)
Definition published (w : World) (c : Certificate) : Prop :=
  ∃ o st csr now leaf der,
    past w (λ a, as_orders a !! ord_ID o = Some o) ∧
    ord_Status o = OrderProcessing ∧ ord_Issuance o = Some st ∧
    x509_ParseCertificateRequest (ord_CSR o) = Ok csr ∧
    checkChain (crt_Chain c) csr o now = Ok leaf ∧
    head (crt_Chain c) = Some der ∧ crt_ID c = certificateID der ∧
    crt_OrderID c = ord_ID o ∧ crt_AccountID c = ord_AccountID o ∧
    crt_Validations c = is_Validations st.

Record order_ok (w : World) (a : AStore) (o : Order) : Prop := {
  ok_authzs : Forall2 (order_authz a o) (ord_AuthorizationIDs o) (ord_Identifiers o);
  ok_pending : ord_Status o = OrderPending → ∃ zid, zid ∈ ord_AuthorizationIDs o ∧ ¬ authz_valid a zid;
  ok_ready : ord_Status o = OrderReady ∨ (ord_Status o = OrderProcessing ∧ ord_Issuance o = None) →
             Forall (authz_valid a) (ord_AuthorizationIDs o);
  ok_known : OrderStatus_Known (ord_Status o) = true;
  ok_unissued : ord_Status o = OrderPending ∨ ord_Status o = OrderReady → ord_Issuance o = None;
  ok_issuance : ∀ st, ord_Issuance o = Some st → decided w o st;
  ok_uncertified : ord_Status o ≠ OrderValid → ord_CertificateID o = "";
  ok_valid : ord_Status o = OrderValid →
             is_Some (ord_Issuance o) ∧
             ∃ c, as_certificates a !! ord_CertificateID o = Some c ∧ crt_OrderID c = ord_ID o
}.

Record authz_ok (w : World) (a : AStore) (z : Authorization) : Prop := {
  ok_order : ∃ o, as_orders a !! az_OrderID z = Some o ∧ az_ID z ∈ ord_AuthorizationIDs o;
  ok_approved : az_PreApproved z = true → approved w z;
  ok_proved : az_Status z = AuthorizationValid → az_PreApproved z = false → validated w z
}.

Record inv (w : World) (a : AStore) : Prop := {
  inv_accounts : ∀ id b, as_accounts a !! id = Some b → acct_ID b = id ∧ acct_KeyThumbprint b ≠ "";
  inv_orders : ∀ id o, as_orders a !! id = Some o → ord_ID o = id ∧ order_ok w a o;
  inv_authzs : ∀ id z, as_authzs a !! id = Some z → az_ID z = id ∧ authz_ok w a z;
  inv_challenges : ∀ id c, as_challenges a !! id = Some c → ch_ID c = id;
  inv_certs : ∀ id c, as_certificates a !! id = Some c → crt_ID c = id ∧ published w c
}.

(** An order that is not touched and for which nothing was dispatched keeps which of its
    authorizations are valid. *)
Definition coupled (a a' : AStore) : Prop :=
  ∀ id o zid, as_orders a !! id = Some o → as_orders a' !! id = Some o →
    spec_undispatched o = true → zid ∈ ord_AuthorizationIDs o →
    (authz_valid a zid ↔ authz_valid a' zid).

(** One change of the store. *)
Record trans (a a' : AStore) : Prop := {
  tr_accounts : map_step account_step (as_accounts a) (as_accounts a');
  tr_orders : map_step order_step (as_orders a) (as_orders a');
  tr_authzs : map_step authz_step (as_authzs a) (as_authzs a');
  tr_challenges : map_step challenge_step (as_challenges a) (as_challenges a');
  tr_certs : map_step cert_step (as_certificates a) (as_certificates a');
  tr_coupled : coupled a a'
}.

(** What a call needs of the history before it. *)
Definition call_ok (w : World) (ev : event) : Prop :=
  match ev with
  | EvRandom b => Called (EvRandom b) ∉ w
  | EvIssue req =>
      ∃ o st, past w (λ a, as_orders a !! ord_ID o = Some o) ∧
        ord_Status o = OrderProcessing ∧ ord_Issuance o = Some st ∧
        iq_OrderID req = ord_ID o ∧ iq_AccountID req = ord_AccountID o ∧
        iq_OperationID req = is_OperationID st ∧ iq_CSRDER req = ord_CSR o ∧
        iq_Identifiers req = ord_Identifiers o ∧ iq_Validations req = is_Validations st ∧
        iq_NotBefore req = ord_NotBefore o ∧ iq_NotAfter req = issuedNotAfter o ∧
        iq_Deadline req = is_Deadline st ∧ iq_Profile req = ord_Profile o
  | EvRevoke req =>
      ∃ c, past w (λ a, as_certificates a !! crt_ID c = Some c) ∧
        head (crt_Chain c) = Some (rq_DER req) ∧ crt_RevocationOperationID c = rq_OperationID req ∧
        crt_RevocationReason c = rq_Reason req
  | _ => True
  end.

(** An acceptable history. *)
Fixpoint hist_ok (w : World) : Prop :=
  match w with
  | [] => True
  | Committed a :: w => hist_ok w ∧ trans (current w) a ∧ inv w a
  | Called ev :: w => hist_ok w ∧ call_ok w ev
  end.

End Lifecycle.

(** ** Facts of single steps *)

Definition order_fixed (o o' : Order) : Prop :=
  ord_ID o' = ord_ID o ∧ ord_AccountID o' = ord_AccountID o ∧ ord_Expires o' = ord_Expires o ∧
  ord_Identifiers o' = ord_Identifiers o ∧ ord_NotBefore o' = ord_NotBefore o ∧
  ord_NotAfter o' = ord_NotAfter o ∧ ord_AuthorizationIDs o' = ord_AuthorizationIDs o ∧
  ord_Replaces o' = ord_Replaces o ∧ ord_Profile o' = ord_Profile o ∧
  ord_CreatedAt o' = ord_CreatedAt o.

Definition authz_fixed (z z' : Authorization) : Prop :=
  az_ID z' = az_ID z ∧ az_AccountID z' = az_AccountID z ∧ az_OrderID z' = az_OrderID z ∧
  az_Identifier z' = az_Identifier z ∧ az_Wildcard z' = az_Wildcard z ∧
  az_ChallengeIDs z' = az_ChallengeIDs z ∧ az_PreApproved z' = az_PreApproved z ∧
  az_CreatedAt z' = az_CreatedAt z.

Definition challenge_fixed (c c' : Challenge) : Prop :=
  ch_ID c' = ch_ID c ∧ ch_AuthorizationID c' = ch_AuthorizationID c ∧
  ch_AccountID c' = ch_AccountID c ∧ ch_Type c' = ch_Type c ∧ ch_Token c' = ch_Token c.

Definition cert_fixed (c c' : Certificate) : Prop :=
  crt_ID c' = crt_ID c ∧ crt_AccountID c' = crt_AccountID c ∧ crt_OrderID c' = crt_OrderID c ∧
  crt_CAReference c' = crt_CAReference c ∧ crt_Chain c' = crt_Chain c ∧
  crt_NotBefore c' = crt_NotBefore c ∧ crt_NotAfter c' = crt_NotAfter c ∧
  crt_RenewalID c' = crt_RenewalID c ∧ crt_Validations c' = crt_Validations c ∧
  crt_CreatedAt c' = crt_CreatedAt c.

Lemma order_step_fixed o o' : order_step o o' → order_fixed o o'.
Proof. intros (u & Hnext & ->). by destruct Hnext. Qed.

Lemma authz_step_fixed z z' : authz_step z z' → authz_fixed z z'.
Proof. intros (u & Hnext & ->). by destruct Hnext. Qed.

Lemma challenge_step_fixed c c' : challenge_step c c' → challenge_fixed c c'.
Proof. intros (u & Hnext & ->). by destruct Hnext. Qed.

Lemma cert_step_fixed c c' : cert_step c c' → cert_fixed c c'.
Proof. intros (u & Hnext & ->). by destruct Hnext. Qed.

Lemma account_step_fixed b b' :
  account_step b b' → acct_ID b' = acct_ID b ∧ acct_CreatedAt b' = acct_CreatedAt b.
Proof. intros (u & Hnext & ->). by destruct Hnext. Qed.

#[export] Instance order_fixed_preorder : PreOrder order_fixed.
Proof.
  split; [intros o; by repeat split|]. unfold order_fixed. intros x y z Hxy Hyz.
  destruct_and!. repeat split; congruence.
Qed.

#[export] Instance authz_fixed_preorder : PreOrder authz_fixed.
Proof.
  split; [intros o; by repeat split|]. unfold authz_fixed. intros x y z Hxy Hyz.
  destruct_and!. repeat split; congruence.
Qed.

#[export] Instance challenge_fixed_preorder : PreOrder challenge_fixed.
Proof.
  split; [intros o; by repeat split|]. unfold challenge_fixed. intros x y z Hxy Hyz.
  destruct_and!. repeat split; congruence.
Qed.

#[export] Instance cert_fixed_preorder : PreOrder cert_fixed.
Proof.
  split; [intros o; by repeat split|]. unfold cert_fixed. intros x y z Hxy Hyz.
  destruct_and!. repeat split; congruence.
Qed.

(** A relation that contains every step contains every sequence of steps. *)
Lemma rtc_in {V} (step R : relation V) `{!PreOrder R} v v' :
  (∀ x y, step x y → R x y) → rtc step v v' → R v v'.
Proof. intros Hstep. induction 1 as [|x y z Hxy _ IH]; [done|]. etrans; eauto. Qed.

Lemma orderIdentifier_fixed z z' : authz_fixed z z' → orderIdentifier z' = orderIdentifier z.
Proof. intros (_ & _ & _ & Hid & Hw & _). unfold orderIdentifier. by rewrite Hid, Hw. Qed.

(** Sequences of steps only move statuses forward and never change a dispatch. *)
Lemma order_issuance_kept o o' st :
  rtc order_step o o' → ord_Issuance o = Some st → ord_Issuance o' = Some st.
Proof.
  induction 1 as [|x y z (u & Hnext & ->) _ IH]; [done|].
  intros Hst. apply IH. by destruct Hnext; simplify_eq/=.
Qed.

Lemma order_csr_kept o o' :
  rtc order_step o o' → ord_Status o ≠ OrderPending → ord_Status o ≠ OrderReady →
  ord_CSR o' = ord_CSR o ∧ ord_Status o' ≠ OrderPending ∧ ord_Status o' ≠ OrderReady.
Proof.
  induction 1 as [|x y z (u & Hnext & ->) _ IH]; [done|]. intros Hp Hr.
  destruct Hnext; simplify_eq/=; try by apply IH.
Qed.

Lemma cert_revoked_kept c c' : rtc cert_step c c' → crt_Revoked c = true → crt_Revoked c' = true.
Proof.
  induction 1 as [|x y z (u & Hnext & ->) _ IH]; [done|].
  intros Hrev. apply IH. by destruct Hnext; simplify_eq/=.
Qed.

(** ** Two versions of one resource *)

Section Versions.
Context {V : Type} (step : V → V → Prop) (rev : V → Z).
Context (step_rev : ∀ v v', step v v' → rev v' = (rev v + 1)%Z).

Lemma rtc_rev v v' : rtc step v v' → (rev v ≤ rev v')%Z ∧ (rev v = rev v' → v = v').
Proof.
  induction 1 as [v|x y z Hxy _ [IH _]]; [done|]. apply step_rev in Hxy. split; lia.
Qed.

Lemma rtc_rev_eq v v' : rtc step v v' → rev v = rev v' → v = v'.
Proof. intros Hrtc. by apply rtc_rev. Qed.

(** A version between two equal ones is the same. *)
Lemma rtc_between v u : rtc step v u → rtc step u v → u = v.
Proof. intros Hvu Huv. apply rtc_rev in Hvu as [? Heq], Huv as [? _]. symmetry. apply Heq. lia. Qed.

Lemma map_step_rtc (m m' : gmap string V) id v :
  map_step step m m' → m !! id = Some v → ∃ v', m' !! id = Some v' ∧ rtc step v v'.
Proof.
  intros Hm Hv. destruct (Hm _ _ Hv) as (v' & Hv' & Hs). exists v'. split; [done|].
  destruct Hs as [->|]; [done|by apply rtc_once].
Qed.
End Versions.

Lemma order_step_rev o o' : order_step o o' → ord_Revision o' = (ord_Revision o + 1)%Z.
Proof. by intros (u & _ & ->). Qed.
Lemma authz_step_rev z z' : authz_step z z' → az_Revision z' = (az_Revision z + 1)%Z.
Proof. by intros (u & _ & ->). Qed.
Lemma challenge_step_rev c c' : challenge_step c c' → ch_Revision c' = (ch_Revision c + 1)%Z.
Proof. by intros (u & _ & ->). Qed.
Lemma cert_step_rev c c' : cert_step c c' → crt_Revision c' = (crt_Revision c + 1)%Z.
Proof. by intros (u & _ & ->). Qed.
Lemma account_step_rev b b' : account_step b b' → acct_Revision b' = (acct_Revision b + 1)%Z.
Proof. by intros (u & _ & ->). Qed.

#[export] Hint Resolve order_step_rev authz_step_rev challenge_step_rev cert_step_rev
  account_step_rev : acme.

(** ** Histories grow *)

Lemma past_mono w w' P : w `suffix_of` w' → past w P → past w' P.
Proof. intros Hle (w0 & Hw0 & HP). exists w0. split; [by etrans|done]. Qed.

Lemma past_now w (P : AStore → Prop) : P (current w) → past w P.
Proof. intros HP. by exists w. Qed.

Lemma past_impl w (P Q : AStore → Prop) : (∀ a, P a → Q a) → past w P → past w Q.
Proof. intros HPQ (w0 & Hw0 & HP). exists w0. eauto. Qed.

Lemma elem_of_suffix {A} (x : A) l l' : l `suffix_of` l' → x ∈ l → x ∈ l'.
Proof. intros [k ->] Hx. apply elem_of_app. by right. Qed.

Lemma validated_mono w w' z : w `suffix_of` w' → validated w z → validated w' z.
Proof. intros Hle (req & Hin & ?). exists req. split; [by eapply elem_of_suffix|done]. Qed.

Lemma clocked_mono w w' t P : w `suffix_of` w' → clocked w t P → clocked w' t P.
Proof. intros Hle (w0 & Hw0 & HP). exists w0. split; [by etrans|done]. Qed.

Lemma decided_mono w w' o st : w `suffix_of` w' → decided w o st → decided w' o st.
Proof. intros Hle (w0 & Hw0 & ?). exists w0. split; [by etrans|done]. Qed.

#[export] Hint Resolve past_mono past_now validated_mono clocked_mono : acme.

Section LifecycleFacts.
Context `{Platform}.

Lemma approved_mono w w' z : w `suffix_of` w' → approved w z → approved w' z.
Proof.
  intros Hle (order & ids & id & Hin & ?). exists order, ids, id.
  split; [by eapply elem_of_suffix|done].
Qed.

Lemma published_mono w w' c : w `suffix_of` w' → published w c → published w' c.
Proof.
  intros Hle (o & st & csr & now & leaf & der & Hpast & ?). exists o, st, csr, now, leaf, der.
  split; [by eapply past_mono|done].
Qed.

Lemma order_ok_mono w w' a o : w `suffix_of` w' → order_ok w a o → order_ok w' a o.
Proof. intros Hle [?????? ? ?]. split; eauto using decided_mono. Qed.

Lemma authz_ok_mono w w' a z : w `suffix_of` w' → authz_ok w a z → authz_ok w' a z.
Proof.
  intros Hle [???]. split; eauto using approved_mono, validated_mono.
Qed.

Lemma inv_mono w w' a : w `suffix_of` w' → inv w a → inv w' a.
Proof.
  intros Hle [? Ho Hz ? Hc]. split; [done| | |done|].
  - intros id o Hid. destruct (Ho _ _ Hid). split; [done|]. by eapply order_ok_mono.
  - intros id z Hid. destruct (Hz _ _ Hid). split; [done|]. by eapply authz_ok_mono.
  - intros id c Hid. destruct (Hc _ _ Hid). split; [done|]. by eapply published_mono.
Qed.

Lemma inv_empty w : inv w AStore_empty.
Proof. by split. Qed.

Lemma hist_ok_suffix w w' : w `suffix_of` w' → hist_ok w' → hist_ok w.
Proof.
  intros [k ->]. induction k as [|[a|ev] k IH]; simpl; [done| |]; intros (? & _); by apply IH.
Qed.

Lemma hist_inv w : hist_ok w → inv w (current w).
Proof.
  induction w as [|[a|ev] w IH]; simpl; [intros _; apply inv_empty| |].
  - intros (_ & _ & Hinv). eapply inv_mono; [|done]. by apply suffix_cons_r.
  - intros (Hw & _). eapply inv_mono; [|by apply IH]. by apply suffix_cons_r.
Qed.

(** A property of single changes holds between any two points of a history. *)
Lemma hist_ind (R : AStore → AStore → Prop) `{!PreOrder R} w w' :
  (∀ a a', trans a a' → R a a') → w `suffix_of` w' → hist_ok w' → R (current w) (current w').
Proof.
  intros Htrans [k ->]. induction k as [|[a|ev] k IH]; simpl; [done| |].
  - intros (Hw & Ha & _). etrans; [by apply IH|by apply Htrans].
  - intros (Hw & _). by apply IH.
Qed.

(** Stored resources stay stored and reach their present version by steps. *)
Definition later {V} (step : V → V → Prop) (f : AStore → gmap string V) (a a' : AStore) : Prop :=
  ∀ id v, f a !! id = Some v → ∃ v', f a' !! id = Some v' ∧ rtc step v v'.

#[export] Instance later_preorder {V} (step : V → V → Prop) f : PreOrder (later step f).
Proof.
  split.
  - intros a id v Hv. by exists v.
  - intros a b c Hab Hbc id v Hv. destruct (Hab _ _ Hv) as (v' & Hv' & ?).
    destruct (Hbc _ _ Hv') as (v'' & Hv'' & ?). exists v''. split; [done|]. by etrans.
Qed.

Lemma orders_later w w' : w `suffix_of` w' → hist_ok w' → later order_step as_orders (current w) (current w').
Proof. apply (hist_ind _). intros a a' [] id v. by apply map_step_rtc. Qed.
Lemma authzs_later w w' : w `suffix_of` w' → hist_ok w' → later authz_step as_authzs (current w) (current w').
Proof. apply (hist_ind _). intros a a' [] id v. by apply map_step_rtc. Qed.
Lemma challenges_later w w' :
  w `suffix_of` w' → hist_ok w' → later challenge_step as_challenges (current w) (current w').
Proof. apply (hist_ind _). intros a a' [] id v. by apply map_step_rtc. Qed.
Lemma certs_later w w' :
  w `suffix_of` w' → hist_ok w' → later cert_step as_certificates (current w) (current w').
Proof. apply (hist_ind _). intros a a' [] id v. by apply map_step_rtc. Qed.
Lemma accounts_later w w' :
  w `suffix_of` w' → hist_ok w' → later account_step as_accounts (current w) (current w').
Proof. apply (hist_ind _). intros a a' [] id v. by apply map_step_rtc. Qed.

(** A version read in the past is the present one when the revisions agree. *)
Section Reread.
Context {V : Type} (step : V → V → Prop) (rev : V → Z) (f : AStore → gmap string V).
Context (step_rev : ∀ v v', step v v' → rev v' = (rev v + 1)%Z).
Context (f_later : ∀ w w', w `suffix_of` w' → hist_ok w' → later step f (current w) (current w')).

Lemma reread w id v v' :
  hist_ok w → past w (λ a, f a !! id = Some v) → f (current w) !! id = Some v' → rev v' = rev v → v' = v.
Proof.
  intros Hw (w0 & Hle & Hv) Hv' Hrev.
  destruct (f_later _ _ Hle Hw _ _ Hv) as (v'' & Hv'' & Hrtc). rewrite Hv' in Hv''. simplify_eq.
  symmetry. by apply (rtc_rev_eq step rev).
Qed.

Lemma present w id v :
  hist_ok w → past w (λ a, f a !! id = Some v) → ∃ v', f (current w) !! id = Some v' ∧ rtc step v v'.
Proof. intros Hw (w0 & Hle & Hv). by eapply f_later. Qed.
End Reread.

(** While an order stays the same and nothing was dispatched for it, so do the validities of its
    authorizations. *)
Lemma validity_kept w w' id o zid :
  w `suffix_of` w' → hist_ok w' →
  as_orders (current w) !! id = Some o → as_orders (current w') !! id = Some o →
  spec_undispatched o = true → zid ∈ ord_AuthorizationIDs o →
  authz_valid (current w) zid ↔ authz_valid (current w') zid.
Proof.
  intros [k ->] Hw Ho. revert Hw. induction k as [|[a|ev] k IH]; simpl; [done| |].
  - intros (Hw & Htr & _) Ho' Hund Hz.
    destruct (orders_later w (k ++ w)) with id o as (u & Hu & Hou); [by exists k|done..|].
    destruct (map_step_rtc _ _ _ _ _ (tr_orders _ _ Htr) Hu) as (v & Hv & Huv).
    rewrite Ho' in Hv. simplify_eq.
    assert (u = v) as -> by eauto using rtc_between with acme.
    rewrite IH by done. by apply (tr_coupled _ _ Htr id v).
  - intros (Hw & _). by apply IH.
Qed.

End LifecycleFacts.
