(* ===== verification/System.v ===== *)
(** * The system of handlers, workers and store

    What a call of a handler or worker does to the history ([sys_step]), what the program has to
    guarantee when it makes one ([guar]), and that guaranteed calls keep the history acceptable.
    A store call is executed on the abstract store of StoreSpec.v, fails without effect, or is
    executed with its answer lost. Clocks, limits and the CA answer as they like, and so do policies,
    except that a new account they accept still has an ID and a thumbprint. *)

From S2P Require Import Prelude Status Problem Resource Base64 StoreSpec Prog Host Platform Chain Orders Revoke Lifecycle.

(** ** Steps *)

(** A failure of the connection to the store carries none of the store's own errors. *)
Definition transport (err : error) : Prop :=
  IsNotFound err = false ∧ IsConflict err = false ∧ IsRevisionMismatch err = false ∧
  IsAlreadyReplaced err = false.

(** Revisions have room for one more write: fewer than 2^64 writes of one resource. *)
Definition has_room (r : Z) : Prop := (0 ≤ r < 2 ^ 64 - 1)%Z.

Record room (a : AStore) : Prop := {
  room_accounts : map_Forall (λ _ b, has_room (acct_Revision b)) (as_accounts a);
  room_orders : map_Forall (λ _ o, has_room (ord_Revision o)) (as_orders a);
  room_authzs : map_Forall (λ _ z, has_room (az_Revision z)) (as_authzs a);
  room_challenges : map_Forall (λ _ c, has_room (ch_Revision c)) (as_challenges a);
  room_certs : map_Forall (λ _ c, has_room (crt_Revision c)) (as_certificates a)
}.

(** The history after a store call was executed. *)
Definition executed {X} (c : storeCall X) (w : World) : World :=
  Committed (spec_exec c (current w)).2 :: w.

Definition store_step {X} (c : storeCall X) (w : World) (x : Res X) (w' : World) : Prop :=
  (room (current w) ∧ x = (spec_exec c (current w)).1 ∧ w' = executed c w) ∨
  (∃ err, transport err ∧ x = Err err ∧ (w' = w ∨ (room (current w) ∧ w' = executed c w))).

(** A call that is recorded when it succeeds. *)
Definition recorded (ev : event) (w w' : World) : Prop := w' = Called ev :: w.

Definition sys_step (X : Type) (e : op X) : World → X → World → Prop :=
  match e in op X return World → X → World → Prop with
  | OpStore _ c => store_step c
  | OpNow => λ w x w', recorded (EvNow x) w w'
  | OpRandRead n => λ w x w',
      match x with
      | Ok b => length b = n ∧ Called (EvRandom b) ∉ w ∧ recorded (EvRandom b) w w'
      | Err _ => w' = w
      end
  | OpPreApprove _ _ order => λ w x w',
      match x.1 with
      | Ok ids => recorded (EvPreApproved order ids) w w'
      | Err _ => w' = w
      end
  | OpIssue _ req => λ w _ w', recorded (EvIssue req) w w'
  | OpRevoke _ req => λ w _ w', recorded (EvRevoke req) w w'
  | OpValidate _ _ req => λ w x w',
      match x with
      | None => recorded (EvValidated req) w w'
      | Some _ => w' = w
      end
  | OpValidateGrant _ _ req => λ w x w',
      match x with
      | Ok _ => recorded (EvValidated req) w w'
      | Err _ => w' = w
      end
  | OpPolicyNewAccount _ account => λ w x w',
      w' = w ∧ (x.1 = None → acct_ID x.2 ≠ "" ∧ acct_KeyThumbprint x.2 ≠ "")
  | _ => λ w _ w', w' = w
  end.

(** ** Guarantees *)

(** A version that was stored at some point of the past. *)
Definition seen {V} (f : AStore → gmap string V) (w : World) (id : string) (v : V) : Prop :=
  past w (λ a, f a !! id = Some v).

(** At the point [a] the order has at least the revision of [o]. *)
Definition since (o : Order) (a : AStore) : Prop :=
  ∃ o', as_orders a !! ord_ID o = Some o' ∧ (ord_Revision o ≤ ord_Revision o')%Z.

Definition seen_valid (w : World) (o : Order) (zid : string) : Prop :=
  past w (λ a, since o a ∧ authz_valid a zid).
Definition seen_invalid (w : World) (o : Order) (zid : string) : Prop :=
  past w (λ a, since o a ∧ ¬ authz_valid a zid).

(** Why the commit of [authz] leaves its pending order [o] pending, or makes it ready. *)
Definition leaves_pending (w : World) (o : Order) (authz : Authorization) : Prop :=
  az_Status authz ≠ AuthorizationValid ∨
  ∃ zid, zid ∈ ord_AuthorizationIDs o ∧ zid ≠ az_ID authz ∧ seen_invalid w o zid.

Definition makes_ready (w : World) (o : Order) (authz : Authorization) : Prop :=
  az_Status authz = AuthorizationValid ∧
  ∀ zid, zid ∈ ord_AuthorizationIDs o → zid ≠ az_ID authz → seen_valid w o zid.

(** The order a validation commits together with [authz]. *)
Inductive derives (w : World) (authz : Authorization) (o : Order) : Order → Prop :=
| derives_same :
    (ord_Status o = OrderPending → leaves_pending w o authz) → derives w authz o o
| derives_ready :
    ord_Status o = OrderPending → makes_ready w o authz →
    derives w authz o {| o with ord_Status := OrderReady |}
| derives_invalid :
    ord_Status o = OrderPending → derives w authz o {| o with ord_Status := OrderInvalid |}.

(** The authorization a validation commits. *)
Inductive settles (w : World) (z : Authorization) : Authorization → Prop :=
| settles_same : settles w z z
| settles_valid expires ca grantExpires names nfType :
    az_Status z = AuthorizationPending → validated w z →
    settles w z {| z with az_Status := AuthorizationValid; az_Expires := expires;
                          az_CACertificate := ca; az_GrantExpires := grantExpires;
                          az_GrantNames := names; az_GrantNFType := nfType |}
| settles_invalid :
    az_Status z = AuthorizationPending → settles w z {| z with az_Status := AuthorizationInvalid |}.

Section System.
Context `{Platform}.

(** An authorization of a new order for one of its identifiers. *)
Definition new_authz (w : World) (o : Order) (z : Authorization) (identifier : Identifier) : Prop :=
  az_OrderID z = ord_ID o ∧ az_AccountID z = ord_AccountID o ∧ orderIdentifier z = identifier ∧
  ((az_Status z = AuthorizationPending ∧ az_PreApproved z = false) ∨
   (az_Status z = AuthorizationValid ∧ az_PreApproved z = true ∧ approved w z)).

Record new_order (w : World) (o : Order) (authzs : list Authorization) (challenges : list Challenge)
    : Prop := {
  no_id : ord_ID o ≠ "";
  no_account : ord_AccountID o ≠ "";
  no_authz_ids : ord_AuthorizationIDs o = map az_ID authzs;
  no_authzs : Forall2 (new_authz w o) authzs (ord_Identifiers o);
  no_distinct : NoDup (map az_ID authzs);
  no_named : "" ∉ map az_ID authzs ∧ "" ∉ map ch_ID challenges;
  no_fresh : ord_Issuance o = None ∧ ord_CertificateID o = "";
  no_status : (ord_Status o = OrderPending ∧ Exists (λ z, az_Status z ≠ AuthorizationValid) authzs) ∨
              (ord_Status o = OrderReady ∧ Forall (λ z, az_Status z = AuthorizationValid) authzs)
}.

(** The certificate an issuance commits for the order [o]. *)
Definition new_cert (o : Order) (st : IssuanceState) (c : Certificate) : Prop :=
  crt_ID c ≠ "" ∧ crt_Revoked c = false ∧
  ∃ csr now leaf der,
    x509_ParseCertificateRequest (ord_CSR o) = Ok csr ∧
    checkChain (crt_Chain c) csr o now = Ok leaf ∧
    head (crt_Chain c) = Some der ∧ crt_ID c = certificateID der ∧
    crt_OrderID c = ord_ID o ∧ crt_AccountID c = ord_AccountID o ∧
    crt_Validations c = is_Validations st.

(** What the caller of the store guarantees: a written resource is a step from a version it read. *)
Definition guar_store {X} (c : storeCall X) (w : World) : Prop :=
  match c with
  | CallCreateAccount b => acct_ID b ≠ "" ∧ acct_KeyThumbprint b ≠ ""
  | CallUpdateAccount b =>
      acct_KeyThumbprint b ≠ "" ∧
      ∃ b0, seen as_accounts w (acct_ID b) b0 ∧ account_next b0 b
  | CallCreateOrder o authzs challenges => new_order w o authzs challenges
  | CallOrderIDs _ _ limit => (0 < limit < 2 ^ 32)%Z
  | CallLeasedTasks now => (0 ≤ now)%Z
  | CallUpdateAuthorization z =>
      ∃ z0, seen as_authzs w (az_ID z) z0 ∧
        (az_Status z0 = AuthorizationPending ∨ az_Status z0 = AuthorizationValid) ∧
        z = {| z0 with az_Status := AuthorizationDeactivated |}
  | CallUpdateCertificate c => ∃ c0, seen as_certificates w (crt_ID c) c0 ∧ cert_next c0 c
  | CallAcceptChallenge c task =>
      task_ID task ≠ "" ∧ ∃ c0, seen as_challenges w (ch_ID c) c0 ∧ challenge_next c0 c
  | CallFinalizeOrder o task =>
      task_ID task ≠ "" ∧
      ∃ o0 der, seen as_orders w (ord_ID o) o0 ∧
        (ord_Status o0 = OrderPending ∨ ord_Status o0 = OrderReady) ∧
        o = {| o0 with ord_Status := OrderProcessing; ord_CSR := der |} ∧
        Forall (seen_valid w o0) (ord_AuthorizationIDs o0)
  | CallBeginIssuance _ o account authzs =>
      ∃ o0 st, seen as_orders w (ord_ID o) o0 ∧ ord_Status o0 = OrderProcessing ∧
        ord_Issuance o0 = None ∧ o = {| o0 with ord_Issuance := Some st |} ∧
        acct_ID account = ord_AccountID o0 ∧
        Forall2 (λ z v, seen as_authzs w (az_ID z) z ∧ backs st z v) authzs (is_Validations st) ∧
        (is_Deadline st ≤ ord_Expires o0)%Z ∧ clocked w (is_AuthorizedAt st) (since o0)
  | CallRetryValidation _ c => ∃ c0, seen as_challenges w (ch_ID c) c0 ∧ challenge_next c0 c
  | CallCompleteValidation _ c z o =>
      (∃ c0, seen as_challenges w (ch_ID c) c0 ∧ challenge_next c0 c) ∧
      (∃ z0, seen as_authzs w (az_ID z) z0 ∧ settles w z0 z) ∧
      az_OrderID z = ord_ID o ∧
      (∃ o0, seen as_orders w (ord_ID o) o0 ∧ derives w z o0 o)
  | CallCompleteIssuance _ o cert =>
      ∃ o0, seen as_orders w (ord_ID o) o0 ∧ ord_Status o0 = OrderProcessing ∧
        match cert with
        | None => ∃ p result, o = {| o0 with ord_Status := OrderInvalid; ord_Error := p;
                                             ord_UnpublishedResult := result |}
        | Some c => ∃ st, ord_Issuance o0 = Some st ∧ new_cert o0 st c ∧
                          o = {| o0 with ord_Status := OrderValid; ord_CertificateID := crt_ID c;
                                         ord_Error := None |}
        end
  | _ => True
  end.

Definition guar (X : Type) (e : op X) (w : World) : Prop :=
  match e with
  | OpStore _ c => guar_store c w
  | OpIssue _ req => call_ok w (EvIssue req)
  | OpRevoke _ req => call_ok w (EvRevoke req)
  | _ => True
  end.

End System.
