(* ===== verification/SystemSteps.v ===== *)
(** * Guaranteed calls keep the history acceptable

    For every call of the store: executed with its guarantee in an acceptable history, it makes
    only steps of the life cycles and keeps the invariant. *)

From S2P Require Import Prelude Status Problem Resource Base64 StoreSpec Prog Host Platform Chain Orders Revoke Lifecycle System.

(** ** Maps *)

Lemma map_step_refl {V} (step : V → V → Prop) m : map_step step m m.
Proof. intros id v Hv. exists v. auto. Qed.

Lemma map_step_update {V} (step : V → V → Prop) m id v v' :
  m !! id = Some v → step v v' → map_step step m (<[id := v']> m).
Proof.
  intros Hv Hs id' u Hu. destruct (decide (id' = id)) as [->|].
  - simplify_eq. exists v'. rewrite lookup_insert_eq. auto.
  - exists u. rewrite lookup_insert_ne by done. auto.
Qed.

Lemma map_step_add {V} (step : V → V → Prop) m id v :
  m !! id = None → map_step step m (<[id := v]> m).
Proof.
  intros Hv id' u Hu. exists u. rewrite lookup_insert_ne; [auto|]. intros ->. by rewrite Hu in Hv.
Qed.

Lemma map_step_subseteq {V} (step : V → V → Prop) (m m' : gmap string V) :
  m ⊆ m' → map_step step m m'.
Proof. intros Hle id v Hv. exists v. split; [by eapply lookup_weaken|auto]. Qed.

#[export] Hint Resolve map_step_refl map_step_update map_step_add : acme.

(** Inserting several values under their own keys. *)
Definition insert_all {V} (key : V → string) (l : list V) (m : gmap string V) : gmap string V :=
  fold_left (λ m v, <[key v := v]> m) l m.

Section InsertAll.
Context {V : Type} (key : V → string).
Implicit Types (l : list V) (m : gmap string V).

Lemma insert_all_other l m id : id ∉ map key l → insert_all key l m !! id = m !! id.
Proof.
  unfold insert_all. revert m. induction l as [|v l IH]; intros m; simpl; [done|].
  rewrite not_elem_of_cons. intros [??]. by rewrite IH, lookup_insert_ne.
Qed.

Lemma insert_all_in l m v : NoDup (map key l) → v ∈ l → insert_all key l m !! key v = Some v.
Proof.
  unfold insert_all. revert m. induction l as [|u l IH]; intros m; simpl; [by rewrite elem_of_nil|].
  rewrite NoDup_cons, elem_of_cons. intros [Hu Hl] [->|Hv]; [|by apply IH].
  change (insert_all key l (<[key u := u]> m) !! key u = Some u).
  by rewrite insert_all_other, lookup_insert_eq.
Qed.

Lemma insert_all_inv l m id v :
  insert_all key l m !! id = Some v → m !! id = Some v ∨ (v ∈ l ∧ key v = id).
Proof.
  unfold insert_all. revert m. induction l as [|u l IH]; intros m; simpl; [by left|].
  intros [Hm|[??]]%IH; [|right; split; [by right|done]].
  apply lookup_insert_Some in Hm as [[<- <-]|[_ ?]]; [right|by left]. split; [by left|done].
Qed.

(** Values under unused keys leave the others in place. *)
Lemma insert_all_subseteq l m : (∀ v, v ∈ l → m !! key v = None) → m ⊆ insert_all key l m.
Proof.
  intros Hnew. apply map_subseteq_spec. intros id u Hu. rewrite insert_all_other; [done|].
  intros (v & -> & Hv)%list_elem_of_fmap. by rewrite Hnew in Hu.
Qed.
End InsertAll.

Lemma put_authzs l a :
  fold_left (λ b z, put_authz z b) l a = {| a with as_authzs := insert_all az_ID l (as_authzs a) |}.
Proof. revert a. induction l as [|z l IH]; intros []; [done|]. simpl. by rewrite IH. Qed.

Lemma put_challenges l a :
  fold_left (λ b c, put_challenge c b) l a =
  {| a with as_challenges := insert_all ch_ID l (as_challenges a) |}.
Proof. revert a. induction l as [|c l IH]; intros []; [done|]. simpl. by rewrite IH. Qed.

(** ** Checks *)

(** Turns a check that passed into its condition. *)
Ltac passed H Hcond :=
  match type of H with
  | (if ?b then None else _) = None => destruct b eqn:Hcond; [clear H; go_bool|done]
  end.

Lemma guarded_cases {X} (errs : list (option error)) (x : X) a' a :
  (∃ err, guarded errs x a' a = (Err err, a)) ∨
  (Forall (λ e, e = None) errs ∧ guarded errs x a' a = (Ok x, a')).
Proof.
  unfold guarded. destruct (first_error errs) as [err|] eqn:Herr; [by left; exists err|].
  right. split; [|done]. revert Herr. induction errs as [|[e|] errs IH]; simpl; [done|done|].
  intros Herr. constructor; auto.
Qed.

Lemma u64_room r : has_room r → u64 (r + 1) = (r + 1)%Z.
Proof. intros [??]. apply u64_small. lia. Qed.

Section Steps.
Context `{Platform}.

(** ** Rereading what was read before *)

Section reads.
Context (w : World) (Hw : hist_ok w) (Hroom : room (current w)).

Lemma order_current id o :
  seen as_orders w id o → ord_Revision <$> as_orders (current w) !! id = Some (ord_Revision o) →
  as_orders (current w) !! id = Some o ∧ has_room (ord_Revision o) ∧ ord_ID o = id.
Proof.
  intros Hseen Hrev. destruct (as_orders (current w) !! id) as [o'|] eqn:Ho; simplify_eq/=.
  assert (o' = o) as -> by (eapply (reread order_step ord_Revision); eauto using orders_later with acme).
  split_and!; [done|by apply (room_orders _ Hroom _ _ Ho)|by apply (inv_orders _ _ (hist_inv w Hw))].
Qed.

Lemma authz_current id z :
  seen as_authzs w id z → az_Revision <$> as_authzs (current w) !! id = Some (az_Revision z) →
  as_authzs (current w) !! id = Some z ∧ has_room (az_Revision z) ∧ az_ID z = id.
Proof.
  intros Hseen Hrev. destruct (as_authzs (current w) !! id) as [z'|] eqn:Hz; simplify_eq/=.
  assert (z' = z) as -> by (eapply (reread authz_step az_Revision); eauto using authzs_later with acme).
  split_and!; [done|by apply (room_authzs _ Hroom _ _ Hz)|by apply (inv_authzs _ _ (hist_inv w Hw))].
Qed.

Lemma challenge_current id c :
  seen as_challenges w id c → ch_Revision <$> as_challenges (current w) !! id = Some (ch_Revision c) →
  as_challenges (current w) !! id = Some c ∧ has_room (ch_Revision c) ∧ ch_ID c = id.
Proof.
  intros Hseen Hrev. destruct (as_challenges (current w) !! id) as [c'|] eqn:Hc; simplify_eq/=.
  assert (c' = c) as -> by (eapply (reread challenge_step ch_Revision); eauto using challenges_later with acme).
  split_and!; [done|by apply (room_challenges _ Hroom _ _ Hc)|
    by apply (inv_challenges _ _ (hist_inv w Hw))].
Qed.

Lemma cert_current id c :
  seen as_certificates w id c → crt_Revision <$> as_certificates (current w) !! id = Some (crt_Revision c) →
  as_certificates (current w) !! id = Some c ∧ has_room (crt_Revision c) ∧ crt_ID c = id.
Proof.
  intros Hseen Hrev. destruct (as_certificates (current w) !! id) as [c'|] eqn:Hc; simplify_eq/=.
  assert (c' = c) as -> by (eapply (reread cert_step crt_Revision); eauto using certs_later with acme).
  split_and!; [done|by apply (room_certs _ Hroom _ _ Hc)|by apply (inv_certs _ _ (hist_inv w Hw))].
Qed.

Lemma account_current_version id b :
  seen as_accounts w id b → acct_Revision <$> as_accounts (current w) !! id = Some (acct_Revision b) →
  as_accounts (current w) !! id = Some b ∧ has_room (acct_Revision b) ∧ acct_ID b = id.
Proof.
  intros Hseen Hrev. destruct (as_accounts (current w) !! id) as [b'|] eqn:Hb; simplify_eq/=.
  assert (b' = b) as -> by (eapply (reread account_step acct_Revision); eauto using accounts_later with acme).
  split_and!; [done|by apply (room_accounts _ Hroom _ _ Hb)|by apply (inv_accounts _ _ (hist_inv w Hw))].
Qed.

End reads.

(** ** Stored changes are steps *)

Lemma bump_order_step o u : has_room (ord_Revision o) → order_next o u → order_step o (bump_order u).
Proof.
  intros Hr Hn. exists u. split; [done|]. unfold bump_order.
  replace (ord_Revision u) with (ord_Revision o) by (by destruct Hn). by rewrite u64_room.
Qed.

Lemma bump_authz_step z u : has_room (az_Revision z) → authz_next z u → authz_step z (bump_authz u).
Proof.
  intros Hr Hn. exists u. split; [done|]. unfold bump_authz.
  replace (az_Revision u) with (az_Revision z) by (by destruct Hn). by rewrite u64_room.
Qed.

Lemma bump_challenge_step c u :
  has_room (ch_Revision c) → challenge_next c u → challenge_step c (bump_challenge u).
Proof.
  intros Hr Hn. exists u. split; [done|]. unfold bump_challenge.
  replace (ch_Revision u) with (ch_Revision c) by (by destruct Hn). by rewrite u64_room.
Qed.

Lemma bump_account_step b u :
  has_room (acct_Revision b) → account_next b u → account_step b (bump_account u).
Proof.
  intros Hr Hn. exists u. split; [done|]. unfold bump_account.
  replace (acct_Revision u) with (acct_Revision b) by (by destruct Hn). by rewrite u64_room.
Qed.

Lemma bump_cert_step c u :
  has_room (crt_Revision c) → cert_next c u →
  cert_step c {| u with crt_Revision := u64 (crt_Revision u + 1) |}.
Proof.
  intros Hr Hn. exists u. split; [done|].
  replace (crt_Revision u) with (crt_Revision c) by (by destruct Hn). by rewrite u64_room.
Qed.

(** ** Keeping the invariant *)

(** What a change has to show beyond its steps: the resources it wrote are in order. *)
Lemma trans_inv w a a' :
  inv w a → trans a a' →
  (∀ id b, as_accounts a' !! id = Some b →
     as_accounts a !! id = Some b ∨ (acct_ID b = id ∧ acct_KeyThumbprint b ≠ "")) →
  (∀ id o, as_orders a' !! id = Some o →
     as_orders a !! id = Some o ∨ (ord_ID o = id ∧ order_ok w a' o)) →
  (∀ id z, as_authzs a' !! id = Some z →
     as_authzs a !! id = Some z ∨ (az_ID z = id ∧ authz_ok w a' z)) →
  (∀ id c, as_challenges a' !! id = Some c → as_challenges a !! id = Some c ∨ ch_ID c = id) →
  (∀ id c, as_certificates a' !! id = Some c →
     as_certificates a !! id = Some c ∨ (crt_ID c = id ∧ published w c)) →
  inv w a'.
Proof.
  intros Hinv Htr Hb Ho Hz Hc Hcrt. split.
  - intros id b Hid. destruct (Hb _ _ Hid); [by eapply inv_accounts|done].
  - intros id o Hid. destruct (Ho _ _ Hid) as [Hold|]; [|done].
    destruct (inv_orders _ _ Hinv _ _ Hold) as [Hkey Hok]. split; [done|].
    assert (∀ zid, spec_undispatched o = true → zid ∈ ord_AuthorizationIDs o →
                   authz_valid a zid ↔ authz_valid a' zid) as Hval.
    { intros. by eapply (tr_coupled _ _ Htr). }
    destruct Hok as [H1 H2 H3 H4 H5 H6 H7 H8]. split; try done.
    + eapply Forall2_impl; [done|]. intros zid ident (z & Hz' & Hoid & Hacc & Hident).
      destruct (tr_authzs _ _ Htr _ _ Hz') as (z' & Hz'' & Hs). exists z'. split; [done|].
      destruct Hs as [->|Hs%authz_step_fixed]; [done|]. pose proof Hs as (_ & -> & -> & _).
      by rewrite (orderIdentifier_fixed _ _ Hs).
    + intros Hp. destruct (H2 Hp) as (zid & Hzid & Hnv). exists zid. split; [done|].
      rewrite <-Hval; [done| |done]. unfold spec_undispatched. by rewrite Hp.
    + intros Hr. specialize (H3 Hr). rewrite Forall_forall in H3 |- *. intros zid Hzid.
      apply Hval; [|done|by apply H3]. unfold spec_undispatched.
      destruct Hr as [->|[-> ->]]; [done|]. by case_bool_decide.
    + intros Hv. destruct (H8 Hv) as (Hiss & c & Hc' & Hoid). split; [done|].
      destruct (tr_certs _ _ Htr _ _ Hc') as (c' & Hc'' & Hs). exists c'. split; [done|].
      destruct Hs as [->|Hs%cert_step_fixed]; [done|]. by destruct Hs as (_ & _ & -> & _).
  - intros id z Hid. destruct (Hz _ _ Hid) as [Hold|]; [|done].
    destruct (inv_authzs _ _ Hinv _ _ Hold) as [Hkey [(o & Ho' & Hin) ? ?]]. split; [done|].
    split; [|done|done].
    destruct (tr_orders _ _ Htr _ _ Ho') as (o' & Ho'' & Hs). exists o'. split; [done|].
    destruct Hs as [->|Hs%order_step_fixed]; [done|].
    by destruct Hs as (_ & _ & _ & _ & _ & _ & -> & _).
  - intros id c Hid. destruct (Hc _ _ Hid); [by eapply inv_challenges|done].
  - intros id c Hid. destruct (Hcrt _ _ Hid); [by eapply inv_certs|done].
Qed.

(** A change that leaves the authorizations alone. *)
Lemma coupled_same a a' : as_authzs a' = as_authzs a → coupled a a'.
Proof. intros Heq id o zid _ _ _ _. unfold authz_valid. by rewrite Heq. Qed.

Lemma trans_refl a : trans a a.
Proof. split; auto using map_step_refl, coupled_same. Qed.

(** ** Calls

    [keeps w a]: storing [a] after the history [w] is acceptable. *)
Definition keeps (w : World) (a : AStore) : Prop := trans (current w) a ∧ inv w a.

Section calls.
Context (w : World) (Hw : hist_ok w) (Hroom : room (current w)).

Let Hinv : inv w (current w) := hist_inv w Hw.

Lemma keeps_refl : keeps w (current w).
Proof. split; [apply trans_refl|done]. Qed.

(** Changes of the task queue only. *)
Lemma keeps_tasks tasks : keeps w (put_tasks tasks (current w)).
Proof.
  assert (trans (current w) (put_tasks tasks (current w))) as Htr.
  { split; auto using map_step_refl, coupled_same. }
  split; [done|]. eapply trans_inv; [apply Hinv|done|..]; simpl; auto.
Qed.

(** Changes of one account. *)
Lemma keeps_account (m : gmap string Account) :
  map_step account_step (as_accounts (current w)) m →
  (∀ id b, m !! id = Some b →
     as_accounts (current w) !! id = Some b ∨ (acct_ID b = id ∧ acct_KeyThumbprint b ≠ "")) →
  keeps w {| (current w) with as_accounts := m |}.
Proof.
  intros Hm Hkeys. assert (trans (current w) {| (current w) with as_accounts := m |}) as Htr.
  { split; simpl; auto using map_step_refl, coupled_same. }
  split; [done|]. eapply trans_inv; [apply Hinv|done|done|..]; simpl; auto.
Qed.

(** Changes of one challenge and the task queue. *)
Lemma keeps_challenge tasks c c' :
  as_challenges (current w) !! ch_ID c = Some c' → challenge_step c' c →
  keeps w (put_tasks tasks (put_challenge c (current w))).
Proof.
  intros Hc Hstep.
  assert (trans (current w) (put_tasks tasks (put_challenge c (current w)))) as Htr.
  { split; simpl; eauto using map_step_refl, map_step_update, coupled_same. }
  split; [done|]. eapply trans_inv; [apply Hinv|done|..]; simpl; auto.
  intros id c1. rewrite lookup_insert_Some. naive_solver.
Qed.

(** Changes of one certificate. *)
Lemma keeps_cert c c' :
  as_certificates (current w) !! crt_ID c = Some c' → cert_step c' c →
  keeps w {| (current w) with as_certificates := <[crt_ID c := c]> (as_certificates (current w)) |}.
Proof.
  intros Hc Hstep.
  assert (trans (current w) {| (current w) with as_certificates :=
            <[crt_ID c := c]> (as_certificates (current w)) |}) as Htr.
  { split; simpl; eauto using map_step_refl, map_step_update, coupled_same. }
  split; [done|]. eapply trans_inv; [apply Hinv|done|..]; simpl; auto.
  intros id c1. rewrite lookup_insert_Some. intros [[<- <-]|[_ ?]]; [right|by left]. split; [done|].
  destruct (inv_certs _ _ Hinv _ _ Hc) as [_ (o & st & csr & now & leaf & der & Hp)].
  apply cert_step_fixed in Hstep as (Hid & Hacc & Hord & _ & Hchain & _ & _ & _ & Hval & _).
  exists o, st, csr, now, leaf, der. by rewrite Hid, Hacc, Hord, Hchain, Hval.
Qed.

(** The authorizations of an order after a change. *)
Lemma order_authzs_step a' o o' ids idents :
  map_step authz_step (as_authzs (current w)) (as_authzs a') →
  ord_ID o' = ord_ID o → ord_AccountID o' = ord_AccountID o →
  Forall2 (order_authz (current w) o) ids idents → Forall2 (order_authz a' o') ids idents.
Proof.
  intros Hm Hid Hacc Hall. eapply Forall2_impl; [done|].
  intros zid ident (z & Hz & Hoid & Hzacc & Hident). destruct (Hm _ _ Hz) as (z' & Hz' & Hs).
  exists z'. split; [done|]. rewrite Hid, Hacc.
  destruct Hs as [->|Hs%authz_step_fixed]; [done|]. pose proof Hs as (_ & -> & -> & _).
  by rewrite (orderIdentifier_fixed _ _ Hs).
Qed.

(** Changes of one order and the task queue. *)
Lemma keeps_order tasks o o' :
  as_orders (current w) !! ord_ID o = Some o' → order_step o' o →
  order_ok w (put_tasks tasks (put_order o (current w))) o →
  keeps w (put_tasks tasks (put_order o (current w))).
Proof.
  intros Ho Hstep Hok.
  assert (trans (current w) (put_tasks tasks (put_order o (current w)))) as Htr.
  { split; simpl; eauto using map_step_refl, map_step_update, coupled_same. }
  split; [done|]. eapply trans_inv; [apply Hinv|done|..]; simpl; auto.
  intros id o1. rewrite lookup_insert_Some. intros [[<- <-]|[_ ?]]; [by right|by left].
Qed.

Lemma commit_updateAccount b :
  guar_store (CallUpdateAccount b) w → keeps w (spec_updateAccount b (current w)).2.
Proof.
  intros (Hth & b0 & Hseen & Hnext). unfold spec_updateAccount. case_match eqn:Hrev; [apply keeps_refl|].
  case_match; [apply keeps_refl|]. apply check_revision_None in Hrev.
  assert (acct_Revision b = acct_Revision b0) as Heq by (by destruct Hnext).
  rewrite Heq in Hrev. apply account_current_version in Hrev as (Hb0 & Hr & Hid); [|done..].
  simpl. apply keeps_account.
  - eapply map_step_update; [done|]. by apply bump_account_step.
  - intros id b1. rewrite lookup_insert_Some. intros [[<- <-]|[_ ?]]; [by right|by left].
Qed.

Lemma commit_createAccount b :
  guar_store (CallCreateAccount b) w → keeps w (spec_createAccount b (current w)).2.
Proof.
  intros [_ Hth]. unfold spec_createAccount. case_match eqn:Hc; [apply keeps_refl|]. simpl in *.
  apply orb_false_iff in Hc as [[Hc _]%orb_false_iff _].
  apply bool_decide_eq_false, eq_None_not_Some in Hc. apply keeps_account.
  - by apply map_step_add.
  - intros id b1. rewrite lookup_insert_Some. intros [[<- <-]|[_ ?]]; [by right|by left].
Qed.

Lemma commit_updateCertificate c :
  guar_store (CallUpdateCertificate c) w → keeps w (spec_exec (CallUpdateCertificate c) (current w)).2.
Proof.
  intros (c0 & Hseen & Hnext). cbn [spec_exec].
  destruct (guarded_cases [check_revision (crt_Revision <$> as_certificates (current w) !! crt_ID c)
     (crt_Revision c)] {| c with crt_Revision := u64 (crt_Revision c + 1) |}
     {| (current w) with as_certificates := <[crt_ID c := {| c with crt_Revision := u64 (crt_Revision c + 1) |}]>
        (as_certificates (current w)) |} (current w)) as [[err ->]|[Hall ->]]; [apply keeps_refl|].
  apply Forall_singleton, check_revision_None in Hall.
  assert (crt_Revision c = crt_Revision c0) as Heq by (by destruct Hnext).
  rewrite Heq in Hall. apply cert_current in Hall as (Hc0 & Hr & Hid); [|done..].
  simpl. eapply (keeps_cert {| c with crt_Revision := u64 (crt_Revision c + 1) |}); [done|].
  by apply bump_cert_step.
Qed.

(** ** Challenges *)

Lemma challenge_checked c c0 :
  seen as_challenges w (ch_ID c) c0 → challenge_next c0 c → spec_checkChallenge c (current w) = None →
  as_challenges (current w) !! ch_ID c = Some c0 ∧ challenge_step c0 (bump_challenge c).
Proof.
  intros Hseen Hnext Hrev%check_revision_None.
  assert (ch_Revision c = ch_Revision c0) as Heq by (by destruct Hnext).
  rewrite Heq in Hrev. apply challenge_current in Hrev as (Hc0 & Hr & _); [|done..].
  split; [done|]. by apply bump_challenge_step.
Qed.

Lemma commit_acceptChallenge c task :
  guar_store (CallAcceptChallenge c task) w →
  keeps w (spec_exec (CallAcceptChallenge c task) (current w)).2.
Proof.
  intros (_ & c0 & Hseen & Hnext). cbn [spec_exec].
  match goal with |- keeps w (guarded ?e ?x ?b ?a).2 =>
    destruct (guarded_cases e x b a) as [[err ->]|[Hall ->]]; [apply keeps_refl|] end.
  apply Forall_cons in Hall as [Hrev _]. destruct (challenge_checked _ _ Hseen Hnext Hrev).
  by apply (keeps_challenge _ (bump_challenge c) c0).
Qed.

Lemma commit_retryValidation task c :
  guar_store (CallRetryValidation task c) w →
  keeps w (spec_exec (CallRetryValidation task c) (current w)).2.
Proof.
  intros (c0 & Hseen & Hnext). cbn [spec_exec].
  match goal with |- keeps w (guarded ?e ?x ?b ?a).2 =>
    destruct (guarded_cases e x b a) as [[err ->]|[Hall ->]]; [apply keeps_refl|] end.
  rewrite !Forall_cons in Hall. destruct Hall as (_ & Hrev & _).
  destruct (challenge_checked _ _ Hseen Hnext Hrev). by apply (keeps_challenge _ (bump_challenge c) c0).
Qed.

(** ** Orders *)

Lemma order_checked o o0 :
  seen as_orders w (ord_ID o) o0 → ord_Revision o = ord_Revision o0 →
  spec_checkOrder o (current w) = None →
  as_orders (current w) !! ord_ID o = Some o0 ∧ has_room (ord_Revision o0) ∧ ord_ID o0 = ord_ID o ∧
  order_ok w (current w) o0.
Proof.
  intros Hseen Heq Hrev%check_revision_None. rewrite Heq in Hrev.
  apply order_current in Hrev as (Ho & Hr & Hid); [|done..].
  destruct (inv_orders _ _ Hinv _ _ Ho). by rewrite Hid.
Qed.

(** What was seen of the authorizations of an order since it was read still holds when the order
    did not change. *)
Lemma since_same o w0 :
  w0 `suffix_of` w → as_orders (current w) !! ord_ID o = Some o → since o (current w0) →
  as_orders (current w0) !! ord_ID o = Some o.
Proof.
  intros Hle Ho (o' & Ho' & Hrev). destruct (orders_later _ _ Hle Hw _ _ Ho') as (o'' & Ho'' & Hrtc).
  rewrite Ho in Ho''. simplify_eq. destruct (rtc_rev order_step ord_Revision order_step_rev _ _ Hrtc).
  rewrite Ho'. f_equal. apply (rtc_rev_eq order_step ord_Revision); [apply order_step_rev|done|lia].
Qed.

Lemma seen_valid_now o zid :
  as_orders (current w) !! ord_ID o = Some o → spec_undispatched o = true →
  zid ∈ ord_AuthorizationIDs o → seen_valid w o zid → authz_valid (current w) zid.
Proof.
  intros Ho Hund Hz (w0 & Hle & Hsince & Hv).
  apply (validity_kept w0 w (ord_ID o) o); eauto using since_same.
Qed.

Lemma seen_invalid_now o zid :
  as_orders (current w) !! ord_ID o = Some o → spec_undispatched o = true →
  zid ∈ ord_AuthorizationIDs o → seen_invalid w o zid → ¬ authz_valid (current w) zid.
Proof.
  intros Ho Hund Hz (w0 & Hle & Hsince & Hv). contradict Hv.
  apply (validity_kept w0 w (ord_ID o) o); eauto using since_same.
Qed.

Lemma commit_finalizeOrder o task :
  guar_store (CallFinalizeOrder o task) w →
  keeps w (spec_exec (CallFinalizeOrder o task) (current w)).2.
Proof.
  intros (_ & o0 & der & Hseen & Hst & -> & Hvalid). cbn [spec_exec].
  match goal with |- keeps w (guarded ?e ?x ?b ?a).2 =>
    destruct (guarded_cases e x b a) as [[err ->]|[Hall ->]]; [apply keeps_refl|] end.
  apply Forall_cons in Hall as [Hrev _].
  apply (order_checked _ o0) in Hrev as (Ho & Hr & _ & Hok); [simpl in *|done..].
  assert (spec_undispatched o0 = true) as Hund by (unfold spec_undispatched; by destruct Hst as [->| ->]).
  assert (ord_Status o0 = OrderReady) as Hready.
  { destruct Hst as [Hp|]; [|done]. destruct (ok_pending _ _ _ Hok Hp) as (zid & Hz & Hnv).
    destruct Hnv. rewrite Forall_forall in Hvalid. by apply (seen_valid_now o0); auto. }
  apply (keeps_order _ (bump_order {| o0 with ord_Status := OrderProcessing; ord_CSR := der |}) o0);
    [done|by apply bump_order_step, order_finalized|].
  pose proof (ok_unissued _ _ _ Hok (or_intror Hready)) as Hnone.
  pose proof (ok_ready _ _ _ Hok (or_introl Hready)).
  pose proof (ok_uncertified _ _ _ Hok) as Hcert. rewrite Hready in Hcert.
  split; simpl; try done; [|by rewrite Hnone|by intros _; apply Hcert].
  eapply (order_authzs_step _ o0); [apply map_step_refl|done|done|by eapply ok_authzs].
Qed.

Lemma snapshot_ok authorizedAt z zid :
  snapshot_error authorizedAt (current w) (z, zid) = None → seen as_authzs w (az_ID z) z →
  zid = az_ID z ∧ as_authzs (current w) !! zid = Some z ∧ az_Status z = AuthorizationValid ∧
  (authorizedAt < az_Expires z)%Z.
Proof.
  unfold snapshot_error. case_match eqn:Hrev; [done|]. case_match eqn:Hc; [|done]. intros _ Hseen.
  go_bool. apply check_revision_None in Hrev. subst zid.
  by apply authz_current in Hrev as (? & _ & _).
Qed.

(** An order that is still in a version it had before the clock was read had it then. *)
Lemma clocked_awaiting o0 o t :
  as_orders (current w) !! ord_ID o0 = Some o0 → ord_Status o0 = OrderProcessing → ord_Issuance o0 = None →
  ord_ID o = ord_ID o0 → clocked w t (since o0) → clocked w t (awaiting o).
Proof.
  intros Ho Hst Hnone Hid (w0 & Hle & o' & Ho' & Hrev). exists w0. split; [done|].
  assert (w0 `suffix_of` w) as Hle0 by (etrans; [by apply suffix_cons_r|done]).
  destruct (orders_later _ _ Hle0 Hw _ _ Ho') as (u & Hu & Hrtc). simplify_eq.
  destruct (rtc_rev _ _ order_step_rev _ _ Hrtc) as [Hge Heq]. assert (o' = o0) as -> by (apply Heq; lia).
  exists o0. by rewrite Hid.
Qed.

Lemma commit_beginIssuance task o account authzs :
  guar_store (CallBeginIssuance task o account authzs) w →
  keeps w (spec_exec (CallBeginIssuance task o account authzs) (current w)).2.
Proof.
  intros (o0 & st & Hseen & Hst & Hnone & -> & Hacc & Hevid & Hdead & Hclock). cbn [spec_exec].
  unfold spec_beginIssuance. match goal with |- keeps w (guarded ?e ?x ?b ?a).2 =>
    destruct (guarded_cases e x b a) as [[err ->]|[Hall ->]]; [apply keeps_refl|] end.
  simpl in Hall. rewrite !Forall_cons in Hall. destruct Hall as (_ & Hrev & Hcur & Hdis & Hsnap).
  apply (order_checked _ o0) in Hrev as (Ho & Hr & _ & Hok); [simpl in *|done..].
  rewrite Ho in Hdis. passed Hdis Hcond. unfold account_current in Hcur.
  destruct (as_accounts (current w) !! acct_ID account) as [b|] eqn:Hb; [|done].
  passed Hcur Hcond. rewrite Hacc in Hb.
  apply (keeps_order (as_tasks (current w)) (bump_order {| o0 with ord_Issuance := Some st |}) o0);
    [done|by apply bump_order_step, order_dispatched|].
  pose proof (ok_uncertified _ _ _ Hok) as Hcert. rewrite Hst in Hcert.
  split; simpl; rewrite ?Hst; try done.
  - eapply (order_authzs_step _ o0); [apply map_step_refl|done|done|by eapply ok_authzs].
  - naive_solver.
  - naive_solver.
  - intros st' [= <-]. exists w. split; [done|]. split; [|by eapply clocked_awaiting].
    split_and!; simpl; [by exists o0| | |done].
    + by exists b.
    + apply Forall2_same_length_lookup. rewrite Forall2_same_length_lookup in Hevid.
      destruct Hevid as [Hlen Hevid]. split; [congruence|]. intros i zid v Hzid Hv.
      destruct (lookup_lt_is_Some_2 authzs i) as [z Hz].
      { apply lookup_lt_Some in Hzid. lia. }
      destruct (Hevid _ _ _ Hz Hv) as [Hzseen Hev].
      rewrite Forall_map, Forall_forall in Hsnap.
      destruct (snapshot_ok (is_AuthorizedAt st) z zid) as (-> & ? & ? & ?); [|done|by exists z].
      apply Hsnap. apply list_elem_of_lookup. exists i. by rewrite lookup_zip_with, Hz, Hzid.
Qed.

(** ** Issuance results *)

Lemma commit_completeIssuance task o cert :
  guar_store (CallCompleteIssuance task o cert) w →
  keeps w (spec_exec (CallCompleteIssuance task o cert) (current w)).2.
Proof.
  intros (o0 & Hseen & Hst & Hcase). cbn [spec_exec]. unfold spec_completeIssuance.
  match goal with |- keeps w (guarded ?e ?x ?b ?a).2 =>
    destruct (guarded_cases e x b a) as [[err ->]|[Hall ->]]; [apply keeps_refl|] end.
  rewrite !Forall_cons in Hall. destruct Hall as (_ & Hrev & Hconf & _).
  assert (ord_Revision o = ord_Revision o0) as Heq.
  { destruct cert; [destruct Hcase as (? & ? & ? & ->)|destruct Hcase as (? & ? & ->)]; done. }
  apply (order_checked _ o0) in Hrev as (Ho & Hr & Hid & Hok); [|done..].
  pose proof (ok_uncertified _ _ _ Hok) as Hcert. rewrite Hst in Hcert.
  destruct cert as [c|]; simpl.
  - destruct Hcase as (st & Hiss & (_ & _ & csr & now & leaf & der & Hnew) & ->). simpl in *.
    destruct (bool_decide (is_Some (as_certificates (current w) !! crt_ID c))) eqn:Hc; [done|].
    apply bool_decide_eq_false, eq_None_not_Some in Hc.
    set (o1 := {| o0 with ord_Status := OrderValid; ord_CertificateID := crt_ID c; ord_Error := None |}).
    set (a' := put_tasks _ _).
    assert (trans (current w) a') as Htr.
    { split; simpl; auto using map_step_refl, coupled_same.
      - eapply map_step_update; [done|]. by eapply bump_order_step, order_published.
      - by apply map_step_add. }
    split; [done|]. eapply trans_inv; [apply Hinv|done|..]; simpl; auto.
    + intros id o2. rewrite lookup_insert_Some. intros [[<- <-]|[_ ?]]; [right|by left].
      split; [done|]. split; simpl; try done.
      * eapply (order_authzs_step _ o0); [apply map_step_refl|done|done|by eapply ok_authzs].
      * by intros [|[]].
      * by intros [].
      * intros st'. rewrite Hiss. intros [= <-]. by apply (ok_issuance _ _ _ Hok).
      * intros _. split; [by rewrite Hiss|]. eexists. rewrite lookup_insert_eq. split; [done|].
        by destruct Hnew as (_ & _ & _ & _ & ? & _).
    + intros id c1. rewrite lookup_insert_Some. intros [[<- <-]|[_ ?]]; [right|by left].
      split; [done|]. exists o0, st, csr, now, leaf, der. split; [by apply past_now|done].
  - destruct Hcase as (p & result & ->). simpl in *.
    apply (keeps_order (remove_task (task_ID task) (as_tasks (current w)))
             (bump_order {| o0 with ord_Status := OrderInvalid; ord_Error := p;
                                    ord_UnpublishedResult := result |}) o0);
      [done|by apply bump_order_step, order_failed|].
    split; simpl; try done.
    + eapply (order_authzs_step _ o0); [apply map_step_refl|done|done|by eapply ok_authzs].
    + by intros [|[]].
    + by intros [].
    + intros st Hs. by apply (ok_issuance _ _ _ Hok).
    + intros _. by apply Hcert.
Qed.

(** ** Authorizations *)

Lemma order_step_ne o o' : order_step o o' → o' ≠ o.
Proof. intros Hs%order_step_rev ->. lia. Qed.

(** An authorization changes together with its order, unless a dispatch fixed the order. *)
Lemma coupled_authz a' z0 z1 :
  as_authzs (current w) !! az_ID z0 = Some z0 →
  as_authzs a' = <[az_ID z0 := z1]> (as_authzs (current w)) →
  (∀ o, as_orders (current w) !! az_OrderID z0 = Some o → spec_undispatched o = true →
        as_orders a' !! az_OrderID z0 ≠ Some o) →
  coupled (current w) a'.
Proof.
  intros Hz0 Heq Htouched id o zid Ho Ho' Hund Hin.
  destruct (decide (zid = az_ID z0)) as [->|Hne].
  - destruct (inv_orders _ _ Hinv _ _ Ho) as [Hid Hok].
    destruct (list_elem_of_lookup_1 _ _ Hin) as [i Hi].
    destruct (Forall2_lookup_l _ _ _ _ _ (ok_authzs _ _ _ Hok) Hi) as (ident & _ & z & Hz & Hoid & _).
    rewrite Hz0 in Hz. simplify_eq. rewrite Hoid in Htouched. by destruct (Htouched o).
  - unfold authz_valid. rewrite Heq, lookup_insert_ne by done. done.
Qed.

Lemma authz_checked z z0 :
  seen as_authzs w (az_ID z) z0 → az_Revision z = az_Revision z0 → spec_checkAuthz z (current w) = None →
  as_authzs (current w) !! az_ID z0 = Some z0 ∧ has_room (az_Revision z0) ∧ az_ID z = az_ID z0 ∧
  authz_ok w (current w) z0.
Proof.
  intros Hseen Heq Hrev%check_revision_None. rewrite Heq in Hrev.
  apply authz_current in Hrev as (Hz & Hr & Hid); [|done..].
  destruct (inv_authzs _ _ Hinv _ _ Hz). by rewrite Hid.
Qed.

(** The order of an authorization after a change. *)
Lemma authz_order_step a' z :
  map_step order_step (as_orders (current w)) (as_orders a') →
  (∃ o, as_orders (current w) !! az_OrderID z = Some o ∧ az_ID z ∈ ord_AuthorizationIDs o) →
  ∃ o, as_orders a' !! az_OrderID z = Some o ∧ az_ID z ∈ ord_AuthorizationIDs o.
Proof.
  intros Hm (o & Ho & Hin). destruct (Hm _ _ Ho) as (o' & Ho' & Hs). exists o'. split; [done|].
  destruct Hs as [->|Hs%order_step_fixed]; [done|]. by destruct Hs as (_ & _ & _ & _ & _ & _ & -> & _).
Qed.

Lemma commit_updateAuthorization z :
  guar_store (CallUpdateAuthorization z) w →
  keeps w (spec_exec (CallUpdateAuthorization z) (current w)).2.
Proof.
  intros (z0 & Hseen & Hst & ->). cbn [spec_exec]. unfold spec_updateAuthorization.
  destruct (spec_checkAuthz _ _) eqn:Hrev; [apply keeps_refl|]. cbn [snd].
  apply (authz_checked _ z0) in Hrev as (Hz0 & Hr & _ & [Hord Happ Hproved]); [|done..].
  set (z1 := bump_authz _). set (a1 := put_authz z1 (current w)).
  assert (authz_step z0 z1) as Hzstep by by apply bump_authz_step, authz_deactivated.
  destruct Hord as (o & Ho & Hin).
  change (as_orders a1 !! _) with (as_orders (current w) !! az_OrderID z0). rewrite Ho.
  change (AuthorizationStatus_Terminal _) with true. cbn [andb].
  destruct (inv_orders _ _ Hinv _ _ Ho) as [Hid Hok].
  assert (∀ a', as_authzs a' = as_authzs a1 → map_step order_step (as_orders (current w)) (as_orders a') →
            authz_ok w a' z1) as Hzok.
  { intros a' _ Hm. split; [by apply (authz_order_step a' z0); eauto|done|done]. }
  destruct (spec_undispatched o) eqn:Hund.
  - assert (order_step o (spec_invalidated o)) as Hostep.
    { apply (bump_order_step o); [by apply (room_orders _ Hroom _ _ Ho)|by apply order_invalidated]. }
    set (a' := put_order (spec_invalidated o) a1).
    assert (trans (current w) a') as Htr.
    { split; simpl; rewrite ?Hid; eauto using map_step_refl, map_step_update.
      eapply (coupled_authz _ z0 z1); [done|done|]. intros o1 Ho1 _. simpl. rewrite Hid, lookup_insert_eq.
      simplify_eq. intros [= Heq]. by destruct (order_step_ne _ _ Hostep). }
    split; [done|]. eapply trans_inv; [apply Hinv|done|..]; simpl; auto.
    + intros id o1. rewrite lookup_insert_Some. intros [[<- <-]|[_ ?]]; [right|by left].
      split; [done|]. split; simpl; try done.
      * eapply (order_authzs_step _ o); [apply Htr|done|done|by eapply ok_authzs].
      * by intros [|[]].
      * by intros [].
      * intros st Hs. by apply (ok_issuance _ _ _ Hok).
      * intros _. apply (ok_uncertified _ _ _ Hok). unfold spec_undispatched in Hund. by intros Hv; rewrite Hv in Hund.
    + intros id z'. rewrite lookup_insert_Some. intros [[<- <-]|[_ ?]]; [right|by left].
      split; [done|]. apply Hzok; [done|apply Htr].
  - assert (trans (current w) a1) as Htr.
    { split; simpl; eauto using map_step_refl, map_step_update.
      eapply (coupled_authz _ z0 z1); [done|done|]. intros o1 Ho1 Hund1. simplify_eq. congruence. }
    split; [done|]. eapply trans_inv; [apply Hinv|done|..]; simpl; auto.
    intros id z'. rewrite lookup_insert_Some. intros [[<- <-]|[_ ?]]; [right|by left].
    split; [done|]. apply Hzok; [done|apply Htr].
Qed.

(** ** Validation results *)

Lemma settles_next z0 z : settles w z0 z → authz_next z0 z ∧ az_Revision z = az_Revision z0.
Proof. intros []; split; by constructor. Qed.

Lemma derives_next z o0 o : derives w z o0 o → order_next o0 o ∧ ord_Revision o = ord_Revision o0.
Proof. intros []; split; by constructor. Qed.

(** Which authorizations are valid after [z] is stored. *)
Lemma valid_after a' z zid :
  as_authzs a' = <[az_ID z := bump_authz z]> (as_authzs (current w)) →
  authz_valid a' zid ↔
  if decide (zid = az_ID z) then az_Status z = AuthorizationValid else authz_valid (current w) zid.
Proof.
  intros Heq. unfold authz_valid. rewrite Heq. case_decide as Hd.
  - subst. rewrite lookup_insert_eq. split; [by intros (z' & [= <-] & ?)|]. intros Hv. by exists (bump_authz z).
  - by rewrite lookup_insert_ne by done.
Qed.

(** The order of a settled authorization is in order. *)
Lemma derived_order_ok a' z0 z o0 o :
  as_authzs (current w) !! az_ID z0 = Some z0 → az_ID z = az_ID z0 → settles w z0 z →
  as_orders (current w) !! ord_ID o0 = Some o0 → az_ID z0 ∈ ord_AuthorizationIDs o0 →
  derives w z o0 o → order_ok w (current w) o0 →
  as_authzs a' = <[az_ID z := bump_authz z]> (as_authzs (current w)) →
  as_certificates a' = as_certificates (current w) →
  map_step authz_step (as_authzs (current w)) (as_authzs a') →
  order_ok w a' (bump_order o).
Proof.
  intros Hz0 Hzid Hset Ho0 Hin Hder Hok Hauthzs Hcerts Hm.
  pose proof (λ zid, valid_after a' z zid Hauthzs) as Hvalid.
  destruct Hok as [H1 H2 H3 H4 H5 H6 H7 H8].
  destruct Hder as [Hpend|Hst [Hz Hothers]|Hst].
  - split; simpl; try done; [by eapply order_authzs_step| | |by rewrite Hcerts].
    + intros Hst. destruct (Hpend Hst) as [Hnv|(zid & Hzin & Hne & Hseen)].
      * exists (az_ID z). rewrite Hvalid, decide_True by done. by rewrite Hzid.
      * exists zid. split; [done|]. rewrite Hvalid, decide_False by done.
        apply (seen_invalid_now o0); [done| |done|done]. unfold spec_undispatched. by rewrite Hst.
    + intros Hst. specialize (H3 Hst). rewrite Forall_forall in H3 |- *. intros zid Hzin.
      rewrite Hvalid. case_decide as Hd; [|by apply H3]. subst zid. rewrite Hzid in Hzin.
      destruct (H3 _ Hzin) as (z' & Hz' & Hv). rewrite Hz0 in Hz'. simplify_eq.
      destruct Hset; [done|congruence..].
  - split; simpl; try done; 
      [by eapply order_authzs_step| |intros _; by auto|intros _; apply H7; by rewrite Hst].
    intros _. rewrite Forall_forall. intros zid Hzin. rewrite Hvalid. case_decide as Hd; [done|].
    apply (seen_valid_now o0); [done| |done|by apply Hothers]. unfold spec_undispatched. by rewrite Hst.
  - split; simpl; try done; [by eapply order_authzs_step|by intros [|[]]|by intros []|]. intros _. apply H7. by rewrite Hst.
Qed.

Lemma settled_authz_ok a' z0 z :
  settles w z0 z → authz_ok w (current w) z0 →
  map_step order_step (as_orders (current w)) (as_orders a') → authz_ok w a' (bump_authz z).
Proof.
  intros Hset [Hord Happ Hproved] Hm. pose proof (authz_order_step a' z0 Hm Hord) as Hord'.
  by destruct Hset; split.
Qed.

Lemma commit_completeValidation task c z o :
  guar_store (CallCompleteValidation task c z o) w →
  keeps w (spec_exec (CallCompleteValidation task c z o) (current w)).2.
Proof.
  intros ((c0 & Hcseen & Hcnext) & (z0 & Hzseen & Hset) & Hoid & (o0 & Hoseen & Hder)).
  cbn [spec_exec]. match goal with |- keeps w (guarded ?e ?x ?b ?a).2 =>
    destruct (guarded_cases e x b a) as [[err ->]|[Hall ->]]; [apply keeps_refl|] end.
  rewrite !Forall_cons in Hall. destruct Hall as (_ & Hcrev & Hzrev & Horev & _).
  destruct (challenge_checked _ _ Hcseen Hcnext Hcrev) as [Hc0 Hcstep].
  destruct (settles_next _ _ Hset) as [Hznext Hzr]. destruct (derives_next _ _ _ Hder) as [Honext Hor].
  apply (authz_checked _ z0) in Hzrev as (Hz0 & Hzroom & Hzid & Hzok); [|done..].
  apply (order_checked _ o0) in Horev as (Ho0 & Horoom & Hid & Hok); [|done..].
  pose proof (bump_authz_step _ _ Hzroom Hznext) as Hzstep.
  pose proof (bump_order_step _ _ Horoom Honext) as Hostep.
  assert (az_OrderID z0 = ord_ID o) as Hzo by (by destruct Hset).
  assert (az_ID z0 ∈ ord_AuthorizationIDs o0) as Hin.
  { destruct (ok_order _ _ _ Hzok) as (o1 & Ho1 & Hin). rewrite Hzo, Ho0 in Ho1. by simplify_eq. }
  cbn [snd]. set (a' := put_tasks _ _).
  assert (trans (current w) a') as Htr.
  { split; simpl; rewrite ?Hzid; eauto using map_step_refl, map_step_update.
    eapply (coupled_authz _ z0 (bump_authz z)); [done|simpl; by rewrite Hzid|].
    intros o1 Ho1 _. rewrite Hzo in Ho1 |- *. simpl. rewrite lookup_insert_eq. simplify_eq.
    intros [= Heq]. by destruct (order_step_ne _ _ Hostep). }
  split; [done|]. eapply trans_inv; [apply Hinv|done|..]; simpl; auto.
  - intros id o1. rewrite lookup_insert_Some. intros [[<- <-]|[_ ?]]; [right|by left].
    split; [done|]. rewrite <-Hid in Ho0. by apply (derived_order_ok a' z0 z o0); try done; apply Htr.
  - intros id z1. rewrite lookup_insert_Some. intros [[<- <-]|[_ ?]]; [right|by left].
    split; [done|]. eapply (settled_authz_ok a' z0); [done|done|apply Htr].
  - intros id c1. rewrite lookup_insert_Some. intros [[<- <-]|[_ ?]]; [by right|by left].
Qed.

(** ** New orders *)

Lemma spec_replace_steps o b :
  spec_replace o (current w) = Ok b →
  ∃ m, b = {| (current w) with as_certificates := m |} ∧
       map_step cert_step (as_certificates (current w)) m ∧
       ∀ id c, m !! id = Some c → as_certificates (current w) !! id = Some c ∨
         (crt_ID c = id ∧ published w c).
Proof.
  unfold spec_replace. case_match; [intros [= <-]|].
  { exists (as_certificates (current w)). split_and!; [by generalize (current w); intros []|apply map_step_refl|auto]. }
  case_match eqn:Hfind; [|done]. case_match; [done|]. intros [= <-].
  apply find_value_Some in Hfind as (id & Hc & _). destruct (inv_certs _ _ Hinv _ _ Hc) as [<- Hpub].
  set (c' := {| c with crt_ReplacedByOrderID := _; crt_Revision := _ |}).
  assert (cert_step c c') as Hstep.
  { apply (bump_cert_step c {| c with crt_ReplacedByOrderID := ord_ID o |}); [|constructor].
    by apply (room_certs _ Hroom _ _ Hc). }
  destruct (keeps_cert c' c Hc Hstep) as [Htr Hinv']. eexists. split; [done|]. split; [apply Htr|].
  intros id1 c1 Hc1. right. by apply (inv_certs _ _ Hinv').
Qed.

Definition first_version (z : Authorization) : Authorization := {| z with az_Revision := 1%Z |}.

(** The state with a new order in it. *)
Lemma new_order_ok a' o authzs challenges :
  new_order w o authzs challenges →
  (∀ z, z ∈ authzs → as_authzs a' !! az_ID z = Some (first_version z)) →
  order_ok w a' {| o with ord_Revision := 1%Z |}.
Proof.
  intros [_ _ Hids Hauthzs _ _ [Hiss Hcert] Hst] Hstored.
  assert (∀ z, z ∈ authzs → authz_valid a' (az_ID z) ↔ az_Status z = AuthorizationValid) as Hvalid.
  { intros z Hz. unfold authz_valid. rewrite (Hstored z Hz). split; [|by eexists].
    by intros (z' & [= <-] & ?). }
  split; simpl; rewrite ?Hids; try done.
  - rewrite Forall2_fmap_l. rewrite Forall2_same_length_lookup in Hauthzs |- *.
    destruct Hauthzs as [Hlen Hauthzs]. split; [done|]. intros i z ident Hz Hident.
    destruct (Hauthzs _ _ _ Hz Hident) as (? & ? & ? & _). exists (first_version z).
    rewrite Hstored; [done|]. by eapply list_elem_of_lookup_2.
  - intros Hp. destruct Hst as [[_ Hex]|[Hr _]]; [|by rewrite Hp in Hr].
    apply Exists_exists in Hex as (z & Hz & Hnv). exists (az_ID z).
    split; [by apply list_elem_of_fmap_2|]. by rewrite Hvalid.
  - intros Hr. destruct Hst as [[Hp _]|[_ Hall]]; [rewrite Hp in Hr; naive_solver|].
    rewrite Forall_fmap, Forall_forall. rewrite Forall_forall in Hall.
    intros z Hz. apply Hvalid; auto.
  - destruct Hst as [[-> _]|[-> _]]; done.
  - by rewrite Hiss.
  - destruct Hst as [[-> _]|[-> _]]; done.
Qed.

Lemma new_authz_ok a' o authzs challenges z :
  new_order w o authzs challenges → z ∈ authzs →
  as_orders a' !! ord_ID o = Some {| o with ord_Revision := 1%Z |} → authz_ok w a' (first_version z).
Proof.
  intros Hnew Hz Ho. pose proof (no_authzs _ _ _ _ Hnew) as Hall.
  apply list_elem_of_lookup in Hz as [i Hi].
  destruct (Forall2_lookup_l _ _ _ _ _ Hall Hi) as (ident & _ & Hoid & _ & _ & Hst).
  split; simpl.
  - rewrite Hoid. eexists. split; [done|]. simpl. rewrite (no_authz_ids _ _ _ _ Hnew).
    apply list_elem_of_fmap_2. by apply list_elem_of_lookup_2 in Hi.
  - intros Hp. destruct Hst as [[_ Hp']|(_ & _ & Happ)]; [by rewrite Hp in Hp'|done].
  - intros Hv Hp. destruct Hst as [[Hv' _]|(_ & Hp' & _)]; [by rewrite Hv in Hv'|by rewrite Hp in Hp'].
Qed.

Lemma existsb_unused {A V} (key : A → string) (m : gmap string V) l :
  existsb (λ x, bool_decide (is_Some (m !! key x))) l = false → ∀ x, x ∈ l → m !! key x = None.
Proof.
  intros Hf x Hx. apply eq_None_not_Some. intros Hs. apply not_true_iff_false in Hf.
  apply Hf, existsb_exists. exists x. rewrite bool_decide_eq_true. by rewrite <-list_elem_of_In.
Qed.

Lemma commit_createOrder o authzs challenges :
  guar_store (CallCreateOrder o authzs challenges) w →
  keeps w (spec_createOrder o authzs challenges (current w)).2.
Proof.
  intros Hnew. unfold spec_createOrder. case_match eqn:Hfree; [apply keeps_refl|].
  case_match eqn:Hrep; [|apply keeps_refl]. cbn [snd].
  apply orb_false_iff in Hfree as [[Ho Hz]%orb_false_iff Hc].
  pose proof (existsb_unused _ _ _ Hz) as Hz'. pose proof (existsb_unused _ _ _ Hc) as Hc'.
  apply bool_decide_eq_false, eq_None_not_Some in Ho.
  apply spec_replace_steps in Hrep as (m & -> & Hm & Hcerts).
  rewrite put_challenges, put_authzs. simpl. fold first_version.
  set (zs := map first_version authzs). set (cs := map _ challenges). set (a' := mkAStore _ _ _ _ _ _ _).
  assert (∀ z, z ∈ zs → as_authzs (current w) !! az_ID z = None) as Hznew.
  { intros z (z0 & -> & Hz0)%list_elem_of_fmap. by apply (Hz' z0). }
  assert (∀ c, c ∈ cs → as_challenges (current w) !! ch_ID c = None) as Hcnew.
  { intros c (c0 & -> & Hc0)%list_elem_of_fmap. by apply (Hc' c0). }
  pose proof (insert_all_subseteq az_ID _ _ Hznew) as Hzsub.
  assert (trans (current w) a') as Htr.
  { split; simpl; eauto using map_step_refl, map_step_add, map_step_subseteq, insert_all_subseteq.
    intros id o1 zid Ho1 _ _ Hzid. destruct (inv_orders _ _ Hinv _ _ Ho1) as [_ Hok].
    apply list_elem_of_lookup in Hzid as [i Hi].
    destruct (Forall2_lookup_l _ _ _ _ _ (ok_authzs _ _ _ Hok) Hi) as (ident & _ & z & Hz1 & _).
    unfold authz_valid. simpl. rewrite Hz1. by rewrite (lookup_weaken _ _ _ _ Hz1 Hzsub). }
  assert (∀ z, z ∈ authzs → as_authzs a' !! az_ID z = Some (first_version z)) as Hstored.
  { intros z Hzin. apply (insert_all_in az_ID zs _ (first_version z)); [|by apply list_elem_of_fmap_2].
    unfold zs. rewrite map_map. apply (no_distinct _ _ _ _ Hnew). }
  split; [done|]. eapply trans_inv; [apply Hinv|done|..]; simpl; auto.
  - intros id o1. rewrite lookup_insert_Some. intros [[<- <-]|[_ ?]]; [right|by left].
    split; [done|]. by eapply new_order_ok.
  - intros id z [?|[(z0 & -> & Hz0)%list_elem_of_fmap <-]]%insert_all_inv; [by left|right].
    split; [done|]. eapply new_authz_ok; [done|done|]. simpl. by rewrite lookup_insert_eq.
  - intros id c [?|[_ <-]]%insert_all_inv; auto.
Qed.

(** ** Every call *)

Lemma commit_store {X} (c : storeCall X) : guar_store c w → keeps w (spec_exec c (current w)).2.
Proof.
  destruct c; cbn [spec_exec]; intros Hg; try apply keeps_refl;
    eauto using commit_createAccount, commit_updateAccount, commit_createOrder,
      commit_updateAuthorization, commit_updateCertificate, commit_acceptChallenge,
      commit_finalizeOrder, commit_beginIssuance, commit_retryValidation,
      commit_completeValidation, commit_completeIssuance.
  - unfold spec_orderIDs. case_match; apply keeps_refl.
  - case_match; apply keeps_refl.
  - unfold spec_claimTask. case_match; [apply keeps_tasks|apply keeps_refl].
  - match goal with |- keeps w (guarded ?e ?x ?b ?a).2 =>
      destruct (guarded_cases e x b a) as [[err ->]|[_ ->]] end; [apply keeps_refl|apply keeps_tasks].
  - match goal with |- keeps w (guarded ?e ?x ?b ?a).2 =>
      destruct (guarded_cases e x b a) as [[err ->]|[_ ->]] end; [apply keeps_refl|apply keeps_tasks].
Qed.

End calls.

(** Guarantees about the past stay true. *)
Lemma seen_mono {V} (f : AStore → gmap string V) w w' id v :
  w `suffix_of` w' → seen f w id v → seen f w' id v.
Proof. apply past_mono. Qed.

Lemma leaves_pending_mono w w' o z : w `suffix_of` w' → leaves_pending w o z → leaves_pending w' o z.
Proof.
  intros Hle [?|(zid & ? & ? & ?)]; [by left|right]. exists zid.
  split_and!; [done..|by eapply past_mono].
Qed.

Lemma derives_mono w w' z o o' : w `suffix_of` w' → derives w z o o' → derives w' z o o'.
Proof.
  intros Hle [?|? [? Hothers]|?]; constructor; eauto using leaves_pending_mono.
  split; [done|]. intros. eapply past_mono; [done|]. by apply Hothers.
Qed.

Lemma settles_mono w w' z z' : w `suffix_of` w' → settles w z z' → settles w' z z'.
Proof. intros Hle []; constructor; eauto using validated_mono. Qed.

Lemma new_authz_mono w w' o z id : w `suffix_of` w' → new_authz w o z id → new_authz w' o z id.
Proof.
  intros Hle (? & ? & ? & Hst). split_and!; [done..|].
  destruct Hst as [?|(? & ? & ?)]; [by left|right]. eauto using approved_mono.
Qed.

Lemma new_order_mono w w' o authzs challenges :
  w `suffix_of` w' → new_order w o authzs challenges → new_order w' o authzs challenges.
Proof.
  intros Hle [??? Hall ????]. split; try done. eapply Forall2_impl; [done|].
  intros. by eapply new_authz_mono.
Qed.

Lemma call_ok_mono w w' ev :
  w `suffix_of` w' → match ev with EvRandom _ => False | _ => True end → call_ok w ev → call_ok w' ev.
Proof.
  intros Hle. destruct ev; try done; intros _.
  - intros (o & st & Hp & ?). exists o, st. split; [by eapply past_mono|done].
  - intros (c & Hp & ?). exists c. split; [by eapply past_mono|done].
Qed.

Lemma guar_le X (e : op X) w w' : w `suffix_of` w' → guar X e w → guar X e w'.
Proof.
  intros Hle. pose proof (λ V f id v, @seen_mono V f w w' id v Hle) as Hseen.
  destruct e; try done; [|by apply (call_ok_mono w w' (EvIssue req))|by apply (call_ok_mono w w' (EvRevoke req))].
  destruct c; simpl; try done.
  - naive_solver.
  - by apply new_order_mono.
  - naive_solver.
  - naive_solver.
  - naive_solver.
  - intros (? & o0 & der & ? & ? & ? & Hall). split; [done|]. exists o0, der. split_and!; eauto.
    eapply Forall_impl; [done|]. intros zid. by apply past_mono.
  - intros (o0 & st & ? & ? & ? & ? & ? & Hall & ? & ?). exists o0, st. split_and!; eauto using clocked_mono.
    eapply Forall2_impl; [done|]. naive_solver.
  - naive_solver.
  - intros ((c0 & ? & ?) & (z0 & ? & ?) & ? & (o0 & ? & ?)). split_and!; [|..|done|];
      eauto using settles_mono, derives_mono.
  - intros (o0 & ? & ?). exists o0. eauto.
Qed.

Lemma step_ok X (e : op X) w x w' :
  hist_ok w → guar X e w → sys_step X e w x w' → w `suffix_of` w' ∧ hist_ok w'.
Proof.
  intros Hw Hg Hstep.
  assert (∀ Y (c : storeCall Y), guar_store c w → room (current w) →
            w `suffix_of` executed c w ∧ hist_ok (executed c w)) as Hexec.
  { intros Y c Hc Hroom. destruct (commit_store w Hw Hroom c Hc). split; [by apply suffix_cons_r|done]. }
  assert (∀ ev, call_ok w ev → w `suffix_of` Called ev :: w ∧ hist_ok (Called ev :: w)) as Hcalled.
  { intros ev Hev. split; [by apply suffix_cons_r|done]. }
  destruct e; simpl in Hstep; unfold recorded in Hstep; try (subst; by split).
  - destruct Hstep as [(Hroom & -> & ->)|(err & _ & _ & [->|[Hroom ->]])]; auto.
  - subst. by apply Hcalled.
  - destruct x; [destruct Hstep as (_ & Hfresh & ->); by apply Hcalled|by subst].
  - by destruct Hstep as [-> _].
  - case_match; subst; auto.
  - subst. by apply Hcalled.
  - subst. by apply Hcalled.
  - case_match; subst; auto.
  - case_match; subst; auto.
Qed.

End Steps.
