(* ===== verification/SystemRules.v ===== *)
(** * Rules for programs of the server

    How to show that a handler or worker is safe in the system of System.v: rules for the reads of
    the store and for code whose calls need no guarantee. *)

From S2P Require Import Prelude Status Problem Resource Base64 StoreSpec Prog Host Platform Chain Http Orders Revoke Lifecycle System SystemSteps.

(** [v] was stored under [id] at a point between [w] and [w']. *)
Definition read_at {V} (f : AStore → gmap string V) (w w' : World) (id : string) (v : V) : Prop :=
  ∃ w0, w `suffix_of` w0 ∧ w0 `suffix_of` w' ∧ f (current w0) !! id = Some v.

(** The authorization was, or was not, valid at a point between [w] and [w']. *)
Definition valid_at (w w' : World) (zid : string) : Prop :=
  ∃ w0, w `suffix_of` w0 ∧ w0 `suffix_of` w' ∧ authz_valid (current w0) zid.
Definition invalid_at (w w' : World) (zid : string) : Prop :=
  ∃ w0, w `suffix_of` w0 ∧ w0 `suffix_of` w' ∧ ¬ authz_valid (current w0) zid.

(** A program all of whose calls may be made at any time. *)
Fixpoint free `{Platform} {A} (p : Prog A) : Prop :=
  match p with
  | Ret _ => True
  | Vis e k => (∀ w, guar _ e w) ∧ ∀ x, free (k x)
  end.

Create HintDb free.

Section Rules.
Context `{Platform}.

(** Started in an acceptable history [w], the program is safe and ends with [Q]. *)
Definition WP {A} (p : Prog A) (Q : A → World → Prop) (w : World) : Prop :=
  hist_ok w → wp suffix hist_ok guar sys_step p (λ a w', w `suffix_of` w' → hist_ok w' → Q a w') w.

Lemma WP_conseq {A} (p : Prog A) (Q Q' : A → World → Prop) w :
  WP p Q w → (∀ a w', w `suffix_of` w' → hist_ok w' → Q a w' → Q' a w') → WP p Q' w.
Proof.
  intros Hp HQ Hw. eapply (wp_conseq _ _); [|by apply Hp]. intros a w' Hle HQa _ Hw'. by apply HQ, HQa.
Qed.

Lemma WP_ret {A} (a : A) (Q : A → World → Prop) w : Q a w → WP (Ret a) Q w.
Proof. intros HQ Hw. simpl. auto. Qed.

Lemma WP_mret {A} (a : A) (Q : A → World → Prop) w : Q a w → WP (mret a) Q w.
Proof. apply WP_ret. Qed.

Lemma WP_bind {A B} (f : A → Prog B) (p : Prog A) (Q : B → World → Prop) w :
  WP p (λ a, WP (f a) Q) w → WP (p ≫= f) Q w.
Proof.
  intros Hp Hw. apply (wp_bind _ _). specialize (Hp Hw). apply (wp_inv _ _ _ _ _ _ _ Hw) in Hp.
  eapply (wp_conseq _ _); [|exact Hp]. intros a w' Hle [Hw' Ha].
  eapply (wp_conseq _ _); [|by apply Ha]. intros b w'' Hle' Hb _ Hw''. by apply Hb.
Qed.

(** Keeping what is known of the initial history. *)
Lemma WP_frame {A} (p : Prog A) (Q : A → World → Prop) (P : World → Prop) w :
  (∀ w', w `suffix_of` w' → P w → P w') → P w → WP p (λ a w', P w' → Q a w') w → WP p Q w.
Proof. intros HP Hw Hp. eapply WP_conseq; [done|]. intros a w' Hle _ HQ. apply HQ. eauto. Qed.

Lemma WP_call {X} (e : op X) (Q : X → World → Prop) w :
  (hist_ok w → guar X e w) →
  (∀ w0 x w', w `suffix_of` w0 → hist_ok w0 → sys_step X e w0 x w' → w0 `suffix_of` w' →
     hist_ok w' → Q x w') →
  WP (call e) Q w.
Proof.
  intros Hg HQ Hw. apply (wp_call _ _); [auto|]. intros w0 x w1 ? ? ? ? ? ? ? ?. by eapply (HQ w0).
Qed.

(** A reading of the clock. *)
Lemma WP_now (Q : Time → World → Prop) w :
  (∀ now w', w `suffix_of` w' → hist_ok w' → Q now w') → WP Now Q w.
Proof. intros HQ. apply WP_call; [done|]. intros w0 now w' Hle _ _ Hle' Hw'. apply HQ; [by etrans|done]. Qed.

(** ** Code that needs no guarantee *)

Lemma WP_free {A} (p : Prog A) (Q : A → World → Prop) w :
  free p → (∀ a w', w `suffix_of` w' → hist_ok w' → Q a w') → WP p Q w.
Proof.
  intros Hp HQ Hw. revert w Hw HQ. induction p as [a|X e k IH]; intros w Hw HQ; simpl; [auto|].
  destruct Hp as [Hg Hk]. split; [done|]. intros w0 x w' Hle _ _ _ Hle' Hw'.
  eapply (wp_conseq _ _); [|apply IH; [apply Hk|done|]].
  - intros a w'' Hle'' Ha _. by apply Ha.
  - intros a w'' Hle'' Hw''. apply HQ; [|done]. by repeat (etrans; [done|]).
Qed.

Lemma free_bind {A B} (f : A → Prog B) (p : Prog A) :
  free p → (∀ a, free (f a)) → free (p ≫= f).
Proof.
  intros Hp Hf. change (p ≫= f) with (prog_bind f p). induction p as [a|X e k IH]; simpl; [auto|].
  destruct Hp. split; auto.
Qed.

Lemma free_ret {A} (a : A) : free (Ret a).
Proof. done. Qed.

Lemma free_mret {A} (a : A) : free (mret a).
Proof. done. Qed.

Lemma free_call {X} (e : op X) : (∀ w, guar X e w) → free (call e).
Proof. done. Qed.

Lemma free_orElse {A B} (p : Prog (result Problem A)) (fail : Problem → Prog B) (k : A → Prog B) :
  free p → (∀ e, free (fail e)) → (∀ a, free (k a)) → free (orElse p fail k).
Proof. intros. apply free_bind; [done|]. intros []; auto. Qed.

Lemma free_andThen {A B} (p : Prog (result Problem A)) (k : A → Prog (result Problem B)) :
  free p → (∀ a, free (k a)) → free (andThen p k).
Proof. intros. by apply free_orElse. Qed.

(** Early returns. *)
Lemma WP_orElse {A B} (p : Prog (result Problem A)) (fail : Problem → Prog B) (k : A → Prog B)
    (Q : B → World → Prop) w :
  WP p (λ r w', match r with Ok a => WP (k a) Q w' | Err e => WP (fail e) Q w' end) w →
  WP (orElse p fail k) Q w.
Proof. intros Hp. apply WP_bind. eapply WP_conseq; [done|]. by intros [] w' _ _. Qed.

Lemma WP_andThen {A B} (p : Prog (result Problem A)) (k : A → Prog (result Problem B))
    (Q : result Problem B → World → Prop) w :
  WP p (λ r w', match r with Ok a => WP (k a) Q w' | Err e => Q (Err e) w' end) w →
  WP (andThen p k) Q w.
Proof.
  intros Hp. apply WP_orElse. eapply WP_conseq; [done|]. intros [] w' _ _; [done|]. apply WP_mret.
Qed.

(** Releasing a task or dropping it ends a run. *)
Lemma WP_done {A} (p : Prog A) w : free p → WP p (λ _ _, True) w.
Proof. intros. by apply WP_free. Qed.

(** A program that ends the run and returns a fixed value. *)
Lemma WP_end {A} (p : Prog unit) (a : A) (Q : A → World → Prop) w :
  WP p (λ _ _, True) w → (∀ w', Q a w') → WP (_ ← p; mret a) Q w.
Proof. intros Hp HQ. apply WP_bind. eapply WP_conseq; [done|]. intros. by apply WP_mret. Qed.

(** ** Reads *)

Lemma transport_not_found err : transport err → IsNotFound err = false.
Proof. by intros (? & _). Qed.

(** A lookup. *)
Lemma WP_read {V} ctx (c : storeCall V) (f : AStore → gmap string V) id (Q : Res V → World → Prop) w :
  (∀ a, spec_exec c a = lookup_result (f a !! id) a) → (∀ w, guar_store c w) →
  (∀ r w', w `suffix_of` w' → hist_ok w' → (∀ v, r = Ok v → read_at f w w' id v) → Q r w') →
  WP (store ctx c) Q w.
Proof.
  intros Hc Hg HQ. apply WP_call; [intros _; apply Hg|].
  intros w0 x w' Hle Hw0 Hstep Hle' Hw'. apply HQ; [by etrans|done|]. intros v ->.
  destruct Hstep as [(_ & Hx & ->)|(err & _ & ? & _)]; [|done].
  rewrite Hc in Hx. exists w0. split_and!; [done|done|].
  unfold lookup_result in Hx. simpl in Hx. by destruct (f (current w0) !! id); simplify_eq.
Qed.

Lemma WP_order ctx id (Q : Res Order → World → Prop) w :
  (∀ r w', w `suffix_of` w' → hist_ok w' →
     (∀ o, r = Ok o → ord_ID o = id ∧ read_at as_orders w w' id o) → Q r w') →
  WP (store ctx (CallOrder id)) Q w.
Proof.
  intros HQ. eapply (WP_read _ _ as_orders id); [done|done|]. intros r w' Hle Hw' Hr. apply HQ; [done..|].
  intros o Ho. split; [|by apply Hr]. destruct (Hr _ Ho) as (w0 & _ & Hle0 & Hid).
  by apply (inv_orders _ _ (hist_inv w0 (hist_ok_suffix _ _ Hle0 Hw'))).
Qed.

Lemma WP_authz ctx id (Q : Res Authorization → World → Prop) w :
  (∀ r w', w `suffix_of` w' → hist_ok w' →
     (∀ z, r = Ok z → az_ID z = id ∧ read_at as_authzs w w' id z) → Q r w') →
  WP (store ctx (CallAuthorization id)) Q w.
Proof.
  intros HQ. eapply (WP_read _ _ as_authzs id); [done|done|]. intros r w' Hle Hw' Hr. apply HQ; [done..|].
  intros z Hz. split; [|by apply Hr]. destruct (Hr _ Hz) as (w0 & _ & Hle0 & Hid).
  by apply (inv_authzs _ _ (hist_inv w0 (hist_ok_suffix _ _ Hle0 Hw'))).
Qed.

Lemma WP_challenge ctx id (Q : Res Challenge → World → Prop) w :
  (∀ r w', w `suffix_of` w' → hist_ok w' →
     (∀ c, r = Ok c → ch_ID c = id ∧ read_at as_challenges w w' id c) → Q r w') →
  WP (store ctx (CallChallenge id)) Q w.
Proof.
  intros HQ. eapply (WP_read _ _ as_challenges id); [done|done|]. intros r w' Hle Hw' Hr.
  apply HQ; [done..|].
  intros c Hc. split; [|by apply Hr]. destruct (Hr _ Hc) as (w0 & _ & Hle0 & Hid).
  by apply (inv_challenges _ _ (hist_inv w0 (hist_ok_suffix _ _ Hle0 Hw'))).
Qed.

Lemma WP_account ctx id (Q : Res Account → World → Prop) w :
  (∀ r w', w `suffix_of` w' → hist_ok w' →
     (∀ b, r = Ok b → acct_ID b = id ∧ read_at as_accounts w w' id b) → Q r w') →
  WP (store ctx (CallAccount id)) Q w.
Proof.
  intros HQ. eapply (WP_read _ _ as_accounts id); [done|done|]. intros r w' Hle Hw' Hr.
  apply HQ; [done..|].
  intros b Hb. split; [|by apply Hr]. destruct (Hr _ Hb) as (w0 & _ & Hle0 & Hid).
  by apply (inv_accounts _ _ (hist_inv w0 (hist_ok_suffix _ _ Hle0 Hw'))).
Qed.

Lemma WP_certificate ctx id (Q : Res Certificate → World → Prop) w :
  (∀ r w', w `suffix_of` w' → hist_ok w' →
     (∀ c, r = Ok c → crt_ID c = id ∧ read_at as_certificates w w' id c) → Q r w') →
  WP (store ctx (CallCertificate id)) Q w.
Proof.
  intros HQ. eapply (WP_read _ _ as_certificates id); [done|done|]. intros r w' Hle Hw' Hr.
  apply HQ; [done..|].
  intros c Hc. split; [|by apply Hr]. destruct (Hr _ Hc) as (w0 & _ & Hle0 & Hid).
  by apply (inv_certs _ _ (hist_inv w0 (hist_ok_suffix _ _ Hle0 Hw'))).
Qed.

(** ** What was read *)

Lemma read_seen {V} (f : AStore → gmap string V) w w' id v : read_at f w w' id v → seen f w' id v.
Proof. intros (w0 & _ & Hle & Hv). by exists w0. Qed.

Lemma since_later w w' o :
  w `suffix_of` w' → hist_ok w' → seen as_orders w (ord_ID o) o → since o (current w').
Proof.
  intros Hle Hw' (w0 & Hle0 & Ho).
  destruct (orders_later w0 w') with (ord_ID o) o as (o' & Ho' & Hrtc); [by etrans|done|done|].
  exists o'. split; [done|]. by apply (rtc_rev order_step ord_Revision order_step_rev).
Qed.

Lemma valid_at_seen w w' o zid :
  hist_ok w' → seen as_orders w (ord_ID o) o → valid_at w w' zid → seen_valid w' o zid.
Proof.
  intros Hw' Ho (w0 & Hle & Hle' & Hv). exists w0. split_and!; [done| |done].
  eapply since_later; [done|by eapply hist_ok_suffix|done].
Qed.

Lemma invalid_at_seen w w' o zid :
  hist_ok w' → seen as_orders w (ord_ID o) o → invalid_at w w' zid → seen_invalid w' o zid.
Proof.
  intros Hw' Ho (w0 & Hle & Hle' & Hv). exists w0. split_and!; [done| |done].
  eapply since_later; [done|by eapply hist_ok_suffix|done].
Qed.

Lemma read_valid w w' zid z :
  read_at as_authzs w w' zid z →
  if decide (az_Status z = AuthorizationValid) then valid_at w w' zid else invalid_at w w' zid.
Proof.
  intros (w0 & ? & ? & Hz). case_decide; exists w0; split_and!; try done; unfold authz_valid; rewrite Hz;
    naive_solver.
Qed.

End Rules.

#[export] Hint Resolve free_ret free_mret free_call : free.

(** Shows that a program needs no guarantee, lemma by lemma. *)
Ltac solve_free :=
  repeat first
    [ progress intros
    | solve [eauto with free nocore]
    | apply free_ret
    | apply free_mret
    | (apply free_call; intros; exact I)
    | apply free_orElse
    | apply free_andThen
    | apply free_bind
    | case_match ].

(** Moves knowledge of the past to a later history. *)
#[export] Hint Extern 2 (suffix _ _) => (etrans; eassumption) : acme.
#[export] Hint Resolve seen_mono read_seen : acme.
