(* ===== verification/SystemWorker.v ===== *)
(** * Workers are safe

    A turn of [Run] (src/worker.go, src/issuance.go) makes only calls it may make, whatever other
    handlers and workers do between two of its calls. *)

From S2P Require Import Prelude Status Problem Resource Base64 StoreSpec Prog Host Platform Identifier Chain Worker Issuance Orders Revoke Lifecycle System SystemSteps SystemRules.

(** ** Facts of versions *)

(** An authorization that is still pending has only changed its revision. *)
Lemma pending_back z z' :
  rtc authz_step z z' → az_Status z' = AuthorizationPending →
  z' = {| z with az_Revision := az_Revision z' |} ∧ az_Status z = AuthorizationPending.
Proof.
  induction 1 as [z|z u z' (v & Hnext & ->) _ IH]; intros Hp; [by destruct z|].
  destruct (IH Hp) as [-> Hst]. by destruct Hnext; simplify_eq/=.
Qed.

Lemma settles_refresh w z0 z z1 :
  settles w z0 z → rtc authz_step z0 z1 → az_Status z1 = AuthorizationPending →
  settles w z1 {| z with az_Revision := az_Revision z1 |}.
Proof.
  intros Hset Hrtc Hp. destruct (pending_back _ _ Hrtc Hp) as [Heq Hst].
  destruct Hset as [|expires ca ge names nf _ Hval|].
  - rewrite <-Heq. constructor.
  - replace ({| {| z0 with az_Status := _; az_Expires := _; az_CACertificate := _;
                   az_GrantExpires := _; az_GrantNames := _; az_GrantNFType := _ |} with
               az_Revision := az_Revision z1 |})
      with ({| z1 with az_Status := AuthorizationValid; az_Expires := expires;
               az_CACertificate := ca; az_GrantExpires := ge;
               az_GrantNames := names; az_GrantNFType := nf |}) by (by rewrite Heq).
    constructor; [done|]. destruct Hval as (req & ?). exists req. by rewrite Heq.
  - replace ({| {| z0 with az_Status := AuthorizationInvalid |} with az_Revision := az_Revision z1 |})
      with ({| z1 with az_Status := AuthorizationInvalid |}) by (by rewrite Heq).
    by constructor.
Qed.

(** A challenge with the result of its validation. *)
Definition settled_challenge (w : World) (c : Challenge) : Prop :=
  ∃ c0 status validated p,
    seen as_challenges w (ch_ID c) c0 ∧ ch_Status c0 = ChallengeProcessing ∧
    (status = ChallengeValid ∨ status = ChallengeInvalid) ∧
    c = {| c0 with ch_Status := status; ch_Validated := validated; ch_Error := p |}.

Definition settled_authz (w : World) (z : Authorization) : Prop :=
  ∃ z0, seen as_authzs w (az_ID z) z0 ∧ settles w z0 z.

Lemma settled_challenge_mono w w' c :
  w `suffix_of` w' → settled_challenge w c → settled_challenge w' c.
Proof.
  intros Hle (c0 & status & validated & p & ? & ?). exists c0, status, validated, p. eauto with acme.
Qed.

Lemma settled_authz_mono w w' z : w `suffix_of` w' → settled_authz w z → settled_authz w' z.
Proof. intros Hle (z0 & ? & ?). exists z0. eauto using settles_mono with acme. Qed.

#[export] Hint Resolve settled_challenge_mono settled_authz_mono : acme.

(** ** Deriving the status of an order *)

Lemma effective_valid z now :
  effectiveAuthzStatus z now = AuthorizationValid → az_Status z = AuthorizationValid ∧ (now < az_Expires z)%Z.
Proof.
  unfold effectiveAuthzStatus. case_match eqn:Hc; [done|]. intros Hst. split; [done|].
  rewrite Hst in Hc. simpl in Hc. go_bool. done.
Qed.

Lemma effective_live z now :
  effectiveAuthzStatus z now ≠ AuthorizationExpired → effectiveAuthzStatus z now = az_Status z.
Proof. unfold effectiveAuthzStatus. by case_match. Qed.

(** How an authorization counted, with [updated] standing in for its stored version. *)
Definition counted (stored : string → Prop) (own : Authorization → Prop)
    (updated : option Authorization) (zid : string) : Prop :=
  match updated with
  | Some u => if decide (zid = az_ID u) then own u else stored zid
  | None => stored zid
  end.

Definition counted_valid (w w' : World) : option Authorization → string → Prop :=
  counted (valid_at w w') (λ u, az_Status u = AuthorizationValid).
Definition counted_invalid (w w' : World) : option Authorization → string → Prop :=
  counted (invalid_at w w') (λ u, az_Status u ≠ AuthorizationValid).

Lemma counted_mono (P Q : string → Prop) own updated zid :
  (∀ zid, P zid → Q zid) → counted P own updated zid → counted Q own updated zid.
Proof. intros HPQ. unfold counted. destruct updated; [case_decide|]; auto. Qed.

(** A window of history can be widened. *)
Lemma valid_at_widen u w w' u' zid :
  u `suffix_of` w → w' `suffix_of` u' → valid_at w w' zid → valid_at u u' zid.
Proof. intros ?? (w0 & ? & ? & ?). exists w0. split_and!; [by etrans|by etrans|done]. Qed.
Lemma invalid_at_widen u w w' u' zid :
  u `suffix_of` w → w' `suffix_of` u' → invalid_at w w' zid → invalid_at u u' zid.
Proof. intros ?? (w0 & ? & ? & ?). exists w0. split_and!; [by etrans|by etrans|done]. Qed.

Lemma counted_valid_widen u w w' u' updated zid :
  u `suffix_of` w → w' `suffix_of` u' → counted_valid w w' updated zid → counted_valid u u' updated zid.
Proof. intros. eapply counted_mono; [|done]. intros. by eapply valid_at_widen. Qed.
Lemma counted_invalid_widen u w w' u' updated zid :
  u `suffix_of` w → w' `suffix_of` u' →
  counted_invalid w w' updated zid → counted_invalid u u' updated zid.
Proof. intros. eapply counted_mono; [|done]. intros. by eapply invalid_at_widen. Qed.

Section Worker.
Context `{Platform} (s : Server).

Lemma WP_authzStatus ctx id updated now (Q : Res AuthorizationStatus → World → Prop) w :
  (∀ r w', w `suffix_of` w' → hist_ok w' →
     (∀ status, r = Ok status → status = AuthorizationExpired ∨
        if decide (status = AuthorizationValid) then counted_valid w w' updated id
        else counted_invalid w w' updated id) → Q r w') →
  WP (authzStatus ctx id updated now) Q w.
Proof.
  intros HQ.
  assert (∀ z, effectiveAuthzStatus z now = AuthorizationExpired ∨
               effectiveAuthzStatus z now = az_Status z) as Heff.
  { intros z. destruct (decide (effectiveAuthzStatus z now = AuthorizationExpired)); [by left|right].
    by apply effective_live. }
  assert (∀ Q', (∀ r w', w `suffix_of` w' → hist_ok w' →
     (∀ status, r = Ok status → status = AuthorizationExpired ∨
        if decide (status = AuthorizationValid) then valid_at w w' id else invalid_at w w' id) → Q' r w') →
    WP (r ← store ctx (CallAuthorization id);
        mret match r with Err err => Err err | Ok authz => Ok (effectiveAuthzStatus authz now) end) Q' w)
    as Hload.
  { intros Q' HQ'. apply WP_bind, WP_authz. intros r w' Hle Hw' Hr. apply WP_mret, HQ'; [done..|].
    intros status Hst. destruct r as [z|]; simplify_eq. destruct (Heff z) as [|Heq]; [by left|right].
    rewrite Heq. by apply read_valid, Hr. }
  unfold authzStatus, counted_valid, counted_invalid, counted in *.
  destruct updated as [u|]; [|by apply Hload]. case_bool_decide as Hid.
  - intros Hw. apply WP_mret; [|done]. apply HQ; [done..|]. intros status [= <-].
    destruct (decide (id = az_ID u)); [|done].
    destruct (Heff u) as [|Heq]; [by left|right]. rewrite Heq. by case_decide.
  - apply Hload. intros r w' Hle Hw' Hr. apply HQ; [done..|]. intros status Hst.
    destruct (decide (id = az_ID u)); [done|]. auto.
Qed.

Definition derived (w w' : World) (ids : list string) (updated : option Authorization)
    (status : OrderStatus) : Prop :=
  match status with
  | OrderReady => ∀ zid, zid ∈ ids → counted_valid w w' updated zid
  | OrderPending => ∃ zid, zid ∈ ids ∧ counted_invalid w w' updated zid
  | OrderInvalid => True
  | _ => False
  end.

Lemma WP_deriveLoop ctx ids updated now allValid w :
  WP (deriveLoop ctx ids updated now allValid)
    (λ r w', match r with
             | Ok OrderPending => allValid = false ∨ derived w w' ids updated OrderPending
             | Ok OrderReady => allValid = true ∧ derived w w' ids updated OrderReady
             | Ok status => derived w w' ids updated status
             | Err _ => True
             end) w.
Proof.
  revert allValid w. induction ids as [|id ids IH]; intros allValid w; simpl.
  { apply WP_mret. destruct allValid; [|by left]. split; [done|]. intros zid Hin. by apply elem_of_nil in Hin. }
  apply WP_bind, WP_authzStatus. intros r w1 Hle1 Hw1 Hr. destruct r as [status|]; [|by apply WP_mret].
  case_match eqn:Hbad; [by apply WP_mret|]. go_bool.
  destruct (Hr _ eq_refl) as [|Hcount]; [done|].
  case_decide as Hv; [rewrite (bool_decide_eq_true_2 _ Hv)|rewrite (bool_decide_eq_false_2 _ Hv)];
    cbn [negb]; (eapply WP_conseq; [apply IH|]); intros r w2 Hle2 Hw2 Hpost; destruct r as [[]|]; try done.
  - destruct Hpost as [->|(zid & Hin & Hc)]; [by left|right].
    exists zid. split; [by right|]. by eapply (counted_invalid_widen w w1 w2 w2).
  - destruct Hpost as [-> Hall]. split; [done|].
    intros zid [->|Hin]%elem_of_cons; [by eapply (counted_valid_widen w w w1 w2)|].
    apply (counted_valid_widen w w1 w2 w2); [done..|]. by apply Hall.
  - right. exists id. split; [by left|]. by eapply (counted_invalid_widen w w w1 w2).
  - by destruct Hpost.
Qed.

Lemma WP_deriveOrderStatus ctx o updated w :
  WP (deriveOrderStatus ctx o updated)
    (λ r w', ∀ status, r = Ok status → derived w w' (ord_AuthorizationIDs o) updated status) w.
Proof.
  unfold deriveOrderStatus. apply WP_bind, WP_call; [done|]. intros w0 now w1 Hle _ _ Hle1 _.
  case_match; [by apply WP_mret; intros ? [= <-]|].
  eapply WP_conseq; [apply WP_deriveLoop|]. intros r w2 Hle2 _ Hpost status ->.
  assert (w `suffix_of` w1) as Hww1 by (by etrans).
  destruct status; simpl in Hpost |- *; try done.
  - destruct Hpost as [|(zid & ? & ?)]; [done|]. exists zid. split; [done|].
    by eapply (counted_invalid_widen w w1 w2 w2).
  - destruct Hpost as [_ Hall]. intros zid Hin. apply (counted_valid_widen w w1 w2 w2); [done..|].
    by apply Hall.
Qed.

(** ** Tasks need no guarantee *)

Lemma free_taskPhase base : free (taskPhase s base).
Proof. unfold taskPhase, WithTimeout. solve_free. Qed.
#[local] Hint Resolve free_taskPhase : free.

Lemma free_storeReschedule base task : free (storeReschedule s base task).
Proof. unfold storeReschedule, store. solve_free. Qed.
#[local] Hint Resolve free_storeReschedule : free.

Lemma free_reschedule base task now : free (reschedule s base task now).
Proof. apply free_storeReschedule. Qed.
#[local] Hint Resolve free_reschedule : free.

Lemma free_finishTask base task : free (finishTask s base task).
Proof. unfold finishTask, store. solve_free. Qed.
#[local] Hint Resolve free_finishTask : free.

Lemma free_dropOnNotFound base task err : free (dropOnNotFound s base task err).
Proof. unfold dropOnNotFound, Now. solve_free. Qed.
#[local] Hint Resolve free_dropOnNotFound : free.

(** ** Committing a validation *)

Lemma seen_fixed w id o o' :
  hist_ok w → seen as_orders w id o → seen as_orders w id o' → order_fixed o o'.
Proof.
  intros Hw Ho Ho'.
  destruct (present order_step as_orders orders_later w id o Hw Ho) as (u & Hu & Hou).
  destruct (present order_step as_orders orders_later w id o' Hw Ho') as (u' & Hu' & Hou').
  simplify_eq. apply (rtc_in _ order_fixed) in Hou, Hou'; [|apply order_step_fixed..].
  unfold order_fixed in *. destruct_and!. repeat split; congruence.
Qed.

Lemma settles_fixed w z z' : settles w z z' → authz_fixed z z'.
Proof. by intros []. Qed.

(** An authorization is listed by its order. *)
Lemma authz_listed w z o :
  hist_ok w → settled_authz w z → seen as_orders w (az_OrderID z) o → az_ID z ∈ ord_AuthorizationIDs o.
Proof.
  intros Hw (z0 & (w0 & Hle & Hz0) & (Hid & _ & Hoid & _)%settles_fixed) Ho.
  destruct (inv_authzs _ _ (hist_inv w0 (hist_ok_suffix _ _ Hle Hw)) _ _ Hz0) as [Hkey [(o0 & Ho0 & Hin) _ _]].
  assert (seen as_orders w (az_OrderID z) o0) as Hseen by (exists w0; by rewrite Hoid).
  pose proof (seen_fixed _ _ _ _ Hw Hseen Ho) as (_ & _ & _ & _ & _ & _ & -> & _). by rewrite Hid.
Qed.

Lemma derives_order w w' z o status :
  hist_ok w' → seen as_orders w (ord_ID o) o → az_ID z ∈ ord_AuthorizationIDs o →
  derived w w' (ord_AuthorizationIDs o) (Some z) status →
  derives w' z o (if (ord_Status o == OrderPending) && (status != OrderPending)
                  then {| o with ord_Status := status |} else o).
Proof.
  intros Hw' Ho Hin Hder. unfold derived, counted_valid, counted_invalid, counted in Hder.
  destruct ((ord_Status o == OrderPending) && (status != OrderPending)) eqn:Hc; go_bool.
  - destruct status; try done; constructor; try done. split.
    + specialize (Hder _ Hin). by rewrite decide_True in Hder.
    + intros zid Hzid Hne. specialize (Hder _ Hzid). rewrite decide_False in Hder by done.
      by eapply valid_at_seen.
  - constructor. intros Hp. destruct Hc as [Hc|Hc]; go_bool; [done|subst].
    destruct Hder as (zid & Hzid & Hcount). case_decide; [by left|right].
    exists zid. split_and!; [done..|]. by eapply invalid_at_seen.
Qed.

(** A commit of a settled validation is guaranteed. *)
Lemma settled_next w c :
  settled_challenge w c → ∃ c0, seen as_challenges w (ch_ID c) c0 ∧ challenge_next c0 c.
Proof.
  intros (c0 & status & validated & p & Hseen & Hst & Hstatus & ->). exists c0.
  split; [done|]. by constructor.
Qed.

Lemma settled_refuse w c validated p :
  settled_challenge w c →
  settled_challenge w {| c with ch_Status := ChallengeInvalid; ch_Validated := validated; ch_Error := p |}.
Proof.
  intros (c0 & status & v0 & p0 & Hseen & Hst & Hstatus & ->).
  exists c0, ChallengeInvalid, validated, p. eauto.
Qed.

Lemma settled_authz_refresh w w1 w2 z z1 :
  settled_authz w z → w `suffix_of` w1 → hist_ok w2 → read_at as_authzs w1 w2 (az_ID z) z1 →
  az_Status z1 = AuthorizationPending → settled_authz w2 {| z with az_Revision := az_Revision z1 |}.
Proof.
  intros (z0 & (wz & Hwz & Hz0) & Hset) Hle Hw2 Hread Hp. pose proof Hread as (wr & Hr1 & Hr2 & Hz1).
  assert (w `suffix_of` w2) by (by trans w1; [|trans wr]).
  exists z1. split; [by apply read_seen in Hread|].
  apply (settles_refresh _ z0); [by eapply settles_mono| |done].
  destruct (authzs_later wz wr) with (az_ID z) z0 as (z' & Hz' & Hrtc);
    [by trans w; [|trans w1]|by eapply hist_ok_suffix|done|]. by simplify_eq.
Qed.

Lemma WP_completeLoop n base ctx task c z w :
  settled_challenge w c → settled_authz w z →
  WP (completeLoop s n base ctx task c z) (λ _ _, True) w.
Proof.
  revert c z w. induction n as [|n IH]; intros c z w Hc Hz; cbn [completeLoop].
  { apply WP_done. unfold Now. solve_free. }
  apply WP_bind, WP_order. intros r w1 Hle1 Hw1 Hr.
  destruct r as [o|err]; [|apply WP_done; solve_free].
  destruct (Hr _ eq_refl) as [Hoid Ho%read_seen]. rewrite <-Hoid in Ho.
  apply WP_bind. eapply WP_conseq; [apply WP_deriveOrderStatus|]. intros r w2 Hle2 Hw2 Hder.
  destruct r as [status|]; [|apply WP_done; unfold Now; solve_free].
  assert (w `suffix_of` w2) as Hle by (by etrans).
  assert (settled_challenge w2 c) as Hc2 by eauto with acme.
  assert (settled_authz w2 z) as Hz2 by eauto with acme.
  assert (az_ID z ∈ ord_AuthorizationIDs o) as Hin.
  { eapply (authz_listed w2); [done|done|]. rewrite <-Hoid. eauto with acme. }
  pose proof (derives_order _ _ _ _ _ Hw2 Ho Hin (Hder _ eq_refl)) as Hd.
  match goal with |- context [CallCompleteValidation _ _ _ ?o'] => set (o2 := o') in * end.
  assert (ord_ID o2 = ord_ID o) as Hid2 by (unfold o2; by case_match).
  apply WP_bind, WP_call.
  { intros _. simpl. rewrite Hid2. split_and!; [by apply settled_next|done|done|].
    exists o. eauto with acme. }
  intros w3 r w4 Hle3 _ _ Hle4 Hw4. destruct r as [|err]; [by apply WP_mret|].
  case_match; [apply WP_done; unfold Now; solve_free|].
  assert (w2 `suffix_of` w4) as Hle24 by (by etrans).
  apply WP_bind, WP_authz. intros r w5 Hle5 Hw5 Hr5.
  destruct r as [z1|]; [|apply WP_done; solve_free].
  destruct (Hr5 _ eq_refl) as [Hid1 Hread]. apply WP_bind, WP_now.
  intros now w6 Hle6 Hw7.
  assert (w2 `suffix_of` w6) as Hle26 by (repeat (etrans; [eassumption|]); done).
  case_match eqn:Hst.
  - apply IH; [apply settled_refuse; eauto with acme|].
    exists z1. split; [|constructor]. rewrite Hid1. apply read_seen in Hread. eauto with acme.
  - go_bool. apply IH; [eauto with acme|]. apply (settled_authz_mono w5); [done|].
    apply (settled_authz_refresh w2 w4); [done..|].
    rewrite <-Hst. symmetry. apply effective_live. by rewrite Hst.
Qed.

Lemma WP_completeValidation base task c z w :
  settled_challenge w c → settled_authz w z →
  WP (completeValidation s base task c z) (λ _ _, True) w.
Proof.
  intros Hc Hz. unfold completeValidation. apply WP_bind, WP_free; [solve_free|].
  intros ctx w' Hle Hw'. apply WP_completeLoop; eauto with acme.
Qed.

(** ** One validation *)

Lemma WP_validationTargets base task w :
  WP (validationTargets s base task)
    (λ r w', ∀ c z b, r = Some (c, z, b) →
       seen as_challenges w' (ch_ID c) c ∧ ch_Status c = ChallengeProcessing ∧
       seen as_authzs w' (az_ID z) z ∧ az_ID z = ch_AuthorizationID c) w.
Proof.
  unfold validationTargets. apply WP_bind, WP_free; [solve_free|]. intros ctx w1 _ _.
  apply WP_bind, WP_challenge. intros r w2 Hle2 Hw2 Hr2.
  destruct r as [c|]; [|apply WP_end; [apply WP_done; solve_free|done]]. destruct (Hr2 _ eq_refl) as [Hcid Hc%read_seen].
  case_match eqn:Hst; [apply WP_end; [apply WP_done; solve_free|done]|]. go_bool.
  apply WP_bind, WP_authz. intros r w3 Hle3 Hw3 Hr3.
  destruct r as [z|]; [|apply WP_end; [apply WP_done; solve_free|done]]. destruct (Hr3 _ eq_refl) as [Hzid Hz%read_seen].
  apply WP_bind, WP_account. intros r w4 Hle4 Hw4 _.
  destruct r as [b|]; [|apply WP_end; [apply WP_done; solve_free|done]]. apply WP_mret. intros ? ? ? [= <- <- <-].
  rewrite Hcid, Hzid. split_and!; eauto with acme.
Qed.

Lemma WP_validate base v req w :
  WP (validate s base v req)
    (λ r w', match r with Ok _ => Called (EvValidated req) ∈ w' | Err _ => True end) w.
Proof.
  unfold validate. apply WP_bind, WP_free; [solve_free|]. intros ctx w1 _ _. destruct v.
  - apply WP_bind, WP_call; [done|]. intros w2 x w3 _ _ Hstep _ _. apply WP_mret.
    destruct x; [done|]. simpl in Hstep. rewrite Hstep. left.
  - apply WP_bind, WP_call; [done|]. intros w2 x w3 _ _ Hstep _ _. apply WP_mret.
    destruct x as [grant|]; [|done]. simpl in Hstep. rewrite Hstep. case_match; [left|done].
Qed.

(** The three ends of a validation. *)
Lemma settled_failed w c p :
  seen as_challenges w (ch_ID c) c → ch_Status c = ChallengeProcessing →
  settled_challenge w (failedChallenge c p).
Proof. intros. exists c, ChallengeInvalid, (ch_Validated c), (Some p). eauto. Qed.

Lemma settled_failed_authz w z :
  seen as_authzs w (az_ID z) z → az_Status z = AuthorizationPending → settled_authz w (failedAuthz z).
Proof. intros. exists z. split; [done|by constructor]. Qed.

Lemma settled_unchanged w z : seen as_authzs w (az_ID z) z → settled_authz w z.
Proof. intros. exists z. split; [done|constructor]. Qed.

Lemma WP_settleValidation base task c z outcome now w :
  seen as_challenges w (ch_ID c) c → ch_Status c = ChallengeProcessing →
  seen as_authzs w (az_ID z) z → az_Status z = AuthorizationPending →
  (is_Ok outcome = true → validated w z) →
  WP (settleValidation s base task c z outcome now) (λ _ _, True) w.
Proof.
  intros Hc Hcst Hz Hzst Hval. unfold settleValidation.
  destruct (if negb (After (az_Expires z) now) then _ else outcome) as [grant|err] eqn:Hout.
  - case_match; [done|]. rewrite Hout in Hval. apply WP_completeValidation.
    + exists c, ChallengeValid, now, None. eauto.
    + exists z. split; [done|]. constructor; auto.
  - clear Hout. case_match; [apply WP_completeValidation; eauto using settled_failed, settled_failed_authz|].
    case_match; [|apply WP_completeValidation; eauto using settled_failed, settled_failed_authz].
    unfold retryValidation. apply WP_bind, WP_free; [solve_free|]. intros ctx w1 Hle1 Hw1.
    apply WP_bind, WP_call.
    { intros _. exists c. split; [eauto with acme|]. by constructor. }
    intros. apply WP_done. solve_free.
Qed.

Lemma WP_runValidation base task w : WP (runValidation s base task) (λ _ _, True) w.
Proof.
  unfold runValidation. apply WP_bind. eapply WP_conseq; [apply WP_validationTargets|].
  intros r w1 _ Hw1 Ht. destruct r as [[[c z] b]|]; [|by apply WP_mret].
  destruct (Ht _ _ _ eq_refl) as (Hc & Hcst & Hz & Hzid).
  apply WP_bind, WP_now. intros now w2 Hle2 _.
  assert (seen as_challenges w2 (ch_ID c) c) as Hc2 by eauto with acme.
  assert (seen as_authzs w2 (az_ID z) z) as Hz2 by eauto with acme.
  case_match eqn:Heff; [apply WP_completeValidation; eauto using settled_failed, settled_unchanged|].
  go_bool. assert (az_Status z = AuthorizationPending) as Hp.
  { rewrite <-Heff. symmetry. apply effective_live. by rewrite Heff. }
  case_match; [apply WP_completeValidation; eauto using settled_failed, settled_failed_authz|].
  case_match; [|apply WP_completeValidation; eauto using settled_failed, settled_failed_authz].
  apply WP_bind. eapply WP_conseq; [apply WP_validate|]. intros outcome w4 Hle4 Hw4 Hout.
  apply WP_bind, WP_now. intros now' w5 Hle5 _.
  assert (w2 `suffix_of` w5) as Hle by (by etrans).
  apply WP_settleValidation; eauto with acme. intros Hok. destruct outcome as [grant|]; [|done].
  exists (validationRequest c z). split; [by apply (elem_of_suffix _ w4)|done].
Qed.

End Worker.

#[export] Hint Resolve free_taskPhase free_storeReschedule free_reschedule free_finishTask
  free_dropOnNotFound : free.
