(* ===== verification/SystemIssuance.v ===== *)
(** * Issuance is safe

    The part of a worker turn that dispatches an order to the CA and records its answer
    (src/issuance.go): the CA is called only for a durable dispatch, and only a checked chain is
    stored as a certificate. *)

From S2P Require Import Prelude Status Problem Resource Base64 StoreSpec Prog Host Platform Identifier Chain Worker Issuance Orders Revoke Lifecycle System SystemSteps SystemRules SystemWorker.

(** An order the worker read as processing. *)
Definition processing (w : World) (o : Order) : Prop :=
  seen as_orders w (ord_ID o) o ∧ ord_Status o = OrderProcessing.

(** A copy of a processing order that can be stored as failed. *)
Definition refusable (w : World) (o : Order) : Prop :=
  ∃ o0 result, processing w o0 ∧ ord_ID o = ord_ID o0 ∧
    ∀ p, failedOrder o p = {| o0 with ord_Status := OrderInvalid; ord_Error := p;
                                      ord_UnpublishedResult := result |}.

Lemma processing_mono w w' o : w `suffix_of` w' → processing w o → processing w' o.
Proof. intros Hle [? ?]. split; eauto with acme. Qed.

Lemma refusable_mono w w' o : w `suffix_of` w' → refusable w o → refusable w' o.
Proof. intros Hle (o0 & result & ? & ?). exists o0, result. eauto using processing_mono. Qed.

#[export] Hint Resolve processing_mono refusable_mono : acme.

Lemma processing_refusable w o : processing w o → refusable w o.
Proof. intros Ho. exists o, (ord_UnpublishedResult o). by destruct o. Qed.

Lemma withIssuance_refusable w o st :
  processing w o → ord_Issuance o = None → refusable w (withIssuance (withIssuance o st) None).
Proof.
  intros Ho Hnone. exists o, (ord_UnpublishedResult o). split_and!; [done..|].
  intros p. destruct o. by simplify_eq/=.
Qed.

Lemma retained_refusable w o result : processing w o → refusable w (retained o result).
Proof. intros Ho. by exists o, (Some result). Qed.

#[export] Hint Resolve processing_refusable withIssuance_refusable retained_refusable : acme.

Section Issuance.
Context `{Platform} (s : Server).
Context (sha256_size : ∀ b, length (sha256_Sum256 b) = 32%nat).

Lemma free_handleIssuanceCommit base task err : free (handleIssuanceCommit s base task err).
Proof. unfold handleIssuanceCommit, Now. solve_free. Qed.
#[local] Hint Resolve free_handleIssuanceCommit : free.

Lemma WP_completeIssuance base task o cert w :
  (∀ w', w `suffix_of` w' → guar_store (CallCompleteIssuance task o cert) w') →
  WP (completeIssuance s base task o cert) (λ _ _, True) w.
Proof.
  intros Hg. unfold completeIssuance. apply WP_bind, WP_free; [solve_free|]. intros ctx w1 Hle1 _.
  apply WP_bind, WP_call; [intros _; by apply Hg|]. intros. by apply WP_mret.
Qed.

Lemma WP_failOrder base task o p w : refusable w o → WP (failOrder s base task o p) (λ _ _, True) w.
Proof.
  intros Ho. unfold failOrder. apply WP_bind. eapply WP_conseq.
  - apply WP_completeIssuance. intros w1 Hle1.
    destruct (refusable_mono _ _ _ Hle1 Ho) as (o0 & result & [Hseen Hst] & Hid & Heq).
    exists o0. rewrite Heq. simpl. eauto.
  - intros. apply WP_done. solve_free.
Qed.

Lemma WP_issuanceOrder base task w :
  WP (issuanceOrder s base task) (λ r w', ∀ o, r = Some o → processing w' o) w.
Proof.
  unfold issuanceOrder. apply WP_bind, WP_free; [solve_free|]. intros ctx w1 _ _.
  apply WP_bind, WP_order. intros r w2 _ Hw2 Hr.
  destruct r as [o|]; [|apply WP_end; [apply WP_done; solve_free|done]].
  destruct (Hr _ eq_refl) as [Hid Ho%read_seen]. rewrite <-Hid in Ho.
  case_match; [apply WP_end; [apply WP_done; solve_free|done]|].
  go_bool. apply WP_mret. by intros ? [= <-].
Qed.

(** ** The dispatch decision *)

Lemma WP_evidenceLoop ctx z v ids w :
  evidence_of z v →
  WP (evidenceLoop ctx v ids) (λ r _, ∀ v', r = Ok v' → evidence_of z v') w.
Proof.
  intros Hv. revert w. induction ids as [|id ids IH]; intros w; cbn [evidenceLoop];
    [by apply WP_mret|].
  apply WP_bind, WP_challenge. intros r w1 _ _ _. destruct r; [|by apply WP_mret].
  case_match; [|apply IH]. apply WP_mret. by intros ? [= <-].
Qed.

Lemma WP_validationEvidence ctx z w :
  WP (validationEvidence s ctx z) (λ r _, ∀ v, r = Ok v → evidence_of z v) w.
Proof.
  unfold validationEvidence. destruct (az_PreApproved z) eqn:Hp.
  - apply WP_mret. by intros ? [= <-].
  - by apply WP_evidenceLoop.
Qed.

(** The evidence collected so far. *)
Definition collected (w : World) (zs : list Authorization) (st : IssuanceState) : Prop :=
  Forall2 (λ z v, seen as_authzs w (az_ID z) z ∧ backs st z v) zs (is_Validations st).

Lemma collected_mono w w' zs st : w `suffix_of` w' → collected w zs st → collected w' zs st.
Proof.
  intros Hle Hall. eapply Forall2_impl; [done|]. intros z v [? ?]. split; eauto with acme.
Qed.
#[local] Hint Resolve collected_mono : acme.

Lemma narrowDeadline_le z t :
  (narrowDeadline z t ≤ t)%Z ∧ (narrowDeadline z t ≤ az_Expires z)%Z ∧
  (az_GrantExpires z ≠ zeroTime → narrowDeadline z t ≤ az_GrantExpires z)%Z.
Proof.
  unfold narrowDeadline. cbv zeta. destruct (Before (az_Expires z) t) eqn:H1;
    (case_match eqn:H2; [apply andb_true_iff in H2 as [? ?]|apply andb_false_iff in H2 as [?|?]]); go_bool;
    unfold zeroTime; lia.
Qed.

Lemma backs_narrow st z v validations t :
  (t ≤ is_Deadline st)%Z → backs st z v →
  backs {| st with is_Validations := validations; is_Deadline := t |} z v.
Proof. intros Hle (? & ? & Hgrant). split_and!; [done|simpl; lia|]. simpl. intros Hne. specialize (Hgrant Hne). lia. Qed.

Lemma WP_authorizationLoop ctx ids now zs st w :
  collected w zs st → is_AuthorizedAt st = now →
  WP (authorizationLoop s ctx ids now zs st)
    (λ r w', ∀ zs' st', r = Ok (Ok (zs', st')) →
       collected w' zs' st' ∧ (is_Deadline st' ≤ is_Deadline st)%Z ∧ is_AuthorizedAt st' = now) w.
Proof.
  revert zs st w. induction ids as [|id ids IH]; intros zs st w Hcol Hnow; cbn [authorizationLoop].
  { apply WP_mret. by intros ? ? [= <- <-]. }
  apply WP_bind, WP_authz. intros r w1 Hle1 Hw1 Hr. destruct r as [z|]; [|by apply WP_mret].
  destruct (Hr _ eq_refl) as [Hid Hz%read_seen]. rewrite <-Hid in Hz.
  case_match; [by apply WP_mret|]. case_match eqn:Hgrant; [by apply WP_mret|].
  apply WP_bind. eapply WP_conseq; [apply WP_validationEvidence|]. intros r w2 Hle2 Hw2 Hv.
  destruct r as [v|]; [|by apply WP_mret]. destruct (narrowDeadline_le z (is_Deadline st)) as (Hd1 & Hd2 & Hd3).
  eapply WP_conseq; [apply IH; [|done]|].
  - unfold collected. simpl. apply Forall2_app.
    + eapply Forall2_impl; [apply (collected_mono w); [by etrans|exact Hcol]|]. intros z1 v1 [Hseen Hb]. split; [done|].
      by apply backs_narrow.
    + constructor; [|done]. split; [eauto with acme|]. split_and!; [by apply Hv|done|]. intros Hne. simpl.
      split; [|by apply Hd3]. rewrite Hnow. apply andb_false_iff in Hgrant as [Hg|Hg]; go_bool; done.
  - intros r w3 _ _ Hr3 zs' st' Heq. destruct (Hr3 _ _ Heq) as (? & Hle & ?). split_and!; [done| |done]. simpl in Hle. lia.
Qed.

(** What a dispatch is decided on. *)
Definition proposed (w : World) (zs : list Authorization) (b : Account) (o : Order) : Prop :=
  ∃ o0 st, processing w o0 ∧ ord_Issuance o0 = None ∧ o = withIssuance o0 (Some st) ∧
    acct_ID b = ord_AccountID o0 ∧ collected w zs st ∧ (is_Deadline st ≤ ord_Expires o0)%Z ∧
    clocked w (is_AuthorizedAt st) (since o0).

Lemma proposed_mono w w' zs b o : w `suffix_of` w' → proposed w zs b o → proposed w' zs b o.
Proof.
  intros Hle (o0 & st & ? & ? & ? & ? & ? & ? & ?). exists o0, st. split_and!; eauto with acme.
Qed.
#[local] Hint Resolve proposed_mono : acme.

Lemma WP_dispatchSnapshot base task o w :
  processing w o → ord_Issuance o = None →
  WP (dispatchSnapshot s base task o)
    (λ r w', ∀ zs b o', r = Some (zs, b, o') → proposed w' zs b o') w.
Proof.
  intros Ho Hnone. unfold dispatchSnapshot. apply WP_bind, WP_free; [solve_free|]. intros ctx w1 Hle1 _.
  apply WP_bind, WP_call; [done|]. intros w2' now w2 Hle2' Hw2' Hnow Hle2 Hw2.
  assert (processing w2' o) as [Hseen Hst] by eauto with acme.
  assert (clocked w2 now (since o)) as Hclock by (exists w2'; rewrite Hnow; split; [done|by apply (since_later w2' w2')]).
  assert (processing w2 o) as Ho2 by (split; eauto with acme).
  case_match; [apply WP_end; [apply WP_failOrder; eauto with acme|done]|].
  apply WP_bind, WP_account. intros r w3 Hle3 Hw3 Hr.
  destruct r as [b|]; [|apply WP_end; [apply WP_done; solve_free|done]].
  destruct (Hr _ eq_refl) as [Hb _].
  case_match; [apply WP_end; [apply WP_failOrder; eauto with acme|done]|].
  apply WP_bind. eapply WP_conseq; [by apply WP_authorizationLoop; [apply Forall2_nil|]|].
  intros r w4 Hle4 Hw4 Hcol. destruct r as [[[zs st]|]|].
  - apply WP_mret. intros ? ? ? [= <- <- <-]. destruct (Hcol _ _ eq_refl) as (? & Hdead & Hnow').
    rewrite <- Hnow' in Hclock. exists o, st. split_and!; eauto with acme.
  - apply WP_end; [apply WP_failOrder; eauto with acme|done].
  - apply WP_end; [apply WP_done; solve_free|done].
Qed.

Lemma proposed_refusable w zs b o : proposed w zs b o → refusable w (withIssuance o None).
Proof. intros (o0 & st & Ho & Hnone & -> & _). eauto with acme. Qed.

Lemma free_issueRequest o : free (issueRequest s o).
Proof. unfold issueRequest, Now. solve_free. Qed.
#[local] Hint Resolve free_issueRequest : free.

Lemma WP_checkIssuancePolicy base task zs b o w :
  proposed w zs b o → WP (checkIssuancePolicy s base task o) (λ _ _, True) w.
Proof.
  intros Ho. unfold checkIssuancePolicy. apply WP_bind, WP_free; [solve_free|]. intros r w1 Hle1 _.
  apply WP_bind, WP_free; [unfold authorizeIssuance; solve_free|]. intros err w2 Hle2 _.
  destruct err as [err|]; [|by apply WP_mret].
  assert (refusable w2 (withIssuance o None)) as Href by (eapply proposed_refusable; eauto with acme).
  apply WP_end; [|done]. case_match; [by apply WP_failOrder|]. case_match; [|by apply WP_failOrder].
  apply WP_done. unfold Now. solve_free.
Qed.

Lemma beginIssuance_stored task o b zs a o' :
  (spec_beginIssuance task o b zs a).1 = Ok o' →
  o' = bump_order o ∧ (spec_beginIssuance task o b zs a).2 = put_order (bump_order o) a.
Proof.
  unfold spec_beginIssuance. match goal with |- (guarded ?e ?x ?a' ?a).1 = _ → _ =>
    destruct (guarded_cases e x a' a) as [[err ->]|[_ ->]] end; [done|]. by intros [= <-].
Qed.

Lemma WP_storeDispatch base task o b zs w :
  proposed w zs b o →
  WP (storeDispatch s base task o b zs)
    (λ r w', ∀ o', r = Some o' → processing w' o' ∧ is_Some (ord_Issuance o')) w.
Proof.
  intros Ho. unfold storeDispatch. apply WP_bind, WP_free; [solve_free|]. intros ctx w1 Hle1 _.
  destruct (proposed_mono _ _ _ _ _ Hle1 Ho) as (o0 & st & [Hseen Hst] & Hnone & -> & Hb & Hcol & Hdead & Hclock).
  apply WP_bind, WP_call; [intros _; exists o0, st; by split_and!|].
  intros w2 r w3 _ _ Hstep _ Hw3. destruct r as [o'|].
  - apply WP_mret. intros ? [= <-]. destruct Hstep as [(_ & Hx & ->)|(? & _ & ? & _)]; [|done].
    symmetry in Hx. apply beginIssuance_stored in Hx as [-> Hstored]. split; [|done]. split; [|done].
    apply past_now. simpl. rewrite Hstored. simpl. by rewrite lookup_insert_eq.
  - apply WP_bind, WP_free; [unfold Now; solve_free|]. intros now w4 _ _.
    apply WP_end; [apply WP_done; solve_free|done].
Qed.

Lemma WP_beginIssuance base task o w :
  processing w o → ord_Issuance o = None →
  WP (beginIssuance s base task o)
    (λ r w', ∀ o', r = Some o' → processing w' o' ∧ is_Some (ord_Issuance o')) w.
Proof.
  intros Ho Hnone. unfold beginIssuance. apply WP_bind.
  eapply WP_conseq; [by apply WP_dispatchSnapshot|]. intros r w1 Hle1 Hw1 Hr.
  destruct r as [[[zs b] o']|]; [|by apply WP_mret]. specialize (Hr _ _ _ eq_refl).
  apply WP_bind. eapply WP_conseq; [by eapply WP_checkIssuancePolicy|]. intros ok w2 Hle2 Hw2 _.
  case_match; [by apply WP_mret|].
  apply WP_bind, WP_now. intros now w3 Hle3 _.
  assert (proposed w3 zs b o') as Hp by eauto with acme.
  case_match; [|by apply WP_storeDispatch].
  apply WP_end; [apply WP_failOrder; by eapply proposed_refusable|done].
Qed.

(** ** The CA call *)

Lemma WP_issueRequest o w :
  processing w o →
  WP (issueRequest s o)
    (λ r w', ∀ req, r = Ok req → call_ok w' (EvIssue req) ∧
       x509_ParseCertificateRequest (ord_CSR o) = Ok (iq_CSR req)) w.
Proof.
  intros Ho. unfold issueRequest. case_match eqn:Hcsr; [|by apply WP_mret].
  case_match eqn:Hst; [|by apply WP_mret]. apply WP_bind, WP_now. intros now w1 Hle1 _. apply WP_mret. intros req [= <-].
  split; [|done]. destruct (processing_mono _ _ _ Hle1 Ho) as [Hseen Hproc].
  exists o, i. by split_and!.
Qed.

Lemma certificateID_named der : certificateID der ≠ "".
Proof.
  unfold certificateID. intros Henc. pose proof (sha256_size der) as Hlen.
  destruct (sha256_Sum256 der) as [|? [|? [|? ?]]]; simpl in Hlen; [lia..|]. done.
Qed.

Lemma WP_recordIssuedResult base task o csr result now err w :
  processing w o → is_Some (ord_Issuance o) → x509_ParseCertificateRequest (ord_CSR o) = Ok csr →
  WP (recordIssuedResult s base task o csr result now err) (λ _ _, True) w.
Proof.
  intros Ho [st Hst] Hcsr. unfold recordIssuedResult.
  destruct (checkChain (ir_Chain result) csr o now) as [leaf|] eqn:Hchain;
    [|apply WP_failOrder; eauto with acme].
  destruct (ir_Chain result) as [|der rest] eqn:Hder; [apply WP_failOrder; eauto with acme|].
  case_match; [apply WP_failOrder; eauto with acme|]. rewrite Hst. cbn [fmap option_fmap option_map default].
  apply WP_bind. eapply WP_conseq.
  - apply WP_completeIssuance. intros w1 Hle1. destruct (processing_mono _ _ _ Hle1 Ho) as [Hseen Hproc].
    exists o. split_and!; [done..|]. exists st. split; [done|]. split; [|by rewrite Hst].
    split_and!; [apply certificateID_named|done|]. exists csr, now, leaf, der. simpl. by rewrite Hder.
  - intros err' w1 Hle1 Hw1 _. case_match; [|apply WP_done; solve_free]. apply WP_failOrder.
    destruct (processing_mono _ _ _ Hle1 Ho) as [Hseen Hproc].
    exists o, (Some result). split_and!; [done..|]. intros p.
    destruct Hseen as (w0 & Hle0 & Hseen).
    destruct (inv_orders _ _ (hist_inv w0 (hist_ok_suffix _ _ Hle0 Hw1)) _ _ Hseen) as [_ Hok].
    pose proof (ok_uncertified _ _ _ Hok) as Huc. rewrite Hproc in Huc. specialize (Huc ltac:(done)).
    destruct o. by simplify_eq/=.
Qed.

Lemma WP_dispatched base task o w :
  processing w o → is_Some (ord_Issuance o) → WP (dispatched s base task o) (λ _ _, True) w.
Proof.
  intros Ho Hst. unfold dispatched. apply WP_bind. eapply WP_conseq; [by apply WP_issueRequest|].
  intros r w1 Hle1 Hw1 Hr. destruct r as [req|]; [|apply WP_done; unfold Now; solve_free].
  destruct (Hr _ eq_refl) as [Hcall Hcsr]. apply WP_bind. unfold issue.
  apply WP_bind, WP_free; [solve_free|]. intros ctx w2 Hle2 _.
  apply WP_call; [intros _; by eapply (call_ok_mono w1 w2 (EvIssue req))|].
  intros w3 [result err] w4 Hle3 _ _ Hle4 _. apply WP_bind, WP_now. intros now w5 Hle5 _.
  assert (processing w5 o) as Ho5.
  { eapply processing_mono; [|done]. do 5 (etrans; [eassumption|]). done. }
  case_match; [by apply WP_recordIssuedResult|].
  repeat case_match; first [by apply WP_failOrder; eauto with acme|apply WP_done; solve_free].
Qed.

Lemma WP_runIssuance base task w : WP (runIssuance s base task) (λ _ _, True) w.
Proof.
  unfold runIssuance. apply WP_bind. eapply WP_conseq; [apply WP_issuanceOrder|].
  intros r w1 _ _ Hr. destruct r as [o|]; [|by apply WP_mret]. specialize (Hr _ eq_refl).
  destruct (ord_Issuance o) eqn:Hst; [by apply WP_dispatched|].
  apply WP_bind. eapply WP_conseq; [by apply WP_beginIssuance|]. intros r w2 _ _ Hr2.
  destruct r as [o'|]; [|by apply WP_mret]. destruct (Hr2 _ eq_refl). by apply WP_dispatched.
Qed.

(** A turn of a worker is safe. *)
Lemma WP_work ctx w : WP (work s ctx) (λ _ _, True) w.
Proof.
  unfold work. apply WP_bind, WP_free; [unfold claim, Now, store; solve_free|]. intros r w1 _ _.
  destruct r as [[task leaseEnd]|]; [|by apply WP_mret]. unfold process.
  case_match; [apply WP_runValidation|apply WP_runIssuance|apply WP_done; solve_free].
Qed.

End Issuance.
