(* ===== verification/SystemRequests.v ===== *)
(** * Signed requests and account handlers are safe

    What an authenticated request establishes (src/request.go), and that the handlers of
    src/account.go make only calls they may make. *)

From S2P Require Import Prelude Status Problem Resource Base64 Netip StoreSpec Prog Host Platform Identifier Jws Chain Worker Wire Http Accounts Orders Revoke Lifecycle System SystemSteps SystemRules.

(** The account of a request: read from the store, valid and named. *)
Definition known_account (w : World) (b : Account) : Prop :=
  seen as_accounts w (acct_ID b) b ∧ acct_Status b = AccountValid ∧ acct_ID b ≠ "" ∧
  acct_KeyThumbprint b ≠ "".

Lemma known_account_mono w w' b : w `suffix_of` w' → known_account w b → known_account w' b.
Proof. intros Hle (? & ? & ? & ?). split_and!; eauto with acme. Qed.
#[export] Hint Resolve known_account_mono : acme.

(** An identifier that was drawn at random. *)
Definition drawn (w : World) (id : string) : Prop :=
  ∃ b, id = encode b ∧ length b = 16%nat ∧ Called (EvRandom b) ∈ w.

Lemma drawn_mono w w' id : w `suffix_of` w' → drawn w id → drawn w' id.
Proof. intros Hle (b & ? & ? & ?). exists b. split_and!; [done..|]. by eapply elem_of_suffix. Qed.
#[export] Hint Resolve drawn_mono : acme.

Lemma encode_named b : b ≠ [] → encode b ≠ "".
Proof. destruct b as [|? [|? [|? ?]]]; by intros. Qed.

Lemma drawn_named w id : drawn w id → id ≠ "".
Proof. intros (b & -> & Hlen & _). apply encode_named. by destruct b. Qed.

Section Requests.
Context `{Platform} `{StrictJSON} `{PayloadJSON} (s : Server).
Context (sha256_size : ∀ b, length (sha256_Sum256 b) = 32%nat).

Lemma thumbprint_named key thumbprint : Thumbprint key = Ok thumbprint → thumbprint ≠ "".
Proof.
  unfold Thumbprint. destruct (MarshalJWK key) as [c|]; simpl; [|done]. intros [= <-].
  apply encode_named. intros Hnil. pose proof (sha256_size (string_bytes c)) as Hlen.
  by rewrite Hnil in Hlen.
Qed.

(** ** Fresh identifiers *)

Lemma WP_newID (Q : Res string → World → Prop) w :
  (∀ r w', w `suffix_of` w' → hist_ok w' → (∀ id, r = Ok id → drawn w' id ∧ ¬ drawn w id) → Q r w') →
  WP newID Q w.
Proof.
  intros HQ. unfold newID. apply WP_bind, WP_call; [done|]. intros w0 x w' Hle _ Hstep Hle' Hw'.
  apply WP_mret, HQ; [by etrans|done|]. destruct x as [b|]; [|done]. intros ? [= <-].
  destruct Hstep as (Hlen & Hfresh & ->). split.
  - exists b. split_and!; [done..|left].
  - intros (b' & Heq%encode_inj & _ & Hin). subst b'. apply Hfresh. by eapply elem_of_suffix.
Qed.

(** ** Writers and limits need no guarantee *)

Lemma free_checkLimit ctx req : free (checkLimit s ctx req).
Proof. unfold checkLimit. solve_free. Qed.
#[local] Hint Resolve free_checkLimit : free.

Lemma free_addNonce ctx h : free (addNonce ctx h).
Proof. unfold addNonce. solve_free. Qed.
#[local] Hint Resolve free_addNonce : free.

Lemma free_writeProblem r spent h p : free (writeProblem s r spent h p).
Proof. unfold writeProblem, writeProblemWithoutNonce. solve_free. Qed.
#[local] Hint Resolve free_writeProblem : free.

Lemma free_writeJSON ctx h status v : free (writeJSON s ctx h status v).
Proof. unfold writeJSON. solve_free. Qed.
#[local] Hint Resolve free_writeJSON : free.

(** ** Authentication *)

Lemma WP_storeOr {X} ctx (c : storeCall X) f (Q : result Problem X → World → Prop) w :
  WP (store ctx c) (λ r, match r with Ok x => Q (Ok x) | Err err => Q (Err (f err)) end) w →
  WP (storeOr ctx c f) Q w.
Proof. intros Hp. apply WP_bind. eapply WP_conseq; [done|]. intros [] w' _ _; apply WP_mret. Qed.

Lemma accountIDFromURL_named u id : accountIDFromURL s u = Some id → id ≠ "".
Proof.
  unfold accountIDFromURL. case_match; [|done]. case_match eqn:Hv; [|done]. intros [= <-] Hnil.
  by rewrite Hnil in Hv.
Qed.

Lemma WP_lookupAccount r kid w :
  WP (lookupAccount s r kid) (λ x w', ∀ b, x = Ok b → known_account w' b) w.
Proof.
  unfold lookupAccount. case_match eqn:Hid; [|by apply WP_mret]. apply accountIDFromURL_named in Hid.
  apply WP_andThen, WP_storeOr, WP_account. intros x w' Hle Hw' Hx. destruct x as [b|]; [|done].
  destruct (Hx _ eq_refl) as [Hb Hread%read_seen]. apply WP_mret. intros b'. case_match eqn:Hst; [done|].
  intros [= <-]. go_bool. rewrite <-Hb in Hread. split_and!; [done..|by rewrite Hb|].
  destruct Hread as (w0 & Hle0 & Hread).
  by apply (inv_accounts _ _ (hist_inv w0 (hist_ok_suffix _ _ Hle0 Hw')) _ _ Hread).
Qed.

Lemma WP_requestKey r mode msg w :
  WP (requestKey s r mode msg)
    (λ x w', ∀ req b, x = Ok req → sr_Account req = Some b → known_account w' b) w.
Proof.
  unfold requestKey. case_match.
  { apply WP_mret. intros req b. case_match; [done|]. by intros [= <-]. }
  case_match; [by apply WP_mret|]. apply WP_andThen. eapply WP_conseq; [apply WP_lookupAccount|].
  intros x w' _ _ Hx. destruct x as [b|]; [|done]. apply WP_mret. intros req b' [= <-] [= <-]. by apply Hx.
Qed.

Lemma WP_readSignedRequest r rel mode w :
  WP (readSignedRequest s r rel mode)
    (λ x w', ∀ req b, x.2 = Ok req → sr_Account req = Some b → known_account w' b) w.
Proof.
  unfold readSignedRequest. repeat (case_match; try by apply WP_mret).
  apply WP_bind, WP_call; [done|]. intros w0 v w1 _ _ _ _ _.
  destruct v as [[]|]; [|by apply WP_mret..]. apply WP_bind. unfold authenticate.
  case_match; [by do 2 apply WP_mret|]. apply WP_andThen. eapply WP_conseq; [apply WP_requestKey|].
  intros x w2 _ _ Hx. destruct x as [req|]; [|by apply WP_mret]. do 2 apply WP_mret.
  intros req' b. simpl. case_match; [done|]. intros [= <-]. by apply Hx.
Qed.

Lemma WP_readAccountRequest r rel w :
  WP (readAccountRequest s r rel) (λ x w', ∀ b body, x.2 = Ok (b, body) → known_account w' b) w.
Proof.
  unfold readAccountRequest. apply WP_bind. eapply WP_conseq; [apply WP_readSignedRequest|].
  intros [spent [req|]] w' _ _ Hx; apply WP_mret; [|done]. simpl. intros b body.
  case_match; [|done]. intros [= <- _]. by eapply Hx.
Qed.

Lemma WP_readOwnedAccount r id rel w :
  WP (readOwnedAccount s r id rel) (λ x w', ∀ b body, x.2 = Ok (b, body) → known_account w' b) w.
Proof.
  unfold readOwnedAccount. apply WP_bind. eapply WP_conseq; [apply WP_readAccountRequest|].
  intros [spent [[b body]|]] w' _ _ Hx; apply WP_mret; [|done]. simpl. intros b' body'.
  case_match; [done|]. intros [= <- _]. by eapply Hx.
Qed.

(** ** Account handlers *)

Lemma free_writeExistingAccount r h b : free (writeExistingAccount s r h b).
Proof. unfold writeExistingAccount. solve_free. Qed.
#[local] Hint Resolve free_writeExistingAccount : free.

Lemma free_externalAccount ctx thumbprint payload : free (externalAccount s ctx thumbprint payload).
Proof. unfold externalAccount, verifyExternalAccountBinding. solve_free. Qed.
#[local] Hint Resolve free_externalAccount : free.

Lemma WP_buildAccount ctx key thumbprint payload client w :
  WP (buildAccount s ctx key thumbprint payload client)
    (λ x _, ∀ b, x = Ok b → acct_ID b ≠ "" ∧ acct_KeyThumbprint b ≠ "") w.
Proof.
  unfold buildAccount. case_match; [by apply WP_mret|]. case_match; [by apply WP_mret|].
  apply WP_andThen, WP_free; [solve_free|]. intros [externalID|] w1 _ _; [|done].
  apply WP_bind, WP_newID. intros x w2 _ _ Hx. destruct x as [id|]; [|by apply WP_mret].
  apply WP_bind, WP_free; [unfold Now; solve_free|]. intros now w3 _ _.
  apply WP_bind, WP_free; [solve_free|]. intros refusal w4 _ _.
  apply WP_andThen, WP_ret. destruct (refused _); [|done].
  apply WP_bind, WP_call; [done|]. intros w5 [[err|] b] w6 _ _ [_ Hb] _ _; apply WP_andThen, WP_ret; [done|].
  apply WP_mret. intros ? [= <-]. by apply Hb.
Qed.

Lemma WP_createAccount r h thumbprint b w :
  acct_ID b ≠ "" → acct_KeyThumbprint b ≠ "" → WP (createAccount s r h thumbprint b) (λ _ _, True) w.
Proof.
  intros. unfold createAccount. apply WP_bind, WP_call; [done|]. intros. apply WP_done.
  unfold store. solve_free.
Qed.

Lemma WP_serveNewAccount r w : WP (serveNewAccount s r) (λ _ _, True) w.
Proof.
  unfold serveNewAccount. cbv zeta. apply WP_bind. eapply WP_conseq; [apply WP_readSignedRequest|].
  intros [spent req] w1 _ _ _. apply WP_orElse, WP_ret. destruct req as [req|]; [|apply WP_done; solve_free].
  apply WP_orElse, WP_ret. case_match; [|apply WP_done; solve_free].
  case_match eqn:Hth; [|apply WP_done; solve_free]. apply thumbprint_named in Hth.
  apply WP_bind, WP_free; [unfold store; solve_free|]. intros res w2 _ _.
  destruct res as [b|err]; [apply WP_done; solve_free|].
  case_match; [apply WP_done; solve_free|]. case_match; [apply WP_done; solve_free|].
  apply WP_orElse. eapply WP_conseq; [apply WP_buildAccount|]. intros [b|] w3 _ _ Hb;
    [|apply WP_done; solve_free]. destruct (Hb _ eq_refl). by apply WP_createAccount.
Qed.

Lemma updatedAccount_next b payload :
  acct_Status b = AccountValid → account_next b (updatedAccount b payload).
Proof.
  intros Hst. unfold updatedAccount.
  replace (match au_Status payload with Some _ => _ | None => _ end) with
    {| b with acct_Contact := default (acct_Contact b) (au_Contact payload);
              acct_Status := if au_Status payload then AccountDeactivated else AccountValid |}.
  { constructor; [done|]. destruct (au_Status payload); auto. }
  destruct b, (au_Contact payload), (au_Status payload); by simplify_eq/=.
Qed.

Lemma WP_updateAccount ctx b b' w :
  known_account w b → acct_ID b' = acct_ID b → acct_KeyThumbprint b' ≠ "" → account_next b b' →
  WP (updateAccount ctx b') (λ _ _, True) w.
Proof.
  intros (Hseen & _) Hid Hth Hnext. unfold updateAccount, storeOr. apply WP_bind, WP_call.
  { intros _. split; [done|]. exists b. by rewrite Hid. }
  intros. by apply WP_mret.
Qed.

Lemma checkKeyChange_named b body key thumbprint :
  checkKeyChange s b body = Ok (key, thumbprint) → thumbprint ≠ "".
Proof.
  unfold checkKeyChange, decodePayload. intros Hcheck.
  repeat (case_match; simplify_eq/=; try done); by eapply thumbprint_named.
Qed.

Lemma WP_serveKeyChange r w : WP (serveKeyChange s r) (λ _ _, True) w.
Proof.
  unfold serveKeyChange. cbv zeta. apply WP_bind. eapply WP_conseq; [apply WP_readAccountRequest|].
  intros [spent req] w1 _ _ Hreq. apply WP_orElse, WP_ret.
  destruct req as [[b body]|]; [|apply WP_done; solve_free]. specialize (Hreq _ _ eq_refl).
  apply WP_orElse, WP_ret. destruct (checkKeyChange s b body) as [[key thumbprint]|] eqn:Hcheck;
    [|apply WP_done; solve_free].
  apply WP_bind. eapply WP_conseq.
  - eapply WP_updateAccount; [done|done|by eapply checkKeyChange_named|].
    constructor. by destruct Hreq as (_ & ? & _).
  - intros. apply WP_done. unfold store. solve_free.
Qed.

Lemma WP_serveAccount r id w : WP (serveAccount s r id) (λ _ _, True) w.
Proof.
  unfold serveAccount. cbv zeta. apply WP_bind. eapply WP_conseq; [apply WP_readOwnedAccount|].
  intros [spent req] w1 _ _ Hreq. apply WP_orElse, WP_ret.
  destruct req as [[b body]|]; [|apply WP_done; solve_free]. specialize (Hreq _ _ eq_refl).
  case_match; [apply WP_done; solve_free|].
  apply WP_orElse, WP_ret. case_match; [|apply WP_done; solve_free].
  case_match; [apply WP_done; solve_free|].
  apply WP_orElse, WP_ret. case_match; [|apply WP_done; solve_free].
  apply WP_orElse. eapply WP_conseq.
  - destruct Hreq as (Hseen & Hst & Hid & Hth).
    eapply (WP_updateAccount _ b); [by split_and!| | |by apply updatedAccount_next];
      unfold updatedAccount; by repeat case_match.
  - intros [] w2 _ _ _; apply WP_done; solve_free.
Qed.

Lemma free_orderURLs ctx ids now urls : free (orderURLs s ctx ids now urls).
Proof.
  revert urls. induction ids as [|id ids IH]; intros urls; cbn [orderURLs]; [solve_free|].
  apply free_andThen; [unfold storeOr, store; solve_free|]. intros. apply IH.
Qed.
#[local] Hint Resolve free_orderURLs : free.

Lemma free_readSignedRequest r rel mode : free (readSignedRequest s r rel mode).
Proof.
  unfold readSignedRequest, authenticate, requestKey, lookupAccount, storeOr, store. solve_free.
Qed.
#[local] Hint Resolve free_readSignedRequest : free.

Lemma free_serveAccountOrders r id : free (serveAccountOrders s r id).
Proof.
  unfold serveAccountOrders, readOwnedAccount, readAccountRequest, storeOr, store, Now. cbv zeta.
  solve_free. by apply free_call.
Qed.

End Requests.

#[export] Hint Resolve free_checkLimit free_addNonce free_writeProblem free_writeJSON
  free_readSignedRequest : free.
