(* ===== verification/SystemOrders.v ===== *)
(** * Order, authorization and challenge handlers are safe

    The handlers of src/order.go and src/finalize.go make only calls they may make: a new order
    comes with one authorization for each identifier and fresh identifiers, and an order is
    finalized only when each authorization was seen valid since it was read. *)

From S2P Require Import Prelude Status Problem Resource Base64 Netip StoreSpec Prog Host Platform Identifier Jws Chain Worker Wire Http Accounts Orders Revoke Lifecycle System SystemSteps SystemRules SystemWorker SystemRequests.

(** ** Identifiers *)

Lemma substring_whole n s : (String.length s ≤ n)%nat → String.substring 0 n s = s.
Proof.
  revert n. induction s as [|c s IH]; intros n Hn; [by destruct n|].
  destruct n; simpl in *; [lia|]. rewrite IH by lia. done.
Qed.

Lemma substring_split n s :
  String.substring 0 n s +:+ String.substring n (String.length s - n) s = s.
Proof.
  revert n. induction s as [|c s IH]; intros [|n]; try done; simpl.
  - by rewrite substring_whole.
  - change (String c (String.substring 0 n s +:+ String.substring n (String.length s - n) s) = String c s).
    by rewrite IH.
Qed.

Lemma TrimPrefix_app p v : HasPrefix p v = true → p +:+ TrimPrefix p v = v.
Proof.
  intros Hp. unfold TrimPrefix, tail_from. rewrite Hp. unfold HasPrefix in Hp.
  apply String.prefix_correct in Hp. rewrite <-Hp at 1. apply substring_split.
Qed.

Lemma orderIdentifier_new order id zid : orderIdentifier (newAuthorization order id zid) = id.
Proof.
  unfold orderIdentifier, newAuthorization. simpl. destruct (IsWildcard id) eqn:Hw; [|done].
  unfold IsWildcard in Hw. go_bool. destruct id as [typ v]. simpl in *. by rewrite TrimPrefix_app.
Qed.

Section Orders.
Context `{Platform} `{StrictJSON} `{PayloadJSON} (s : Server).

Lemma normalizeLoop_distinct ids seen out ids' :
  (∀ id, id ∈ out → id ∈ seen) → NoDup out → normalizeLoop ids seen out = Ok ids' → NoDup ids'.
Proof.
  revert seen out. induction ids as [|id ids IH]; intros seen out Hseen Hnd; simpl; [by intros [= <-]|].
  destruct (Normalize id) as [n|]; [|done]. case_bool_decide as Hin; [done|]. apply IH.
  - intros id'. rewrite elem_of_app, list_elem_of_singleton. set_solver.
  - apply NoDup_app. split_and!; [done| |apply NoDup_singleton].
    intros x Hx Heq. apply list_elem_of_singleton in Heq as ->. auto.
Qed.

Lemma NormalizeIdentifiers_distinct ids ids' : NormalizeIdentifiers ids = Ok ids' → NoDup ids'.
Proof. apply normalizeLoop_distinct; [set_solver|constructor]. Qed.

Lemma orderIdentifiers_distinct ids ids' : orderIdentifiers s ids = Ok ids' → NoDup ids'.
Proof.
  unfold orderIdentifiers. do 2 (case_match; [done|]). destruct (refused _); [|done]. simpl.
  destruct (NormalizeIdentifiers ids) eqn:Hn; [|done]. apply NormalizeIdentifiers_distinct in Hn.
  repeat (case_match; try done). by intros [= <-].
Qed.

(** ** New orders *)

(** The order of a newOrder request before its authorizations are known. *)
Definition unauthorized_order (b : Account) (o : Order) : Prop :=
  ord_ID o ≠ "" ∧ ord_AccountID o = acct_ID b ∧ ord_Status o = OrderPending ∧
  NoDup (ord_Identifiers o) ∧ ord_Issuance o = None ∧ ord_CertificateID o = "".

Lemma WP_buildOrder ctx b payload now client w :
  WP (buildOrder s ctx b payload now client) (λ x _, ∀ o, x = Ok o → unauthorized_order b o) w.
Proof.
  unfold buildOrder. apply WP_andThen, WP_ret.
  destruct (orderIdentifiers s _) as [identifiers|] eqn:Hids; [|done].
  apply orderIdentifiers_distinct in Hids.
  apply WP_andThen, WP_ret. destruct (orderPeriod payload) as [period|]; [|done].
  apply WP_andThen, WP_free; [unfold selectProfile; solve_free|]. intros [profile|] w1 _ _; [|done].
  apply WP_andThen, WP_free; [unfold checkReplaces, storeOr, store; solve_free|].
  intros [replaces|] w2 _ _; [|done].
  apply WP_bind, WP_newID. intros x w3 _ _ Hx. destruct x as [id|]; [|by apply WP_mret].
  destruct (Hx _ eq_refl) as [Hid%drawn_named _].
  apply WP_bind, WP_free; [solve_free|]. intros refusal w4 _ _.
  apply WP_andThen, WP_ret. destruct (refused refusal); [|done]. unfold reviewOrder.
  apply WP_bind, WP_call; [done|]. intros w5 [err reviewed] w6 _ _ _ _ _. apply WP_mret.
  intros o. destruct err; [done|]. case_match; [done|]. case_match; [done|]. by intros [= <-].
Qed.

(** What the policy approved of an order. *)
Definition pre_approved (w : World) (o : Order) (granted : gset Identifier) : Prop :=
  ∀ id, id ∈ granted → id ∈ ord_Identifiers o ∧
    ∃ order ids id0, Called (EvPreApproved order ids) ∈ w ∧ ord_ID order = ord_ID o ∧ id0 ∈ ids ∧
      Normalize id0 = Ok id.

Lemma pre_approved_mono w w' o granted :
  w `suffix_of` w' → pre_approved w o granted → pre_approved w' o granted.
Proof.
  intros Hle Hp id Hid. destruct (Hp _ Hid) as (? & order & ids & id0 & ? & ?). split; [done|].
  exists order, ids, id0. split; [by eapply elem_of_suffix|done].
Qed.
#[local] Hint Resolve pre_approved_mono : acme.

Lemma grantedIdentifiers_spec o ids granted id :
  grantedIdentifiers o ids = Some granted → id ∈ granted →
  id ∈ ord_Identifiers o ∧ ∃ id0, id0 ∈ ids ∧ Normalize id0 = Ok id.
Proof.
  revert granted. induction ids as [|id0 ids IH]; intros granted; simpl; [intros [= <-]; set_solver|].
  destruct (Normalize id0) as [n|] eqn:Hn; [|done]. case_bool_decide as Hin; [|done].
  destruct (grantedIdentifiers o ids) as [g|]; [|done]. intros [= <-].
  rewrite elem_of_union, elem_of_singleton. intros [->|Hid].
  - split; [done|]. exists id0. split; [left|done].
  - destruct (IH _ eq_refl Hid) as (? & id1 & ? & ?). split; [done|]. exists id1. split; [by right|done].
Qed.

Lemma WP_preApprove ctx b o w :
  WP (preApprove s ctx b o) (λ x w', ∀ granted, x = Ok granted → pre_approved w' o granted) w.
Proof.
  unfold preApprove. case_match; [apply WP_mret; intros ? [= <-] id; set_solver|].
  apply WP_bind, WP_call; [done|]. intros w1 [ids reviewed] w2 _ _ Hstep _ _. apply WP_mret.
  intros granted. destruct ids as [ids|]; [|done]. case_match; [done|].
  destruct (grantedIdentifiers o ids) as [g|] eqn:Hg; [|done]. intros [= <-] id Hid.
  destruct (grantedIdentifiers_spec _ _ _ _ Hg Hid) as (? & id0 & ? & ?). split; [done|].
  exists o, ids, id0. split_and!; [|done..]. simpl in Hstep. rewrite Hstep. left.
Qed.

Lemma WP_random_newID (Q : result Problem string → World → Prop) w :
  (∀ r w', w `suffix_of` w' → hist_ok w' → (∀ id, r = Ok id → drawn w' id ∧ ¬ drawn w id) → Q r w') →
  WP (random newID) Q w.
Proof.
  intros HQ. apply WP_bind, WP_newID. intros r w' Hle Hw' Hr. apply WP_mret, HQ; [done..|].
  destruct r; [|done]. intros id [= <-]. by apply Hr.
Qed.

Lemma WP_buildChallenges accountID zid types w :
  WP (buildChallenges accountID zid types) (λ x _, ∀ cs, x = Ok cs → "" ∉ map ch_ID cs) w.
Proof.
  revert w. induction types as [|typ types IH]; intros w; cbn [buildChallenges].
  { apply WP_mret. intros cs [= <-]. by apply not_elem_of_nil. }
  apply WP_andThen, WP_random_newID. intros [id|] w1 _ _ Hid; [|done].
  destruct (Hid _ eq_refl) as [Hnamed%drawn_named _].
  apply WP_andThen, WP_free; [unfold random, newToken; solve_free|]. intros [token|] w2 _ _; [|done].
  apply WP_andThen. eapply WP_conseq; [apply IH|]. intros [cs|] w3 _ _ Hcs; [|done].
  apply WP_mret. intros ? [= <-]. simpl. rewrite not_elem_of_cons. split; [done|]. by apply Hcs.
Qed.

(** The authorizations of the identifiers [ids], drawn between [w] and [w']. *)
Record built (w w' : World) (o : Order) (granted : gset Identifier) (ids : list Identifier)
    (zs : list Authorization) (cs : list Challenge) : Prop := {
  built_new : Forall2 (λ z id, new_authz w' o z id ∧
                (az_Status z = AuthorizationValid ↔ id ∈ granted)) zs ids;
  built_distinct : NoDup (map az_ID zs);
  built_drawn : Forall (λ z, drawn w' (az_ID z) ∧ ¬ drawn w (az_ID z)) zs;
  built_challenges : "" ∉ map ch_ID cs
}.

Lemma new_authorization w o granted id zid ids status approved :
  pre_approved w o granted →
  status = (if bool_decide (id ∈ granted) then AuthorizationValid else AuthorizationPending) →
  approved = bool_decide (id ∈ granted) →
  new_authz w o {| (newAuthorization o id zid) with az_Status := status; az_PreApproved := approved;
                     az_ChallengeIDs := ids |} id.
Proof.
  intros Hpre -> ->. pose proof (orderIdentifier_new o id zid) as Hid.
  split_and!; [done|done|exact Hid|]. case_bool_decide as Hin; [right|by left].
  split_and!; [done..|]. destruct (Hpre _ Hin) as (_ & order & ids' & id0 & ? & ? & ? & ?).
  exists order, ids', id0. split_and!; [done..|]. etrans; [done|]. f_equal. symmetry. exact Hid.
Qed.

Lemma built_cons w w1 w2 w3 o granted id ids z zs cs cs' :
  w `suffix_of` w1 → w1 `suffix_of` w2 → w2 `suffix_of` w3 →
  drawn w1 (az_ID z) → ¬ drawn w (az_ID z) → new_authz w2 o z id →
  (az_Status z = AuthorizationValid ↔ id ∈ granted) → "" ∉ map ch_ID cs →
  built w2 w3 o granted ids zs cs' → built w w3 o granted (id :: ids) (z :: zs) (cs ++ cs').
Proof.
  intros Hle1 Hle2 Hle3 Hdrawn Hfresh Hz Hvalid Hcs [Hnew Hnd Hdr Hch].
  assert (w `suffix_of` w2) as Hle by (by etrans). assert (w1 `suffix_of` w3) as Hle' by (by etrans).
  rewrite Forall_forall in Hdr. split; simpl.
  - constructor; [|done]. split; [|done]. by apply (new_authz_mono w2).
  - apply NoDup_cons. split; [|done]. intros (z' & Hid & Hz')%list_elem_of_fmap.
    destruct (Hdr _ Hz') as [_ Hnot]. apply Hnot. rewrite <-Hid. eauto with acme.
  - constructor; [split; eauto with acme|]. apply Forall_forall. intros z' Hz'.
    destruct (Hdr _ Hz') as [? Hnot]. split; [done|]. intros Hd. apply Hnot. eauto with acme.
  - rewrite map_app, not_elem_of_app. done.
Qed.

Lemma WP_authorizationsFor o ids granted w :
  pre_approved w o granted →
  WP (authorizationsFor s o ids granted)
    (λ x w', ∀ zs cs, x = Ok (zs, cs) → built w w' o granted ids zs cs) w.
Proof.
  revert w. induction ids as [|id ids IH]; intros w Hpre; cbn [authorizationsFor].
  { apply WP_mret. intros ? ? [= <- <-]. split; [constructor..|by apply not_elem_of_nil]. }
  apply WP_andThen, WP_random_newID. intros [zid|] w1 Hle1 _ Hzid; [|done].
  destruct (Hzid _ eq_refl) as [Hdrawn Hfresh]. apply WP_andThen.
  assert (∀ z cs w2, w1 `suffix_of` w2 →
    new_authz w2 o z id → (az_Status z = AuthorizationValid ↔ id ∈ granted) → az_ID z = zid →
    "" ∉ map ch_ID cs →
    WP (rest ←? authorizationsFor s o ids granted;
        mret (Ok ((z, cs).1 :: rest.1, (z, cs).2 ++ rest.2)))
      (λ x w', ∀ zs cs, x = Ok (zs, cs) → built w w' o granted (id :: ids) zs cs) w2) as Hrest.
  { intros z cs w2 Hle2 Hz Hvalid Hid Hcs. apply WP_andThen.
    assert (w `suffix_of` w2) as Hle by (by etrans).
    eapply WP_conseq; [apply IH; eauto with acme|]. intros [[zs cs']|] w3 Hle3 _ Hb; [|done].
    apply WP_mret. intros ? ? [= <- <-]. subst zid.
    apply (built_cons w w1 w2); auto. }
  case_bool_decide as Hin.
  - apply WP_mret, Hrest; [done| | |done|by apply not_elem_of_nil].
    + eapply (new_authorization w1 o granted id zid []); eauto with acme; by rewrite bool_decide_eq_true_2.
    + done.
  - apply WP_andThen. eapply WP_conseq; [apply WP_buildChallenges|]. intros [cs|] w2 Hle2 _ Hcs; [|done].
    assert (w `suffix_of` w2) as Hle by (by etrans).
    apply WP_mret, Hrest; [done| | |done|by apply Hcs].
    + eapply (new_authorization w2 o granted id zid); eauto with acme; by rewrite bool_decide_eq_false_2.
    + done.
Qed.

(** A set of members of a list without duplicates that is as large as the list is all of it. *)
Lemma granted_all (ids : list Identifier) (granted : gset Identifier) :
  NoDup ids → (∀ id, id ∈ granted → id ∈ ids) →
  (size granted = length ids → ∀ id, id ∈ ids → id ∈ granted) ∧
  (size granted ≠ length ids → ∃ id, id ∈ ids ∧ id ∉ granted).
Proof.
  intros Hnd Hsub.
  assert (granted ⊆ list_to_set ids) as Hset by (intros id Hid; apply elem_of_list_to_set; auto).
  assert (size (list_to_set ids : gset Identifier) = length ids) as Hsize by (by apply size_list_to_set).
  split.
  - intros Heq id Hid. destruct (decide (id ∈ granted)); [done|exfalso].
    assert (granted ⊂ (list_to_set ids : gset Identifier)) as Hss by set_solver.
    apply subset_size in Hss. lia.
  - intros Hne. destruct (decide (Exists (λ id, id ∉ granted) ids)) as [Hex|Hall].
    + apply Exists_exists in Hex as (id & ? & ?). by exists id.
    + exfalso. apply Hne. rewrite <-Hsize. f_equal. apply not_Exists_Forall in Hall; [|solve_decision].
      rewrite Forall_forall in Hall. apply leibniz_equiv. intros id. rewrite elem_of_list_to_set.
      split; [apply Hsub|]. intros Hid. specialize (Hall _ Hid). by apply dec_stable.
Qed.

Lemma built_order w w' b o granted zs cs status :
  unauthorized_order b o → acct_ID b ≠ "" → pre_approved w o granted →
  built w w' o granted (ord_Identifiers o) zs cs →
  status = (if (size granted =? length (ord_Identifiers o))%nat then OrderReady else ord_Status o) →
  new_order w' {| o with ord_AuthorizationIDs := map az_ID zs; ord_Status := status |} zs cs.
Proof.
  intros (Hid & Hacc & Hst & Hnd & Hiss & Hcert) Hb Hpre [Hnew Hdist Hdr Hch] ->.
  destruct (granted_all (ord_Identifiers o) granted Hnd) as [Hall Hsome].
  { intros id Hin. by apply Hpre. }
  rewrite Forall2_same_length_lookup in Hnew. destruct Hnew as [Hlen Hnew].
  split; simpl; try done.
  - by rewrite Hacc.
  - apply Forall2_same_length_lookup. split; [done|]. intros i z id Hz Hi. by apply (Hnew i).
  - split; [|done]. intros (z & Heq & Hz)%list_elem_of_fmap. rewrite Forall_forall in Hdr.
    by apply Hdr in Hz as [Hz%drawn_named _].
  - case_match eqn:Hsize; [right|left]; split; try done.
    + apply Nat.eqb_eq in Hsize. apply Forall_lookup. intros i z Hz.
      destruct (lookup_lt_is_Some_2 (ord_Identifiers o) i) as [id Hi].
      { rewrite <-Hlen. by eapply lookup_lt_Some. }
      apply (Hnew i z id Hz Hi), Hall; [done|]. by eapply list_elem_of_lookup_2.
    + apply Nat.eqb_neq in Hsize. destruct (Hsome Hsize) as (id & Hin & Hnot).
      apply list_elem_of_lookup in Hin as [i Hi].
      destruct (lookup_lt_is_Some_2 zs i) as [z Hz].
      { rewrite Hlen. by eapply lookup_lt_Some. }
      apply Exists_exists. exists z. split; [by eapply list_elem_of_lookup_2|].
      intros Hv. by apply Hnot, (Hnew i z id Hz Hi).
Qed.

Lemma WP_buildAuthorizations b o granted w :
  unauthorized_order b o → acct_ID b ≠ "" → pre_approved w o granted →
  WP (buildAuthorizations s o granted)
    (λ x w', ∀ o' zs cs, x = Ok (o', zs, cs) → new_order w' o' zs cs) w.
Proof.
  intros Ho Hb Hpre. apply WP_andThen. eapply WP_conseq; [by apply WP_authorizationsFor|].
  intros [[zs cs]|] w' _ _ Hbuilt; [|done]. apply WP_mret. intros ? ? ? [= <- <- <-].
  by eapply built_order; [..|by apply Hbuilt|].
Qed.

Lemma free_writeOrder ctx status o now : free (writeOrder s ctx status o now).
Proof. unfold writeOrder. solve_free. Qed.
#[local] Hint Resolve free_writeOrder : free.

Lemma WP_serveNewOrder r w : WP (serveNewOrder s r) (λ _ _, True) w.
Proof.
  unfold serveNewOrder. cbv zeta. apply WP_bind. eapply WP_conseq; [apply WP_readAccountRequest|].
  intros [spent req] w1 _ _ Hreq. apply WP_orElse, WP_ret.
  destruct req as [[b body]|]; [|apply WP_done; solve_free].
  destruct (Hreq _ _ eq_refl) as (_ & _ & Hb & _).
  apply WP_orElse, WP_ret. case_match; [|apply WP_done; solve_free].
  apply WP_bind, WP_free; [unfold Now; solve_free|]. intros now w2 _ _.
  apply WP_orElse. eapply WP_conseq; [apply WP_buildOrder|]. intros [o|] w3 _ _ Ho;
    [|apply WP_done; solve_free]. specialize (Ho _ eq_refl).
  apply WP_orElse. eapply WP_conseq; [apply WP_preApprove|]. intros [granted|] w4 _ _ Hpre;
    [|apply WP_done; solve_free]. specialize (Hpre _ eq_refl).
  apply WP_orElse. eapply WP_conseq; [by eapply WP_buildAuthorizations|].
  intros [[[o' zs] cs]|] w5 _ _ Hnew; [|apply WP_done; solve_free].
  apply WP_bind, WP_call; [intros _; by apply Hnew|]. intros. apply WP_done. solve_free.
Qed.

(** ** Orders *)

Lemma WP_readOwnedOrder r id rel w :
  WP (readOwnedOrder s r id rel)
    (λ x w', ∀ b body o, x.2 = Ok (b, body, o) →
       (ord_Status o = OrderPending ∨ ord_Status o = OrderReady) →
       ∃ o0 w0, seen as_orders w0 (ord_ID o0) o0 ∧ w0 `suffix_of` w' ∧
         (ord_Status o0 = OrderPending ∨ ord_Status o0 = OrderReady) ∧
         o = {| o0 with ord_Status := ord_Status o |} ∧
         derived w0 w' (ord_AuthorizationIDs o0) None (ord_Status o)) w.
Proof.
  unfold readOwnedOrder. cbv zeta. apply WP_bind. eapply WP_conseq; [apply WP_readAccountRequest|].
  intros [spent req] w1 _ _ _. apply WP_bind, WP_andThen, WP_ret.
  destruct req as [[b body]|]; [|by apply WP_mret]. apply WP_andThen, WP_storeOr, WP_order.
  intros x w2 _ _ Hx. destruct x as [o0|]; [|by apply WP_mret].
  destruct (Hx _ eq_refl) as [Hid Ho%read_seen]. rewrite <-Hid in Ho.
  case_match; [by do 2 apply WP_mret|]. case_match eqn:Hst; go_bool.
  - apply WP_bind. eapply WP_conseq; [apply WP_deriveOrderStatus|]. intros x w3 Hle3 _ Hder.
    do 2 apply WP_mret. destruct x as [status|]; [|done]. intros ? ? ? [= <- <- <-] _.
    exists o0, w2. split_and!; [done..| |done|by apply Hder].
    by destruct Hst as [Hst|Hst]; go_bool; [left|right].
  - do 2 apply WP_mret. intros ? ? ? [= <- <- <-] [?|?]; done.
Qed.

Lemma free_serveOrder r id : free (serveOrder s r id).
Proof.
  assert (∀ ctx o, free (deriveOrderStatus ctx o None)) as Hderive.
  { intros ctx o. unfold deriveOrderStatus, Now. solve_free. generalize true.
    induction (ord_AuthorizationIDs o) as [|zid ids IH]; intros allValid; cbn [deriveLoop]; [solve_free|].
    apply free_bind; [unfold authzStatus, store; solve_free|]. intros. case_match; [|solve_free].
    case_match; [solve_free|apply IH]. }
  unfold serveOrder, readOwnedOrder, readAccountRequest, storeOr, store, Now. cbv zeta. solve_free.
Qed.

(** ** Finalization *)

Lemma free_recordRefusal ctx refusal p : free (recordRefusal s ctx refusal p).
Proof. unfold recordRefusal, WithTimeout. solve_free. Qed.
#[local] Hint Resolve free_recordRefusal : free.

(** A copy of a stored order that can be finalized. *)
Definition finalizable (w : World) (o : Order) : Prop :=
  ∃ o0, seen as_orders w (ord_ID o) o0 ∧
    (ord_Status o0 = OrderPending ∨ ord_Status o0 = OrderReady) ∧
    o = {| o0 with ord_Status := OrderReady |} ∧ Forall (seen_valid w o0) (ord_AuthorizationIDs o0).

Lemma finalizable_mono w w' o : w `suffix_of` w' → finalizable w o → finalizable w' o.
Proof.
  intros Hle (o0 & ? & ? & ? & Hall). exists o0. split_and!; eauto with acme.
  eapply Forall_impl; [done|]. intros zid. by apply past_mono.
Qed.
#[local] Hint Resolve finalizable_mono : acme.

Lemma WP_commitFinalize r o der now w :
  finalizable w o → WP (commitFinalize s r o der now) (λ _ _, True) w.
Proof.
  intros Ho. unfold commitFinalize. cbv zeta. apply WP_bind, WP_newID. intros x w1 Hle1 _ Hx.
  destruct x as [id|]; [|apply WP_done; solve_free]. destruct (Hx _ eq_refl) as [Hid%drawn_named _].
  destruct (finalizable_mono _ _ _ Hle1 Ho) as (o0 & Hseen & Hst & -> & Hall).
  apply WP_bind, WP_call; [intros _; split; [done|]; by exists o0, der|].
  intros. apply WP_done. unfold workAccepted, store. solve_free.
Qed.

Lemma ready_now o now : effectiveOrderStatus o now = OrderReady → ord_Status o = OrderReady.
Proof. unfold effectiveOrderStatus, StatusAt. by case_match. Qed.

Lemma free_loadAuthorizations ctx ids : free (loadAuthorizations ctx ids).
Proof.
  induction ids as [|id ids IH]; cbn [loadAuthorizations]; [solve_free|].
  apply free_andThen; [unfold storeOr, store; solve_free|]. intros. apply free_andThen; [done|]. solve_free.
Qed.
#[local] Hint Resolve free_loadAuthorizations : free.

Lemma WP_serveFinalize r id w : WP (serveFinalize s r id) (λ _ _, True) w.
Proof.
  unfold serveFinalize. cbv zeta. apply WP_bind. eapply WP_conseq; [apply WP_readOwnedOrder|].
  intros [spent req] w1 _ Hw1 Hreq. apply WP_orElse, WP_ret.
  destruct req as [[[b body] o]|]; [|apply WP_done; solve_free].
  apply WP_orElse, WP_ret. destruct (decodePayload json_finalize body) as [csr|];
    [|apply WP_done; solve_free].
  destruct (decode csr) as [[|c der]|]; [apply WP_done; solve_free| |apply WP_done; solve_free].
  apply WP_bind, WP_now. intros now w2 Hle2 _.
  case_match; [apply WP_done; solve_free|]. case_match; [apply WP_done; solve_free|].
  case_match eqn:Hready; [apply WP_done; solve_free|]. case_match; [apply WP_done; solve_free|].
  go_bool. apply ready_now in Hready.
  assert (finalizable w1 o) as Ho.
  { destruct (Hreq _ _ _ eq_refl ltac:(by right)) as (o0 & w0 & Hseen & Hle0 & Hst & Ho & Hder).
    rewrite Hready in Hder, Ho. exists o0. split_and!; [|done|done|].
    - rewrite Ho. simpl. by eapply seen_mono.
    - apply Forall_forall. intros zid Hzid. apply (valid_at_seen w0); [done|done|]. by apply Hder. }
  apply WP_orElse, WP_free; [unfold orderAuthorizations; solve_free|].
  intros [zs|] w3 Hle3 _; [|apply WP_done; solve_free].
  apply WP_orElse, WP_ret. case_match; [|apply WP_done; solve_free].
  apply WP_orElse, WP_ret. case_match; [|apply WP_done; solve_free].
  apply WP_commitFinalize. eauto with acme.
Qed.

(** ** Authorizations and challenges *)

Lemma WP_deactivateAuthorization ctx z now w :
  seen as_authzs w (az_ID z) z → WP (deactivateAuthorization ctx z now) (λ _ _, True) w.
Proof.
  intros Hz. unfold deactivateAuthorization. cbv zeta. case_match eqn:Heff; [by apply WP_mret|].
  case_match eqn:Hcan; [by apply WP_mret|]. go_bool. unfold storeOr. apply WP_bind, WP_call.
  - intros _. exists z. split_and!; [done| |done].
    destruct (decide (effectiveAuthzStatus z now = AuthorizationExpired)) as [Hx|Hx].
    + by rewrite Hx in Hcan.
    + rewrite (effective_live _ _ Hx) in Hcan. by destruct (az_Status z); auto.
  - intros. by apply WP_mret.
Qed.

Lemma free_loadChallenges ctx ids : free (loadChallenges ctx ids).
Proof.
  induction ids as [|id ids IH]; cbn [loadChallenges]; [solve_free|].
  apply free_andThen; [unfold storeOr, store; solve_free|]. intros. apply free_andThen; [done|]. solve_free.
Qed.
#[local] Hint Resolve free_loadChallenges : free.

Lemma WP_serveAuthorization r id w : WP (serveAuthorization s r id) (λ _ _, True) w.
Proof.
  unfold serveAuthorization. cbv zeta. apply WP_bind, WP_free;
    [unfold readAccountRequest; solve_free|].
  intros [spent req] w1 _ _. apply WP_orElse, WP_ret.
  destruct req as [[b body]|]; [|apply WP_done; solve_free].
  apply WP_orElse, WP_storeOr, WP_authz. intros x w2 _ _ Hx.
  destruct x as [z|]; [|apply WP_done; solve_free].
  destruct (Hx _ eq_refl) as [Hid Hz%read_seen]. rewrite <-Hid in Hz.
  case_match; [apply WP_done; solve_free|].
  apply WP_bind, WP_now. intros now w3 Hle3 _.
  apply WP_orElse. eapply (WP_conseq _ (λ _ _, True)).
  - case_match; [by apply WP_mret|]. apply WP_andThen, WP_ret. case_match; [|done].
    case_match; [by apply WP_mret|]. apply WP_deactivateAuthorization. eauto with acme.
  - intros [] w4 _ _ _; apply WP_done; solve_free.
Qed.

Lemma WP_acceptChallenge ctx c b client payload w :
  seen as_challenges w (ch_ID c) c → WP (acceptChallenge s ctx c b client payload) (λ _ _, True) w.
Proof.
  intros Hc. unfold acceptChallenge. cbv zeta. case_match eqn:Hst; [by apply WP_mret|]. go_bool.
  apply WP_andThen, WP_ret. case_match; [|done].
  apply WP_andThen, WP_free; [unfold storeOr, store; solve_free|]. intros [z|] w1 Hle1 _; [|done].
  apply WP_bind, WP_free; [unfold Now; solve_free|]. intros now w2 Hle2 _.
  case_match; [by apply WP_mret|].
  apply WP_andThen, WP_free; [unfold storeOr, store; solve_free|]. intros [n|] w3 Hle3 _; [|done].
  case_match; [by apply WP_mret|].
  apply WP_bind, WP_free; [solve_free|]. intros refusal w4 Hle4 _.
  apply WP_andThen, WP_ret. case_match; [|done].
  apply WP_bind, WP_newID. intros x w5 Hle5 _ Hx. destruct x as [id|]; [|by apply WP_mret].
  destruct (Hx _ eq_refl) as [Hid%drawn_named _].
  assert (w `suffix_of` w5) as Hle by (by do 4 (etrans; [eassumption|])).
  unfold storeResponse. apply WP_bind, WP_call.
  - intros _. split; [done|]. exists c. split; [by eapply seen_mono|]. by constructor.
  - intros. apply WP_done. unfold workAccepted, store. solve_free.
Qed.

Lemma WP_serveChallenge r id w : WP (serveChallenge s r id) (λ _ _, True) w.
Proof.
  unfold serveChallenge. cbv zeta. apply WP_bind, WP_free; [unfold readAccountRequest; solve_free|].
  intros [spent req] w1 _ _. apply WP_orElse, WP_ret.
  destruct req as [[b body]|]; [|apply WP_done; solve_free].
  apply WP_orElse, WP_storeOr, WP_challenge. intros x w2 _ _ Hx.
  destruct x as [c|]; [|apply WP_done; solve_free].
  destruct (Hx _ eq_refl) as [Hid Hc%read_seen]. rewrite <-Hid in Hc.
  case_match; [apply WP_done; solve_free|].
  apply WP_orElse. eapply (WP_conseq _ (λ _ _, True)).
  - case_match; [by apply WP_mret|]. apply WP_andThen, WP_ret. case_match; [|done].
    by apply WP_acceptChallenge.
  - intros [] w3 _ _ _; apply WP_done; unfold writeChallenge; solve_free.
Qed.

End Orders.

#[export] Hint Resolve free_recordRefusal : free.
