(* ===== verification/SystemRevoke.v ===== *)
(** * Revocation is safe, and so is every request

    The handler of src/revoke.go records an operation before it calls the CA, and [ServeHTTP]
    (src/server.go) makes only calls it may make on any request. *)

From S2P Require Import Prelude Status Problem Resource Base64 Netip StoreSpec Prog Host Platform Identifier Jws Chain Worker Issuance Wire Http Accounts Orders Revoke Server Lifecycle System SystemSteps SystemRules SystemWorker SystemRequests SystemOrders.

(** A certificate that was read unrevoked, with the given leaf. *)
Definition revocable (w : World) (der : bytes) (c : Certificate) : Prop :=
  seen as_certificates w (crt_ID c) c ∧ head (crt_Chain c) = Some der.

Lemma revocable_mono w w' der c : w `suffix_of` w' → revocable w der c → revocable w' der c.
Proof. intros Hle [??]. split; eauto with acme. Qed.
#[export] Hint Resolve revocable_mono : acme.

Section Revoke.
Context `{Platform} `{StrictJSON} `{PayloadJSON} (s : Server).
Context (sha256_size : ∀ b, length (sha256_Sum256 b) = 32%nat).

Lemma cert_seen_fixed w id c c' :
  hist_ok w → seen as_certificates w id c → seen as_certificates w id c' → crt_Chain c' = crt_Chain c.
Proof.
  intros Hw Hc Hc'.
  destruct (present cert_step as_certificates certs_later w id c Hw Hc) as (u & Hu & Hcu).
  destruct (present cert_step as_certificates certs_later w id c' Hw Hc') as (u' & Hu' & Hcu').
  simplify_eq. apply (rtc_in _ cert_fixed) in Hcu, Hcu'; [|apply cert_step_fixed..].
  unfold cert_fixed in *. destruct_and!. congruence.
Qed.

Lemma revocable_reread w der c c' :
  hist_ok w → revocable w der c → seen as_certificates w (crt_ID c) c' → crt_ID c' = crt_ID c →
  revocable w der c'.
Proof.
  intros Hw [Hc Hhead] Hc' Hid. split; [by rewrite Hid|]. by rewrite (cert_seen_fixed _ _ _ _ Hw Hc Hc').
Qed.

(** A stored update is the next version. *)
Lemma updateCertificate_stored c a c' :
  (spec_exec (CallUpdateCertificate c) a).1 = Ok c' →
  c' = {| c with crt_Revision := u64 (crt_Revision c + 1) |} ∧
  as_certificates (spec_exec (CallUpdateCertificate c) a).2 !! crt_ID c = Some c'.
Proof.
  cbn [spec_exec]. match goal with |- (guarded ?e ?x ?a' ?a).1 = _ → _ =>
    destruct (guarded_cases e x a' a) as [[err ->]|[_ ->]] end; [done|].
  intros [= <-]. split; [done|]. simpl. by rewrite lookup_insert_eq.
Qed.

Lemma WP_beginLoop n ctx der c reason w :
  revocable w der c →
  WP (beginLoop n ctx c reason)
    (λ x w', ∀ c', x = Ok c' → revocable w' der c' ∧ crt_Revoked c' = false) w.
Proof.
  revert c w. induction n as [|n IH]; intros c w Hc; cbn [beginLoop]; [by apply WP_mret|].
  destruct (crt_Revoked c) eqn:Hrev; [by apply WP_mret|].
  case_match; [apply WP_mret; by intros ? [= <-]|].
  apply WP_bind, WP_newID. intros [id|] w1 Hle1 _ _; [|by apply WP_mret].
  apply WP_bind, WP_now. intros now w2 Hle2 _.
  assert (revocable w2 der c) as Hc2 by eauto with acme.
  apply WP_bind, WP_call.
  { intros _. exists c. split; [apply Hc2|]. by constructor. }
  intros w3 x w4 Hle3 _ Hstep Hle4 Hw4. destruct x as [c'|err].
  - apply WP_mret. intros ? [= <-]. destruct Hstep as [(_ & Hx & ->)|(? & _ & ? & _)]; [|done].
    symmetry in Hx. apply updateCertificate_stored in Hx as [-> Hstored].
    split; [|done]. split; [by apply past_now|apply Hc2].
  - case_match; [by apply WP_mret|]. apply WP_andThen, WP_storeOr, WP_certificate.
    intros x w5 Hle5 Hw5 Hx. destruct x as [c'|]; [|done]. destruct (Hx _ eq_refl) as [Hid Hread%read_seen].
    apply IH. assert (w2 `suffix_of` w5) as Hle by (by do 2 (etrans; [eassumption|])).
    eapply revocable_reread; eauto with acme.
Qed.

Lemma WP_recordLoop n ctx op c w :
  seen as_certificates w (crt_ID c) c → crt_Revoked c = false →
  WP (recordLoop n ctx op c) (λ _ _, True) w.
Proof.
  revert c w. induction n as [|n IH]; intros c w Hc Hrev; cbn [recordLoop]; [by apply WP_mret|].
  apply WP_bind, WP_now. intros now w1 Hle1 _. cbv zeta.
  apply WP_bind, WP_call.
  { intros _. exists c. split; [simpl; eauto with acme|]. by constructor. }
  intros w2 x w3 _ _ _ _ _. destruct x as [|err]; [by apply WP_mret|]. case_match; [by apply WP_mret|].
  apply WP_bind, WP_certificate. intros x w4 _ _ Hx. destruct x as [c'|]; [|by apply WP_mret].
  destruct (Hx _ eq_refl) as [Hid Hread%read_seen]. rewrite <-Hid in Hread.
  destruct (crt_Revoked c') eqn:Hrev'; [by apply WP_mret|]. by apply IH.
Qed.

Lemma WP_revokedCertificate ctx der w :
  WP (revokedCertificate ctx der) (λ x w', ∀ c, x = Ok c → revocable w' der c) w.
Proof.
  unfold revokedCertificate. cbv zeta. apply WP_andThen, WP_storeOr, WP_certificate.
  intros x w1 _ _ Hx. destruct x as [c|]; [|done]. destruct (Hx _ eq_refl) as [Hid Hread%read_seen].
  apply WP_mret. intros c'. case_match eqn:Hhead; [|done]. intros [= <-]. go_bool.
  split; [by rewrite Hid|done].
Qed.

Lemma free_detached ctx : free (detached s ctx).
Proof. unfold detached, WithTimeout. solve_free. Qed.
#[local] Hint Resolve free_detached : free.

Lemma free_authorizeRevocation ctx req c leaf : free (authorizeRevocation ctx req c leaf).
Proof. unfold authorizeRevocation, Now, store. cbv zeta. solve_free. Qed.
#[local] Hint Resolve free_authorizeRevocation : free.

Lemma WP_serveRevokeCert r w : WP (serveRevokeCert s r) (λ _ _, True) w.
Proof.
  unfold serveRevokeCert. cbv zeta. apply WP_bind, WP_free; [solve_free|]. intros [spent req] w1 _ _.
  apply WP_orElse, WP_ret. destruct req as [req|]; [|apply WP_done; solve_free].
  apply WP_orElse, WP_ret. destruct (decodePayload json_revoke _) as [payload|]; [|apply WP_done; solve_free].
  destruct (decode (rv_Certificate payload)) as [[|byte der']|];
    [apply WP_done; solve_free| |apply WP_done; solve_free].
  set (der := byte :: der'). destruct (x509_ParseCertificate der) as [leaf|]; [|apply WP_done; solve_free].
  case_match; [apply WP_done; solve_free|].
  apply WP_orElse. eapply WP_conseq; [apply WP_revokedCertificate|]. intros [c|] w2 _ _ Hc;
    [|apply WP_done; solve_free]. specialize (Hc _ eq_refl).
  apply WP_bind, WP_free; [solve_free|]. intros p w3 Hle3 _.
  apply WP_orElse, WP_ret. destruct (refused p); [|apply WP_done; solve_free].
  apply WP_orElse. eapply WP_conseq; [apply (WP_beginLoop _ _ der); eauto with acme|].
  intros [c'|] w4 _ _ Hb; [|apply WP_done; solve_free].
  destruct (Hb _ eq_refl) as [[Hseen Hhead] Hrev].
  apply WP_bind, WP_call; [intros _; exists c'; by split_and!|].
  intros w5 err w6 Hle5 _ _ Hle6 _. assert (w4 `suffix_of` w6) as Hle by (by etrans).
  destruct err as [err|].
  - case_match; [|apply WP_done; solve_free]. apply WP_bind. eapply (WP_conseq _ (λ _ _, True)).
    + unfold abandonRevocation. apply WP_bind, WP_free; [solve_free|]. intros ctx w7 Hle7 _.
      apply WP_bind, WP_call; [|intros; by apply WP_mret].
      intros _. exists c'. split; [simpl; eauto with acme|by constructor].
    + intros. apply WP_done. solve_free.
  - apply WP_bind. eapply (WP_conseq _ (λ _ _, True)).
    + unfold recordRevocation. apply WP_bind, WP_free; [solve_free|]. intros ctx w7 Hle7 _.
      apply WP_recordLoop; eauto with acme.
    + intros. apply WP_done. solve_free.
Qed.

(** ** Every request *)

Lemma free_serveCertificate r id : free (serveCertificate s r id).
Proof. unfold serveCertificate, readAccountRequest, storeOr, store. cbv zeta. solve_free. Qed.

Lemma free_serveRenewalInfo r id : free (serveRenewalInfo s r id).
Proof.
  unfold serveRenewalInfo, writeMethodNotAllowed, writeProblemWithoutNonce, storeOr, store. cbv zeta.
  solve_free.
Qed.

Lemma WP_servePOST r handler w :
  (∀ r, WP (handler r) (λ _ _, True) w) → WP (servePOST s r handler) (λ _ _, True) w.
Proof. intros. unfold servePOST. case_match; [apply WP_done; unfold writeMethodNotAllowed; solve_free|done]. Qed.

Lemma WP_serveResource r rel w : WP (serveResource s r rel) (λ _ _, True) w.
Proof.
  unfold serveResource. cbv zeta. destruct (Cut 47 rel) as [kind [rest|]]; [|apply WP_done; solve_free].
  case_match; [apply WP_done, free_serveRenewalInfo|].
  case_match; [apply WP_done; unfold serveProfile, writeMethodNotAllowed; cbv zeta; solve_free|].
  destruct (Cut 47 rest) as [id after]. case_match; [apply WP_done; solve_free|].
  destruct (resourceHandler s kind id _) as [handler|] eqn:Hh; [|apply WP_done; solve_free].
  apply WP_servePOST. intros r'. unfold resourceHandler in Hh.
  repeat (case_match; simplify_eq; [eauto using WP_serveAccount, WP_serveFinalize, WP_serveAuthorization,
    WP_serveChallenge, WP_done, free_serveAccountOrders, free_serveOrder|]).
  case_match; simplify_eq. apply WP_done, free_serveCertificate.
Qed.

(** Serving a request is safe. *)
Lemma WP_ServeHTTP r w : WP (ServeHTTP s r) (λ _ _, True) w.
Proof.
  unfold ServeHTTP. cbv zeta. case_match; [apply WP_done; solve_free|].
  case_match; [apply WP_done; unfold serveDirectory, writeMethodNotAllowed; cbv zeta; solve_free|].
  case_match; [apply WP_done; unfold serveNewNonce, writeMethodNotAllowed, writeProblemWithoutNonce;
               cbv zeta; solve_free|].
  case_match; [apply WP_servePOST; intros; by apply WP_serveNewAccount|].
  case_match; [apply WP_servePOST; intros; apply WP_serveNewOrder|].
  case_match; [apply WP_servePOST; intros; apply WP_serveRevokeCert|].
  case_match; [apply WP_servePOST; intros; by apply WP_serveKeyChange|].
  apply WP_serveResource.
Qed.

End Revoke.
