(* ===== verification/SystemRun.v ===== *)
(** * Runs of the system

    Any number of requests and worker turns, of servers with any configuration that share one
    store, started at any time and interleaved call by call. Every history such a run can reach is
    acceptable. *)

From S2P Require Import Prelude Status Problem Resource Base64 Netip StoreSpec Prog Host Platform Identifier Jws Chain Worker Issuance Wire Http Accounts Orders Revoke Server Lifecycle System SystemSteps SystemRules SystemWorker SystemIssuance SystemRequests SystemOrders SystemRevoke.

Section Run.
Context `{Platform} `{StrictJSON} `{PayloadJSON}.

(** The programs that run: requests, and turns of a worker. *)
Inductive starts : Prog unit → Prop :=
| starts_request (s : Server) (r : Request) : starts (_ ← ServeHTTP s r; mret tt)
| starts_turn (s : Server) (ctx : Context) : starts (work s ctx).

(** A history of some run from the empty store. *)
Definition reachable (w : World) : Prop :=
  ∃ ts, rtc (pool_step sys_step starts) ([], []) (w, ts).

Section Safe.
Context (sha256_size : ∀ b, length (sha256_Sum256 b) = 32%nat).

Lemma WP_safe p w : hist_ok w → WP p (λ _ _, True) w → safe sys_step suffix hist_ok guar w p.
Proof. intros Hw Hp. eapply (wp_conseq _ _); [|by apply Hp]. done. Qed.

Lemma starts_safe p w : hist_ok w → starts p → safe sys_step suffix hist_ok guar w p.
Proof.
  intros Hw [s r|s ctx]; apply WP_safe; [done| |done|].
  - apply WP_bind. eapply WP_conseq; [by apply WP_ServeHTTP|]. intros. by apply WP_mret.
  - by apply WP_work.
Qed.

(** Every thread of a reachable configuration is safe. *)
Lemma reachable_pool c c' :
  rtc (pool_step sys_step starts) c c' → pool_ok sys_step suffix hist_ok guar c →
  pool_ok sys_step suffix hist_ok guar c'.
Proof.
  apply (pool_ok_reachable _ _ _ _ _); eauto using guar_le, step_ok, starts_safe.
Qed.

Lemma reachable_ok w : reachable w → hist_ok w.
Proof.
  intros [ts Hrun]. apply reachable_pool in Hrun as [Hw _]; [done|]. split; [done|constructor].
Qed.
End Safe.

(** ** Running programs one after the other *)

(** A deterministic environment. *)
Context (answer : ∀ X, op X → World → X * World).
Context (answer_ok : ∀ X (e : op X) w, sys_step X e w (answer X e w).1 (answer X e w).2).

Lemma reachable_exec p w : reachable w → starts p → reachable (exec answer p w).2.
Proof. intros [ts Hrun] Hp. by eapply exec_pool. Qed.

Lemma reachable_nil : reachable [].
Proof. by exists []. Qed.

End Run.
