(* ===== verification/SystemDemo.v ===== *)
(** * A concrete run

    An instance of every parameter and an environment that answers every call: one client
    registers an account, orders a certificate for a.test, answers the dns-01 challenge, finalizes
    and revokes, with worker turns in between. The CA answers the first request to issue that it
    is still pending, and the clock moves on with every call. The theorems about runs are applied to the
    history of this one. *)

From S2P Require Import Prelude Status Problem Resource Base64 Netip StoreSpec Prog Host Platform Identifier Jws Chain Worker Issuance Wire Http Accounts Orders Revoke Server Lifecycle System SystemSteps SystemRun.

(** ** Parameters *)

(** 32 bytes that depend on the last ones of the message. *)
Definition demo_sum (b : bytes) : bytes := take 32 (rev b ++ replicate 32 x00).

Definition demo_url : URL := mkURL "https" "" false "ca.test" "/" "/" "" "" "https://ca.test/".

Definition demo_spki : bytes := [x30; x01].
Definition demo_csr : bytes := [x30; x02].
Definition demo_leaf : bytes := [x30; x03].
Definition demo_time : Time := (60 * Hour)%Z.

Definition demo_request : CertificateRequest :=
  mkCertificateRequest demo_csr [] [] demo_spki [] ["a.test"] [] [] "".

Definition demo_certificate (der : bytes) : X509Certificate :=
  mkX509Certificate der [] [] demo_spki None [] ["a.test"] [] [] "" demo_time (demo_time + Hour) 3
    true false 0 [x07] (Some 9%Z).

#[export] Instance demo_platform : Platform := {|
  strings_ToLower s := s;
  strconv_Quote s := s;
  strings_EqualFold s t := s == t;
  Duration_String _ := "";
  time_ParseRFC3339 _ := Ok demo_time;
  mime_ParseMediaType s := Ok s;
  mail_ParseAddress s := Ok ("", s);
  url_QueryGet _ _ := "";
  url_QueryEscape s := s;
  pem_Encode b := b;
  utf8_ValidString _ := true;
  idna_ToUnicode s := Ok s;
  idna_ToASCII s := Ok s;
  url_Parse _ := Ok demo_url;
  URL_String u := url_rest u;
  x509_ParseCertificateRequest _ := Ok demo_request;
  x509_ParseCertificate der := Ok (demo_certificate der);
  x509_MarshalPKIXPublicKey _ := Ok [x01];
  asn1_UnmarshalNames _ := Ok ([], []);
  asn1_UnmarshalBasicConstraints _ c := Ok (c, []);
  sha256_Sum256 := demo_sum;
  sha512_Sum384 := demo_sum;
  sha512_Sum512 := demo_sum;
  hmac_Sum _ _ b := demo_sum b;
  ecdsa_OnCurve _ _ _ := true;
  ecdsa_Verify _ _ _ _ _ _ := true;
  rsa_VerifyPKCS1v15 _ _ _ _ := true;
  ed25519_Verify _ _ _ := true;
  cryptobyte_ReadSequence b := Some (b, b);
  cryptobyte_ReadObjectIdentifier _ := None;
  cryptobyte_ReadBitString _ := None;
  slhdsa_UnmarshalBinary _ _ := Err (ErrMsg "");
  slhdsa_Verify _ _ _ := false;
  composite_ParsePKIXPublicKey b := Ok (CertKeyMLDSA b);
  composite_MarshalPKIXPublicKey _ := Ok [x02];
  composite_CheckCertificateRequestSignature _ := None;
  composite_CheckSignatureFrom _ _ := None
|}.

Lemma demo_sum_size b : length (sha256_Sum256 b) = 32%nat.
Proof. simpl. unfold demo_sum. rewrite length_take, length_app, length_replicate. lia. Qed.

(** ** Messages

    The body of a request is one byte that tells which message it is. *)

(** The [n]-th random value of [len] bytes. *)
Definition demo_random (len n : nat) : bytes := replicate (len - 1) x00 ++ [zb (Z.of_nat n)].
Definition demo_id (n : nat) : string := encode (demo_random 16 n).

Definition demo_path (message : bytes) : string :=
  match message with
  | [x01] => "new-account"
  | [x02] => "new-order"
  | [x03] => "chall/" +:+ demo_id 3
  | [x04] => "order/" +:+ demo_id 1 +:+ "/finalize"
  | _ => "revoke-cert"
  end.

#[export] Instance demo_strict : StrictJSON := {|
  json_envelope body := Ok (mkEnvelope (Some (encode body)) (Some (encode body)) (Some "AA") None None);
  json_header message :=
    Ok (mkHeaderJSON (Some "EdDSA") (Some "AA") (Some ("https://ca.test/" +:+ demo_path message))
          (if bool_decide (message = [x01]) then None
           else Some ("https://ca.test/acct/" +:+ demo_id 0))
          (if bool_decide (message = [x01]) then Some [] else None) None None);
  json_jwk _ := Ok (mkJWK "OKP" "Ed25519" (encode (replicate 32 x05)) "" "" "" [])
|}.

#[export] Instance demo_payloads : PayloadJSON := {|
  json_newAccount _ := Ok (mkNewAccountJSON [] false false []);
  json_accountUpdate _ := Ok (mkAccountUpdateJSON None None);
  json_keyChange _ := Err (ErrMsg "");
  json_newOrder _ := Ok (mkNewOrderJSON [mkIdentifier IdentifierDNS "a.test"] "" "" "" "");
  json_authorizationUpdate _ := Ok "deactivated";
  json_challengeResponse _ := Ok (mkChallengeResponseJSON "" "");
  json_finalize _ := Ok (encode demo_csr);
  json_revoke _ := Ok (mkRevokeJSON (encode demo_leaf) None)
|}.

Definition demo_config : Config :=
  mkConfig "https://ca.test/" false true true (mkDirectoryMeta "" "" [] false) 0 true true [] false false
    {[ ChallengeDNS01 := Some PlainValidator ]} false false false false false false false false false
    false "" 0 0 0 0 0 [] "" false (mkWorkerConfig 0 0 0 0 0 0 0 false).

Definition demo_server : Server :=
  match Server.New demo_config with
  | Ok s => s
  | Err _ => mkServer "" "" (mkDirectoryMeta "" "" [] false) 0 false ∅ false false false false false false
               false false false false "" false ∅ "" 0 0 0 0 0 (mkWorkerConfig 0 0 0 0 0 0 0 false) [] ""
               false false
  end.

(** ** Answers *)

Definition randoms (w : World) : list bytes :=
  omap (λ e, match e with Called (EvRandom b) => Some b | _ => None end) w.

(** The number of requests to issue, and the clock. *)
Definition issues (w : World) : nat :=
  length (filter (λ b, b = true) (map (λ e, match e with Called (EvIssue _) => true | _ => false end) w)).
Definition demo_now (w : World) : Time := (demo_time + Z.of_nat (length w) * 10 * Second)%Z.

#[export] Instance has_room_dec r : Decision (has_room r).
Proof. unfold has_room. apply _. Defined.

#[export] Instance room_dec a : Decision (room a).
Proof.
  refine (cast_if (decide
    (map_Forall (λ _ b, has_room (acct_Revision b)) (as_accounts a) ∧
     map_Forall (λ _ o, has_room (ord_Revision o)) (as_orders a) ∧
     map_Forall (λ _ z, has_room (az_Revision z)) (as_authzs a) ∧
     map_Forall (λ _ c, has_room (ch_Revision c)) (as_challenges a) ∧
     map_Forall (λ _ c, has_room (crt_Revision c)) (as_certificates a))));
    [abstract naive_solver by constructor|abstract (intros []; naive_solver)].
Defined.

Definition demo_failure : error := ErrMsg "unavailable".

Definition demo_answer (X : Type) (e : op X) (w : World) : X * World :=
  match e in op X return X * World with
  | OpStore _ c =>
      if decide (room (current w)) then ((spec_exec c (current w)).1, executed c w)
      else (Err demo_failure, w)
  | OpNow => (demo_now w, Called (EvNow (demo_now w)) :: w)
  | OpWallNow => (demo_now w, w)
  | OpRandRead n =>
      let b := demo_random n (length (randoms w)) in
      if decide (length b = n ∧ b ∉ randoms w) then (Ok b, Called (EvRandom b) :: w)
      else (Err demo_failure, w)
  | OpNonceIssue _ => (Ok "AA", w)
  | OpNonceConsume _ _ => (Ok true, w)
  | OpAllow _ _ => (None, w)
  | OpPolicyNewAccount _ account =>
      ((if (acct_ID account == "") || (acct_KeyThumbprint account == "") then Some demo_failure else None, account), w)
  | OpPolicyNewOrder _ _ order => ((None, order), w)
  | OpPreApprove _ _ order => ((Ok [], order), Called (EvPreApproved order []) :: w)
  | OpDefaultProfile _ _ => (Ok "", w)
  | OpAuthorizeIssuance _ _ => (None, w)
  | OpIssue _ req =>
      ((if (issues w =? 0)%nat then mkIssueResult [] "" true 0 None
        else mkIssueResult [demo_leaf] "" false 0 None, None), Called (EvIssue req) :: w)
  | OpRevoke _ req => (None, Called (EvRevoke req) :: w)
  | OpValidate _ _ req => (None, Called (EvValidated req) :: w)
  | OpValidateGrant _ _ req => (Ok noGrant, Called (EvValidated req) :: w)
  | OpMACKey _ _ => (Err demo_failure, w)
  | OpRenewalInfo _ _ => (Err demo_failure, w)
  | OpRecordRefusal _ _ => (None, w)
  | OpWake => (tt, w)
  end.

Lemma randoms_fresh b w : b ∉ randoms w → Called (EvRandom b) ∉ w.
Proof. intros Hb Hin. apply Hb. apply list_elem_of_omap. by exists (Called (EvRandom b)). Qed.

Lemma demo_answer_ok X (e : op X) w : sys_step X e w (demo_answer X e w).1 (demo_answer X e w).2.
Proof.
  destruct e; simpl; try done.
  - case_decide as Hroom; [by left|right]. exists demo_failure. split_and!; [done|done|by left].
  - case_decide as Hb; [|done]. destruct Hb as [Hlen Hb]. simpl.
    split_and!; [done|by apply randoms_fresh|done].
  - split; [done|]. case_match eqn:Hb; [done|]. go_bool. naive_solver.
Qed.

(** ** The run *)

Definition demo_post (message : bytes) : Request :=
  let path := "/" +:+ demo_path message in
  mkRequest Background "POST" path path "" false contentTypeJOSE (Some (Ok message)) "192.0.2.1:443".

Definition demo_serve (message : bytes) : Prog unit := _ ← ServeHTTP demo_server (demo_post message); mret tt.
Definition demo_turn : Prog unit := work demo_server Background.

Definition demo_run (p : Prog unit) (w : World) : World := (exec demo_answer p w).2.

(** Registered, ordered, answered, validated, finalized and issued. *)
Definition demo_issued : World :=
  demo_run demo_turn (demo_run demo_turn (demo_run (demo_serve [x04]) (demo_run demo_turn (demo_run (demo_serve [x03])
    (demo_run (demo_serve [x02]) (demo_run (demo_serve [x01]) [])))))).

(** Revoked as well. *)
Definition demo_revoked : World := demo_run (demo_serve [x05]) demo_issued.

(** And then another order. *)
Definition demo_later : World := demo_run (demo_serve [x02]) demo_revoked.

Lemma demo_issued_reachable : reachable demo_issued.
Proof.
  unfold demo_issued, demo_run.
  repeat (apply (reachable_exec demo_answer demo_answer_ok); [|constructor]). apply reachable_nil.
Qed.

Lemma demo_revoked_reachable : reachable demo_revoked.
Proof.
  apply (reachable_exec demo_answer demo_answer_ok); [apply demo_issued_reachable|constructor].
Qed.

Lemma demo_later_reachable : reachable demo_later.
Proof.
  apply (reachable_exec demo_answer demo_answer_ok); [apply demo_revoked_reachable|constructor].
Qed.

(** ** Facts of the run *)

(** The history before the last [n] entries. *)
Lemma drop_suffix {A} n (l : list A) : drop n l `suffix_of` l.
Proof. exists (take n l). by rewrite take_drop. Qed.

Lemma checked_Some {V} (m : option V) (p : V → bool) :
  match m with Some v => p v | None => false end = true → ∃ v, m = Some v ∧ p v = true.
Proof. destruct m; naive_solver. Qed.

Lemma issue_at n w oid :
  match w !! n with Some (Called (EvIssue req)) => iq_OrderID req == oid | _ => false end = true →
  ∃ req, (Called (EvIssue req) :: drop (S n) w) `suffix_of` w ∧ iq_OrderID req = oid.
Proof.
  destruct (w !! n) as [[a|[]]|] eqn:Hn; try done. intros Hid. go_bool. eexists. split; [|done].
  rewrite <-(drop_S _ _ _ Hn). apply drop_suffix.
Qed.

Lemma revoke_at n w der :
  match w !! n with Some (Called (EvRevoke req)) => rq_DER req == der | _ => false end = true →
  ∃ req, (Called (EvRevoke req) :: drop (S n) w) `suffix_of` w ∧ rq_DER req = der.
Proof.
  destruct (w !! n) as [[a|[]]|] eqn:Hn; try done. intros Hid. go_bool. eexists. split; [|done].
  rewrite <-(drop_S _ _ _ Hn). apply drop_suffix.
Qed.

(** The order, its authorization and challenge, and the certificate have the next identifiers. *)
Definition demo_order : string := demo_id 1.
Definition demo_authz : string := demo_id 2.
Definition demo_challenge : string := demo_id 3.

(** Proofs compare these histories by name; [vm_compute] still evaluates them. *)
#[global] Opaque demo_issued demo_revoked demo_later.
