(* ===== verification/JsonProps.v ===== *)
(** * What strict JSON accepts

    The structural pass accepts exactly the token streams of one value whose objects have distinct
    members and whose nesting is bounded, and the check of member names leaves no member that
    [encoding/json] would assign to a field only by ignoring case. *)

From S2P Require Import Prelude Status Problem Resource Base64 Netip StoreSpec Prog Host Platform Identifier Jws Json SystemDemo.

(** ** Documents *)

(** The tokens of a value. *)
Fixpoint tokens_of (v : json) : list token :=
  match v with
  | JString s => [TokString s]
  | JScalar => [TokScalar]
  | JArray items => TokDelim ArrayOpen :: concat (map tokens_of items) ++ [TokDelim ArrayClose]
  | JObject members =>
      TokDelim ObjectOpen ::
      concat (map (λ m, TokString m.1 :: tokens_of m.2) members) ++ [TokDelim ObjectClose]
  end.

(** At most [d] levels of nesting, and no object with two members of one name. *)
Inductive well_formed : nat → json → Prop :=
| wf_string d s : well_formed d (JString s)
| wf_scalar d : well_formed d JScalar
| wf_array d items : Forall (well_formed d) items → well_formed (S d) (JArray items)
| wf_object d members :
    NoDup (map fst members) → Forall (λ m, well_formed d m.2) members →
    well_formed (S d) (JObject members).

Lemma json_ind' (P : json → Prop) :
  (∀ s, P (JString s)) → P JScalar →
  (∀ items, Forall P items → P (JArray items)) →
  (∀ members, Forall (λ m, P m.2) members → P (JObject members)) → ∀ v, P v.
Proof.
  intros Hs Hc Ha Ho. fix IH 1. intros [s| |items|members]; [done|done| |].
  - apply Ha. induction items as [|v items IHl]; constructor; [apply IH|done].
  - apply Ho. induction members as [|[k v] members IHl]; constructor; [apply IH|done].
Qed.

(** ** The structural pass *)

Section Structure.
Context `{Platform}.

(** A value may start: nothing was read, or the top frame does not wait for a member name. *)
Definition ready (stack : list jsonFrame) (values : nat) : Prop :=
  match stack with
  | [] => values = O
  | top :: _ => fr_object top && fr_expectKey top = false
  end.

(** The pass reads [toks] as part of a value of which [P] decides whether it is acceptable, and
    goes on after it. *)
Definition reads (toks : list token) (P : Prop) (stack stack' : list jsonFrame) (values values' : nat) : Prop :=
  ∀ rest err, checkTokens (toks ++ rest) err stack values = None ↔
    P ∧ checkTokens rest err stack' values' = None.

Lemma length_valueStarts stack : length (valueStarts stack) = length stack.
Proof. destruct stack as [|top rest]; simpl; [done|]. by destruct (fr_object top). Qed.

Lemma reads_start tok toks err stack values :
  ready stack values →
  checkTokens (tok :: toks) err stack values =
  match tok with
  | TokDelim ObjectOpen | TokDelim ArrayOpen =>
      let object := if tok is TokDelim ObjectOpen then true else false in
      if (MaxDepth <=? length stack)%nat
      then Some (malformed ("invalid JSON: nesting exceeds " +:+ pretty MaxDepth +:+ " levels"))
      else checkTokens toks err (mkFrame object ∅ object :: valueStarts stack) values
  | TokDelim ObjectClose | TokDelim ArrayClose =>
      match valueStarts stack with
      | [] => Some ErrPanic
      | _ :: rest => checkTokens toks err rest (counted rest values)
      end
  | TokString _ | TokScalar => checkTokens toks err (valueStarts stack) (counted (valueStarts stack) values)
  end.
Proof.
  intros Hready. cbn [checkTokens]. rewrite <-(length_valueStarts stack). destruct stack as [|top rest]; simpl in Hready.
  - by rewrite Hready.
  - rewrite bool_decide_eq_false_2 by done. by rewrite Hready.
Qed.

(** The members of an array up to its end. *)
Lemma reads_items d items stack values :
  length stack = (MaxDepth - S d)%nat → (S d ≤ MaxDepth)%nat →
  Forall (λ v, ∀ stack values, ready stack values → (length stack ≤ MaxDepth)%nat →
    reads (tokens_of v) (well_formed (MaxDepth - length stack) v) stack (valueStarts stack) values
      (counted (valueStarts stack) values)) items →
  reads (concat (map tokens_of items) ++ [TokDelim ArrayClose]) (Forall (well_formed d) items)
    (mkFrame false ∅ false :: stack) stack values (counted stack values).
Proof.
  intros Hlen Hd Hall. induction Hall as [|v items Hv _ IH]; intros rest err; simpl.
  - split; [|by intros [_ ?]]. intros ?. by split.
  - rewrite <-!app_assoc. etrans; [apply Hv; simpl; done || lia|]. cbn [valueStarts fr_object fr_keys counted]. rewrite app_assoc.
    rewrite (IH rest err : checkTokens _ _ _ _ = None ↔ _), Forall_cons. cbn [length]. replace (MaxDepth - S (length stack))%nat with d by lia. tauto.
Qed.

(** The members of an object up to its end, the names in [keys] read before. *)
Lemma reads_members d members keys stack values :
  length stack = (MaxDepth - S d)%nat → (S d ≤ MaxDepth)%nat →
  Forall (λ m, ∀ stack values, ready stack values → (length stack ≤ MaxDepth)%nat →
    reads (tokens_of m.2) (well_formed (MaxDepth - length stack) m.2) stack (valueStarts stack) values
      (counted (valueStarts stack) values)) members →
  reads (concat (map (λ m, TokString m.1 :: tokens_of m.2) members) ++ [TokDelim ObjectClose])
    ((∀ k, k ∈ map fst members → k ∉ keys) ∧ NoDup (map fst members) ∧
     Forall (λ m, well_formed d m.2) members)
    (mkFrame true keys true :: stack) stack values (counted stack values).
Proof.
  intros Hlen Hd Hall. revert keys. induction Hall as [|[k v] members Hv _ IH]; intros keys rest err; simpl.
  - split; [|by intros [_ ?]]. intros ?. split_and!; [by intros k ?%not_elem_of_nil|constructor|constructor|done].
  - case_bool_decide as Hk.
    { split; [done|]. intros [(Hnot & _) _]. exfalso. apply (Hnot k); [set_solver|done]. }
    rewrite <-!app_assoc. simpl in Hv. etrans; [apply Hv; simpl; done || lia|]. cbn [valueStarts fr_object fr_keys counted]. rewrite app_assoc.
    rewrite (IH ({[k]} ∪ keys) rest err : checkTokens _ _ _ _ = None ↔ _), Forall_cons, NoDup_cons. cbn [length]. replace (MaxDepth - S (length stack))%nat with d by lia. simpl. set_solver.
Qed.

Lemma reads_value v stack values :
  ready stack values → (length stack ≤ MaxDepth)%nat →
  reads (tokens_of v) (well_formed (MaxDepth - length stack) v) stack (valueStarts stack) values
    (counted (valueStarts stack) values).
Proof.
  revert stack values. induction v as [s| |items IH|members IH] using json_ind';
    intros stack values Hready Hlen rest err.
  - cbn [tokens_of app]. rewrite reads_start by done. split; [|by intros [_ ?]]. split; [constructor|done].
  - cbn [tokens_of app]. rewrite reads_start by done. split; [|by intros [_ ?]]. split; [constructor|done].
  - cbn [tokens_of app]. rewrite reads_start by done. cbn iota zeta.
    destruct (Nat.leb_spec MaxDepth (length stack)) as [Hfull|Hfull].
    { split; [done|]. intros [Hwf _]. inv Hwf. lia. }
    etrans; [apply (reads_items (MaxDepth - S (length stack))); rewrite ?length_valueStarts; done || lia|].
    replace (MaxDepth - length stack)%nat with (S (MaxDepth - S (length stack))) by lia.
    split; intros [Hwf ?]; (split; [|done]); [by constructor|by inv Hwf].
  - cbn [tokens_of app]. rewrite reads_start by done. cbn iota zeta.
    destruct (Nat.leb_spec MaxDepth (length stack)) as [Hfull|Hfull].
    { split; [done|]. intros [Hwf _]. inv Hwf. lia. }
    etrans; [apply (reads_members (MaxDepth - S (length stack))); rewrite ?length_valueStarts; done || lia|].
    replace (MaxDepth - length stack)%nat with (S (MaxDepth - S (length stack))) by lia.
    split; intros [Hwf ?]; (split; [|done]); [destruct Hwf as (_ & ? & ?); by constructor|].
    inv Hwf. split_and!; [set_solver|done|done].
Qed.

(** C39. [checkJSON] accepts the token stream of a sequence of values exactly when it is one value
    nested at most [MaxDepth] deep in which no object has two members of one name: duplicate
    members, deeper nesting, an empty document and content after the first value are refused, and
    nothing else is. *)
Theorem checkJSON_exact vs :
  checkJSON (concat (map tokens_of vs), None) = None ↔ ∃ v, vs = [v] ∧ well_formed MaxDepth v.
Proof.
  unfold checkJSON. destruct vs as [|v vs]; simpl; [naive_solver|].
  rewrite (reads_value v [] 0 eq_refl (Nat.le_0_l _) _ _ : checkTokens _ _ _ _ = None ↔ _). simpl.
  destruct vs as [|u vs]; simpl; [naive_solver|].
  destruct (tokens_of u) as [|tok toks] eqn:Hu; [by destruct u|]. simpl. naive_solver.
Qed.

End Structure.

(** ** Fields of struct types *)

Lemma fieldStep_next fields members found next n :
  (list_max (map (λ f : fieldInfo * gotype, structDepth f.2) members) ≤ n)%nat →
  Forall (λ t, structDepth t ≤ n)%nat next →
  Forall (λ t, structDepth t ≤ n)%nat (fold_left (fieldStep fields) members (found, next)).2.
Proof.
  revert found next. induction members as [|[info t] members IH]; intros found next Hmax Hnext; simpl in *; [done|].
  assert (structDepth (match t with TPointer elem => elem | _ => t end) ≤ n)%nat by (destruct t; simpl in *; lia).
  repeat case_match; apply IH; try lia; try done. all: apply Forall_app; split; [done|by constructor].
Qed.

(** The structs of the next level are nested less deep. *)
Lemma levelStep_next fields level acc n :
  Forall (λ t, structDepth t ≤ S n)%nat level → Forall (λ t, structDepth t ≤ n)%nat acc.2.2 →
  Forall (λ t, structDepth t ≤ n)%nat (fold_left (levelStep fields) level acc).2.2.
Proof.
  intros Hlevel. revert acc. induction Hlevel as [|st level Hst _ IH]; intros acc Hacc; simpl; [done|].
  apply IH. unfold levelStep. destruct acc as [visited [found next]]. simpl in Hacc.
  destruct st as [| |name members| | |]; try done. case_match; [done|]. simpl in *.
  apply fieldStep_next; [lia|done].
Qed.

(** A level without structs adds nothing. *)
Lemma levelStep_flat fields level acc :
  Forall (λ t, structDepth t ≤ 0)%nat level → fold_left (levelStep fields) level acc = acc.
Proof.
  intros Hlevel. revert acc. induction Hlevel as [|st level Hst _ IH]; intros acc; simpl; [done|].
  rewrite IH. destruct acc as [visited found]. by destruct st; simpl in *; try lia.
Qed.

Lemma fieldsLoop_flat m level visited fields :
  Forall (λ t, structDepth t ≤ 0)%nat level → fieldsLoop m level visited fields = fields.
Proof.
  intros Hlevel. destruct m as [|m]; [done|]. destruct level as [|t level]; [done|]. cbn [fieldsLoop].
  rewrite levelStep_flat by done. by destruct m; simpl; rewrite (right_id_L ∅ (∪)).
Qed.

Lemma fieldsLoop_fuel n m level visited fields :
  Forall (λ t, structDepth t ≤ n)%nat level → Forall (λ t, structDepth t ≤ m)%nat level →
  fieldsLoop n level visited fields = fieldsLoop m level visited fields.
Proof.
  revert m level visited fields. induction n as [|n IH]; intros m level visited fields Hn Hm.
  { rewrite fieldsLoop_flat by done. by rewrite fieldsLoop_flat. }
  destruct m as [|m]; [by rewrite !fieldsLoop_flat|]. destruct level as [|t level]; [done|]. cbn [fieldsLoop].
  pose proof (levelStep_next fields (t :: level) (visited, (∅, [])) n Hn (Forall_nil_2 _)) as Hnn.
  pose proof (levelStep_next fields (t :: level) (visited, (∅, [])) m Hm (Forall_nil_2 _)) as Hmn.
  destruct (fold_left _ _ _) as [visited' [found next]]. simpl in *. by apply IH.
Qed.

(** The loop of [jsonFields] over the levels of embedded structs ends: more levels than the
    nesting of the type add no field. *)
Theorem jsonFields_terminates t n : (structDepth t ≤ n)%nat → fieldsLoop n [t] [] ∅ = jsonFields t.
Proof. intros Hn. apply fieldsLoop_fuel; by repeat constructor. Qed.

(** ** Member names *)

Section Members.
Context `{Platform}.

Lemma folded_None key fields :
  folded key fields = None ↔ ∀ name, is_Some (fields !! name) → EqualFold key name = false.
Proof.
  unfold folded. split.
  - intros Hnone name [t Ht]. destruct (EqualFold key name) eqn:Hfold; [|done].
    assert ((name, t) ∈ filter (λ f : string * gotype, EqualFold key f.1 = true) (map_to_list fields)) as Hin.
    { apply list_elem_of_filter. split; [done|]. by apply elem_of_map_to_list. }
    destruct (filter _ _); [by apply not_elem_of_nil in Hin|done].
  - intros Hall. destruct (filter _ _) as [|[name t] l] eqn:Hl; [done|].
    assert ((name, t) ∈ filter (λ f : string * gotype, EqualFold key f.1 = true) (map_to_list fields)) as Hin
      by (rewrite Hl; set_solver).
    apply list_elem_of_filter in Hin as [Hfold Hin%elem_of_map_to_list]. simpl in Hfold.
    by rewrite (Hall name) in Hfold by eauto.
Qed.

Definition member_ok (fields : gmap string gotype) (m : string * json) : Prop :=
  match fields !! m.1 with
  | Some field => checkMembers m.2 field = None
  | None => ∀ name, is_Some (fields !! name) → EqualFold m.1 name = false
  end.

Lemma checkMembers_struct t name fs ms :
  deref t = TStruct name fs →
  checkMembers (JObject ms) t = None ↔ Forall (member_ok (jsonFields (TStruct name fs))) ms.
Proof.
  intros Ht. cbn [checkMembers]. rewrite Ht. induction ms as [|[key m] ms IH]; [split; [constructor|done]|].
  rewrite Forall_cons, <-IH. unfold member_ok at 1. simpl. destruct (jsonFields _ !! key) as [field|].
  - destruct (checkMembers m field); [naive_solver|]. tauto.
  - rewrite <-folded_None. unfold foldedError. destruct (folded key _); simpl; [naive_solver|tauto].
Qed.

Lemma checkMembers_map t elem ms :
  deref t = TMap elem → checkMembers (JObject ms) t = None ↔ Forall (λ m, checkMembers m.2 elem = None) ms.
Proof.
  intros Ht. cbn [checkMembers]. rewrite Ht. induction ms as [|[key m] ms IH]; [split; [constructor|done]|].
  rewrite Forall_cons, <-IH. simpl. destruct (checkMembers m elem); [naive_solver|tauto].
Qed.

Lemma checkMembers_slice t elem items :
  deref t = TSlice elem → checkMembers (JArray items) t = None ↔ Forall (λ v, checkMembers v elem = None) items.
Proof.
  intros Ht. cbn [checkMembers]. rewrite Ht. induction items as [|v items IH]; [split; [constructor|done]|].
  rewrite Forall_cons, <-IH. destruct (checkMembers v elem); [naive_solver|tauto].
Qed.

(** The values inside a value with the types they decode into: members of structs by their exact
    names, members of maps and items of slices. *)
Inductive decodes : json → gotype → json → gotype → Prop :=
| decodes_self v t : decodes v t v t
| decodes_field t name fs ms key m field v' t' :
    deref t = TStruct name fs → (key, m) ∈ ms → jsonFields (TStruct name fs) !! key = Some field →
    decodes m field v' t' → decodes (JObject ms) t v' t'
| decodes_value t elem ms key m v' t' :
    deref t = TMap elem → (key, m) ∈ ms → decodes m elem v' t' → decodes (JObject ms) t v' t'
| decodes_item t elem items v v' t' :
    deref t = TSlice elem → v ∈ items → decodes v elem v' t' → decodes (JArray items) t v' t'.

Lemma checkMembers_decodes v t v' t' :
  decodes v t v' t' → checkMembers v t = None → checkMembers v' t' = None.
Proof.
  induction 1 as [|t name fs ms key m field v' t' Ht Hin Hf _ IH|t elem ms key m v' t' Ht Hin _ IH|
                  t elem items v v' t' Ht Hin _ IH]; [done| | |].
  - rewrite (checkMembers_struct _ _ _ _ Ht), Forall_forall. intros Hall. apply IH.
    specialize (Hall _ Hin). unfold member_ok in Hall. simpl in Hall. by rewrite Hf in Hall.
  - rewrite (checkMembers_map _ _ _ Ht), Forall_forall. intros Hall. apply IH, (Hall _ Hin).
  - rewrite (checkMembers_slice _ _ _ Ht), Forall_forall. intros Hall. apply IH, (Hall _ Hin).
Qed.

Lemma well_formed_decodes v t v' t' d : decodes v t v' t' → well_formed d v → ∃ d', well_formed d' v'.
Proof.
  intros Hdec. revert d. induction Hdec as [|t name fs ms key m field v' t' Ht Hin Hf _ IH|
    t elem ms key m v' t' Ht Hin _ IH|t elem items v v' t' Ht Hin _ IH]; intros d Hwf; [by exists d|..].
  all: inv Hwf as [| |? ? Hall|? ? _ Hall]; rewrite Forall_forall in Hall; eapply IH; apply (Hall _ Hin).
Qed.

Context `{JSONText}.

(** [encoding/json] tokenizes and decodes the same text: the tokens begin with those of the first
    value. *)
Definition same_text : Prop :=
  ∀ data v, json_Decode data = Ok v → ∃ rest err, json_Tokens data = (tokens_of v ++ rest, err).

(** C40. A document that is decoded strictly decodes without guessing: wherever an object of it is
    decoded into a struct, its members have distinct names, and each is the exact name of a field
    or matches no field even when case is ignored. So no member can set or shadow a field under
    another spelling of its name. *)
Theorem UnmarshalStrict_exact {A} (unmarshal : bytes → Res A) t data a :
  same_text → UnmarshalStrict unmarshal (Some t) data = Ok a →
  ∃ v, json_Decode data = Ok v ∧ well_formed MaxDepth v ∧
    ∀ ms t' name fs, decodes v t (JObject ms) t' → deref t' = TStruct name fs →
      NoDup (map fst ms) ∧
      ∀ key, key ∈ map fst ms →
        is_Some (jsonFields (TStruct name fs) !! key) ∨
        ∀ field, is_Some (jsonFields (TStruct name fs) !! field) → EqualFold key field = false.
Proof.
  intros Hsame. unfold UnmarshalStrict, checkJSON, checkMemberNames.
  destruct (checkTokens _ _ _ _) eqn:Htoks; [done|].
  destruct (json_Decode data) as [v|err] eqn:Hv; [|done]. destruct (checkMembers v t) eqn:Hcheck; [done|].
  intros _. exists v. destruct (Hsame _ _ Hv) as (rest & err & Hdata). rewrite Hdata in Htoks.
  apply (reads_value v [] 0 eq_refl (Nat.le_0_l _)) in Htoks as [Hwf _]. simpl in Hwf.
  split_and!; [done|done|]. intros ms t' name fs Hdec Ht'.
  pose proof (checkMembers_decodes _ _ _ _ Hdec Hcheck) as Hms.
  rewrite (checkMembers_struct _ _ _ _ Ht'), Forall_forall in Hms.
  destruct (well_formed_decodes _ _ _ _ _ Hdec Hwf) as [d' Hd']. inv Hd'. split; [done|].
  intros key ([key' m] & -> & Hin)%list_elem_of_fmap. simpl. specialize (Hms _ Hin). unfold member_ok in Hms. simpl in Hms.
  destruct (jsonFields _ !! key'); [by left|by right].
Qed.

End Members.

(** ** A protected header *)

(** A struct that embeds the type of a protected header. *)
Definition embedding_type : gotype :=
  TStruct "outer" [(mkField "headerJSON" "" true true, TPointer header_type);
                   (mkField "Alg" "alg,omitempty" false true, TSlice TOther)].

Lemma jsonFields_terminates_witness :
  fieldsLoop 9 [embedding_type] [] ∅ = jsonFields embedding_type ∧
  size (jsonFields embedding_type) = 7%nat.
Proof.
  split; [apply (jsonFields_terminates embedding_type 9); vm_compute; repeat constructor|by vm_compute].
Defined.

Definition header_document : json := JObject [("alg", JString "ES256"); ("url", JString "u"); ("x", JScalar)].

#[local] Instance header_text : JSONText := {|
  json_Tokens _ := (tokens_of header_document, None);
  json_Decode _ := Ok header_document
|}.

Definition header_value : headerJSON := mkHeaderJSON (Some "ES256") None (Some "u") None None None None.

#[local] Instance header_structs : JSONStructs := {|
  Unmarshal_envelope _ := Err ErrPanic;
  Unmarshal_header _ := Ok header_value;
  Unmarshal_jwk _ := Err ErrPanic
|}.

Lemma UnmarshalStrict_exact_witness :
  json_header (StrictJSON := strictJSON) [] = Ok header_value ∧ NoDup ["alg"; "url"; "x"].
Proof.
  assert (json_header (StrictJSON := strictJSON) [] = Ok header_value) as Hok by by vm_compute.
  split; [exact Hok|].
  destruct (UnmarshalStrict_exact Unmarshal_header (TPointer header_type) [] header_value)
    as (v & [= <-] & _ & Hexact).
  - intros data v [= <-]. exists [], None. by rewrite app_nil_r.
  - exact Hok.
  - destruct (Hexact _ (TPointer header_type) _ _ (decodes_self _ _) eq_refl) as [Hnd _]. exact Hnd.
Defined.
