(* ===== verification/SystemProps.v ===== *)
(** * What the server as a whole guarantees

    Theorems about every history that requests and workers can reach, in any interleaving, with a
    store that may fail or lose answers and host interfaces that answer as they like. Each is
    applied to the run of SystemDemo.v. *)

From S2P Require Import Prelude Status Problem Resource Base64 Netip StoreSpec Prog Host Platform Identifier Jws Chain ChainProps Worker Issuance Wire Http Accounts Orders Revoke Server Lifecycle System SystemSteps SystemRules SystemRun SystemDemo.

(** ** Facts of acceptable histories *)

Section Facts.
Context `{Platform}.

Lemma called_ok w ev w0 : hist_ok w → (Called ev :: w0) `suffix_of` w → call_ok w0 ev ∧ hist_ok w0.
Proof. intros Hw Hle. apply hist_ok_suffix in Hle; [|done]. by destruct Hle. Qed.

(** What every status change of an order, authorization or challenge satisfies. *)
Lemma order_step_status o o' :
  order_step o o' → rtc (λ x y, OrderStatus_CanTransition x y = true) (ord_Status o) (ord_Status o').
Proof.
  intros (u & Hnext & ->). destruct Hnext as [o|o st Hst Hcan|o Hund|o der Hst|o st Hst Hnone|o p result Hst|o st id Hst Hiss];
    simpl; [done|rewrite Hst; by apply rtc_once| |rewrite Hst; by apply rtc_once|done|rewrite Hst; by apply rtc_once|
    rewrite Hst; by apply rtc_once].
  unfold spec_undispatched in Hund. destruct (ord_Status o); try done; by apply rtc_once.
Qed.

Lemma authz_step_status z z' :
  authz_step z z' → rtc (λ x y, AuthorizationStatus_CanTransition x y = true) (az_Status z) (az_Status z').
Proof.
  intros (u & Hnext & ->). destruct Hnext as [z|z ????? Hst|z Hst|z [Hst|Hst]];
    simpl; [done|rewrite Hst; by apply rtc_once..].
Qed.

Lemma challenge_step_status c c' :
  challenge_step c c' → rtc (λ x y, ChallengeStatus_CanTransition x y = true) (ch_Status c) (ch_Status c').
Proof.
  intros (u & Hnext & ->). destruct Hnext as [c ?? Hst|c ? Hst|c st ?? Hst [->| ->]];
    simpl; [rewrite Hst; by apply rtc_once|done|rewrite Hst; by apply rtc_once..].
Qed.

Lemma rtc_map {V S} (step : V → V → Prop) (R : S → S → Prop) (f : V → S) v v' :
  (∀ x y, step x y → rtc R (f x) (f y)) → rtc step v v' → rtc R (f v) (f v').
Proof. intros Hstep. induction 1 as [|x y z Hxy _ IH]; [done|]. etrans; [by apply Hstep|done]. Qed.

(** A valid authorization was validated or approved. *)
Lemma authz_backed w id z :
  hist_ok w → as_authzs (current w) !! id = Some z → az_Status z = AuthorizationValid →
  validated w z ∨ approved w z.
Proof.
  intros Hw Hz Hvalid. destruct (inv_authzs _ _ (hist_inv _ Hw) _ _ Hz) as [_ [_ Happ Hprf]].
  destruct (az_PreApproved z); [right; by apply Happ|left; by apply Hprf].
Qed.


(** The order and dispatch a request to issue was made for. *)
Definition issue_of (req : IssueRequest) (o : Order) (st : IssuanceState) : Prop :=
  iq_OrderID req = ord_ID o ∧ iq_AccountID req = ord_AccountID o ∧
  iq_OperationID req = is_OperationID st ∧ iq_CSRDER req = ord_CSR o ∧
  iq_Identifiers req = ord_Identifiers o ∧ iq_Validations req = is_Validations st ∧
  iq_NotBefore req = ord_NotBefore o ∧ iq_NotAfter req = issuedNotAfter o ∧
  iq_Deadline req = is_Deadline st ∧ iq_Profile req = ord_Profile o.

(** At the end of the history, the order a request was made for still says so. *)
Lemma issued_as w req :
  hist_ok w → Called (EvIssue req) ∈ w →
  ∃ o st, as_orders (current w) !! iq_OrderID req = Some o ∧ ord_Issuance o = Some st ∧ issue_of req o st.
Proof.
  intros Hw Hin. apply list_elem_of_split in Hin as (w2 & w0 & ->).
  destruct (called_ok _ (EvIssue req) w0 Hw) as [Hcall Hw0]; [by eexists|].
  destruct Hcall as (o & st & (w1 & Hle1 & Ho) & Hproc & Hst & Hreq).
  set (w := w2 ++ Called (EvIssue req) :: w0) in *.
  assert (w1 `suffix_of` w) as Hle by (etrans; [done|]; exists (w2 ++ [Called (EvIssue req)]); by rewrite <-app_assoc).
  destruct (orders_later w1 w Hle Hw _ _ Ho) as (o' & Ho' & Hrtc).
  pose proof (order_issuance_kept _ _ _ Hrtc Hst) as Hst'.
  destruct (order_csr_kept _ _ Hrtc) as [Hcsr _]; [by rewrite Hproc..|].
  apply (rtc_in _ order_fixed) in Hrtc; [|apply order_step_fixed].
  destruct Hrtc as (Hid & Hacc & _ & Hidents & Hnb & Hna & _ & _ & Hprof & _).
  assert (issuedNotAfter o' = issuedNotAfter o) as Hina by (unfold issuedNotAfter; by rewrite Hst, Hst', Hna).
  destruct Hreq as (H1 & H2 & H3 & H4 & H5 & H6 & H7 & H8 & H9 & H10).
  exists o', st. rewrite H1. split_and!; [done|done|]. repeat split; congruence.
Qed.

(** What the publication of a chain checked of the order holds of its later versions. *)
Lemma chain_ok_fixed chain csr o o' now leaf :
  order_fixed o o' → ord_Issuance o' = ord_Issuance o → chain_ok chain csr o now leaf →
  chain_ok chain csr o' now leaf.
Proof.
  intros (_ & _ & _ & Hids & Hnb & Hna & _) Hst [Hparsed Hkey [] Hnames Hca].
  assert (issuedNotAfter o' = issuedNotAfter o) as Hina by (unfold issuedNotAfter; by rewrite Hst, Hna).
  assert (order_bound o' = order_bound o) as Hbound by (unfold order_bound; by rewrite Hst).
  split; [done|done| | |].
  - by split; rewrite ?Hina, ?Hbound, ?Hnb.
  - unfold order_granted in *. destruct Hnames as [? ? ? ? Hnames]. split; [done..|]. by rewrite Hids, Hst.
  - unfold ca_ok. by rewrite Hids.
Qed.

(** Two versions of one order. *)
Lemma order_later w w' id o :
  hist_ok w' → w `suffix_of` w' → as_orders (current w) !! id = Some o →
  ∃ o', as_orders (current w') !! id = Some o' ∧ rtc order_step o o' ∧ order_fixed o o'.
Proof.
  intros Hw Hle Ho. destruct (orders_later _ _ Hle Hw _ _ Ho) as (o' & Ho' & Hrtc).
  exists o'. split_and!; [done|done|]. apply (rtc_in _ order_fixed) in Hrtc; [done|apply order_step_fixed].
Qed.

(** A status that cannot change does not. *)
Lemma rtc_stuck {S} (can : S → S → bool) x y :
  (∀ z, can x z = false) → rtc (λ x y, can x y = true) x y → y = x.
Proof. intros Hstuck Hrtc. inv Hrtc as [|? z ? Hstep _]; [done|]. by rewrite Hstuck in Hstep. Qed.

End Facts.

(** ** Runs *)

Section Props.
Context `{Platform} `{StrictJSON} `{PayloadJSON}.
Context (sha256_size : ∀ b, length (sha256_Sum256 b) = 32%nat).


(** C3. One order is one operation of the CA: whatever crashes, retries and concurrent workers
    there are, two requests to issue for the same order carry the same operation ID, certificate
    request, identifiers, validity, evidence, deadline and profile. *)
Theorem issue_one_operation w req req' :
  reachable w → Called (EvIssue req) ∈ w → Called (EvIssue req') ∈ w →
  iq_OrderID req = iq_OrderID req' →
  iq_OperationID req = iq_OperationID req' ∧ iq_AccountID req = iq_AccountID req' ∧
  iq_CSRDER req = iq_CSRDER req' ∧ iq_Identifiers req = iq_Identifiers req' ∧
  iq_NotBefore req = iq_NotBefore req' ∧ iq_NotAfter req = iq_NotAfter req' ∧
  iq_Validations req = iq_Validations req' ∧ iq_Deadline req = iq_Deadline req' ∧
  iq_Profile req = iq_Profile req'.
Proof.
  intros Hw Hin Hin' Hid. apply reachable_ok in Hw; [|done].
  destruct (issued_as w req Hw Hin) as (o & st & Ho & Hst & Hreq).
  destruct (issued_as w req' Hw Hin') as (o' & st' & Ho' & Hst' & Hreq').
  rewrite Hid in Ho. simplify_eq. unfold issue_of in *. destruct_and!. repeat split; congruence.
Qed.

(** C4. Every certificate the server publishes was checked against its order. The order of a stored
    certificate has a dispatch, the account and evidence of the certificate are those of the
    order, and the chain has the key of the order's certificate request, the names of the order
    and at most names granted by authority tokens, and a validity inside what the order and the
    tokens allow, each element signed by the next. The certificate is named by the hash of its
    leaf. *)
Theorem certificate_checked w id c :
  reachable w → as_certificates (current w) !! id = Some c →
  ∃ o st csr now leaf der,
    as_orders (current w) !! crt_OrderID c = Some o ∧ ord_Issuance o = Some st ∧
    x509_ParseCertificateRequest (ord_CSR o) = Ok csr ∧ chain_ok (crt_Chain c) csr o now leaf ∧
    head (crt_Chain c) = Some der ∧ id = certificateID der ∧
    crt_AccountID c = ord_AccountID o ∧ crt_Validations c = is_Validations st.
Proof.
  intros Hw Hc. apply reachable_ok in Hw; [|done].
  destruct (inv_certs _ _ (hist_inv _ Hw) _ _ Hc) as [Hid Hpub].
  destruct Hpub as (o & st & csr & now & leaf & der & (w0 & Hle & Ho) & Hproc & Hst & Hcsr & Hchain & Hpub).
  destruct Hpub as (Hhead & Hcid & Hoid & Hacc & Hval).
  destruct (order_later _ _ _ _ Hw Hle Ho) as (o' & Ho' & Hrtc & Hfixed).
  pose proof (order_issuance_kept _ _ _ Hrtc Hst) as Hst'.
  destruct (order_csr_kept _ _ Hrtc) as [Hcsr' _]; [by rewrite Hproc..|].
  apply checkChain_inv in Hchain. exists o', st, csr, now, leaf, der.
  rewrite Hoid, Hcsr'. split_and!; [done..| |done|congruence| |done].
  - eapply chain_ok_fixed; [done|congruence|done].
  - by destruct Hfixed as (_ & -> & _).
Qed.

(** C6. Authorizations are what they say: a stored authorization is listed by its order, which
    belongs to the same account and has its identifier, and a valid one was validated by a
    validator that accepted a challenge of it for its identifier, or approved by the policy of the
    host when its order was created. *)
Theorem authorization_proved w id z :
  reachable w → as_authzs (current w) !! id = Some z →
  (∃ o, as_orders (current w) !! az_OrderID z = Some o ∧ id ∈ ord_AuthorizationIDs o ∧
        ord_AccountID o = az_AccountID z ∧ orderIdentifier z ∈ ord_Identifiers o) ∧
  (az_Status z = AuthorizationValid → validated w z ∨ approved w z).
Proof.
  intros Hw Hz. apply reachable_ok in Hw; [|done]. split; [|by eapply authz_backed].
  destruct (inv_authzs _ _ (hist_inv _ Hw) _ _ Hz) as [Hid [(o & Ho & Hin) _ _]]. rewrite Hid in Hin.
  exists o. destruct (inv_orders _ _ (hist_inv _ Hw) _ _ Ho) as [_ Hok].
  apply list_elem_of_lookup in Hin as [i Hi].
  destruct (Forall2_lookup_l _ _ _ _ _ (ok_authzs _ _ _ Hok) Hi) as (ident & Hident & z' & Hz' & _ & Hacc & Hor).
  simplify_eq. split_and!; [done|by eapply list_elem_of_lookup_2|done|by eapply list_elem_of_lookup_2].
Qed.

(** C10. The life of an order: it is never removed, its account, identifiers, validity,
    authorizations, profile and expiry never change, its status moves only along the transitions
    of RFC 8555 section 7.1.6, a dispatch is never replaced, and two versions with the same
    revision are the same. *)
Theorem order_lifecycle w w' id o :
  reachable w' → w `suffix_of` w' → as_orders (current w) !! id = Some o →
  ∃ o', as_orders (current w') !! id = Some o' ∧ order_fixed o o' ∧
    rtc (λ x y, OrderStatus_CanTransition x y = true) (ord_Status o) (ord_Status o') ∧
    (OrderStatus_Terminal (ord_Status o) = true → ord_Status o' = ord_Status o) ∧
    (∀ st, ord_Issuance o = Some st → ord_Issuance o' = Some st) ∧
    (ord_Revision o ≤ ord_Revision o')%Z ∧ (ord_Revision o = ord_Revision o' → o' = o).
Proof.
  intros Hw Hle Ho. apply reachable_ok in Hw; [|done].
  destruct (order_later _ _ _ _ Hw Hle Ho) as (o' & Ho' & Hrtc & Hfixed). exists o'.
  pose proof (rtc_map _ _ ord_Status _ _ order_step_status Hrtc) as Hstatus.
  destruct (rtc_rev _ _ order_step_rev _ _ Hrtc) as [Hrev Heq].
  split_and!; [done|done|done| |by intros st; apply order_issuance_kept|done|naive_solver].
  intros Hterm. eapply rtc_stuck; [|done]. by destruct (ord_Status o).
Qed.

(** C13. The life of an authorization: its identifier, account, order and challenges never change
    and its status moves only along the transitions of RFC 8555 section 7.1.6, so one that failed
    or was deactivated never becomes valid again. *)
Theorem authorization_lifecycle w w' id z :
  reachable w' → w `suffix_of` w' → as_authzs (current w) !! id = Some z →
  ∃ z', as_authzs (current w') !! id = Some z' ∧ authz_fixed z z' ∧
    rtc (λ x y, AuthorizationStatus_CanTransition x y = true) (az_Status z) (az_Status z') ∧
    (AuthorizationStatus_Terminal (az_Status z) = true → az_Status z' = az_Status z) ∧
    (az_Revision z ≤ az_Revision z')%Z ∧ (az_Revision z = az_Revision z' → z' = z).
Proof.
  intros Hw Hle Hz. apply reachable_ok in Hw; [|done].
  destruct (authzs_later _ _ Hle Hw _ _ Hz) as (z' & Hz' & Hrtc). exists z'.
  pose proof (rtc_map _ _ az_Status _ _ authz_step_status Hrtc) as Hstatus.
  destruct (rtc_rev _ _ authz_step_rev _ _ Hrtc) as [Hrev Heq].
  apply (rtc_in _ authz_fixed) in Hrtc; [|apply authz_step_fixed].
  split_and!; [done|done|done| |done|naive_solver].
  intros Hterm. eapply rtc_stuck; [|done]. by destruct (az_Status z).
Qed.

(** C14. The life of a challenge: its type, token, authorization and account never change, its
    status moves only forward, and a settled challenge stays settled. *)
Theorem challenge_lifecycle w w' id c :
  reachable w' → w `suffix_of` w' → as_challenges (current w) !! id = Some c →
  ∃ c', as_challenges (current w') !! id = Some c' ∧ challenge_fixed c c' ∧
    rtc (λ x y, ChallengeStatus_CanTransition x y = true) (ch_Status c) (ch_Status c') ∧
    (ChallengeStatus_Terminal (ch_Status c) = true → c' = c).
Proof.
  intros Hw Hle Hc. apply reachable_ok in Hw; [|done].
  destruct (challenges_later _ _ Hle Hw _ _ Hc) as (c' & Hc' & Hrtc). exists c'.
  pose proof (rtc_map _ _ ch_Status _ _ challenge_step_status Hrtc) as Hstatus.
  split_and!; [done| |done|].
  - apply (rtc_in _ challenge_fixed) in Hrtc; [done|apply challenge_step_fixed].
  - intros Hterm. destruct Hrtc as [|c c1 c' (u & Hnext & ->) _]; [done|].
    destruct Hnext as [c ?? Hst|c ? Hst|c ??? Hst]; by rewrite Hst in Hterm.
Qed.

(** C17. The life of a certificate: its chain, validity, order, account and evidence never change,
    and a revoked certificate is never changed again except that a replacement, and with it the next
    revision, may be recorded. *)
Theorem certificate_lifecycle w w' id c :
  reachable w' → w `suffix_of` w' → as_certificates (current w) !! id = Some c →
  ∃ c', as_certificates (current w') !! id = Some c' ∧ cert_fixed c c' ∧
    (crt_Revoked c = true →
     c' = {| c with crt_ReplacedByOrderID := crt_ReplacedByOrderID c'; crt_Revision := crt_Revision c' |}).
Proof.
  intros Hw Hle Hc. apply reachable_ok in Hw; [|done].
  destruct (certs_later _ _ Hle Hw _ _ Hc) as (c' & Hc' & Hrtc). exists c'. split_and!; [done| |].
  - apply (rtc_in _ cert_fixed) in Hrtc; [done|apply cert_step_fixed].
  - clear Hc Hc'. induction Hrtc as [x|x y z (u & Hnext & ->) _ IH]; [by destruct x|]. intros Hrev.
    destruct Hnext as [x oid| |]; [|congruence..]. specialize (IH Hrev). destruct x, z. simpl in *. by simplify_eq.
Qed.

(** C19. The life of an account: it is never removed, and one that was deactivated is never changed
    again. *)
Theorem account_lifecycle w w' id b :
  reachable w' → w `suffix_of` w' → as_accounts (current w) !! id = Some b →
  ∃ b', as_accounts (current w') !! id = Some b' ∧ acct_ID b' = id ∧ acct_KeyThumbprint b' ≠ "" ∧
    (acct_Status b ≠ AccountValid → b' = b).
Proof.
  intros Hw Hle Hb. apply reachable_ok in Hw; [|done].
  destruct (accounts_later _ _ Hle Hw _ _ Hb) as (b' & Hb' & Hrtc). exists b'.
  destruct (inv_accounts _ _ (hist_inv _ Hw) _ _ Hb') as [? ?]. split_and!; [done..|].
  intros Hst. destruct Hrtc as [|b b1 b' (u & Hnext & ->) _]; [done|]. by destruct Hnext.
Qed.

(** C15. Orders follow their authorizations: at every moment an order has one authorization of its
    account for each of its identifiers, a ready order or one that waits for its dispatch has only
    valid ones, and a pending order has one that is not valid. *)
Theorem order_authorizations w id o :
  reachable w → as_orders (current w) !! id = Some o →
  Forall2 (λ zid ident, ∃ z, as_authzs (current w) !! zid = Some z ∧ az_OrderID z = id ∧
             az_AccountID z = ord_AccountID o ∧ orderIdentifier z = ident)
    (ord_AuthorizationIDs o) (ord_Identifiers o) ∧
  (ord_Status o = OrderReady ∨ (ord_Status o = OrderProcessing ∧ ord_Issuance o = None) →
   Forall (authz_valid (current w)) (ord_AuthorizationIDs o)) ∧
  (ord_Status o = OrderPending → Exists (λ zid, ¬ authz_valid (current w) zid) (ord_AuthorizationIDs o)).
Proof.
  intros Hw Ho. apply reachable_ok in Hw; [|done].
  destruct (inv_orders _ _ (hist_inv _ Hw) _ _ Ho) as [<- [Hz Hpend Hready _ _ _ _ _]].
  split_and!; [done|done|]. intros Hst. apply Exists_exists. by apply Hpend.
Qed.

(** An order is valid exactly when its certificate is published: a valid order was dispatched
    and names a stored certificate of its own, and an order of any other status names none. *)
Theorem order_certificate w id o :
  reachable w → as_orders (current w) !! id = Some o →
  (ord_Status o = OrderValid →
   is_Some (ord_Issuance o) ∧
   ∃ c, as_certificates (current w) !! ord_CertificateID o = Some c ∧ crt_OrderID c = id) ∧
  (ord_Status o ≠ OrderValid → ord_CertificateID o = "").
Proof.
  intros Hw Ho. apply reachable_ok in Hw; [|done].
  by destruct (inv_orders _ _ (hist_inv _ Hw) _ _ Ho) as [<- [_ _ _ _ _ _ ? ?]].
Qed.

(** C18. The CA is asked to revoke only what the store already knows: before the call, a stored
    certificate with that leaf carried the operation and the reason of the request. *)
Theorem revoke_recorded w w0 req :
  reachable w → (Called (EvRevoke req) :: w0) `suffix_of` w →
  ∃ w1 c, w1 `suffix_of` w0 ∧ as_certificates (current w1) !! crt_ID c = Some c ∧
    head (crt_Chain c) = Some (rq_DER req) ∧ crt_ID c = certificateID (rq_DER req) ∧
    crt_RevocationOperationID c = rq_OperationID req ∧ crt_RevocationReason c = rq_Reason req.
Proof.
  intros Hw Hle. apply reachable_ok in Hw; [|done]. destruct (called_ok _ _ _ Hw Hle) as [Hcall Hw0].
  destruct Hcall as (c & (w1 & Hle1 & Hc) & Hhead & Hop & Hreason). exists w1, c.
  pose proof (hist_ok_suffix _ _ Hle1 Hw0) as Hw1.
  destruct (inv_certs _ _ (hist_inv _ Hw1) _ _ Hc) as [_ Hpub]. destruct Hpub as (?&?&?&?&?&?&?&?&?&?&?&?&?&?).
  split_and!; [done..| |done|done]. congruence.
Qed.

End Props.

(** ** The theorems at the run of SystemDemo.v *)


Lemma issue_one_operation_witness :
  ∃ req req', (Called (EvIssue req) :: drop 11 demo_revoked) `suffix_of` demo_revoked ∧
    (Called (EvIssue req') :: drop 18 demo_revoked) `suffix_of` demo_revoked ∧
    iq_OrderID req = demo_order ∧ iq_OrderID req' = demo_order ∧
    iq_OperationID req = iq_OperationID req'.
Proof.
  destruct (issue_at 10 demo_revoked demo_order) as (req & Hle & Hid); [by vm_compute|].
  destruct (issue_at 17 demo_revoked demo_order) as (req' & Hle' & Hid'); [by vm_compute|].
  exists req, req'. split_and!; [done..|].
  apply (issue_one_operation demo_sum_size demo_revoked req req' demo_revoked_reachable);
    [eapply elem_of_suffix; [exact Hle|]; apply elem_of_cons; by left
    |eapply elem_of_suffix; [exact Hle'|]; apply elem_of_cons; by left
    |by rewrite Hid, Hid'].
Defined.

Lemma certificate_checked_witness :
  ∃ c o, as_certificates (current demo_revoked) !! certificateID demo_leaf = Some c ∧
    as_orders (current demo_revoked) !! crt_OrderID c = Some o ∧ crt_AccountID c = ord_AccountID o.
Proof.
  destruct (checked_Some (as_certificates (current demo_revoked) !! certificateID demo_leaf) crt_Revoked)
    as (c & Hc & _); [by vm_compute|].
  destruct (certificate_checked demo_sum_size _ _ _ demo_revoked_reachable Hc)
    as (o & st & csr & now & leaf & der & Ho & _ & _ & _ & _ & _ & Hacc & _).
  exists c, o. by split_and!.
Defined.

Lemma authorization_proved_witness :
  ∃ z, as_authzs (current demo_revoked) !! demo_authz = Some z ∧ az_Status z = AuthorizationValid ∧
    (validated demo_revoked z ∨ approved demo_revoked z).
Proof.
  destruct (checked_Some (as_authzs (current demo_revoked) !! demo_authz)
              (λ z, az_Status z == AuthorizationValid)) as (z & Hz & Hst); [by vm_compute|]. go_bool.
  exists z. split_and!; [done|done|].
  by apply (authorization_proved demo_sum_size _ _ _ demo_revoked_reachable Hz).
Defined.

Lemma order_lifecycle_witness :
  ∃ o o', as_orders (current (drop 50 demo_revoked)) !! demo_order = Some o ∧
    ord_Status o = OrderPending ∧ as_orders (current demo_revoked) !! demo_order = Some o' ∧
    order_fixed o o'.
Proof.
  destruct (checked_Some (as_orders (current (drop 50 demo_revoked)) !! demo_order)
              (λ o, ord_Status o == OrderPending)) as (o & Ho & Hst); [by vm_compute|]. go_bool.
  destruct (order_lifecycle demo_sum_size _ _ _ _ demo_revoked_reachable (drop_suffix 50 _) Ho)
    as (o' & Ho' & Hfixed & _).
  exists o, o'. by split_and!.
Defined.

Lemma authorization_lifecycle_witness :
  ∃ z z', as_authzs (current (drop 50 demo_revoked)) !! demo_authz = Some z ∧
    az_Status z = AuthorizationPending ∧ as_authzs (current demo_revoked) !! demo_authz = Some z' ∧
    authz_fixed z z'.
Proof.
  destruct (checked_Some (as_authzs (current (drop 50 demo_revoked)) !! demo_authz)
              (λ z, az_Status z == AuthorizationPending)) as (z & Hz & Hst); [by vm_compute|]. go_bool.
  destruct (authorization_lifecycle demo_sum_size _ _ _ _ demo_revoked_reachable (drop_suffix 50 _) Hz)
    as (z' & Hz' & Hfixed & _).
  exists z, z'. by split_and!.
Defined.

Lemma challenge_lifecycle_witness :
  ∃ c c', as_challenges (current (drop 45 demo_revoked)) !! demo_challenge = Some c ∧
    ch_Status c = ChallengeProcessing ∧
    as_challenges (current demo_revoked) !! demo_challenge = Some c' ∧ challenge_fixed c c'.
Proof.
  destruct (checked_Some (as_challenges (current (drop 45 demo_revoked)) !! demo_challenge)
              (λ c, ch_Status c == ChallengeProcessing)) as (c & Hc & Hst); [by vm_compute|]. go_bool.
  destruct (challenge_lifecycle demo_sum_size _ _ _ _ demo_revoked_reachable (drop_suffix 45 _) Hc)
    as (c' & Hc' & Hfixed & _).
  exists c, c'. by split_and!.
Defined.

Lemma certificate_lifecycle_witness :
  ∃ c c', as_certificates (current (drop 3 demo_later)) !! certificateID demo_leaf = Some c ∧
    crt_Revoked c = true ∧
    as_certificates (current demo_later) !! certificateID demo_leaf = Some c' ∧ cert_fixed c c' ∧
    c' = {| c with crt_ReplacedByOrderID := crt_ReplacedByOrderID c'; crt_Revision := crt_Revision c' |}.
Proof.
  destruct (checked_Some (as_certificates (current (drop 3 demo_later)) !! certificateID demo_leaf) crt_Revoked)
    as (c & Hc & Hrev); [by vm_compute|].
  destruct (certificate_lifecycle demo_sum_size _ _ _ _ demo_later_reachable (drop_suffix 3 _) Hc)
    as (c' & Hc' & Hfixed & Hkept).
  exists c, c'. split_and!; [done..|by apply Hkept].
Defined.

Lemma account_lifecycle_witness :
  ∃ b', as_accounts (current demo_revoked) !! demo_id 0 = Some b' ∧ acct_ID b' = demo_id 0.
Proof.
  destruct (checked_Some (as_accounts (current (drop 57 demo_revoked)) !! demo_id 0)
              (λ b, acct_Status b == AccountValid)) as (b & Hb & _); [by vm_compute|].
  destruct (account_lifecycle demo_sum_size _ _ _ _ demo_revoked_reachable (drop_suffix 57 _) Hb)
    as (b' & Hb' & Hid & _).
  exists b'. split; [exact Hb'|exact Hid].
Defined.

Lemma order_authorizations_witness :
  ∃ o, as_orders (current demo_revoked) !! demo_order = Some o ∧
    length (ord_AuthorizationIDs o) = length (ord_Identifiers o).
Proof.
  destruct (checked_Some (as_orders (current demo_revoked) !! demo_order)
              (λ o, ord_Status o == OrderValid)) as (o & Ho & _); [by vm_compute|].
  exists o. split; [done|]. eapply Forall2_length.
  apply (order_authorizations demo_sum_size _ _ _ demo_revoked_reachable Ho).
Defined.

Lemma order_certificate_witness :
  ∃ o c, as_orders (current demo_revoked) !! demo_order = Some o ∧
    as_certificates (current demo_revoked) !! ord_CertificateID o = Some c ∧ crt_OrderID c = demo_order.
Proof.
  destruct (checked_Some (as_orders (current demo_revoked) !! demo_order)
              (λ o, ord_Status o == OrderValid)) as (o & Ho & Hst); [by vm_compute|]. go_bool.
  destruct (order_certificate demo_sum_size _ _ _ demo_revoked_reachable Ho) as [Hvalid _].
  destruct (Hvalid Hst) as (_ & c & Hc & Hcid). exists o, c. by split_and!.
Defined.

Lemma revoke_recorded_witness :
  ∃ req w1 c, rq_DER req = demo_leaf ∧ w1 `suffix_of` demo_revoked ∧
    as_certificates (current w1) !! crt_ID c = Some c ∧
    crt_RevocationOperationID c = rq_OperationID req.
Proof.
  destruct (revoke_at 2 demo_revoked demo_leaf) as (req & Hle & Hder); [by vm_compute|].
  destruct (revoke_recorded demo_sum_size _ _ _ demo_revoked_reachable Hle)
    as (w1 & c & Hw1 & Hc & _ & _ & Hop & _).
  exists req, w1, c. split_and!; [done| |done|done]. etrans; [exact Hw1|apply drop_suffix].
Defined.
