(* ===== verification/Memstore.v ===== *)
(** * The in-memory store (src/memstore/memstore.go)

    The maps of [memstore.Store] and every operation on them. An operation takes the result of
    [ctx.Err()] and the store and returns its Go results with the store it leaves behind; the
    records a Go caller passes by pointer and sees updated (a revision, a cleared lease) are part
    of the result. The mutex makes each operation one atomic step. The clone functions copy
    values, so they are the identity on the immutable records of the model. *)

From S2P Require Import Prelude Status Problem Resource.

(** ** State *)

(** Indexes authorizations by account and complete identifier, including wildcard scope. *)
Record authorizationKey : Type := mkAuthorizationKey {
  ak_accountID : string;
  ak_identifier : Identifier
}.

#[export] Instance authorizationKey_eq_dec : EqDecision authorizationKey.
Proof. solve_decision. Defined.

#[export] Instance authorizationKey_countable : Countable authorizationKey.
Proof.
  apply (inj_countable' (λ k, (ak_accountID k, ak_identifier k)) (λ p, mkAuthorizationKey p.1 p.2)).
  by intros [].
Defined.

Record Store : Type := mkStore {
  st_accounts : gmap string Account;
  st_accountByKey : gmap string string;
  st_accountByClaim : gmap string string;
  st_orders : gmap string Order;
  st_orderIDs : gmap string (list string);
  st_authzs : gmap string Authorization;
  st_authzIndex : gmap authorizationKey (list string);
  st_challenges : gmap string Challenge;
  st_certificates : gmap string Certificate;
  st_certByRenewal : gmap string string;
  st_tasks : gmap string Task;
  st_taskSequence : Z;
  st_taskInsertion : gmap string Z
}.

Definition New : Store := mkStore ∅ ∅ ∅ ∅ ∅ ∅ ∅ ∅ ∅ ∅ ∅ 0 ∅.

(** A Go map read yields the zero value for a missing key. *)
Definition map_ids {K} `{Countable K} (m : gmap K (list string)) (k : K) : list string :=
  default [] (m !! k).

(** ** Accounts *)

Definition CreateAccount (ctx : Ctx) (account : Account) (s : Store) : Res Account * Store :=
  if ctx is Some err then (Err err, s)
  else if (acct_ID account == "") || (acct_KeyThumbprint account == "") then
    (Err (ErrMsg "memstore: account needs an ID and a key thumbprint"), s)
  else if st_accounts s !! acct_ID account is Some _ then (Err ErrConflict, s)
  else if st_accountByKey s !! acct_KeyThumbprint account is Some _ then (Err ErrConflict, s)
  else if bool_decide (is_Some (st_accountByClaim s !! acct_ExternalAccountClaim account)) &&
          (acct_ExternalAccountClaim account != "") then (Err ErrConflict, s)
  else
    let account := {| account with acct_Revision := 1%Z |} in
    let s := {| s with
      st_accounts := <[acct_ID account := account]> (st_accounts s);
      st_accountByKey := <[acct_KeyThumbprint account := acct_ID account]> (st_accountByKey s) |} in
    let s :=
      if (acct_ExternalAccountClaim account != "") then
        {| s with st_accountByClaim :=
             <[acct_ExternalAccountClaim account := acct_ID account]> (st_accountByClaim s) |}
      else s in
    (Ok account, s).

Definition GetAccount (ctx : Ctx) (id : string) (s : Store) : Res Account * Store :=
  if ctx is Some err then (Err err, s)
  else match st_accounts s !! id with
       | None => (Err ErrNotFound, s)
       | Some account => (Ok account, s)
       end.

Definition AccountByKey (ctx : Ctx) (thumbprint : string) (s : Store) : Res Account * Store :=
  if ctx is Some err then (Err err, s)
  else match st_accountByKey s !! thumbprint with
       | None => (Err ErrNotFound, s)
       | Some id =>
           match st_accounts s !! id with
           | Some account => (Ok account, s)
           | None => (Err ErrPanic, s)
           end
       end.

(** The owner of an index entry that is another account. *)
Definition ownedByOther (index : gmap string string) (key id : string) : bool :=
  match index !! key with
  | Some owner => owner != id
  | None => false
  end.

Definition UpdateAccount (ctx : Ctx) (account : Account) (s : Store) : Res Account * Store :=
  if ctx is Some err then (Err err, s)
  else if (acct_KeyThumbprint account == "") then
    (Err (ErrMsg "memstore: account needs a key thumbprint"), s)
  else match st_accounts s !! acct_ID account with
  | None => (Err ErrNotFound, s)
  | Some stored =>
    if (acct_Revision stored != acct_Revision account) then (Err ErrRevisionMismatch, s)
    else if (acct_KeyThumbprint account != acct_KeyThumbprint stored) &&
            ownedByOther (st_accountByKey s) (acct_KeyThumbprint account) (acct_ID account)
    then (Err ErrConflict, s)
    else if (acct_ExternalAccountClaim account != acct_ExternalAccountClaim stored) &&
            (acct_ExternalAccountClaim account != "") &&
            ownedByOther (st_accountByClaim s) (acct_ExternalAccountClaim account)
              (acct_ID account)
    then (Err ErrConflict, s)
    else
      let byKey := delete (acct_KeyThumbprint stored) (st_accountByKey s) in
      let byKey := <[acct_KeyThumbprint account := acct_ID account]> byKey in
      let byClaim := delete (acct_ExternalAccountClaim stored) (st_accountByClaim s) in
      let byClaim :=
        if (acct_ExternalAccountClaim account != "") then
          <[acct_ExternalAccountClaim account := acct_ID account]> byClaim
        else byClaim in
      let account := {| account with acct_Revision := u64 (acct_Revision account + 1) |} in
      (Ok account,
       {| s with
          st_accountByKey := byKey;
          st_accountByClaim := byClaim;
          st_accounts := <[acct_ID account := account]> (st_accounts s) |})
  end.

(** ** Optimistic concurrency checks *)

Definition checkOrder (order : Order) (s : Store) : option error :=
  match st_orders s !! ord_ID order with
  | None => Some ErrNotFound
  | Some stored =>
      if (ord_Revision stored != ord_Revision order) then Some ErrRevisionMismatch else None
  end.

Definition checkAuthorization (authz : Authorization) (s : Store) : option error :=
  match st_authzs s !! az_ID authz with
  | None => Some ErrNotFound
  | Some stored =>
      if (az_Revision stored != az_Revision authz) then Some ErrRevisionMismatch else None
  end.

Definition checkChallenge (challenge : Challenge) (s : Store) : option error :=
  match st_challenges s !! ch_ID challenge with
  | None => Some ErrNotFound
  | Some stored =>
      if (ch_Revision stored != ch_Revision challenge) then Some ErrRevisionMismatch else None
  end.

Definition checkNewTask (task : Task) (s : Store) : option error :=
  if (task_ID task == "") then Some (ErrMsg "memstore: task needs an ID")
  else if st_tasks s !! task_ID task is Some _ then Some ErrConflict
  else None.

(** Returns the stored task when the fence matches. *)
Definition checkTask (task : Task) (s : Store) : Res Task :=
  match st_tasks s !! task_ID task with
  | None => Err ErrNotFound
  | Some stored =>
      if (task_Fence stored != task_Fence task) then Err ErrRevisionMismatch else Ok stored
  end.

(** Stores a new task in insertion order and returns the record the caller sees. *)
Definition insertTask (task : Task) (s : Store) : Task * Store :=
  let task := {| task with task_Fence := 0%Z; task_Attempts := 0%Z;
                           task_LeaseUntil := zeroTime |} in
  let sequence := u64 (st_taskSequence s + 1) in
  (task,
   {| s with
      st_taskSequence := sequence;
      st_taskInsertion := <[task_ID task := sequence]> (st_taskInsertion s);
      st_tasks := <[task_ID task := task]> (st_tasks s) |}).

Definition removeTask (id : string) (s : Store) : Store :=
  {| s with st_tasks := delete id (st_tasks s);
            st_taskInsertion := delete id (st_taskInsertion s) |}.

(** ** Orders *)

Definition authorizationIndexKey (a : Authorization) : authorizationKey :=
  let id := az_Identifier a in
  let id := if az_Wildcard a then {| id with id_Value := "*." +:+ id_Value id |} else id in
  mkAuthorizationKey (az_AccountID a) id.

(** Marks the certificate the order replaces unless a live order already replaced it. *)
Definition claimReplacement (order : Order) (s : Store) : option error * Store :=
  match st_certByRenewal s !! ord_Replaces order with
  | None => (Some ErrNotFound, s)
  | Some id =>
    match st_certificates s !! id with
    | None => (Some ErrPanic, s)
    | Some cert =>
      let live :=
        match st_orders s !! crt_ReplacedByOrderID cert with
        | Some previous => StatusAt previous (ord_CreatedAt order) != OrderInvalid
        | None => false
        end in
      if live then (Some ErrAlreadyReplaced, s)
      else
        let cert := {| cert with crt_ReplacedByOrderID := ord_ID order;
                                 crt_Revision := u64 (crt_Revision cert + 1) |} in
        (None, {| s with st_certificates := <[id := cert]> (st_certificates s) |})
    end
  end.

Definition storeAuthorization (s : Store) (a : Authorization) : Store :=
  let key := authorizationIndexKey a in
  {| s with
     st_authzs := <[az_ID a := a]> (st_authzs s);
     st_authzIndex := <[key := map_ids (st_authzIndex s) key ++ [az_ID a]]> (st_authzIndex s) |}.

Definition storeChallenge (s : Store) (c : Challenge) : Store :=
  {| s with st_challenges := <[ch_ID c := c]> (st_challenges s) |}.

Definition CreateOrder (ctx : Ctx) (order : Order) (authzs : list Authorization)
    (challenges : list Challenge) (s : Store)
    : Res (Order * list Authorization * list Challenge) * Store :=
  if ctx is Some err then (Err err, s)
  else if (ord_ID order == "") || (ord_AccountID order == "") then
    (Err (ErrMsg "memstore: order needs an ID and an account ID"), s)
  else if st_orders s !! ord_ID order is Some _ then (Err ErrConflict, s)
  else if existsb (λ a, bool_decide (is_Some (st_authzs s !! az_ID a)) || (az_ID a == "")) authzs
  then (Err ErrConflict, s)
  else if existsb (λ c, bool_decide (is_Some (st_challenges s !! ch_ID c)) || (ch_ID c == ""))
            challenges
  then (Err ErrConflict, s)
  else
    let (err, s) := if (ord_Replaces order != "") then claimReplacement order s else (None, s) in
    if err is Some err then (Err err, s)
    else
      let order := {| order with ord_Revision := 1%Z |} in
      let s := {| s with
        st_orders := <[ord_ID order := order]> (st_orders s);
        st_orderIDs := <[ord_AccountID order :=
          map_ids (st_orderIDs s) (ord_AccountID order) ++ [ord_ID order]]> (st_orderIDs s) |} in
      let authzs := map (λ a, {| a with az_Revision := 1%Z |}) authzs in
      let s := fold_left storeAuthorization authzs s in
      let challenges := map (λ c, {| c with ch_Revision := 1%Z |}) challenges in
      let s := fold_left storeChallenge challenges s in
      (Ok (order, authzs, challenges), s).

Definition GetOrder (ctx : Ctx) (id : string) (s : Store) : Res Order * Store :=
  if ctx is Some err then (Err err, s)
  else match st_orders s !! id with
       | None => (Err ErrNotFound, s)
       | Some order => (Ok order, s)
       end.

(** Go's slice expression [ids[start:end]], which panics out of range. *)
Definition go_slice {A} (l : list A) (start stop : Z) : Res (list A) :=
  if (0 <=? start)%Z && (start <=? stop)%Z && (stop <=? Z.of_nat (length l))%Z
  then Ok (take (Z.to_nat (stop - start)) (drop (Z.to_nat start) l))
  else Err ErrPanic.

(** Returns up to [limit] order IDs of the account after the given ID. The sum [start+limit] is an
    [int] and wraps. *)
Definition OrderIDs (ctx : Ctx) (accountID after : string) (limit : Z) (s : Store)
    : Res (list string) * Store :=
  if ctx is Some err then (Err err, s)
  else if (limit <=? 0)%Z then (Err (ErrMsg "memstore: limit must be positive"), s)
  else
    let ids := map_ids (st_orderIDs s) accountID in
    let start :=
      if (after == "") then Ok 0%Z
      else match list_find (λ id, id = after) ids with
           | None => Err ErrNotFound
           | Some (pos, _) => Ok (Z.of_nat pos + 1)%Z
           end in
    match start with
    | Err err => (Err err, s)
    | Ok start =>
        let stop := Z.min (i64 (start + limit)) (Z.of_nat (length ids)) in
        (go_slice ids start stop, s)
    end.

Definition GetAuthorization (ctx : Ctx) (id : string) (s : Store) : Res Authorization * Store :=
  if ctx is Some err then (Err err, s)
  else match st_authzs s !! id with
       | None => (Err ErrNotFound, s)
       | Some authz => (Ok authz, s)
       end.

(** Reports whether a terminal authorization still invalidates its order. *)
Definition undispatched (order : Order) : bool :=
  (ord_Status order == OrderPending) || (ord_Status order == OrderReady) ||
  ((ord_Status order == OrderProcessing) && (ord_Issuance order == None)).

Definition invalidateOrder (order : Order) : Order :=
  {| order with
     ord_Status := OrderInvalid;
     ord_Error := Some InvalidAuthorizationProblem;
     ord_Revision := u64 (ord_Revision order + 1) |}.

Definition UpdateAuthorization (ctx : Ctx) (authz : Authorization) (s : Store)
    : Res Authorization * Store :=
  if ctx is Some err then (Err err, s)
  else if checkAuthorization authz s is Some err then (Err err, s)
  else
    let authz := {| authz with az_Revision := u64 (az_Revision authz + 1) |} in
    let s := {| s with st_authzs := <[az_ID authz := authz]> (st_authzs s) |} in
    let s :=
      if AuthorizationStatus_Terminal (az_Status authz) then
        match st_orders s !! az_OrderID authz with
        | Some order =>
            if undispatched order then
              {| s with st_orders := <[az_OrderID authz := invalidateOrder order]> (st_orders s) |}
            else s
        | None => s
        end
      else s in
    (Ok authz, s).

(** The checks of [BeginIssuance] on the authorizations of the snapshot, in order. *)
Fixpoint checkSnapshot (authorizedAt : Time) (authzs : list Authorization) (ids : list string)
    (s : Store) : option error :=
  match authzs, ids with
  | a :: authzs, id :: ids =>
      if checkAuthorization a s is Some err then Some err
      else if (az_ID a != id) || (az_Status a != AuthorizationValid) ||
              negb (After (az_Expires a) authorizedAt)
      then Some ErrRevisionMismatch
      else checkSnapshot authorizedAt authzs ids s
  | _, _ => None
  end.

Definition BeginIssuance (ctx : Ctx) (task : Task) (order : Order) (account : Account)
    (authzs : list Authorization) (s : Store) : Res Order * Store :=
  if ctx is Some err then (Err err, s)
  else if checkTask task s is Err err then (Err err, s)
  else if checkOrder order s is Some err then (Err err, s)
  else
    let accountCurrent :=
      match st_accounts s !! acct_ID account with
      | Some stored => (acct_Revision stored == acct_Revision account) &&
                       (acct_Status stored == AccountValid)
      | None => false
      end in
    if negb accountCurrent then (Err ErrRevisionMismatch, s)
    else match ord_Issuance order, st_orders s !! ord_ID order with
    | Some issuance, Some stored =>
        if (ord_Status stored != OrderProcessing) || (ord_Issuance stored != None) ||
           (length authzs != length (ord_AuthorizationIDs order))
        then (Err ErrRevisionMismatch, s)
        else if checkSnapshot (is_AuthorizedAt issuance) authzs (ord_AuthorizationIDs order) s
                is Some err then (Err err, s)
        else
          let order := {| order with ord_Revision := u64 (ord_Revision order + 1) |} in
          (Ok order, {| s with st_orders := <[ord_ID order := order]> (st_orders s) |})
    | _, _ => (Err ErrRevisionMismatch, s)
    end.

(** The inner loop of [AuthorizedFor] over the indexed authorizations of one identifier. *)
Fixpoint authorizedBy (authzs : gmap string Authorization) (now : Time) (ids : list string)
    : Res bool :=
  match ids with
  | [] => Ok false
  | id :: ids =>
      match authzs !! id with
      | None => Err ErrPanic
      | Some a =>
          if (az_Status a == AuthorizationValid) && negb (az_PreApproved a) &&
             After (az_Expires a) now
          then Ok true
          else authorizedBy authzs now ids
      end
  end.

Fixpoint authorizedForAll (accountID : string) (identifiers : list Identifier) (now : Time)
    (s : Store) : Res bool :=
  match identifiers with
  | [] => Ok true
  | identifier :: identifiers =>
      match authorizedBy (st_authzs s) now
              (map_ids (st_authzIndex s) (mkAuthorizationKey accountID identifier)) with
      | Err err => Err err
      | Ok false => Ok false
      | Ok true => authorizedForAll accountID identifiers now s
      end
  end.

Definition AuthorizedFor (ctx : Ctx) (accountID : string) (identifiers : list Identifier)
    (now : Time) (s : Store) : Res bool * Store :=
  if ctx is Some err then (Err err, s)
  else match st_accounts s !! accountID with
  | None => (Ok false, s)
  | Some account =>
      if (acct_Status account != AccountValid) || (length identifiers == 0%nat) then (Ok false, s)
      else (authorizedForAll accountID identifiers now s, s)
  end.

Definition GetChallenge (ctx : Ctx) (id : string) (s : Store) : Res Challenge * Store :=
  if ctx is Some err then (Err err, s)
  else match st_challenges s !! id with
       | None => (Err ErrNotFound, s)
       | Some challenge => (Ok challenge, s)
       end.

(** ** Certificates *)

Definition GetCertificate (ctx : Ctx) (id : string) (s : Store) : Res Certificate * Store :=
  if ctx is Some err then (Err err, s)
  else match st_certificates s !! id with
       | None => (Err ErrNotFound, s)
       | Some cert => (Ok cert, s)
       end.

Definition CertificateByRenewalID (ctx : Ctx) (renewalID : string) (s : Store)
    : Res Certificate * Store :=
  if ctx is Some err then (Err err, s)
  else match st_certByRenewal s !! renewalID with
  | None => (Err ErrNotFound, s)
  | Some id =>
      if (renewalID == "") then (Err ErrNotFound, s)
      else match st_certificates s !! id with
           | Some cert => (Ok cert, s)
           | None => (Err ErrPanic, s)
           end
  end.

Definition UpdateCertificate (ctx : Ctx) (cert : Certificate) (s : Store)
    : Res Certificate * Store :=
  if ctx is Some err then (Err err, s)
  else match st_certificates s !! crt_ID cert with
  | None => (Err ErrNotFound, s)
  | Some stored =>
      if (crt_Revision stored != crt_Revision cert) then (Err ErrRevisionMismatch, s)
      else
        let cert := {| cert with crt_Revision := u64 (crt_Revision cert + 1) |} in
        (Ok cert, {| s with st_certificates := <[crt_ID cert := cert]> (st_certificates s) |})
  end.

(** ** Work *)

Definition AcceptChallenge (ctx : Ctx) (challenge : Challenge) (task : Task) (s : Store)
    : Res (Challenge * Task) * Store :=
  if ctx is Some err then (Err err, s)
  else if checkChallenge challenge s is Some err then (Err err, s)
  else if checkNewTask task s is Some err then (Err err, s)
  else
    let challenge := {| challenge with ch_Revision := u64 (ch_Revision challenge + 1) |} in
    let (task, s) := insertTask task (storeChallenge s challenge) in
    (Ok (challenge, task), s).

Definition FinalizeOrder (ctx : Ctx) (order : Order) (task : Task) (s : Store)
    : Res (Order * Task) * Store :=
  if ctx is Some err then (Err err, s)
  else if checkOrder order s is Some err then (Err err, s)
  else if checkNewTask task s is Some err then (Err err, s)
  else
    let order := {| order with ord_Revision := u64 (ord_Revision order + 1) |} in
    let (task, s) :=
      insertTask task {| s with st_orders := <[ord_ID order := order]> (st_orders s) |} in
    (Ok (order, task), s).

(** A task no worker may claim at [now]: not due yet or under a lease that is still running. *)
Definition notClaimable (now : Time) (t : Task) : bool :=
  After (task_RunAt t) now ||
  (negb (IsZero (task_LeaseUntil t)) && After (task_LeaseUntil t) now).

(** The insertion number of a task, zero when it has none. *)
Definition insertionOf (s : Store) (t : Task) : Z :=
  default 0%Z (st_taskInsertion s !! task_ID t).

(** Whether the loop of [ClaimTask] prefers [t] to the best task so far. *)
Definition claimsBefore (s : Store) (t best : Task) : bool :=
  Before (task_RunAt t) (task_RunAt best) ||
  ((task_RunAt t == task_RunAt best) && (insertionOf s t <? insertionOf s best)%Z).

(** One iteration of the loop of [ClaimTask]. *)
Definition claimStep (s : Store) (now : Time) (best : option (string * Task))
    (entry : string * Task) : option (string * Task) :=
  let t := entry.2 in
  if notClaimable now t then best
  else match best with
       | None => Some entry
       | Some b => if claimsBefore s t b.2 then Some entry else best
       end.

(** The loop of [ClaimTask] over the tasks in one iteration order of the map. *)
Definition claimScan (s : Store) (now : Time) (entries : list (string * Task))
    : option (string * Task) :=
  fold_left (claimStep s now) entries None.

Definition ClaimTask (ctx : Ctx) (now leaseUntil : Time) (s : Store) : Res Task * Store :=
  if ctx is Some err then (Err err, s)
  else match claimScan s now (map_to_list (st_tasks s)) with
  | None => (Err ErrNotFound, s)
  | Some (k, best) =>
      let best := {| best with
        task_LeaseUntil := leaseUntil;
        task_Fence := u64 (task_Fence best + 1);
        task_Attempts := i64 (task_Attempts best + 1) |} in
      (Ok best, {| s with st_tasks := <[k := best]> (st_tasks s) |})
  end.

(** Releases the lease of the stored task and takes over the caller's next run time. *)
Definition releaseTask (task stored : Task) (s : Store) : Store :=
  let stored := {| stored with task_RunAt := task_RunAt task; task_LeaseUntil := zeroTime |} in
  {| s with st_tasks := <[task_ID task := stored]> (st_tasks s) |}.

Definition RescheduleTask (ctx : Ctx) (task : Task) (s : Store) : Res Task * Store :=
  if ctx is Some err then (Err err, s)
  else match checkTask task s with
  | Err err => (Err err, s)
  | Ok stored =>
      (Ok {| task with task_LeaseUntil := zeroTime |}, releaseTask task stored s)
  end.

Definition RetryValidation (ctx : Ctx) (task : Task) (challenge : Challenge) (s : Store)
    : Res (Task * Challenge) * Store :=
  if ctx is Some err then (Err err, s)
  else match checkTask task s with
  | Err err => (Err err, s)
  | Ok stored =>
      if checkChallenge challenge s is Some err then (Err err, s)
      else
        let challenge := {| challenge with ch_Revision := u64 (ch_Revision challenge + 1) |} in
        (Ok ({| task with task_LeaseUntil := zeroTime |}, challenge),
         releaseTask task stored (storeChallenge s challenge))
  end.

Definition FinishTask (ctx : Ctx) (task : Task) (s : Store) : Res unit * Store :=
  if ctx is Some err then (Err err, s)
  else if checkTask task s is Err err then (Err err, s)
  else (Ok tt, removeTask (task_ID task) s).

Definition CompleteValidation (ctx : Ctx) (task : Task) (challenge : Challenge)
    (authz : Authorization) (order : Order) (s : Store)
    : Res (Challenge * Authorization * Order) * Store :=
  if ctx is Some err then (Err err, s)
  else if checkTask task s is Err err then (Err err, s)
  else if checkChallenge challenge s is Some err then (Err err, s)
  else if checkAuthorization authz s is Some err then (Err err, s)
  else if checkOrder order s is Some err then (Err err, s)
  else
    let challenge := {| challenge with ch_Revision := u64 (ch_Revision challenge + 1) |} in
    let authz := {| authz with az_Revision := u64 (az_Revision authz + 1) |} in
    let order := {| order with ord_Revision := u64 (ord_Revision order + 1) |} in
    let s := {| s with
      st_challenges := <[ch_ID challenge := challenge]> (st_challenges s);
      st_authzs := <[az_ID authz := authz]> (st_authzs s);
      st_orders := <[ord_ID order := order]> (st_orders s) |} in
    (Ok (challenge, authz, order), removeTask (task_ID task) s).

(** The part of [CompleteIssuance] that stores a certificate. *)
Definition storeCertificate (cert : Certificate) (s : Store) : Res Certificate * Store :=
  if (crt_ID cert == "") then (Err (ErrMsg "memstore: certificate needs an ID"), s)
  else if st_certificates s !! crt_ID cert is Some _ then (Err ErrConflict, s)
  else if bool_decide (is_Some (st_certByRenewal s !! crt_RenewalID cert)) &&
          (crt_RenewalID cert != "") then (Err ErrConflict, s)
  else
    let cert := {| cert with crt_Revision := 1%Z |} in
    let s := {| s with st_certificates := <[crt_ID cert := cert]> (st_certificates s) |} in
    let s :=
      if (crt_RenewalID cert != "") then
        {| s with st_certByRenewal := <[crt_RenewalID cert := crt_ID cert]> (st_certByRenewal s) |}
      else s in
    (Ok cert, s).

Definition CompleteIssuance (ctx : Ctx) (task : Task) (order : Order) (cert : option Certificate)
    (s : Store) : Res (Order * option Certificate) * Store :=
  if ctx is Some err then (Err err, s)
  else if checkTask task s is Err err then (Err err, s)
  else if checkOrder order s is Some err then (Err err, s)
  else
    let (stored, s) :=
      match cert with
      | Some cert => let (r, s) := storeCertificate cert s in
                     (match r with Ok c => Ok (Some c) | Err err => Err err end, s)
      | None => (Ok None, s)
      end in
    match stored with
    | Err err => (Err err, s)
    | Ok cert =>
        let order := {| order with ord_Revision := u64 (ord_Revision order + 1) |} in
        let s := {| s with st_orders := <[ord_ID order := order]> (st_orders s) |} in
        (Ok (order, cert), removeTask (task_ID task) s)
    end.

(** Counts the stored tasks that satisfy a condition. *)
Definition countTasks (p : Task → bool) (s : Store) : Z :=
  Z.of_nat (length (filter (λ e : string * Task, p e.2 = true) (map_to_list (st_tasks s)))).

Definition PendingTasks (ctx : Ctx) (before : Time) (s : Store) : Res Z * Store :=
  if ctx is Some err then (Err err, s)
  else (Ok (countTasks (λ t, negb (After (task_RunAt t) before) &&
              (IsZero (task_LeaseUntil t) || negb (After (task_LeaseUntil t) before))) s), s).

Definition LeasedTasks (ctx : Ctx) (now : Time) (s : Store) : Res Z * Store :=
  if ctx is Some err then (Err err, s)
  else (Ok (countTasks (λ t, After (task_LeaseUntil t) now) s), s).

Definition AccountValidations (ctx : Ctx) (accountID : string) (s : Store) : Res Z * Store :=
  if ctx is Some err then (Err err, s)
  else (Ok (countTasks (λ t, (task_Kind t == TaskValidate) && (task_AccountID t == accountID)) s),
        s).
