(* ===== verification/MemstoreRefine.v ===== *)
(** * The in-memory store implements the store contract

    The relation between a [memstore.Store] and an abstract store: the resource maps agree, every
    secondary index is exactly the index of its resource map and the insertion numbers order the
    tasks as they were enqueued. Every legal call refines the contract under it. *)

From S2P Require Import Prelude Status Problem Resource StoreSpec Memstore.

(** ** Dispatch of a call to the method of the store *)

Definition mem_exec {X : Type} (c : storeCall X) (ctx : Ctx) (s : Store) : Res X * Store :=
  match c with
  | CallCreateAccount account => CreateAccount ctx account s
  | CallAccount id => GetAccount ctx id s
  | CallAccountByKey thumbprint => AccountByKey ctx thumbprint s
  | CallUpdateAccount account => UpdateAccount ctx account s
  | CallCreateOrder order authzs challenges => CreateOrder ctx order authzs challenges s
  | CallOrder id => GetOrder ctx id s
  | CallOrderIDs accountID after limit => OrderIDs ctx accountID after limit s
  | CallAuthorization id => GetAuthorization ctx id s
  | CallUpdateAuthorization authz => UpdateAuthorization ctx authz s
  | CallAuthorizedFor accountID identifiers now => AuthorizedFor ctx accountID identifiers now s
  | CallChallenge id => GetChallenge ctx id s
  | CallCertificate id => GetCertificate ctx id s
  | CallCertificateByRenewalID renewalID => CertificateByRenewalID ctx renewalID s
  | CallUpdateCertificate cert => UpdateCertificate ctx cert s
  | CallAcceptChallenge challenge task => AcceptChallenge ctx challenge task s
  | CallFinalizeOrder order task => FinalizeOrder ctx order task s
  | CallBeginIssuance task order account authzs => BeginIssuance ctx task order account authzs s
  | CallClaimTask now leaseUntil => ClaimTask ctx now leaseUntil s
  | CallRescheduleTask task => RescheduleTask ctx task s
  | CallRetryValidation task challenge => RetryValidation ctx task challenge s
  | CallFinishTask task => FinishTask ctx task s
  | CallCompleteValidation task challenge authz order =>
      CompleteValidation ctx task challenge authz order s
  | CallCompleteIssuance task order cert => CompleteIssuance ctx task order cert s
  | CallPendingTasks before => PendingTasks ctx before s
  | CallLeasedTasks now => LeasedTasks ctx now s
  | CallAccountValidations accountID => AccountValidations ctx accountID s
  end.

#[export] Instance mem_store : StoreImpl Store := @mem_exec.

(** ** The relation *)

(** A map from the values of a field to the one resource that has it. [ok] tells which values are
    indexed: every key thumbprint, but only a non-empty claim or renewal identifier. *)
Definition index_rel {V : Type} (ok : string → bool) (f : V → string) (m : gmap string V)
    (index : gmap string string) : Prop :=
  ∀ k id, index !! k = Some id ↔ ok k = true ∧ ∃ v, m !! id = Some v ∧ f v = k.

Definition anyKey (k : string) : bool := true.
Definition nonEmpty (k : string) : bool := k != "".

(** Accounts are stored under their IDs and indexed by key thumbprint and by non-empty claim. *)
Record accounts_rel (accounts : gmap string Account) (byKey byClaim : gmap string string)
    : Prop := mkAccountsRel {
  ar_id : ∀ id b, accounts !! id = Some b → acct_ID b = id;
  ar_key : index_rel anyKey acct_KeyThumbprint accounts byKey;
  ar_claim : index_rel nonEmpty acct_ExternalAccountClaim accounts byClaim
}.

(** Orders are stored under their IDs, each listed once under the account that created it. *)
Record orders_rel (orders : gmap string Order) (orderIDs : gmap string (list string))
    (created : list (string * string)) : Prop := mkOrdersRel {
  or_id : ∀ id o, orders !! id = Some o → ord_ID o = id;
  or_listed : ∀ acc, map_ids orderIDs acc = orders_of acc created;
  or_nodup : NoDup (map snd created);
  or_created : ∀ id, id ∈ map snd created ↔ is_Some (orders !! id)
}.

(** Authorizations are stored under their IDs and indexed by account and identifier. *)
Record authzs_rel (authzs : gmap string Authorization)
    (index : gmap authorizationKey (list string)) : Prop := mkAuthzsRel {
  zr_id : ∀ id z, authzs !! id = Some z → az_ID z = id;
  zr_index : ∀ k id, id ∈ map_ids index k ↔
    ∃ z, authzs !! id = Some z ∧ authorizationIndexKey z = k
}.

(** Certificates are stored under their IDs and indexed by non-empty renewal identifier. *)
Record certs_rel (certs : gmap string Certificate) (byRenewal : gmap string string)
    : Prop := mkCertsRel {
  cr_id : ∀ id c, certs !! id = Some c → crt_ID c = id;
  cr_renewal : index_rel nonEmpty crt_RenewalID certs byRenewal
}.

(** The insertion number of a task in a numbering. *)
Definition numberOf (numbers : gmap string Z) (t : Task) : Z := default 0%Z (numbers !! task_ID t).

(** The tasks are the queue, numbered in its order. *)
Record tasks_rel (tasks : gmap string Task) (sequence : Z) (numbers : gmap string Z)
    (queue : list Task) : Prop := mkTasksRel {
  tr_lookup : ∀ id t, tasks !! id = Some t ↔ t ∈ queue ∧ task_ID t = id;
  tr_nodup : NoDup (map task_ID queue);
  tr_numbered : ∀ id, is_Some (numbers !! id) ↔ is_Some (tasks !! id);
  tr_bounded : ∀ id n, numbers !! id = Some n → (0 < n ≤ sequence)%Z;
  tr_sorted : StronglySorted (λ t u, numberOf numbers t < numberOf numbers u)%Z queue;
  tr_sequence : (0 ≤ sequence < 2 ^ 64)%Z
}.

Record mem_rel (s : Store) (a : AStore) : Prop := mkMemRel {
  mr_accounts : st_accounts s = as_accounts a;
  mr_orders : st_orders s = as_orders a;
  mr_authzs : st_authzs s = as_authzs a;
  mr_challenges : st_challenges s = as_challenges a;
  mr_certificates : st_certificates s = as_certificates a;
  mr_accounts_rel : accounts_rel (as_accounts a) (st_accountByKey s) (st_accountByClaim s);
  mr_orders_rel : orders_rel (as_orders a) (st_orderIDs s) (as_created a);
  mr_authzs_rel : authzs_rel (as_authzs a) (st_authzIndex s);
  mr_challenges_rel : ∀ id c, as_challenges a !! id = Some c → ch_ID c = id;
  mr_certs_rel : certs_rel (as_certificates a) (st_certByRenewal s);
  mr_tasks_rel : tasks_rel (st_tasks s) (st_taskSequence s) (st_taskInsertion s) (as_tasks a)
}.

(** A concrete outcome agrees with an abstract one. *)
Definition refines {X : Type} (r : Res X * Store) (q : Res X * AStore) : Prop :=
  r.1 = q.1 ∧ mem_rel r.2 q.2.

(** ** Indexes *)

Lemma nonEmpty_true k : nonEmpty k = true ↔ k ≠ "".
Proof. apply negb_bool_decide_true. Qed.

Section index.
Context {V : Type} (ok : string → bool) (f : V → string).
Context (m : gmap string V) (index : gmap string string).
Context (R : index_rel ok f m index).

(** No two resources share an indexed value. *)
Lemma index_unique id v id' v' :
  m !! id = Some v → m !! id' = Some v' → ok (f v) = true → f v = f v' → id = id'.
Proof.
  intros Hv Hv' Hok Heq.
  assert (index !! f v = Some id) by (apply R; eauto).
  assert (index !! f v = Some id') by (apply R; eauto). congruence.
Qed.

(** The index answers whether a value is in use, and by which resource. *)
Lemma index_in_use k :
  ok k = true → bool_decide (is_Some (index !! k)) = has_value (λ v, f v == k) m.
Proof.
  intros Hok. apply eq_bool_prop_intro.
  rewrite !Is_true_true, bool_decide_eq_true, has_value_true. split.
  - intros [id Hid]. apply R in Hid as (_ & v & Hv & <-).
    exists id, v. by rewrite bool_decide_eq_true.
  - intros (id & v & Hv & Heq). go_bool. exists id. apply R. eauto.
Qed.

Lemma index_find k :
  ok k = true → find_value (λ v, f v == k) m = index !! k ≫= λ id, m !! id.
Proof.
  intros Hok. destruct (index !! k) as [id|] eqn:Hid; simpl.
  - apply R in Hid as (_ & v & Hv & <-). rewrite Hv.
    apply (find_value_unique _ _ id); [done|by rewrite bool_decide_eq_true|].
    intros id' v' Hv' Heq. go_bool. symmetry. by eapply index_unique.
  - destruct (find_value _ m) as [v|] eqn:E; [|done].
    apply find_value_Some in E as (id & Hv & Heq). go_bool.
    enough (index !! k = Some id) by congruence. apply R. eauto.
Qed.

Lemma index_resource k id : index !! k = Some id → ∃ v, m !! id = Some v ∧ f v = k.
Proof. intros Hid. by apply R in Hid as [_ ?]. Qed.

(** Whether another resource uses a value. *)
Lemma index_owned_by_other k id (key : V → string) :
  ok k = true → (∀ id v, m !! id = Some v → key v = id) →
  ownedByOther index k id = has_value (λ v, (key v != id) && (f v == k)) m.
Proof.
  intros Hok Hkey. apply eq_bool_prop_intro. rewrite !Is_true_true, has_value_true.
  unfold ownedByOther. split.
  - destruct (index !! k) as [owner|] eqn:Ho; [|done]. intros Hne. go_bool.
    apply index_resource in Ho as (v & Hv & <-). exists owner, v. split; [done|].
    rewrite (Hkey _ _ Hv), andb_true_iff, negb_bool_decide_true, bool_decide_eq_true. done.
  - intros (owner & v & Hv & H). go_bool.
    assert (index !! k = Some owner) as -> by (apply R; eauto).
    rewrite negb_bool_decide_true. rewrite <-(Hkey _ _ Hv). done.
Qed.

(** A new version that keeps its value conflicts with no other resource. *)
Lemma index_conflict k id w (key : V → string) :
  m !! id = Some w → ok k = true → (∀ id v, m !! id = Some v → key v = id) →
  (k != f w) && ownedByOther index k id = has_value (λ v, (key v != id) && (f v == k)) m.
Proof.
  intros Hw Hok Hkey. rewrite <-index_owned_by_other by done.
  destruct (k != f w) eqn:Hk; [done|]. go_bool. subst k. unfold ownedByOther.
  assert (index !! f w = Some id) as -> by (apply R; eauto).
  symmetry. by apply negb_bool_decide_false.
Qed.

(** The index after a resource replaced the version before it, if there was one. *)
Definition reindex (id : string) (v : V) : gmap string string :=
  let rest := match m !! id with Some w => delete (f w) index | None => index end in
  if ok (f v) then <[f v := id]> rest else rest.

Lemma index_rel_insert id v :
  (∀ id' w, m !! id' = Some w → id' ≠ id → ok (f v) = true → f w ≠ f v) →
  index_rel ok f (<[id := v]> m) (reindex id v).
Proof.
  intros Hfresh k id'. unfold reindex.
  assert (match m !! id with Some w => delete (f w) index | None => index end !! k = Some id' ↔
    ok k = true ∧ id' ≠ id ∧ ∃ w, m !! id' = Some w ∧ f w = k) as Hrest.
  { destruct (m !! id) as [w0|] eqn:Hold.
    - destruct (decide (f w0 = k)) as [<-|Hne].
      + rewrite lookup_delete_eq. split; [done|]. intros (Hok & Hne & w & Hw & Heq).
        destruct Hne. eapply index_unique; eauto. congruence.
      + rewrite lookup_delete_ne by done. rewrite (R k id'). split.
        * intros (Hok & w & Hw & Heq). split; [done|]. split; [|eauto]. congruence.
        * intros (Hok & _ & ?). done.
    - rewrite (R k id'). split.
      * intros (Hok & w & Hw & Heq). split; [done|]. split; [|eauto]. congruence.
      * intros (Hok & _ & ?). done. }
  destruct (decide (f v = k)) as [<-|Hk].
  - destruct (ok (f v)) eqn:Hok; [rewrite lookup_insert_eq|rewrite Hrest]; split.
    + intros [= <-]. split; [done|]. exists v. by rewrite lookup_insert_eq.
    + intros (_ & w & Hw & Heq). destruct (decide (id = id')) as [|Hne]; [congruence|].
      rewrite lookup_insert_ne in Hw by done. by destruct (Hfresh id' w Hw).
    + by intros [? ?].
    + by intros [? ?].
  - assert ((if ok (f v) then <[f v:=id]> match m !! id with Some w => delete (f w) index | None => index end
      else match m !! id with Some w => delete (f w) index | None => index end) !! k =
      match m !! id with Some w => delete (f w) index | None => index end !! k) as ->.
    { destruct (ok (f v)); [by rewrite lookup_insert_ne|done]. }
    rewrite Hrest. split.
    + intros (Hok & Hne & w & Hw & Heq). split; [done|]. exists w. by rewrite lookup_insert_ne.
    + intros (Hok & w & Hw & Heq). destruct (decide (id = id')) as [<-|Hne].
      * rewrite lookup_insert_eq in Hw. congruence.
      * rewrite lookup_insert_ne in Hw by done. eauto.
Qed.

(** A new version with the same value keeps the index. *)
Lemma index_rel_same id v w :
  m !! id = Some w → f v = f w → index_rel ok f (<[id := v]> m) index.
Proof.
  intros Hw Heq k id'. rewrite (R k id'). destruct (decide (id = id')) as [<-|Hne].
  - rewrite lookup_insert_eq, Hw. split; intros (Hok & u & [= <-] & <-); eauto.
  - by rewrite lookup_insert_ne.
Qed.

End index.

(** Storing under the resource's own ID keeps IDs in step with keys. *)
Lemma insert_id_rel {V} (key : V → string) (m : gmap string V) v :
  (∀ id w, m !! id = Some w → key w = id) →
  ∀ id w, <[key v := v]> m !! id = Some w → key w = id.
Proof.
  intros H id w. destruct (decide (key v = id)) as [<-|Hne].
  - rewrite lookup_insert_eq. congruence.
  - rewrite lookup_insert_ne by done. apply H.
Qed.

#[export] Hint Resolve insert_id_rel : acme.

Lemma refines_ended {X} (c : storeCall X) err s : mem_exec c (Some err) s = (Err err, s).
Proof. by destruct c. Qed.

(** A call that fails the same way on both sides changes neither. *)
Lemma refines_same {X} (r : Res X) s a : mem_rel s a → refines (r, s) (r, a).
Proof. by split. Qed.

#[export] Hint Resolve refines_same : acme.

(** ** Accounts *)

Lemma accounts_rel_insert accounts byKey byClaim b :
  accounts_rel accounts byKey byClaim →
  (∀ id c, accounts !! id = Some c → id ≠ acct_ID b →
    acct_KeyThumbprint c ≠ acct_KeyThumbprint b) →
  (∀ id c, accounts !! id = Some c → id ≠ acct_ID b → acct_ExternalAccountClaim b ≠ "" →
    acct_ExternalAccountClaim c ≠ acct_ExternalAccountClaim b) →
  accounts_rel (<[acct_ID b := b]> accounts)
    (reindex anyKey acct_KeyThumbprint accounts byKey (acct_ID b) b)
    (reindex nonEmpty acct_ExternalAccountClaim accounts byClaim (acct_ID b) b).
Proof.
  intros R Hkey Hclaim. split.
  - apply insert_id_rel, R.
  - apply index_rel_insert; [apply R|eauto].
  - apply index_rel_insert; [apply R|]. intros id c Hc Hne Hok. apply (Hclaim id c Hc Hne).
    by apply nonEmpty_true.
Qed.

Lemma refines_createAccount s a account :
  mem_rel s a → legal (CallCreateAccount account) a →
  refines (CreateAccount None account s) (spec_createAccount account a).
Proof.
  intros R [Hid Hkey]. pose proof (mr_accounts_rel _ _ R) as RA.
  unfold CreateAccount, spec_createAccount; simpl.
  rewrite (bool_decide_eq_false_2 _ Hid), (bool_decide_eq_false_2 _ Hkey); simpl.
  rewrite (mr_accounts _ _ R).
  destruct (as_accounts a !! acct_ID account) as [b|] eqn:Hnew; [by auto with acme|].
  rewrite bool_decide_is_Some_None; simpl.
  pose proof (index_in_use _ _ _ _ (ar_key _ _ _ RA) (acct_KeyThumbprint account) eq_refl) as Hk.
  rewrite <-Hk. destruct (st_accountByKey s !! _) as [o|] eqn:Hby; [by auto with acme|]; simpl.
  assert (bool_decide (is_Some (st_accountByClaim s !! acct_ExternalAccountClaim account)) &&
    (acct_ExternalAccountClaim account != "") = (acct_ExternalAccountClaim account != "") &&
    has_value (λ b, acct_ExternalAccountClaim b == acct_ExternalAccountClaim account)
      (as_accounts a)) as Hc.
  { rewrite andb_comm. destruct (acct_ExternalAccountClaim account != "") eqn:Hc; [simpl|done].
    by apply (index_in_use _ _ _ _ (ar_claim _ _ _ RA)). }
  rewrite Hc. case_match eqn:Hconf; [by auto with acme|].
  split; [done|]. simpl in Hk. go_bool.
  assert (∀ b, acct_ID b = acct_ID account →
    acct_KeyThumbprint b = acct_KeyThumbprint account →
    acct_ExternalAccountClaim b = acct_ExternalAccountClaim account →
    accounts_rel (<[acct_ID b:=b]> (as_accounts a))
      (reindex anyKey acct_KeyThumbprint (as_accounts a) (st_accountByKey s) (acct_ID b) b)
      (reindex nonEmpty acct_ExternalAccountClaim (as_accounts a) (st_accountByClaim s)
         (acct_ID b) b)) as Hins.
  { intros b Hbid Hbk Hbc. apply accounts_rel_insert; [done|..].
    - intros id c Hcl _. rewrite Hbk. symmetry in Hk. rewrite has_value_false in Hk.
      specialize (Hk _ _ Hcl). by go_bool.
    - intros id c Hcl _ Hne. rewrite Hbc in *. destruct Hconf as [?|Hconf]; go_bool; [done|].
      rewrite has_value_false in Hconf. specialize (Hconf _ _ Hcl). by go_bool. }
  specialize (Hins {| account with acct_Revision := 1%Z |} eq_refl eq_refl eq_refl).
  unfold reindex in Hins; simpl in Hins. rewrite Hnew in Hins; simpl in Hins.
  destruct R. unfold nonEmpty in Hins.
  split; simpl; destruct (acct_ExternalAccountClaim account != ""); simpl; done.
Qed.

Lemma refines_updateAccount s a account :
  mem_rel s a → legal (CallUpdateAccount account) a →
  refines (UpdateAccount None account s) (spec_updateAccount account a).
Proof.
  intros R Hkey. pose proof (mr_accounts_rel _ _ R) as RA. simpl in Hkey.
  unfold UpdateAccount, spec_updateAccount, check_revision; simpl.
  rewrite (bool_decide_eq_false_2 _ Hkey); simpl. rewrite (mr_accounts _ _ R).
  destruct (as_accounts a !! acct_ID account) as [stored|] eqn:Hold; simpl; [|by auto with acme].
  destruct (acct_Revision stored == acct_Revision account) eqn:Hrev; simpl; [|by auto with acme].
  set (c1 := _ && ownedByOther (st_accountByKey s) _ _).
  set (c2 := _ && ownedByOther (st_accountByClaim s) _ _).
  set (o1 := has_value _ _). set (o2 := _ && has_value _ _).
  assert (c1 = o1) as Hc1.
  { apply (index_conflict _ _ _ _ (ar_key _ _ _ RA)); [done..|]. apply RA. }
  assert (c2 = o2) as Hc2.
  { subst c2 o2. destruct (acct_ExternalAccountClaim account != "") eqn:Hc; simpl.
    - rewrite andb_true_r. apply (index_conflict _ _ _ _ (ar_claim _ _ _ RA)); [done..|]. apply RA.
    - by rewrite andb_false_r. }
  assert ((if c1 then true else c2) = o1 || o2) as Hc by (rewrite Hc1, Hc2; by destruct o1).
  destruct (o1 || o2) eqn:Ho.
  { destruct c1; [by auto with acme|]. rewrite Hc. by auto with acme. }
  destruct c1; [done|]. rewrite Hc. split; [done|]. clear Hc Hc1 Hc2.
  apply orb_false_iff in Ho as [Ho1 Ho2]. subst o1 o2. rewrite has_value_false in Ho1.
  assert (accounts_rel (<[acct_ID account := bump_account account]> (as_accounts a))
      (reindex anyKey acct_KeyThumbprint (as_accounts a) (st_accountByKey s) (acct_ID account)
        (bump_account account))
      (reindex nonEmpty acct_ExternalAccountClaim (as_accounts a) (st_accountByClaim s)
         (acct_ID account) (bump_account account))) as Hins.
  { apply (accounts_rel_insert _ _ _ (bump_account account)); [done|..]; simpl.
    - intros id c Hcl Hne. specialize (Ho1 _ _ Hcl). rewrite (ar_id _ _ _ RA _ _ Hcl) in Ho1.
      apply andb_false_iff in Ho1 as [?|?]; by go_bool.
    - intros id c Hcl Hne Hne'. rewrite bool_decide_eq_false_2 in Ho2 by done. simpl in Ho2.
      rewrite has_value_false in Ho2. specialize (Ho2 _ _ Hcl).
      rewrite (ar_id _ _ _ RA _ _ Hcl) in Ho2. apply andb_false_iff in Ho2 as [?|?]; by go_bool. }
  unfold reindex, nonEmpty in Hins; simpl in Hins. rewrite Hold in Hins.
  destruct R. split; simpl; done.
Qed.

(** ** The task queue *)

Section queue.
Context (tasks : gmap string Task) (sequence : Z) (numbers : gmap string Z) (queue : list Task).
Context (R : tasks_rel tasks sequence numbers queue).

Lemma queue_nodup : NoDup queue.
Proof. apply (NoDup_fmap_1 task_ID), R. Qed.

(** The stored tasks are the queue in some order. *)
Lemma tasks_permutation : (map_to_list tasks).*2 ≡ₚ queue.
Proof.
  apply NoDup_Permutation.
  - apply NoDup_fmap_2_strong; [|apply NoDup_map_to_list].
    intros [k t] [k' t'] Hk Hk' Heq; simpl in *; subst t'.
    apply elem_of_map_to_list, R in Hk as [_ <-]. by apply elem_of_map_to_list, R in Hk' as [_ <-].
  - apply queue_nodup.
  - intros t. rewrite list_elem_of_fmap. split.
    + intros ([k u] & -> & Hin). by apply elem_of_map_to_list, R in Hin as [? _].
    + intros Hin. exists (task_ID t, t). split; [done|]. by apply elem_of_map_to_list, R.
Qed.

Lemma tasks_find id : find_task id queue = tasks !! id.
Proof.
  unfold find_task. destruct (filter _ queue) as [|t l] eqn:E; simpl.
  - destruct (tasks !! id) as [t|] eqn:Ht; [|done]. apply R in Ht as [Hin Hid].
    assert (t ∈ filter (λ t, task_ID t = id) queue) as Hf by (by apply list_elem_of_filter).
    rewrite E in Hf. by apply not_elem_of_nil in Hf.
  - assert (t ∈ filter (λ t, task_ID t = id) queue) as Hf by (rewrite E; left).
    apply list_elem_of_filter in Hf as [Hid Hin]. symmetry. by apply R.
Qed.

(** Counting over the map is counting over the queue. *)
Lemma tasks_count (p : Task → bool) :
  length (filter (λ e : string * Task, p e.2 = true) (map_to_list tasks)) =
  length (filter (λ t, p t = true) queue).
Proof.
  rewrite <-tasks_permutation. induction (map_to_list tasks) as [|[k t] l IH]; [done|].
  rewrite fmap_cons, !filter_cons; simpl. case_decide; simpl; congruence.
Qed.

(** Distinct tasks of the queue have distinct numbers. *)
Lemma number_inj t u :
  t ∈ queue → u ∈ queue → numberOf numbers t = numberOf numbers u → t = u.
Proof.
  intros Ht Hu. pose proof (tr_sorted _ _ _ _ R) as Hs. revert Ht Hu. clear R.
  induction Hs as [|x l Hs IH Hall]; intros Ht Hu Heq; [by apply not_elem_of_nil in Ht|].
  rewrite Forall_forall in Hall.
  apply elem_of_cons in Ht as [->|Ht], Hu as [->|Hu]; try done; [..|by apply IH].
  - specialize (Hall _ Hu). lia.
  - specialize (Hall _ Ht). lia.
Qed.

End queue.

(** The lexicographic order of claims: due time, then insertion. *)
Definition claim_le (numbers : gmap string Z) (t u : Task) : Prop :=
  (task_RunAt t < task_RunAt u ∨
   task_RunAt t = task_RunAt u ∧ numberOf numbers t ≤ numberOf numbers u)%Z.

Lemma claim_le_trans numbers t u v :
  claim_le numbers t u → claim_le numbers u v → claim_le numbers t v.
Proof. unfold claim_le. lia. Qed.

Lemma claim_le_antisym numbers t u :
  claim_le numbers t u → claim_le numbers u t → numberOf numbers t = numberOf numbers u.
Proof. unfold claim_le. lia. Qed.

Lemma notClaimable_runnable now t : notClaimable now t = negb (runnable now t).
Proof.
  unfold notClaimable, runnable, leased, After, IsZero, zeroTime.
  rewrite negb_andb, negb_involutive, <-Z.ltb_antisym. f_equal. f_equal.
  f_equal. apply eq_bool_prop_intro. rewrite !Is_true_true, Z.eqb_eq, bool_decide_eq_true. done.
Qed.

(** The scan of [ClaimTask] finds a least runnable task, whatever the iteration order. *)
Lemma claimScan_spec s now entries :
  match claimScan s now entries with
  | None => ∀ e, e ∈ entries → runnable now e.2 = false
  | Some b => b ∈ entries ∧ runnable now b.2 = true ∧
      ∀ e, e ∈ entries → runnable now e.2 = true → claim_le (st_taskInsertion s) b.2 e.2
  end.
Proof.
  unfold claimScan. induction entries as [|e l IH] using rev_ind; simpl.
  { by intros e He%not_elem_of_nil. }
  rewrite fold_left_app; simpl. unfold claimStep at 1. rewrite notClaimable_runnable.
  destruct (fold_left _ l None) as [b|].
  - destruct IH as (Hb & Hrun & Hle). destruct (runnable now e.2) eqn:He; simpl.
    + destruct (claimsBefore s e.2 b.2) eqn:Hlt.
      * split; [set_solver|]. split; [done|].
        intros e' [Hin| ->%list_elem_of_singleton]%elem_of_app Hr; [|unfold claim_le; lia].
        eapply claim_le_trans; [|by apply Hle]. unfold claim_le. unfold claimsBefore in Hlt.
        change (numberOf _ ?t) with (insertionOf s t). destruct (orb_prop _ _ Hlt); go_bool; lia.
      * split; [set_solver|]. split; [done|].
        intros e' [Hin| ->%list_elem_of_singleton]%elem_of_app Hr; [by apply Hle|].
        unfold claim_le, claimsBefore in *. change (numberOf _ ?t) with (insertionOf s t).
        apply orb_false_iff in Hlt as [H1 H2]. apply andb_false_iff in H2. go_bool.
        destruct H2; go_bool; lia.
    + split; [set_solver|]. split; [done|].
      intros e' [Hin| ->%list_elem_of_singleton]%elem_of_app Hr; [by apply Hle|congruence].
  - destruct (runnable now e.2) eqn:He; simpl.
    + split; [set_solver|]. split; [done|].
      intros e' [Hin| ->%list_elem_of_singleton]%elem_of_app Hr; [|unfold claim_le; lia].
      by rewrite (IH _ Hin) in Hr.
    + intros e' [Hin| ->%list_elem_of_singleton]%elem_of_app; [by apply IH|done].
Qed.

(** The contract's choice is the least runnable task of the queue. *)
Lemma earliest_spec numbers now queue :
  StronglySorted (λ t u, numberOf numbers t < numberOf numbers u)%Z queue →
  match earliest now queue with
  | None => ∀ t, t ∈ queue → runnable now t = false
  | Some t => t ∈ queue ∧ runnable now t = true ∧
      ∀ u, u ∈ queue → runnable now u = true → claim_le numbers t u
  end.
Proof.
  induction 1 as [|t queue Hs IH Hall]; simpl; [by intros e He%not_elem_of_nil|].
  rewrite Forall_forall in Hall. destruct (runnable now t) eqn:Ht.
  - destruct (earliest now queue) as [u|].
    + destruct IH as (Hu & Hrun & Hle). destruct (Z.ltb_spec (task_RunAt u) (task_RunAt t)).
      * split; [by right|]. split; [done|].
        intros v [->|Hv]%elem_of_cons Hr; [left; lia|by apply Hle].
      * split; [left|]. split; [done|]. intros v [->|Hv]%elem_of_cons Hr; [right; lia|].
        specialize (Hle _ Hv Hr). specialize (Hall _ Hv). unfold claim_le in *. lia.
    + split; [left|]. split; [done|]. intros v [->|Hv]%elem_of_cons Hr; [right; lia|].
      by rewrite (IH _ Hv) in Hr.
  - destruct (earliest now queue) as [u|].
    + destruct IH as (Hu & Hrun & Hle). split; [by right|]. split; [done|].
      intros v [->|Hv]%elem_of_cons Hr; [congruence|by apply Hle].
    + intros v [->|Hv]%elem_of_cons; [done|by apply IH].
Qed.

(** Both choices agree: the claim does not depend on the iteration order of Go's map. *)
Lemma claimScan_earliest s now queue entries :
  tasks_rel (st_tasks s) (st_taskSequence s) (st_taskInsertion s) queue →
  entries ≡ₚ map_to_list (st_tasks s) →
  claimScan s now entries = (λ t, (task_ID t, t)) <$> earliest now queue.
Proof.
  intros R Hperm.
  assert (∀ e, e ∈ entries ↔ e.2 ∈ queue ∧ task_ID e.2 = e.1) as Hin.
  { intros [k t]. rewrite Hperm, elem_of_map_to_list. apply R. }
  pose proof (claimScan_spec s now entries) as Hscan.
  pose proof (earliest_spec _ now queue (tr_sorted _ _ _ _ R)) as Hearly.
  destruct (claimScan s now entries) as [[k b]|], (earliest now queue) as [t|]; simpl; [|..|done].
  - destruct Hscan as (Hb & Hrun & Hle), Hearly as (Ht & Hrunt & Hlet).
    apply Hin in Hb as [Hb Hk]; simpl in *. subst k.
    assert (b = t) as ->; [|done].
    apply (number_inj _ _ _ _ R); [done..|]. apply claim_le_antisym; [|by apply Hlet].
    apply (Hle (task_ID t, t)); [by apply Hin|done].
  - destruct Hscan as (Hb & Hrun & _). apply Hin in Hb as [Hb _]; simpl in *.
    by rewrite (Hearly _ Hb) in Hrun.
  - destruct Hearly as (Ht & Hrun & _). specialize (Hscan (task_ID t, t)). simpl in Hscan.
    rewrite Hscan in Hrun; [done|]. by apply Hin.
Qed.

Section queue_updates.
Context (tasks : gmap string Task) (sequence : Z) (numbers : gmap string Z) (queue : list Task).
Context (R : tasks_rel tasks sequence numbers queue).

Lemma numberOf_ext t u : task_ID t = task_ID u → numberOf numbers t = numberOf numbers u.
Proof. unfold numberOf. by intros ->. Qed.

Lemma update_task_ids id f :
  (∀ t, task_ID (f t) = task_ID t) → map task_ID (update_task id f queue) = map task_ID queue.
Proof.
  intros Hf. unfold update_task. rewrite map_map. apply map_ext. intros t.
  destruct (task_ID t == id); auto.
Qed.

(** A change of one stored task is a change in place of the queue. *)
Lemma tasks_rel_update id t f :
  (∀ t, task_ID (f t) = task_ID t) → tasks !! id = Some t →
  tasks_rel (<[id := f t]> tasks) sequence numbers (update_task id f queue).
Proof.
  intros Hf Ht. pose proof Ht as Htq. apply R in Htq as [Hin Hid].
  split; [| |  |apply R| |apply R].
  - intros id' u. unfold update_task. rewrite list_elem_of_fmap.
    destruct (decide (id = id')) as [<-|Hne].
    + rewrite lookup_insert_eq. split.
      * intros [= <-]. split; [|by rewrite Hf]. exists t. split; [|done].
        by rewrite bool_decide_eq_true_2.
      * intros [(v & -> & Hv) Hvid]. destruct (decide (task_ID v = id)) as [E|E].
        -- rewrite bool_decide_eq_true_2 by done.
           assert (tasks !! id = Some v) by (by apply R). congruence.
        -- by rewrite bool_decide_eq_false_2 in Hvid.
    + rewrite lookup_insert_ne by done. rewrite (tr_lookup _ _ _ _ R). split.
      * intros [Hu Huid]. split; [|done]. exists u. split; [|done].
        rewrite bool_decide_eq_false_2; congruence.
      * intros [(v & -> & Hv) Hvid]. destruct (task_ID v == id) eqn:E; go_bool; [|done].
        rewrite Hf in Hvid. congruence.
  - rewrite update_task_ids by done. apply R.
  - intros id'. rewrite (tr_numbered _ _ _ _ R). destruct (decide (id = id')) as [<-|Hne].
    + rewrite lookup_insert_eq, Ht. by split.
    + by rewrite lookup_insert_ne.
  - pose proof (tr_sorted _ _ _ _ R) as Hs. clear R Ht Hin Hid. unfold update_task.
    assert (∀ u, numberOf numbers (if (task_ID u == id) then f u else u) = numberOf numbers u)
      as Hnum by (intros u; apply numberOf_ext; destruct (task_ID u == id); auto).
    induction Hs as [|u l Hs IH Hall]; simpl; constructor; [done|].
    apply Forall_map. eapply Forall_impl; [done|]; simpl. intros v Hv. by rewrite !Hnum.
Qed.

(** A new task goes to the end of the queue. *)
Lemma tasks_rel_insert t :
  tasks !! task_ID t = None → (sequence + 1 < 2 ^ 64)%Z →
  tasks_rel (<[task_ID t := t]> tasks) (sequence + 1)
    (<[task_ID t := (sequence + 1)%Z]> numbers) (queue ++ [t]).
Proof.
  intros Hnew Hroom. pose proof (tr_sequence _ _ _ _ R) as Hseq.
  assert (∀ u, u ∈ queue → task_ID u ≠ task_ID t) as Hfresh.
  { intros u Hu Heq. assert (tasks !! task_ID t = Some u) by (by apply R). congruence. }
  split; [| | | | |lia].
  - intros id u. rewrite elem_of_app, list_elem_of_singleton.
    destruct (decide (task_ID t = id)) as [<-|Hne].
    + rewrite lookup_insert_eq. split; [intros [= <-]; auto|].
      intros [[Hu| ->] Hid]; [|done]. by destruct (Hfresh _ Hu).
    + rewrite lookup_insert_ne by done. rewrite (tr_lookup _ _ _ _ R). naive_solver.
  - rewrite map_app. apply NoDup_app. split; [apply R|]. split; [|apply NoDup_singleton].
    intros id Hid. apply list_elem_of_fmap in Hid as (u & -> & Hu). simpl.
    rewrite list_elem_of_singleton. by apply Hfresh.
  - intros id. destruct (decide (task_ID t = id)) as [<-|Hne].
    + rewrite !lookup_insert_eq. by split.
    + rewrite !lookup_insert_ne by done. apply R.
  - intros id n. destruct (decide (task_ID t = id)) as [<-|Hne].
    + rewrite lookup_insert_eq. intros [= <-]. lia.
    + rewrite lookup_insert_ne by done. intros Hn. pose proof (tr_bounded _ _ _ _ R _ _ Hn). lia.
  - assert (∀ u, u ∈ queue → numberOf (<[task_ID t:=(sequence + 1)%Z]> numbers) u =
      numberOf numbers u) as Hold.
    { intros u Hu. unfold numberOf. rewrite lookup_insert_ne; [done|].
      symmetry. by apply Hfresh. }
    assert (∀ u, u ∈ queue → (numberOf numbers u ≤ sequence)%Z) as Hbound.
    { intros u Hu. assert (tasks !! task_ID u = Some u) as Hlk by (by apply R).
      destruct (proj2 (tr_numbered _ _ _ _ R (task_ID u))) as [n Hn]; [by rewrite Hlk|].
      unfold numberOf. rewrite Hn; simpl. by apply R in Hn as [_ ?]. }
    assert (numberOf (<[task_ID t:=(sequence + 1)%Z]> numbers) t = sequence + 1)%Z as Hlast
      by (unfold numberOf; by rewrite lookup_insert_eq).
    pose proof (tr_sorted _ _ _ _ R) as Hs. clear - Hs Hold Hbound Hlast.
    induction Hs as [|u l Hs IH Hall]; simpl; [by repeat constructor|].
    constructor.
    + apply IH; intros v Hv; [apply Hold|apply Hbound]; by right.
    + rewrite Forall_app, Forall_singleton. split.
      * rewrite Forall_forall in *. intros v Hv. rewrite !Hold by (by constructor). by apply Hall.
      * rewrite Hlast, Hold by left. pose proof (Hbound u ltac:(left)). lia.
Qed.

Lemma tasks_rel_remove id :
  tasks_rel (delete id tasks) sequence (delete id numbers) (remove_task id queue).
Proof.
  assert (∀ u, u ∈ remove_task id queue → u ∈ queue ∧ task_ID u ≠ id) as Hin
    by (intros u [? ?]%list_elem_of_filter; done).
  split; [| | | | |apply R].
  - intros id' u. unfold remove_task. rewrite list_elem_of_filter.
    destruct (decide (id = id')) as [<-|Hne].
    + rewrite lookup_delete_eq. naive_solver.
    + rewrite lookup_delete_ne by done. rewrite (tr_lookup _ _ _ _ R). naive_solver.
  - unfold remove_task. pose proof (tr_nodup _ _ _ _ R) as Hnd. clear R Hin.
    induction queue as [|u l IH]; [done|]. rewrite filter_cons. simpl in Hnd.
    apply NoDup_cons in Hnd as [Hu Hnd]. case_decide; [|by apply IH]. simpl.
    apply NoDup_cons. split; [|by apply IH]. intros (v & Heq & Hv)%list_elem_of_fmap.
    apply list_elem_of_filter in Hv as [_ Hv]. apply Hu. rewrite Heq.
    by apply list_elem_of_fmap_2.
  - intros id'. destruct (decide (id = id')) as [<-|Hne].
    + rewrite !lookup_delete_eq. by split; intros [].
    + rewrite !lookup_delete_ne by done. apply R.
  - intros id' n Hn. apply lookup_delete_Some in Hn as [_ Hn]. by apply R in Hn.
  - assert (∀ u, task_ID u ≠ id → numberOf (delete id numbers) u = numberOf numbers u) as Hnum.
    { intros u Hne. unfold numberOf. by rewrite lookup_delete_ne. }
    pose proof (tr_sorted _ _ _ _ R) as Hs. clear - Hs Hnum. unfold remove_task.
    induction Hs as [|u l Hs IH Hall]; [constructor|]. rewrite filter_cons.
    case_decide as Hne; [|done]. constructor; [done|]. rewrite Forall_forall in *.
    intros v [Hv Hin]%list_elem_of_filter. rewrite !Hnum by done. by apply Hall.
Qed.

End queue_updates.
