(* ===== verification/MemstoreCalls.v ===== *)
(** * Every call of the in-memory store refines the contract

    One lemma per method of [memstore.Store], collected in the instance of [StoreSpec]. *)

From S2P Require Import Prelude Status Problem Resource StoreSpec Memstore MemstoreRefine.

(** ** Revision and fence checks *)

Section checks.
Context (s : Store) (a : AStore) (R : mem_rel s a).

Lemma checkOrder_spec o : checkOrder o s = spec_checkOrder o a.
Proof.
  unfold checkOrder, spec_checkOrder, check_revision. rewrite (mr_orders _ _ R).
  destruct (as_orders a !! _); simpl; [|done]. by destruct (_ == _).
Qed.

Lemma checkAuthorization_spec z : checkAuthorization z s = spec_checkAuthz z a.
Proof.
  unfold checkAuthorization, spec_checkAuthz, check_revision. rewrite (mr_authzs _ _ R).
  destruct (as_authzs a !! _); simpl; [|done]. by destruct (_ == _).
Qed.

Lemma checkChallenge_spec c : checkChallenge c s = spec_checkChallenge c a.
Proof.
  unfold checkChallenge, spec_checkChallenge, check_revision. rewrite (mr_challenges _ _ R).
  destruct (as_challenges a !! _); simpl; [|done]. by destruct (_ == _).
Qed.

Lemma checkNewTask_spec t : task_ID t ≠ "" → checkNewTask t s = spec_newTask t a.
Proof.
  intros Hid. unfold checkNewTask, spec_newTask. rewrite bool_decide_eq_false_2 by done.
  by rewrite (tasks_find _ _ _ _ (mr_tasks_rel _ _ R)).
Qed.

Lemma checkTask_spec t :
  match checkTask t s with
  | Err err => spec_checkTask t a = Some err
  | Ok stored => spec_checkTask t a = None ∧ st_tasks s !! task_ID t = Some stored
  end.
Proof.
  unfold checkTask, spec_checkTask, check_revision.
  rewrite (tasks_find _ _ _ _ (mr_tasks_rel _ _ R)).
  destruct (st_tasks s !! _); simpl; [|done]. by destruct (_ == _).
Qed.

End checks.

(** A resource that passes its revision check is stored. *)
Lemma spec_checkOrder_None o a :
  spec_checkOrder o a = None → ∃ o', as_orders a !! ord_ID o = Some o' ∧
    ord_Revision o' = ord_Revision o.
Proof. intros H%check_revision_None. by apply fmap_Some in H as (o' & ? & ?); eauto. Qed.

Lemma spec_checkAuthz_None z a :
  spec_checkAuthz z a = None → ∃ z', as_authzs a !! az_ID z = Some z' ∧
    az_Revision z' = az_Revision z.
Proof. intros H%check_revision_None. by apply fmap_Some in H as (z' & ? & ?); eauto. Qed.

(** ** Updates of one resource *)

Section updates.
Context (s : Store) (a : AStore) (R : mem_rel s a).

Lemma orders_rel_update orders orderIDs created o :
  orders_rel orders orderIDs created → is_Some (orders !! ord_ID o) →
  orders_rel (<[ord_ID o := o]> orders) orderIDs created.
Proof.
  intros RO [o' Ho']. split; try apply RO.
  - apply insert_id_rel, RO.
  - intros id. rewrite (or_created _ _ _ RO). destruct (decide (ord_ID o = id)) as [<-|Hne].
    + rewrite lookup_insert_eq, Ho'. by split.
    + by rewrite lookup_insert_ne.
Qed.

Lemma authzs_rel_update authzs index z z' :
  authzs_rel authzs index → authzs !! az_ID z = Some z' →
  az_AccountID z = az_AccountID z' → orderIdentifier z = orderIdentifier z' →
  authzs_rel (<[az_ID z := z]> authzs) index.
Proof.
  intros RZ Hz' Hacc Hid. split; [apply insert_id_rel, RZ|].
  assert (authorizationIndexKey z = authorizationIndexKey z') as Hkey.
  { change (mkAuthorizationKey (az_AccountID z) (orderIdentifier z) =
            mkAuthorizationKey (az_AccountID z') (orderIdentifier z')). congruence. }
  intros k id. rewrite (zr_index _ _ RZ). destruct (decide (az_ID z = id)) as [<-|Hne].
  - rewrite lookup_insert_eq, Hz'. split; intros (u & [= <-] & <-); eauto.
  - by rewrite lookup_insert_ne.
Qed.

Lemma mem_rel_put_order o :
  is_Some (as_orders a !! ord_ID o) →
  mem_rel {| s with st_orders := <[ord_ID o := o]> (st_orders s) |} (put_order o a).
Proof.
  intros Ho. pose proof R as []. split; simpl; try done; [congruence|].
  by apply orders_rel_update.
Qed.

Lemma mem_rel_put_authz z z' :
  as_authzs a !! az_ID z = Some z' →
  az_AccountID z = az_AccountID z' → orderIdentifier z = orderIdentifier z' →
  mem_rel {| s with st_authzs := <[az_ID z := z]> (st_authzs s) |} (put_authz z a).
Proof.
  intros Hz' Hacc Hid. pose proof R as []. split; simpl; try done; [congruence|].
  by eapply authzs_rel_update.
Qed.

Lemma mem_rel_put_challenge c : mem_rel (storeChallenge s c) (put_challenge c a).
Proof.
  pose proof R as []. split; simpl; try done; [congruence|]. by apply insert_id_rel.
Qed.

Lemma mem_rel_update_task id t f :
  (∀ t, task_ID (f t) = task_ID t) → st_tasks s !! id = Some t →
  mem_rel {| s with st_tasks := <[id := f t]> (st_tasks s) |}
    (put_tasks (update_task id f (as_tasks a)) a).
Proof.
  intros Hf Ht. pose proof R as []. split; simpl; try done. by apply tasks_rel_update.
Qed.

Lemma mem_rel_remove_task id :
  mem_rel (removeTask id s) (put_tasks (remove_task id (as_tasks a)) a).
Proof. pose proof R as []. split; simpl; try done. by apply tasks_rel_remove. Qed.

Lemma mem_rel_insert_task t :
  spec_newTask t a = None → (st_taskSequence s + 1 < 2 ^ 64)%Z →
  (insertTask t s).1 = enqueued t ∧
  mem_rel (insertTask t s).2 (put_tasks (as_tasks a ++ [enqueued t]) a).
Proof.
  intros Hnew Hroom. split; [done|]. pose proof (mr_tasks_rel _ _ R) as RT.
  pose proof R as []. split; simpl; try done.
  unfold spec_newTask in Hnew. rewrite (tasks_find _ _ _ _ RT) in Hnew.
  destruct (st_tasks s !! _) eqn:Ht; [done|].
  pose proof (tr_sequence _ _ _ _ RT). rewrite u64_small by lia.
  by apply (tasks_rel_insert _ _ _ _ RT (enqueued t)).
Qed.

End updates.

(** ** Calls that change tasks, challenges, authorizations and orders *)

Section calls.
Context (s : Store) (a : AStore) (R : mem_rel s a) (room : (st_taskSequence s + 1 < 2 ^ 64)%Z).

Lemma refines_acceptChallenge c t :
  task_ID t ≠ "" → refines (AcceptChallenge None c t s) (spec_exec (CallAcceptChallenge c t) a).
Proof.
  intros Hid. unfold AcceptChallenge. simpl. unfold guarded; simpl.
  rewrite (checkChallenge_spec _ _ R). destruct (spec_checkChallenge c a); [by auto with acme|].
  rewrite (checkNewTask_spec _ _ R) by done.
  destruct (spec_newTask t a) eqn:Hnew; [by auto with acme|]. split; [done|].
  by apply (mem_rel_insert_task _ _ (mem_rel_put_challenge _ _ R (bump_challenge c))).
Qed.

Lemma refines_finalizeOrder o t :
  task_ID t ≠ "" → refines (FinalizeOrder None o t s) (spec_exec (CallFinalizeOrder o t) a).
Proof.
  intros Hid. unfold FinalizeOrder. simpl. unfold guarded; simpl.
  rewrite (checkOrder_spec _ _ R). destruct (spec_checkOrder o a) eqn:Ho; [by auto with acme|].
  rewrite (checkNewTask_spec _ _ R) by done.
  destruct (spec_newTask t a) eqn:Hnew; [by auto with acme|]. split; [done|].
  apply spec_checkOrder_None in Ho as (o' & Ho & _).
  by apply (mem_rel_insert_task _ _ (mem_rel_put_order _ _ R (bump_order o) ltac:(by eexists))).
Qed.

Lemma refines_rescheduleTask t :
  refines (RescheduleTask None t s) (spec_exec (CallRescheduleTask t) a).
Proof.
  unfold RescheduleTask. simpl. unfold guarded; simpl.
  pose proof (checkTask_spec s a R t). destruct (checkTask t s) as [stored|err].
  - destruct H as [-> Ht]. split; [done|].
    by apply (mem_rel_update_task _ _ R _ stored (released (task_RunAt t))).
  - rewrite H. by auto with acme.
Qed.

Lemma refines_retryValidation t c :
  refines (RetryValidation None t c s) (spec_exec (CallRetryValidation t c) a).
Proof.
  unfold RetryValidation. simpl. unfold guarded; simpl.
  pose proof (checkTask_spec s a R t). destruct (checkTask t s) as [stored|err].
  - destruct H as [-> Ht]. rewrite (checkChallenge_spec _ _ R).
    destruct (spec_checkChallenge c a); [by auto with acme|]. split; [done|].
    by apply (mem_rel_update_task _ _ (mem_rel_put_challenge _ _ R (bump_challenge c))
      _ stored (released (task_RunAt t))).
  - rewrite H. by auto with acme.
Qed.

Lemma refines_finishTask t : refines (FinishTask None t s) (spec_exec (CallFinishTask t) a).
Proof.
  unfold FinishTask. simpl. unfold guarded; simpl.
  pose proof (checkTask_spec s a R t). destruct (checkTask t s) as [stored|err].
  - destruct H as [-> Ht]. split; [done|]. by apply mem_rel_remove_task.
  - rewrite H. by auto with acme.
Qed.

Lemma refines_completeValidation t c z o :
  keeps_scope z a →
  refines (CompleteValidation None t c z o s) (spec_exec (CallCompleteValidation t c z o) a).
Proof.
  intros Hscope. unfold CompleteValidation. simpl. unfold guarded; simpl.
  pose proof (checkTask_spec s a R t). destruct (checkTask t s) as [stored|err];
    [destruct H as [-> Ht]|rewrite H; by auto with acme].
  rewrite (checkChallenge_spec _ _ R). destruct (spec_checkChallenge c a); [by auto with acme|].
  rewrite (checkAuthorization_spec _ _ R).
  destruct (spec_checkAuthz z a) eqn:Hz; [by auto with acme|].
  rewrite (checkOrder_spec _ _ R). destruct (spec_checkOrder o a) eqn:Ho; [by auto with acme|].
  split; [done|]. apply spec_checkOrder_None in Ho as (o' & Ho & _).
  apply spec_checkAuthz_None in Hz as (z' & Hz & _). destruct (Hscope _ Hz) as [Hacc Hident].
  pose proof (mem_rel_put_challenge _ _ R (bump_challenge c)) as R1.
  pose proof (mem_rel_put_authz _ _ R1 (bump_authz z) z' Hz Hacc Hident) as R2.
  pose proof (mem_rel_put_order _ _ R2 (bump_order o) ltac:(by eexists)) as R3.
  by apply (mem_rel_remove_task _ _ R3).
Qed.

Lemma undispatched_spec o : undispatched o = spec_undispatched o.
Proof. unfold undispatched, spec_undispatched. by destruct (ord_Status o). Qed.

Lemma refines_updateAuthorization z :
  keeps_scope z a →
  refines (UpdateAuthorization None z s) (spec_exec (CallUpdateAuthorization z) a).
Proof.
  intros Hscope. unfold UpdateAuthorization. simpl. unfold spec_updateAuthorization.
  rewrite (checkAuthorization_spec _ _ R).
  destruct (spec_checkAuthz z a) eqn:Hz; [by auto with acme|].
  apply spec_checkAuthz_None in Hz as (z' & Hz & _). destruct (Hscope _ Hz) as [Hacc Hident].
  pose proof (mem_rel_put_authz _ _ R (bump_authz z) z' Hz Hacc Hident) as R1.
  split; [done|]. simpl.
  replace (st_orders s !! az_OrderID z) with (as_orders a !! az_OrderID z)
    by (by rewrite (mr_orders _ _ R)).
  destruct (AuthorizationStatus_Terminal (az_Status z)); simpl.
  - destruct (as_orders a !! az_OrderID z) as [o|] eqn:Ho; [|done].
    rewrite undispatched_spec. destruct (spec_undispatched o); [|done].
    pose proof (or_id _ _ _ (mr_orders_rel _ _ R) _ _ Ho) as Hoid.
    pose proof (mem_rel_put_order _ _ R1 (spec_invalidated o)) as R2. simpl in R2.
    rewrite Hoid in R2. apply R2. by eexists.
  - by destruct (as_orders a !! az_OrderID z).
Qed.

Lemma refines_claimTask now leaseUntil :
  refines (ClaimTask None now leaseUntil s) (spec_exec (CallClaimTask now leaseUntil) a).
Proof.
  unfold ClaimTask. simpl. unfold spec_claimTask.
  pose proof (mr_tasks_rel _ _ R) as RT.
  rewrite (claimScan_earliest s now (as_tasks a)) by done.
  pose proof (earliest_spec _ now _ (tr_sorted _ _ _ _ RT)) as Hspec.
  destruct (earliest now (as_tasks a)) as [t|]; simpl; [|by auto with acme].
  destruct Hspec as (Hin & _ & _). split; [done|].
  apply (mem_rel_update_task _ _ R _ t (claimed leaseUntil)); [done|]. by apply RT.
Qed.

Lemma refines_counts p q :
  (∀ t, t ∈ as_tasks a → p t = q t) → countTasks p s = count_tasks q (as_tasks a).
Proof.
  intros Hpq. unfold countTasks, count_tasks.
  rewrite (tasks_count _ _ _ _ (mr_tasks_rel _ _ R)). do 2 f_equal. clear R.
  induction (as_tasks a) as [|t l IH]; [done|].
  rewrite !filter_cons, IH by (intros; apply Hpq; by right). rewrite (Hpq t) by left. done.
Qed.

End calls.

(** ** Certificates *)

Lemma certs_rel_update certs byRenewal c c' :
  certs_rel certs byRenewal → certs !! crt_ID c = Some c' → crt_RenewalID c = crt_RenewalID c' →
  certs_rel (<[crt_ID c := c]> certs) byRenewal.
Proof.
  intros RC Hc' Heq. split; [apply insert_id_rel, RC|]. by eapply index_rel_same; [apply RC|..].
Qed.

Lemma mem_rel_put_cert s a c c' :
  mem_rel s a → as_certificates a !! crt_ID c = Some c' → crt_RenewalID c = crt_RenewalID c' →
  mem_rel {| s with st_certificates := <[crt_ID c := c]> (st_certificates s) |}
    {| a with as_certificates := <[crt_ID c := c]> (as_certificates a) |}.
Proof.
  intros R Hc' Heq. pose proof R as []. split; simpl; try done; [congruence|].
  by eapply certs_rel_update.
Qed.

Lemma refines_updateCertificate s a c :
  mem_rel s a → legal (CallUpdateCertificate c) a →
  refines (UpdateCertificate None c s) (spec_exec (CallUpdateCertificate c) a).
Proof.
  intros R Hlegal. unfold UpdateCertificate. simpl in *. unfold guarded; simpl.
  replace (st_certificates s !! crt_ID c) with (as_certificates a !! crt_ID c)
    by (by rewrite (mr_certificates _ _ R)).
  destruct (as_certificates a !! crt_ID c) as [c'|] eqn:Hc; simpl; [|by auto with acme].
  destruct (_ == _) eqn:Hrev; simpl; [|by auto with acme]. split; [done|].
  eapply (mem_rel_put_cert _ _ {| c with crt_Revision := _ |}); [done..|]. by apply Hlegal.
Qed.

Lemma renewal_find s a r :
  mem_rel s a → r ≠ "" →
  find_renewal r a = st_certByRenewal s !! r ≫= λ id, as_certificates a !! id.
Proof.
  intros R Hr. apply (index_find _ _ _ _ (cr_renewal _ _ (mr_certs_rel _ _ R))).
  by apply nonEmpty_true.
Qed.

Lemma refines_certificateByRenewalID s a r :
  mem_rel s a →
  refines (CertificateByRenewalID None r s) (spec_exec (CallCertificateByRenewalID r) a).
Proof.
  intros R. unfold CertificateByRenewalID; simpl. destruct (r == "") eqn:Hr.
  - destruct (st_certByRenewal s !! r); by auto with acme.
  - go_bool. unfold lookup_result. rewrite (renewal_find _ _ _ R) by done.
    rewrite (mr_certificates _ _ R).
    destruct (st_certByRenewal s !! r) as [id|] eqn:Hid; simpl; [|by auto with acme].
    destruct (index_resource _ _ _ _ (cr_renewal _ _ (mr_certs_rel _ _ R)) _ _ Hid) as (c & -> & _).
    by auto with acme.
Qed.

(** Storing a certificate whose ID and renewal identifier are free. *)
Lemma refines_storeCertificate s a c :
  mem_rel s a → crt_ID c ≠ "" →
  let c' := {| c with crt_Revision := 1%Z |} in
  if bool_decide (is_Some (as_certificates a !! crt_ID c)) ||
     ((crt_RenewalID c != "") && bool_decide (is_Some (find_renewal (crt_RenewalID c) a)))
  then storeCertificate c s = (Err ErrConflict, s)
  else (storeCertificate c s).1 = Ok c' ∧
       mem_rel (storeCertificate c s).2
         {| a with as_certificates := <[crt_ID c := c']> (as_certificates a) |} ∧
       st_orders (storeCertificate c s).2 = st_orders s.
Proof.
  intros R Hid. simpl. unfold storeCertificate. rewrite (bool_decide_eq_false_2 _ Hid).
  replace (st_certificates s !! crt_ID c) with (as_certificates a !! crt_ID c)
    by (by rewrite (mr_certificates _ _ R)).
  destruct (as_certificates a !! crt_ID c) as [old|] eqn:Hold; [done|].
  rewrite bool_decide_is_Some_None; simpl.
  pose proof (mr_certs_rel _ _ R) as RC.
  assert (bool_decide (is_Some (st_certByRenewal s !! crt_RenewalID c)) && (crt_RenewalID c != "") =
    (crt_RenewalID c != "") && bool_decide (is_Some (find_renewal (crt_RenewalID c) a))) as ->.
  { rewrite andb_comm. destruct (crt_RenewalID c != "") eqn:Hr; [simpl|done].
    by apply (index_in_use _ _ _ _ (cr_renewal _ _ RC)). }
  destruct (_ && _) eqn:Hconf; [done|]. split; [done|].
  assert (certs_rel (<[crt_ID c := {| c with crt_Revision := 1%Z |}]> (as_certificates a))
    (reindex nonEmpty crt_RenewalID (as_certificates a) (st_certByRenewal s) (crt_ID c)
       {| c with crt_Revision := 1%Z |})) as Hins.
  { split; [apply (insert_id_rel crt_ID _ {| c with crt_Revision := 1%Z |}), RC|].
    apply index_rel_insert; [apply RC|]. simpl. intros id' w Hw _ Hok. unfold nonEmpty in Hok.
    rewrite Hok in Hconf; simpl in Hconf. go_bool. intros Heq. apply Hconf.
    destruct (find_renewal (crt_RenewalID c) a) eqn:Hf; [by eexists|].
    pose proof (find_value_None _ _ _ _ Hf Hw) as Hw0. simpl in Hw0. by go_bool. }
  unfold reindex, nonEmpty in Hins; simpl in Hins. rewrite Hold in Hins.
  pose proof R as []. simpl.
  destruct (crt_RenewalID c != ""); simpl; split; try done; split; simpl; try done; congruence.
Qed.

Lemma refines_completeIssuance s a t o c :
  mem_rel s a → legal (CallCompleteIssuance t o c) a →
  refines (CompleteIssuance None t o c s) (spec_exec (CallCompleteIssuance t o c) a).
Proof.
  intros R Hlegal. unfold CompleteIssuance. simpl in *. unfold spec_completeIssuance, guarded.
  simpl. pose proof (checkTask_spec s a R t). destruct (checkTask t s) as [stored|err];
    [destruct H as [-> Ht]|rewrite H; by auto with acme].
  rewrite (checkOrder_spec _ _ R). destruct (spec_checkOrder o a) eqn:Ho; [by auto with acme|].
  apply spec_checkOrder_None in Ho as (o' & Ho & _).
  destruct c as [c|]; simpl.
  - pose proof (refines_storeCertificate s a c R Hlegal) as Hc. simpl in Hc.
    destruct (_ || _); [rewrite Hc; by auto with acme|].
    destruct (storeCertificate c s) as [r s1]; simpl in *. destruct Hc as (-> & R1 & Hords).
    split; [done|]. simpl.
    pose proof (mem_rel_put_order _ _ R1 (bump_order o) ltac:(by eexists)) as R2.
    by apply (mem_rel_remove_task _ _ R2).
  - split; [done|]. pose proof (mem_rel_put_order _ _ R (bump_order o) ltac:(by eexists)) as R2.
    by apply (mem_rel_remove_task _ _ R2).
Qed.

(** ** Lookups and counts *)

Lemma refines_accountByKey s a k :
  mem_rel s a → refines (AccountByKey None k s) (spec_exec (CallAccountByKey k) a).
Proof.
  intros R. unfold AccountByKey; simpl. unfold lookup_result.
  pose proof (ar_key _ _ _ (mr_accounts_rel _ _ R)) as RK.
  rewrite (index_find _ _ _ _ RK) by done. rewrite (mr_accounts _ _ R).
  destruct (st_accountByKey s !! k) as [id|] eqn:Hid; simpl; [|by auto with acme].
  destruct (index_resource _ _ _ _ RK _ _ Hid) as (b & -> & _). by auto with acme.
Qed.

(** Where the code reads one map and returns the entry or [ErrNotFound]. *)
Lemma refines_lookup {X} (o o' : option X) s a :
  mem_rel s a → o = o' →
  refines (match o with None => (Err ErrNotFound, s) | Some x => (Ok x, s) end)
    (lookup_result o' a).
Proof. intros R <-. unfold lookup_result. destruct o; by auto with acme. Qed.

Lemma refines_pendingTasks s a before :
  mem_rel s a → refines (PendingTasks None before s) (spec_exec (CallPendingTasks before) a).
Proof.
  intros R. split; [|done]. simpl. f_equal. apply (refines_counts _ _ R). intros t _.
  rewrite <-(negb_involutive (runnable _ _)), <-notClaimable_runnable. unfold notClaimable.
  by rewrite negb_orb, negb_andb, negb_involutive.
Qed.

Lemma refines_leasedTasks s a now :
  mem_rel s a → (0 ≤ now)%Z → refines (LeasedTasks None now s) (spec_exec (CallLeasedTasks now) a).
Proof.
  intros R Hnow. split; [|done]. simpl. f_equal. apply (refines_counts _ _ R). intros t _.
  unfold leased, After. destruct (now <? task_LeaseUntil t)%Z eqn:Hl; [|by rewrite andb_false_r].
  go_bool. rewrite andb_true_r. symmetry. apply negb_bool_decide_true. unfold zeroTime. lia.
Qed.

Lemma refines_accountValidations s a acc :
  mem_rel s a →
  refines (AccountValidations None acc s) (spec_exec (CallAccountValidations acc) a).
Proof. intros R. split; [|done]. simpl. f_equal. by apply (refines_counts _ _ R). Qed.

Lemma refines_orderIDs s a acc after limit :
  mem_rel s a → legal (CallOrderIDs acc after limit) a →
  refines (OrderIDs None acc after limit s) (spec_exec (CallOrderIDs acc after limit) a).
Proof.
  intros R [Hlimit Hmax]. unfold OrderIDs; simpl. unfold spec_orderIDs, page_start.
  rewrite (proj2 (Z.leb_gt limit 0) Hlimit), (or_listed _ _ _ (mr_orders_rel _ _ R)).
  set (ids := orders_of acc (as_created a)) in *.
  assert (∀ start : nat, (start ≤ length ids)%nat → go_slice ids (Z.of_nat start)
    (Z.min (i64 (Z.of_nat start + limit)) (Z.of_nat (length ids))) =
    Ok (take (Z.to_nat limit) (drop start ids))) as Hslice.
  { intros start Hle. rewrite i64_small by lia. unfold go_slice.
    rewrite (proj2 (Z.leb_le 0 _)), (proj2 (Z.leb_le (Z.of_nat start) _)),
      (proj2 (Z.leb_le (Z.min _ _) _)) by lia. simpl. rewrite Nat2Z.id. f_equal.
    destruct (Z.le_ge_cases (Z.of_nat start + limit) (Z.of_nat (length ids))).
    - rewrite Z.min_l by lia. f_equal. lia.
    - rewrite Z.min_r, !take_ge by (rewrite ?length_drop; lia). done. }
  destruct (after == "").
  - change 0%Z with (Z.of_nat 0). rewrite Hslice by lia. by auto with acme.
  - destruct (list_find _ ids) as [[pos id]|] eqn:Hfind; simpl; [|by auto with acme].
    apply list_find_Some in Hfind as (Hpos & _ & _). apply lookup_lt_Some in Hpos.
    replace (Z.of_nat pos + 1)%Z with (Z.of_nat (S pos)) by lia.
    rewrite Hslice by lia. by auto with acme.
Qed.

(** ** Authorizations of an account *)

Lemma authorizedBy_spec s a acc identifier now :
  mem_rel s a →
  authorizedBy (as_authzs a) now (map_ids (st_authzIndex s) (mkAuthorizationKey acc identifier)) =
  Ok (has_value (authorizes acc identifier now) (as_authzs a)).
Proof.
  intros R. pose proof (zr_index _ _ (mr_authzs_rel _ _ R) (mkAuthorizationKey acc identifier)) as H.
  assert (∀ ids, (∀ id, id ∈ ids → ∃ z, as_authzs a !! id = Some z ∧
      authorizationIndexKey z = mkAuthorizationKey acc identifier) →
    (∃ id z, id ∈ ids ∧ as_authzs a !! id = Some z ∧ authorizes acc identifier now z = true) ∧
      authorizedBy (as_authzs a) now ids = Ok true ∨
    (∀ id z, id ∈ ids → as_authzs a !! id = Some z → authorizes acc identifier now z = false) ∧
      authorizedBy (as_authzs a) now ids = Ok false) as Hloop.
  { clear H. induction ids as [|id ids IH]; intros Hids; simpl.
    { right. split; [|done]. intros ? ? []%not_elem_of_nil. }
    destruct (Hids id) as (z & Hz & Hkey); [left|]. rewrite Hz.
    assert (authorizes acc identifier now z = (az_Status z == AuthorizationValid) &&
      negb (az_PreApproved z) && After (az_Expires z) now) as Hauth.
    { change (mkAuthorizationKey (az_AccountID z) (orderIdentifier z) =
        mkAuthorizationKey acc identifier) in Hkey. injection Hkey as <- <-.
      unfold authorizes. by rewrite (bool_decide_eq_true_2 (az_AccountID z = _)),
        (bool_decide_eq_true_2 (orderIdentifier z = _)) by done. }
    rewrite <-Hauth. destruct (authorizes acc identifier now z) eqn:Hz'.
    - left. split; [|done]. exists id, z. split; [left|done].
    - destruct IH as [[(id' & z' & ? & ?) ->]|[Hnone ->]].
      { intros id' ?. apply Hids. by right. }
      + left. split; [|done]. exists id', z'. split; [by right|done].
      + right. split; [|done]. intros id' z' [->|Hin]%elem_of_cons Hz1; [congruence|eauto]. }
  destruct (Hloop _ (λ id, proj1 (H id))) as [[(id & z & Hin & Hz & Hauth) ->]|[Hnone ->]]; f_equal;
    symmetry.
  - apply has_value_true. by exists id, z.
  - apply has_value_false. intros id z Hz. destruct (authorizes acc identifier now z) eqn:Hauth; [|done].
    rewrite <-Hauth. apply (Hnone id z); [|done]. apply H. exists z. split; [done|].
    unfold authorizes in Hauth. go_bool. subst. done.
Qed.

Lemma refines_authorizedFor s a acc identifiers now :
  mem_rel s a →
  refines (AuthorizedFor None acc identifiers now s)
    (spec_exec (CallAuthorizedFor acc identifiers now) a).
Proof.
  intros R. unfold AuthorizedFor; simpl. unfold spec_authorizedFor.
  replace (st_accounts s !! acc) with (as_accounts a !! acc) by (by rewrite (mr_accounts _ _ R)).
  destruct (as_accounts a !! acc) as [b|]; [|by auto with acme].
  destruct (_ == AccountValid); simpl; [|by auto with acme].
  destruct identifiers as [|i l]; [by auto with acme|].
  rewrite (bool_decide_eq_false_2 (length _ = _)), (bool_decide_eq_false_2 (i :: l = [])) by done.
  change (negb false) with true. rewrite andb_true_l. split; [|done]. cbn [fst].
  induction (i :: l) as [|j k IH]; [done|]. cbn [authorizedForAll forallb].
  rewrite (mr_authzs _ _ R), (authorizedBy_spec _ _ _ _ _ R).
  by destruct (has_value _ _).
Qed.

(** ** Starting an issuance *)

Lemma checkSnapshot_spec s a authorizedAt authzs ids :
  mem_rel s a →
  checkSnapshot authorizedAt authzs ids s =
  first_error (map (snapshot_error authorizedAt a) (zip authzs ids)).
Proof.
  intros R. revert ids. induction authzs as [|z authzs IH]; intros [|id ids]; try done.
  simpl. rewrite (checkAuthorization_spec _ _ R). destruct (spec_checkAuthz z a); [done|].
  rewrite <-!negb_andb. unfold After. destruct (_ && _); [apply IH|done].
Qed.

Lemma first_error_cons e errs :
  first_error (e :: errs) = match e with Some err => Some err | None => first_error errs end.
Proof. by destruct e. Qed.

Lemma refines_beginIssuance s a t o b authzs :
  mem_rel s a →
  refines (BeginIssuance None t o b authzs s) (spec_exec (CallBeginIssuance t o b authzs) a).
Proof.
  intros R. unfold BeginIssuance; cbn [spec_exec]. unfold spec_beginIssuance, guarded.
  cbn [app]. rewrite !first_error_cons.
  pose proof (checkTask_spec s a R t) as H. destruct (checkTask t s) as [stored|err];
    [destruct H as [-> Ht]|rewrite H; by auto with acme].
  rewrite (checkOrder_spec _ _ R). destruct (spec_checkOrder o a) eqn:Ho; [by auto with acme|].
  replace (st_accounts s !! acct_ID b) with (as_accounts a !! acct_ID b)
    by (by rewrite (mr_accounts _ _ R)).
  fold (account_current b a).
  destruct (account_current b a); simpl; [|by auto with acme].
  replace (st_orders s !! ord_ID o) with (as_orders a !! ord_ID o) by (by rewrite (mr_orders _ _ R)).
  destruct (ord_Issuance o) as [i|] eqn:Hi; [|by auto with acme].
  destruct (as_orders a !! ord_ID o) as [so|] eqn:Hso; [|by auto with acme].
  rewrite <-!negb_andb. destruct (_ && _); simpl; [|by auto with acme].
  rewrite (checkSnapshot_spec _ _ _ _ _ R). destruct (first_error _); [by auto with acme|].
  unfold bump_order; rewrite <-Hi. split; [done|]. by apply (mem_rel_put_order _ _ R (bump_order o)).
Qed.

(** ** Creating an order *)

Lemma refines_claimReplacement s a o :
  mem_rel s a → ord_Replaces o ≠ "" →
  match spec_replace o a with
  | Err err => claimReplacement o s = (Some err, s)
  | Ok b => (claimReplacement o s).1 = None ∧ mem_rel (claimReplacement o s).2 b
  end.
Proof.
  intros R Hr. unfold spec_replace, claimReplacement. rewrite (bool_decide_eq_false_2 _ Hr).
  rewrite (renewal_find _ _ _ R Hr).
  destruct (st_certByRenewal s !! ord_Replaces o) as [id|] eqn:Hid; simpl; [|done].
  pose proof (mr_certs_rel _ _ R) as RC.
  destruct (index_resource _ _ _ _ (cr_renewal _ _ RC) _ _ Hid) as (c & Hc & _).
  replace (st_certificates s !! id) with (as_certificates a !! id)
    by (by rewrite (mr_certificates _ _ R)).
  rewrite Hc. simpl.
  replace (st_orders s !! crt_ReplacedByOrderID c) with (as_orders a !! crt_ReplacedByOrderID c)
    by (by rewrite (mr_orders _ _ R)).
  destruct (match _ with Some _ => _ | None => _ end); [done|].
  split; [done|]. simpl. rewrite <-(cr_id _ _ RC _ _ Hc) in Hc |- *.
  by eapply (mem_rel_put_cert _ _ {| c with crt_ReplacedByOrderID := _; crt_Revision := _ |}).
Qed.

Lemma spec_replace_frame o a b :
  spec_replace o a = Ok b →
  as_orders b = as_orders a ∧ as_authzs b = as_authzs a ∧ as_challenges b = as_challenges a.
Proof. unfold spec_replace. intros H. by go_cases. Qed.

Lemma orders_rel_insert orders orderIDs created o :
  orders_rel orders orderIDs created → orders !! ord_ID o = None →
  orders_rel (<[ord_ID o := o]> orders)
    (<[ord_AccountID o := map_ids orderIDs (ord_AccountID o) ++ [ord_ID o]]> orderIDs)
    (created ++ [(ord_AccountID o, ord_ID o)]).
Proof.
  intros RO Hnew. split.
  - apply insert_id_rel, RO.
  - intros acc. unfold orders_of. rewrite filter_app, map_app. fold (orders_of acc created).
    rewrite <-(or_listed _ _ _ RO). unfold map_ids at 1.
    destruct (decide (ord_AccountID o = acc)) as [<-|Hne].
    + rewrite lookup_insert_eq, filter_cons_True by done. done.
    + rewrite lookup_insert_ne, filter_cons_False by done. by rewrite app_nil_r.
  - rewrite map_app. apply NoDup_app. split; [apply RO|]. split; [|apply NoDup_singleton].
    intros id Hin Heq%list_elem_of_singleton. simpl in Heq.
    apply (or_created _ _ _ RO) in Hin as [? Hin]. congruence.
  - intros id. rewrite map_app, elem_of_app, (or_created _ _ _ RO). simpl.
    rewrite list_elem_of_singleton. destruct (decide (ord_ID o = id)) as [<-|Hne].
    + rewrite lookup_insert_eq. split; [by eexists|by right].
    + rewrite lookup_insert_ne by done. split; [intros [?|?]; [done|congruence]|by left].
Qed.

Lemma mem_rel_insert_order s a o :
  mem_rel s a → as_orders a !! ord_ID o = None →
  mem_rel {| s with
      st_orders := <[ord_ID o := o]> (st_orders s);
      st_orderIDs := <[ord_AccountID o :=
        map_ids (st_orderIDs s) (ord_AccountID o) ++ [ord_ID o]]> (st_orderIDs s) |}
    {| (put_order o a) with as_created := as_created a ++ [(ord_AccountID o, ord_ID o)] |}.
Proof.
  intros R Hnew. pose proof R as []. split; simpl; try done; [congruence|].
  by apply orders_rel_insert.
Qed.

Lemma mem_rel_insert_authz s a z :
  mem_rel s a → as_authzs a !! az_ID z = None →
  mem_rel (storeAuthorization s z) (put_authz z a).
Proof.
  intros R Hnew. pose proof (mr_authzs_rel _ _ R) as RZ. pose proof R as [].
  split; simpl; try done; [congruence|]. split; [apply insert_id_rel, RZ|].
  intros k id. unfold map_ids at 1. destruct (decide (authorizationIndexKey z = k)) as [<-|Hne].
  - rewrite lookup_insert_eq. simpl. rewrite elem_of_app, (zr_index _ _ RZ), list_elem_of_singleton.
    destruct (decide (az_ID z = id)) as [<-|Hid].
    + rewrite lookup_insert_eq. split; [eauto|by right].
    + rewrite lookup_insert_ne by done. split; [intros [?|?]; [done|congruence]|by left].
  - rewrite lookup_insert_ne by done. fold (map_ids (st_authzIndex s) k).
    rewrite (zr_index _ _ RZ). destruct (decide (az_ID z = id)) as [<-|Hid].
    + rewrite lookup_insert_eq, Hnew. split; [by intros (? & ? & _)|].
      intros (? & [= <-] & ?). congruence.
    + by rewrite lookup_insert_ne.
Qed.

Lemma mem_rel_insert_authzs s a zs :
  mem_rel s a → NoDup (map az_ID zs) → Forall (λ z, as_authzs a !! az_ID z = None) zs →
  mem_rel (fold_left storeAuthorization zs s) (fold_left (λ b z, put_authz z b) zs a).
Proof.
  intros R. revert s a R. induction zs as [|z zs IH]; intros s a R Hnd Hnew; [done|]. simpl in *.
  apply NoDup_cons in Hnd as [Hni Hnd]. apply Forall_cons in Hnew as [Hz Hnew].
  apply IH; [by apply mem_rel_insert_authz|done|].
  apply Forall_forall. intros y Hy. rewrite Forall_forall in Hnew. simpl.
  rewrite lookup_insert_ne; [by apply Hnew|]. intros Heq. apply Hni. rewrite Heq.
  by apply list_elem_of_fmap_2.
Qed.

Lemma mem_rel_insert_challenges s a cs :
  mem_rel s a →
  mem_rel (fold_left storeChallenge cs s) (fold_left (λ b c, put_challenge c b) cs a).
Proof.
  revert s a. induction cs as [|c cs IH]; intros s a R; [done|]. apply IH.
  by apply mem_rel_put_challenge.
Qed.

(** The checks on new IDs agree when none of them is empty. *)
Lemma existsb_new {V W} (m m' : gmap string V) (key : W → string) (l : list W) :
  m = m' → "" ∉ map key l →
  existsb (λ w, bool_decide (is_Some (m !! key w)) || (key w == "")) l =
  existsb (λ w, bool_decide (is_Some (m' !! key w))) l.
Proof.
  intros <-. induction l as [|w l IH]; [done|]. simpl. rewrite not_elem_of_cons. intros [Hw Hl].
  rewrite IH, (bool_decide_eq_false_2 (key w = "")) by (done || congruence).
  by rewrite orb_false_r.
Qed.

Lemma existsb_new_false {V W} (m : gmap string V) (key : W → string) (l : list W) :
  existsb (λ w, bool_decide (is_Some (m !! key w))) l = false → Forall (λ w, m !! key w = None) l.
Proof.
  induction l as [|w l IH]; simpl; intros H; [done|]. apply orb_false_iff in H as [Hw Hl].
  constructor; [|by apply IH]. apply bool_decide_eq_false in Hw. by apply eq_None_not_Some.
Qed.

Lemma refines_createOrder s a o zs cs :
  mem_rel s a → legal (CallCreateOrder o zs cs) a →
  refines (CreateOrder None o zs cs s) (spec_exec (CallCreateOrder o zs cs) a).
Proof.
  intros R (Hid & Hacc & Hnd & Hzs & Hcs). unfold CreateOrder; cbn [spec_exec].
  unfold spec_createOrder.
  rewrite (bool_decide_eq_false_2 _ Hid), (bool_decide_eq_false_2 _ Hacc). simpl.
  rewrite (existsb_new _ _ _ zs (mr_authzs _ _ R)), (existsb_new _ _ _ cs (mr_challenges _ _ R)) by done.
  replace (st_orders s !! ord_ID o) with (as_orders a !! ord_ID o) by (by rewrite (mr_orders _ _ R)).
  destruct (as_orders a !! ord_ID o) as [?|] eqn:Ho; [by auto with acme|].
  rewrite bool_decide_is_Some_None. simpl.
  destruct (existsb _ zs) eqn:Hz; [by auto with acme|].
  destruct (existsb _ cs) eqn:Hc; [by auto with acme|]. simpl.
  assert (match spec_replace o a with
    | Err err => (if (ord_Replaces o != "") then claimReplacement o s else (None, s)) = (Some err, s)
    | Ok b => (if (ord_Replaces o != "") then claimReplacement o s else (None, s)).1 = None ∧
              mem_rel (if (ord_Replaces o != "") then claimReplacement o s else (None, s)).2 b
    end) as Hrep.
  { destruct (ord_Replaces o != "") eqn:Hr; go_bool; [by apply refines_claimReplacement|].
    unfold spec_replace. by rewrite (bool_decide_eq_true_2 _ Hr). }
  pose proof (spec_replace_frame o a) as Hframe.
  destruct (spec_replace o a) as [b|err]; [|rewrite Hrep; by auto with acme].
  destruct (Hframe b eq_refl) as (Hbo & Hbz & Hbc). destruct (if (ord_Replaces o != "") then _ else _) as [r s1].
  simpl in Hrep. destruct Hrep as [-> R1]. split; [done|]. cbn [snd].
  apply mem_rel_insert_challenges, mem_rel_insert_authzs.
  - rewrite <-Hbo in Ho. exact (mem_rel_insert_order _ _ {| o with ord_Revision := 1%Z |} R1 Ho).
  - by rewrite map_map.
  - apply Forall_fmap. simpl. rewrite Hbz. by apply (existsb_new_false _ az_ID).
Qed.

(** ** The instance *)

(** Every call of the store interface. *)
Lemma mem_step_refines {X} (c : storeCall X) s a :
  mem_rel s a → (st_taskSequence s + 1 < 2 ^ 64)%Z → legal c a →
  refines (mem_exec c None s) (spec_exec c a).
Proof.
  intros R room Hlegal. destruct c; simpl in Hlegal.
  - by apply refines_createAccount.
  - by apply refines_lookup; [|rewrite (mr_accounts _ _ R)].
  - by apply refines_accountByKey.
  - by apply refines_updateAccount.
  - by apply refines_createOrder.
  - by apply refines_lookup; [|rewrite (mr_orders _ _ R)].
  - by apply refines_orderIDs.
  - by apply refines_lookup; [|rewrite (mr_authzs _ _ R)].
  - by apply refines_updateAuthorization.
  - by apply refines_authorizedFor.
  - by apply refines_lookup; [|rewrite (mr_challenges _ _ R)].
  - by apply refines_lookup; [|rewrite (mr_certificates _ _ R)].
  - by apply refines_certificateByRenewalID.
  - by apply refines_updateCertificate.
  - by apply refines_acceptChallenge.
  - by apply refines_finalizeOrder.
  - by apply refines_beginIssuance.
  - by apply refines_claimTask.
  - by apply refines_rescheduleTask.
  - by apply refines_retryValidation.
  - by apply refines_finishTask.
  - by apply refines_completeValidation.
  - by apply refines_completeIssuance.
  - by apply refines_pendingTasks.
  - by apply refines_leasedTasks.
  - by apply refines_accountValidations.
Qed.

#[export] Instance mem_store_spec : StoreSpec Store := {
  store_rel := mem_rel;
  store_room s := (st_taskSequence s + 1 < 2 ^ 64)%Z;
  store_legal := @legal;
  store_refines := @mem_step_refines;
  store_ended _ c err s _ := refines_ended c err s
}.
