(* ===== verification/MemstoreSystem.v ===== *)
(** * The server on the in-memory store

    The requests and worker turns of SystemRun.v on the store of src/memstore instead of the
    abstract one. Every run has an abstract run with the same threads, the same calls to the
    outside and a related store, so what SystemProps.v shows of abstract histories holds of it. *)

From S2P Require Import Prelude Status Problem Resource Base64 Netip StoreSpec Prog Host Platform Identifier Jws Chain Worker Issuance Wire Http Accounts Orders Revoke Server Lifecycle System SystemSteps SystemRules SystemRun SystemDemo Memstore MemstoreRefine MemstoreCalls.

(** ** Steps *)

(** Counters have room: revisions and the task number below their last value, and fewer orders
    than half of the [int] range. *)
Record mem_room (s : Store) : Prop := {
  mem_accounts : map_Forall (λ _ b, has_room (acct_Revision b)) (st_accounts s);
  mem_orders : map_Forall (λ _ o, has_room (ord_Revision o)) (st_orders s);
  mem_authzs : map_Forall (λ _ z, has_room (az_Revision z)) (st_authzs s);
  mem_challenges : map_Forall (λ _ c, has_room (ch_Revision c)) (st_challenges s);
  mem_certs : map_Forall (λ _ c, has_room (crt_Revision c)) (st_certificates s);
  mem_sequence : (st_taskSequence s + 1 < 2 ^ 64)%Z;
  mem_size : (Z.of_nat (size (st_orders s)) < 2 ^ 62)%Z
}.

(** The state of the process: the store and the calls made so far, newest first. *)
Definition mem_state : Type := Store * list event.

(** A store call runs under the lock of the store, or returns the error of its ended context. All
    other calls do what they do to a history without commits. *)
Definition mem_sys_step (X : Type) (e : op X) : mem_state → X → mem_state → Prop :=
  match e in op X return mem_state → X → mem_state → Prop with
  | OpStore _ c => λ '(s, evs) x '(s', evs'),
      ∃ ended, default True (transport <$> ended) ∧ (ended = None → mem_room s) ∧
        (x, s') = mem_exec c ended s ∧ evs' = evs
  | e => λ '(s, evs) x '(s', evs'), s' = s ∧ sys_step _ e (map Called evs) x (map Called evs')
  end.

(** The calls of a history. *)
Definition events (w : World) : list event :=
  omap (λ e, match e with Called ev => Some ev | Committed _ => None end) w.

Section MemstoreSystem.
Context `{Platform} `{StrictJSON} `{PayloadJSON}.

Definition mem_run (s : Store) (evs : list event) (ts : list (Prog unit)) : Prop :=
  rtc (pool_step mem_sys_step starts) ((Memstore.New, []), []) ((s, evs), ts).

End MemstoreSystem.

(** ** The initial state *)

Lemma mem_rel_New : mem_rel Memstore.New AStore_empty.
Proof.
  split; try done.
  - split; [done| |]; intros k id; simpl; rewrite lookup_empty; naive_solver.
  - split; simpl; [done|done|apply NoDup_nil_2|]. intros id. rewrite lookup_empty.
    split; [by intros ?%not_elem_of_nil|by intros []].
  - split; [done|]. intros k id. split; [by intros ?%not_elem_of_nil|by intros (z & ? & _)].
  - split; [done|]. intros k id. simpl. rewrite lookup_empty. naive_solver.
  - split; simpl; [|apply NoDup_nil_2|by intros id; rewrite !lookup_empty, !is_Some_alt|by intros id n; rewrite lookup_empty|constructor|done].
    intros id t. rewrite lookup_empty. split; [done|by intros [?%not_elem_of_nil _]].
Qed.

(** ** Legal calls *)

Lemma mem_room_room s a : mem_rel s a → mem_room s → room a.
Proof.
  intros R [Hb Ho Hz Hc Hr _ _].
  rewrite (mr_accounts _ _ R) in Hb. rewrite (mr_orders _ _ R) in Ho. rewrite (mr_authzs _ _ R) in Hz.
  rewrite (mr_challenges _ _ R) in Hc. rewrite (mr_certificates _ _ R) in Hr. by split.
Qed.

(** An account lists at most the stored orders. *)
Lemma orders_listed s a acc :
  mem_rel s a → (length (orders_of acc (as_created a)) ≤ size (st_orders s))%nat.
Proof.
  intros R. destruct (mr_orders_rel _ _ R) as [_ _ Hnd Hin]. rewrite (mr_orders _ _ R).
  transitivity (length (map snd (as_created a))).
  { unfold orders_of. rewrite !length_map. apply length_filter. }
  rewrite <-size_dom, <-(size_list_to_set (C := gset string)) by done.
  apply subseteq_size. intros id. rewrite elem_of_list_to_set, elem_of_dom. apply Hin.
Qed.

Section Legal.
Context `{Platform}.
Context (w : World) (Hw : hist_ok w).

Lemma scope_kept z z0 :
  seen as_authzs w (az_ID z) z0 → authz_fixed z0 z → keeps_scope z (current w).
Proof.
  intros (w0 & Hle & Hz0) Hfixed stored Hst.
  destruct (authzs_later _ _ Hle Hw _ _ Hz0) as (z' & Hz' & Hrtc). simplify_eq.
  apply (rtc_in _ authz_fixed) in Hrtc; [|apply authz_step_fixed].
  rewrite (orderIdentifier_fixed _ _ Hfixed), (orderIdentifier_fixed _ _ Hrtc).
  by destruct Hfixed as (_ & -> & _), Hrtc as (_ & -> & _).
Qed.

Lemma renewal_kept c c0 :
  seen as_certificates w (crt_ID c) c0 → cert_next c0 c →
  ∀ stored, as_certificates (current w) !! crt_ID c = Some stored → crt_RenewalID c = crt_RenewalID stored.
Proof.
  intros (w0 & Hle & Hc0) Hnext stored Hst.
  destruct (certs_later _ _ Hle Hw _ _ Hc0) as (c' & Hc' & Hrtc). simplify_eq.
  apply (rtc_in _ cert_fixed) in Hrtc; [|apply cert_step_fixed].
  destruct Hrtc as (_ & _ & _ & _ & _ & _ & _ & -> & _). by destruct Hnext.
Qed.

(** What the server guarantees of a call is what the in-memory store needs. *)
Lemma guaranteed_legal {X} (c : storeCall X) s :
  mem_rel s (current w) → mem_room s → guar_store c w → legal c (current w).
Proof.
  intros R Hroom Hg. destruct c; simpl in *; try done.
  - by destruct Hg.
  - by destruct Hg as [? ? _ _ ? [? ?] _ _].
  - split; [lia|]. pose proof (orders_listed _ _ accountID R). pose proof (mem_size _ Hroom). lia.
  - destruct Hg as (z0 & Hseen & _ & Heq). by apply (scope_kept _ z0); [|rewrite Heq].
  - destruct Hg as (c0 & Hseen & Hnext). by eapply renewal_kept.
  - by destruct Hg.
  - by destruct Hg.
  - destruct Hg as (_ & (z0 & Hseen & Hset) & _). apply (scope_kept _ z0); [done|]. by destruct Hset.
  - destruct cert as [c|]; [|done]. by destruct Hg as (o0 & _ & _ & st & _ & [? _] & _).
Qed.
End Legal.

(** ** Simulation *)

Lemma called_events w ev : Called ev ∈ w ↔ ev ∈ events w.
Proof.
  unfold events. rewrite list_elem_of_omap. split.
  - intros Hin. by exists (Called ev).
  - intros ([a|ev'] & Hin & Heq); by simplify_eq.
Qed.

Lemma called_map ev evs : Called ev ∈ map Called evs ↔ ev ∈ evs.
Proof. rewrite called_events. unfold events. induction evs; simpl; [done|]. by rewrite !elem_of_cons, IHevs. Qed.

Lemma events_called evs : events (map Called evs) = evs.
Proof. unfold events. induction evs as [|ev evs IH]; csimpl; [done|]. by rewrite IH. Qed.

Lemma called_inj evs evs' : map Called evs = map Called evs' → evs = evs'.
Proof. intros Heq. apply (f_equal events) in Heq. by rewrite !events_called in Heq. Qed.

Section Simulation.
Context `{Platform} `{StrictJSON} `{PayloadJSON}.

(** The abstract history that stands for a state. *)
Definition simulates (s : Store) (evs : list event) (w : World) : Prop :=
  mem_rel s (current w) ∧ events w = evs.

Lemma recorded_sim ev s w evs' :
  mem_rel s (current w) → recorded ev (map Called (events w)) (map Called evs') →
  ∃ w', recorded ev w w' ∧ simulates s evs' w'.
Proof.
  intros R Heq. exists (Called ev :: w). split; [done|]. split; [done|]. simpl.
  symmetry. by apply called_inj.
Qed.

Lemma unrecorded_sim s w evs' :
  mem_rel s (current w) → map Called evs' = map Called (events w) → ∃ w', w' = w ∧ simulates s evs' w'.
Proof. intros R Heq%called_inj. by exists w. Qed.

Lemma store_sim {X} (c : storeCall X) ended s w x s' :
  hist_ok w → guar_store c w → mem_rel s (current w) → (ended = None → mem_room s) → default True (transport <$> ended) →
  (x, s') = mem_exec c ended s → ∃ w', store_step c w x w' ∧ simulates s' (events w) w'.
Proof.
  intros Hw Hg R Hroom Hended Hexec. destruct ended as [err|]; [|specialize (Hroom eq_refl)].
  - rewrite refines_ended in Hexec. simplify_eq. exists w. split; [|done]. right. exists err. split_and!; [done|done|by left].
  - destruct (mem_step_refines c s (current w)) as [Hx R']; [done|apply Hroom|by eapply guaranteed_legal|].
    rewrite <-Hexec in Hx, R'. exists (executed c w). split; [|done]. left.
    split_and!; [by eapply mem_room_room|done|done].
Qed.

Lemma step_sim X (e : op X) s w x s' evs' :
  hist_ok w → guar X e w → mem_rel s (current w) → mem_sys_step X e (s, events w) x (s', evs') →
  ∃ w', sys_step X e w x w' ∧ simulates s' evs' w'.
Proof.
  intros Hw Hg R. destruct e; simpl.
  { intros (ended & Hended & Hroom & Hexec & ->). by eapply store_sim. }
  all: intros [-> Hstep]; try (by apply unrecorded_sim); try (by apply recorded_sim).
  - destruct x as [b|err]; [|by apply unrecorded_sim]. destruct Hstep as (Hlen & Hfresh & Hrec).
    apply (recorded_sim _ s) in Hrec as (w' & Hrec & Hsim); [|done]. exists w'.
    rewrite called_map, <-called_events in Hfresh. by split_and!.
  - destruct Hstep as (Heq & Hkept). apply (unrecorded_sim s) in Heq as (w' & -> & Hsim); [|done].
    by exists w.
  - destruct x.1; [by apply recorded_sim|by apply unrecorded_sim].
  - destruct x; [by apply unrecorded_sim|by apply recorded_sim].
  - destruct x; [by apply recorded_sim|by apply unrecorded_sim].
Qed.

Context (sha256_size : ∀ b, length (sha256_Sum256 b) = 32%nat).

(** C5. The server on the in-memory store implements the server on the abstract store: every run
    of requests and worker turns on src/memstore, in any interleaving, has a run on the abstract
    store with the same programs in the same positions, the same calls to validators, CA and
    policy in the same order, and a final store that the in-memory store represents. So what holds
    of every abstract history holds of the in-memory server. *)
Theorem memstore_simulation s evs ts :
  mem_run s evs ts →
  ∃ w, rtc (pool_step sys_step starts) ([], []) (w, ts) ∧ mem_rel s (current w) ∧ events w = evs.
Proof.
  unfold mem_run. remember ((s, evs), ts) as c eqn:Hc. intros Hrun. revert s evs ts Hc.
  pattern c. revert c Hrun. apply rtc_ind_r; [|intros c c' _ Hpool IH]; intros s evs ts Hc; simplify_eq.
  { exists []. split_and!; [done|apply mem_rel_New|done]. }
  inv Hpool as [[s0 evs0] ? ts0 i X e k x Hi Hstep|? ts0 p Hp].
  - destruct (IH _ _ _ eq_refl) as (w & Hw & R & <-).
    destruct (reachable_pool sha256_size _ _ Hw) as [Hok Hts]; [by split|].
    simpl in *. rewrite Forall_lookup in Hts. destruct (Hts _ _ Hi) as [Hg _].
    destruct (step_sim _ _ _ _ _ _ _ Hok Hg R Hstep) as (w' & Hstep' & R' & Hevs).
    exists w'. split_and!; [|done|done]. eapply rtc_r; [exact Hw|]. by eapply pool_call.
  - destruct (IH _ _ _ eq_refl) as (w & Hw & R & Hevs).
    exists w. split_and!; [|done|done]. eapply rtc_r; [exact Hw|]. by apply pool_spawn.
Qed.

End Simulation.

(** ** The run of SystemDemo.v on the in-memory store *)

#[export] Instance mem_room_dec s : Decision (mem_room s).
Proof.
  refine (cast_if (decide
    (map_Forall (λ _ b, has_room (acct_Revision b)) (st_accounts s) ∧
     map_Forall (λ _ o, has_room (ord_Revision o)) (st_orders s) ∧
     map_Forall (λ _ z, has_room (az_Revision z)) (st_authzs s) ∧
     map_Forall (λ _ c, has_room (ch_Revision c)) (st_challenges s) ∧
     map_Forall (λ _ c, has_room (crt_Revision c)) (st_certificates s) ∧
     (st_taskSequence s + 1 < 2 ^ 64)%Z ∧ (Z.of_nat (size (st_orders s)) < 2 ^ 62)%Z)));
    [abstract naive_solver by constructor|abstract (intros []; naive_solver)].
Defined.

(** Other calls are answered from the calls made so far. *)
Definition mem_answer (X : Type) (e : op X) (st : mem_state) : X * mem_state :=
  match e in op X return X * mem_state with
  | OpStore _ c =>
      if decide (mem_room st.1)
      then let r := mem_exec c None st.1 in (r.1, (r.2, st.2))
      else (Err demo_failure, st)
  | e => let r := demo_answer _ e (map Called st.2) in (r.1, (st.1, events r.2))
  end.

Lemma mem_answer_ok X (e : op X) st : mem_sys_step X e st (mem_answer X e st).1 (mem_answer X e st).2.
Proof.
  destruct st as [s evs]. destruct e; simpl.
  { case_decide as Hroom; [exists None|exists (Some demo_failure)]; split_and!; try done.
    - simpl. by rewrite <-surjective_pairing.
    - by rewrite refines_ended. }
  all: (split; [done|]); rewrite ?events_called; try done.
  - case_decide as Hb; simpl; rewrite ?events_called; [|done]. destruct Hb as [Hlen Hb].
    split_and!; [done|by apply randoms_fresh|done].
  - split; [done|]. case_match eqn:Hb; [done|]. go_bool. naive_solver.
Qed.

Definition mem_runs (ps : list (Prog unit)) : mem_state :=
  foldl (λ st p, (exec mem_answer p st).2) (Memstore.New, []) ps.

Lemma mem_runs_run ps : Forall starts ps → ∃ ts, mem_run (mem_runs ps).1 (mem_runs ps).2 ts.
Proof.
  unfold mem_run. setoid_rewrite <-surjective_pairing.
  induction ps as [|p ps IH] using rev_ind; [by exists []|].
  intros [Hps Hp]%Forall_app. rewrite Forall_singleton in Hp. destruct (IH Hps) as [ts Hts].
  unfold mem_runs. rewrite foldl_snoc.
  exact (exec_pool mem_sys_step starts mem_answer mem_answer_ok _ _ _ _ Hp Hts).
Qed.

Definition demo_memory : mem_state :=
  mem_runs [demo_serve [x01]; demo_serve [x02]; demo_serve [x03]; demo_turn; demo_serve [x04]; demo_turn].

Lemma demo_memory_run : ∃ ts, mem_run demo_memory.1 demo_memory.2 ts.
Proof. apply mem_runs_run. repeat constructor. Qed.

#[global] Opaque demo_memory.

Lemma memstore_simulation_witness :
  ∃ w ts, rtc (pool_step sys_step starts) ([], []) (w, ts) ∧ mem_rel demo_memory.1 (current w) ∧
    events w = demo_memory.2 ∧ size (st_orders demo_memory.1) = 1%nat ∧
    existsb (λ ev, match ev with EvIssue _ => true | _ => false end) demo_memory.2 = true.
Proof.
  destruct demo_memory_run as [ts Hrun].
  destruct (memstore_simulation demo_sum_size _ _ _ Hrun) as (w & Hw & R & Hevs).
  exists w, ts. split; [exact Hw|]. split; [exact R|]. split; [exact Hevs|].
  split; vm_compute; reflexivity.
Defined.
