(* ===== verification/MemstoreProps.v ===== *)
(** * Sequences of calls of the in-memory store

    Any client that keeps to the rules of the store interface sees the abstract store, from the
    empty store on, whatever it calls and in whatever order. *)

From S2P Require Import Prelude Status Problem Resource StoreSpec Memstore MemstoreRefine MemstoreCalls MemstoreSystem SystemDemo.

(** A call with its context, and its answer. *)
Inductive anyCall : Type :=
| AnyCall {X : Type} (ctx : Ctx) (c : storeCall X).
Inductive anyAnswer : Type :=
| AnyAnswer {X : Type} (r : Res X).

Fixpoint mem_trace (cs : list anyCall) (s : Store) : list anyAnswer * Store :=
  match cs with
  | [] => ([], s)
  | AnyCall ctx c :: cs =>
      let (r, s) := mem_exec c ctx s in
      let (rs, s) := mem_trace cs s in (AnyAnswer r :: rs, s)
  end.

(** An ended context makes the call return its error; every other call follows the contract. *)
Definition spec_call {X} (ctx : Ctx) (c : storeCall X) (a : AStore) : Res X * AStore :=
  match ctx with Some err => (Err err, a) | None => spec_exec c a end.

Fixpoint spec_trace (cs : list anyCall) (a : AStore) : list anyAnswer * AStore :=
  match cs with
  | [] => ([], a)
  | AnyCall ctx c :: cs =>
      let (r, a) := spec_call ctx c a in
      let (rs, a) := spec_trace cs a in (AnyAnswer r :: rs, a)
  end.

Fixpoint legal_trace (cs : list anyCall) (a : AStore) : Prop :=
  match cs with
  | [] => True
  | AnyCall ctx c :: cs => (ctx = None → legal c a) ∧ legal_trace cs (spec_call ctx c a).2
  end.

(** ** Task numbers *)

Lemma fold_sequence {A} (f : Store → A → Store) l s :
  (∀ s a, st_taskSequence (f s a) = st_taskSequence s) → st_taskSequence (fold_left f l s) = st_taskSequence s.
Proof. intros Hf. revert s. induction l as [|x l IH]; intros s; simpl; [done|]. by rewrite IH, Hf. Qed.

Lemma claimReplacement_sequence o s : st_taskSequence (claimReplacement o s).2 = st_taskSequence s.
Proof. unfold claimReplacement. by repeat case_match. Qed.

Lemma storeCertificate_sequence c s : st_taskSequence (storeCertificate c s).2 = st_taskSequence s.
Proof. unfold storeCertificate. by repeat case_match. Qed.

Lemma createOrder_sequence o authzs challenges s :
  st_taskSequence (CreateOrder None o authzs challenges s).2 = st_taskSequence s.
Proof.
  unfold CreateOrder. do 4 (case_match; [done|]).
  assert (st_taskSequence (if (ord_Replaces o != "") then claimReplacement o s else (None, s)).2 =
          st_taskSequence s) as Hrep.
  { case_match; [apply claimReplacement_sequence|done]. }
  destruct (if (ord_Replaces o != "") then _ else _) as [[err|] s1]; simpl in *; [done|].
  by rewrite !fold_sequence.
Qed.

(** A call numbers at most one task. *)
Lemma mem_exec_sequence {X} (c : storeCall X) ctx s :
  (0 ≤ st_taskSequence s)%Z → (st_taskSequence s + 1 < 2 ^ 64)%Z →
  (0 ≤ st_taskSequence (mem_exec c ctx s).2 ≤ st_taskSequence s + 1)%Z.
Proof.
  intros H0 Hroom. assert (u64 (st_taskSequence s + 1) = st_taskSequence s + 1)%Z as Hu by (apply u64_small; lia).
  destruct ctx as [err|]; [rewrite refines_ended; simpl; lia|].
  destruct c; cbn [mem_exec]; try (rewrite createOrder_sequence; lia).
  all: try (match goal with |- context [?f None] => unfold f end).
  all: repeat (case_match; simpl; try lia); simpl; try lia; simplify_eq; try lia.
  all: match goal with H : storeCertificate ?c ?s = _ |- _ =>
    pose proof (storeCertificate_sequence c s) as Hseq; rewrite H in Hseq; simpl in Hseq; lia end.
Qed.

(** ** Refinement *)

Lemma trace_refines cs s a :
  mem_rel s a → (0 ≤ st_taskSequence s)%Z → (st_taskSequence s + Z.of_nat (length cs) < 2 ^ 64)%Z →
  legal_trace cs a →
  (mem_trace cs s).1 = (spec_trace cs a).1 ∧ mem_rel (mem_trace cs s).2 (spec_trace cs a).2.
Proof.
  revert s a. induction cs as [|[X ctx c] cs IH]; intros s a R H0 Hroom Hlegal; simpl; [done|].
  simpl in Hroom, Hlegal. destruct Hlegal as [Hc Hcs].
  destruct (mem_exec_sequence c ctx s) as [Hlo Hhi]; [done|lia|].
  assert ((mem_exec c ctx s).1 = (spec_call ctx c a).1 ∧ mem_rel (mem_exec c ctx s).2 (spec_call ctx c a).2) as [Hx R'].
  { destruct ctx as [err|]; [by rewrite refines_ended|]. apply mem_step_refines; [done|lia|by apply Hc]. }
  destruct (mem_exec c ctx s) as [r s1], (spec_call ctx c a) as [q a1]. simpl in *. subst q.
  destruct (IH s1 a1) as [Hrs R'']; [done|done|lia|done|].
  destruct (mem_trace cs s1), (spec_trace cs a1). simpl in *. by subst.
Qed.

(** C7. The in-memory store is an implementation of the store interface: the answers to any
    sequence of legal calls on a new store, some of them on ended contexts, are those of the
    abstract contract, and the store it ends in represents the abstract one. *)
Theorem memstore_refines cs :
  (Z.of_nat (length cs) < 2 ^ 64)%Z → legal_trace cs AStore_empty →
  (mem_trace cs Memstore.New).1 = (spec_trace cs AStore_empty).1 ∧
  mem_rel (mem_trace cs Memstore.New).2 (spec_trace cs AStore_empty).2.
Proof. intros Hlen Hlegal. apply trace_refines; [apply mem_rel_New|done|done|done]. Qed.

Definition sample_account (id : string) : Account :=
  mkAccount id AccountValid (KeyEd25519 []) "thumbprint" [] false "" "" 0 0.

Definition sample_calls : list anyCall :=
  [AnyCall None (CallCreateAccount (sample_account "a")); AnyCall None (CallCreateAccount (sample_account "b"));
   AnyCall (Some ErrPanic) (CallAccount "a"); AnyCall None (CallAccountByKey "thumbprint")].

Lemma memstore_refines_witness :
  legal_trace sample_calls AStore_empty ∧
  (mem_trace sample_calls Memstore.New).1 = (spec_trace sample_calls AStore_empty).1 ∧
  (mem_trace sample_calls Memstore.New).1 =
    [AnyAnswer (Ok {| (sample_account "a") with acct_Revision := 1%Z |});
     AnyAnswer (X := Account) (Err ErrConflict); AnyAnswer (X := Account) (Err ErrPanic);
     AnyAnswer (Ok {| (sample_account "a") with acct_Revision := 1%Z |})].
Proof.
  assert (legal_trace sample_calls AStore_empty) as Hlegal by (simpl; naive_solver).
  split; [exact Hlegal|]. split; [|by vm_compute].
  apply (memstore_refines sample_calls); [simpl; lia|exact Hlegal].
Defined.
