(* ===== verification/NetworkProps.v ===== *)
(** * Egress of the validators

    Which addresses are public, and what any run of a validator connects to: the answers of the
    resolver and of the servers it reaches are arbitrary. *)

From S2P Require Import Prelude Status Problem Resource Base64 Netip StoreSpec Prog Host Platform Identifier Jws Network Validators.

(** ** Specifications *)

(** The IPv4 addresses that are not public, octet by octet. *)
Definition special4 (a b c d : Z) : Prop :=
  (a = 0 ∨ a = 10 ∨ a = 127 ∨ 224 ≤ a ∨
   a = 100 ∧ 64 ≤ b < 128 ∨
   a = 169 ∧ b = 254 ∨
   a = 172 ∧ 16 ≤ b < 32 ∨
   a = 192 ∧ (b = 168 ∨ b = 0 ∧ (c = 0 ∨ c = 2) ∨ b = 31 ∧ c = 196 ∨ b = 52 ∧ c = 193 ∨
              b = 88 ∧ c = 99 ∨ b = 175 ∧ c = 48) ∨
   a = 198 ∧ (b = 18 ∨ b = 19 ∨ b = 51 ∧ c = 100) ∨
   a = 203 ∧ b = 0 ∧ c = 113)%Z.

(** The public IPv6 addresses by their leading groups. *)
Definition public6 (g0 g1 g2 : Z) : Prop :=
  (0x2000 ≤ g0 < 0x4000 ∧
   ¬ (g0 = 0x2001 ∧ (g1 < 0x200 ∨ g1 = 0xdb8)) ∧ g0 ≠ 0x2002 ∧
   ¬ (g0 = 0x2620 ∧ g1 = 0x4f ∧ g2 = 0x8000) ∧
   ¬ (g0 = 0x3fff ∧ g1 < 0x1000))%Z.

(** An address as [netip] holds one. *)
Definition Addr_wf (a : Addr) : Prop :=
  match a with
  | Addr4 octets => length octets = 4%nat ∧ Forall (λ o, 0 ≤ o < 256)%Z octets
  | Addr6 groups _ => length groups = 8%nat ∧ Forall (λ g, 0 ≤ g < 65536)%Z groups
  end.

(** The public addresses; an IPv4 address mapped into IPv6 counts as the IPv4 address. *)
Definition public (a : Addr) : Prop :=
  match Unmap a with
  | Addr4 [a; b; c; d] => ¬ special4 a b c d
  | Addr6 (g0 :: g1 :: g2 :: _) zone => zone = "" ∧ public6 g0 g1 g2
  | _ => False
  end.

(** The connections and requests of a run. *)
Definition dialed (ev : called netOp) : option string :=
  match ev with Ev e _ => match e with NetDial d => Some d | _ => None end end.
Definition sent (ev : called netOp) : option (nat * URL) :=
  match ev with Ev e _ => match e with NetSend c u => Some (c, u) | _ => None end end.

Definition dials (tr : list (called netOp)) : list string := omap dialed tr.
Definition sends (tr : list (called netOp)) : list (nat * URL) := omap sent tr.

(** A destination that names a permitted address numerically and one of the ports. *)
Definition allowed_destination (p : networkPolicy) (ports : list Z) (d : string) : Prop :=
  ∃ a port, permits p (Some a) = true ∧ port ∈ ports ∧ d = destination (Some a) port.

(** ** Public addresses *)

Lemma Contains4 (q o : list Z) (bits : Z) :
  (0 ≤ bits ≤ 32)%Z →
  Contains (pfx4 q bits) (Addr4 o) =
    (addrValue (Addr4 o) `div` 2 ^ (32 - bits) =? addrValue (Addr4 q) `div` 2 ^ (32 - bits))%Z.
Proof.
  intros Hbits. unfold Contains, Prefix_IsValid, pfx4, AddrBitLen. cbn [pfx_Addr pfx_Bits Is4 Zone].
  rewrite !Z.shiftr_div_pow2 by lia. rewrite bool_decide_eq_true_2 by done.
  replace (0 <=? bits)%Z with true by lia. by replace (bits <=? 32)%Z with true by lia.
Qed.

Lemma Contains6 (q o : list Z) (bits : Z) :
  (0 ≤ bits ≤ 128)%Z →
  Contains (pfx6 q bits) (Addr6 o "") =
    (addrValue (Addr6 o "") `div` 2 ^ (128 - bits) =?
     addrValue (Addr6 (take 8 (q ++ replicate 8 0%Z)) "") `div` 2 ^ (128 - bits))%Z.
Proof.
  intros Hbits. unfold Contains, Prefix_IsValid, pfx6, AddrBitLen. cbn [pfx_Addr pfx_Bits Is4 Zone].
  rewrite !Z.shiftr_div_pow2 by lia. rewrite bool_decide_eq_true_2 by done.
  replace (0 <=? bits)%Z with true by lia. by replace (bits <=? 128)%Z with true by lia.
Qed.

(** Prefixes of the other family contain no address. *)
Lemma Contains46 q o bits zone : Contains (pfx4 q bits) (Addr6 o zone) = false.
Proof. unfold Contains, pfx4, AddrBitLen. simpl. by rewrite andb_false_r. Qed.

Lemma Contains64 q o bits : Contains (pfx6 q bits) (Addr4 o) = false.
Proof. unfold Contains, pfx6, AddrBitLen. simpl. by rewrite andb_false_r. Qed.

Lemma multicast_octet o : (0 ≤ o < 256)%Z → Z.land o 0xf0 = 0xe0%Z → (224 ≤ o)%Z.
Proof.
  intros Ho Hland. assert (Z.land o 0xf0 ≤ o)%Z; [|lia].
  assert (∀ n : nat, (n < 256)%nat → (Z.land (Z.of_nat n) 0xf0 <=? Z.of_nat n)%Z = true) as Hall.
  { intros n Hn. do 256 (destruct n as [|n]; [by vm_compute|]). lia. }
  specialize (Hall (Z.to_nat o) ltac:(lia)). rewrite Z2Nat.id in Hall by lia. lia.
Qed.

(** Evaluates the leading bits of the networks. *)
Ltac eval_networks :=
  repeat match goal with
  | |- context [Z.div (addrValue ?q) ?k] =>
      let v := eval vm_compute in (Z.div (addrValue q) k) in change (Z.div (addrValue q) k) with v
  end.

Ltac eval_digits :=
  repeat match goal with
  | |- context [Z.div (Zpos ?q) ?k] => let v := eval vm_compute in (Z.div (Zpos q) k) in change (Z.div (Zpos q) k) with v
  | |- context [Z.modulo (Zpos ?q) ?k] =>
      let v := eval vm_compute in (Z.modulo (Zpos q) k) in change (Z.modulo (Zpos q) k) with v
  end.

Ltac lead_digits :=
  cbn [addrValue fold_left];
  repeat match goal with
  | |- context [Z.pow 2 ?e] => let v := eval vm_compute in (Z.pow 2 e) in change (Z.pow 2 e) with v
  end; Z.to_euclidean_division_equations; lia.

Lemma special4_networks a b c d :
  (0 ≤ a < 256)%Z → (0 ≤ b < 256)%Z → (0 ≤ c < 256)%Z → (0 ≤ d < 256)%Z →
  existsb (λ prefix, Contains prefix (Addr4 [a; b; c; d])) specialNetworks = true ↔ special4 a b c d.
Proof.
  intros Ha Hb Hc Hd. set (v := addrValue (Addr4 [a; b; c; d])).
  assert (∀ k, v `div` 2 ^ (32 - 8) = k ↔ a = k)%Z as H8 by (intros k; subst v; clear -Ha Hb Hc Hd; lead_digits).
  assert (∀ k, v `div` 2 ^ (32 - 16) = k ↔ a = k `div` 256 ∧ b = k `mod` 256)%Z as H16
    by (intros k; subst v; clear -Ha Hb Hc Hd; lead_digits).
  assert (∀ k, v `div` 2 ^ (32 - 24) = k ↔ a = k `div` 65536 ∧ b = k `div` 256 `mod` 256 ∧ c = k `mod` 256)%Z
    as H24 by (intros k; subst v; clear -Ha Hb Hc Hd; lead_digits).
  assert (v `div` 2 ^ (32 - 3) = 7 ↔ 224 ≤ a)%Z as H3 by (subst v; clear -Ha Hb Hc Hd; lead_digits).
  assert (v `div` 2 ^ (32 - 10) = 401 ↔ a = 100 ∧ 64 ≤ b < 128)%Z as H10 by (subst v; clear -Ha Hb Hc Hd; lead_digits).
  assert (v `div` 2 ^ (32 - 12) = 2753 ↔ a = 172 ∧ 16 ≤ b < 32)%Z as H12 by (subst v; clear -Ha Hb Hc Hd; lead_digits).
  assert (v `div` 2 ^ (32 - 15) = 25353 ↔ a = 198 ∧ (b = 18 ∨ b = 19))%Z as H15 by (subst v; clear -Ha Hb Hc Hd; lead_digits).
  unfold specialNetworks, special4. cbn [existsb]. rewrite !Contains64, !Contains4 by lia. fold v.
  clearbody v. rewrite ?orb_true_iff, ?orb_false_r, ?Z.eqb_eq. eval_networks.
  rewrite !H8, !H16, !H24, H3, H10, H12, H15. eval_digits. clear.
  assert (false = true ↔ False) as -> by done. split; intros H; repeat (destruct H as [H|H]; [tauto|]); tauto.
Qed.

Lemma public6_networks g0 g1 g2 g3 g4 g5 g6 g7 :
  Forall (λ g, 0 ≤ g < 65536)%Z [g0; g1; g2; g3; g4; g5; g6; g7] →
  let a := Addr6 [g0; g1; g2; g3; g4; g5; g6; g7] "" in
  Contains (pfx6 [0x2000%Z] 3) a = true ∧ existsb (λ prefix, Contains prefix a) specialNetworks = false ↔
  public6 g0 g1 g2.
Proof.
  intros Hall a. rewrite !Forall_cons in Hall. destruct Hall as (H0 & H1 & H2 & ? & ? & ? & ? & ? & _).
  unfold specialNetworks, public6. cbn [existsb]. subst a. rewrite !Contains46, !Contains6 by lia.
  remember (addrValue (Addr6 [g0; g1; g2; g3; g4; g5; g6; g7] "")) as v eqn:Hv.
  assert (∃ r, v = ((g0 * 65536 + g1) * 65536 + g2) * 2 ^ 80 + r ∧ 0 ≤ r < 2 ^ 80)%Z as (r & Hr & Hb).
  { exists ((((g3 * 65536 + g4) * 65536 + g5) * 65536 + g6) * 65536 + g7)%Z. subst v.
    cbn [addrValue fold_left]. lia. }
  clear Hv.
  assert (v `div` 2 ^ (128 - 3) = 1 ↔ 0x2000 ≤ g0 < 0x4000)%Z as E3 by (rewrite Hr; clear -H0 H1 H2 Hb; lead_digits).
  assert (∀ k, v `div` 2 ^ (128 - 16) = k ↔ g0 = k)%Z as E16 by (intros k; rewrite Hr; clear -H0 H1 H2 Hb; lead_digits).
  assert (v `div` 2 ^ (128 - 23) = 0x2001 * 128 ↔ g0 = 0x2001 ∧ g1 < 0x200)%Z as E23 by (rewrite Hr; clear -H0 H1 H2 Hb; lead_digits).
  assert (v `div` 2 ^ (128 - 20) = 0x3fff * 16 ↔ g0 = 0x3fff ∧ g1 < 0x1000)%Z as E20 by (rewrite Hr; clear -H0 H1 H2 Hb; lead_digits).
  assert (v `div` 2 ^ (128 - 32) = 0x20010db8 ↔ g0 = 0x2001 ∧ g1 = 0xdb8)%Z as E32 by (rewrite Hr; clear -H0 H1 H2 Hb; lead_digits).
  assert (v `div` 2 ^ (128 - 48) = 0x2620004f8000 ↔ g0 = 0x2620 ∧ g1 = 0x4f ∧ g2 = 0x8000)%Z as E48
    by (rewrite Hr; clear -H0 H1 H2 Hb; lead_digits).
  rewrite ?orb_false_iff, ?Z.eqb_eq, ?Z.eqb_neq. eval_networks.
  rewrite E3, E16, E23, E20, E32, E48. clear. assert (false = false ↔ True) as -> by done. tauto.
Qed.

Lemma Unmap_wf a : Addr_wf a → Addr_wf (Unmap a).
Proof.
  assert (∀ x : Z, 0 ≤ x < 65536 → 0 ≤ Z.shiftr x 8 < 256 ∧ 0 ≤ Z.land x 0xff < 256)%Z as Hbyte.
  { intros x Hx. rewrite Z.shiftr_div_pow2 by lia. change 0xff%Z with (Z.ones 8). rewrite Z.land_ones by lia.
    change (2 ^ 8)%Z with 256%Z. Z.to_euclidean_division_equations. lia. }
  intros Hwf. unfold Unmap. repeat case_match; try exact Hwf. simplify_eq. destruct Hwf as [_ Hall].
  rewrite !Forall_cons in Hall. destruct Hall as (_ & _ & _ & _ & _ & _ & Hx & Hy & _).
  apply Hbyte in Hx as [? ?], Hy as [? ?]. split; [done|]. by rewrite !Forall_cons, Forall_nil.
Qed.

Lemma IsGlobalUnicast4 a b c d :
  (0 ≤ a < 256)%Z → ¬ special4 a b c d → IsGlobalUnicast (Addr4 [a; b; c; d]) = true.
Proof.
  intros Ha Hpublic. unfold special4 in Hpublic.
  assert (a ≠ 0 ∧ a ≠ 127 ∧ ¬ 224 ≤ a ∧ ¬ (a = 169 ∧ b = 254))%Z as (H0 & H127 & H224 & H169) by tauto.
  clear Hpublic. unfold IsGlobalUnicast, IsLoopback, IsMulticast, IsLinkLocalUnicast.
  rewrite !andb_true_iff, !negb_true_iff, !bool_decide_eq_false, !Z.eqb_neq, andb_false_iff, !Z.eqb_neq.
  split_and!; [intros [=]; lia..|done| |lia].
  intros Hland. apply multicast_octet in Hland; lia.
Qed.

Lemma IsGlobalUnicast6 g0 rest zone :
  (0x2000 ≤ g0 < 0x4000)%Z → IsGlobalUnicast (Addr6 (g0 :: rest) zone) = true.
Proof.
  intros Hg. destruct g0 as [|g0|g0]; [lia| |lia].
  unfold IsGlobalUnicast, IsUnspecified, IsLoopback, IsMulticast, IsLinkLocalUnicast.
  rewrite !andb_true_iff, !negb_true_iff, !bool_decide_eq_false, !Z.eqb_neq, Z.shiftr_div_pow2 by lia.
  split_and!; [by intros [? ?]|done| |].
  - change (2 ^ 8)%Z with 256%Z. Z.to_euclidean_division_equations. lia.
  - intros Hland. assert (Z.testbit 0xfe80 15 = true) as Hbit by done. rewrite <- Hland, Z.land_spec in Hbit.
    apply andb_true_iff in Hbit as [Hbit _]. rewrite Z.testbit_true in Hbit by lia.
    change (2 ^ 15)%Z with 32768%Z in Hbit. rewrite Z.div_small in Hbit; [done|lia].
Qed.

(** The three tests of an IPv6 address decide a property that implies the first. *)
Lemma decide_public (u p q : bool) (P : Prop) :
  (p = true ∧ q = false ↔ P) → (P → u = true) →
  (if negb u then false else if negb p then false else negb q) = true ↔ P.
Proof. destruct u, p, q; naive_solver. Qed.

(** [PublicAddress] holds of exactly the public addresses: an IPv4 address, mapped into IPv6 or
    not, outside every special range by its octets, and an IPv6 address without a zone in 2000::/3
    outside 2001::/23, 2001:db8::/32, 2002::/16, 2620:4f:8000::/48 and 3fff::/20. *)
Theorem PublicAddress_exact (a : Addr) (Hwf : Addr_wf a) : PublicAddress (Some a) = true ↔ public a.
Proof.
  apply Unmap_wf in Hwf. unfold PublicAddress, public. cbn [fmap option_fmap option_map].
  destruct (Unmap a) as [octets|groups zone]; destruct Hwf as [Hlen Hall].
  - destruct octets as [|x [|y [|z [|w [|? ?]]]]]; try discriminate Hlen.
    rewrite !Forall_cons in Hall. destruct Hall as (Hx & Hy & Hz & Hw & _).
    cbn [Zone Is4]. rewrite bool_decide_eq_true_2 by done. cbn [negb orb andb].
    pose proof (special4_networks x y z w Hx Hy Hz Hw) as Hnet. rewrite <- Hnet, not_true_iff_false.
    destruct (existsb _ specialNetworks) eqn:E; cbn [negb].
    + case_match; done.
    + rewrite IsGlobalUnicast4; [done..|]. rewrite <- Hnet. done.
  - destruct groups as [|g0 [|g1 [|g2 [|g3 [|g4 [|g5 [|g6 [|g7 [|? ?]]]]]]]]]; try discriminate Hlen.
    cbn [Zone]. case_bool_decide as Hzone; cbn [negb orb]; [subst zone|split; [done|by intros [? _]]].
    cbn [Is4 negb andb]. rewrite (decide_public _ _ _ _ (public6_networks _ _ _ _ _ _ _ _ Hall)); [tauto|].
    intros [Hrange _]. by apply IsGlobalUnicast6.
Qed.

(** 8.8.8.8 is public, 192.168.0.1 mapped into IPv6 is not. *)
Lemma PublicAddress_exact_witness :
  public (Addr4 [8; 8; 8; 8]%Z) ∧ ¬ public (Addr6 [0; 0; 0; 0; 0; 65535; 49320; 1]%Z "").
Proof.
  split.
  - apply (PublicAddress_exact (Addr4 [8; 8; 8; 8]%Z)); [|by vm_compute].
    split; [done|]. rewrite !Forall_cons, Forall_nil. lia.
  - intros Hpublic. apply (PublicAddress_exact (Addr6 [0; 0; 0; 0; 0; 65535; 49320; 1]%Z "")) in Hpublic.
    + by vm_compute in Hpublic.
    + split; [done|]. rewrite !Forall_cons, Forall_nil. lia.
Defined.
