(* ===== verification/ValidatorProps.v ===== *)
(** * The DNS, HTTP and TLS validators

    What a run of a validator connects to, how often, and what it must have been answered when the
    validation succeeds. The answers of the network are arbitrary in every statement. *)

From S2P Require Import Prelude Status Problem Resource Base64 Netip StoreSpec Prog Host Platform Identifier Jws Chain Network Validators NetworkProps.
From S2P Require Import SystemDemo.

(** ** Specifications *)

Section Specs.
Context `{Platform} `{NetPlatform}.

(** A certificate with exactly one subject alternative name, the identifier. *)
Definition single_san (cert : X509Certificate) (id : Identifier) : Prop :=
  ∃ extension name,
    find (λ e, ext_Id e == subjectAltNameOID) (x_Extensions cert) = Some extension ∧
    asn1_UnmarshalNames (ext_Value extension) = Ok ([name], []) ∧
    raw_Class name = ClassContextSpecific ∧ raw_IsCompound name = false ∧
    (id_Type id = IdentifierDNS ∧ raw_Tag name = 2%Z ∧
     EqualFold (bytes_string (raw_Bytes name)) (id_Value id) = true ∨
     id_Type id = IdentifierIP ∧ raw_Tag name = 7%Z ∧
     ∃ address, AddrFromSlice (raw_Bytes name) = Some address ∧ ParseAddr (id_Value id) = Some address).

(** The RFC 8737 proof of a handshake. *)
Definition alpn_proof (state : ConnectionState) (id : Identifier) (keyAuthorization : string) : Prop :=
  ∃ cert rest extension,
    cs_NegotiatedProtocol state = ALPNProtocol ∧ cs_PeerCertificates state = cert :: rest ∧
    single_san cert id ∧
    find (λ e, ext_Id e == acmeIdentifierOID) (x_Extensions cert) = Some extension ∧
    ext_Critical extension = true ∧
    asn1_UnmarshalOctets (ext_Value extension) = Ok (sha256_Sum256 (string_bytes keyAuthorization), []).

(** The ports an HTTP validation may use. *)
Definition http_ports (v : HTTP01) : list Z := [if (h01_testPort v =? 0)%Z then 80%Z else h01_testPort v; 443%Z].

(** ** Connections *)

Lemma dials_app tr1 tr2 : dials (tr1 ++ tr2) = dials tr1 ++ dials tr2.
Proof. apply omap_app. Qed.

Lemma sends_app tr1 tr2 : sends (tr1 ++ tr2) = sends tr1 ++ sends tr2.
Proof. apply omap_app. Qed.

(** What a part of a run may do: connect to allowed destinations only, at most [d] times, and make
    at most [n] requests. *)
Definition bounded (p : networkPolicy) (ports : list Z) (d n : nat) (tr : list (called netOp)) : Prop :=
  Forall (allowed_destination p ports) (dials tr) ∧ (length (dials tr) ≤ d)%nat ∧ (length (sends tr) ≤ n)%nat.

Lemma bounded_app p ports d1 n1 d2 n2 d n tr1 tr2 :
  bounded p ports d1 n1 tr1 → bounded p ports d2 n2 tr2 → (d1 + d2 ≤ d)%nat → (n1 + n2 ≤ n)%nat →
  bounded p ports d n (tr1 ++ tr2).
Proof.
  intros (Hall1 & Hd1 & Hn1) (Hall2 & Hd2 & Hn2) Hd Hn. unfold bounded.
  rewrite dials_app, sends_app, !length_app, Forall_app. split; [done|lia].
Qed.

Lemma bounded_nil p ports d n : bounded p ports d n [].
Proof. split; [by apply Forall_nil|simpl; lia]. Qed.

(** A call that is neither a connection nor a request. *)
Lemma bounded_other p ports d n ev : dialed ev = None → sent ev = None → bounded p ports d n [ev].
Proof. intros Hd Hs. unfold bounded, dials, sends. simpl. rewrite Hd, Hs. apply bounded_nil. Qed.

Lemma resolve_permitted p host tr r :
  runs (resolve p host) tr r →
  bounded p [] 0 0 tr ∧
  ∀ addresses, r = Ok addresses →
    Forall (λ a, permits p a = true) addresses ∧ (length addresses ≤ Z.to_nat (np_maxAddresses p))%nat.
Proof.
  assert (∀ l addresses, checkAddresses p l = Ok addresses →
    Forall (λ a, permits p a = true) addresses ∧ (length addresses ≤ Z.to_nat (np_maxAddresses p))%nat) as Hcheck.
  { unfold checkAddresses. intros l addresses Heq. repeat case_match; simplify_eq. go_bool. split; [|lia].
    apply Forall_forall. rewrite List.forallb_forall in *. intros a Ha. rewrite list_elem_of_In in Ha. eauto. }
  unfold resolve. intros Hrun. repeat case_match; simplify_eq.
  - apply runs_ret in Hrun as [-> ->]. split; [apply bounded_nil|eauto].
  - apply runs_ret in Hrun as [-> ->]. split; [apply bounded_nil|done].
  - apply runs_bind in Hrun as (tr1 & x & tr2 & -> & Hcall & Hret). apply runs_call in Hcall as ->.
    apply runs_ret in Hret as [-> ->]. split; [by apply bounded_other|]. intros ad. case_match; [|done]. eauto.
  - apply runs_ret in Hrun as [-> ->]. split; [apply bounded_nil|done].
Qed.

Lemma dialLoop_bounded p ports port addresses last tr r :
  Forall (λ a, permits p a = true) addresses → port ∈ ports →
  runs (dialLoop addresses port last) tr r → bounded p ports (length addresses) 0 tr.
Proof.
  intros Hall Hport. revert last tr. induction Hall as [|a addresses Ha _ IH]; intros last tr Hrun.
  - apply runs_ret in Hrun as [-> _]. apply bounded_nil.
  - apply runs_bind in Hrun as (tr1 & x & tr2 & -> & Hcall & Hrun). apply runs_call in Hcall as ->.
    assert (bounded p ports 1 0 [Ev (NetDial (destination a port)) x]) as Hdial.
    { destruct a as [a|]; [|done]. split; [|simpl; lia]. apply Forall_singleton. by exists a, port. }
    apply (bounded_app _ _ 1 0 (length addresses) 0); [done| |simpl; lia..].
    destruct x; [apply runs_ret in Hrun as [-> _]; apply bounded_nil|by eapply IH].
Qed.

Lemma bounded_ports p ports ports' d n tr : ports ⊆ ports' → bounded p ports d n tr → bounded p ports' d n tr.
Proof.
  intros Hsub [Hall Hlen]. split; [|done]. eapply Forall_impl; [done|]. intros x (a & port & ? & ? & ?).
  exists a, port. auto.
Qed.

Lemma dial_bounded p ports host port tr r :
  port ∈ ports → runs (dial p host port) tr r → bounded p ports (Z.to_nat (np_maxAddresses p)) 0 tr.
Proof.
  intros Hport Hrun. apply runs_bind in Hrun as (tr1 & x & tr2 & -> & Hres & Hrun).
  apply resolve_permitted in Hres as [Htr1 Hx]. apply (bounded_ports _ _ ports) in Htr1; [|set_solver].
  apply (bounded_app _ _ 0 0 (Z.to_nat (np_maxAddresses p)) 0); [done| |lia..]. destruct x as [addresses|err].
  - destruct (Hx _ eq_refl) as [Hall Hlen]. apply (dialLoop_bounded p ports) in Hrun; [|done..].
    destruct Hrun as (? & ? & ?). split_and!; [done|lia..].
  - apply runs_ret in Hrun as [-> _]. apply bounded_nil.
Qed.

Lemma HTTP01_dial_bounded v address tr r :
  runs (HTTP01_dial v address) tr r →
  bounded (h01_network v) (http_ports v) (Z.to_nat (np_maxAddresses (h01_network v))) 0 tr.
Proof.
  unfold HTTP01_dial. intros Hrun. repeat case_match; simplify_eq;
    try (apply runs_ret in Hrun as [-> _]; apply bounded_nil).
  all: eapply dial_bounded; [|done]; unfold http_ports; case_match; rewrite !elem_of_cons; go_bool;
    destruct_or?; go_bool; lia.
Qed.

(** One round of the client: what follows the request is given by its answer. *)
Lemma clientDo_round hops v u tr r :
  runs (clientDo hops v u) tr r →
  ∃ tr1 tr2, tr = tr1 ++ tr2 ∧
    bounded (h01_network v) (http_ports v) (Z.to_nat (np_maxAddresses (h01_network v))) 0 tr1 ∧
    ((∃ err, tr2 = [] ∧ r = Err err) ∨
     ∃ c x tr3, tr2 = Ev (NetSend c u) x :: tr3 ∧
       (tr3 = [] ∧ (∀ resp, r = Ok resp → x = Ok resp) ∨
        ∃ hops' next, hops = S hops' ∧ checkHTTPURL next = None ∧ runs (clientDo hops' v next) tr3 r)).
Proof.
  intros Hrun. destruct hops as [|hops]; cbn [clientDo] in Hrun;
    apply runs_bind in Hrun as (tr1 & x & tr2 & -> & Hdial & Hrun); apply HTTP01_dial_bounded in Hdial;
    exists tr1, tr2; (split; [done|]); (split; [done|]);
    (destruct x as [c|err]; [right|left; apply runs_ret in Hrun as [-> ->]; eauto]);
    apply runs_bind in Hrun as (tr3 & y & tr4 & -> & Hsend & Hrun); apply runs_call in Hsend as ->;
    exists c, y, tr4; (split; [done|]);
    repeat (case_match; simplify_eq; try (left; apply runs_ret in Hrun as [-> ->]; naive_solver)).
  right. eauto 10.
Qed.

Lemma clientDo_bounded hops v u tr r :
  runs (clientDo hops v u) tr r →
  bounded (h01_network v) (http_ports v) (S hops * Z.to_nat (np_maxAddresses (h01_network v))) (S hops) tr.
Proof.
  set (d := Z.to_nat (np_maxAddresses (h01_network v))).
  revert u tr. induction hops as [hops IH] using lt_wf_ind; intros u tr Hrun.
  apply clientDo_round in Hrun as (tr1 & tr2 & -> & Htr1 & Htr2). fold d in Htr1.
  apply (bounded_app _ _ d 0 (hops * d) (S hops)); [done| |lia..].
  destruct Htr2 as [(err & -> & _)|(c & x & tr3 & -> & Htr3)]; [apply bounded_nil|].
  apply (bounded_app _ _ 0 1 (hops * d) hops _ _ [_]); [split; [by apply Forall_nil|simpl; lia]| |lia..].
  destruct Htr3 as [[-> _]|(hops' & next & -> & _ & Hrun)]; [apply bounded_nil|].
  apply IH in Hrun; [done|lia].
Qed.

(** The response the client returns is the last answer, to the first URL or to a redirect target
    the validator accepted. *)
Lemma clientDo_answer hops v u tr resp :
  runs (clientDo hops v u) tr (Ok resp) →
  ∃ tr0 c target, tr = tr0 ++ [Ev (NetSend c target) (Ok resp)] ∧ (target = u ∨ checkHTTPURL target = None).
Proof.
  revert u tr. induction hops as [hops IH] using lt_wf_ind; intros u tr Hrun.
  apply clientDo_round in Hrun as (tr1 & tr2 & -> & _ & [(err & _ & ?)|(c & x & tr3 & -> & Htr3)]); [done|].
  destruct Htr3 as [[-> Hx]|(hops' & next & -> & Hnext & Hrun)].
  - rewrite (Hx resp) by done. exists tr1, c, u. auto.
  - apply IH in Hrun as (tr0 & c' & target & -> & Htarget); [|lia].
    exists (tr1 ++ Ev (NetSend c u) x :: tr0), c', target. rewrite <- app_assoc. split; [done|].
    right. by destruct Htarget as [->|].
Qed.

Lemma checkRequest_authorization request typ id :
  checkRequest request typ = Ok id → vq_KeyAuthorization request ≠ "".
Proof.
  unfold checkRequest. intros Hok. destruct (Normalize _); [|done]. cbn [result_bind] in Hok.
  repeat case_match; simplify_eq. go_bool.
  intros Hempty. rewrite Hempty in *. by destruct (ch_Token (vq_Challenge request)).
Qed.

Lemma checkSingleSAN_exact cert id : checkSingleSAN cert id = None ↔ single_san cert id.
Proof.
  unfold checkSingleSAN, single_san. split.
  - intros Hnone. repeat (case_match; simplify_eq); go_bool; simplify_eq;
      eexists _, _; (split; [done|]); (split; [done|]); (split; [done|]); (split; [done|]); naive_solver.
  - intros (extension & name & -> & -> & -> & -> & Hname). cbn [negb orb Z.eqb].
    rewrite Z.eqb_refl. cbn [negb orb].
    destruct Hname as [(-> & -> & ->)|(-> & -> & address & -> & ->)]; [done|].
    rewrite (bool_decide_eq_true_2 (address = address)) by done. by case_match.
Qed.
(** C21. Whatever the resolver and the servers answer, a run of the HTTP validator connects only to
    addresses its policy permits, given numerically, on port 80 (or the test port in its place) or
    443. It makes at most one request more than the configured redirects, and each of them tries at
    most the configured number of addresses. *)
Theorem http01_egress (v : HTTP01) (request : ValidationRequest) (tr : list (called netOp)) (r : option error)
    (Hrun : runs (HTTP01_Validate v request) tr r) :
  Forall (allowed_destination (h01_network v) (http_ports v)) (dials tr) ∧
  (length (sends tr) ≤ S (Z.to_nat (h01_redirects v)))%nat ∧
  (length (dials tr) ≤ S (Z.to_nat (h01_redirects v)) * Z.to_nat (np_maxAddresses (h01_network v)))%nat.
Proof.
  unfold HTTP01_Validate in Hrun. repeat case_match; try (apply runs_ret in Hrun as [-> _]; split_and!; [by apply Forall_nil|simpl; lia..]).
  apply runs_bind in Hrun as (tr1 & x & tr2 & -> & Hclient & Hrun). apply clientDo_bounded in Hclient as (? & ? & ?).
  assert (tr2 = []) as -> by (repeat case_match; by apply runs_ret in Hrun as [-> _]).
  by rewrite app_nil_r.
Qed.

(** Whatever the resolver and the peer answer, a run of the TLS validator connects only to
    addresses its policy permits, given numerically, on its port, and tries at most the configured
    number of them. *)
Theorem tlsalpn01_egress (v : TLSALPN01) (request : ValidationRequest) (tr : list (called netOp)) (r : option error)
    (Hrun : runs (TLSALPN01_Validate v request) tr r) :
  Forall (allowed_destination (t01_network v) [t01_port v]) (dials tr) ∧
  (length (dials tr) ≤ Z.to_nat (np_maxAddresses (t01_network v)))%nat.
Proof.
  unfold TLSALPN01_Validate in Hrun. case_match; [|apply runs_ret in Hrun as [-> _]; split; [by apply Forall_nil|simpl; lia]].
  apply runs_bind in Hrun as (tr1 & x & tr2 & -> & Hdial & Hrun).
  apply (dial_bounded _ [t01_port v]) in Hdial as (Hall & Hlen & _); [|set_solver].
  assert (dials tr2 = []) as Htr2; [|by rewrite dials_app, Htr2, app_nil_r].
  destruct x; [|by apply runs_ret in Hrun as [-> _]]. case_match; [|by apply runs_ret in Hrun as [-> _]].
  apply runs_bind in Hrun as (tr3 & y & tr4 & -> & Hcall & Hrun). apply runs_call in Hcall as ->.
  by apply runs_ret in Hrun as [-> _].
Qed.

Lemma checkALPNProof_exact state id keyAuthorization :
  checkALPNProof state id keyAuthorization = None ↔ alpn_proof state id keyAuthorization.
Proof.
  unfold checkALPNProof, alpn_proof. split.
  - intros Hnone. case_bool_decide as Hprotocol; cbn [negb] in Hnone; [|done].
    destruct (cs_PeerCertificates state) as [|cert rest] eqn:Hcerts; [done|].
    destruct (checkSingleSAN cert id) eqn:Hsan; [done|]. apply checkSingleSAN_exact in Hsan.
    case_match; [|done]. repeat (case_match; simplify_eq; try done). go_bool. subst. eauto 10.
  - intros (cert & rest & extension & Hprotocol & Hcerts & Hsan & Hfind & Hcritical & Hproof).
    rewrite Hprotocol, Hcerts, bool_decide_eq_true_2 by done. cbn [negb].
    apply checkSingleSAN_exact in Hsan. rewrite Hsan, Hfind, Hproof, Hcritical. cbn [negb orb].
    by rewrite bool_decide_eq_true_2.
Qed.

(** A dns-01 validation succeeds exactly when the request passes its checks, the one call it
    makes asks for the TXT records of _acme-challenge under the identifier, and the answer has at
    most 64 records with the digest of the key authorization among them. *)
Theorem dns01_exact (request : ValidationRequest) (tr : list (called netOp)) :
  runs (DNS01_Validate request) tr None ↔
  ∃ id records,
    checkRequest request ChallengeDNS01 = Ok id ∧
    tr = [Ev (NetLookupTXT ("_acme-challenge." +:+ id_Value id +:+ ".")) (Ok records)] ∧
    (len records ≤ 64)%Z ∧ encode (sha256_Sum256 (string_bytes (vq_KeyAuthorization request))) ∈ records.
Proof.
  unfold DNS01_Validate. destruct (checkRequest request ChallengeDNS01) as [id|err].
  - rewrite runs_bind. setoid_rewrite runs_call. split.
    + intros (tr1 & x & tr2 & -> & -> & Hrun). destruct x as [records|err]; [|by destruct Hrun].
      case_match; [by destruct Hrun|]. apply runs_ret in Hrun as [-> Hrun]. case_bool_decide; [|done].
      exists id, records. go_bool. auto.
    + intros (id' & records & [= <-] & -> & Hlen & Hin). eexists [_], (Ok records), []. split; [done|]. split; [done|].
      replace (64 <? len records)%Z with false by lia. by rewrite bool_decide_eq_true_2.
  - rewrite runs_ret. split; [by intros [_ ?]|by intros (? & ? & ? & _)].
Qed.

(** C22. When an http-01 validation succeeds, the last thing the network answered is a 200 response,
    read whole within the limit and without an error, whose body without trailing white space is
    the key authorization. It is the answer to the proof URL or to a redirect target that passed
    the redirect policy. *)
Theorem http01_proof (v : HTTP01) (request : ValidationRequest) (tr : list (called netOp))
    (Hlimit : (- 2 ^ 63 ≤ h01_maxBody v < 2 ^ 63)%Z) (Hrun : runs (HTTP01_Validate v request) tr None) :
  ∃ id first tr0 conn target resp,
    checkRequest request ChallengeHTTP01 = Ok id ∧
    url_Parse (URL_String (proofURL (id_Value id) (ch_Token (vq_Challenge request)))) = Ok first ∧
    tr = tr0 ++ [Ev (NetSend conn target) (Ok resp)] ∧ (target = first ∨ checkHTTPURL target = None) ∧
    resp_StatusCode resp = 200%Z ∧ resp_BodyError resp = None ∧ (len (resp_Body resp) ≤ h01_maxBody v)%Z ∧
    text (TrimRight [32; 9; 13; 10]%Z (map bz (resp_Body resp))) = vq_KeyAuthorization request.
Proof.
  unfold HTTP01_Validate in Hrun.
  destruct (checkRequest request ChallengeHTTP01) as [id|] eqn:Hcheck; [|by destruct Hrun].
  destruct (url_Parse _) as [first|] eqn:Hfirst; [|by destruct Hrun].
  apply runs_bind in Hrun as (tr1 & x & tr2 & -> & Hclient & Hrun). destruct x as [resp|err]; [|by destruct Hrun].
  apply clientDo_answer in Hclient as (tr0 & conn & target & -> & Htarget).
  case_match eqn:Hstatus; [by destruct Hrun|]. destruct (readLimited _ _) as [body|] eqn:Hread; [|by destruct Hrun].
  apply runs_ret in Hrun as [-> Hrun]. rewrite app_nil_r. case_match eqn:Hbody; [done|]. go_bool.
  apply checkRequest_authorization in Hcheck as Hne. unfold readLimited in Hread.
  pose proof (i64_range (h01_maxBody v + 1)) as Hrange.
  destruct (_ <=? 0)%Z eqn:Hpos; [injection Hread as <-; by destruct Hne|]. case_match; go_bool.
  - case_match; simplify_eq. exists id, first, tr0, conn, target, resp. by split_and!.
  - exfalso. simplify_eq. rewrite length_take in *. destruct (decide (h01_maxBody v = 2 ^ 63 - 1)%Z) as [Heq|].
    + rewrite Heq in *. by vm_compute in Hpos.
    + rewrite i64_small in * by lia. lia.
Qed.

(** C23. When a tls-alpn-01 validation succeeds, the last thing the network answered is a handshake
    that negotiated acme-tls/1 for the name of the identifier (the reverse mapping name of an
    address) with a certificate that carries the identifier as its only subject alternative name
    and the digest of the key authorization in its critical acmeIdentifier extension. *)
Theorem tlsalpn01_proof (v : TLSALPN01) (request : ValidationRequest) (tr : list (called netOp))
    (Hrun : runs (TLSALPN01_Validate v request) tr None) :
  ∃ id tr0 conn sni state,
    checkRequest request ChallengeTLSALPN01 = Ok id ∧ tr = tr0 ++ [Ev (NetHandshake conn sni) (Ok state)] ∧
    (id_Type id = IdentifierIP ∧ reverseName <$> ParseAddr (id_Value id) = Some sni ∨
     id_Type id ≠ IdentifierIP ∧ sni = id_Value id) ∧
    alpn_proof state id (vq_KeyAuthorization request).
Proof.
  unfold TLSALPN01_Validate in Hrun.
  destruct (checkRequest request ChallengeTLSALPN01) as [id|] eqn:Hcheck; [|by destruct Hrun].
  apply runs_bind in Hrun as (tr1 & x & tr2 & -> & _ & Hrun). destruct x as [conn|err]; [|by destruct Hrun].
  case_match eqn:Hsni; [|by destruct Hrun].
  apply runs_bind in Hrun as (tr3 & y & tr4 & -> & Hcall & Hrun). apply runs_call in Hcall as ->.
  apply runs_ret in Hrun as [-> Hrun]. destruct y as [state|err]; [|done]. case_match eqn:Hproof; [done|].
  apply checkALPNProof_exact in Hproof. eexists id, tr1, conn, _, state. split; [done|]. split; [done|].
  split; [|done]. case_bool_decide; [by left|right]. by simplify_eq.
Qed.

End Specs.

(** ** A concrete network

    The domain a.test resolves to 8.8.8.8, where a server sends the key authorization and shows a
    certificate with the proof. Extension values stand for what they decode to. *)

Module Demo.

Definition token : string := "abcdefghijklmnopqrstuv".
Definition thumbprint : string := "abcdefghijklmnopqrstuvwxyzabcdefghijklmnopq".
Definition keyAuthorization : string := token +:+ "." +:+ thumbprint.

Definition url : URL := mkURL "http" "" false "a.test" "/" "/" "" "" "".

#[local] Instance platform : Platform :=
  {| demo_platform with
     url_Parse := λ _, Ok url;
     asn1_UnmarshalNames := λ b, Ok ([mkRawValue ClassContextSpecific 2 false b], []) |}.

#[local] Instance netPlatform : NetPlatform := {|
  url_ParseRef u _ := Ok u;
  http_idnaASCII s := s;
  tls_HandshakeError _ := false;
  asn1_UnmarshalOctets b := Ok (b, [])
|}.

Definition challenge (typ : ChallengeType) : Challenge :=
  mkChallenge "c" "a" "acct" typ ChallengeProcessing token "" "" 0 None 1.
Definition request (typ : ChallengeType) : ValidationRequest :=
  mkValidationRequest (challenge typ) (mkIdentifier IdentifierDNS "a.test") false keyAuthorization thumbprint "".

Definition leaf : X509Certificate := demo_certificate [].
Definition certificate : X509Certificate :=
  {| leaf with
     x_Extensions := [mkExtension subjectAltNameOID false (string_bytes "a.test");
                      mkExtension acmeIdentifierOID true (sha256_Sum256 (string_bytes keyAuthorization))] |}.

Definition answer X (e : netOp X) (s : unit) : X * unit :=
  match e in netOp X return X * unit with
  | NetLookupIP _ _ => (Ok [Some (Addr4 [8; 8; 8; 8]%Z)], s)
  | NetLookupTXT _ => (Ok [], s)
  | NetDial _ => (Ok 1%nat, s)
  | NetSend _ _ => (Ok (mkHTTPResponse 200 "" (string_bytes (keyAuthorization +:+ " ")) None), s)
  | NetHandshake _ _ => (Ok (mkConnectionState ALPNProtocol [certificate]), s)
  | NetAuthority _ => (Err (ErrMsg ""), s)
  | NetNow => (0%Z, s)
  end.

Definition network : networkPolicy := mkNetworkPolicy [] Second 32.
Definition http : HTTP01 := mkHTTP01 network 0 10 4096.
Definition tls : TLSALPN01 := mkTLSALPN01 network 443.
Definition http_run : list (called netOp) := run_of answer (HTTP01_Validate http (request ChallengeHTTP01)) tt.
Definition tls_run : list (called netOp) := run_of answer (TLSALPN01_Validate tls (request ChallengeTLSALPN01)) tt.

Lemma http_runs : runs (HTTP01_Validate http (request ChallengeHTTP01)) http_run None.
Proof. exact (runs_run_of answer (HTTP01_Validate http (request ChallengeHTTP01)) tt). Qed.

Lemma tls_runs : runs (TLSALPN01_Validate tls (request ChallengeTLSALPN01)) tls_run None.
Proof. exact (runs_run_of answer (TLSALPN01_Validate tls (request ChallengeTLSALPN01)) tt). Qed.

Lemma http01_egress_witness :
  dials http_run = ["8.8.8.8:80"] ∧ (length (sends http_run) ≤ 11)%nat ∧
  Forall (allowed_destination network (http_ports http)) (dials http_run).
Proof.
  split; [by vm_compute|].
  destruct (http01_egress http (request ChallengeHTTP01) http_run None http_runs) as (Hall & Hsends & _).
  exact (conj Hsends Hall).
Defined.

Lemma tlsalpn01_egress_witness :
  dials tls_run = ["8.8.8.8:443"] ∧ Forall (allowed_destination network [443%Z]) (dials tls_run).
Proof.
  split; [by vm_compute|].
  exact (proj1 (tlsalpn01_egress tls (request ChallengeTLSALPN01) tls_run None tls_runs)).
Defined.

Lemma http01_proof_witness :
  ∃ tr0 conn target resp, http_run = tr0 ++ [Ev (NetSend conn target) (Ok resp)] ∧ resp_StatusCode resp = 200%Z.
Proof.
  destruct (http01_proof http (request ChallengeHTTP01) http_run ltac:(vm_compute; split; congruence) http_runs)
    as (_ & _ & tr0 & conn & target & resp & _ & _ & Htr & _ & Hstatus & _).
  exact (ex_intro _ tr0 (ex_intro _ conn (ex_intro _ target (ex_intro _ resp (conj Htr Hstatus))))).
Defined.

Lemma tlsalpn01_proof_witness :
  ∃ tr0 conn sni state, tls_run = tr0 ++ [Ev (NetHandshake conn sni) (Ok state)] ∧
    cs_NegotiatedProtocol state = ALPNProtocol.
Proof.
  destruct (tlsalpn01_proof tls (request ChallengeTLSALPN01) tls_run tls_runs)
    as (_ & tr0 & conn & sni & state & _ & Htr & _ & cert & rest & extension & Hproto & _).
  exact (ex_intro _ tr0 (ex_intro _ conn (ex_intro _ sni (ex_intro _ state (conj Htr Hproto))))).
Defined.

End Demo.
