(* ===== verification/ResolverProps.v ===== *)
(** * Lookups of the DNS resolver

    Which servers a lookup asks and how often, and which records it may return, whatever the
    servers and the network answer. *)

From S2P Require Import Prelude Status Problem Resource Base64 Netip StoreSpec Prog Host Platform Identifier Jws Network Resolver.
From S2P Require Import SystemDemo.

Section Lookup.
Context `{Platform} `{DNSMessage}.
Context (r : Resolver).

(** ** Specifications *)

(** The servers a run connects to. *)
Definition connected (ev : called dnsOp) : option AddrPort :=
  match ev with Ev e _ => match e with DNSConnect _ server => Some server | _ => None end end.
Definition asked (tr : list (called dnsOp)) : list AddrPort := omap connected tr.

(** The packed questions for a name. *)
Definition packed (name : string) (typ : DNSType) (query : bytes) : Prop :=
  ∃ qname id, dns_NewName name = Ok qname ∧ dns_Pack id (mkQuestion qname typ ClassINET) = Ok query.

(** A call that reads within the message limit or sends one of the queries. *)
Definition fits (queries : bytes → Prop) (ev : called dnsOp) : Prop :=
  match ev with Ev e _ =>
    match e with
    | DNSRead _ n => (n ≤ Z.max 2 (rs_maxBytes r))%Z
    | DNSWrite _ wire => ∃ query, queries query ∧ wire = putUint16 (len query) ++ query
    | _ => True
    end
  end.

(** The calls for one name: the configured servers are asked in their order, each at most once, and
    get nothing but the question for the name. *)
Definition round (typ : DNSType) (name : string) (tr : list (called dnsOp)) : Prop :=
  asked tr `prefix_of` rs_servers r ∧ Forall (fits (packed name typ)) tr.

(** The run [tr] read a response that answers the question for a name. *)
Definition served (tr : list (called dnsOp)) (name : string) (typ : DNSType) (answers : list DNSResource) : Prop :=
  ∃ qname id conn size wire,
    dns_NewName name = Ok qname ∧ Ev DNSRandom (Ok id) ∈ tr ∧ Ev (DNSRead conn size) (Ok wire) ∈ tr ∧
    parseResponse r wire id (mkQuestion qname typ ClassINET) = Ok answers.

(** The records of an owner. *)
Definition owned (name : string) (answer : DNSResource) : bool :=
  (rh_Class (rr_Header answer) =? ClassINET)%Z && EqualFold (rh_Name (rr_Header answer)) name.

(** The records a lookup of a type takes as answers for an owner. *)
Definition proves (name : string) (typ : DNSType) (answer : DNSResource) : bool :=
  owned name answer && (rh_Type (rr_Header answer) == typ) &&
  match rr_Body answer with CNAMEResource _ => false | _ => true end.

(** The names that [n] aliases lead to from a name; every alias is a record of its owner in a
    response to a question for a name reached before. *)
Inductive follows (tr : list (called dnsOp)) (typ : DNSType) (start : string) : nat → string → Prop :=
| follows_start : follows tr typ start 0 start
| follows_alias n name m question answers answer cname :
    follows tr typ start n name → follows tr typ start m question → (m ≤ n)%nat →
    served tr question typ answers → answer ∈ answers → owned name answer = true →
    rr_Body answer = CNAMEResource cname →
    follows tr typ start (S n) (ToLower cname).

(** ** Bounds *)

Lemma asked_app tr1 tr2 : asked (tr1 ++ tr2) = asked tr1 ++ asked tr2.
Proof. apply omap_app. Qed.

Lemma exchange_calls queries timeout server query tr x :
  queries query → runs (exchange r timeout server query) tr x →
  asked tr = [server] ∧ Forall (fits queries) tr ∧ ∀ wire, x = Ok wire → ∃ conn size, Ev (DNSRead conn size) (Ok wire) ∈ tr.
Proof.
  intros Hquery Hrun. apply runs_bind in Hrun as (tr1 & c & tr2 & -> & Hcall & Hrun). apply runs_call in Hcall as ->.
  destruct c as [conn|err]; [|apply runs_ret in Hrun as [-> ->]; by repeat constructor].
  apply runs_bind in Hrun as (tr3 & w & tr4 & -> & Hcall & Hrun). apply runs_call in Hcall as ->.
  assert (fits queries (Ev (DNSWrite conn (putUint16 (len query) ++ query)) w)) as Hwrite by by exists query.
  destruct w as [err|]; [apply runs_ret in Hrun as [-> ->]; by repeat constructor|].
  apply runs_bind in Hrun as (tr5 & size & tr6 & -> & Hcall & Hrun). apply runs_call in Hcall as ->.
  assert (fits queries (Ev (DNSRead conn 2) size)) as Hread by (simpl; lia).
  destruct size as [size|err]; [|apply runs_ret in Hrun as [-> ->]; by repeat constructor].
  cbv zeta in Hrun. case_match eqn:Hsize; [apply runs_ret in Hrun as [-> ->]; by repeat constructor|].
  apply runs_call in Hrun as ->. go_bool. split_and!; [done|repeat constructor; simpl; try done; lia|].
  intros wire ->. exists conn, (uint16 size). rewrite !elem_of_app, !elem_of_cons. auto 10.
Qed.

Lemma queryLoop_calls queries servers query id question last tr x :
  queries query → runs (queryLoop r servers query id question last) tr x →
  asked tr `prefix_of` servers ∧ Forall (fits queries) tr ∧
  ∀ answers, x = Ok answers →
    ∃ conn size wire, Ev (DNSRead conn size) (Ok wire) ∈ tr ∧ parseResponse r wire id question = Ok answers.
Proof.
  intros Hquery. revert last tr. induction servers as [|server servers IH]; intros last tr Hrun.
  { apply runs_ret in Hrun as [-> ->]. by repeat constructor. }
  apply runs_bind in Hrun as (tr1 & ended & tr2 & -> & Hcall & Hrun). apply runs_call in Hcall as ->.
  destruct ended; [apply runs_ret in Hrun as [-> ->]; split_and!; [apply prefix_nil|by repeat constructor|done]|].
  apply runs_bind in Hrun as (tr3 & until & tr4 & -> & Hcall & Hrun). apply runs_call in Hcall as ->.
  apply runs_bind in Hrun as (tr5 & response & tr6 & -> & Hexchange & Hrun).
  apply (exchange_calls queries) in Hexchange as (Hasked & Hfits & Hread); [|done].
  set (T := [Ev DNSContextErr None] ++ [Ev DNSUntilDeadline until] ++ tr5 ++ tr6).
  assert (asked tr6 `prefix_of` servers → Forall (fits queries) tr6 →
    asked T `prefix_of` server :: servers ∧ Forall (fits queries) T) as Hall.
  { intros Hasked6 Hfits6. unfold T. rewrite !asked_app, Hasked. split; [by apply prefix_cons|].
    do 2 (constructor; [done|]). by apply Forall_app. }
  assert (∀ last, runs (queryLoop r servers query id question last) tr6 x →
    asked T `prefix_of` server :: servers ∧ Forall (fits queries) T ∧
    ∀ answers, x = Ok answers → ∃ conn size wire, Ev (DNSRead conn size) (Ok wire) ∈ T ∧
      parseResponse r wire id question = Ok answers) as Hnext.
  { intros last' Hrun'. apply IH in Hrun' as (Hasked6 & Hfits6 & Hx). destruct (Hall Hasked6 Hfits6) as [??].
    split_and!; [done|done|]. intros answers ->. destruct (Hx _ eq_refl) as (conn & size & wire & Hin & Hparse).
    exists conn, size, wire. unfold T. rewrite !elem_of_app. auto. }
  destruct response as [wire|err]; [|by eapply Hnext].
  destruct (parseResponse r wire id question) as [answers|err] eqn:Hparse.
  - apply runs_ret in Hrun as [-> ->]. destruct Hall as [??]; [apply prefix_nil|done|]. split_and!; [done|done|].
    intros answers' [= <-]. destruct (Hread _ eq_refl) as (conn & size & Hin). exists conn, size, wire.
    unfold T. rewrite !elem_of_app. auto.
  - case_match; [|by eapply Hnext]. apply runs_ret in Hrun as [-> ->]. destruct Hall as [??]; [apply prefix_nil|done|done].
Qed.

Lemma round_unasked typ name tr : asked tr = [] → Forall (fits (packed name typ)) tr → round typ name tr.
Proof. intros Htr Hfits. split; [|done]. rewrite Htr. apply prefix_nil. Qed.

Lemma query_round name typ tr x :
  runs (query r name typ) tr x → round typ name tr ∧ ∀ answers, x = Ok answers → served tr name typ answers.
Proof.
  unfold query. intros Hrun.
  case_match eqn:Hname; [|apply runs_ret in Hrun as [-> ->]; by split; [apply round_unasked|]].
  apply runs_bind in Hrun as (tr1 & id & tr2 & -> & Hcall & Hrun). apply runs_call in Hcall as ->.
  assert (round typ name ([Ev DNSRandom id] ++ [])) as Hrandom by by apply round_unasked; [|repeat constructor].
  destruct id as [id|err]; [|apply runs_ret in Hrun as [-> ->]; done].
  cbv zeta in Hrun. case_match eqn:Hpack; [|apply runs_ret in Hrun as [-> ->]; done].
  apply (queryLoop_calls (packed name typ)) in Hrun as (Hasked & Hfits & Hx); [|by eexists _, id]. split.
  - split; [done|]. by constructor.
  - intros answers ->. destruct (Hx _ eq_refl) as (conn & size & wire & Hin & Hparse).
    eexists _, id, conn, size, wire. rewrite !elem_of_app, elem_of_cons. eauto 10.
Qed.

(** ** Answers *)

Lemma matchLoop_spec answers name typ matching alias records target :
  matchLoop answers name typ matching alias = Ok (records, target) →
  records = matching ++ List.filter (proves name typ) answers ∧
  (target = alias ∨ ∃ answer cname, answer ∈ answers ∧ owned name answer = true ∧
     rr_Body answer = CNAMEResource cname ∧ target = ToLower cname).
Proof.
  revert matching alias. induction answers as [|a answers IH]; intros matching alias; cbn [matchLoop].
  { intros Heq. case_match; simplify_eq. rewrite app_nil_r. auto. }
  intros Heq. cbn [List.filter]. unfold proves at 1. destruct (owned name a) eqn:Howned.
  - assert (negb (rh_Class (rr_Header a) =? ClassINET)%Z || negb (EqualFold (rh_Name (rr_Header a)) name) = false) as Hcond.
    { unfold owned in Howned. by destruct (_ =? _)%Z, (EqualFold _ _). }
    rewrite Hcond in Heq. cbn [andb]. destruct (rr_Body a) as [| |cname|] eqn:Hbody.
    3: { case_match; [done|]. apply IH in Heq as [-> Hor]. rewrite andb_false_r. split; [done|]. right.
         destruct Hor as [->|(answer & cname' & Hin & ?)]; [exists a, cname|exists answer, cname'];
           rewrite elem_of_cons; auto. }
    all: case_bool_decide; apply IH in Heq as [-> Hor]; rewrite <- ?app_assoc; (split; [done|]);
      (destruct Hor as [|(answer & cname' & Hin & ?)]; [by left|right; exists answer, cname'; rewrite elem_of_cons; auto]).
  - assert (negb (rh_Class (rr_Header a) =? ClassINET)%Z || negb (EqualFold (rh_Name (rr_Header a)) name) = true) as Hcond.
    { unfold owned in Howned. by destruct (_ =? _)%Z, (EqualFold _ _). }
    rewrite Hcond in Heq. apply IH in Heq as [-> Hor]. split; [done|].
    destruct Hor as [|(answer & cname' & Hin & ?)]; [by left|right; exists answer, cname'; rewrite elem_of_cons; auto].
Qed.

Lemma served_mono tr tr' name typ answers :
  (∀ ev, ev ∈ tr → ev ∈ tr') → served tr name typ answers → served tr' name typ answers.
Proof. intros Hsub (qname & id & conn & size & wire & ? & ? & ? & ?). exists qname, id, conn, size, wire. auto. Qed.

(** One round of the loop: the answers in hand or a new query, and the way on. *)
Lemma lookupLoop_round hops name typ seen kept tr x :
  runs (lookupLoop hops r name typ seen kept) tr x →
  ∃ tr1 tr2, tr = tr1 ++ tr2 ∧ round typ name tr1 ∧
    ((tr2 = [] ∧ ∃ err, x = Err err) ∨
     ∃ answers, (kept = Some answers ∨ kept = None ∧ served tr1 name typ answers) ∧
       (tr2 = [] ∧ x = Ok (List.filter (proves name typ) answers) ∨
        ∃ hops' answer cname kept', hops = S hops' ∧ answer ∈ answers ∧ owned name answer = true ∧
          rr_Body answer = CNAMEResource cname ∧ ToLower cname ∉ seen ∧ (kept' = Some answers ∨ kept' = None) ∧
          runs (lookupLoop hops' r (ToLower cname) typ (ToLower cname :: seen) kept') tr2 x)).
Proof.
  intros Hrun. assert (∃ tr1 a tr2, tr = tr1 ++ tr2 ∧
    runs (match kept with Some answers => mret (Ok answers) | None => query r name typ end) tr1 a ∧
    match a with
    | Err err => tr2 = [] ∧ x = Err err
    | Ok answers =>
        match matchingAnswers answers name typ with
        | Err err => tr2 = [] ∧ x = Err err
        | Ok (matching, alias) =>
            if (alias == "") then tr2 = [] ∧ x = Ok matching
            else tr2 = [] ∧ (∃ err, x = Err err) ∨
              ∃ hops' kept', hops = S hops' ∧ alias ∉ seen ∧ (kept' = Some answers ∨ kept' = None) ∧
                runs (lookupLoop hops' r alias typ (alias :: seen) kept') tr2 x
        end
    end) as (tr1 & a & tr2 & -> & Hask & Hrest).
  { destruct hops; apply runs_bind in Hrun as (tr1 & a & tr2 & -> & Hask & Hrun); exists tr1, a, tr2;
      (split; [done|]); (split; [done|]); repeat (case_match; try done); simplify_eq;
      try (left; apply runs_ret in Hrun as [-> ->]; by eauto); right; go_bool;
      (eexists hops, _; split; [done|]; split; [done|]; split; [|exact Hrun]; case_match; auto). }
  exists tr1, tr2. split; [done|].
  assert (round typ name tr1 ∧
    ∀ answers, a = Ok answers → kept = Some answers ∨ kept = None ∧ served tr1 name typ answers) as [Htr1 Ha].
  { destruct kept; [apply runs_ret in Hask as [-> ->]; split; [by apply round_unasked|naive_solver]|].
    apply query_round in Hask as [? ?]. split; [done|]. auto. }
  split; [done|]. destruct a as [answers|err]; [|left; naive_solver].
  destruct (matchingAnswers answers name typ) as [[matching alias]|err] eqn:Hmatch; [|left; naive_solver].
  apply matchLoop_spec in Hmatch as [-> Halias]. specialize (Ha _ eq_refl). case_bool_decide as Hempty.
  { right. exists answers. split; [done|]. by left. }
  destruct Hrest as [[-> [err ->]]|(hops' & kept' & -> & Hseen & Hkept & Hrun')]; [left; eauto|right].
  destruct Halias as [|(answer & cname & Hin & Howned & Hbody & ->)]; [done|].
  exists answers. split; [done|]. right. exists hops', answer, cname, kept'. auto 10.
Qed.

(** The calls of the loop, name by name. *)
Lemma lookupLoop_rounds hops name typ seen kept tr x :
  name ∈ seen → runs (lookupLoop hops r name typ seen kept) tr x →
  ∃ rounds, tr = concat rounds.*2 ∧ head rounds.*1 = Some name ∧ NoDup rounds.*1 ∧ (length rounds ≤ S hops)%nat ∧
    Forall (λ name', name' = name ∨ name' ∉ seen) rounds.*1 ∧ Forall (λ p, round typ p.1 p.2) rounds.
Proof.
  revert name seen kept tr. induction hops as [hops IH] using lt_wf_ind. intros name seen kept tr Hin Hrun.
  apply lookupLoop_round in Hrun as (tr1 & tr2 & -> & Hround & Hrest).
  assert (tr2 = [] → ∃ rounds, tr1 ++ tr2 = concat rounds.*2 ∧ head rounds.*1 = Some name ∧ NoDup rounds.*1 ∧
    (length rounds ≤ S hops)%nat ∧ Forall (λ name', name' = name ∨ name' ∉ seen) rounds.*1 ∧
    Forall (λ p, round typ p.1 p.2) rounds) as Hlast.
  { intros ->. exists [(name, tr1)]. split_and!; simpl; auto using NoDup_singleton, Forall_cons_2, le_n_S, Nat.le_0_l. }
  destruct Hrest as [[-> _]|(answers & _ & [[-> _]|(hops' & answer & cname & kept' & -> & _ & _ & _ & Hseen & _ & Hrun)])];
    [by apply Hlast..|].
  apply IH in Hrun as (rounds & -> & Hhead & Hnodup & Hlen & Hnames & Hrounds); [|lia|apply list_elem_of_here].
  exists ((name, tr1) :: rounds). split_and!; simpl; [done|done| |lia| |by constructor].
  - constructor; [|done]. intros Hname. rewrite Forall_forall in Hnames. apply Hnames in Hname as [-> | Hname]; [done|].
    by apply Hname, list_elem_of_further.
  - constructor; [by left|]. eapply Forall_impl; [exact Hnames|]. intros name' [-> | Hname]; [by right|].
    right. contradict Hname. by apply list_elem_of_further.
Qed.

(** The answers in hand were served to a question for a name on the way. *)
Lemma lookupLoop_follows hops name typ seen kept tr records T start n :
  runs (lookupLoop hops r name typ seen kept) tr (Ok records) → (∀ ev, ev ∈ tr → ev ∈ T) →
  follows T typ start n name →
  (∀ answers, kept = Some answers → ∃ m question, (m ≤ n)%nat ∧ follows T typ start m question ∧ served T question typ answers) →
  ∃ k owner m question answers, (k ≤ n + hops)%nat ∧ follows T typ start k owner ∧ (m ≤ k)%nat ∧
    follows T typ start m question ∧ served T question typ answers ∧
    records = List.filter (proves owner typ) answers.
Proof.
  revert name seen kept tr n. induction hops as [hops IH] using lt_wf_ind.
  intros name seen kept tr n Hrun HT Hname Hkept.
  apply lookupLoop_round in Hrun as (tr1 & tr2 & -> & _ & [(_ & err & ?)|(answers & Hanswers & Hrest)]); [done|].
  assert (∃ m question, (m ≤ n)%nat ∧ follows T typ start m question ∧ served T question typ answers)
    as (m & question & Hm & Hquestion & Hserved).
  { destruct Hanswers as [->|[-> Hserved]]; [by apply Hkept|]. exists n, name. split; [done|]. split; [done|].
    eapply served_mono; [|done]. intros ev Hev. apply HT, elem_of_app. auto. }
  destruct Hrest as [[-> Hx]|(hops' & answer & cname & kept' & -> & Hin & Howned & Hbody & _ & Hkept' & Hrun)].
  - injection Hx as ->. exists n, name, m, question, answers. split; [lia|]. auto.
  - apply IH with (n := S n) in Hrun as (k & owner & ? & ? & ? & ? & Hk); [..|lia| | |].
    + exists k, owner. do 3 eexists. split; [|exact Hk]. lia.
    + intros ev Hev. apply HT, elem_of_app. auto.
    + by eapply follows_alias.
    + intros answers' Heq. destruct Hkept' as [-> | ->]; [|done]. injection Heq as <-. exists m, question. auto.
Qed.

(** C25. A lookup asks for different names, the name itself first and at most the configured number
    of aliases after it. For each of them it connects to the configured servers in their order, to
    each at most once, and sends them only the question for that name. It never reads more at once
    than the message limit allows. It ends within these bounds whatever the servers answer. *)
Theorem resolver_bounded (name : string) (typ : DNSType) (tr : list (called dnsOp)) (x : Res (list DNSResource))
    (Hrun : runs (Resolver_lookup r name typ) tr x) :
  ∃ rounds : list (string * list (called dnsOp)),
    tr = concat rounds.*2 ∧ head rounds.*1 = Some (ToLower (trimDot name) +:+ ".") ∧ NoDup rounds.*1 ∧
    (length rounds ≤ S (Z.to_nat (rs_maxCNAMEs r)))%nat ∧ Forall (λ p, round typ p.1 p.2) rounds.
Proof.
  apply lookupLoop_rounds in Hrun as (rounds & ? & ? & ? & ? & _ & ?); [by exists rounds|by apply list_elem_of_singleton].
Qed.

(** C24. The records a lookup returns are all the records of the type asked for, in class INET, that
    one response gave for one owner. The owner is the name asked for or follows from it by at most
    the configured number of aliases, each of them a record of its owner in an accepted response
    to a question for a name on the way. Unrelated records of a response are never returned. *)
Theorem resolver_chain (name : string) (typ : DNSType) (tr : list (called dnsOp)) (records : list DNSResource)
    (Hrun : runs (Resolver_lookup r name typ) tr (Ok records)) :
  let start := ToLower (trimDot name) +:+ "." in
  ∃ n owner m question answers, (n ≤ Z.to_nat (rs_maxCNAMEs r))%nat ∧ follows tr typ start n owner ∧
    (m ≤ n)%nat ∧ follows tr typ start m question ∧ served tr question typ answers ∧
    records = List.filter (proves owner typ) answers.
Proof.
  eapply (lookupLoop_follows _ _ _ _ _ _ _ _ _ 0) in Hrun; [exact Hrun|done|constructor|done].
Qed.

End Lookup.

(** ** A concrete server

    It answers that a.test. is an alias of b.test. and gives a TXT record of b.test. and one of a
    third name. *)

Module Demo.

Definition answers : list answerRecord :=
  [mkAnswerRecord (mkResourceHeader "a.test." TypeCNAME 1) (Ok (CNAMEResource "B.test.")) None;
   mkAnswerRecord (mkResourceHeader "b.test." TypeTXT 1) (Ok (TXTResource ["pro"; "of"])) None;
   mkAnswerRecord (mkResourceHeader "c.test." TypeTXT 1) (Ok (TXTResource ["other"])) None].

#[local] Instance messages : DNSMessage := {|
  dns_NewName name := Ok name;
  dns_Pack _ _ := Ok [];
  dns_Start _ := Ok (mkDNSHeader 7 true 0 false 0);
  dns_AllQuestions _ := Ok [mkQuestion "a.test." TypeTXT 1];
  dns_Answers _ := (answers, None)
|}.

Definition wire : bytes := [x00; x07; x00; x00; x00; x01; x00; x03; x00; x00; x00; x00].

Definition answer X (e : dnsOp X) (s : unit) : X * unit :=
  match e in dnsOp X return X * unit with
  | DNSRandom => (Ok 7%Z, s)
  | DNSContextErr => (None, s)
  | DNSUntilDeadline => (Second, s)
  | DNSConnect _ _ => (Ok 1%nat, s)
  | DNSWrite _ _ => (None, s)
  | DNSRead _ n => (Ok (if (n =? 2)%Z then [x00; x0c] else wire), s)
  end.

Definition server : AddrPort := mkAddrPort (Some (Addr4 [9; 9; 9; 9]%Z)) 53.
Definition resolver : Resolver := mkResolver [server] Second 8 16384 64.
Definition run : list (called dnsOp) := run_of answer (Resolver_lookup resolver "a.test" TypeTXT) tt.
Definition proof : DNSResource := mkDNSResource (mkResourceHeader "b.test." TypeTXT 1) (TXTResource ["pro"; "of"]).

Lemma run_runs : runs (Resolver_lookup resolver "a.test" TypeTXT) run (Ok [proof]).
Proof. exact (runs_run_of answer (Resolver_lookup resolver "a.test" TypeTXT) tt). Qed.

Lemma resolver_bounded_witness : asked run = [server] ∧
  ∃ rounds : list (string * list (called dnsOp)), run = concat rounds.*2 ∧ (length rounds ≤ 9)%nat ∧ Forall (λ p, round resolver TypeTXT p.1 p.2) rounds.
Proof.
  split; [by vm_compute|].
  destruct (resolver_bounded resolver "a.test" TypeTXT run (Ok [proof]) run_runs) as (rounds & Hrun & _ & _ & Hlen & Hrounds).
  exact (ex_intro _ rounds (conj Hrun (conj Hlen Hrounds))).
Defined.

Lemma resolver_chain_witness :
  ∃ n owner answers, follows resolver run TypeTXT "a.test." n owner ∧
    [proof] = List.filter (proves owner TypeTXT) answers.
Proof.
  destruct (resolver_chain resolver "a.test" TypeTXT run [proof] run_runs)
    as (n & owner & m & question & answers & _ & Hfollows & _ & _ & _ & Hrecords).
  exact (ex_intro _ n (ex_intro _ owner (ex_intro _ answers (conj Hfollows Hrecords)))).
Defined.

End Demo.
