(* ===== verification/TkauthProps.v ===== *)
(** * Authority Tokens

    What a granted tkauth-01 validation has verified, and how far a token reaches: to one account
    key, to one NF instance and to the names it lists. *)

From S2P Require Import Prelude Status Problem Resource Base64 Netip StoreSpec Prog Host Platform Identifier Jws Compact Network Validators Tkauth.
From S2P Require Import SystemDemo.

(** ** Time *)

Definition int64 (z : Z) : Prop := (- 2 ^ 63 ≤ z < 2 ^ 63)%Z.

(** The instant of a Unix time. *)
Definition instant (sec : Z) : Time := ((sec + unixToInternal) * Second)%Z.

Lemma time_Unix_instant sec :
  int64 sec → (sec + unixToInternal < 2 ^ 63)%Z → time_Unix sec = instant sec.
Proof. unfold int64, time_Unix, instant, unixToInternal. intros Hsec Hsmall. rewrite i64_small; lia. Qed.

Lemma time_Unix_wraps sec :
  int64 sec → (2 ^ 63 ≤ sec + unixToInternal)%Z → (time_Unix sec < - (2 ^ 62) * Second)%Z.
Proof.
  unfold int64, time_Unix, unixToInternal, i64, Second. intros Hsec Hbig.
  replace (sec + 62135596800 + 2 ^ 63)%Z with (sec + 62135596800 - 2 ^ 63 + 1 * 2 ^ 64)%Z by lia.
  rewrite Z.mod_add, Z.mod_small; lia.
Qed.

Lemma time_Add_upper t d : (- 2 ^ 63 * Second ≤ t)%Z → (0 ≤ d)%Z → (time_Add t d ≤ t + d)%Z.
Proof.
  unfold time_Add, Second. intros Ht Hd. Z.to_euclidean_division_equations.
  repeat case_match; lia.
Qed.

(** ** Account keys *)

Section Tokens.
Context `{Platform} `{CompactJSON} `{TokenJSON}.

Lemma base64URL_newline s : base64URL s = true → Forall (λ c, newline c = false) (string_bytes s).
Proof.
  unfold base64URL, isBase64URL, codes. intros [Hs _]%andb_true_iff. rewrite List.forallb_forall in Hs.
  apply Forall_forall. intros c Hc. assert (isBase64URLByte (bz c) = true) as Hok.
  { apply Hs, in_map. by apply list_elem_of_In. }
  clear -Hok. by destruct c.
Qed.

Lemma cutAt_None c s : c ∉ s → (cutAt c s).2 = None.
Proof.
  induction s as [|x s IH]; intros Hs; [done|]. rewrite not_elem_of_cons in Hs. destruct Hs as [Hx Hs]. simpl.
  destruct (x =? c)%Z eqn:E; [lia|]. specialize (IH Hs). by destruct (cutAt c s).
Qed.

Lemma base64URL_space s : base64URL s = true → (Cut 32 s).2 = None.
Proof.
  unfold base64URL, isBase64URL, Cut. intros [Hs _]%andb_true_iff. rewrite List.forallb_forall in Hs.
  pose proof (cutAt_None 32 (codes s)) as Hnone. destruct (cutAt 32 (codes s)) as [before after]. simpl in *.
  rewrite Hnone; [done|]. intros Hin. apply list_elem_of_In, Hs in Hin. done.
Qed.

(** The digest an accepted fingerprint names, when it is not the thumbprint itself. *)
Lemma matchesAccountKey_digest fingerprint thumbprint :
  matchesAccountKey fingerprint thumbprint = true →
  fingerprint = thumbprint ∨
  ∃ value digest, (Cut 32 fingerprint).2 = Some value ∧ decode thumbprint = Some digest ∧
    hexDecode (filter (λ c, c ≠ 58%Z) (codes (TrimSpace value))) = Some digest.
Proof.
  unfold matchesAccountKey. case_bool_decide; [by left|]. intros Hmatch. right.
  destruct (decode thumbprint) as [digest|]; [|done]. destruct (Cut 32 fingerprint) as [algorithm [value|]]; [|done].
  case_match; [done|]. destruct (hexDecode _) as [got|] eqn:Hhex; [|done]. go_bool. subst got. eauto.
Qed.

(** A token is bound to one account key: no fingerprint, whether a thumbprint or a hexadecimal
    digest, matches the thumbprints of two keys. *)
Theorem fingerprint_binding (fingerprint t1 t2 : string) (Ht1 : base64URL t1 = true) (Ht2 : base64URL t2 = true)
    (Hm1 : matchesAccountKey fingerprint t1 = true) (Hm2 : matchesAccountKey fingerprint t2 = true) : t1 = t2.
Proof.
  apply matchesAccountKey_digest in Hm1 as [->|(v1 & d1 & Hc1 & Hd1 & Hh1)],
    Hm2 as [->|(v2 & d2 & Hc2 & Hd2 & Hh2)]; [done|..].
  - by rewrite base64URL_space in Hc2.
  - by rewrite base64URL_space in Hc1.
  - simplify_eq. apply encode_decode in Hd1; [|by apply base64URL_newline].
    apply encode_decode in Hd2; [|by apply base64URL_newline]. congruence.
Qed.

(** ** Names of NF tokens *)

Lemma nfNames_spec raws instance names granted :
  nfNames raws instance names = Ok granted → NoDup names →
  (∀ id, id ∈ names → id ≠ instance ∧ id_Type id ≠ IdentifierNfInstanceID) →
  NoDup granted ∧ (length granted ≤ length names + length raws)%nat ∧
  (∀ id, id ∈ granted → id_Type id ≠ IdentifierNfInstanceID) ∧
  ∀ id, id ∈ granted ↔ id ∈ names ∨ id ≠ instance ∧ ∃ raw, raw ∈ raws ∧ tokenName raw = Ok id.
Proof.
  revert names. induction raws as [|raw raws IH]; intros names Heq Hnodup Hnames; cbn [nfNames] in Heq.
  { simplify_eq. split_and!; [done|simpl; lia|naive_solver|]. intros id. set_solver. }
  destruct (tokenName raw) as [id|] eqn:Hraw; [|done]. case_match eqn:Hother; [done|].
  assert (∀ id', (∃ raw', raw' ∈ raw :: raws ∧ tokenName raw' = Ok id') ↔
    id' = id ∨ ∃ raw', raw' ∈ raws ∧ tokenName raw' = Ok id') as Hcons.
  { intros id'. split.
    - intros (raw' & Hin & Hok). apply elem_of_cons in Hin as [->|Hin]; [left; congruence|right; eauto].
    - intros [->|(raw' & Hin & Hok)]; [exists raw|exists raw']; rewrite elem_of_cons; auto. }
  case_match eqn:Hnew; go_bool; apply IH in Heq as (Hg & Hlen & Htype & Hin); try done; clear IH.
  - rewrite length_app in Hlen. cbn [length] in *. split_and!; [done|lia|done|]. intros id'.
    rewrite Hin, Hcons, elem_of_app, elem_of_cons, elem_of_nil. destruct (decide (id' = id)) as [->|]; tauto.
  - apply NoDup_app. split; [done|]. split; [|apply NoDup_singleton].
    intros id' Hid' [->|[]%elem_of_nil]%elem_of_cons. done.
  - intros id' [?|[->|[]%elem_of_nil]%elem_of_cons]%elem_of_app; [by apply Hnames|].
    split; [done|]. destruct Hother; go_bool; done.
  - cbn [length] in *. split_and!; [done|lia|done|]. intros id'. rewrite Hin, Hcons.
    destruct (decide (id' = id)) as [->|]; [|tauto]. destruct Hnew; go_bool; tauto.
Qed.

(** An NF token grants exactly the normalized names of its list other than its own instance, at
    most 100 of them and each once, never another instance, and the NF type it carries, which is
    well formed. *)
Theorem nfGrant_exact (atc : atcClaimJSON) (instance : Identifier) (names : list Identifier) (nfType : string)
    (Hgrant : nfGrant atc instance = Ok (names, nfType)) :
  NoDup names ∧ (length names ≤ 100)%nat ∧ (∀ id, id ∈ names → id_Type id ≠ IdentifierNfInstanceID) ∧
  (∀ id, id ∈ names ↔ id ≠ instance ∧ ∃ raw, raw ∈ default [] (atc_Names atc) ∧ tokenName raw = Ok id) ∧
  (atc_NFType atc = None ∧ nfType = "" ∨ atc_NFType atc = Some nfType ∧ ValidNFType nfType = true).
Proof.
  unfold nfGrant in Hgrant. case_match eqn:Htype; [done|].
  assert (atc_NFType atc = None ∧ default "" (atc_NFType atc) = "" ∨
    atc_NFType atc = Some (default "" (atc_NFType atc)) ∧ ValidNFType (default "" (atc_NFType atc)) = true) as Hnf.
  { destruct (atc_NFType atc); [right|by left]. by apply negb_false_iff in Htype. }
  destruct (atc_Names atc) as [raws|] eqn:Hraws; simpl.
  - case_match eqn:Hlong; [done|]. destruct (nfNames raws instance []) as [granted|] eqn:Hnames; [|done].
    simpl in Hgrant. injection Hgrant as <- <-. apply Nat.ltb_ge in Hlong. unfold maxTokenNames in Hlong.
    apply nfNames_spec in Hnames as (Hg & Hlen & Hkind & Hin); [|apply NoDup_nil_2|set_solver].
    simpl in Hlen. split_and!; [done|lia|done| |done]. intros id. rewrite Hin. set_solver.
  - injection Hgrant as <- <-. split_and!; [apply NoDup_nil_2|simpl; lia|set_solver|set_solver|done].
Qed.

(** ** Claims *)

(** The claims of a token speak of the identifier, of the account key and of the present. A nbf claim
    is compared as long as its instant can be represented. *)
Definition token_fits (v : TKAuth01) (claims : authorityTokenJSON) (id : Identifier) (thumbprint : string)
    (now : Time) : Prop :=
  ∃ atc expires, tok_ATC claims = Some atc ∧ tok_Expires claims = Some expires ∧
    EqualFold (atc_TokenType atc) (IdentifierType_string (id_Type id)) = true ∧
    (id_Type id = IdentifierTNAuthList → ∃ authorities,
       decode (id_Value id) = Some authorities ∧ decodeAuthorityList (atc_TokenValue atc) = Some authorities) ∧
    (id_Type id = IdentifierNfInstanceID → ∃ named,
       Normalize (mkIdentifier IdentifierNfInstanceID (atc_TokenValue atc)) = Ok named ∧ id_Value named = id_Value id) ∧
    (now ≤ instant expires + tk_skew v)%Z ∧
    (∀ notBefore, tok_NotBefore claims = Some notBefore → (notBefore + unixToInternal < 2 ^ 63)%Z →
       instant notBefore - tk_skew v ≤ now)%Z ∧
    matchesAccountKey (atc_Fingerprint atc) thumbprint = true.

(** The times of a claim set are 64-bit integers. *)
Definition claims_int64 (claims : authorityTokenJSON) : Prop :=
  (∀ z, tok_Expires claims = Some z → int64 z) ∧ (∀ z, tok_NotBefore claims = Some z → int64 z).

Lemma time_Unix_upper sec : int64 sec → (- 2 ^ 63 * Second ≤ time_Unix sec ≤ instant sec)%Z.
Proof.
  intros Hsec. pose proof (i64_range (sec + unixToInternal)) as Hrange.
  destruct (decide (sec + unixToInternal < 2 ^ 63)%Z) as [Hsmall|Hbig].
  - rewrite time_Unix_instant by done. unfold instant, int64, unixToInternal, Second in *. lia.
  - pose proof (time_Unix_wraps sec Hsec). unfold time_Unix, instant, int64, unixToInternal, Second in *. lia.
Qed.

Lemma time_Add_lower t d : (t < 2 ^ 63 * Second)%Z → (d ≤ 0)%Z → (t + d ≤ time_Add t d)%Z.
Proof.
  unfold time_Add, Second. intros Ht Hd. Z.to_euclidean_division_equations. repeat case_match; lia.
Qed.

(** A test that did not refuse. *)
Tactic Notation "passed" hyp(H) "as" ident(E) :=
  lazymatch type of H with (if ?c then _ else _) = _ => destruct c eqn:E; [discriminate H|] end.

Lemma checkClaims_fits v claims id thumbprint now :
  claims_int64 claims → (0 ≤ tk_skew v)%Z →
  checkClaims v claims id thumbprint now = None → token_fits v claims id thumbprint now.
Proof.
  intros [Hexp Hnbf] Hskew. unfold checkClaims, token_fits. intros Hnone.
  destruct (tok_ATC claims) as [atc|]; [|done]. destruct (negb (EqualFold _ _)) eqn:Htype; [done|].
  case_match eqn:Hlist; [done|]. case_match eqn:Hnf; [done|].
  destruct (tok_Expires claims) as [expires|]; [|done]. passed Hnone as Hafter. passed Hnone as Hbefore.
  passed Hnone as Hkey.
  exists atc, expires. apply negb_false_iff in Htype. split_and!; try done.
  - intros Hid. rewrite bool_decide_eq_true_2 in Hlist by done. cbn [andb] in Hlist. go_bool.
    unfold sameAuthorityList in Hlist. destruct (decode _) as [want|]; [|done].
    destruct (decodeAuthorityList _); [|done]. go_bool. subst. by exists want.
  - intros Hid. rewrite bool_decide_eq_true_2 in Hnf by done. cbn [andb] in Hnf. go_bool.
    unfold sameNfInstance in Hnf. destruct (Normalize _) as [named|]; [|done]. go_bool. by exists named.
  - apply After_false in Hafter. pose proof (time_Unix_upper expires (Hexp _ eq_refl)).
    pose proof (time_Add_upper (time_Unix expires) (tk_skew v)). lia.
  - intros notBefore Heq Hsmall. rewrite Heq in *. apply Before_false in Hbefore. specialize (Hnbf _ eq_refl).
    pose proof (time_Add_lower (time_Unix notBefore) (- tk_skew v)) as Hlower.
    rewrite time_Unix_instant in * by done. unfold instant, Second in *. lia.
  - by apply negb_false_iff.
Qed.

Lemma time_Add_negative t d : (t < - (2 ^ 62) * Second)%Z → (d ≤ 0)%Z → (time_Add t d < 0)%Z.
Proof.
  unfold time_Add, Second. intros Ht Hd. Z.to_euclidean_division_equations. repeat case_match; lia.
Qed.

Lemma parseAuthorityToken_int64 payload claims :
  (∀ payload claims, json_authorityToken payload = Ok claims → claims_int64 claims) →
  parseAuthorityToken payload = Ok claims → claims_int64 claims.
Proof. unfold parseAuthorityToken. intros Hjson Hok. repeat case_match; simplify_eq; eauto. Qed.

Lemma tokenGrant_cases claims id grant :
  tokenGrant claims id = Ok grant →
  ∃ atc expires, tok_ATC claims = Some atc ∧ tok_Expires claims = Some expires ∧
    vg_Expires grant = time_Unix expires ∧
    (id_Type id = IdentifierNfInstanceID ∧ vg_CACertificate grant = false ∧
       nfGrant atc id = Ok (vg_Names grant, vg_NFType grant) ∨
     id_Type id ≠ IdentifierNfInstanceID ∧ vg_CACertificate grant = atc_CA atc ∧
       vg_Names grant = [] ∧ vg_NFType grant = "").
Proof.
  unfold tokenGrant. intros Hok. destruct (tok_Expires claims) as [expires|]; [|done].
  destruct (tok_ATC claims) as [atc|]; [|done]. exists atc, expires. case_bool_decide as Htype.
  - destruct (nfGrant atc id) as [[names nfType]|]; [|done]. cbn [result_bind] in Hok. simplify_eq. auto 10.
  - simplify_eq. auto 10.
Qed.

Lemma checkTKAuthRequest_type request id :
  checkTKAuthRequest request = Ok id → id_Type id = IdentifierNfInstanceID ∨ id_Type id = IdentifierTNAuthList.
Proof.
  unfold checkTKAuthRequest. destruct (Normalize _) as [id'|]; [|done]. cbn [result_bind]. intros Hok.
  passed Hok as Hkind. passed Hok as Hproof. passed Hok as Hsize. simplify_eq. go_bool. destruct_or!; go_bool; auto.
Qed.

(** C20. A granted tkauth-01 validation asked for the certificate of one token authority, the one its
    token names, which was within its validity period and whose key verifies the token. The claims
    name the identifier and the account key, the token had not expired beyond the clock skew, and
    was valid already, as far as its nbf claim can be represented. The grant ends with the token.
    It carries the CA flag of a TNAuthList token, and the names and the type of an NF token. *)
Theorem tkauth_sound (v : TKAuth01) (request : ValidationRequest) (tr : list (called netOp)) (grant : ValidationGrant)
    (Hskew : (0 ≤ tk_skew v)%Z)
    (Hjson : ∀ payload claims, json_authorityToken payload = Ok claims → claims_int64 claims)
    (Hrun : runs (ValidateGrant v request) tr (Ok grant)) :
  ∃ id token claims ref certificate now atc expires,
    checkTKAuthRequest request = Ok id ∧ ParseCompact (vq_AuthorityToken request) = Ok token ∧
    parseAuthorityToken (cmsg_Payload token) = Ok claims ∧
    authorityRef (cmsg_Header token) (tok_Issuer claims) = Ok ref ∧
    tr = [Ev (NetAuthority ref) (Ok (Some certificate)); Ev NetNow now] ∧
    (x_NotBefore certificate ≤ now ≤ x_NotAfter certificate)%Z ∧
    CompactVerify token (x_PublicKey certificate) = None ∧
    token_fits v claims id (vq_AccountKeyThumbprint request) now ∧
    tok_ATC claims = Some atc ∧ tok_Expires claims = Some expires ∧ vg_Expires grant = time_Unix expires ∧
    (id_Type id = IdentifierNfInstanceID ∧ vg_CACertificate grant = false ∧
       nfGrant atc id = Ok (vg_Names grant, vg_NFType grant) ∨
     id_Type id = IdentifierTNAuthList ∧ vg_CACertificate grant = atc_CA atc ∧
       vg_Names grant = [] ∧ vg_NFType grant = "").
Proof.
  unfold ValidateGrant in Hrun. destruct (checkTKAuthRequest request) as [id|] eqn:Hid; [|by destruct Hrun].
  destruct (ParseCompact _) as [token|] eqn:Htoken; [|by destruct Hrun].
  destruct (parseAuthorityToken (cmsg_Payload token)) as [claims|] eqn:Hclaims; [|by destruct Hrun].
  cbn [result_bind] in Hrun. destruct (authorityRef _ _) as [ref|] eqn:Href; [|by destruct Hrun].
  cbn [result_bind] in Hrun. apply runs_bind in Hrun as (tr1 & x & tr2 & -> & Hcall & Hrun).
  apply runs_call in Hcall as ->. destruct x as [[certificate|]|]; [|by destruct Hrun..].
  apply runs_bind in Hrun as (tr3 & now & tr4 & -> & Hcall & Hrun). apply runs_call in Hcall as ->.
  apply runs_ret in Hrun as [-> Hgrant]. symmetry in Hgrant. passed Hgrant as Hvalid.
  destruct (CompactVerify _ _) eqn:Hverify; [done|]. destruct (checkClaims _ _ _ _ _) eqn:Hcheck; [done|].
  apply orb_false_iff in Hvalid as [Hbefore%Before_false Hafter%After_false].
  apply checkClaims_fits in Hcheck; [|by eapply parseAuthorityToken_int64|done].
  apply tokenGrant_cases in Hgrant as (atc & expires & Hatc & Hexpires & Hend & Hkind).
  exists id, token, claims, ref, certificate, now, atc, expires. split_and!; try done.
  destruct Hkind as [?|(Hother & ?)]; [by left|right]. split; [|done].
  by apply checkTKAuthRequest_type in Hid as [?|].
Qed.

(** C26. A nbf claim so late that adding the seconds between year 1 and 1970 overflows 64 bits is not
    compared at all: the token is accepted like one without the claim, although it is not valid
    for another 292 billion years. *)
Theorem tkauth_nbf_overflow (v : TKAuth01) (claims : authorityTokenJSON) (id : Identifier) (thumbprint : string)
    (now notBefore : Z) (Hnow : (0 ≤ now)%Z) (Hskew : (0 ≤ tk_skew v < 2 ^ 63)%Z) (Hint : int64 notBefore)
    (Hlate : (2 ^ 63 - unixToInternal ≤ notBefore)%Z) :
  checkClaims v {| claims with tok_NotBefore := Some notBefore |} id thumbprint now =
  checkClaims v {| claims with tok_NotBefore := None |} id thumbprint now.
Proof.
  unfold checkClaims. simpl. assert (Before now (time_Add (time_Unix notBefore) (- tk_skew v)) = false) as Hbefore.
  { apply Before_false. pose proof (time_Unix_wraps notBefore Hint ltac:(lia)) as Hpast.
    pose proof (time_Add_negative (time_Unix notBefore) (- tk_skew v)). lia. }
  by rewrite Hbefore.
Qed.
End Tokens.

(** ** A concrete token

    The token authority signs a token for the NF instance [uuid] and the account whose key has the
    digest of 32 zero bytes; it also grants the name nf.test. *)

Module Demo.

#[local] Existing Instance demo_platform.

Definition uuid : string := "c1a5e7b0-0000-4000-8000-0123456789ab".
Definition thumbprint : string := encode (replicate 32 x00).
Definition fingerprint : string :=
  "SHA256 00:00:00:00:00:00:00:00:00:00:00:00:00:00:00:00:00:00:00:00:00:00:00:00:00:00:00:00:00:00:00:00".
Definition instance : Identifier := mkIdentifier IdentifierNfInstanceID uuid.
Definition atc : atcClaimJSON :=
  mkAtcClaim "NFInstanceId" uuid false fingerprint (Some "AMF") (Some ["urn:uuid:" +:+ uuid; "nf.test"; "NF.test"]).
Definition claims : authorityTokenJSON := mkAuthorityToken "" (Some 1000%Z) (Some 0%Z) "id" (Some atc).

#[local] Instance compactJSON : CompactJSON := {|
  json_compactHeader _ :=
    Ok (mkCompactHeaderJSON (Some "EdDSA") None None (Some "https://ca.test/") None None None None None)
|}.

#[local] Instance tokenJSON : TokenJSON := {| json_authorityToken _ := Ok claims; strings_TrimSpace s := s |}.

Definition validator : TKAuth01 := mkTKAuth01 Minute.
Definition challenge : Challenge :=
  mkChallenge "c" "a" "acct" ChallengeTKAuth01 ChallengeProcessing "abcdefghijklmnopqrstuv" "" "" 0 None 1.
Definition request : ValidationRequest :=
  mkValidationRequest challenge instance false ("abcdefghijklmnopqrstuv." +:+ thumbprint) thumbprint "AAAA.AAAA.AAAA".
Definition certificate : X509Certificate :=
  mkX509Certificate [] [] [] [] (Some (KeyEd25519 (replicate 32 x00))) [] [] [] [] "" 0 (instant 2000) 3
    true false 0 [] (Some 1%Z).

Definition answer X (e : netOp X) (s : unit) : X * unit :=
  match e in netOp X return X * unit with
  | NetLookupIP _ _ => (Ok [], s)
  | NetLookupTXT _ => (Ok [], s)
  | NetDial _ => (Err (ErrMsg ""), s)
  | NetSend _ _ => (Err (ErrMsg ""), s)
  | NetHandshake _ _ => (Err (ErrMsg ""), s)
  | NetAuthority _ => (Ok (Some certificate), s)
  | NetNow => (instant 1000, s)
  end.

Definition run : list (called netOp) := run_of answer (ValidateGrant validator request) tt.
Definition grant : ValidationGrant :=
  mkValidationGrant false (instant 1000) [mkIdentifier IdentifierDNS "nf.test"] "AMF".

Lemma token_runs : runs (ValidateGrant validator request) run (Ok grant).
Proof. exact (runs_run_of answer (ValidateGrant validator request) tt). Qed.

Lemma tkauth_sound_witness :
  ∃ certificate now, run = [Ev (NetAuthority (mkTokenAuthorityRef "https://ca.test/" [] "" "")) (Ok (Some certificate)); Ev NetNow now].
Proof.
  destruct (tkauth_sound validator request run grant ltac:(by vm_compute)
    ltac:(intros ? ? [= <-]; split; intros ? [= <-]; split; by vm_compute) token_runs)
    as (id & token & claims' & ref & certificate' & now & _ & _ & _ & Htoken & Hclaims & Href & Htr & _).
  vm_compute in Htoken. injection Htoken as <-. vm_compute in Hclaims. injection Hclaims as <-.
  vm_compute in Href. injection Href as <-. exact (ex_intro _ certificate' (ex_intro _ now Htr)).
Defined.

Lemma nfGrant_exact_witness :
  mkIdentifier IdentifierDNS "nf.test" ∈ [mkIdentifier IdentifierDNS "nf.test"] ↔
  mkIdentifier IdentifierDNS "nf.test" ≠ instance ∧
  ∃ raw, raw ∈ ["urn:uuid:" +:+ uuid; "nf.test"; "NF.test"] ∧ tokenName raw = Ok (mkIdentifier IdentifierDNS "nf.test").
Proof.
  destruct (nfGrant_exact atc instance [mkIdentifier IdentifierDNS "nf.test"] "AMF" ltac:(by vm_compute))
    as (_ & _ & _ & Hnames & _).
  exact (Hnames (mkIdentifier IdentifierDNS "nf.test")).
Defined.

Lemma fingerprint_binding_witness :
  matchesAccountKey fingerprint thumbprint = true ∧
  thumbprint = "AAAAAAAAAAAAAAAAAAAAAAAAAAAAAAAAAAAAAAAAAAA".
Proof.
  split; [by vm_compute|].
  apply (fingerprint_binding fingerprint thumbprint "AAAAAAAAAAAAAAAAAAAAAAAAAAAAAAAAAAAAAAAAAAA"); by vm_compute.
Defined.

(** The latest nbf claim there is. *)
Lemma tkauth_nbf_overflow_witness :
  checkClaims validator {| claims with tok_NotBefore := Some (2 ^ 63 - 1)%Z |} instance thumbprint (instant 1000) = None.
Proof.
  rewrite (tkauth_nbf_overflow validator claims instance thumbprint (instant 1000) (2 ^ 63 - 1)); [by vm_compute|..];
    vm_compute; repeat split; congruence.
Defined.

End Demo.
