(* ===== verification/ServerProps.v ===== *)
(** * Limits of the configuration

    The worker defaults keep a lease at least twice as long as a task, as long as twice the task
    timeout can be represented, and a request body is read whole up to its limit. *)

From S2P Require Import Prelude Status Problem Resource Base64 Netip StoreSpec Prog Host Platform Identifier Jws Chain Worker Issuance Wire Http Accounts Orders Revoke Server.

(** The values of a worker configuration are 64-bit integers. *)
Definition WorkerConfig_int64 (c : WorkerConfig) : Prop :=
  (wc_Lease c < 2 ^ 63)%Z ∧ (wc_TaskTimeout c < 2 ^ 63)%Z.

Lemma withDefaults_nonnegative c w :
  withDefaults c = Ok w → (0 ≤ wc_Lease c ∧ 0 ≤ wc_TaskTimeout c ∧ 0 ≤ wc_Concurrency c ∧ 0 ≤ wc_PollInterval c ∧
    0 ≤ wc_MaxAttempts c ∧ 0 ≤ wc_RetryDelay c ∧ 0 ≤ wc_StaleAfter c)%Z.
Proof. unfold withDefaults. intros Hok. case_match; [done|]. go_bool. lia. Qed.

(** An accepted worker configuration has no zero setting left, and its lease is at least twice its
    positive task timeout, when the configured timeout is below 2^62 nanoseconds (146 years). *)
Theorem withDefaults_lease (c w : WorkerConfig) (Hint : WorkerConfig_int64 c) (Hsmall : (wc_TaskTimeout c < 2 ^ 62)%Z)
    (Hok : withDefaults c = Ok w) :
  (0 < wc_TaskTimeout w ∧ 2 * wc_TaskTimeout w ≤ wc_Lease w)%Z ∧
  (0 < wc_Concurrency w ∧ 0 < wc_PollInterval w ∧ 0 < wc_MaxAttempts w ∧ 0 < wc_RetryDelay w ∧ 0 < wc_StaleAfter w)%Z.
Proof.
  apply withDefaults_nonnegative in Hok as Hneg. destruct Hint as [Hlease Htimeout]. unfold withDefaults in Hok.
  case_match; [done|]. cbv zeta in Hok.
  assert (∀ v d : Z, (0 ≤ v → 0 < d → 0 < (if (v =? 0)%Z then d else v))%Z) as Hdefault.
  { intros v d Hv Hd. destruct (v =? 0)%Z eqn:E; lia. }
  assert (∀ v : Z, (0 ≤ v < 2 ^ 62)%Z → i64 (2 * v) = (2 * v)%Z) as Hdouble.
  { intros v Hv. apply i64_small. lia. }
  assert (∀ lease timeout : Z, (0 ≤ timeout < 2 ^ 62)%Z →
    ((timeout <=? 0)%Z || (lease <? i64 (2 * timeout))%Z = false → 0 < timeout ∧ 2 * timeout ≤ lease)%Z) as Htest.
  { intros lease timeout Ht. rewrite Hdouble by done. intros. go_bool. lia. }
  split.
  - destruct (wc_Lease c =? 0)%Z eqn:E1, (wc_TaskTimeout c =? 0)%Z eqn:E2; go_bool;
      (case_match eqn:Hcond; [done|]); injection Hok as <-; cbn [wc_Lease wc_TaskTimeout]; apply Htest; try done.
    all: Z.to_euclidean_division_equations; unfold Minute, Second in *; lia.
  - case_match. case_match; [done|]. injection Hok as <-.
    cbn [wc_Concurrency wc_PollInterval wc_MaxAttempts wc_RetryDelay wc_StaleAfter].
    split_and!; apply Hdefault; unfold Minute, Second; lia.
Qed.

Lemma withDefaults_lease_witness :
  let w := mkWorkerConfig 4 Second (2 * Minute) (30 * Second) 5 (5 * Second) Minute false in
  (2 * wc_TaskTimeout w ≤ wc_Lease w)%Z.
Proof.
  exact (proj2 (proj1 (withDefaults_lease (mkWorkerConfig 0 0 0 0 0 0 0 false)
    (mkWorkerConfig 4 Second (2 * Minute) (30 * Second) 5 (5 * Second) Minute false)
    ltac:(by vm_compute) ltac:(by vm_compute) ltac:(by vm_compute)))).
Defined.

(** A task timeout from 2^62 nanoseconds on, without a lease, is accepted with a lease of two
    minutes. *)
Lemma withDefaults_lease_overflow (timeout : Z) :
  (2 ^ 62 ≤ timeout < 2 ^ 63)%Z →
  withDefaults (mkWorkerConfig 0 0 0 timeout 0 0 0 false) =
    Ok (mkWorkerConfig 4 Second (2 * Minute) timeout 5 (5 * Second) Minute false).
Proof.
  intros Ht. unfold withDefaults. cbn [wc_Lease wc_TaskTimeout wc_Concurrency wc_PollInterval wc_MaxAttempts wc_RetryDelay wc_StaleAfter].
  assert (i64 (2 * timeout) = 2 * timeout - 2 ^ 64)%Z as Hwrap.
  { unfold i64. replace (2 * timeout + 2 ^ 63)%Z with (2 * timeout - 2 ^ 63 + 1 * 2 ^ 64)%Z by lia.
    rewrite Z.mod_add, Z.mod_small; lia. }
  replace (timeout <? 0)%Z with false by lia. replace (timeout =? 0)%Z with false by lia. simpl orb. cbv zeta.
  replace (0 =? 0)%Z with true by lia. rewrite Hwrap, Z.max_l by (unfold Minute, Second; lia).
  replace (timeout <=? 0)%Z with false by lia.
  replace (2 * Minute <? 2 * timeout - 2 ^ 64)%Z with false by (unfold Minute, Second; lia). done.
Qed.

Section Body.
Context `{Platform} `{StrictJSON} `{PayloadJSON} (s : Server).

(** With the largest limit a configuration can set, the body of every request reads as empty. *)
Lemma readBody_overflow (r : Request) (content : bytes) :
  s_maxBody s = (2 ^ 63 - 1)%Z → r_Body r = Some (Ok content) → readBody s r = Ok [].
Proof. intros Hmax Hbody. unfold readBody. rewrite Hbody, Hmax. done. Qed.

End Body.
