(* ===== verification/Authority.v ===== *)
(** * What a request may do

    Every call a handler makes is justified by what the request has proved before. A run of
    [ServeHTTP] starts with nothing but reads of public resources; the first other call comes after
    the nonce of the request was spent and its signature verified, and a write concerns a record of
    the signing account or a certificate the signer may revoke. *)

From S2P Require Import Prelude Status Problem Resource Base64 Netip StoreSpec Prog Host Platform Identifier Jws Chain Worker Issuance Wire Http Accounts Orders Revoke Server Lifecycle System SystemDemo.

(** ** Histories

    [upholds p Q h]: continued from the calls [h], every call of [p] is justified by the calls
    before it, and [Q] holds of the result, as long as every answer is one of [ans]. *)

Notation history := (list (called op)) (only parsing).

Section Histories.
Context (just : history → ∀ X, op X → Prop) (ans : ∀ X, op X → X → Prop).

Fixpoint upholds {A} (p : Prog A) (Q : A → history → Prop) (h : history) : Prop :=
  match p with
  | Ret a => Q a h
  | Vis e k => just h _ e ∧ ∀ x, ans _ e x → upholds (k x) Q (h ++ [Ev e x])
  end.

(** Every call of [p] is one of [ok]. *)
Fixpoint only {A} (ok : ∀ X, op X → Prop) (p : Prog A) : Prop :=
  match p with
  | Ret _ => True
  | Vis e k => ok _ e ∧ ∀ x, only ok (k x)
  end.

(** Every result of [p] satisfies [P]. *)
Fixpoint ends {A} (P : A → Prop) (p : Prog A) : Prop :=
  match p with
  | Ret a => P a
  | Vis e k => ∀ x, ends P (k x)
  end.

Definition answered (ev : called op) : Prop := let 'Ev e x := ev in ans _ e x.
Definition justified (h : history) (ev : called op) : Prop := let 'Ev e _ := ev in just h _ e.

Lemma upholds_conseq {A} (p : Prog A) (Q Q' : A → history → Prop) h :
  (∀ a h', h `prefix_of` h' → Q a h' → Q' a h') → upholds p Q h → upholds p Q' h.
Proof.
  revert h. induction p as [a|X e k IH]; intros h HQ; simpl; [by apply HQ|].
  intros [Hg Hk]. split; [done|]. intros x Hx. apply IH; [|by apply Hk].
  intros a h' Hh. apply HQ. etrans; [by apply prefix_app_r|done].
Qed.

Lemma upholds_bind {A B} (f : A → Prog B) (p : Prog A) (Q : B → history → Prop) h :
  upholds p (λ a, upholds (f a) Q) h → upholds (p ≫= f) Q h.
Proof.
  change (p ≫= f) with (prog_bind f p). revert h. induction p as [a|X e k IH]; intros h; simpl; [done|].
  intros [Hg Hk]. split; [done|]. intros x Hx. by apply IH, Hk.
Qed.

Lemma upholds_runs {A} (p : Prog A) (Q : A → history → Prop) h tr a :
  upholds p Q h → runs p tr a → Forall answered tr →
  Q a (h ++ tr) ∧ ∀ i ev, tr !! i = Some ev → justified (h ++ take i tr) ev.
Proof.
  revert h tr. induction p as [a'|X e k IH]; intros h tr; simpl.
  - intros HQ [-> ->] _. by rewrite app_nil_r.
  - intros [Hg Hk] (x & tr' & -> & Hrun) Hans. apply Forall_cons in Hans as [Hx Hans].
    destruct (IH x _ _ (Hk x Hx) Hrun Hans) as [HQ Htr]. rewrite <- app_assoc in HQ. split; [done|].
    intros [|i] ev; simpl.
    + intros [= <-]. by rewrite app_nil_r.
    + intros Hi. specialize (Htr i ev Hi). by rewrite <- app_assoc in Htr.
Qed.

Lemma only_bind {A B} ok (f : A → Prog B) (p : Prog A) :
  only ok p → (∀ a, only ok (f a)) → only ok (p ≫= f).
Proof. change (p ≫= f) with (prog_bind f p). induction p as [a|X e k IH]; simpl; [done|naive_solver]. Qed.

Lemma only_upholds {A} ok (p : Prog A) h :
  (∀ h' X (e : op X), h `prefix_of` h' → ok X e → just h' X e) → only ok p →
  upholds p (λ _ h', h `prefix_of` h') h.
Proof.
  intros Hok. assert (∀ h', h `prefix_of` h' → only ok p → upholds p (λ _ h', h `prefix_of` h') h') as Hgen; [|by apply Hgen].
  induction p as [a|X e k IH]; intros h' Hh; simpl; [done|]. intros [He Hk]. split; [by apply Hok|].
  intros x _. apply IH; [|done]. by apply prefix_app_r.
Qed.

Lemma ends_bind {A B} (P : B → Prop) (f : A → Prog B) (p : Prog A) :
  ends (λ a, ends P (f a)) p → ends P (p ≫= f).
Proof. change (p ≫= f) with (prog_bind f p). induction p as [a|X e k IH]; simpl; [done|naive_solver]. Qed.

Lemma ends_conseq {A} (P P' : A → Prop) (p : Prog A) : (∀ a, P a → P' a) → ends P p → ends P' p.
Proof. intros HP. induction p as [a|X e k IH]; simpl; [apply HP|naive_solver]. Qed.

Lemma ends_any {A} (P : A → Prop) (p : Prog A) : (∀ a, P a) → ends P p.
Proof. intros HP. induction p as [a|X e k IH]; simpl; auto. Qed.

Lemma upholds_ends {A} (P : A → Prop) (p : Prog A) (Q : A → history → Prop) h :
  ends P p → upholds p Q h → upholds p (λ a h', P a ∧ Q a h') h.
Proof. revert h. induction p as [a|X e k IH]; intros h; simpl; [done|]. intros HP [Hg Hk]. auto. Qed.

End Histories.

(** ** Authority *)

Section Authority.
Context `{Platform} `{StrictJSON} `{PayloadJSON} (s : Server) (r : Request).

(** The history [h] proves the signed request [req]: the nonce of the message was valid and spent,
    the message names the URL of the request, and its signature verifies with the key of the
    request, which the message embeds or which belongs to the valid account its [kid] names. *)
Definition signed (h : history) (req : signedRequest) : Prop :=
  ∃ body msg rel,
    readBody s r = Ok body ∧ jws_Parse body = Ok msg ∧
    Ev (OpNonceConsume (r_Context r) (h_Nonce (m_Header msg))) (Ok true) ∈ h ∧
    r_EscapedPath r = s_basePath s +:+ rel ∧ h_URL (m_Header msg) = expectedURL s r rel ∧
    Verify msg (sr_Key req) = None ∧ sr_Payload req = m_Payload msg ∧
    match sr_Account req with
    | None => h_Key (m_Header msg) = Some (sr_Key req)
    | Some account =>
        sr_Key req = acct_Key account ∧ acct_Status account = AccountValid ∧
        ∃ id, accountIDFromURL s (h_KeyID (m_Header msg)) = Some id ∧
              Ev (OpStore (r_Context r) (CallAccount id)) (Ok account) ∈ h
    end.

Definition anySigner (h : history) : Prop := ∃ req, signed h req.

(** The account with the ID signed the request. *)
Definition signer (h : history) (id : string) : Prop :=
  ∃ req account, signed h req ∧ sr_Account req = Some account ∧ acct_ID account = id.

(** An account signed the request, with the payload. *)
Definition requested (h : history) (account : Account) (payload : bytes) : Prop :=
  ∃ req, signed h req ∧ sr_Account req = Some account ∧ sr_Payload req = payload.

(** The account belongs to the key that the request embeds and is signed with. *)
Definition ownsKey (h : history) (account : Account) : Prop :=
  ∃ req, signed h req ∧ sr_Account req = None ∧ acct_Key account = sr_Key req ∧
    Thumbprint (sr_Key req) = Ok (acct_KeyThumbprint account).

(** The inner message of a key change: it is signed with the new key, names the account and the key
    the account has. *)
Definition provesKey (account : Account) (payload : bytes) (key : PublicKey) (thumbprint : string) : Prop :=
  ∃ inner change oldKey,
    ParseInner payload = Ok inner ∧ h_URL (m_Header inner) = resourceURL s resourceKeyChange ∧
    h_Key (m_Header inner) = Some key ∧ Verify inner key = None ∧ Thumbprint key = Ok thumbprint ∧
    json_keyChange (m_Payload inner) = Ok change ∧ kc_Account change = accountURL s (acct_ID account) ∧
    ParseJWK (kc_OldKey change) = Ok oldKey ∧ Thumbprint oldKey = Ok (acct_KeyThumbprint account).

(** The signing account with changed fields. It keeps its key, or the request proves the new one. *)
Definition ownAccount (h : history) (account' : Account) : Prop :=
  ∃ account payload, requested h account payload ∧ acct_ID account' = acct_ID account ∧
    (acct_Key account' = acct_Key account ∧ acct_KeyThumbprint account' = acct_KeyThumbprint account ∨
     provesKey account payload (acct_Key account') (acct_KeyThumbprint account')).

(** The signer may revoke the certificate with the ID: it names a certificate that was read from the
    store, and the signer is its account, an account authorized for all its identifiers or the
    holder of its key. *)
Definition mayRevoke (h : history) (id : string) : Prop :=
  ∃ req der leaf cert,
    signed h req ∧ id = certificateID der ∧ x509_ParseCertificate der = Ok leaf ∧
    Ev (OpStore (r_Context r) (CallCertificate id)) (Ok cert) ∈ h ∧ head (crt_Chain cert) = Some der ∧
    match sr_Account req with
    | Some account =>
        acct_ID account = crt_AccountID cert ∨
        ∃ ids now, revocationIdentifiers leaf = Ok ids ∧
          Ev (OpStore (r_Context r) (CallAuthorizedFor (acct_ID account) ids now)) (Ok true) ∈ h
    | None =>
        ∃ key thumbprint, x_PublicKey leaf = Some key ∧ Thumbprint key = Ok thumbprint ∧
          Thumbprint (sr_Key req) = Ok thumbprint
    end.

(** What has to be proved before a store call. Calls of the worker are never made. *)
Definition storeAuthority (h : history) {X} (c : storeCall X) : Prop :=
  match c with
  | CallAccount _ | CallCertificateByRenewalID _ => True
  | CallCreateAccount account =>
      ∃ ctx proposed, Ev (OpPolicyNewAccount ctx proposed) (None, account) ∈ h ∧ ownsKey h proposed
  | CallUpdateAccount account => ownAccount h account
  | CallCreateOrder order authzs challenges =>
      signer h (ord_AccountID order) ∧
      Forall (λ authz, az_AccountID authz = ord_AccountID order ∧ az_OrderID authz = ord_ID order) authzs ∧
      Forall (λ ch, ch_AccountID ch = ord_AccountID order ∧ ch_Status ch = ChallengePending) challenges
  | CallUpdateAuthorization authz => signer h (az_AccountID authz)
  | CallAcceptChallenge ch task => signer h (ch_AccountID ch) ∧ task_TargetID task = ch_ID ch ∧ task_AccountID task = ch_AccountID ch
  | CallFinalizeOrder order task => signer h (ord_AccountID order) ∧ task_TargetID task = ord_ID order ∧ task_AccountID task = ord_AccountID order
  | CallUpdateCertificate cert => mayRevoke h (crt_ID cert)
  | CallBeginIssuance _ _ _ _ | CallClaimTask _ _ | CallRescheduleTask _ | CallRetryValidation _ _ | CallFinishTask _
  | CallCompleteValidation _ _ _ _ | CallCompleteIssuance _ _ _ | CallPendingTasks _ | CallLeasedTasks _ => False
  | CallAccountByKey _ | CallOrder _ | CallOrderIDs _ _ _ | CallAuthorization _ | CallAuthorizedFor _ _ _
  | CallChallenge _ | CallCertificate _ | CallAccountValidations _ => anySigner h
  end.

(** What has to be proved before a call. *)
Definition authority (h : history) (X : Type) (e : op X) : Prop :=
  match e with
  | OpStore _ c => storeAuthority h c
  | OpNow | OpWallNow | OpNonceIssue _ | OpNonceConsume _ _ | OpAllow _ _ | OpRenewalInfo _ _ => True
  | OpRevoke _ req => 
      mayRevoke h (certificateID (rq_DER req)) ∧ x509_ParseCertificate (rq_DER req) = Ok (rq_Certificate req)
  | OpAuthorizeIssuance _ _ | OpIssue _ _ | OpValidate _ _ _ | OpValidateGrant _ _ _ => False
  | OpPolicyNewAccount _ account => ownsKey h account
  | OpRandRead _ | OpPolicyNewOrder _ _ _ | OpPreApprove _ _ _ | OpDefaultProfile _ _
  | OpMACKey _ _ | OpRecordRefusal _ _ | OpWake => anySigner h
  end.

(** The store answers with the certificate that was asked for. *)
Definition named (X : Type) (e : op X) : X → Prop :=
  match e with
  | OpStore _ c =>
      match c in storeCall X return Res X → Prop with
      | CallCertificate id => λ x, if x is Ok cert then crt_ID cert = id else True
      | CallUpdateCertificate cert => λ x, if x is Ok cert' then crt_ID cert' = crt_ID cert else True
      | _ => λ _, True
      end
  | _ => λ _, True
  end.

(** Calls that need no signature, and calls that need one of any account or key. *)
Definition public (X : Type) (e : op X) : Prop := ∀ h, authority h X e.
Definition plain (X : Type) (e : op X) : Prop := ∀ h, anySigner h → authority h X e.

Notation ups := (upholds authority named).

(** ** Proofs grow with the history *)

Lemma elem_of_grown (ev : called op) h h' : h `prefix_of` h' → ev ∈ h → ev ∈ h'.
Proof. intros [l ->] Hev. apply elem_of_app. by left. Qed.

Lemma signed_grown h h' req : h `prefix_of` h' → signed h req → signed h' req.
Proof.
  intros Hh (body & msg & rel & Hs1 & Hs2 & Hs3 & Hs4 & Hs5 & Hs6 & Hs7 & Hs8). exists body, msg, rel.
  split_and!; try done; [by eapply elem_of_grown|]. destruct (sr_Account req); naive_solver eauto using elem_of_grown.
Qed.

Lemma anySigner_grown h h' : h `prefix_of` h' → anySigner h → anySigner h'.
Proof. intros Hh [req Hs]. exists req. by eapply signed_grown. Qed.

Lemma signer_grown h h' id : h `prefix_of` h' → signer h id → signer h' id.
Proof. intros Hh (req & a & Hs & Ha). exists req, a. split; [by eapply signed_grown|done]. Qed.

Lemma requested_grown h h' account payload : h `prefix_of` h' → requested h account payload → requested h' account payload.
Proof. intros Hh (req & Hs & Ha). exists req. split; [by eapply signed_grown|done]. Qed.

Lemma ownsKey_grown h h' account : h `prefix_of` h' → ownsKey h account → ownsKey h' account.
Proof. intros Hh (req & Hs & Ha). exists req. split; [by eapply signed_grown|done]. Qed.

Lemma mayRevoke_grown h h' id : h `prefix_of` h' → mayRevoke h id → mayRevoke h' id.
Proof.
  intros Hh (req & der & leaf & cert & Hs1 & Hs2 & Hs3 & Hs4 & Hs5 & Hs6). exists req, der, leaf, cert.
  split_and!; try done; [by eapply signed_grown|by eapply elem_of_grown|].
  destruct (sr_Account req); naive_solver eauto using elem_of_grown.
Qed.

Lemma signer_any h id : signer h id → anySigner h.
Proof. intros (req & _ & Hs & _). by exists req. Qed.

Lemma requested_signer h account payload : requested h account payload → signer h (acct_ID account).
Proof. intros (req & Hs & Ha & _). by exists req, account. Qed.

Lemma mayRevoke_any h id : mayRevoke h id → anySigner h.
Proof. intros (req & ? & ? & ? & Hs & _). by exists req. Qed.

(** ** Calls that are justified as a group *)

Lemma ups_public {A} (p : Prog A) h : only public p → ups p (λ _ h', h `prefix_of` h') h.
Proof. apply only_upholds. by intros. Qed.

Lemma ups_plain {A} (p : Prog A) h : anySigner h → only plain p → ups p (λ _ h', h `prefix_of` h') h.
Proof. intros Hs. apply only_upholds. intros h' X e Hh He. by eapply He, anySigner_grown. Qed.

Lemma only_public_plain {A} (p : Prog A) : only public p → only plain p.
Proof. induction p as [a|X e k IH]; simpl; [done|]. intros [He Hk]. split; [by intros h _|auto]. Qed.

#[local] Create HintDb authority.
#[local] Hint Resolve only_public_plain : authority.

(** Goes through a program whose calls are all public or all plain. *)
Ltac solve_only :=
  repeat lazymatch goal with
  | |- ∀ _, _ => intros ?
  | |- only _ (_ ≫= _) => apply only_bind; [|intros ?]
  | |- only _ (orElse _ _ _) => unfold orElse
  | |- only _ (andThen _ _) => unfold andThen
  | |- only _ (storeOr _ _ _) => unfold storeOr
  | |- only _ (mret _) => exact I
  | |- only _ (Ret _) => exact I
  | |- only _ (call _) => split; [by intros ?|done]
  | |- only _ (store _ _) => split; [by intros ?|done]
  | |- only _ Now => split; [by intros ?|done]
  | |- only _ workAccepted => split; [by intros ?|done]
  | |- only _ (match _ with _ => _ end) => case_match
  | |- _ => solve [eauto with authority]
  end.

Lemma checkLimit_public ctx req : only public (checkLimit s ctx req).
Proof. unfold checkLimit. solve_only. Qed.
#[local] Hint Resolve checkLimit_public : authority.

Lemma addNonce_public ctx hs : only public (addNonce ctx hs).
Proof. unfold addNonce. solve_only. Qed.
#[local] Hint Resolve addNonce_public : authority.

Lemma writeProblemWithoutNonce_public hs p : only public (writeProblemWithoutNonce s hs p).
Proof. exact I. Qed.
#[local] Hint Resolve writeProblemWithoutNonce_public : authority.

Lemma writeProblem_public spent hs p : only public (writeProblem s r spent hs p).
Proof. unfold writeProblem. solve_only. Qed.
#[local] Hint Resolve writeProblem_public : authority.

Lemma writeMethodNotAllowed_public allowed : only public (writeMethodNotAllowed s r allowed).
Proof. apply writeProblem_public. Qed.
#[local] Hint Resolve writeMethodNotAllowed_public : authority.

Lemma writeJSON_public ctx hs status v : only public (writeJSON s ctx hs status v).
Proof. unfold writeJSON. solve_only. Qed.
#[local] Hint Resolve writeJSON_public : authority.

Lemma writeOrder_public ctx status order now : only public (writeOrder s ctx status order now).
Proof. apply writeJSON_public. Qed.
#[local] Hint Resolve writeOrder_public : authority.

Lemma writeChallenge_public ctx hs ch : only public (writeChallenge s ctx hs ch).
Proof. apply writeJSON_public. Qed.
#[local] Hint Resolve writeChallenge_public : authority.

Lemma newID_plain : only plain newID.
Proof. unfold newID. solve_only. Qed.
#[local] Hint Resolve newID_plain : authority.

Lemma newToken_plain : only plain newToken.
Proof. unfold newToken. solve_only. Qed.
#[local] Hint Resolve newToken_plain : authority.

Lemma WithTimeout_public parent timeout : only public (WithTimeout parent timeout).
Proof. unfold WithTimeout. solve_only. Qed.
#[local] Hint Resolve WithTimeout_public : authority.

Lemma externalAccount_plain ctx thumbprint payload : only plain (externalAccount s ctx thumbprint payload).
Proof. unfold externalAccount, verifyExternalAccountBinding. solve_only. Qed.

Lemma writeExistingAccount_public hs account : only public (writeExistingAccount s r hs account).
Proof. unfold writeExistingAccount. solve_only. Qed.
#[local] Hint Resolve externalAccount_plain writeExistingAccount_public : authority.

Lemma orderURLs_plain ctx ids now urls : only plain (orderURLs s ctx ids now urls).
Proof. revert urls. induction ids as [|id ids IH]; intros urls; cbn [orderURLs]; solve_only. Qed.

Lemma deriveLoop_plain ctx ids updated now ready : only plain (deriveLoop ctx ids updated now ready).
Proof. revert ready. induction ids as [|id ids IH]; intros ready; cbn [deriveLoop]; unfold authzStatus; solve_only. Qed.
#[local] Hint Resolve orderURLs_plain deriveLoop_plain : authority.

Lemma deriveOrderStatus_plain ctx order updated : only plain (deriveOrderStatus ctx order updated).
Proof. unfold deriveOrderStatus. solve_only. Qed.

Lemma preApprove_plain ctx account order : only plain (preApprove s ctx account order).
Proof. unfold preApprove. solve_only. Qed.

Lemma recordRefusal_plain parent refusal p : only plain (recordRefusal s parent refusal p).
Proof. unfold recordRefusal. solve_only. Qed.

Lemma loadAuthorizations_plain ctx ids : only plain (loadAuthorizations ctx ids).
Proof. induction ids as [|id ids IH]; cbn [loadAuthorizations]; solve_only. Qed.

Lemma loadChallenges_plain ctx ids : only plain (loadChallenges ctx ids).
Proof. induction ids as [|id ids IH]; cbn [loadChallenges]; solve_only. Qed.
#[local] Hint Resolve deriveOrderStatus_plain preApprove_plain recordRefusal_plain loadAuthorizations_plain loadChallenges_plain : authority.

Lemma buildOrder_plain ctx account payload now client : only plain (buildOrder s ctx account payload now client).
Proof. unfold buildOrder, selectProfile, checkReplaces, reviewOrder. solve_only. Qed.

Lemma buildChallenges_plain accountID authzID types : only plain (buildChallenges accountID authzID types).
Proof. induction types as [|typ types IH]; cbn [buildChallenges]; unfold random; solve_only. Qed.
#[local] Hint Resolve buildOrder_plain buildChallenges_plain : authority.

Lemma buildAuthorizations_plain order preApproved : only plain (buildAuthorizations s order preApproved).
Proof.
  unfold buildAuthorizations. assert (∀ ids, only plain (authorizationsFor s order ids preApproved)); [|solve_only].
  intros ids. induction ids as [|id ids IH]; cbn [authorizationsFor]; unfold random; solve_only.
Qed.
#[local] Hint Resolve buildAuthorizations_plain : authority.

(** ** Signed requests *)

Lemma ups_call {X} (e : op X) (Q : X → history → Prop) h :
  authority h X e → (∀ x, named X e x → Q x (h ++ [Ev e x])) → ups (call e) Q h.
Proof. done. Qed.

Lemma event_last (ev : called op) h : ev ∈ h ++ [ev].
Proof. apply elem_of_app. right. by apply list_elem_of_here. Qed.

Lemma lookupAccount_ups kid h :
  ups (lookupAccount s r kid) (λ res h', h `prefix_of` h' ∧
    if res is Ok account then acct_Status account = AccountValid ∧ ∃ id, accountIDFromURL s kid = Some id ∧
      Ev (OpStore (r_Context r) (CallAccount id)) (Ok account) ∈ h' else True) h.
Proof.
  unfold lookupAccount. destruct (accountIDFromURL s kid) as [id|] eqn:Hid; [|done].
  unfold andThen, orElse, storeOr. apply upholds_bind, upholds_bind, ups_call; [done|]. intros x _.
  assert (h `prefix_of` h ++ [Ev (OpStore (r_Context r) (CallAccount id)) x]) as Hh by by apply prefix_app_r.
  destruct x as [account|err]; [|done]. simpl. split; [done|].
  destruct (acct_Status account != AccountValid) eqn:Hst; [done|]. go_bool. split; [done|]. exists id. split; [done|]. apply event_last.
Qed.

Lemma requestKey_ups mode msg h :
  ups (requestKey s r mode msg) (λ res h', h `prefix_of` h' ∧
    if res is Ok req then sr_Payload req = m_Payload msg ∧
      match sr_Account req with
      | None => h_Key (m_Header msg) = Some (sr_Key req)
      | Some account => sr_Key req = acct_Key account ∧ acct_Status account = AccountValid ∧
          ∃ id, accountIDFromURL s (h_KeyID (m_Header msg)) = Some id ∧
                Ev (OpStore (r_Context r) (CallAccount id)) (Ok account) ∈ h'
      end else True) h.
Proof.
  unfold requestKey. destruct (h_Key (m_Header msg)) as [key|] eqn:Hk; [simpl; split; [done|]; by destruct (mode == keyModeAccount)|].
  case_match; [done|]. unfold andThen, orElse. apply upholds_bind. eapply upholds_conseq; [|apply lookupAccount_ups].
  intros [account|err] h' _ [Hh Hok]; [|done]. split; [done|]. by split_and!.
Qed.

Lemma authenticate_ups rel mode body msg h :
  readBody s r = Ok body → jws_Parse body = Ok msg →
  Ev (OpNonceConsume (r_Context r) (h_Nonce (m_Header msg))) (Ok true) ∈ h →
  ups (authenticate s r rel mode msg) (λ res h', h `prefix_of` h' ∧ if res is Ok req then signed h' req else True) h.
Proof.
  intros Hbody Hmsg Hev. unfold authenticate. case_match eqn:Hurl; [done|]. go_bool.
  unfold andThen, orElse. apply upholds_bind. eapply upholds_conseq; [|apply requestKey_ups].
  intros [req|p] h' _ [Hh Hok]; [|done]. simpl. split; [done|].
  destruct (Verify msg (sr_Key req)) eqn:Hv; [done|]. exists body, msg, rel.
  split_and!; try done; [by eapply elem_of_grown|apply Hok|apply Hok].
Qed.

Lemma readSignedRequest_ups rel mode h :
  ups (readSignedRequest s r rel mode) (λ res h', h `prefix_of` h' ∧ if res is (_, Ok req) then signed h' req else True) h.
Proof.
  unfold readSignedRequest. repeat (case_match; try done).
  match goal with Hp : jws_Parse _ = Ok _ |- _ => rename Hp into Hmsg end.
  match goal with Hp : readBody _ _ = Ok _ |- _ => rename Hp into Hbody end.
  apply upholds_bind, ups_call; [done|]. intros v _.
  assert (∀ ev, h `prefix_of` h ++ [ev]) as Hh by (intros; by apply prefix_app_r).
  destruct v as [[]|err]; [|by simpl; split|by simpl; split]. apply upholds_bind.
  eapply upholds_conseq; [|eapply authenticate_ups; [done|done|apply event_last]].
  intros req h' _ [Hh' Hok]. simpl. split; [|done]. etrans; [apply Hh|done].
Qed.

Lemma readSignedRequest_embedded rel :
  ends (λ res, if res is (_, Ok req) then sr_Account req = None else True) (readSignedRequest s r rel keyModeEmbedded).
Proof.
  unfold readSignedRequest. repeat (case_match; try done). apply ends_bind. intros [[]|err]; [|done|done].
  apply ends_bind. unfold authenticate. case_match; [done|]. unfold andThen, orElse, requestKey. apply ends_bind.
  destruct (h_Key _) as [key|]; simpl; [|done]. by destruct (Verify _ _).
Qed.

Lemma readEmbeddedRequest_ups rel h :
  ups (readSignedRequest s r rel keyModeEmbedded) (λ res h', h `prefix_of` h' ∧
    if res is (_, Ok req) then signed h' req ∧ sr_Account req = None else True) h.
Proof.
  eapply upholds_conseq; [|eapply upholds_ends; [apply readSignedRequest_embedded|apply readSignedRequest_ups]].
  by intros [spent [req|p]] h' _ (Ha & Hh & Hs).
Qed.

Lemma readAccountRequest_ups rel h :
  ups (readAccountRequest s r rel) (λ res h', h `prefix_of` h' ∧
    if res is (_, Ok (account, payload)) then requested h' account payload else True) h.
Proof.
  unfold readAccountRequest. apply upholds_bind. eapply upholds_conseq; [|apply readSignedRequest_ups].
  intros [spent [req|p]] h' _ [Hh Hs]; [|done]. simpl. split; [done|]. destruct (sr_Account req) as [account|] eqn:Ha; [|done].
  by exists req.
Qed.

(** ** Handlers *)

Notation safe p h := (ups p (λ _ _, True) h).

Lemma safe_public {A} (p : Prog A) h : only public p → safe p h.
Proof. intros Hp. eapply upholds_conseq; [done|by apply ups_public]. Qed.

Lemma safe_plain {A} (p : Prog A) h : anySigner h → only plain p → safe p h.
Proof. intros Hs Hp. eapply upholds_conseq; [done|by apply ups_plain]. Qed.

(** A step that needs any signature, followed by [f]. *)
Lemma safe_plain_bind {A B} (p : Prog A) (f : A → Prog B) (Q : B → history → Prop) h :
  anySigner h → only plain p → (∀ a h', h `prefix_of` h' → ups (f a) Q h') → ups (p ≫= f) Q h.
Proof. intros Hs Hp Hf. apply upholds_bind. eapply upholds_conseq; [|by apply ups_plain]. intros a h' Hh _. by apply Hf. Qed.

Lemma ups_orElse {A B} (p : Prog (result Problem A)) (fail : Problem → Prog B) k (Q : B → history → Prop) h :
  anySigner h → only plain p →
  (∀ e h', h `prefix_of` h' → ups (fail e) Q h') → (∀ a h', h `prefix_of` h' → ups (k a) Q h') → ups (orElse p fail k) Q h.
Proof. intros Hs Hp Hfail Hk. apply safe_plain_bind; [done|done|]. intros [a|e] h' Hh; auto. Qed.

Lemma ups_orElse_ret {A B} (x : result Problem A) (fail : Problem → Prog B) k (Q : B → history → Prop) h :
  (∀ e, x = Err e → ups (fail e) Q h) → (∀ a, x = Ok a → ups (k a) Q h) → ups (orElse (Ret x) fail k) Q h.
Proof. intros Herr Hok. destruct x as [a|e]; [by apply (Hok a)|by apply (Herr e)]. Qed.

(** Carries what is proved along the growing history. *)
Ltac grow :=
  repeat match goal with
  | Hh : ?h `prefix_of` ?h', Hs : signer ?h _ |- _ => apply (signer_grown _ _ _ Hh) in Hs
  | Hh : ?h `prefix_of` ?h', Hs : anySigner ?h |- _ => apply (anySigner_grown _ _ Hh) in Hs
  | Hh : ?h `prefix_of` ?h', Hs : signed ?h _ |- _ => apply (signed_grown _ _ _ Hh) in Hs
  | Hh : ?h `prefix_of` ?h', Hs : requested ?h _ _ |- _ => apply (requested_grown _ _ _ _ Hh) in Hs
  | Hh : ?h `prefix_of` ?h', Hs : ownsKey ?h _ |- _ => apply (ownsKey_grown _ _ _ Hh) in Hs
  | Hh : ?h `prefix_of` ?h', Hs : mayRevoke ?h _ |- _ => apply (mayRevoke_grown _ _ _ Hh) in Hs
  end.

Ltac any := eauto using signer_any, requested_signer; by eexists.

(** One step of a handler: the rest at once when it makes no write, or its first call. *)
Ltac ups_step :=
  lazymatch goal with
  | |- upholds _ _ (match _ with _ => _ end) _ _ => case_match; try done; go_bool
  | |- upholds _ _ (orElse (Ret _) _ _) _ _ => apply ups_orElse_ret; [intros ? _|intros ? ?]
  | |- upholds _ _ (orElse _ _ _) _ _ => apply ups_orElse; [any|solve [solve_only]|intros ? ? ?; grow|intros ? ? ?; grow]
  | |- upholds _ _ (andThen _ _) _ _ => unfold andThen
  | |- upholds _ _ (_ ≫= _) _ _ => apply safe_plain_bind; [any|solve [solve_only]|intros ? ? ?; grow]
  end.

Ltac ups_steps := repeat first [solve [apply safe_plain; [any|solve [solve_only]]] | ups_step].

(** A program that reads a request and, when it succeeds, proves [P] of what it read. *)
Definition reads {A} (p : Prog (bool * result Problem A)) (P : history → A → Prop) : Prop :=
  ∀ h, ups p (λ res h', h `prefix_of` h' ∧ if res is (_, Ok a) then P h' a else True) h.

(** A handler that refuses a request it could not read. *)
Lemma safe_reads {A B} (p : Prog (bool * result Problem A)) P (fail : bool → Problem → Prog B) (k : bool → A → Prog B) h :
  reads p P → (∀ spent e, only public (fail spent e)) → (∀ spent a h', P h' a → safe (k spent a) h') →
  safe ('(spent, req) ← p; orElse (Ret req) (fail spent) (k spent)) h.
Proof.
  intros Hp Hfail Hk. apply upholds_bind. eapply upholds_conseq; [|apply Hp].
  intros [spent [req|e]] h' _ [_ Hs]; [by apply Hk|apply safe_public, Hfail].
Qed.

Lemma readOwnedAccount_reads id rel :
  reads (readOwnedAccount s r id rel) (λ h req, requested h req.1 req.2).
Proof.
  intros h. unfold readOwnedAccount. apply upholds_bind. eapply upholds_conseq; [|apply readAccountRequest_ups].
  intros [spent [[account payload]|e]] h' _ [Hh Hs]; simpl; [|done]. split; [done|]. by destruct (acct_ID account != id).
Qed.

Lemma readAccountRequest_reads rel : reads (readAccountRequest s r rel) (λ h req, requested h req.1 req.2).
Proof.
  intros h. eapply upholds_conseq; [|apply readAccountRequest_ups]. by intros [spent [[account payload]|e]] h' _ [Hh Hs].
Qed.

Lemma readOwnedOrder_reads id rel :
  reads (readOwnedOrder s r id rel) (λ h req, signer h (ord_AccountID req.2)).
Proof.
  intros h. unfold readOwnedOrder. apply upholds_bind. eapply upholds_conseq; [|apply readAccountRequest_ups].
  intros [spent [[account payload]|e]] h' _ [Hh Hs]; [|done]. apply requested_signer in Hs. apply upholds_bind.
  apply ups_orElse_ret; [done|]. intros req [= <-]. unfold andThen. apply ups_orElse; [any|solve_only| |].
  - intros e h1 Hh1. simpl. split; [by etrans|done].
  - intros order h1 Hh1. grow. case_match eqn:Hown; [simpl; split; [by etrans|done]|]. go_bool.
    rewrite <- Hown in Hs. case_match; [|simpl; split; [by etrans|done]].
    apply safe_plain_bind; [any|solve_only|]. intros [status|e] h2 Hh2; grow; simpl; (split; [|done]);
      by repeat (etrans; [done|]).
Qed.

(** A justified store call. *)
Lemma safe_store {X} ctx (c : storeCall X) h : storeAuthority h c → safe (store ctx c) h.
Proof. done. Qed.

Lemma safe_storeOr {X} ctx (c : storeCall X) f h : storeAuthority h c → safe (storeOr ctx c f) h.
Proof. done. Qed.

Lemma safe_then {A B} (p : Prog A) (f : A → Prog B) (Q : B → history → Prop) h :
  safe p h → (∀ a h', h `prefix_of` h' → ups (f a) Q h') → ups (p ≫= f) Q h.
Proof. intros Hp Hf. apply upholds_bind. eapply upholds_conseq; [|done]. intros a h' Hh _. by apply Hf. Qed.

(** ** Accounts *)

Lemma ups_orElse_prog {A B} (p : Prog (result Problem A)) (fail : Problem → Prog B) k (Q : B → history → Prop) h :
  ups p (λ res h', match res with Ok a => ups (k a) Q h' | Err e => ups (fail e) Q h' end) h → ups (orElse p fail k) Q h.
Proof. intros Hp. apply upholds_bind. eapply upholds_conseq; [|exact Hp]. by intros [a|e]. Qed.

Lemma buildAccount_ups ctx req thumbprint payload client h :
  signed h req → sr_Account req = None → Thumbprint (sr_Key req) = Ok thumbprint →
  ups (buildAccount s ctx (sr_Key req) thumbprint payload client) (λ res h', h `prefix_of` h' ∧
    if res is Ok account then storeAuthority h' (CallCreateAccount account) else True) h.
Proof.
  intros Hs Ha Hkey. unfold buildAccount. case_match; [done|]. case_match; [done|]. unfold andThen.
  apply ups_orElse; [any|solve_only|done|]. intros externalID h1 Hh1. grow.
  apply safe_plain_bind; [any|solve_only|]. intros [id|err] h2 Hh2; grow; [|simpl; split; [by etrans|done]].
  apply safe_plain_bind; [any|solve_only|]. intros now h3 Hh3. grow.
  apply safe_plain_bind; [any|solve_only|]. intros refusal h4 Hh4. grow.
  assert (h `prefix_of` h4) as Hh by by repeat (etrans; [eassumption|]).
  apply ups_orElse_ret; [done|]. intros _ _. apply upholds_bind. split; [by exists req|]. intros [err account] _.
  assert (∀ ev, h4 `prefix_of` h4 ++ [ev]) as Hnext by (intros; by apply prefix_app_r).
  apply ups_orElse_ret; [intros; simpl; split; [by etrans|done]|]. intros ? Hok. simpl. split; [by etrans|].
  destruct err; [done|]. eexists _, _. split; [apply event_last|]. exists req. split; [by apply (signed_grown h4)|done].
Qed.

Lemma createAccount_safe hs thumbprint account h :
  anySigner h → storeAuthority h (CallCreateAccount account) → safe (createAccount s r hs thumbprint account) h.
Proof.
  intros Hs Hown. unfold createAccount. apply upholds_bind. split; [done|]. intros res _.
  apply safe_plain; [by apply (anySigner_grown h); [apply prefix_app_r|]|]. solve_only.
Qed.

Lemma serveNewAccount_safe h : safe (serveNewAccount s r) h.
Proof.
  unfold serveNewAccount. eapply safe_reads; [intros h'; apply readEmbeddedRequest_ups|solve_only|].
  intros spent req h' [Hs Ha]. ups_steps. apply ups_orElse_prog. eapply upholds_conseq; [|by apply buildAccount_ups].
  intros [account|e2] h2 _ [Hh2 Hown]; grow; [|ups_steps]. by apply createAccount_safe; [any|].
Qed.

Lemma checkKeyChange_proves account body key thumbprint :
  checkKeyChange s account body = Ok (key, thumbprint) → provesKey account body key thumbprint.
Proof.
  unfold checkKeyChange, decodePayload. intros Hcheck. do 4 (case_match; try done).
  destruct (json_keyChange _) as [change|] eqn:Hchange; [|done]. simpl in Hcheck.
  repeat (case_match; try done); go_bool; simplify_eq. by eexists _, change, _.
Qed.

Lemma serveAccount_safe id h : safe (serveAccount s r id) h.
Proof.
  unfold serveAccount. eapply safe_reads; [apply readOwnedAccount_reads|solve_only|].
  intros spent [account body] h' Hs. simpl in Hs. ups_steps. unfold orElse, updateAccount.
  apply safe_then; [apply safe_storeOr|].
  - exists account, body. split; [done|]. unfold updatedAccount. by repeat case_match; eauto.
  - intros res h1 Hh. grow. ups_steps.
Qed.

Lemma serveAccountOrders_safe id h : safe (serveAccountOrders s r id) h.
Proof.
  unfold serveAccountOrders. eapply safe_reads; [apply readOwnedAccount_reads|solve_only|].
  intros spent req h' Hs. simpl in Hs. ups_steps.
Qed.

Lemma serveKeyChange_safe h : safe (serveKeyChange s r) h.
Proof.
  unfold serveKeyChange. eapply safe_reads; [apply readAccountRequest_reads|solve_only|].
  intros spent [account body] h' Hs. simpl in Hs. ups_steps. unfold updateAccount.
  apply safe_then; [apply safe_storeOr|intros res h1 Hh; grow; ups_steps].
  exists account, body. split_and!; [done|done|]. right. by apply checkKeyChange_proves.
Qed.

Lemma serveOrder_safe id h : safe (serveOrder s r id) h.
Proof.
  unfold serveOrder. eapply safe_reads; [apply readOwnedOrder_reads|solve_only|].
  intros spent [[account payload] order] h' Hs. simpl in Hs. ups_steps.
Qed.

Lemma serveFinalize_safe id h : safe (serveFinalize s r id) h.
Proof.
  unfold serveFinalize. eapply safe_reads; [apply readOwnedOrder_reads|solve_only|].
  intros spent [[account payload] order] h' Hs. simpl in Hs. ups_steps. unfold commitFinalize. ups_steps.
  apply safe_then; [apply safe_store; by split_and!|]. intros res h1 Hh. grow. ups_steps.
Qed.

Lemma serveAuthorization_safe id h : safe (serveAuthorization s r id) h.
Proof.
  unfold serveAuthorization. eapply safe_reads; [apply readAccountRequest_reads|solve_only|].
  intros spent [account body] h' Hs. simpl in Hs. ups_steps. unfold orElse. apply safe_then; [|intros; grow; ups_steps].
  apply requested_signer in Hs. match goal with Ha : az_AccountID _ = _ |- _ => rewrite <- Ha in Hs end.
  case_match; [done|]. apply ups_orElse_ret; [done|]. intros status _. case_match; [done|].
  unfold deactivateAuthorization. by repeat (case_match; try done).
Qed.

Lemma acceptChallenge_safe ctx ch account client payload h :
  signer h (acct_ID account) → ch_AccountID ch = acct_ID account → safe (acceptChallenge s ctx ch account client payload) h.
Proof.
  intros Hs Hown. unfold acceptChallenge. ups_steps. unfold storeResponse. rewrite <- Hown in Hs.
  apply safe_then; [by apply safe_store|]. intros res h1 Hh. grow. ups_steps.
Qed.

Lemma serveChallenge_safe id h : safe (serveChallenge s r id) h.
Proof.
  unfold serveChallenge. eapply safe_reads; [apply readAccountRequest_reads|solve_only|].
  intros spent [account body] h' Hs. simpl in Hs. ups_steps. unfold orElse.
  apply safe_then; [|intros; grow; ups_steps]. case_match; [done|]. apply ups_orElse_ret; [done|]. intros payload _.
  apply acceptChallenge_safe; [by eapply requested_signer|done].
Qed.

(** ** New orders *)

Lemma ends_andThen {A B} (P : result Problem B → Prop) (p : Prog (result Problem A)) k :
  (∀ e, P (Err e)) → ends (λ res, if res is Ok a then ends P (k a) else True) p → ends P (andThen p k).
Proof. intros Herr Hp. apply ends_bind. eapply ends_conseq; [|done]. by intros [a|e]; simpl. Qed.

Lemma ends_andThen_any {A B} (P : result Problem B → Prop) (p : Prog (result Problem A)) k :
  (∀ e, P (Err e)) → (∀ a, ends P (k a)) → ends P (andThen p k).
Proof. intros Herr Hk. apply ends_andThen; [done|]. apply ends_any. by intros [a|e]. Qed.

Lemma buildOrder_owner ctx account payload now client :
  ends (λ res, if res is Ok order then ord_AccountID order = acct_ID account else True)
    (buildOrder s ctx account payload now client).
Proof.
  unfold buildOrder. do 4 (apply ends_andThen_any; [done|]; intros ?). apply ends_bind, ends_any. intros [id|err]; [|done].
  apply ends_bind, ends_any. intros refusal. apply ends_andThen_any; [done|]. intros _.
  unfold reviewOrder. apply ends_bind, ends_any. intros [err reviewed]. simpl. repeat case_match; by simplify_eq/=.
Qed.

Lemma buildChallenges_owner accountID authzID types :
  ends (λ res, if res is Ok chs then Forall (λ ch, ch_AccountID ch = accountID ∧ ch_Status ch = ChallengePending) chs else True)
    (buildChallenges accountID authzID types).
Proof.
  induction types as [|typ types IH]; cbn [buildChallenges]; [by simpl|].
  do 2 (apply ends_andThen_any; [done|]; intros ?). apply ends_andThen; [done|].
  eapply ends_conseq; [|apply IH]. intros [chs|e] Hchs; simpl; [|done]. by constructor.
Qed.

Lemma authorizationsFor_owner order ids preApproved :
  ends (λ res, if res is Ok built then
      Forall (λ authz, az_AccountID authz = ord_AccountID order ∧ az_OrderID authz = ord_ID order) built.1 ∧
      Forall (λ ch, ch_AccountID ch = ord_AccountID order ∧ ch_Status ch = ChallengePending) built.2 else True)
    (authorizationsFor s order ids preApproved).
Proof.
  induction ids as [|id ids IH]; cbn [authorizationsFor]; [by simpl|].
  apply ends_andThen_any; [done|]. intros authzID. apply ends_andThen; [done|].
  assert (ends (λ res, if res is Ok built then
      (az_AccountID built.1 = ord_AccountID order ∧ az_OrderID built.1 = ord_ID order) ∧
      Forall (λ ch, ch_AccountID ch = ord_AccountID order ∧ ch_Status ch = ChallengePending) built.2 else True)
    (if bool_decide (id ∈ preApproved)
     then mret (Ok ({| (newAuthorization order id authzID) with az_Status := AuthorizationValid; az_PreApproved := true |}, []))
     else challenges ←? buildChallenges (ord_AccountID order) authzID (challengeTypesFor s id);
          mret (Ok ({| (newAuthorization order id authzID) with az_ChallengeIDs := map ch_ID challenges |}, challenges)))) as Hone.
  { case_match; [done|]. apply ends_andThen; [done|]. eapply ends_conseq; [|apply buildChallenges_owner]. by intros [chs|e]. }
  eapply ends_conseq; [|apply Hone]. intros [built|e] Hbuilt; [|done]. apply ends_andThen; [done|].
  eapply ends_conseq; [|apply IH]. intros [rest|e] Hrest; simpl; [|done].
  split; [constructor; [apply Hbuilt|apply Hrest]|apply Forall_app; split; [apply Hbuilt|apply Hrest]].
Qed.

Lemma buildAuthorizations_owner order preApproved :
  ends (λ res, if res is Ok (order', authzs, chs) then
      ord_AccountID order' = ord_AccountID order ∧ ord_ID order' = ord_ID order ∧
      Forall (λ authz, az_AccountID authz = ord_AccountID order ∧ az_OrderID authz = ord_ID order) authzs ∧
      Forall (λ ch, ch_AccountID ch = ord_AccountID order ∧ ch_Status ch = ChallengePending) chs else True)
    (buildAuthorizations s order preApproved).
Proof.
  unfold buildAuthorizations. apply ends_andThen; [done|]. eapply ends_conseq; [|apply authorizationsFor_owner].
  intros [[authzs chs]|e] Hbuilt; simpl; [|done]. by split_and!; try apply Hbuilt.
Qed.

Lemma ups_orElse_ends {A B} (P : result Problem A → Prop) (p : Prog (result Problem A)) (fail : Problem → Prog B) k
    (Q : B → history → Prop) h :
  anySigner h → only plain p → ends P p → (∀ e h', h `prefix_of` h' → ups (fail e) Q h') →
  (∀ a h', h `prefix_of` h' → P (Ok a) → ups (k a) Q h') → ups (orElse p fail k) Q h.
Proof.
  intros Hs Hp Hends Hfail Hk. apply upholds_bind. eapply upholds_conseq; [|by eapply upholds_ends, ups_plain].
  intros [a|e] h' Hh [HP _]; auto.
Qed.

Lemma serveNewOrder_safe h : safe (serveNewOrder s r) h.
Proof.
  unfold serveNewOrder. eapply safe_reads; [apply readAccountRequest_reads|solve_only|].
  intros spent [account body] h' Hs. apply requested_signer in Hs. simpl in Hs. apply ups_orElse_ret; [intros; ups_steps|]. intros payload _.
  apply safe_plain_bind; [any|solve_only|]. intros now h1 Hh1. grow.
  eapply ups_orElse_ends; [any|solve_only|apply buildOrder_owner|intros; grow; ups_steps|].
  intros order h2 Hh2 Hown. grow. rewrite <- Hown in Hs.
  apply ups_orElse; [any|solve_only|intros; grow; ups_steps|]. intros preApproved h3 Hh3. grow.
  eapply ups_orElse_ends; [any|solve_only|apply buildAuthorizations_owner|intros; grow; ups_steps|].
  intros [[order' authzs] chs] h4 Hh4 (Ho & Hid & Haz & Hch). grow. rewrite <- Ho in *. rewrite <- Hid in *.
  apply safe_then; [by apply safe_store|]. intros res h5 Hh5. grow. ups_steps.
Qed.

(** ** Revocation *)

Lemma revokedCertificate_ups ctx der h :
  anySigner h →
  ups (revokedCertificate ctx der) (λ res h', h `prefix_of` h' ∧
    if res is Ok cert then crt_ID cert = certificateID der ∧ head (crt_Chain cert) = Some der ∧
      Ev (OpStore ctx (CallCertificate (certificateID der))) (Ok cert) ∈ h' else True) h.
Proof.
  intros Hs. unfold revokedCertificate. apply upholds_bind, upholds_bind. split; [done|]. intros x Hx.
  assert (∀ ev, h `prefix_of` h ++ [ev]) as Hh by (intros; by apply prefix_app_r).
  destruct x as [cert|err]; simpl; [|by split]. split; [done|].
  destruct (head (crt_Chain cert) == Some der) eqn:Hhead; [|done]. go_bool. split_and!; [done|done|apply event_last].
Qed.

Lemma authorizeRevocation_ups req der leaf cert h :
  signed h req → x509_ParseCertificate der = Ok leaf → head (crt_Chain cert) = Some der →
  Ev (OpStore (r_Context r) (CallCertificate (certificateID der))) (Ok cert) ∈ h →
  ups (authorizeRevocation (r_Context r) req cert leaf) (λ res h', h `prefix_of` h' ∧
    if res is None then mayRevoke h' (certificateID der) else True) h.
Proof.
  intros Hs Hleaf Hhead Hev. unfold authorizeRevocation. destruct (sr_Account req) as [account|] eqn:Ha.
  - case_match eqn:Hid; go_bool.
    { split; [done|]. exists req, der, leaf, cert. split_and!; try done. rewrite Ha. by left. }
    case_match eqn:Hids; [|done]. case_match; [done|]. apply safe_plain_bind; [any|solve_only|]. intros now h1 Hh1.
    apply upholds_bind. split; [grow; any|]. intros x _. simpl.
    assert (h `prefix_of` h1 ++ [Ev (OpStore (r_Context r) (CallAuthorizedFor (acct_ID account) a now)) x]) as Hh
      by (etrans; [done|by apply prefix_app_r]).
    split; [done|]. destruct x as [[]|err]; [|done|done]. exists req, der, leaf, cert.
    split_and!; try done; [by apply (signed_grown h)|by apply (elem_of_grown _ h)|]. rewrite Ha. right. exists a, now.
    split; [done|]. apply event_last.
  - simpl. split; [done|]. destruct (Thumbprint (sr_Key req)) as [signer|err] eqn:Hsigner; [|done].
    destruct (x_PublicKey leaf) as [key|] eqn:Hkey; [|done]. destruct (Thumbprint key) as [certKey|err] eqn:Hcert; [|done].
    destruct (signer != certKey) eqn:Hsame; [done|]. go_bool. subst. exists req, der, leaf, cert.
    split_and!; try done. rewrite Ha. by exists key, certKey.
Qed.

(** A store call about a certificate, with the certificate it answers. *)
Lemma ups_certificate ctx (c : storeCall Certificate) id (Q : Res Certificate → history → Prop) h :
  storeAuthority h c → (∀ x, named _ (OpStore ctx c) x → if x is Ok cert then crt_ID cert = id else True) →
  (∀ x h', h `prefix_of` h' → (if x is Ok cert then crt_ID cert = id else True) → Q x h') → ups (store ctx c) Q h.
Proof. intros Hc Hid HQ. split; [done|]. intros x Hx. apply HQ; [by apply prefix_app_r|by apply Hid]. Qed.

Lemma beginLoop_ups n ctx cert reason h :
  mayRevoke h (crt_ID cert) →
  ups (beginLoop n ctx cert reason) (λ res h', if res is Ok cert' then crt_ID cert' = crt_ID cert else True) h.
Proof.
  revert cert h. induction n as [|n IH]; intros cert h Hm; [done|]. cbn [beginLoop].
  pose proof (mayRevoke_any _ _ Hm) as Hs.
  case_match; [done|]. case_match; [done|]. apply safe_plain_bind; [any|solve_only|]. intros [id|err] h1 Hh1; [|done]. grow.
  apply safe_plain_bind; [any|solve_only|]. intros now h2 Hh2. grow. apply upholds_bind.
  apply (ups_certificate _ _ (crt_ID cert)); [done|done|]. intros [cert'|err] h3 Hh3 Hid; [done|]. grow. case_match; [done|].
  apply upholds_bind, upholds_bind, (ups_certificate _ _ (crt_ID cert)); [done|done|]. intros [cert'|err'] h4 Hh4 Hid'; [|done]. grow.
  simpl. rewrite <- Hid'. apply IH. by rewrite Hid'.
Qed.

Lemma recordLoop_safe n ctx op cert h : mayRevoke h (crt_ID cert) → safe (recordLoop n ctx op cert) h.
Proof.
  revert cert h. induction n as [|n IH]; intros cert h Hm; [done|]. cbn [recordLoop].
  pose proof (mayRevoke_any _ _ Hm) as Hs. apply safe_plain_bind; [any|solve_only|]. intros now h1 Hh1. grow.
  apply upholds_bind, (ups_certificate _ _ (crt_ID cert)); [done|done|]. intros [cert'|err] h2 Hh2 Hid; [done|]. grow.
  case_match; [done|]. apply upholds_bind, (ups_certificate _ _ (crt_ID cert)); [done|done|].
  intros [current|err'] h3 Hh3 Hid'; [|done]. grow. case_match; [done|]. apply IH. by rewrite Hid'.
Qed.

Lemma abandonRevocation_safe parent cert h : mayRevoke h (crt_ID cert) → safe (abandonRevocation s parent cert) h.
Proof.
  intros Hm. pose proof (mayRevoke_any _ _ Hm) as Hs. unfold abandonRevocation, detached.
  apply safe_plain_bind; [any|solve_only|]. intros ctx h1 Hh1. grow. by apply safe_then; [apply safe_store|].
Qed.

Lemma recordRevocation_safe parent cert h : mayRevoke h (crt_ID cert) → safe (recordRevocation s parent cert) h.
Proof.
  intros Hm. pose proof (mayRevoke_any _ _ Hm) as Hs. unfold recordRevocation, detached.
  apply safe_plain_bind; [any|solve_only|]. intros ctx h1 Hh1. grow. by apply recordLoop_safe.
Qed.

Lemma serveRevokeCert_safe h : safe (serveRevokeCert s r) h.
Proof.
  unfold serveRevokeCert. eapply safe_reads; [intros h'; apply readSignedRequest_ups|solve_only|].
  intros spent req h' Hs. ups_steps.
  match goal with Hp : x509_ParseCertificate ?d = Ok ?l |- _ => rename Hp into Hleaf; set (der := d) in *; clearbody der end.
  apply upholds_bind. eapply upholds_conseq; [|apply revokedCertificate_ups; any].
  intros [cert|e] h1 _ [Hh1 Hcert]; grow; [|ups_steps]. destruct Hcert as (Hid & Hhead & Hev).
  apply upholds_bind. eapply upholds_conseq; [|by apply (authorizeRevocation_ups req der)].
  intros [p|] h2 _ [Hh2 Hm]; grow; [apply ups_orElse_ret; [intros; ups_steps|done]|]. apply ups_orElse_ret; [done|]. intros _ _. rewrite <- Hid in Hm.
  apply upholds_bind. eapply upholds_conseq; [|by apply beginLoop_ups].
  intros [begun|e] h3 Hh3 Hsame; grow; [|ups_steps]. rewrite Hid in Hsame. rewrite Hid, <- Hsame in Hm.
  apply safe_then; [by rewrite Hsame in Hm|]. intros err h4 Hh4. grow. destruct err as [err|].
  - destruct (AsProblem err) as [p|]; [|ups_steps]. apply safe_then; [by apply abandonRevocation_safe|]. intros [] h5 Hh5. grow. ups_steps.
  - apply safe_then; [by apply recordRevocation_safe|]. intros p h5 Hh5. grow. ups_steps.
Qed.

Lemma serveCertificate_safe id h : safe (serveCertificate s r id) h.
Proof.
  unfold serveCertificate. eapply safe_reads; [apply readAccountRequest_reads|solve_only|].
  intros spent [account body] h' Hs. simpl in Hs. ups_steps.
Qed.

Lemma serveRenewalInfo_public id : only public (serveRenewalInfo s r id).
Proof. unfold serveRenewalInfo. solve_only. Qed.

Lemma serveDirectory_public : only public (serveDirectory s r).
Proof. unfold serveDirectory. solve_only. Qed.

Lemma serveProfile_public name : only public (serveProfile s r name).
Proof. unfold serveProfile. solve_only. Qed.

Lemma serveNewNonce_public : only public (serveNewNonce s r).
Proof. unfold serveNewNonce. solve_only. Qed.

Lemma servePOST_safe handler h : (∀ h, safe (handler r) h) → safe (servePOST s r handler) h.
Proof. intros Hhandler. unfold servePOST. case_match; [|done]. apply safe_public. solve_only. Qed.

Lemma serveResource_safe rel h : safe (serveResource s r rel) h.
Proof.
  unfold serveResource. destruct (Cut 47 rel) as [kind [rest|]]; [|apply safe_public; solve_only].
  case_match; [apply safe_public, serveRenewalInfo_public|]. case_match; [apply safe_public, serveProfile_public|].
  destruct (Cut 47 rest) as [id after]. case_match; [apply safe_public; solve_only|].
  case_match eqn:Hhandler; [|apply safe_public; solve_only]. apply servePOST_safe. intros h'.
  unfold resourceHandler in Hhandler. repeat case_match; simplify_eq; auto using serveAccount_safe, serveAccountOrders_safe,
    serveOrder_safe, serveFinalize_safe, serveAuthorization_safe, serveChallenge_safe, serveCertificate_safe.
Qed.

Lemma ServeHTTP_safe h : safe (ServeHTTP s r) h.
Proof.
  unfold ServeHTTP. case_match; [apply safe_public; solve_only|]. case_match; [apply safe_public, serveDirectory_public|].
  case_match; [apply safe_public, serveNewNonce_public|].
  case_match; [apply servePOST_safe, serveNewAccount_safe|]. case_match; [apply servePOST_safe, serveNewOrder_safe|].
  case_match; [apply servePOST_safe, serveRevokeCert_safe|]. case_match; [apply servePOST_safe, serveKeyChange_safe|].
  apply serveResource_safe.
Qed.

(** C2. Every call of a request is justified by the calls before it, in every run of [ServeHTTP] with
    any answers. Before the nonce of the request is spent and its signature verified, with the key it
    embeds or the key of the valid account it names, it only reads public resources. The account that
    is created is the one the account policy returned for an account with the embedded key that signed
    the request and the thumbprint of that key. An account is updated only by itself, and gets another
    key only when the payload is a message that the new key signed and that names the account and its
    old key. Orders, authorizations and challenges are written for the signing account alone, orders
    together with authorizations and challenges of the same account, and a certificate is written or revoked
    only when the signer is its account, an account authorized for all its identifiers or the holder
    of its key. The store answers a certificate with the ID that was asked for. *)
Theorem request_authority tr resp :
  runs (ServeHTTP s r) tr resp → Forall (answered named) tr →
  ∀ i ev, tr !! i = Some ev → justified authority (take i tr) ev.
Proof. intros Hrun Hans. by destruct (upholds_runs _ _ _ _ [] tr resp (ServeHTTP_safe []) Hrun Hans). Qed.

End Authority.

(** ** The revocation of the example run *)

Definition namedEvent (ev : called op) : bool :=
  match ev with
  | Ev (OpStore _ (CallCertificate id)) (Ok cert) => crt_ID cert == id
  | Ev (OpStore _ (CallUpdateCertificate cert)) (Ok cert') => crt_ID cert' == crt_ID cert
  | _ => true
  end.

Lemma namedEvent_answered tr : forallb namedEvent tr = true → Forall (answered named) tr.
Proof.
  intros Htr. apply Forall_forall. intros ev Hev. rewrite forallb_forall in Htr.
  specialize (Htr ev (proj1 (list_elem_of_In _ _) Hev)). destruct ev as [X e x]. destruct e as [X ctx c| | | | | | | | | | | | | | | | | | |]; try done.
  destruct c; try done; destruct x; simpl in *; go_bool; done.
Qed.

Definition demo_revocation : list (called op) := run_of demo_answer (ServeHTTP demo_server (demo_post [x05])) demo_issued.

Lemma demo_revocation_runs : ∃ resp, runs (ServeHTTP demo_server (demo_post [x05])) demo_revocation resp.
Proof. eexists. exact (runs_run_of demo_answer (ServeHTTP demo_server (demo_post [x05])) demo_issued). Qed.

Lemma demo_revocation_answered : Forall (answered named) demo_revocation.
Proof. apply namedEvent_answered. by vm_compute. Qed.

#[local] Opaque demo_revocation.

Definition isRevoke (ev : called op) : bool := if ev is Ev (OpRevoke _ _) _ then true else false.

Lemma isRevoke_Ev ev : isRevoke ev → ∃ ctx req x, ev = Ev (OpRevoke ctx req) x.
Proof. destruct ev as [X e x]. destruct e; try done. by eexists _, _, _. Qed.

Lemma request_authority_witness :
  ∃ i ctx req x, demo_revocation !! i = Some (Ev (OpRevoke ctx req) x) ∧
    mayRevoke demo_server (demo_post [x05]) (take i demo_revocation) (certificateID (rq_DER req)).
Proof.
  destruct (checked_Some (list_find isRevoke demo_revocation) (λ _, true)) as ([i ev] & Hfind & _); [by vm_compute|].
  apply list_find_Some in Hfind as (Hi & Hev & _). destruct (isRevoke_Ev ev Hev) as (ctx & req & x & ->).
  destruct demo_revocation_runs as [resp Hrun]. exists i, ctx, req, x. split; [exact Hi|].
  exact (proj1 (request_authority demo_server (demo_post [x05]) _ resp Hrun demo_revocation_answered i _ Hi)).
Defined.
