(* ===== verification/Responses.v ===== *)
(** * What a request is answered with

    Every answer of [ServeHTTP], errors included: its nonce, its content type and its status agree
    with what happened to the request. *)

From S2P Require Import Prelude Status Problem Resource Base64 Netip StoreSpec Prog Host Platform Identifier Jws Chain Worker Issuance Wire Http Accounts Orders Revoke Server Lifecycle System SystemDemo Authority.

(** A nonce was issued, the issuance of one failed, and a nonce of the client was spent. *)
Definition issued (h : history) (nonce : string) : Prop := ∃ ctx, Ev (OpNonceIssue ctx) (Ok nonce) ∈ h.
Definition issueFailed (h : history) : Prop := ∃ ctx err, Ev (OpNonceIssue ctx) (Err err) ∈ h.
Definition spentIn (h : history) : Prop := ∃ ctx nonce, Ev (OpNonceConsume ctx nonce) (Ok true) ∈ h.

Record answer (resp : Response) (h : history) : Prop := mkAnswer {
  (* a nonce in the answer was issued for it *)
  answer_nonce : ∀ v, ("Replay-Nonce", v) ∈ rs_Headers resp → issued h v;
  (* a request that spent a nonce gets one, unless none can be issued *)
  answer_spent : spentIn h → (∃ v, ("Replay-Nonce", v) ∈ rs_Headers resp) ∨ issueFailed h;
  (* a problem document states the status of the response and is the only body with its type *)
  answer_problem : ∀ p, rs_Body resp = BodyProblem p →
    pj_Status p = rs_Status resp ∧ ("Content-Type", contentTypeProblem) ∈ rs_Headers resp ∧
    ("Cache-Control", "no-store") ∈ rs_Headers resp;
  answer_type : ∀ v, ("Content-Type", v) ∈ rs_Headers resp →
    v = contentTypeProblem ↔ ∃ p, rs_Body resp = BodyProblem p;
  (* everything else is a success *)
  answer_success : (∃ p, rs_Body resp = BodyProblem p) ∨
    rs_Status resp = StatusOK ∨ rs_Status resp = StatusCreated ∨ rs_Status resp = StatusNoContent
}.

(** The event spends a nonce. *)
Definition spends (ev : called op) : bool :=
  match ev with
  | Ev (OpNonceConsume _ _) (Ok true) => true
  | _ => false
  end.

Lemma unspent_event h ev : ¬ spentIn h → spends ev = false → ¬ spentIn (h ++ [ev]).
Proof.
  intros Hun Hev (ctx & nonce & Hin). apply elem_of_app in Hin as [Hin|Hin]; [by apply Hun; exists ctx, nonce|].
  apply list_elem_of_singleton in Hin. by subst.
Qed.

(** ** Headers *)

Lemma elem_of_setHeader k v k' v' (hs : headers) :
  (k', v') ∈ setHeader k v hs ↔ (k' ≠ k ∧ (k', v') ∈ hs) ∨ (k' = k ∧ v' = v).
Proof.
  unfold setHeader. rewrite elem_of_app, list_elem_of_filter, list_elem_of_singleton. simpl. naive_solver.
Qed.

Lemma elem_of_addHeader k v k' v' (hs : headers) : (k', v') ∈ addHeader k v hs ↔ (k', v') ∈ hs ∨ (k' = k ∧ v' = v).
Proof. unfold addHeader. rewrite elem_of_app, list_elem_of_singleton. naive_solver. Qed.

(** Headers a handler has set so far: a nonce that was issued, and no content type. *)
Definition headersOk (h : history) (hs : headers) : Prop :=
  (∀ v, ("Replay-Nonce", v) ∈ hs → issued h v) ∧ ∀ v, ("Content-Type", v) ∉ hs.

(** The headers carry a nonce when one is owed. *)
Definition settled (h : history) (hs : headers) : Prop :=
  spentIn h → (∃ v, ("Replay-Nonce", v) ∈ hs) ∨ issueFailed h.

Lemma issued_grown h h' v : h `prefix_of` h' → issued h v → issued h' v.
Proof. intros Hh [ctx Hev]. exists ctx. by eapply elem_of_grown. Qed.

Lemma headersOk_grown h h' hs : h `prefix_of` h' → headersOk h hs → headersOk h' hs.
Proof. intros Hh [Hn Ht]. split; [|done]. intros v Hv. by eapply issued_grown, Hn. Qed.

Definition inert (k : string) : bool := (k != "Replay-Nonce") && (k != "Content-Type").

Lemma headersOk_set h k v hs : inert k → headersOk h hs → headersOk h (setHeader k v hs).
Proof.
  unfold inert. intros Hk [Hn Ht]. apply Is_true_true in Hk. go_bool. split; intros v'; rewrite elem_of_setHeader; naive_solver.
Qed.

Lemma headersOk_add h k v hs : inert k → headersOk h hs → headersOk h (addHeader k v hs).
Proof.
  unfold inert. intros Hk [Hn Ht]. apply Is_true_true in Hk. go_bool. split; intros v'; rewrite elem_of_addHeader; naive_solver.
Qed.

Lemma headersOk_nil h : headersOk h [].
Proof. split; intros v Hv; by apply elem_of_nil in Hv. Qed.

Lemma settled_set h k v hs : inert k → settled h hs → settled h (setHeader k v hs).
Proof.
  unfold inert. intros Hk Hs Hspent. apply Is_true_true in Hk. go_bool. destruct (Hs Hspent) as [[n Hn]|Hf]; [left|by right].
  exists n. apply elem_of_setHeader. left. split; [congruence|done].
Qed.

Lemma settled_add h k v hs : settled h hs → settled h (addHeader k v hs).
Proof. intros Hs Hspent. destruct (Hs Hspent) as [[n Hn]|Hf]; [left|by right]. exists n. apply elem_of_addHeader. by left. Qed.

#[local] Create HintDb responses.
#[local] Hint Resolve headersOk_set headersOk_add headersOk_nil settled_set settled_add : responses.
#[local] Hint Extern 1 (Is_true (inert _)) => exact I : responses.
#[local] Hint Extern 3 (headersOk _ (match _ with _ => _ end)) => case_match : responses.

(** ** Writers *)

Section Responses.
Context `{Platform} `{StrictJSON} `{PayloadJSON} (s : Server) (r : Request).

Notation ups := (upholds (λ _ _ _, True) (λ _ _ _, True)).

(** Whatever happened before, the program answers; with nothing spent, or in any case. *)
Definition answers (p : Prog Response) : Prop := ∀ h, ups p answer h.
Definition answersUnspent (p : Prog Response) : Prop := ∀ h, ¬ spentIn h → ups p answer h.

Lemma answers_unspent p : answers p → answersUnspent p.
Proof. intros Hp h _. apply Hp. Qed.

Lemma answers_bind {A} (p : Prog A) (f : A → Prog Response) : (∀ a, answers (f a)) → answers (p ≫= f).
Proof.
  change (p ≫= f) with (prog_bind f p). intros Hf. induction p as [a|X e k IH]; [apply Hf|].
  intros h. split; [done|]. intros x _. apply IH.
Qed.

Lemma upholds_any {A} (p : Prog A) (Q : A → history → Prop) h : (∀ a h', Q a h') → ups p Q h.
Proof. intros HQ. revert h. induction p as [a|X e k IH]; intros h; [apply HQ|]. by split. Qed.

Lemma setCommonHeaders_ok h hs : headersOk h hs → headersOk h (setCommonHeaders s hs).
Proof. unfold setCommonHeaders. auto with responses. Qed.

Lemma setCommonHeaders_settled h hs : settled h hs → settled h (setCommonHeaders s hs).
Proof. unfold setCommonHeaders. auto with responses. Qed.
#[local] Hint Resolve setCommonHeaders_ok setCommonHeaders_settled : responses.

Lemma success_answer h hs status v body :
  headersOk h hs → settled h hs → v ≠ contentTypeProblem → (∀ p, body ≠ BodyProblem p) →
  status = StatusOK ∨ status = StatusCreated ∨ status = StatusNoContent →
  answer (mkResponse status (setHeader "Content-Type" v hs) body) h.
Proof.
  intros [Hn Ht] Hs Hv Hbody Hstatus. split; simpl.
  - intros n. rewrite elem_of_setHeader. naive_solver.
  - intros Hspent. destruct (Hs Hspent) as [[n Hn']|Hf]; [left|by right]. exists n. rewrite elem_of_setHeader. naive_solver.
  - intros p Hp. by apply Hbody in Hp.
  - intros v'. rewrite elem_of_setHeader. intros [[] | [_ ->]]; [done|]. naive_solver.
  - by right.
Qed.

Lemma problem_answer h hs p :
  headersOk h hs → settled h hs → ups (writeProblemWithoutNonce s hs p) answer h.
Proof.
  intros Hok Hs. unfold writeProblemWithoutNonce.
  set (hs' := if (0 <? p_RetryAfter p)%Z then _ else _).
  assert (headersOk h hs' ∧ settled h hs' ∧ ("Cache-Control", "no-store") ∈ hs') as ([Hn Ht] & Hs' & Hcache).
  { unfold hs'. case_match; (split_and!; [by auto with responses|by auto 10 with responses|]);
      unfold setCommonHeaders; rewrite ?elem_of_setHeader, ?elem_of_addHeader, ?elem_of_setHeader; naive_solver. }
  clearbody hs'. split; simpl.
  - intros n. rewrite elem_of_setHeader. naive_solver.
  - intros Hspent. destruct (Hs' Hspent) as [[n Hn']|Hf]; [left|by right]. exists n. rewrite elem_of_setHeader. naive_solver.
  - intros p' [= <-]. rewrite !elem_of_setHeader. naive_solver.
  - intros v'. rewrite elem_of_setHeader. intros [[] | [_ ->]]; [done|]. naive_solver.
  - left. eauto.
Qed.

Lemma untyped_answer h hs status body :
  headersOk h hs → settled h hs → (∀ p, body ≠ BodyProblem p) →
  status = StatusOK ∨ status = StatusCreated ∨ status = StatusNoContent → answer (mkResponse status hs body) h.
Proof. intros [Hn Ht] Hs Hbody Hstatus. split; simpl; naive_solver. Qed.

Lemma issue_ok ctx nonce hs h :
  headersOk h hs →
  headersOk (h ++ [Ev (OpNonceIssue ctx) (Ok nonce)]) (setHeader "Replay-Nonce" nonce hs) ∧
  settled (h ++ [Ev (OpNonceIssue ctx) (Ok nonce)]) (setHeader "Replay-Nonce" nonce hs).
Proof.
  intros Hok. apply (headersOk_grown _ (h ++ [Ev (OpNonceIssue ctx) (Ok nonce)])) in Hok as [Hn Ht]; [|by apply prefix_app_r].
  split; [split|].
  - intros v. rewrite elem_of_setHeader. intros [[]|[_ ->]]; [done|]. exists ctx. apply event_last.
  - intros v. rewrite elem_of_setHeader. naive_solver.
  - left. exists nonce. rewrite elem_of_setHeader. naive_solver.
Qed.

Lemma addNonce_ups ctx hs (f : headers → Prog Response) h :
  headersOk h hs → (∀ hs' h', headersOk h' hs' → settled h' hs' → ups (f hs') answer h') → ups (addNonce ctx hs ≫= f) answer h.
Proof.
  intros Hok Hf. apply upholds_bind, upholds_bind. split; [done|]. intros [nonce|err] _; simpl.
  - apply Hf; by apply issue_ok.
  - apply Hf; [eapply headersOk_grown; [by apply prefix_app_r|done]|]. right. exists ctx, err. apply event_last.
Qed.

(** ** Answers of the writers *)

Lemma writeJSON_answers ctx hs status body :
  (∀ h, headersOk h hs) → (∀ p, body ≠ BodyProblem p) → status = StatusOK ∨ status = StatusCreated → answers (writeJSON s ctx hs status body).
Proof.
  intros Hok Hbody Hstatus h. unfold writeJSON. apply addNonce_ups; [auto with responses|]. intros hs' h' Hok' Hs.
  apply success_answer; [done|done|done|done|tauto].
Qed.

Lemma writeOrder_answers ctx status order now : status = StatusOK ∨ status = StatusCreated → answers (writeOrder s ctx status order now).
Proof. intros Hstatus. apply writeJSON_answers; [|done|done]. intros h. case_match; auto with responses. Qed.

Lemma writeChallenge_answers ctx hs ch : (∀ h, headersOk h hs) → answers (writeChallenge s ctx hs ch).
Proof. intros Hok. apply writeJSON_answers; [|done|by left]. intros h. case_match; auto with responses. Qed.

(** A problem of a request that spent its nonce, and of one that spent none. *)
Lemma writeProblem_spent hs p : (∀ h, headersOk h hs) → answers (writeProblem s r true hs p).
Proof. intros Hok h. unfold writeProblem. apply addNonce_ups; [done|]. intros hs' h'. apply problem_answer. Qed.

Lemma unspent_limit req h Q :
  ¬ spentIn h → (∀ refusal h', ¬ spentIn h' → Q refusal h') → ups (checkLimit s (r_Context r) req) Q h.
Proof.
  intros Hun HQ. unfold checkLimit. case_match; [by apply HQ|]. apply upholds_bind. split; [done|]. intros x _. apply HQ.
  by apply unspent_event.
Qed.

Lemma writeProblem_unspent hs p : (∀ h, headersOk h hs) → answersUnspent (writeProblem s r false hs p).
Proof.
  intros Hok h Hun. unfold writeProblem. apply upholds_bind, unspent_limit; [done|]. intros [refusal|] h' Hun'.
  - apply problem_answer; [done|]. by intros Hspent.
  - apply addNonce_ups; [done|]. intros hs' h''. apply problem_answer.
Qed.

Lemma addNonce_answers ctx hs (g : headers → Response) :
  (∀ h, headersOk h hs) → (∀ hs' h', headersOk h' hs' → settled h' hs' → answer (g hs') h') →
  answers (hs' ← addNonce ctx hs; mret (g hs')).
Proof. intros Hok Hg h. apply addNonce_ups; [done|]. intros hs' h'. apply Hg. Qed.

(** ** Handlers *)

#[local] Hint Resolve writeProblem_spent writeOrder_answers writeChallenge_answers : responses.
#[local] Hint Extern 2 (answers (writeJSON _ _ _ _ _)) => apply writeJSON_answers; [|done|auto with responses] : responses.
#[local] Hint Extern 1 (_ = StatusOK ∨ _) => first [by left | by right] : responses.

(** Goes through the rest of a handler of a request that spent its nonce. *)
Ltac solve_answers :=
  repeat lazymatch goal with
  | |- ∀ _, _ => intros ?
  | |- answers (orElse _ _ _) => apply answers_bind; intros []
  | |- answers (addNonce _ _ ≫= _) =>
      apply addNonce_answers; [auto with responses|intros; first [apply success_answer | apply untyped_answer]; auto with responses; done]
  | |- answers (_ ≫= _) => apply answers_bind; intros ?
  | |- answers (match _ with _ => _ end) => case_match
  | |- headersOk _ (match _ with _ => _ end) => case_match
  | |- _ => solve [auto with responses]
  end.

(** A reader of requests reports no spent nonce only together with a problem. *)
Definition readsNonce {A} (p : Prog (bool * result Problem A)) : Prop :=
  ∀ h, ¬ spentIn h → ups p (λ res h', if res is (false, res) then (¬ spentIn h') ∧ ∃ e, res = Err e else True) h.

Lemma answers_reads {A} (p : Prog (bool * result Problem A)) (fail : bool → Problem → Prog Response) k :
  readsNonce p → (∀ e, answersUnspent (fail false e)) → (∀ e, answers (fail true e)) → (∀ a, answers (k true a)) →
  answersUnspent ('(spent, req) ← p; orElse (Ret req) (fail spent) (k spent)).
Proof.
  intros Hp Hfail Hfail' Hk h Hun. apply upholds_bind. eapply upholds_conseq; [|by apply Hp].
  intros [[] res] h' _; [intros _; destruct res; [apply Hk|apply Hfail']|]. intros [Hun' [e ->]]. by apply Hfail.
Qed.

Lemma readSignedRequest_nonce rel mode : readsNonce (readSignedRequest s r rel mode).
Proof.
  intros h Hun. unfold readSignedRequest. case_match; [|by split; eauto]. case_match; [by split; eauto|].
  do 2 (case_match; [|by split; eauto]). apply upholds_bind. split; [done|]. intros [[]|err] _; simpl.
  - apply upholds_bind, upholds_any. done.
  - split; [by apply unspent_event|eauto].
  - split; [by apply unspent_event|eauto].
Qed.

Lemma readAccountRequest_nonce rel : readsNonce (readAccountRequest s r rel).
Proof.
  intros h Hun. unfold readAccountRequest. apply upholds_bind. eapply upholds_conseq; [|by apply readSignedRequest_nonce].
  intros [[] res] h' _; [done|]. intros [Hun' [e ->]]. simpl. split; [done|eauto].
Qed.

Lemma readOwnedAccount_nonce id rel : readsNonce (readOwnedAccount s r id rel).
Proof.
  intros h Hun. unfold readOwnedAccount. apply upholds_bind. eapply upholds_conseq; [|by apply readAccountRequest_nonce].
  intros [[] res] h' _; [done|]. intros [Hun' [e ->]]. simpl. split; [done|eauto].
Qed.

Lemma readOwnedOrder_nonce id rel : readsNonce (readOwnedOrder s r id rel).
Proof.
  intros h Hun. unfold readOwnedOrder. apply upholds_bind. eapply upholds_conseq; [|by apply readAccountRequest_nonce].
  intros [[] res] h' _; [intros _; apply upholds_bind; by apply upholds_any|]. intros [Hun' [e ->]]. simpl. split; [done|eauto].
Qed.

#[local] Hint Resolve writeProblem_unspent : responses.

Ltac solve_handler := 
  eapply answers_reads; [auto using readSignedRequest_nonce, readAccountRequest_nonce, readOwnedAccount_nonce, readOwnedOrder_nonce
    |intros; apply writeProblem_unspent; solve_answers|solve_answers|solve_answers].

Lemma writeExistingAccount_answers hs account : (∀ h, headersOk h hs) → answers (writeExistingAccount s r hs account).
Proof. intros Hok. unfold writeExistingAccount. solve_answers. Qed.

Lemma createAccount_answers hs thumbprint account : (∀ h, headersOk h hs) → answers (createAccount s r hs thumbprint account).
Proof. intros Hok. unfold createAccount. solve_answers; by apply writeExistingAccount_answers. Qed.
#[local] Hint Resolve writeExistingAccount_answers createAccount_answers : responses.

Lemma serveNewAccount_answers : answersUnspent (serveNewAccount s r).
Proof. unfold serveNewAccount. solve_handler. Qed.

Lemma serveAccount_answers id : answersUnspent (serveAccount s r id).
Proof. unfold serveAccount. solve_handler. Qed.

Lemma serveAccountOrders_answers id : answersUnspent (serveAccountOrders s r id).
Proof. unfold serveAccountOrders. solve_handler. Qed.

Lemma serveKeyChange_answers : answersUnspent (serveKeyChange s r).
Proof. unfold serveKeyChange. solve_handler. Qed.

Lemma serveNewOrder_answers : answersUnspent (serveNewOrder s r).
Proof. unfold serveNewOrder. solve_handler. Qed.

Lemma serveOrder_answers id : answersUnspent (serveOrder s r id).
Proof. unfold serveOrder. solve_handler. Qed.

Lemma commitFinalize_answers order der now : answers (commitFinalize s r order der now).
Proof. unfold commitFinalize. solve_answers. Qed.
#[local] Hint Resolve commitFinalize_answers : responses.

Lemma serveFinalize_answers id : answersUnspent (serveFinalize s r id).
Proof. unfold serveFinalize. solve_handler. Qed.

Lemma serveAuthorization_answers id : answersUnspent (serveAuthorization s r id).
Proof. unfold serveAuthorization. solve_handler. Qed.

Lemma serveChallenge_answers id : answersUnspent (serveChallenge s r id).
Proof. unfold serveChallenge. solve_handler. Qed.

Lemma serveCertificate_answers id : answersUnspent (serveCertificate s r id).
Proof. unfold serveCertificate. solve_handler. Qed.

Lemma serveRevokeCert_answers : answersUnspent (serveRevokeCert s r).
Proof. unfold serveRevokeCert. solve_handler. Qed.

Lemma servePOST_answers handler : answersUnspent (handler r) → answersUnspent (servePOST s r handler).
Proof. intros Hhandler. unfold servePOST, writeMethodNotAllowed. case_match; auto with responses. Qed.

Lemma serveNewNonce_answers : answersUnspent (serveNewNonce s r).
Proof.
  unfold serveNewNonce, writeMethodNotAllowed. case_match; [auto with responses|]. intros h Hun.
  apply upholds_bind, unspent_limit; [done|]. intros [refusal|] h' Hun'.
  - apply problem_answer; [auto with responses|]. by intros Hspent.
  - apply upholds_bind. split; [done|]. intros [nonce|err] _.
    + destruct (issue_ok (r_Context r) nonce (setCommonHeaders s []) h') as [Hok Hs]; [auto with responses|].
      apply untyped_answer; [done|done|done|]. case_match; auto.
    + apply problem_answer; [auto with responses|]. intros Hspent. right. eexists _, _. apply event_last.
Qed.

Lemma plain_answer h status v hs body :
  ¬ spentIn h → status = StatusOK → v ≠ contentTypeProblem → (∀ p, body ≠ BodyProblem p) → (∀ h, headersOk h hs) →
  answer (mkResponse status (setHeader "Content-Type" v hs) body) h.
Proof. intros Hun -> Hv Hbody Hok. apply success_answer; [done| |done|done|by left]. by intros Hspent. Qed.

Lemma serveRenewalInfo_answers id : answersUnspent (serveRenewalInfo s r id).
Proof.
  unfold serveRenewalInfo, writeMethodNotAllowed. do 2 (case_match; [auto with responses|]). intros h Hun.
  apply upholds_bind, unspent_limit; [done|]. intros [refusal|] h' Hun'.
  { apply problem_answer; [auto with responses|]. by intros Hspent. }
  apply upholds_bind, upholds_bind. split; [done|]. intros [cert|err] _; simpl; [|apply writeProblem_unspent; [auto with responses|by apply unspent_event]].
  split; [done|]. intros res _. assert (∀ ev ev', spends ev = false → spends ev' = false → ¬ spentIn ((h' ++ [ev]) ++ [ev'])) as Hun2
    by (intros; by repeat apply unspent_event).
  repeat case_match; try (apply writeProblem_unspent; [auto with responses|by apply Hun2]).
  all: apply plain_answer; auto with responses; done.
Qed.

Lemma serveDirectory_answers : answersUnspent (serveDirectory s r).
Proof.
  unfold serveDirectory, writeMethodNotAllowed. case_match; [auto with responses|]. intros h Hun. by apply plain_answer; auto with responses.
Qed.

Lemma serveProfile_answers name : answersUnspent (serveProfile s r name).
Proof.
  unfold serveProfile, writeMethodNotAllowed. do 2 (case_match; [auto with responses|]). intros h Hun.
  set (body := if (r_Method r == "GET") then _ else _).
  assert (∀ p, body ≠ BodyProblem p) as Hbody by (intros p; unfold body; by case_match). clearbody body.
  split; simpl; [|done|naive_solver| |by right; left].
  - intros v. rewrite !elem_of_setHeader, elem_of_nil. naive_solver.
  - intros v. rewrite !elem_of_setHeader, elem_of_nil. intros [[_ [[_ []] | [_ ->]]] | [? _]]; [|done]. naive_solver.
Qed.

Lemma serveResource_answers rel : answersUnspent (serveResource s r rel).
Proof.
  unfold serveResource. destruct (Cut 47 rel) as [kind [rest|]]; [|auto with responses].
  case_match; [apply serveRenewalInfo_answers|]. case_match; [apply serveProfile_answers|].
  destruct (Cut 47 rest) as [id after]. case_match; [auto with responses|].
  case_match eqn:Hhandler; [|auto with responses]. apply servePOST_answers.
  unfold resourceHandler in Hhandler. repeat case_match; simplify_eq; auto using serveAccount_answers, serveAccountOrders_answers,
    serveOrder_answers, serveFinalize_answers, serveAuthorization_answers, serveChallenge_answers, serveCertificate_answers.
Qed.

Lemma ServeHTTP_answers : answersUnspent (ServeHTTP s r).
Proof.
  unfold ServeHTTP. case_match; [auto with responses|]. case_match; [apply serveDirectory_answers|].
  case_match; [apply serveNewNonce_answers|]. case_match; [apply servePOST_answers, serveNewAccount_answers|].
  case_match; [apply servePOST_answers, serveNewOrder_answers|]. case_match; [apply servePOST_answers, serveRevokeCert_answers|].
  case_match; [apply servePOST_answers, serveKeyChange_answers|apply serveResource_answers].
Qed.

(** C16. Every run of [ServeHTTP], whatever its calls answer, ends in a well-formed response: a refusal is a
    problem document with its own content type, not to be cached, whose status member is the status
    of the response, and everything else is a success with another content type. A nonce in the
    response was issued during the request, and a request whose nonce was spent, refused or not,
    gets a new one unless the nonce service failed. *)
Theorem request_answered tr resp : runs (ServeHTTP s r) tr resp → answer resp tr.
Proof.
  intros Hrun. destruct (upholds_runs _ _ _ _ [] tr resp (ServeHTTP_answers [] ltac:(by intros (? & ? & ?%elem_of_nil))) Hrun) as [Ha _];
    [|done]. apply Forall_forall. by intros [X e x].
Qed.

End Responses.

Lemma spends_spentIn h : existsb spends h = true → spentIn h.
Proof.
  intros Hex. apply existsb_exists in Hex as ([X e x] & Hin & Hs). apply list_elem_of_In in Hin.
  destruct e as [| | | | |ctx nonce| | | | | | | | | | | | | |]; try done. destruct x as [[]|]; try done. by exists ctx, nonce.
Qed.

(** The answer to the revocation of the example run, which spent its nonce. *)
Lemma request_answered_witness :
  ∃ resp, answer resp demo_revocation ∧ ((∃ v, ("Replay-Nonce", v) ∈ rs_Headers resp) ∨ issueFailed demo_revocation).
Proof.
  destruct demo_revocation_runs as [resp Hrun]. exists resp.
  pose proof (request_answered demo_server (demo_post [x05]) demo_revocation resp Hrun) as Ha. split; [exact Ha|].
  apply (answer_spent _ _ Ha), spends_spentIn. vm_compute. reflexivity.
Defined.
