(* ===== verification/JwsProps.v ===== *)
(** * Account keys

    The keys [ParseJWK] accepts are exactly the well-formed ones, and the canonical JWK a key is
    encoded as is read back as the same key, so no two accepted keys share a canonical form. *)

From S2P Require Import Prelude Status Problem Resource Base64 Netip Platform Jws SystemDemo.

(** ** Integers as bytes *)

Lemma SetBytes_snoc b c : SetBytes (b ++ [c]) = (SetBytes b * 256 + bz c)%Z.
Proof. unfold SetBytes. by rewrite fold_left_app. Qed.

Lemma SetBytes_range b : (0 ≤ SetBytes b < 256 ^ len b)%Z.
Proof.
  induction b as [|c b IH] using rev_ind; [done|]. rewrite SetBytes_snoc. pose proof (bz_range c).
  rewrite length_app, Nat2Z.inj_add, Z.pow_add_r by lia. simpl. change (256 ^ 1)%Z with 256%Z. lia.
Qed.

Lemma fixedBytes_SetBytes b : fixedBytes (length b) (SetBytes b) = b.
Proof.
  induction b as [|c b IH] using rev_ind; [done|]. rewrite SetBytes_snoc, length_app, Nat.add_comm. cbn [length plus fixedBytes].
  pose proof (bz_range c). rewrite Z.div_add_l, Z.div_small, Z.add_0_r, IH by lia. f_equal. f_equal.
  rewrite Z.add_comm, Z.mod_add, Z.mod_small by lia. apply zb_bz.
Qed.

Lemma SetBytes_fixedBytes k n : (0 ≤ n < 256 ^ Z.of_nat k)%Z → SetBytes (fixedBytes k n) = n.
Proof.
  revert n. induction k as [|k IH]; intros n Hn; [change (256 ^ Z.of_nat 0)%Z with 1%Z in Hn; cbn; lia|].
  cbn [fixedBytes]. rewrite SetBytes_snoc, bz_zb, IH.
  - rewrite Z.mod_mod by lia. pose proof (Z.div_mod n 256 ltac:(lia)). lia.
  - rewrite Nat2Z.inj_succ, Z.pow_succ_r in Hn by lia. split; [apply Z.div_pos; lia|apply Z.div_lt_upper_bound; lia].
Qed.

Lemma length_fixedBytes k n : length (fixedBytes k n) = k.
Proof. revert n. induction k as [|k IH]; intros n; [done|]. cbn [fixedBytes]. rewrite length_app, IH. simpl. lia. Qed.

Lemma SetBytes_bigBytes n : (0 < n)%Z → SetBytes (bigBytes n) = n ∧ bigBytes n ≠ [].
Proof.
  intros Hn. unfold bigBytes, BitLen. rewrite (proj2 (Z.eqb_neq n 0)), Z.abs_eq by lia.
  pose proof (Z.log2_nonneg n) as Hlog. pose proof (Z.log2_spec n Hn) as [_ Hhi].
  set (k := ((Z.log2 n + 1 + 7) / 8)%Z). assert (Z.log2 n + 1 ≤ 8 * k ∧ 0 < k)%Z as [Hk Hpos].
  { unfold k. Z.to_euclidean_division_equations. lia. }
  split.
  - apply SetBytes_fixedBytes. rewrite Z2Nat.id by lia. split; [lia|]. change 256%Z with (2 ^ 8)%Z. rewrite <- Z.pow_mul_r by lia.
    eapply Z.lt_le_trans; [exact Hhi|]. apply Z.pow_le_mono_r; lia.
  - intros Hnil. apply (f_equal length) in Hnil. rewrite length_fixedBytes in Hnil. simpl in Hnil. lia.
Qed.

(** ** Base64url *)

Lemma isBase64URL_char d : (0 ≤ d < 64)%Z → isBase64URLByte (bz (char_of d)) = true.
Proof.
  intros Hd. assert (forallb (λ n, isBase64URLByte (bz (char_of (Z.of_nat n)))) (seq 0 64) = true) as Hall by done.
  rewrite forallb_forall in Hall. specialize (Hall (Z.to_nat d)). rewrite Z2Nat.id in Hall by lia. apply Hall, in_seq. lia.
Qed.

Lemma isBase64URL_encode b : isBase64URL (encode b) = true.
Proof.
  unfold isBase64URL, codes, encode. rewrite String.list_byte_of_string_of_list_byte. apply forallb_forall.
  intros c (c' & <- & Hc)%in_map_iff. apply in_map_iff in Hc as (d & <- & Hd). apply isBase64URL_char.
  pose proof (digits_range b) as Hr. rewrite Forall_forall in Hr. by apply Hr, list_elem_of_In.
Qed.

Lemma decodeBase64_encode b : decodeBase64 (encode b) = Some b.
Proof. unfold decodeBase64. by rewrite isBase64URL_encode, decode_encode. Qed.

(** ** The decoder

    What the models use of the JSON decoder here: a flat object of plain strings fills the members
    it names. *)

Definition flatObject (ms : list (string * string)) : string :=
  "{" +:+ String.concat "," (map (λ m, member m.1 m.2) ms) +:+ "}".

Definition memberOf (ms : list (string * string)) (name : string) : string :=
  default "" (snd <$> head (filter (λ m, m.1 = name) ms)).

Definition jwkOf (ms : list (string * string)) : jwkJSON :=
  mkJWK (memberOf ms "kty") (memberOf ms "crv") (memberOf ms "x") (memberOf ms "y") (memberOf ms "n") (memberOf ms "e") [].

Definition decodesFlat `{StrictJSON} : Prop :=
  ∀ ms, NoDup (map fst ms) → Forall (λ m, m.1 ∈ ["kty"; "crv"; "x"; "y"; "n"; "e"] ∧ isBase64URL m.2 = true) ms →
  json_jwk (string_bytes (flatObject ms)) = Ok (jwkOf ms).

(** ** Keys *)

Section Keys.
Context `{Platform} `{StrictJSON}.

(** Keys an account may have. *)
Definition validKey (key : PublicKey) : Prop :=
  match key with
  | KeyECDSA curve x y =>
      ∃ crv size, curveName curve = Some (crv, size) ∧ ecdsa_OnCurve curve x y = true ∧
        (0 ≤ x < 256 ^ Z.of_nat size)%Z ∧ (0 ≤ y < 256 ^ Z.of_nat size)%Z
  | KeyRSA n e =>
      (0 < n)%Z ∧ (MinRSABits ≤ BitLen n ≤ MaxRSABits)%Z ∧ Z.odd n = true ∧
      (3 ≤ e ≤ maxRSAExponent)%Z ∧ Z.odd e = true
  | KeyEd25519 k => length k = Ed25519PublicKeySize
  | KeyOther _ => False
  end.

(** The members of the canonical JWK of a key, in their order. *)
Definition canonicalMembers (key : PublicKey) : list (string * string) :=
  match key with
  | KeyECDSA curve x y =>
      let '(crv, size) := default ("", 0%nat) (curveName curve) in
      [("crv", crv); ("kty", "EC"); ("x", encode (fixedBytes size x)); ("y", encode (fixedBytes size y))]
  | KeyRSA n e => [("e", encode (bigBytes e)); ("kty", "RSA"); ("n", encode (bigBytes n))]
  | KeyEd25519 k => [("crv", "Ed25519"); ("kty", "OKP"); ("x", encode k)]
  | KeyOther _ => []
  end.

Lemma namedCurve_curveName curve crv size : curveName curve = Some (crv, size) ↔ namedCurve crv = Some (curve, size).
Proof.
  split; [destruct curve; naive_solver|]. unfold namedCurve. intros Hc. repeat case_match; go_bool; naive_solver.
Qed.

Lemma parseECKey_valid k key : parseECKey k = Ok key → validKey key.
Proof.
  unfold parseECKey. destruct (namedCurve _) as [[curve size]|] eqn:Hcrv; [|done].
  destruct (decodeBase64 (jwk_X k)) as [x|]; [|done]. destruct (decodeBase64 (jwk_Y k)) as [y|]; [|done].
  case_match eqn:Hlen; [done|]. case_match eqn:Hon; [done|]. apply negb_false_iff in Hon. intros [= <-]. exists (jwk_Crv k), size.
  apply orb_false_iff in Hlen as [Hx Hy]. apply negb_false_iff, Nat.eqb_eq in Hx, Hy. subst size.
  pose proof (SetBytes_range x). pose proof (SetBytes_range y). rewrite Hy in *.
  split_and!; try done; try lia. by apply namedCurve_curveName.
Qed.

Lemma parseRSAKey_valid k key : parseRSAKey k = Ok key → validKey key.
Proof.
  unfold parseRSAKey. destruct (decodeBase64 (jwk_N k)) as [[|b n]|]; [done| |done].
  destruct (decodeBase64 (jwk_E k)) as [[|c e]|]; [done| |done].
  pose proof (SetBytes_range (b :: n)) as Hn. set (modulus := SetBytes (b :: n)) in *. set (exponent := SetBytes (c :: e)) in *.
  case_match eqn:He; [done|]. case_match eqn:Hbits; [done|]. case_match eqn:Hodd; [done|]. intros [= <-].
  rewrite !orb_false_iff, !Z.ltb_ge in *. destruct He as [[[_ Hmin] Hmax] Heven].
  simpl. rewrite <- !Z.negb_even, Hodd, Heven.
  split_and!; try done; try apply Hbits. assert (modulus ≠ 0)%Z; [|lia]. intros Hz. by rewrite Hz in Hodd.
Qed.

Lemma ParseJWK_valid raw key : ParseJWK raw = Ok key → validKey key.
Proof.
  unfold ParseJWK. destruct (json_jwk raw) as [k|err]; [|done]. case_match; [done|]. case_match; [apply parseECKey_valid|].
  case_match; [apply parseRSAKey_valid|]. case_match; [|by case_match]. unfold parseOKPKey. case_match; [done|].
  destruct (decodeBase64 (jwk_X k)) as [x|]; [|done]. case_match eqn:Hlen; [done|]. intros [= <-]. simpl. by apply negb_false_iff, Nat.eqb_eq in Hlen.
Qed.

Lemma string_app_assoc (a b c : string) : (a +:+ b) +:+ c = a +:+ b +:+ c.
Proof. induction a as [|x a IH]; [done|]. by apply (f_equal (String x)). Qed.

Lemma MarshalJWK_valid key : validKey key → MarshalJWK key = Ok (flatObject (canonicalMembers key)).
Proof.
  destruct key as [curve x y|n e|k|d]; simpl; [| | |done].
  - intros (crv & size & -> & -> & _). unfold flatObject. cbn [negb default id from_option map String.concat fst snd]. by rewrite !string_app_assoc.
  - intros (Hn & _ & _ & He & _). rewrite (proj2 (Z.leb_gt n 0)), (proj2 (Z.leb_gt e 0)) by lia.
    unfold flatObject. cbn [orb map String.concat fst snd]. by rewrite !string_app_assoc.
  - intros ->. unfold flatObject. cbn [negb Nat.eqb map String.concat fst snd]. by rewrite !string_app_assoc.
Qed.

#[local] Opaque encode fixedBytes bigBytes isBase64URL.

Lemma plainMembers ms :
  Forall (λ m, m.1 ∈ ["kty"; "crv"; "x"; "y"; "n"; "e"] ∧ ((∃ b, m.2 = encode b) ∨ m.2 ∈ ["EC"; "RSA"; "OKP"; "Ed25519"; "P-256"; "P-384"; "P-521"])) ms →
  Forall (λ m, m.1 ∈ ["kty"; "crv"; "x"; "y"; "n"; "e"] ∧ isBase64URL m.2 = true) ms.
Proof.
  intros Hms. eapply Forall_impl; [exact Hms|]. intros [k v] [Hk Hv]. split; [done|]. simpl in *. destruct Hv as [[b ->]|Hv]; [apply isBase64URL_encode|].
  rewrite !elem_of_cons, elem_of_nil in Hv. destruct_or! Hv; subst; [..|done]; by vm_compute.
Qed.

Lemma decoded_canonical key :
  decodesFlat → validKey key → json_jwk (string_bytes (flatObject (canonicalMembers key))) = Ok (jwkOf (canonicalMembers key)).
Proof.
  intros Hflat Hkey. apply Hflat.
  - destruct key as [[] x y|n e|k|d]; simpl; apply (bool_decide_unpack _); by vm_compute.
  - apply plainMembers. destruct key as [[] x y|n e|k|d]; simpl in *;
      repeat first [apply Forall_nil; exact I | apply Forall_cons; split];
      try (split; [apply (bool_decide_unpack _); by vm_compute|
                   first [left; eexists; reflexivity | right; apply (bool_decide_unpack _); by vm_compute]]).
    by destruct Hkey as (crv & size & Hc & _).
Qed.

Lemma ParseJWK_canonical key :
  decodesFlat → validKey key → ParseJWK (string_bytes (flatObject (canonicalMembers key))) = Ok key.
Proof.
  intros Hflat Hkey. unfold ParseJWK. rewrite decoded_canonical by done. destruct key as [curve x y|n e|k|d]; simpl in Hkey; [| | |done].
  - destruct Hkey as (crv & size & Hc & Hon & Hx & Hy). cbn [canonicalMembers]. rewrite Hc.
    change (parseECKey (mkJWK "EC" crv (encode (fixedBytes size x)) (encode (fixedBytes size y)) "" "" []) = Ok (KeyECDSA curve x y)).
    unfold parseECKey. cbn [jwk_Crv jwk_X jwk_Y]. rewrite (proj1 (namedCurve_curveName _ _ _) Hc), !decodeBase64_encode.
    rewrite !length_fixedBytes, Nat.eqb_refl, !SetBytes_fixedBytes, Hon by done. done.
  - destruct Hkey as (Hn & Hbits & Hodd & He & Hodde).
    change (parseRSAKey (mkJWK "RSA" "" "" "" (encode (bigBytes n)) (encode (bigBytes e)) []) = Ok (KeyRSA n e)).
    unfold parseRSAKey. cbn [jwk_N jwk_E]. rewrite !decodeBase64_encode.
    destruct (SetBytes_bigBytes n Hn) as [Hsn Hnn]. destruct (SetBytes_bigBytes e ltac:(lia)) as [Hse Hne].
    destruct (bigBytes n) as [|b bs]; [done|]. destruct (bigBytes e) as [|c cs]; [done|]. rewrite Hsn, Hse.
    rewrite <- !Z.negb_odd, Hodd, Hodde. change maxRSAExponent with 2147483647%Z in *.
    rewrite (proj2 (Z.ltb_ge (2 ^ 63 - 1) e)), (proj2 (Z.ltb_ge e 3)), (proj2 (Z.ltb_ge 2147483647 e)) by lia.
    by rewrite (proj2 (Z.ltb_ge (BitLen n) MinRSABits)), (proj2 (Z.ltb_ge MaxRSABits (BitLen n))) by lia.
  - change (parseOKPKey (mkJWK "OKP" "Ed25519" (encode k) "" "" "" []) = Ok (KeyEd25519 k)).
    unfold parseOKPKey. cbn [jwk_X]. by rewrite decodeBase64_encode, Hkey.
Qed.

(** The keys [ParseJWK] accepts are exactly the valid keys: a point of P-256, P-384 or P-521 whose
    coordinates fit the curve, an odd RSA modulus of 2048 to 4096 bits with an odd exponent between 3
    and 2^31 - 1, or 32 bytes of an Ed25519 key; no other type of key is ever accepted. *)
Theorem ParseJWK_type key : decodesFlat → (∃ raw, ParseJWK raw = Ok key) ↔ validKey key.
Proof.
  intros Hflat. split; [intros [raw Hraw]; by eapply ParseJWK_valid|].
  intros Hkey. eexists. by apply ParseJWK_canonical.
Qed.

(** C32. The canonical JWK of every accepted key is read back as the same key, and no two accepted keys
    have the same canonical JWK, which is what their thumbprints are computed from. *)
Theorem jwk_roundtrip raw key :
  decodesFlat → ParseJWK raw = Ok key →
  ∃ canonical, MarshalJWK key = Ok canonical ∧ ParseJWK (string_bytes canonical) = Ok key ∧
    ∀ raw' key', ParseJWK raw' = Ok key' → MarshalJWK key' = Ok canonical → key' = key.
Proof.
  intros Hflat Hkey%ParseJWK_valid. exists (flatObject (canonicalMembers key)).
  split_and!; [by apply MarshalJWK_valid|by apply ParseJWK_canonical|].
  intros raw' key' Hkey'%ParseJWK_valid. rewrite MarshalJWK_valid by done. intros Heq.
  assert (flatObject (canonicalMembers key') = flatObject (canonicalMembers key)) as Hsame by congruence.
  pose proof (ParseJWK_canonical key' Hflat Hkey') as Hparse. rewrite Hsame, ParseJWK_canonical in Hparse by done. congruence.
Qed.

End Keys.

(** ** A decoder *)

(** The pieces of a text between quotes. *)
Fixpoint quotePieces (b : bytes) : list bytes :=
  match b with
  | [] => [[]]
  | c :: b =>
      if (c == x22) then [] :: quotePieces b
      else match quotePieces b with
      | piece :: pieces => (c :: piece) :: pieces
      | [] => [[c]]
      end
  end.

(** The members of a flat object: every second piece is a name or a value. *)
Fixpoint pairUp (pieces : list bytes) : list (string * string) :=
  match pieces with
  | name :: _ :: value :: _ :: pieces => (bytes_string name, bytes_string value) :: pairUp pieces
  | _ => []
  end.

Definition flatJSON : StrictJSON := {|
  json_envelope _ := Err (ErrMsg "");
  json_header _ := Err (ErrMsg "");
  json_jwk raw := Ok (jwkOf (pairUp (tail (quotePieces raw))))
|}.

Lemma quotePieces_nonempty b : quotePieces b ≠ [].
Proof. destruct b as [|c b]; simpl; [done|]. repeat case_match; done. Qed.

Lemma quotePieces_other c b : c ≠ x22 → quotePieces (c :: b) = (c :: hd [] (quotePieces b)) :: tail (quotePieces b).
Proof.
  intros Hc. cbn [quotePieces]. rewrite bool_decide_false by done. pose proof (quotePieces_nonempty b). by destruct (quotePieces b).
Qed.

Lemma quotePieces_app a b : x22 ∉ a → quotePieces (a ++ x22 :: b) = a :: quotePieces b.
Proof.
  induction a as [|c a IH]; intros Ha; [done|]. apply not_elem_of_cons in Ha as [Hc Ha].
  cbn [app]. by rewrite quotePieces_other, IH by done.
Qed.

Lemma quotePieces_none a : x22 ∉ a → quotePieces a = [a].
Proof.
  induction a as [|c a IH]; intros Ha; [done|]. apply not_elem_of_cons in Ha as [Hc Ha].
  by rewrite quotePieces_other, IH by done.
Qed.

Lemma string_bytes_member k v (b : bytes) :
  string_bytes (member k v) ++ b = x22 :: string_bytes k ++ x22 :: x3a :: x22 :: string_bytes v ++ x22 :: b.
Proof.
  unfold member, quoted. change quote with (bytes_string [x22]).
  rewrite !string_bytes_app, !String.list_byte_of_string_of_list_byte. change (string_bytes ":") with [x3a].
  by rewrite <- !app_assoc.
Qed.

Lemma flatJSON_pieces p ms :
  x22 ∉ p → Forall (λ m, x22 ∉ string_bytes m.1 ∧ x22 ∉ string_bytes m.2) ms →
  pairUp (tail (quotePieces (p ++ string_bytes (String.concat "," (map (λ m, member m.1 m.2) ms)) ++ [x7d]))) = ms.
Proof.
  intros Hp Hms. revert p Hp. induction Hms as [|[k v] ms [Hk Hv] Hms IH]; intros p Hp.
  - rewrite quotePieces_none; [done|]. simpl. set_solver.
  - assert (∃ p', x22 ∉ p' ∧ string_bytes (String.concat "," (map (λ m, member m.1 m.2) ((k, v) :: ms))) =
      string_bytes (member k v) ++ p' ++ string_bytes (String.concat "," (map (λ m, member m.1 m.2) ms))) as (p' & Hp' & ->).
    { destruct ms as [|m ms].
      - exists []. split; [apply not_elem_of_nil|]. change (string_bytes (String.concat "," (map (λ m, member m.1 m.2) []))) with (@nil Byte.byte).
        by rewrite app_nil_r.
      - exists [x2c]. split; [set_solver|].
        change (String.concat "," (map (λ m, member m.1 m.2) ((k, v) :: m :: ms))) with
          (member k v +:+ "," +:+ String.concat "," (map (λ m, member m.1 m.2) (m :: ms))).
        by rewrite !string_bytes_app. }
    rewrite <- !app_assoc, string_bytes_member, quotePieces_app by done. cbn [tail].
    rewrite quotePieces_app by done. pose proof (λ b, quotePieces_app [x3a] b ltac:(set_solver)) as Hcolon.
    cbn [app] in Hcolon. rewrite Hcolon, quotePieces_app by done.
    specialize (IH p' Hp'). pose proof (quotePieces_nonempty (p' ++ string_bytes (String.concat "," (map (λ m, member m.1 m.2) ms)) ++ [x7d])) as Hne.
    destruct (quotePieces _) as [|q qs]; [done|]. simpl in *. by rewrite IH, !String.string_of_list_byte_of_string.
Qed.

Lemma isBase64URL_unquoted v : isBase64URL v = true → x22 ∉ string_bytes v.
Proof.
  unfold isBase64URL, codes. rewrite forallb_forall. intros Hv Hin. specialize (Hv (bz x22)).
  discriminate Hv. apply in_map_iff. exists x22. split; [done|]. by apply list_elem_of_In.
Qed.

Lemma flatJSON_decodes : @decodesFlat flatJSON.
Proof.
  intros ms _ Hms. unfold flatObject. rewrite !string_bytes_app. cbn [json_jwk flatJSON]. f_equal.
  rewrite (flatJSON_pieces (string_bytes "{")); [done|apply (bool_decide_unpack _); by vm_compute|].
  eapply Forall_impl; [exact Hms|]. intros [k v] [Hk Hv]. split; [|by apply isBase64URL_unquoted]. simpl in *.
  rewrite !elem_of_cons, elem_of_nil in Hk. destruct_or! Hk; subst; try done; apply (bool_decide_unpack _); by vm_compute.
Qed.

(** ** An Ed25519 key *)

Definition ed25519Key : PublicKey := KeyEd25519 (replicate 32 x05).
Definition ed25519JWK : bytes := string_bytes (flatObject (canonicalMembers ed25519Key)).

Lemma ParseJWK_type_witness : @validKey demo_platform ed25519Key.
Proof.
  apply (proj1 (@ParseJWK_type demo_platform flatJSON ed25519Key flatJSON_decodes)).
  exists ed25519JWK. vm_compute. reflexivity.
Defined.

Lemma jwk_roundtrip_witness :
  ∃ canonical, @MarshalJWK demo_platform ed25519Key = Ok canonical ∧
    @ParseJWK demo_platform flatJSON (string_bytes canonical) = Ok ed25519Key.
Proof.
  destruct (@jwk_roundtrip demo_platform flatJSON ed25519JWK ed25519Key flatJSON_decodes ltac:(vm_compute; reflexivity))
    as (canonical & Hmarshal & Hparse & _).
  exists canonical. exact (conj Hmarshal Hparse).
Defined.
