(* ===== verification/Slhdsatest.v ===== *)
(** * SLH-DSA requests and certificates (src/internal/slhdsatest, [Marshal] of src/internal/slhdsaspki)

    The test helpers that build what [crypto/x509] cannot: they lay out a request or certificate
    with a placeholder key, replace the fields that differ and sign the result. The builder of
    [cryptobyte], the layout by [crypto/x509] and the signature schemes are fields of a class, with
    what the helpers rely on as its laws. A request built this way passes the checks of the server. *)

From S2P Require Import Prelude Base64 Status Problem Resource StoreSpec Prog Host Platform Slhdsa SystemDemo.

(** ** Packages outside the repository

    The randomness a signature or a generated key takes from the system is part of the function. *)
Class Builder : Type := {
  (* cryptobyte.Builder: a SEQUENCE around the bytes, an OBJECT IDENTIFIER, a BIT STRING *)
  cryptobyte_AddSequence : bytes → Res bytes;
  cryptobyte_AddObjectIdentifier : list Z → Res bytes;
  cryptobyte_AddBitString : bytes → Res bytes;
  (* cryptobyte.String: ReadAnyASN1Element and ReadASN1Element of a SEQUENCE, with the bytes after it *)
  cryptobyte_ReadAnyElement : bytes → option (bytes * bytes);
  cryptobyte_ReadSequenceElement : bytes → option (bytes * bytes);
  (* circl slhdsa: a private key, its public key and its pure signature with an empty context *)
  slhdsaPrivateKey : Type;
  slhdsa_ID : slhdsaPrivateKey → slhdsaID;
  slhdsa_PublicKey : slhdsaPrivateKey → slhdsaKey;
  slhdsa_Sign : slhdsaPrivateKey → bytes → Res bytes;
  slhdsa_MarshalBinary : slhdsaKey → Res bytes;
  (* crypto/ecdsa: a generated P-256 key; crypto/x509: templates and their encodings *)
  ecdsaPrivateKey : Type;
  ecdsa_GenerateKey : Res ecdsaPrivateKey;
  signerKey : Type;
  placeholderSigner : ecdsaPrivateKey → signerKey;
  signer_Sign : signerKey → bytes → Res bytes;
  requestTemplate : Type;
  certificateTemplate : Type;
  x509_CreateCertificateRequest : requestTemplate → ecdsaPrivateKey → Res bytes;
  x509_CreateCertificate : certificateTemplate → certificateTemplate → ecdsaPrivateKey → signerKey → Res bytes;
  x509_ECDSAWithSHA256 : X509Certificate → bool
}.

Section Slhdsatest.
Context `{Platform} `{Builder}.

(** ** Package slhdsaspki *)

(** An AlgorithmIdentifier with absent parameters. *)
Definition addAlgorithm (oid : list Z) : Res bytes :=
  try id := cryptobyte_AddObjectIdentifier oid in cryptobyte_AddSequence id.

(** Encodes an SLH-DSA key as a SubjectPublicKeyInfo with absent parameters. *)
Definition slhdsaspki_Marshal (key : slhdsaKey) : Res bytes :=
  match OID (slh_ID key) with
  | None => Err (ErrMsg "unknown SLH-DSA parameter set")
  | Some oid =>
      try raw := slhdsa_MarshalBinary key in
      try algorithm := addAlgorithm oid in
      try bits := cryptobyte_AddBitString raw in
      cryptobyte_AddSequence (algorithm ++ bits)
  end.

(** ** Package slhdsatest *)

(** The loop of [replaceField]: copies fields, then replaces the next one. *)
Fixpoint replaceLoop (before : nat) (fields copied value : bytes) : Res bytes :=
  match before with
  | O =>
      match cryptobyte_ReadAnyElement fields with
      | None => Err (ErrMsg "missing field to replace")
      | Some (_, fields) => cryptobyte_AddSequence (copied ++ value ++ fields)
      end
  | S before =>
      match cryptobyte_ReadAnyElement fields with
      | None => Err (ErrMsg "truncated signed structure")
      | Some (field, fields) => replaceLoop before fields (copied ++ field) value
      end
  end.

(** Returns a signed structure's to-be-signed part with the field that follows its first [before]
    fields replaced by [value]. *)
Definition replaceField (tbs : bytes) (before : nat) (value : bytes) : Res bytes :=
  match cryptobyte_ReadSequence tbs with
  | None => Err (ErrMsg "invalid signed structure")
  | Some (fields, _) => replaceLoop before fields [] value
  end.

(** A signed structure: what is signed, the algorithm and the signature. *)
Definition addSigned (tbs algorithm signature : bytes) : Res bytes :=
  try bits := cryptobyte_AddBitString signature in
  cryptobyte_AddSequence (tbs ++ algorithm ++ bits).

(** Works like [x509.CreateCertificateRequest] for an SLH-DSA key. *)
Definition CreateCertificateRequest (template : requestTemplate) (key : slhdsaPrivateKey) : Res bytes :=
  try spki := slhdsaspki_Marshal (slhdsa_PublicKey key) in
  let oid := default [] (OID (slhdsa_ID key)) in
  try placeholder := ecdsa_GenerateKey in
  try der := x509_CreateCertificateRequest template placeholder in
  try laid := x509_ParseCertificateRequest der in
  try info := replaceField (csr_RawTBSCertificateRequest laid) 2 spki in
  try signature := slhdsa_Sign key info in
  try algorithm := addAlgorithm oid in
  addSigned info algorithm signature.

(** Works like [x509.CreateCertificate] for a SubjectPublicKeyInfo. The issuer key must be an ECDSA
    P-256 key. *)
Definition CreateCertificate (template parent : certificateTemplate) (spki : bytes) (issuerKey : signerKey) : Res bytes :=
  try placeholder := ecdsa_GenerateKey in
  try der := x509_CreateCertificate template parent placeholder issuerKey in
  try laid := x509_ParseCertificate der in
  if negb (x509_ECDSAWithSHA256 laid) then Err (ErrMsg "issuer key must be an ECDSA P-256 key")
  else
    try tbs := replaceField (x_RawTBSCertificate laid) 6 spki in
    try signature := signer_Sign issuerKey (sha256_Sum256 tbs) in
    let unreadable := Err (ErrMsg "cannot read the laid-out certificate") in
    match afterTBS der with
    | None => unreadable
    | Some cert =>
        match cryptobyte_ReadSequenceElement cert with
        | None => unreadable
        | Some (sigAlg, _) => addSigned tbs sigAlg signature
        end
    end.

(** Works like [CreateCertificate] but signs with an SLH-DSA key. *)
Definition CreateCertificateSignedBy (template parent : certificateTemplate) (spki : bytes) (issuer : slhdsaPrivateKey)
    : Res bytes :=
  match OID (slhdsa_ID issuer) with
  | None => Err (ErrMsg "unknown SLH-DSA parameter set")
  | Some oid =>
      try placeholder := ecdsa_GenerateKey in
      try der := x509_CreateCertificate template parent placeholder (placeholderSigner placeholder) in
      try laid := x509_ParseCertificate der in
      try algorithm := addAlgorithm oid in
      try tbs := replaceField (x_RawTBSCertificate laid) 2 algorithm in
      try tbs := replaceField tbs 6 spki in
      try signature := slhdsa_Sign issuer tbs in
      addSigned tbs algorithm signature
  end.

(** ** What the helpers rely on *)

(** The fields of a parsed request are the parts of its encoding, one after the other. Elements that
    follow them in a SEQUENCE are not looked at. *)
Definition requestLayout (csr : CertificateRequest) : Prop :=
  ∃ content rest fields f1 fields1 f2 fields2 fields3 algorithm rest1 bits n rest2,
    cryptobyte_ReadSequence (csr_Raw csr) = Some (content, []) ∧
    cryptobyte_ReadAnyElement content = Some (csr_RawTBSCertificateRequest csr, rest) ∧
    cryptobyte_ReadSequence (csr_RawTBSCertificateRequest csr) = Some (fields, []) ∧
    cryptobyte_ReadAnyElement fields = Some (f1, fields1) ∧
    cryptobyte_ReadAnyElement fields1 = Some (f2, fields2) ∧
    cryptobyte_ReadAnyElement fields2 = Some (csr_RawSubjectPublicKeyInfo csr, fields3) ∧
    cryptobyte_ReadAnyElement rest = Some (algorithm, rest1) ∧
    cryptobyte_ReadBitString rest1 = Some (bits, n, rest2) ∧
    ((n = 8 * len bits)%Z → csr_Signature csr = bits).

(** Lengths and arcs that every platform reads. *)
Definition readable (b : bytes) : Prop := (len b < 2 ^ 31)%Z.
Definition readableArcs (oid : list Z) : Prop := Forall (λ arc, 0 ≤ arc < 2 ^ 30)%Z oid.

Class BuilderLaws : Prop := {
  (* an encoding holds its content *)
  add_sequence b d : cryptobyte_AddSequence b = Ok d → (len b ≤ len d)%Z;
  add_bits b d : cryptobyte_AddBitString b = Ok d → (len b ≤ len d)%Z;
  (* what the builder writes the reader reads, and what follows is left *)
  read_sequence b d rest : cryptobyte_AddSequence b = Ok d → readable d →
    cryptobyte_ReadSequence (d ++ rest) = Some (b, rest) ∧ cryptobyte_ReadAnyElement (d ++ rest) = Some (d, rest);
  read_identifier oid d rest : cryptobyte_AddObjectIdentifier oid = Ok d → readable d → readableArcs oid →
    cryptobyte_ReadObjectIdentifier (d ++ rest) = Some (oid, rest);
  read_bits b d rest : cryptobyte_AddBitString b = Ok d → readable d →
    cryptobyte_ReadBitString (d ++ rest) = Some (b, 8 * len b, rest)%Z;
  (* an element ends where its length says *)
  read_element s d rest : cryptobyte_ReadAnyElement s = Some (d, rest) →
    s = d ++ rest ∧ ∀ rest', cryptobyte_ReadAnyElement (d ++ rest') = Some (d, rest');
  (* the key and signature scheme *)
  public_ID k : slh_ID (slhdsa_PublicKey k) = slhdsa_ID k;
  read_key k raw : slhdsa_MarshalBinary (slhdsa_PublicKey k) = Ok raw →
    slhdsa_UnmarshalBinary (slhdsa_ID k) raw = Ok (slhdsa_PublicKey k);
  verify_sign k m sig : slhdsa_Sign k m = Ok sig → slhdsa_Verify (slhdsa_PublicKey k) m sig = true;
  parse_request der csr : x509_ParseCertificateRequest der = Ok csr → csr_Raw csr = der ∧ requestLayout csr
}.

Context `{!BuilderLaws}.

Lemma FromOID_OID id oid : OID id = Some oid → FromOID oid = Some id.
Proof. destruct id; intros [= <-]; reflexivity. Qed.

Lemma OID_arcs id oid : OID id = Some oid → readableArcs oid.
Proof. destruct id; intros [= <-]; repeat (constructor; [lia|]); constructor. Qed.

Lemma readable_app b1 b2 : readable (b1 ++ b2) → readable b1 ∧ readable b2.
Proof. unfold readable. rewrite length_app. lia. Qed.

Lemma readable_content b d : cryptobyte_AddSequence b = Ok d → readable d → readable b.
Proof. intros Hd. pose proof (add_sequence _ _ Hd). unfold readable. lia. Qed.

Lemma read_whole b d : cryptobyte_AddSequence b = Ok d → readable d → cryptobyte_ReadSequence d = Some (b, []).
Proof. intros Hd Hr. rewrite <- (app_nil_r d). by apply read_sequence. Qed.

(** An encoded AlgorithmIdentifier is read as its parameter set with absent parameters. *)
Lemma readSLHDSA_add id oid d rest :
  OID id = Some oid → addAlgorithm oid = Ok d → readable d → readSLHDSA (d ++ rest) = Some (id, true, rest).
Proof.
  intros Hoid. unfold addAlgorithm. destruct (cryptobyte_AddObjectIdentifier oid) as [b|] eqn:Hb; [|done]. simpl. intros Hd Hr.
  unfold readSLHDSA, ReadAlgorithm. rewrite (proj1 (read_sequence _ _ rest Hd Hr)). rewrite <- (app_nil_r b) at 1.
  rewrite (read_identifier _ _ [] Hb (readable_content _ _ Hd Hr) (OID_arcs _ _ Hoid)). simpl. by rewrite (FromOID_OID _ _ Hoid).
Qed.

(** A marshalled key is parsed as the same key. *)
Lemma Parse_Marshal k der :
  slhdsaspki_Marshal (slhdsa_PublicKey k) = Ok der → readable der → slhdsaspki_Parse der = Ok (Some (slhdsa_PublicKey k)).
Proof.
  unfold slhdsaspki_Marshal. rewrite public_ID. destruct (OID (slhdsa_ID k)) as [oid|] eqn:Hoid; [|done].
  destruct (slhdsa_MarshalBinary (slhdsa_PublicKey k)) as [raw|] eqn:Hraw; [|done]. simpl.
  destruct (addAlgorithm oid) as [algorithm|] eqn:Halg; [|done]. simpl.
  destruct (cryptobyte_AddBitString raw) as [bits|] eqn:Hbits; [|done]. simpl. intros Hder Hr.
  destruct (readable_app _ _ (readable_content _ _ Hder Hr)) as [Hra Hrb].
  unfold slhdsaspki_Parse. rewrite (read_whole _ _ Hder Hr), (readSLHDSA_add _ _ _ _ Hoid Halg Hra).
  rewrite <- (app_nil_r bits), (read_bits _ _ [] Hbits Hrb). simpl. rewrite Z.mul_comm, Z.mod_mul, (read_key _ _ Hraw) by lia. done.
Qed.

(** A complete element, whatever follows it. *)
Definition element (d : bytes) : Prop := ∀ rest, cryptobyte_ReadAnyElement (d ++ rest) = Some (d, rest).

Lemma replaceLoop_fields n fields copied value d :
  replaceLoop n fields copied value = Ok d →
  ∃ kept rest, length kept = n ∧ Forall element kept ∧ cryptobyte_AddSequence (copied ++ concat kept ++ value ++ rest) = Ok d.
Proof.
  revert fields copied. induction n as [|n IH]; intros fields copied; simpl.
  - destruct (cryptobyte_ReadAnyElement fields) as [[f rest]|] eqn:Hf; [|done]. intros Hd. by exists [], rest.
  - destruct (cryptobyte_ReadAnyElement fields) as [[f rest]|] eqn:Hf; [|done]. intros Hd.
    apply IH in Hd as (kept & rest' & Hlen & Hkept & Hd). exists (f :: kept), rest'. simpl.
    rewrite <- app_assoc in Hd. rewrite <- app_assoc. split_and!; [lia| |done]. constructor; [|done].
    by destruct (read_element _ _ _ Hf).
Qed.

Lemma replaceField_fields tbs n value d :
  replaceField tbs n value = Ok d →
  ∃ kept rest, length kept = n ∧ Forall element kept ∧ cryptobyte_AddSequence (concat kept ++ value ++ rest) = Ok d.
Proof. unfold replaceField. case_match; [|done]. case_match. apply replaceLoop_fields. Qed.

Lemma addAlgorithm_element oid d : addAlgorithm oid = Ok d → readable d → element d.
Proof.
  unfold addAlgorithm. destruct (cryptobyte_AddObjectIdentifier oid); [|done]. simpl. intros Hd Hr rest. by apply (read_sequence _ _ rest Hd).
Qed.

Lemma Marshal_element key d : slhdsaspki_Marshal key = Ok d → readable d → element d.
Proof.
  unfold slhdsaspki_Marshal. destruct (OID (slh_ID key)); [|done]. destruct (slhdsa_MarshalBinary key); [|done]. simpl.
  destruct (addAlgorithm _); [|done]. simpl. destruct (cryptobyte_AddBitString _); [|done]. simpl. intros Hd Hr rest. by apply (read_sequence _ _ rest Hd).
Qed.

(** The replacing value is part of the result. *)
Lemma replaceField_readable tbs n value d : replaceField tbs n value = Ok d → readable d → readable value.
Proof.
  intros (kept & rest & _ & _ & Hd)%replaceField_fields Hr. apply (readable_content _ _ Hd) in Hr.
  by apply readable_app in Hr as [_ [Hr _]%readable_app].
Qed.

(** The fields of a request that was put together from its parts. *)
Lemma request_parts tbs spki info algorithm signature bits der csr :
  replaceField tbs 2 spki = Ok info → element spki → element algorithm → cryptobyte_AddBitString signature = Ok bits →
  cryptobyte_AddSequence (info ++ algorithm ++ bits) = Ok der → readable der → x509_ParseCertificateRequest der = Ok csr →
  csr_Raw csr = der ∧ csr_RawTBSCertificateRequest csr = info ∧ csr_RawSubjectPublicKeyInfo csr = spki ∧
  csr_Signature csr = signature ∧ afterTBS der = Some (algorithm ++ bits).
Proof.
  intros Hinfo Hspki Halg Hbits Hder Hr Hcsr.
  destruct (readable_app _ _ (readable_content _ _ Hder Hr)) as [Hri [_ Hrb]%readable_app].
  apply replaceField_fields in Hinfo as ([|f1 [|f2 []]] & kept & Hlen & Hel & Hinfo); try done.
  inversion_clear Hel as [|? ? Hf1 Hel']. inversion_clear Hel' as [|? ? Hf2 _].
  destruct (parse_request _ _ Hcsr) as [Hraw (content & rest & fields & g1 & fields1 & g2 & fields2 & fields3 & alg & rest1 & b & n &
    rest2 & L1 & L2 & L3 & L4 & L5 & L6 & L7 & L8 & L9)].
  rewrite Hraw, (read_whole _ _ Hder Hr) in L1. injection L1 as <-.
  rewrite (proj2 (read_sequence _ _ _ Hinfo Hri)) in L2. injection L2 as L2a L2b. subst rest.
  rewrite <- L2a, (read_whole _ _ Hinfo Hri) in L3. injection L3 as <-.
  simpl in L4. rewrite <- app_assoc, Hf1 in L4. injection L4 as <- <-. rewrite app_nil_r, Hf2 in L5. injection L5 as <- <-.
  rewrite Hspki in L6. injection L6 as L6 _. rewrite Halg in L7. injection L7 as <- <-.
  rewrite <- (app_nil_r bits), (read_bits _ _ [] Hbits Hrb) in L8. injection L8 as <- <- _.
  split_and!; try done; [by apply L9|]. unfold afterTBS. by rewrite (read_whole _ _ Hder Hr), (proj1 (read_sequence _ _ _ Hinfo Hri)).
Qed.

(** C35. The request [CreateCertificateRequest] builds is accepted by the server when it has less than
    2 GiB: its signature passes [checkCSRSignature] and its key is read back as the SLH-DSA key that
    signed it. The encoder and the decoder agree on the fields, the identifier of the parameter set
    and the absent parameters. *)
Theorem request_verifies template key der csr :
  CreateCertificateRequest template key = Ok der → readable der → x509_ParseCertificateRequest der = Ok csr →
  checkCSRSignature csr = None ∧
  parseCSRKey (csr_RawSubjectPublicKeyInfo csr) = Ok (CertKeySLHDSA (slhdsa_PublicKey key)).
Proof.
  unfold CreateCertificateRequest. destruct (slhdsaspki_Marshal _) as [spki|] eqn:Hspki; [|done]. simpl.
  destruct ecdsa_GenerateKey as [placeholder|]; [|done]. simpl.
  destruct (x509_CreateCertificateRequest template placeholder) as [der0|]; [|done]. simpl.
  destruct (x509_ParseCertificateRequest der0) as [laid|]; [|done]. simpl.
  destruct (replaceField _ 2 spki) as [info|] eqn:Hinfo; [|done]. simpl.
  destruct (slhdsa_Sign key info) as [signature|] eqn:Hsig; [|done]. simpl.
  destruct (addAlgorithm _) as [algorithm|] eqn:Halg; [|done]. simpl. unfold addSigned.
  destruct (cryptobyte_AddBitString signature) as [bits|] eqn:Hbits; [|done]. simpl. intros Hder Hr Hcsr.
  destruct (readable_app _ _ (readable_content _ _ Hder Hr)) as [Hri [Hra _]%readable_app].
  pose proof (replaceField_readable _ _ _ _ Hinfo Hri) as Hrs.
  pose proof (Marshal_element _ _ Hspki Hrs) as Helem. pose proof (addAlgorithm_element _ _ Halg Hra) as Halg'.
  destruct (request_parts _ _ _ _ _ _ _ _ Hinfo Helem Halg' Hbits Hder Hr Hcsr) as (Hraw & Htbs & Hkey & Hsign & Hafter).
  unfold checkCSRSignature, parseCSRKey. rewrite Hraw, Hafter, Hkey, (Parse_Marshal _ _ Hspki Hrs). split; [|done].
  assert (∃ oid, OID (slhdsa_ID key) = Some oid) as [oid Hoid].
  { rewrite <- public_ID. unfold slhdsaspki_Marshal in Hspki. destruct (OID _) as [oid|]; [by exists oid|done]. }
  rewrite Hoid in Halg. rewrite (readSLHDSA_add _ _ _ _ Hoid Halg Hra), Htbs, Hsign, (verify_sign _ _ _ Hsig), public_ID. simpl.
  by rewrite bool_decide_true.
Qed.

End Slhdsatest.

(** ** An encoding with short lengths *)

Module Demo.

Definition frame (tag : Byte.byte) (b : bytes) : Res bytes :=
  if (len b <? 128)%Z then Ok (tag :: zb (len b) :: b) else Err (ErrMsg "too long").

Definition unframe (s : bytes) : option (Byte.byte * bytes * bytes) :=
  match s with
  | tag :: n :: s => if (bz n <=? len s)%Z then Some (tag, take (Z.to_nat (bz n)) s, drop (Z.to_nat (bz n)) s) else None
  | _ => None
  end.

Definition readTag (tag : Byte.byte) (s : bytes) : option (bytes * bytes) :=
  match unframe s with
  | Some (t, content, rest) => if (t == tag) then Some (content, rest) else None
  | None => None
  end.

Definition readAny (s : bytes) : option (bytes * bytes) :=
  match unframe s with
  | Some (t, content, rest) => Some (t :: zb (len content) :: content, rest)
  | None => None
  end.

(** An identifier is its place in the table. *)
Definition addOID (oid : list Z) : Res bytes :=
  match list_find (λ a, a.2 = oid) algorithms with
  | Some (i, _) => frame x06 [zb (Z.of_nat i)]
  | None => Err (ErrMsg "unknown identifier")
  end.

Definition readOID (s : bytes) : option (list Z * bytes) :=
  match readTag x06 s with
  | Some ([c], rest) => (λ a, (a.2, rest)) <$> algorithms !! Z.to_nat (bz c)
  | _ => None
  end.

Definition readBits (s : bytes) : option (bytes * Z * bytes) :=
  (λ '(b, rest), (b, 8 * len b, rest)%Z) <$> readTag x03 s.

Definition parseRequest (der : bytes) : option CertificateRequest :=
  '(content, end_) ← readTag x30 der;
  '(tbs, rest) ← readAny content;
  '(fields, end1) ← readTag x30 tbs;
  '(_, fields) ← readAny fields;
  '(_, fields) ← readAny fields;
  '(spki, _) ← readAny fields;
  '(_, rest) ← readAny rest;
  '(signature, _, _) ← readBits rest;
  if decide (end_ = [] ∧ end1 = []) then Some (mkCertificateRequest der tbs signature spki [] [] [] [] "") else None.

#[local] Instance platform : Platform :=
  let p := demo_platform in
  {| p with
     x509_ParseCertificateRequest der := match parseRequest der with Some csr => Ok csr | None => Err (ErrMsg "malformed") end;
     cryptobyte_ReadSequence := readTag x30;
     cryptobyte_ReadObjectIdentifier := readOID;
     cryptobyte_ReadBitString := readBits;
     slhdsa_UnmarshalBinary id raw := Ok (mkSlhdsaKey id raw);
     slhdsa_Verify key m sig := sig == m |}.

(** The request [crypto/x509] lays out: three empty fields, an algorithm and a signature. *)
Definition laidRequest : bytes := [x30; x0c; x30; x06; x01; x00; x01; x00; x01; x00; x30; x00; x03; x00].

#[local] Instance builder : Builder := {|
  cryptobyte_AddSequence := frame x30;
  cryptobyte_AddObjectIdentifier := addOID;
  cryptobyte_AddBitString := frame x03;
  cryptobyte_ReadAnyElement := readAny;
  cryptobyte_ReadSequenceElement := readAny;
  slhdsaPrivateKey := slhdsaKey;
  slhdsa_ID := slh_ID;
  slhdsa_PublicKey := id;
  slhdsa_Sign _ m := Ok m;
  slhdsa_MarshalBinary key := Ok (slh_bytes key);
  ecdsaPrivateKey := unit;
  ecdsa_GenerateKey := Ok tt;
  signerKey := unit;
  placeholderSigner := id;
  signer_Sign _ m := Ok m;
  requestTemplate := unit;
  certificateTemplate := unit;
  x509_CreateCertificateRequest _ _ := Ok laidRequest;
  x509_CreateCertificate _ _ _ _ := Err (ErrMsg "");
  x509_ECDSAWithSHA256 _ := true
|}.

Lemma unframe_frame tag b d rest : frame tag b = Ok d → unframe (d ++ rest) = Some (tag, b, rest).
Proof.
  unfold frame. destruct (Z.ltb_spec (len b) 128) as [Hlen|]; [|done]. intros [= <-]. simpl.
  rewrite bz_zb, Z.mod_small by lia. rewrite length_app, (proj2 (Z.leb_le _ _)) by lia.
  rewrite Nat2Z.id, take_app_length, drop_app_length. done.
Qed.

Lemma unframe_local s t c rest :
  unframe s = Some (t, c, rest) →
  s = (t :: zb (len c) :: c) ++ rest ∧ ∀ rest', unframe ((t :: zb (len c) :: c) ++ rest') = Some (t, c, rest').
Proof.
  destruct s as [|tag [|n s]]; try done. simpl. destruct (Z.leb_spec (bz n) (len s)) as [Hlen|]; [|done]. intros [= <- <- <-].
  pose proof (bz_range n) as Hn. set (k := Z.to_nat (bz n)).
  assert (length (take k s) = k) as Hk by (rewrite length_take; unfold k; lia).
  assert (zb (len (take k s)) = n) as Hb by (rewrite Hk; unfold k; rewrite Z2Nat.id by lia; apply zb_bz). rewrite Hb.
  split; [by rewrite take_drop|]. intros rest'. rewrite length_app, Hk, (proj2 (Z.leb_le _ _)) by (unfold k; lia).
  fold k. rewrite <- Hk at 1 3. by rewrite take_app_length, drop_app_length.
Qed.

Lemma readTag_frame tag b d rest : frame tag b = Ok d → readTag tag (d ++ rest) = Some (b, rest).
Proof. intros Hd. unfold readTag. rewrite (unframe_frame _ _ _ _ Hd). by rewrite bool_decide_true. Qed.

Lemma parseRequest_layout der csr : parseRequest der = Some csr → csr_Raw csr = der ∧ requestLayout csr.
Proof.
  unfold parseRequest. intros Hcsr.
  repeat match type of Hcsr with
  | ?m ≫= _ = Some _ => let E := fresh "E" in destruct m as [[? ?]|] eqn:E; [|done]; simpl in Hcsr
  end.
  destruct p as [signature n]. case_decide as Hend; [|done]. destruct Hend as (-> & ->). injection Hcsr as <-.
  split; [done|]. do 13 eexists. by split_and!.
Qed.

#[local] Instance builder_laws : BuilderLaws.
Proof.
  assert (∀ tag b d, frame tag b = Ok d → (len b ≤ len d)%Z) as Hlen.
  { intros tag b d. unfold frame. case_match; [|done]. intros [= <-]. simpl. lia. }
  split.
  - apply Hlen.
  - apply Hlen.
  - intros b d rest Hd _. simpl in *. split; [by apply readTag_frame|]. unfold readAny. rewrite (unframe_frame _ _ _ _ Hd).
    unfold frame in Hd. by destruct (len b <? 128)%Z; simplify_eq.
  - intros oid d rest. simpl. unfold addOID. destruct (list_find _ _) as [[i a]|] eqn:Hfind; [|done]. intros Hd _ _.
    apply list_find_Some in Hfind as (Hi & Ha & _). unfold readOID. rewrite (readTag_frame _ _ _ _ Hd).
    pose proof (lookup_lt_Some _ _ _ Hi) as Hlt. change (length algorithms) with 12%nat in Hlt.
    rewrite bz_zb, Z.mod_small, Nat2Z.id, Hi by lia. simpl. by rewrite Ha.
  - intros b d rest Hd _. simpl in *. unfold readBits. by rewrite (readTag_frame _ _ _ _ Hd).
  - intros s d rest. simpl. unfold readAny. destruct (unframe s) as [[[t c] r]|] eqn:Hs; [|done]. intros [= <- <-].
    destruct (unframe_local _ _ _ _ Hs) as [Heq Hlocal]. split; [exact Heq|]. intros rest'. by rewrite Hlocal.
  - done.
  - intros key raw [= <-]. by destruct key.
  - intros k m sig [= <-]. simpl. by rewrite bool_decide_true.
  - intros der csr. simpl. destruct (parseRequest der) as [csr'|] eqn:Hp; [|done]. intros [= <-]. by apply parseRequest_layout.
Qed.

Definition key : slhdsaKey := mkSlhdsaKey SHA2_128s [x01; x02].

Definition created : Res bytes := CreateCertificateRequest tt key.

Lemma request_verifies_witness :
  ∃ der csr, created = Ok der ∧ x509_ParseCertificateRequest der = Ok csr ∧ checkCSRSignature csr = None.
Proof.
  destruct created as [der|err] eqn:Hder; [|vm_compute in Hder; discriminate].
  destruct (x509_ParseCertificateRequest der) as [csr|err] eqn:Hcsr.
  - assert (readable der) as Hr by (vm_compute in Hder; injection Hder as <-; reflexivity).
    exists der, csr. exact (conj eq_refl (conj Hcsr (proj1 (request_verifies tt key der csr Hder Hr Hcsr)))).
  - vm_compute in Hder. injection Hder as <-. vm_compute in Hcsr. discriminate.
Defined.

End Demo.
