(* ===== verification/Quickstart.v ===== *)
(** * The quickstart server (src/examples/quickstart/main.go)

    The CA of the example, which signs one certificate per operation and remembers the result, its
    resolver and the configuration it starts the server with. Generating keys, laying out and signing
    certificates belong to packages outside the repository, and the files, signals and sockets of
    [main] are not modelled. *)

From S2P Require Import Prelude Status Problem Resource Base64 Netip StoreSpec Prog Host Platform Identifier Slhdsa Network Worker Validators Server.

(** ** Certificates to sign *)

Definition KeyUsageDigitalSignature : Z := 1.
Definition KeyUsageCRLSign : Z := 64.
Definition ExtKeyUsageServerAuth : Z := 1.

(** The fields of an [x509.Certificate] the example sets. *)
Record certTemplate : Type := mkCertTemplate {
  ct_SerialNumber : Z;
  ct_CommonName : string;
  ct_NotBefore : Time;
  ct_NotAfter : Time;
  ct_IsCA : bool;
  ct_BasicConstraintsValid : bool;
  ct_KeyUsage : Z;
  ct_ExtKeyUsage : list Z;
  ct_DNSNames : list string;
  ct_IPAddresses : list (option bytes)  (* net.ParseIP: nil for a text that is no address *)
}.

(** What a call takes from the system: the readings of the clock in their order, and the randomness
    of serial numbers, keys and signatures, which is part of the functions. *)
Record ambient (key : Type) : Type := mkAmbient {
  am_now : Time;
  am_later : Time;
  am_serial : Res Z;
  am_GenerateKey : Res key;
  (* x509.CreateCertificate with the template, the parent, the public key of a private key and the
     signing key; compositex509.CreateCertificate with the public key of a request *)
  am_CreateCertificate : certTemplate → option X509Certificate → key → key → Res bytes;
  am_CreateLeaf : certTemplate → X509Certificate → CertKey → key → Res bytes
}.

Arguments mkAmbient {key}.
Arguments am_now {key}.
Arguments am_later {key}.
Arguments am_serial {key}.
Arguments am_GenerateKey {key}.
Arguments am_CreateCertificate {key}.
Arguments am_CreateLeaf {key}.

Record devCA (key : Type) : Type := mkDevCA {
  ca_key : key;
  ca_root : X509Certificate;
  ca_issued : gmap string bytes;
  ca_revoked : gmap string bool
}.

Arguments mkDevCA {key}.
Arguments ca_key {key}.
Arguments ca_root {key}.
Arguments ca_issued {key}.
Arguments ca_revoked {key}.

Definition Hour : Duration := (60 * Minute)%Z.

Section Quickstart.
Context `{Platform} {key : Type} (net_ParseIP : string → option bytes).

(** Generates a self-signed root that lives as long as the process. *)
Definition newDevCA (am : ambient key) : Res (devCA key) :=
  try k := am_GenerateKey am in
  let now := am_now am in
  let template :=
    mkCertTemplate 1 "go-acme-server quickstart root" (now - Hour) (now + 30 * 24 * Hour) true true
      (Z.lor KeyUsageCertSign KeyUsageCRLSign) [] [] [] in
  try der := am_CreateCertificate am template None k k in
  try root := x509_ParseCertificate der in
  Ok (mkDevCA k root ∅ ∅).

(** The names of a leaf, or [None] for an identifier the example does not sign. *)
Fixpoint leafNames (ids : list Identifier) (leaf : certTemplate) : option certTemplate :=
  match ids with
  | [] => Some leaf
  | id :: ids =>
      if (id_Type id == IdentifierDNS)
      then leafNames ids {| leaf with ct_DNSNames := ct_DNSNames leaf ++ [id_Value id] |}
      else if (id_Type id == IdentifierIP)
      then leafNames ids {| leaf with ct_IPAddresses := ct_IPAddresses leaf ++ [net_ParseIP (id_Value id)] |}
      else None
  end.

(** The validity of a leaf, inside what the order asked for. *)
Definition leafTemplate (req : IssueRequest) (serial : Z) (now : Time) : certTemplate :=
  let notBefore := if negb (IsZero (iq_NotBefore req)) then iq_NotBefore req else (now - Minute)%Z in
  let notAfter := (now + 24 * Hour)%Z in
  let notAfter := if negb (IsZero (iq_NotAfter req)) && Before (iq_NotAfter req) notAfter
                  then iq_NotAfter req else notAfter in
  mkCertTemplate serial "" notBefore notAfter false false KeyUsageDigitalSignature [ExtKeyUsageServerAuth] [] [].

Definition rejected (typ : ErrorType) (detail : string) : IssueResult :=
  mkIssueResult [] "" false 0 (Some (NewProblem typ detail)).

Definition emptyResult : IssueResult := mkIssueResult [] "" false 0 None.

(** Signs one certificate per operation ID and returns the same chain on every retry. *)
Definition devCA_Issue (ca : devCA key) (req : IssueRequest) (am : ambient key) : IssueResult * option error * devCA key :=
  let chain der := mkIssueResult [der; x_Raw (ca_root ca)] "" false 0 None in
  match ca_issued ca !! iq_OperationID req with
  | Some der => (chain der, None, ca)
  | None =>
      if iq_RecoveryOnly req || negb (After (iq_Deadline req) (am_now am))
      then (rejected ErrorUnauthorized "the signing deadline has passed", None, ca)
      else match am_serial am with
      | Err err => (emptyResult, Some err, ca)
      | Ok serial =>
          match leafNames (iq_Identifiers req) (leafTemplate req serial (TruncateSecond (am_later am))) with
          | None => (rejected ErrorRejectedIdentifier "unsupported identifier type", None, ca)
          | Some leaf =>
              match composite_ParsePKIXPublicKey (csr_RawSubjectPublicKeyInfo (iq_CSR req)) with
              | Err err => (emptyResult, Some err, ca)
              | Ok pub =>
                  match am_CreateLeaf am leaf (ca_root ca) pub (ca_key ca) with
                  | Err err => (emptyResult, Some err, ca)
                  | Ok der => (chain der, None, {| ca with ca_issued := <[iq_OperationID req := der]> (ca_issued ca) |})
                  end
              end
          end
      end
  end.

(** Records the revocation. *)
Definition devCA_Revoke (ca : devCA key) (req : RevokeRequest) : option error * devCA key :=
  (None, {| ca with ca_revoked := <[rq_OperationID req := true]> (ca_revoked ca) |}).

(** Signs a TLS server certificate for localhost: the chain and its key. *)
Definition serverCertificate (ca : devCA key) (am : ambient key) : Res (list bytes * key) :=
  try k := am_GenerateKey am in
  let now := am_now am in
  let template :=
    mkCertTemplate 2 "" (now - Minute) (now + 30 * 24 * Hour) false false KeyUsageDigitalSignature [ExtKeyUsageServerAuth]
      ["localhost"] [net_ParseIP "127.0.0.1"; net_ParseIP "::1"] in
  try der := am_CreateCertificate am template (Some (ca_root ca)) k (ca_key ca) in
  Ok ([der; x_Raw (ca_root ca)], k).

End Quickstart.

(** ** The resolver and the configuration *)

Definition quickstartName : string := "quickstart.example.test".

(** [strings.TrimSuffix]. *)
Definition TrimSuffix (s suffix : string) : string :=
  let n := (String.length s - String.length suffix)%nat in
  if (String.length suffix <=? String.length s)%nat && (String.substring n (String.length suffix) s == suffix)
  then String.substring 0 n s else s.

(** Resolves quickstart.example.test to 127.0.0.1 and refuses every other name. *)
Definition LookupNetIP (host : string) : Res (list Addr) :=
  if (TrimSuffix host "." != quickstartName) then Err (ErrMsg ("unknown host " +:+ host))
  else Ok (if ParseAddr "127.0.0.1" is Some a then [a] else []).

(** The options of the validator and the configuration of the server [run] creates. *)
Definition quickstartHTTP01 : HTTPOptions :=
  mkHTTPOptions (mkNetworkOptions true [pfx4 [127; 0; 0; 0]%Z 8] 0 0) 5002 0 0.

Definition quickstartConfig : Config :=
  mkConfig "https://localhost:4000/acme/" false true true (mkDirectoryMeta "" "" [] false) 0 true true [] false false
    {[ ChallengeHTTP01 := Some PlainValidator ]} false false false false false false false false false
    false "" 0 0 0 0 0 [] "" true (mkWorkerConfig 0 0 0 0 0 0 0 false).

(** The readiness probe: the status and the body. *)
Definition healthz `{Platform} (s : Server) (ctx : Context) : Prog (Z * string) :=
  err ← Ready s ctx;
  mret match err with
       | Some err => (503%Z, error_Error err +:+ bytes_string [x0a])
       | None => (204%Z, "")
       end.

(** ** The promises of a CA *)

Section Promises.
Context `{Platform} {key : Type} (net_ParseIP : string → option bytes).

Inductive caCall : Type :=
| CallIssue (req : IssueRequest) (am : ambient key)
| CallRevoke (req : RevokeRequest).

(** The results of a sequence of calls, with the operation each is for. *)
Fixpoint caCalls (ca : devCA key) (calls : list caCall) : list (string * IssueResult) * devCA key :=
  match calls with
  | [] => ([], ca)
  | CallIssue req am :: calls =>
      let '(result, _, ca) := devCA_Issue net_ParseIP ca req am in
      let '(results, ca) := caCalls ca calls in
      ((iq_OperationID req, result) :: results, ca)
  | CallRevoke req :: calls => caCalls (devCA_Revoke ca req).2 calls
  end.

(** A chain is the recorded certificate of the operation, and stays so. *)
Lemma Issue_recorded (ca ca' : devCA key) req am result err :
  devCA_Issue net_ParseIP ca req am = (result, err, ca') →
  ca_issued ca ⊆ ca_issued ca' ∧ ca_root ca' = ca_root ca ∧
  (ir_Chain result ≠ [] → ∃ der, ca_issued ca' !! iq_OperationID req = Some der ∧ ir_Chain result = [der; x_Raw (ca_root ca)]).
Proof.
  unfold devCA_Issue. destruct (ca_issued ca !! iq_OperationID req) as [der|] eqn:Hissued.
  { intros [= <- <- <-]. split_and!; [done|done|]. intros _. by exists der. }
  repeat (case_match; try (intros [= <- <- <-]; by split_and!)). intros [= <- <- <-]. simpl.
  split_and!; [by apply insert_subseteq|done|]. intros _. eexists. by rewrite lookup_insert_eq.
Qed.

Lemma caCalls_recorded (ca : devCA key) calls :
  ca_issued ca ⊆ ca_issued (caCalls ca calls).2 ∧
  Forall (λ '(op, result), ir_Chain result ≠ [] →
    ∃ der, ca_issued (caCalls ca calls).2 !! op = Some der ∧ ir_Chain result = [der; x_Raw (ca_root ca)]) (caCalls ca calls).1.
Proof.
  revert ca. induction calls as [|[req am|req] calls IH]; intros ca; [by split| |].
  - simpl. destruct (devCA_Issue net_ParseIP ca req am) as [[result err] ca'] eqn:Hissue.
    apply Issue_recorded in Hissue as (Hsub & Hroot & Hchain). specialize (IH ca').
    destruct (caCalls ca' calls) as [results ca'']. simpl in *. destruct IH as [Hsub' Hall]. rewrite <- Hroot in *.
    split; [by etrans|]. constructor; [|done]. intros Hne. destruct (Hchain Hne) as (der & Hder & Heq).
    exists der. split; [|done]. by eapply lookup_weaken.
  - simpl. apply (IH (devCA_Revoke ca req).2).
Qed.

(** In any sequence of calls all chains for one operation are the same, so a retry never signs twice. *)
Theorem devCA_one_certificate (ca : devCA key) calls op r1 r2 :
  (op, r1) ∈ (caCalls ca calls).1 → (op, r2) ∈ (caCalls ca calls).1 → ir_Chain r1 ≠ [] → ir_Chain r2 ≠ [] →
  ir_Chain r1 = ir_Chain r2.
Proof.
  intros H1 H2 Hne1 Hne2. pose proof (proj2 (caCalls_recorded ca calls)) as Hall. rewrite Forall_forall in Hall.
  destruct (Hall _ H1 Hne1) as (d1 & Hd1 & ->). destruct (Hall _ H2 Hne2) as (d2 & Hd2 & ->). congruence.
Qed.

(** After the deadline, or to recover an earlier attempt, nothing new is signed. *)
Theorem devCA_no_late_signing (ca : devCA key) req am :
  iq_RecoveryOnly req = true ∨ (iq_Deadline req ≤ am_now am)%Z → (devCA_Issue net_ParseIP ca req am).2 = ca.
Proof.
  intros Hlate. unfold devCA_Issue. case_match; [done|].
  assert (iq_RecoveryOnly req || negb (After (iq_Deadline req) (am_now am)) = true) as ->; [|done].
  destruct Hlate as [-> |Hlate]; [done|]. apply orb_true_iff. right. apply negb_true_iff, After_false. lia.
Qed.

End Promises.

(** The validator options are accepted, the name resolves to an address the validator may connect to
    and the configuration is accepted, when the base URL parses as it reads. *)
Theorem quickstart_starts `{Platform} :
  url_Parse "https://localhost:4000/acme/" = Ok (mkURL "https" "" false "localhost:4000" "/acme/" "/acme/" "" "" "") →
  (∃ v a, NewHTTP01 quickstartHTTP01 = Ok v ∧ LookupNetIP (quickstartName +:+ ".") = Ok [a] ∧ permits (h01_network v) (Some a) = true) ∧
  ∃ s, Server.New quickstartConfig = Ok s.
Proof.
  intros Hurl. split.
  - eexists _, _. split_and!; [reflexivity|reflexivity|reflexivity].
  - unfold Server.New, normalizeBaseURL. cbn [quickstartConfig cfg_BaseURL]. rewrite Hurl. eexists. reflexivity.
Qed.
