(* ===== verification/ProblemProps.v ===== *)
(** * Problem documents (src/problem.go)

    Decoding a problem document gives back what was encoded. *)

From S2P Require Import Prelude Status Problem Resource Prog Host Platform Identifier Wire.

(** ** Decoding *)

Definition knownErrors : list ErrorType :=
  [ErrorAccountDoesNotExist; ErrorAlreadyReplaced; ErrorAlreadyRevoked; ErrorBadCSR; ErrorBadNonce;
   ErrorBadPublicKey; ErrorBadRevocationReason; ErrorBadSignatureAlgorithm; ErrorCAA; ErrorCompound;
   ErrorConnection; ErrorDNS; ErrorDNSSEC; ErrorExternalAccountRequired; ErrorIncorrectResponse;
   ErrorInvalidContact; ErrorInvalidProfile; ErrorMalformed; ErrorOrderNotReady; ErrorRateLimited;
   ErrorRejectedIdentifier; ErrorServerInternal; ErrorTLS; ErrorUnauthorized; ErrorUnsupportedContact;
   ErrorUnsupportedIdentifier; ErrorUserActionRequired].

(** [ErrorType(s)]. *)
Definition ErrorTypeOf (s : string) : ErrorType :=
  default (ErrorTypeOther s) (head (filter (λ t, ErrorType_string t = s) knownErrors)).

Definition typeOf (urn : string) : ErrorType := ErrorTypeOf (TrimPrefix ProblemNamespace urn).

(** An entry of the subproblems array; members it does not have are zero. *)
Definition subproblemFrom (sub : subproblemJSON) : Problem :=
  mkProblem (typeOf (sj_Type sub)) (sj_Detail sub) 0 (sj_Identifier sub) [] [] 0.

(** Reads a problem document and strips the ACME namespace from its types. *)
Definition problemFrom (doc : problemJSON) : Problem :=
  mkProblem (typeOf (pj_Type doc)) (pj_Detail doc) (pj_Status doc) (pj_Identifier doc)
    (map (λ sub, Some (subproblemFrom sub)) (pj_Subproblems doc)) (pj_Algorithms doc) 0.

(** ** The round trip *)

Lemma ErrorTypeOf_string t : ErrorType_string (ErrorTypeOf (ErrorType_string t)) = ErrorType_string t.
Proof.
  unfold ErrorTypeOf. destruct (head _) as [t'|] eqn:Hhead; [|done]. simpl.
  apply head_Some_elem_of, list_elem_of_filter in Hhead. by destruct Hhead.
Qed.

Lemma substring_full s : String.substring 0 (String.length s) s = s.
Proof. induction s as [|c s IH]; [done|]. by apply (f_equal (String c)). Qed.

Lemma TrimPrefix_prefixed prefix s : TrimPrefix prefix (prefix +:+ s) = s.
Proof.
  unfold TrimPrefix, HasPrefix, tail_from.
  assert (String.prefix prefix (prefix +:+ s) = true) as ->.
  { induction prefix as [|c p IH]; [by destruct s|]. simpl. by destruct (Ascii.ascii_dec c c). }
  induction prefix as [|c p IH]; [simpl; rewrite Nat.sub_0_r; apply substring_full|]. exact IH.
Qed.

Lemma typeOf_URN t : URN (typeOf (URN t)) = URN t.
Proof. unfold typeOf, URN. by rewrite TrimPrefix_prefixed, ErrorTypeOf_string. Qed.

Lemma HTTPStatus_nonzero p : HTTPStatus p ≠ 0%Z.
Proof.
  unfold HTTPStatus. destruct (p_Status p != 0%Z) eqn:Hs; [by go_bool|]. by destruct (p_Type p).
Qed.

(** The document of a decoded problem is the document it was decoded from: types, details,
    identifiers, algorithms and the status survive, and only entries that are nil are dropped. *)
Theorem problem_roundtrip p : problemObject (problemFrom (problemObject p)) = problemObject p.
Proof.
  unfold problemObject at 1. cbn [problemFrom p_Type p_Detail p_Identifier p_Subproblems p_Algorithms problemObject
    pj_Type pj_Detail pj_Status pj_Identifier pj_Subproblems pj_Algorithms]. rewrite typeOf_URN.
  unfold HTTPStatus at 1. cbn [p_Status]. rewrite (proj2 (negb_bool_decide_true _) (HTTPStatus_nonzero p)).
  unfold problemObject. f_equal. induction (omap id (p_Subproblems p)) as [|sub subs IH]; [done|]. cbn. rewrite IH. f_equal.
  unfold subproblemOf. cbn. by rewrite typeOf_URN.
Qed.
