(* ===== verification/Sqldb.v ===== *)
(** * The database of the SQLite store (src/test/interop/sqlitestore)

    The tables of the schema, the statements of queries.go with the meaning SQL gives them, and the
    connection they run on. A statement takes its bound values as arguments and names the columns
    it returns in its type; a statement that violates a constraint changes nothing and returns the
    extended result code of the violation. The encoding of the [data] columns by [encoding/gob] is
    a parameter. *)

From S2P Require Import Prelude Status Problem Resource Base64 Netip StoreSpec Prog Host Platform Identifier.

(** ** Errors *)

(** The errors of the store's methods: [sql.ErrNoRows], a [*sqlite.Error] with its code, and every
    other error. *)
Inductive sqlError : Type :=
| SqlNoRows
| SqliteError (code : Z)
| SqlError (err : error).

Notation SqlRes := (result sqlError) (only parsing).

(** ** Encoded resources *)

(** Holds the account key as portable DER instead of an interface-valued cryptographic object. *)
Record storedAccount : Type := mkStoredAccount {
  sa_Account : Account;
  sa_Key : bytes
}.

(** The structs the store hands to [gob.Encoder]. *)
Inductive gobValue : Type :=
| GobAccount (stored : storedAccount)
| GobOrder (order : Order)
| GobAuthorization (authz : Authorization)
| GobChallenge (challenge : Challenge)
| GobCertificate (cert : Certificate)
| GobTask (task : Task).

(** [encoding/gob] with its byte streams, and [x509.ParsePKIXPublicKey]. *)
Class Gob : Type := {
  blob : Type;
  gob_Encode : gobValue → Res blob;
  gob_Decode : blob → Res gobValue;
  x509_ParsePKIXPublicKey : bytes → Res PublicKey
}.

(** The nil interface of a key. *)
Definition nilKey : PublicKey := KeyOther "".

(** Values [encoding/gob] permits. A nil element of a slice of pointers has no encoding, so all
    subproblems are present, and the key is no interface value. A nil pointer field is omitted. *)
Fixpoint plainProblem (p : Problem) : bool :=
  match p with
  | mkProblem _ _ _ _ subproblems _ _ =>
      forallb (λ sub, match sub with Some sub => plainProblem sub | None => false end) subproblems
  end.
Definition plainError (p : option Problem) : bool := match p with Some p => plainProblem p | None => true end.
Definition plainOrder (o : Order) : bool :=
  plainError (ord_Error o) && plainError (ord_UnpublishedResult o ≫= ir_Rejected).
Definition plainChallenge (c : Challenge) : bool := plainError (ch_Error c).

Definition plainValue (v : gobValue) : bool :=
  match v with
  | GobAccount stored => acct_Key (sa_Account stored) == nilKey
  | GobOrder order => plainOrder order
  | GobChallenge challenge => plainChallenge challenge
  | GobAuthorization _ | GobCertificate _ | GobTask _ => true
  end.

(** What the package documents: a struct of exported fields whose pointers have values is encoded,
    and decodes to what was encoded. *)
Class GobLaws `{Gob} : Prop := {
  gob_roundtrip v : plainValue v = true → ∃ d, gob_Encode v = Ok d ∧ gob_Decode d = Ok v
}.

(** A key that comes back from its encoding. *)
Definition portable `{Platform} `{Gob} (key : PublicKey) : bool :=
  match x509_MarshalPKIXPublicKey key with
  | Ok der => match x509_ParsePKIXPublicKey der with Ok key' => key' == key | Err _ => false end
  | Err _ => false
  end.

(** ** Tables *)

Section Tables.
Context `{Gob}.

Record accountRow : Type := mkAccountRow {
  ar_id : string;
  ar_revision : Z;
  ar_key_thumbprint : string;
  ar_external_claim : option string;
  ar_data : blob
}.

Record orderRow : Type := mkOrderRow {
  or_sequence : Z;
  or_id : string;
  or_account_id : string;
  or_revision : Z;
  or_data : blob
}.

Record authorizationRow : Type := mkAuthorizationRow {
  zr_id : string;
  zr_account_id : string;
  zr_order_id : string;
  zr_scope : string;
  zr_status : string;
  zr_expires : Z;
  zr_revision : Z;
  zr_data : blob
}.

Record challengeRow : Type := mkChallengeRow {
  hr_id : string;
  hr_authorization_id : string;
  hr_revision : Z;
  hr_data : blob
}.

Record certificateRow : Type := mkCertificateRow {
  cr_id : string;
  cr_order_id : string;
  cr_renewal_id : option string;
  cr_revision : Z;
  cr_data : blob
}.

Record taskRow : Type := mkTaskRow {
  tr_sequence : Z;
  tr_id : string;
  tr_kind : string;
  tr_account_id : string;
  tr_run_at : Z;
  tr_lease_until : Z;
  tr_fence : Z;
  tr_attempts : Z;
  tr_data : blob
}.

(** The rows of each table, and the largest sequence an AUTOINCREMENT column has used. *)
Record Tables : Type := mkTables {
  t_accounts : list accountRow;
  t_orders : list orderRow;
  t_ordersSequence : Z;
  t_authorizations : list authorizationRow;
  t_challenges : list challengeRow;
  t_certificates : list certificateRow;
  t_tasks : list taskRow;
  t_tasksSequence : Z
}.

(** The tables after the schema ran on a new file. *)
Definition Tables_empty : Tables := mkTables [] [] 0 [] [] [] [] 0.

(** Rows with an [id] column, which is unique in its table. *)
Class Row (R : Type) : Type := row_id : R → string.

#[export] Instance accountRow_id : Row accountRow := ar_id.
#[export] Instance orderRow_id : Row orderRow := or_id.
#[export] Instance authorizationRow_id : Row authorizationRow := zr_id.
#[export] Instance challengeRow_id : Row challengeRow := hr_id.
#[export] Instance certificateRow_id : Row certificateRow := cr_id.
#[export] Instance taskRow_id : Row taskRow := tr_id.

(** [WHERE id = ?]. *)
Definition row_of {R} `{Row R} (id : string) (rows : list R) : option R :=
  head (filter (λ r, row_id r = id) rows).
Definition has_row {R} `{Row R} (id : string) (rows : list R) : bool :=
  if row_of id rows is Some _ then true else false.
Definition update_row {R} `{Row R} (id : string) (f : R → R) (rows : list R) : list R :=
  map (λ r, if (row_id r == id) then f r else r) rows.

(** Rows other than [id] whose nullable column holds the value; NULLs are distinct. *)
Definition taken {R} `{Row R} (column : R → option string) (value : option string) (id : string) (rows : list R) : bool :=
  if value is Some _ then existsb (λ r, (row_id r != id) && (column r == value)) rows else false.

(** [ORDER BY key]. *)
Definition order_by {R} (key : R → R → Prop) `{∀ r s, Decision (key r s)} (rows : list R) : list R :=
  merge_sort key rows.

(** [LIMIT n], without a bound when it is negative. *)
Definition limit {R} (n : Z) (rows : list R) : list R :=
  if (n <? 0)%Z then rows else take (Z.to_nat n) rows.

Definition by_sequence (r s : orderRow) : Prop := (or_sequence r ≤ or_sequence s)%Z.
#[export] Instance by_sequence_dec r s : Decision (by_sequence r s) := _ : Decision (_ ≤ _)%Z.

(** [ORDER BY run_at, sequence]. *)
Definition by_run_at (r s : taskRow) : Prop :=
  (tr_run_at r < tr_run_at s)%Z ∨ (tr_run_at r = tr_run_at s ∧ (tr_sequence r ≤ tr_sequence s)%Z).
#[export] Instance by_run_at_dec r s : Decision (by_run_at r s) := _ : Decision (_ ∨ _).

(** ** Statements *)

(** The table names [read], [checkRevision] and [update] are called with. *)
Inductive tableName : Type :=
| accountsTable | ordersTable | authorizationsTable | challengesTable | certificatesTable | tasksTable.

Inductive statement : Type → Type :=
| InsertAccount (id : string) (revision : Z) (key_thumbprint : string) (external_claim : option string) (data : blob)
    : statement unit
| AccountByKeyData (key_thumbprint : string) : statement blob
| UpdateAccountKey (key_thumbprint : string) (external_claim : option string) (id : string) : statement unit
| InsertOrder (id account_id : string) (revision : Z) (data : blob) : statement unit
| InsertAuthorization (id account_id order_id scope status : string) (expires revision : Z) (data : blob) : statement unit
| InsertChallenge (id authorization_id : string) (revision : Z) (data : blob) : statement unit
| OrderCursor (id account_id : string) : statement Z
| AccountOrders (account_id : string) (sequence : Z) (n : Z) : statement (list string)
| AuthorizedScope (account_id scope status : string) (expires : Z) : statement Z
| UpdateAuthorizationIndex (scope status : string) (expires : Z) (id : string) : statement unit
| SelectClaim (run_at lease_until : Z) : statement (blob * Z * Z)
| UpdateClaim (fence attempts lease_until : Z) (data : blob) (id : string) : statement unit
| UpdateSchedule (run_at : Z) (data : blob) (id : string) : statement unit
| InsertCertificate (id order_id : string) (renewal_id : option string) (revision : Z) (data : blob) : statement unit
| CertificateByRenewal (renewal_id : string) : statement (string * Z * blob)
| CountPending (run_at lease_until : Z) : statement Z
| CountLeased (lease_until : Z) : statement Z
| CountValidations (account_id kind : string) : statement Z
| InsertTask (id kind account_id : string) (run_at : Z) (data : blob) : statement unit
| TaskFence (id : string) : statement Z
| DeleteTask (id : string) : statement unit
| SelectData (table : tableName) (id : string) : statement blob
| SelectRevision (table : tableName) (id : string) : statement Z
| UpdateData (table : tableName) (revision : Z) (data : blob) (id : string) : statement unit
| CreateSchema : statement unit.

(** Extended result codes. *)
Definition constraintPrimaryKey : sqlError := SqliteError 1555.
Definition constraintUnique : sqlError := SqliteError 2067.
Definition constraintForeignKey : sqlError := SqliteError 787.
Definition sequenceFull : sqlError := SqliteError 13.
Definition noSuchColumn : sqlError := SqliteError 1.

(** The error of package [driver] for a bound [uint64] that is no [int64]. *)
Definition highBitSet : sqlError := SqlError (ErrMsg "uint64 values with high bit set are not supported").

Definition found {X} (o : option X) : SqlRes X := match o with Some x => Ok x | None => Err SqlNoRows end.

Definition selectData (table : tableName) (id : string) (t : Tables) : option blob :=
  match table with
  | accountsTable => ar_data <$> row_of id (t_accounts t)
  | ordersTable => or_data <$> row_of id (t_orders t)
  | authorizationsTable => zr_data <$> row_of id (t_authorizations t)
  | challengesTable => hr_data <$> row_of id (t_challenges t)
  | certificatesTable => cr_data <$> row_of id (t_certificates t)
  | tasksTable => tr_data <$> row_of id (t_tasks t)
  end.

Definition selectRevision (table : tableName) (id : string) (t : Tables) : SqlRes Z :=
  match table with
  | accountsTable => found (ar_revision <$> row_of id (t_accounts t))
  | ordersTable => found (or_revision <$> row_of id (t_orders t))
  | authorizationsTable => found (zr_revision <$> row_of id (t_authorizations t))
  | challengesTable => found (hr_revision <$> row_of id (t_challenges t))
  | certificatesTable => found (cr_revision <$> row_of id (t_certificates t))
  | tasksTable => Err noSuchColumn
  end.

Definition updateData (table : tableName) (revision : Z) (data : blob) (id : string) (t : Tables) : SqlRes unit * Tables :=
  if (2 ^ 63 <=? revision)%Z then (Err highBitSet, t)
  else match table with
  | accountsTable =>
      (Ok tt, {| t with t_accounts :=
                   update_row id (λ r, {| r with ar_revision := revision; ar_data := data |}) (t_accounts t) |})
  | ordersTable =>
      (Ok tt, {| t with t_orders :=
                   update_row id (λ r, {| r with or_revision := revision; or_data := data |}) (t_orders t) |})
  | authorizationsTable =>
      (Ok tt, {| t with t_authorizations :=
                   update_row id (λ r, {| r with zr_revision := revision; zr_data := data |}) (t_authorizations t) |})
  | challengesTable =>
      (Ok tt, {| t with t_challenges :=
                   update_row id (λ r, {| r with hr_revision := revision; hr_data := data |}) (t_challenges t) |})
  | certificatesTable =>
      (Ok tt, {| t with t_certificates :=
                   update_row id (λ r, {| r with cr_revision := revision; cr_data := data |}) (t_certificates t) |})
  | tasksTable => (Err noSuchColumn, t)
  end.

(** The columns [key_thumbprint UNIQUE NOT NULL] and [external_claim UNIQUE], for a row [id]. *)
Definition accountConflict (key_thumbprint : string) (external_claim : option string) (id : string)
    (rows : list accountRow) : bool :=
  taken (λ r, Some (ar_key_thumbprint r)) (Some key_thumbprint) id rows || taken ar_external_claim external_claim id rows.

Definition claimable (run_at lease_until : Z) (r : taskRow) : bool :=
  (tr_run_at r <=? run_at)%Z && (tr_lease_until r <=? lease_until)%Z.

Definition count {R} (p : R → bool) (rows : list R) : Z := Z.of_nat (length (filter (λ r, p r = true) rows)).

Definition statement_exec {X} (s : statement X) (t : Tables) : SqlRes X * Tables :=
  match s with
  | InsertAccount id revision key_thumbprint external_claim data =>
      if has_row id (t_accounts t) then (Err constraintPrimaryKey, t)
      else if accountConflict key_thumbprint external_claim id (t_accounts t) then (Err constraintUnique, t)
      else (Ok tt, {| t with t_accounts :=
              t_accounts t ++ [mkAccountRow id revision key_thumbprint external_claim data] |})
  | AccountByKeyData key_thumbprint =>
      (found (ar_data <$> head (filter (λ r, ar_key_thumbprint r = key_thumbprint) (t_accounts t))), t)
  | UpdateAccountKey key_thumbprint external_claim id =>
      if has_row id (t_accounts t) && accountConflict key_thumbprint external_claim id (t_accounts t)
      then (Err constraintUnique, t)
      else (Ok tt, {| t with t_accounts :=
              update_row id (λ r, {| r with ar_key_thumbprint := key_thumbprint; ar_external_claim := external_claim |})
                (t_accounts t) |})
  | InsertOrder id account_id revision data =>
      if (2 ^ 63 - 1 <=? t_ordersSequence t)%Z then (Err sequenceFull, t)
      else if has_row id (t_orders t) then (Err constraintUnique, t)
      else if negb (has_row account_id (t_accounts t)) then (Err constraintForeignKey, t)
      else let sequence := (t_ordersSequence t + 1)%Z in
           (Ok tt, {| t with t_orders := t_orders t ++ [mkOrderRow sequence id account_id revision data];
                             t_ordersSequence := sequence |})
  | InsertAuthorization id account_id order_id scope status expires revision data =>
      if has_row id (t_authorizations t) then (Err constraintPrimaryKey, t)
      else if negb (has_row account_id (t_accounts t)) || negb (has_row order_id (t_orders t))
      then (Err constraintForeignKey, t)
      else (Ok tt, {| t with t_authorizations := t_authorizations t ++
              [mkAuthorizationRow id account_id order_id scope status expires revision data] |})
  | InsertChallenge id authorization_id revision data =>
      if has_row id (t_challenges t) then (Err constraintPrimaryKey, t)
      else if negb (has_row authorization_id (t_authorizations t)) then (Err constraintForeignKey, t)
      else (Ok tt, {| t with t_challenges :=
              t_challenges t ++ [mkChallengeRow id authorization_id revision data] |})
  | OrderCursor id account_id =>
      (found (or_sequence <$> head (filter (λ r, or_id r = id ∧ or_account_id r = account_id) (t_orders t))), t)
  | AccountOrders account_id sequence n =>
      (Ok (map or_id (limit n (order_by by_sequence
             (filter (λ r, or_account_id r = account_id ∧ (sequence < or_sequence r)%Z) (t_orders t))))), t)
  | AuthorizedScope account_id scope status expires =>
      (found ((λ _, 1%Z) <$> head (filter (λ r, zr_account_id r = account_id ∧ zr_scope r = scope ∧
                                              zr_status r = status ∧ (expires < zr_expires r)%Z) (t_authorizations t))), t)
  | UpdateAuthorizationIndex scope status expires id =>
      (Ok tt, {| t with t_authorizations :=
         update_row id (λ r, {| r with zr_scope := scope; zr_status := status; zr_expires := expires |})
           (t_authorizations t) |})
  | SelectClaim run_at lease_until =>
      (found ((λ r, (tr_data r, tr_fence r, tr_attempts r)) <$>
              head (order_by by_run_at (filter (λ r, claimable run_at lease_until r = true) (t_tasks t)))), t)
  | UpdateClaim fence attempts lease_until data id =>
      if (2 ^ 63 <=? fence)%Z then (Err highBitSet, t)
      else (Ok tt, {| t with t_tasks :=
              update_row id (λ r, {| r with tr_fence := fence; tr_attempts := attempts;
                                            tr_lease_until := lease_until; tr_data := data |}) (t_tasks t) |})
  | UpdateSchedule run_at data id =>
      (Ok tt, {| t with t_tasks :=
         update_row id (λ r, {| r with tr_run_at := run_at; tr_lease_until := 0%Z; tr_data := data |}) (t_tasks t) |})
  | InsertCertificate id order_id renewal_id revision data =>
      if has_row id (t_certificates t) then (Err constraintPrimaryKey, t)
      else if taken cr_renewal_id renewal_id id (t_certificates t) then (Err constraintUnique, t)
      else if negb (has_row order_id (t_orders t)) then (Err constraintForeignKey, t)
      else (Ok tt, {| t with t_certificates :=
              t_certificates t ++ [mkCertificateRow id order_id renewal_id revision data] |})
  | CertificateByRenewal renewal_id =>
      (found ((λ r, (cr_id r, cr_revision r, cr_data r)) <$>
              head (filter (λ r, cr_renewal_id r = Some renewal_id) (t_certificates t))), t)
  | CountPending run_at lease_until => (Ok (count (claimable run_at lease_until) (t_tasks t)), t)
  | CountLeased lease_until => (Ok (count (λ r, (lease_until <? tr_lease_until r)%Z) (t_tasks t)), t)
  | CountValidations account_id kind =>
      (Ok (count (λ r, (tr_account_id r == account_id) && (tr_kind r == kind)) (t_tasks t)), t)
  | InsertTask id kind account_id run_at data =>
      if (2 ^ 63 - 1 <=? t_tasksSequence t)%Z then (Err sequenceFull, t)
      else if has_row id (t_tasks t) then (Err constraintUnique, t)
      else let sequence := (t_tasksSequence t + 1)%Z in
           (Ok tt, {| t with t_tasks := t_tasks t ++ [mkTaskRow sequence id kind account_id run_at 0 0 0 data];
                             t_tasksSequence := sequence |})
  | TaskFence id => (found (tr_fence <$> row_of id (t_tasks t)), t)
  | DeleteTask id => (Ok tt, {| t with t_tasks := filter (λ r, tr_id r ≠ id) (t_tasks t) |})
  | SelectData table id => (found (selectData table id t), t)
  | SelectRevision table id => (selectRevision table id t, t)
  | UpdateData table revision data id => updateData table revision data id t
  | CreateSchema => (Ok tt, t)
  end.

(** Statements that need the write lock. *)
Definition writes {X} (s : statement X) : bool :=
  match s with
  | InsertAccount _ _ _ _ _ | UpdateAccountKey _ _ _ | InsertOrder _ _ _ _ | InsertAuthorization _ _ _ _ _ _ _ _
  | InsertChallenge _ _ _ _ | UpdateAuthorizationIndex _ _ _ _ | UpdateClaim _ _ _ _ _ | UpdateSchedule _ _ _
  | InsertCertificate _ _ _ _ _ | InsertTask _ _ _ _ _ | DeleteTask _ | UpdateData _ _ _ _ | CreateSchema => true
  | _ => false
  end.

(** ** Connections *)

(** The calls of [database/sql] the store makes: [OpenDB] is [sql.Open] with the DSN's path and
    pragmas, [Conn] takes the connection of the handle and [CloseConn] gives it back, [Exec] runs a
    statement on that connection and [Query] on the handle, outside a transaction. *)
Inductive sqlCall : Type → Type :=
| OpenDB (path : string) (pragmas : list string) : sqlCall (option sqlError)
| CloseDB : sqlCall (option sqlError)
| Conn : sqlCall (option sqlError)
| CloseConn : sqlCall unit
| Begin (immediate : bool) : sqlCall (option sqlError)
| Commit : sqlCall (option sqlError)
| Rollback : sqlCall unit
| Exec {X : Type} (s : statement X) : sqlCall (SqlRes X)
| Query {X : Type} (s : statement X) : sqlCall (SqlRes X).

(** The committed tables and the transaction that is open on the connection: an immediate one holds
    the write lock and its own tables, a deferred one reads the tables it saw first and takes the
    lock when it writes. *)
Inductive transactionState : Type :=
| Deferred
| Reading (t : Tables)
| Writing (t : Tables).

Record DB : Type := mkDB {
  db_tables : Tables;
  db_transaction : option transactionState
}.

(** The tables a statement on the connection sees. *)
Definition visible (d : DB) : Tables :=
  match db_transaction d with
  | Some (Reading t) | Some (Writing t) => t
  | _ => db_tables d
  end.

Definition exec_statement {X} (s : statement X) (d : DB) : SqlRes X * DB :=
  let (r, t) := statement_exec s (visible d) in
  (r, match db_transaction d with
      | None => {| d with db_tables := t |}
      | Some (Writing _) => {| d with db_transaction := Some (Writing t) |}
      | Some _ => {| d with db_transaction := Some (if writes s then Writing t else Reading t) |}
      end).

(** What a call does when no other connection uses the database and nothing fails but the context:
    a call on a context that has ended returns its error. The clean-up runs without it. *)
Definition sql_exec (ctx : Ctx) (X : Type) (c : sqlCall X) (d : DB) : X * DB :=
  match c with
  | OpenDB _ _ | CloseDB => (None, d)
  | Conn => (SqlError <$> ctx, d)
  | CloseConn => (tt, d)
  | Begin immediate =>
      if ctx is Some err then (Some (SqlError err), d)
      else (None, {| d with db_transaction := Some (if immediate then Writing (db_tables d) else Deferred) |})
  | Commit =>
      if ctx is Some err then (Some (SqlError err), d)
      else (None, mkDB (if db_transaction d is Some (Writing t) then t else db_tables d) None)
  | Rollback => (tt, {| d with db_transaction := None |})
  | Exec s => if ctx is Some err then (Err (SqlError err), d) else exec_statement s d
  | Query s =>
      if ctx is Some err then (Err (SqlError err), d)
      else let (r, t) := statement_exec s (db_tables d) in (r, {| d with db_tables := t |})
  end.

End Tables.
