(* ===== verification/Sqlitestore.v ===== *)
(** * The SQLite store (src/test/interop/sqlitestore)

    The methods of [sqlitestore.Store] as programs of the database calls they make. A record a Go
    caller passes by pointer and sees updated is part of the result, and the variables an operation
    of a transaction assigns are its value. *)

From S2P Require Import Prelude Status Problem Resource Base64 Netip StoreSpec Prog Host Platform Identifier Sqldb.

Section Sqlitestore.
Context `{Platform} `{Gob}.

(** A statement run through the [reader] interface or on the connection of a transaction. *)
Inductive onReader : Type → Type :=
| Run {X : Type} (s : statement X) : onReader (SqlRes X).

(** Code that calls the database, and code that runs statements on a connection or on the handle. *)
Notation Sql A := (prog sqlCall (result sqlError A)).
Notation Body A := (prog onReader (result sqlError A)).

Definition ok {E A} (x : A) : prog E (SqlRes A) := Ret (Ok x).
Definition fail {E A} (err : sqlError) : prog E (SqlRes A) := Ret (Err err).

(** [if err := p; err != nil { return err }]. *)
Definition sql_bind {E A B} (p : prog E (SqlRes A)) (f : A → prog E (SqlRes B)) : prog E (SqlRes B) :=
  r ← p;
  match r with
  | Ok x => f x
  | Err err => fail err
  end.

(** The statements of a program, run on the connection of a transaction or on the handle. *)
Fixpoint on {A} (reader : ∀ X, statement X → sqlCall (SqlRes X)) (p : prog onReader A) : prog sqlCall A :=
  match p with
  | Ret a => Ret a
  | Vis (Run s) k => Vis (reader _ s) (λ x, on reader (k x))
  end.

Notation "'let!' x := p 'in' k" := (sql_bind p (λ x, k))
  (at level 200, x pattern, p at level 100, k at level 200, right associativity).
Notation "'do!' p 'in' k" := (sql_bind p (λ _, k))
  (at level 200, p at level 100, k at level 200, right associativity).

Definition pureErr {E A} (r : Res A) : prog E (SqlRes A) :=
  match r with
  | Ok x => ok x
  | Err err => fail (SqlError err)
  end.

(** ** Errors, transactions and encodings (sqlite.go) *)

(** Maps absence and uniqueness violations to contract errors. *)
Definition storageError (err : sqlError) : sqlError :=
  match err with
  | SqlNoRows => SqlError ErrNotFound
  | SqliteError code => if (code =? 1555)%Z || (code =? 2067)%Z then SqlError ErrConflict else err
  | SqlError _ => err
  end.

(** Commits one consistent operation or rolls it back. The deferred ROLLBACK and the return of the
    connection run on every path after the BEGIN. *)
Definition transaction {A} (write : bool) (operation : Body A) : Sql A :=
  err ← call Conn;
  if err is Some err then fail (storageError err)
  else
    err ← call (Begin write);
    if err is Some err then call CloseConn ;; fail (storageError err)
    else
      r ← on (@Exec _) operation;
      match r with
      | Err err => call Rollback ;; call CloseConn ;; fail (storageError err)
      | Ok x =>
          err ← call Commit;
          call Rollback ;; call CloseConn ;;
          if err is Some err then fail (storageError err) else ok x
      end.

(** Opens a durable database with full synchronization, foreign keys and immediate write
    transactions. [absolute] is the result of [filepath.Abs]. *)
Definition Open (absolute : Res string) : Sql unit :=
  match absolute with
  | Err err => fail (SqlError err)
  | Ok path =>
      err ← call (OpenDB path ["journal_mode(WAL)"; "synchronous(FULL)"; "foreign_keys(ON)"; "busy_timeout(5000)"]);
      if err is Some err then fail err
      else
        r ← transaction true (call (Run CreateSchema));
        match r with
        | Err err => call CloseDB ;; fail err
        | Ok _ => ok tt
        end
  end.

Definition Close : Sql unit :=
  err ← call CloseDB;
  if err is Some err then fail err else ok tt.

(** The resources [encode] and [decode] take by pointer. *)
Class GobType (V : Type) : Type := {
  toGob : V → Res gobValue;
  fromGob : gobValue → Res V
}.

Definition gobMismatch {A} : Res A := Err (ErrMsg "gob: type mismatch").

#[export] Instance gob_account : GobType Account := {
  toGob account :=
    try key := x509_MarshalPKIXPublicKey (acct_Key account) in
    Ok (GobAccount (mkStoredAccount {| account with acct_Key := nilKey |} key));
  fromGob v :=
    if v is GobAccount stored then
      try key := x509_ParsePKIXPublicKey (sa_Key stored) in
      Ok {| (sa_Account stored) with acct_Key := key |}
    else gobMismatch
}.
#[export] Instance gob_order : GobType Order := {
  toGob order := Ok (GobOrder order);
  fromGob v := if v is GobOrder order then Ok order else gobMismatch
}.
#[export] Instance gob_authorization : GobType Authorization := {
  toGob authz := Ok (GobAuthorization authz);
  fromGob v := if v is GobAuthorization authz then Ok authz else gobMismatch
}.
#[export] Instance gob_challenge : GobType Challenge := {
  toGob challenge := Ok (GobChallenge challenge);
  fromGob v := if v is GobChallenge challenge then Ok challenge else gobMismatch
}.
#[export] Instance gob_certificate : GobType Certificate := {
  toGob cert := Ok (GobCertificate cert);
  fromGob v := if v is GobCertificate cert then Ok cert else gobMismatch
}.
#[export] Instance gob_task : GobType Task := {
  toGob task := Ok (GobTask task);
  fromGob v := if v is GobTask task then Ok task else gobMismatch
}.

(** Encodes a resource; the key of an account is encoded as DER. *)
Definition encode {V} `{GobType V} (value : V) : Res blob :=
  try v := toGob value in gob_Encode v.

Definition decode {V} `{GobType V} (data : blob) : Res V :=
  try v := gob_Decode data in fromGob v.

Definition run {X} (s : statement X) : Body X := call (Run s).

(** Code that reads through the database handle, outside a transaction. *)
Definition query {A} (p : Body A) : Sql A := on (@Query _) p.

(** [.Scan(...)] with its error passed through [storageError]. *)
Definition stored {E A} (p : prog E (SqlRes A)) : prog E (SqlRes A) :=
  r ← p;
  match r with
  | Ok x => ok x
  | Err err => fail (storageError err)
  end.

(** Loads an owned resource from a fixed internal table name. *)
Definition read {V} `{GobType V} (table : tableName) (id : string) : Body V :=
  let! data := stored (run (SelectData table id)) in
  pureErr (decode data).

(** Requires an existing resource at the caller's expected revision. *)
Definition checkRevision (table : tableName) (id : string) (revision : Z) : Body unit :=
  let! current := stored (run (SelectRevision table id)) in
  if (current != revision) then fail (SqlError ErrRevisionMismatch) else ok tt.

(** Inserts an encoded resource. *)
Definition insert {V} `{GobType V} (s : blob → statement unit) (value : V) : Body unit :=
  let! data := pureErr (encode value) in
  run (s data).

(** Updates the encoded resource after its revision was checked. *)
Definition update {V} `{GobType V} (table : tableName) (id : string) (revision : Z) (value : V) : Body unit :=
  do! checkRevision table id revision in
  let! data := pureErr (encode value) in
  run (UpdateData table (u64 (revision + 1)) data id).

(** A stable index value for the complete authorization scope. *)
Definition scope (identifier : Identifier) (wildcard : bool) : string :=
  let identifier := if wildcard then {| identifier with id_Value := "*." +:+ id_Value identifier |} else identifier in
  Identifier_String identifier.

(** The status kept in the revocation index. *)
Definition indexStatus (a : Authorization) : string :=
  if az_PreApproved a then "pre-approved" else AuthorizationStatus_string (az_Status a).

(** January 1 of 1970, and [UnixNano], an [int64] that wraps outside the years 1678 to 2262. *)
Definition unixEpoch : Time := (62135596800 * Second)%Z.
Definition UnixNano (t : Time) : Z := i64 (t - unixEpoch).

(** Encodes unset lease times as zero. *)
Definition timestamp (value : Time) : Z :=
  if IsZero value then 0%Z else UnixNano value.

(** The conversion [string(task.Kind)]. *)
Definition TaskKind_string (k : TaskKind) : string :=
  match k with
  | TaskValidate => "validate"
  | TaskIssue => "issue"
  | TaskKindOther s => s
  end.

(** ** Resources (resources.go) *)

(** Stores an empty claim as NULL. *)
Definition claim (value : string) : option string := if (value != "") then Some value else None.

(** The unique index value of a renewal identifier, NULL when the leaf has none. *)
Definition renewalKey (renewalID : string) : option string := if (renewalID == "") then None else Some renewalID.

Definition CreateAccount (account : Account) : Sql Account :=
  if (acct_ID account == "") || (acct_KeyThumbprint account == "") then
    fail (SqlError (ErrMsg "sqlitestore: account ID and thumbprint are required"))
  else
    let copyOf := {| account with acct_Revision := 1%Z |} in
    do! transaction true
      (insert (InsertAccount (acct_ID copyOf) 1 (acct_KeyThumbprint copyOf) (claim (acct_ExternalAccountClaim copyOf)))
         copyOf) in
    ok {| account with acct_Revision := 1%Z |}.

Definition GetAccount (id : string) : Sql Account := query (read accountsTable id).

Definition AccountByKey (thumbprint : string) : Sql Account :=
  let! data := stored (query (run (AccountByKeyData thumbprint))) in
  pureErr (decode data).

Definition UpdateAccount (account : Account) : Sql Account :=
  let copyOf := {| account with acct_Revision := u64 (acct_Revision account + 1) |} in
  do! transaction true
    (do! update accountsTable (acct_ID account) (acct_Revision account) copyOf in
     run (UpdateAccountKey (acct_KeyThumbprint account) (claim (acct_ExternalAccountClaim account)) (acct_ID account))) in
  ok {| account with acct_Revision := acct_Revision copyOf |}.

Definition saveOrder (order : Order) : Body unit :=
  let copyOf := {| order with ord_Revision := u64 (ord_Revision order + 1) |} in
  update ordersTable (ord_ID order) (ord_Revision order) copyOf.

Definition saveChallenge (challenge : Challenge) : Body unit :=
  let copyOf := {| challenge with ch_Revision := u64 (ch_Revision challenge + 1) |} in
  update challengesTable (ch_ID challenge) (ch_Revision challenge) copyOf.

(** Saves authorization state and its current proof-scope index together. *)
Definition saveAuthorization (a : Authorization) : Body unit :=
  let copyOf := {| a with az_Revision := u64 (az_Revision a + 1) |} in
  do! update authorizationsTable (az_ID a) (az_Revision a) copyOf in
  run (UpdateAuthorizationIndex (scope (az_Identifier a) (az_Wildcard a)) (indexStatus a) (timestamp (az_Expires a))
          (az_ID a)).

(** Marks the certificate the order replaces unless an order that is still live replaced it. *)
Definition claimReplacement (order : Order) : Body unit :=
  let! (id, revision, data) := stored (run (CertificateByRenewal (ord_Replaces order))) in
  let! cert := pureErr (decode data) in
  let next :=
    let cert := {| cert with crt_ReplacedByOrderID := ord_ID order; crt_Revision := u64 (revision + 1) |} in
    update certificatesTable (crt_ID cert) revision cert in
  if (crt_ReplacedByOrderID cert != "") then
    previous ← read (V := Order) ordersTable (crt_ReplacedByOrderID cert);
    match previous with
    | Err (SqlError err) => if IsNotFound err then next else fail (SqlError err)
    | Err err => fail err
    | Ok previous =>
        if (StatusAt previous (ord_CreatedAt order) != OrderInvalid) then fail (SqlError ErrAlreadyReplaced) else next
    end
  else next.

Fixpoint insertAuthorizations (authzs : list Authorization) : Body unit :=
  match authzs with
  | [] => ok tt
  | a :: authzs =>
      let copyOf := {| a with az_Revision := 1%Z |} in
      do! insert (InsertAuthorization (az_ID a) (az_AccountID a) (az_OrderID a) (scope (az_Identifier a) (az_Wildcard a))
                    (indexStatus a) (timestamp (az_Expires a)) 1) copyOf in
      insertAuthorizations authzs
  end.

Fixpoint insertChallenges (challenges : list Challenge) : Body unit :=
  match challenges with
  | [] => ok tt
  | ch :: challenges =>
      let copyOf := {| ch with ch_Revision := 1%Z |} in
      do! insert (InsertChallenge (ch_ID ch) (ch_AuthorizationID ch) 1) copyOf in
      insertChallenges challenges
  end.

Definition CreateOrder (order : Order) (authzs : list Authorization) (challenges : list Challenge)
    : Sql (Order * list Authorization * list Challenge) :=
  do! transaction true
    (let copyOf := {| order with ord_Revision := 1%Z |} in
     do! insert (InsertOrder (ord_ID order) (ord_AccountID order) 1) copyOf in
     do! (if (ord_Replaces order != "") then claimReplacement order else ok tt) in
     do! insertAuthorizations authzs in
     insertChallenges challenges) in
  ok ({| order with ord_Revision := 1%Z |}, map (λ a, {| a with az_Revision := 1%Z |}) authzs,
      map (λ ch, {| ch with ch_Revision := 1%Z |}) challenges).

Definition GetOrder (id : string) : Sql Order := query (read ordersTable id).

(** Lists account order IDs in insertion order with an account-bound cursor. *)
Definition OrderIDs (accountID after : string) (limit : Z) : Sql (list string) :=
  if (limit <=? 0)%Z then fail (SqlError (ErrMsg "sqlitestore: limit must be positive"))
  else
    transaction false
      (let! sequence := (if (after != "") then run (OrderCursor after accountID) else ok 0%Z) in
       run (AccountOrders accountID sequence limit)).

Definition GetAuthorization (id : string) : Sql Authorization := query (read authorizationsTable id).

(** Updates authorization state and invalidates any order that has not dispatched issuance. *)
Definition UpdateAuthorization (a : Authorization) : Sql Authorization :=
  do! transaction true
    (do! saveAuthorization a in
     if negb (AuthorizationStatus_Terminal (az_Status a)) then ok tt
     else
       let! order := read ordersTable (az_OrderID a) in
       if OrderStatus_Terminal (ord_Status order) || (ord_Issuance order != None) then ok tt
       else saveOrder {| order with ord_Status := OrderInvalid; ord_Error := Some InvalidAuthorizationProblem |}) in
  ok {| a with az_Revision := u64 (az_Revision a + 1) |}.

Fixpoint authorizedScopes (accountID : string) (identifiers : list Identifier) (now : Time) (allowed : bool) : Body bool :=
  match identifiers with
  | [] => ok allowed
  | id :: identifiers =>
      r ← run (AuthorizedScope accountID (scope id false) (AuthorizationStatus_string AuthorizationValid) (timestamp now));
      match r with
      | Err SqlNoRows => ok false
      | Err err => fail err
      | Ok _ => authorizedScopes accountID identifiers now allowed
      end
  end.

(** Checks all requested scopes in one consistent read transaction. *)
Definition AuthorizedFor (accountID : string) (identifiers : list Identifier) (now : Time) : Sql bool :=
  transaction false
    (r ← read (V := Account) accountsTable accountID;
     match r with
     | Err (SqlError err) => if IsNotFound err then ok false else fail (SqlError err)
     | Err err => fail err
     | Ok account =>
         if (acct_Status account != AccountValid) then ok false
         else authorizedScopes accountID identifiers now (0 <? len identifiers)%Z
     end).

Definition GetChallenge (id : string) : Sql Challenge := query (read challengesTable id).
Definition GetCertificate (id : string) : Sql Certificate := query (read certificatesTable id).

(** Loads the certificate carrying the RFC 9773 renewal identifier. *)
Definition CertificateByRenewalID (renewalID : string) : Sql Certificate :=
  if (renewalID == "") then fail (SqlError ErrNotFound)
  else
    let! (id, revision, data) := stored (query (run (CertificateByRenewal renewalID))) in
    pureErr (decode data).

Definition UpdateCertificate (cert : Certificate) : Sql Certificate :=
  let copyOf := {| cert with crt_Revision := u64 (crt_Revision cert + 1) |} in
  do! transaction true (update certificatesTable (crt_ID cert) (crt_Revision cert) copyOf) in
  ok {| cert with crt_Revision := u64 (crt_Revision cert + 1) |}.

(** ** Work (work.go) *)

(** Initializes task lease metadata without changing its identity or schedule. *)
Definition resetTask (task : Task) : Task :=
  {| task with task_Fence := 0%Z; task_Attempts := 0%Z; task_LeaseUntil := zeroTime |}.

Definition insertTask (task : Task) : Body unit :=
  let copyOf := resetTask task in
  insert (InsertTask (task_ID task) (TaskKind_string (task_Kind task)) (task_AccountID task) (timestamp (task_RunAt task)))
    copyOf.

(** Rejects stale workers after another process has reclaimed the lease. *)
Definition checkTask (task : Task) : Body unit :=
  let! fence := run (TaskFence (task_ID task)) in
  if (fence != task_Fence task) then fail (SqlError ErrRevisionMismatch) else ok tt.

Definition finishTask (task : Task) : Body unit :=
  do! checkTask task in
  run (DeleteTask (task_ID task)).

(** Stores [task.RunAt] and clears the lease of a task whose fence the caller checked. *)
Definition releaseTask (task : Task) : Body unit :=
  let! stored := read tasksTable (task_ID task) in
  let stored := {| stored with task_RunAt := task_RunAt task; task_LeaseUntil := zeroTime |} in
  let! data := pureErr (encode stored) in
  run (UpdateSchedule (timestamp (task_RunAt task)) data (task_ID task)).

Definition AcceptChallenge (challenge : Challenge) (task : Task) : Sql (Challenge * Task) :=
  do! transaction true (do! saveChallenge challenge in insertTask task) in
  ok ({| challenge with ch_Revision := u64 (ch_Revision challenge + 1) |}, resetTask task).

Definition FinalizeOrder (order : Order) (task : Task) : Sql (Order * Task) :=
  do! transaction true (do! saveOrder order in insertTask task) in
  ok ({| order with ord_Revision := u64 (ord_Revision order + 1) |}, resetTask task).

(** The loop of [BeginIssuance]; indexing past the end of [ids] panics. *)
Fixpoint checkAuthorizations (authorizedAt : Time) (authzs : list Authorization) (ids : list string) : Body unit :=
  match authzs, ids with
  | [], _ => ok tt
  | a :: authzs, ids =>
      do! checkRevision authorizationsTable (az_ID a) (az_Revision a) in
      match ids with
      | [] => fail (SqlError ErrPanic)
      | id :: ids =>
          if (az_ID a != id) || (az_Status a != AuthorizationValid) || negb (After (az_Expires a) authorizedAt)
          then fail (SqlError ErrRevisionMismatch)
          else checkAuthorizations authorizedAt authzs ids
      end
  end.

(** Persists the first dispatch only if the fenced authorization snapshot is still current. *)
Definition BeginIssuance (task : Task) (order : Order) (account : Account) (authzs : list Authorization) : Sql Order :=
  do! transaction true
    (do! checkTask task in
     do! checkRevision accountsTable (acct_ID account) (acct_Revision account) in
     let! currentAccount := read (V := Account) accountsTable (acct_ID account) in
     let! currentOrder := read (V := Order) ordersTable (ord_ID order) in
     if (acct_Status currentAccount != AccountValid) || (ord_Status currentOrder != OrderProcessing) ||
        (ord_Issuance currentOrder != None) || (ord_Issuance order == None) ||
        (length authzs != length (ord_AuthorizationIDs order))
     then fail (SqlError ErrRevisionMismatch)
     else
       do! checkAuthorizations (default zeroTime (is_AuthorizedAt <$> ord_Issuance order)) authzs
             (ord_AuthorizationIDs order) in
       saveOrder order) in
  ok {| order with ord_Revision := u64 (ord_Revision order + 1) |}.

(** Claims the earliest runnable task and advances its persistent fence under a write lock. *)
Definition ClaimTask (now leaseUntil : Time) : Sql Task :=
  transaction true
    (let! (data, fence, attempts) := run (SelectClaim (timestamp now) (timestamp now)) in
     let! task := pureErr (decode data) in
     let task := {| task with task_Fence := u64 (fence + 1); task_Attempts := i64 (attempts + 1);
                              task_LeaseUntil := leaseUntil |} in
     let! data := pureErr (encode task) in
     do! run (UpdateClaim (task_Fence task) (task_Attempts task) (timestamp leaseUntil) data (task_ID task)) in
     ok task).

Definition RescheduleTask (task : Task) : Sql Task :=
  do! transaction true (do! checkTask task in releaseTask task) in
  ok {| task with task_LeaseUntil := zeroTime |}.

Definition RetryValidation (task : Task) (challenge : Challenge) : Sql (Task * Challenge) :=
  do! transaction true
    (do! checkTask task in
     do! saveChallenge challenge in
     releaseTask task) in
  ok ({| task with task_LeaseUntil := zeroTime |}, {| challenge with ch_Revision := u64 (ch_Revision challenge + 1) |}).

Definition FinishTask (task : Task) : Sql unit := transaction true (finishTask task).

Definition CompleteValidation (task : Task) (challenge : Challenge) (authz : Authorization) (order : Order)
    : Sql (Challenge * Authorization * Order) :=
  do! transaction true
    (do! checkTask task in
     do! saveChallenge challenge in
     do! saveAuthorization authz in
     do! saveOrder order in
     finishTask task) in
  ok ({| challenge with ch_Revision := u64 (ch_Revision challenge + 1) |},
      {| authz with az_Revision := u64 (az_Revision authz + 1) |},
      {| order with ord_Revision := u64 (ord_Revision order + 1) |}).

(** Persists the issued certificate with the final order state. *)
Definition CompleteIssuance (task : Task) (order : Order) (cert : option Certificate) : Sql (Order * option Certificate) :=
  do! transaction true
    (do! checkTask task in
     do! match cert with
         | Some cert =>
             let copyOf := {| cert with crt_Revision := 1%Z |} in
             insert (InsertCertificate (crt_ID cert) (crt_OrderID cert) (renewalKey (crt_RenewalID cert)) 1) copyOf
         | None => ok tt
         end in
     do! saveOrder order in
     finishTask task) in
  ok ({| order with ord_Revision := u64 (ord_Revision order + 1) |}, (λ c, {| c with crt_Revision := 1%Z |}) <$> cert).

Definition PendingTasks (before : Time) : Sql Z := stored (query (run (CountPending (timestamp before) (timestamp before)))).
Definition LeasedTasks (now : Time) : Sql Z := stored (query (run (CountLeased (timestamp now)))).
Definition AccountValidations (accountID : string) : Sql Z :=
  stored (query (run (CountValidations accountID (TaskKind_string TaskValidate)))).

(** ** The store *)

(** The method a call of the interface runs. *)
Definition sqlite_method {X} (c : storeCall X) : Sql X :=
  match c with
  | CallCreateAccount account => CreateAccount account
  | CallAccount id => GetAccount id
  | CallAccountByKey thumbprint => AccountByKey thumbprint
  | CallUpdateAccount account => UpdateAccount account
  | CallCreateOrder order authzs challenges => CreateOrder order authzs challenges
  | CallOrder id => GetOrder id
  | CallOrderIDs accountID after limit => OrderIDs accountID after limit
  | CallAuthorization id => GetAuthorization id
  | CallUpdateAuthorization authz => UpdateAuthorization authz
  | CallAuthorizedFor accountID identifiers now => AuthorizedFor accountID identifiers now
  | CallChallenge id => GetChallenge id
  | CallCertificate id => GetCertificate id
  | CallCertificateByRenewalID renewalID => CertificateByRenewalID renewalID
  | CallUpdateCertificate cert => UpdateCertificate cert
  | CallAcceptChallenge challenge task => AcceptChallenge challenge task
  | CallFinalizeOrder order task => FinalizeOrder order task
  | CallBeginIssuance task order account authzs => BeginIssuance task order account authzs
  | CallClaimTask now leaseUntil => ClaimTask now leaseUntil
  | CallRescheduleTask task => RescheduleTask task
  | CallRetryValidation task challenge => RetryValidation task challenge
  | CallFinishTask task => FinishTask task
  | CallCompleteValidation task challenge authz order => CompleteValidation task challenge authz order
  | CallCompleteIssuance task order cert => CompleteIssuance task order cert
  | CallPendingTasks before => PendingTasks before
  | CallLeasedTasks now => LeasedTasks now
  | CallAccountValidations accountID => AccountValidations accountID
  end.

(** The errors of the database as errors of the store; only their kind matters to its callers. *)
Definition goError (err : sqlError) : error :=
  match err with
  | SqlNoRows => ErrMsg "sql: no rows in result set"
  | SqliteError code => ErrMsg "sqlite error"
  | SqlError err => err
  end.

Definition goResult {A} (r : result sqlError A) : Res A :=
  match r with
  | Ok x => Ok x
  | Err err => Err (goError err)
  end.

End Sqlitestore.

Notation Sql A := (prog sqlCall (result sqlError A)).
Notation Body A := (prog onReader (result sqlError A)).
Notation "'let!' x := p 'in' k" := (sql_bind p (λ x, k))
  (at level 200, x pattern, p at level 100, k at level 200, right associativity).
Notation "'do!' p 'in' k" := (sql_bind p (λ _, k))
  (at level 200, p at level 100, k at level 200, right associativity).
