(* ===== verification/SqliteRel.v ===== *)
(** * Tables and the abstract store

    Running the statements of an operation on the tables, lemmas on rows, the relation between the
    tables and the abstract store of StoreSpec.v, and the operations that the methods of the SQLite
    store share: each of them fails as the corresponding check of the contract does, or takes the
    tables to those of the updated store. *)

From S2P Require Import Prelude Status Problem Resource Base64 Netip StoreSpec Prog Host Platform Identifier Sqldb Sqlitestore.

(** ** Rows *)

Section rows.
Context {R : Type} `{Row R}.
Implicit Types (l : list R) (r : R) (id : string).

Lemma row_of_Some id l r : row_of id l = Some r → r ∈ l ∧ row_id r = id.
Proof.
  unfold row_of. intros Hh. assert (r ∈ filter (λ r, row_id r = id) l) as Hin by (by apply head_Some_elem_of).
  apply list_elem_of_filter in Hin. tauto.
Qed.

Lemma row_of_cons id r l : row_of id (r :: l) = if decide (row_id r = id) then Some r else row_of id l.
Proof. unfold row_of. rewrite filter_cons. by destruct (decide (row_id r = id)). Qed.

Lemma row_of_app id l k :
  row_of id (l ++ k) = match row_of id l with Some r => Some r | None => row_of id k end.
Proof.
  induction l as [|r l IH]; [done|]. rewrite <- app_comm_cons, !row_of_cons, IH. by destruct (decide _).
Qed.

Lemma row_of_elem l r : NoDup (map row_id l) → r ∈ l → row_of (row_id r) l = Some r.
Proof.
  induction l as [|s l IH]; simpl; [set_solver|]. intros [Hs Hl]%NoDup_cons Hin. rewrite row_of_cons.
  apply elem_of_cons in Hin as [->|Hin]; [by rewrite decide_True|].
  rewrite decide_False; [by apply IH|]. intros Heq. apply Hs. rewrite Heq. by apply (list_elem_of_fmap_2 row_id).
Qed.

Lemma row_of_None id l : row_of id l = None → id ∉ map row_id l.
Proof.
  intros Hn (r & -> & Hin)%list_elem_of_fmap. revert Hn. unfold row_of.
  destruct (filter _ l) as [|s k] eqn:E; [|done]. intros _.
  assert (r ∈ filter (λ r0, row_id r0 = row_id r) l) as Hf by (by apply list_elem_of_filter).
  rewrite E in Hf. by apply not_elem_of_nil in Hf.
Qed.

Lemma has_row_is_Some id l : has_row id l = bool_decide (is_Some (row_of id l)).
Proof. unfold has_row. by destruct (row_of id l). Qed.

Section update.
Context (f : R → R) (f_id : ∀ r, row_id (f r) = row_id r).

Lemma row_of_update id k l :
  row_of id (update_row k f l) = if decide (id = k) then f <$> row_of id l else row_of id l.
Proof.
  induction l as [|r l IH]; [by destruct (decide _)|].
  change (update_row k f (r :: l)) with ((if (row_id r == k) then f r else r) :: update_row k f l).
  rewrite !row_of_cons, IH. case_bool_decide as Hk.
  - rewrite f_id. destruct (decide (row_id r = id)) as [Hi|Hi]; [by rewrite decide_True by congruence|].
    rewrite decide_False by congruence. done.
  - destruct (decide (row_id r = id)) as [Hi|Hi]; [by rewrite decide_False by congruence|]. done.
Qed.

Lemma update_row_ids k l : map row_id (update_row k f l) = map row_id l.
Proof.
  unfold update_row. rewrite map_map. apply map_ext. intros r. case_bool_decide; [apply f_id|done].
Qed.

Lemma update_row_twice (g : R → R) k l : update_row k g (update_row k f l) = update_row k (λ r, g (f r)) l.
Proof.
  unfold update_row. rewrite map_map. apply map_ext. intros r.
  destruct (decide (row_id r = k)) as [Hk|Hk].
  - rewrite (bool_decide_true _ Hk), bool_decide_true; [done|]. by rewrite f_id.
  - by rewrite !(bool_decide_false _ Hk).
Qed.

Lemma existsb_update_row (q : R → bool) k l :
  (∀ r, q (f r) = q r) → existsb q (update_row k f l) = existsb q l.
Proof.
  intros Hq. induction l as [|r l IH]; [done|]. simpl. rewrite <- IH. by case_bool_decide; rewrite ?Hq.
Qed.

Lemma taken_update_row (column : R → option string) value id k l :
  (∀ r, column (f r) = column r) → taken column value id (update_row k f l) = taken column value id l.
Proof.
  intros Hc. unfold taken. destruct value; [|done]. apply existsb_update_row. intros r. by rewrite f_id, Hc.
Qed.

End update.

(** A column of a row whose [id] is new. *)
Lemma taken_fresh (column : R → option string) value id l :
  row_of id l = None →
  taken column value id l = (value != None) && existsb (λ r, column r == value) l.
Proof.
  intros Hn%row_of_None. unfold taken. destruct value as [v|]; [|done]. simpl.
  induction l as [|r l IH]; [done|]. simpl in *. apply not_elem_of_cons in Hn as [Hr Hl].
  rewrite IH by done. by rewrite (bool_decide_false (row_id r = id)) by congruence.
Qed.

(** ** Tables that hold the values of a map *)

Context {V : Type} (P : R → V → Prop).
Implicit Types (m : gmap string V) (v : V).

Record tab_rel l m : Prop := {
  tab_unique : NoDup (map row_id l);
  tab_rows id : option_Forall2 P (row_of id l) (m !! id)
}.

Lemma tab_rel_empty : tab_rel [] ∅.
Proof. split; [constructor|]. intros id. rewrite lookup_empty. constructor. Qed.

Context {l m} (T : tab_rel l m).

Lemma tab_Some id v : m !! id = Some v → ∃ r, row_of id l = Some r ∧ P r v.
Proof. intros Hv. destruct (tab_rows _ _ T id) as [r w HP|]; [|done]. simplify_eq. eauto. Qed.

Lemma tab_None id : m !! id = None → row_of id l = None.
Proof. intros Hv. by destruct (tab_rows _ _ T id). Qed.

Lemma tab_row id r : row_of id l = Some r → ∃ v, m !! id = Some v ∧ P r v.
Proof. intros Hr. destruct (tab_rows _ _ T id) as [s w HP|]; [|done]. simplify_eq. eauto. Qed.

Lemma tab_has_row id : has_row id l = bool_decide (is_Some (m !! id)).
Proof. rewrite has_row_is_Some. destruct (tab_rows _ _ T id); done. Qed.

Lemma tab_elem r : r ∈ l → ∃ v, m !! row_id r = Some v ∧ P r v.
Proof. intros Hr. apply tab_row. apply row_of_elem; [apply (tab_unique _ _ T)|done]. Qed.

Lemma tab_rel_insert r v : m !! row_id r = None → P r v → tab_rel (l ++ [r]) (<[row_id r := v]> m).
Proof.
  intros Hm HP. pose proof (tab_None _ Hm) as Hl. split.
  - rewrite map_app. simpl. apply NoDup_app. split_and!; [apply (tab_unique _ _ T)| |apply NoDup_singleton].
    intros id Hin ->%list_elem_of_singleton. by apply row_of_None in Hl.
  - intros id. rewrite row_of_app, row_of_cons. destruct (decide (row_id r = id)) as [<-|Hne].
    + rewrite Hl, lookup_insert_eq. by constructor.
    + rewrite lookup_insert_ne by done. destruct (tab_rows _ _ T id); by constructor.
Qed.

Lemma tab_rel_update f id v :
  (∀ r, row_id (f r) = row_id r) →
  (∀ r old, row_of id l = Some r → m !! id = Some old → P r old → P (f r) v) → is_Some (m !! id) →
  tab_rel (update_row id f l) (<[id := v]> m).
Proof.
  intros Hf HP [old Hold]. split; [rewrite update_row_ids; [apply (tab_unique _ _ T)|done]|].
  intros k. rewrite row_of_update by done. destruct (decide (k = id)) as [->|Hne].
  - rewrite lookup_insert_eq. destruct (tab_Some _ _ Hold) as (r & Hr & Hro). rewrite Hr. constructor. eauto.
  - rewrite lookup_insert_ne by done. apply (tab_rows _ _ T).
Qed.

Lemma tab_has_value (p : V → bool) (q : R → bool) :
  (∀ r v, P r v → q r = p v) → has_value p m = existsb q l.
Proof.
  intros Hpq. destruct (existsb q l) eqn:E.
  - apply existsb_exists in E as (r & Hr%list_elem_of_In & Hq). destruct (tab_elem r Hr) as (v & Hv & HP).
    apply has_value_true. exists (row_id r), v. by rewrite <- (Hpq _ _ HP).
  - apply has_value_false. intros k v Hv. destruct (tab_Some _ _ Hv) as (r & Hr & HP).
    rewrite <- (Hpq _ _ HP). apply not_true_iff_false. intros Hq.
    assert (existsb q l = true) as Ht; [|congruence]. apply existsb_exists. exists r.
    split; [|done]. apply list_elem_of_In. by apply row_of_Some in Hr as [? _].
Qed.

Lemma existsb_head (q : R → bool) (D : R → Prop) `{∀ r, Decision (D r)} :
  (∀ r, q r = true ↔ D r) → existsb q l = bool_decide (is_Some (head (filter D l))).
Proof.
  intros Hq. clear T. induction l as [|r k IH]; [done|]. simpl. rewrite filter_cons.
  destruct (decide (D r)) as [Hd|Hd]; [by rewrite (proj2 (Hq r) Hd)|].
  destruct (q r) eqn:E; [by apply Hq in E|]. done.
Qed.

(** The value that a search of the map and a query of a unique column both find. *)
Lemma tab_find (p : V → bool) (D : R → Prop) `{∀ r, Decision (D r)} :
  (∀ r v, P r v → p v = true ↔ D r) →
  (∀ r s, r ∈ l → s ∈ l → D r → D s → r = s) →
  option_Forall2 P (head (filter D l)) (find_value p m).
Proof.
  intros HpD Huniq. destruct (head (filter D l)) as [r|] eqn:E.
  - apply head_Some_elem_of, list_elem_of_filter in E as [Hd Hr]. destruct (tab_elem r Hr) as (v & Hv & HP).
    rewrite (find_value_unique p m (row_id r) v); [by constructor|done|by apply (HpD _ _ HP)|].
    intros k w Hw Hp. destruct (tab_Some _ _ Hw) as (s & [Hs <-]%row_of_Some & HPs).
    by rewrite (Huniq r s Hr Hs Hd (proj1 (HpD _ _ HPs) Hp)).
  - destruct (find_value p m) as [v|] eqn:F; [|constructor].
    apply find_value_Some in F as (k & Hv & Hp). destruct (tab_Some _ _ Hv) as (s & [Hs <-]%row_of_Some & HPs).
    assert (s ∈ filter D l) as Hin by (apply list_elem_of_filter; split; [by apply (HpD _ _ HPs)|done]).
    destruct (filter D l); [by apply not_elem_of_nil in Hin|done].
Qed.

End rows.

Arguments tab_rel {R _ V} P l m.

(** ** Running operations on tables *)

Section eval.
Context `{Platform} `{Gob}.

Definition run_exec (X : Type) (c : onReader X) (t : Tables) : X * Tables :=
  match c with
  | Run s => statement_exec s t
  end.

(** The result of an operation that runs alone on the tables, and the tables it leaves. *)
Definition eval {A} (p : prog onReader A) (t : Tables) : A * Tables := Prog.exec run_exec p t.

Lemma exec_bind {E S A B} (answer : ∀ X, E X → S → X * S) (f : A → prog E B) (p : prog E A) s :
  Prog.exec answer (p ≫= f) s = let (a, s') := Prog.exec answer p s in Prog.exec answer (f a) s'.
Proof.
  change (p ≫= f) with (prog_bind f p). revert s. induction p as [a|X e k IH]; intros s; simpl; [done|].
  destruct (answer X e s). apply IH.
Qed.

Lemma eval_bind {A B} (p : prog onReader (SqlRes A)) (f : A → prog onReader (SqlRes B)) t :
  eval (sql_bind p f) t = match eval p t with
                          | (Ok x, t') => eval (f x) t'
                          | (Err err, t') => (Err err, t')
                          end.
Proof. unfold eval, sql_bind. rewrite exec_bind. by destruct (Prog.exec _ p t) as [[x|err] t']. Qed.

Lemma eval_stored {A} (p : prog onReader (SqlRes A)) t :
  eval (stored p) t = match eval p t with
                      | (Ok x, t') => (Ok x, t')
                      | (Err err, t') => (Err (storageError err), t')
                      end.
Proof. unfold eval, stored. rewrite exec_bind. by destruct (Prog.exec _ p t) as [[x|err] t']. Qed.

Lemma eval_run {X} (s : statement X) t : eval (run s) t = statement_exec s t.
Proof. unfold eval. simpl. by destruct (statement_exec s t). Qed.

Lemma eval_pureErr {A} (r : Res A) t :
  eval (pureErr r) t = (match r with Ok x => Ok x | Err err => Err (SqlError err) end, t).
Proof. by destruct r. Qed.

Lemma storageError_twice err : storageError (storageError err) = storageError err.
Proof. destruct err as [|code|]; simpl; [done| |done]. by destruct (_ || _) eqn:E; simpl; rewrite ?E. Qed.

(** ** Transactions that run alone *)

Lemma exec_on_writing {A} (p : prog onReader A) t0 t :
  Prog.exec (sql_exec None) (on (@Exec _) p) (mkDB t0 (Some (Writing t))) =
    let (r, t') := eval p t in (r, mkDB t0 (Some (Writing t'))).
Proof.
  unfold eval. revert t. induction p as [a|X [Y s] k IH]; intros t; simpl; [done|].
  unfold exec_statement. unfold visible. simpl. destruct (statement_exec s t) as [r t']. apply IH.
Qed.

Lemma exec_on_query {A} (p : prog onReader A) t tx :
  Prog.exec (sql_exec None) (on (@Query _) p) (mkDB t tx) = let (r, t') := eval p t in (r, mkDB t' tx).
Proof.
  unfold eval. revert t. induction p as [a|X [Y s] k IH]; intros t; simpl; [done|].
  destruct (statement_exec s t) as [r t']. apply IH.
Qed.

(** Operations that only read. *)
Fixpoint reads {A} (p : prog onReader A) : Prop :=
  match p with
  | Ret _ => True
  | Vis (Run s) k => writes s = false ∧ ∀ x, reads (k x)
  end.

Lemma statement_reads {X} (s : statement X) t : writes s = false → (statement_exec s t).2 = t.
Proof. by destruct s. Qed.

Lemma eval_reads {A} (p : prog onReader A) t : reads p → (eval p t).2 = t.
Proof.
  unfold eval. induction p as [a|X [Y s] k IH]; simpl; [done|]. intros [Hs Hk].
  pose proof (statement_reads s t Hs) as Ht. destruct (statement_exec s t) as [r t']. simpl in Ht. subst. by apply IH.
Qed.

Lemma exec_on_reading {A} (p : prog onReader A) t tx :
  reads p → tx = Deferred ∨ tx = Reading t →
  ∃ tx', Prog.exec (sql_exec None) (on (@Exec _) p) (mkDB t (Some tx)) = ((eval p t).1, mkDB t (Some tx')) ∧
         (tx' = Deferred ∨ tx' = Reading t).
Proof.
  unfold eval. revert tx. induction p as [a|X [Y s] k IH]; intros tx; [by exists tx|].
  intros [Hs Hk] Htx.
  assert (visible (mkDB t (Some tx)) = t) as Hv by (by destruct Htx as [->| ->]).
  cbn [on Prog.exec sql_exec]. unfold exec_statement. rewrite Hv. cbn [run_exec].
  pose proof (statement_reads s t Hs) as Ht. destruct (statement_exec s t) as [r t']. simpl in Ht. subst t'.
  destruct (IH r (Reading t)) as (tx' & Hx & Htx'); [done|by right|].
  exists tx'. split; [|done]. destruct Htx as [->| ->]; simpl; by rewrite Hs.
Qed.

Lemma exec_transaction_write {A} (p : prog onReader (SqlRes A)) t :
  Prog.exec (sql_exec None) (transaction true p) (mkDB t None) =
    match eval p t with
    | (Ok x, t') => (Ok x, mkDB t' None)
    | (Err err, _) => (Err (storageError err), mkDB t None)
    end.
Proof.
  unfold transaction. rewrite exec_bind. cbn. rewrite exec_bind, exec_on_writing.
  by destruct (eval p t) as [[x|err] t'].
Qed.

Lemma exec_transaction_read {A} (p : prog onReader (SqlRes A)) t :
  reads p →
  Prog.exec (sql_exec None) (transaction false p) (mkDB t None) =
    (match (eval p t).1 with Ok x => Ok x | Err err => Err (storageError err) end, mkDB t None).
Proof.
  intros Hp. unfold transaction. rewrite exec_bind. cbn. rewrite exec_bind.
  destruct (exec_on_reading p t Deferred Hp) as (tx & -> & Htx); [by left|].
  destruct (eval p t) as [[x|err] t']; simpl; [|done]. by destruct Htx as [->| ->].
Qed.

(** A method that runs alone on a database without an open transaction. *)
Definition sqlite_run {X} (ctx : Ctx) (p : prog sqlCall (SqlRes X)) (t : Tables) : Res X * Tables :=
  let (r, d) := Prog.exec (sql_exec ctx) p (mkDB t None) in (goResult r, db_tables d).

#[export] Instance sqlite_store : StoreImpl Tables := λ X c ctx t, sqlite_run ctx (sqlite_method c) t.

(** ** Sequences *)

(** Statements that use a sequence. *)
Definition numbering {X} (s : statement X) : nat :=
  match s with
  | InsertOrder _ _ _ _ | InsertTask _ _ _ _ _ => 1
  | _ => 0
  end.

(** Operations that use at most [n] numbers. *)
Fixpoint at_most {A} (n : nat) (p : prog onReader A) : Prop :=
  match p with
  | Ret _ => True
  | Vis (Run s) k => (numbering s ≤ n)%nat ∧ ∀ x, at_most (n - numbering s) (k x)
  end.

Lemma at_most_mono {A} n m (p : prog onReader A) : (n ≤ m)%nat → at_most n p → at_most m p.
Proof.
  revert n m. induction p as [a|X [Y s] k IH]; intros n m Hnm; simpl; [done|]. intros [Hs Hk].
  split; [lia|]. intros x. eapply IH; [|apply Hk]. lia.
Qed.

Lemma at_most_bind {A B} n m (p : prog onReader A) (f : A → prog onReader B) :
  at_most n p → (∀ x, at_most m (f x)) → at_most (n + m) (p ≫= f).
Proof.
  change (p ≫= f) with (prog_bind f p). revert n. induction p as [a|X [Y s] k IH]; intros n; simpl.
  - intros _ Hf. eapply at_most_mono; [|apply Hf]. lia.
  - intros [Hs Hk] Hf. split; [lia|]. intros x. eapply at_most_mono; [|by apply (IH x (n - numbering s)%nat)]. lia.
Qed.

Lemma statement_sequences {X} (s : statement X) t :
  (t_ordersSequence t ≤ t_ordersSequence (statement_exec s t).2 ≤ t_ordersSequence t + Z.of_nat (numbering s) ∧
   t_tasksSequence t ≤ t_tasksSequence (statement_exec s t).2 ≤ t_tasksSequence t + Z.of_nat (numbering s))%Z.
Proof. destruct s; simpl; try lia; unfold updateData; repeat (case_match; simpl; try lia). Qed.

Lemma eval_sequences {A} n (p : prog onReader A) t : at_most n p →
  (t_ordersSequence t ≤ t_ordersSequence (eval p t).2 ≤ t_ordersSequence t + Z.of_nat n ∧
   t_tasksSequence t ≤ t_tasksSequence (eval p t).2 ≤ t_tasksSequence t + Z.of_nat n)%Z.
Proof.
  unfold eval. revert n t. induction p as [a|X [Y s] k IH]; intros n t; simpl; [lia|]. intros [Hs Hk].
  pose proof (statement_sequences s t) as Ht. destruct (statement_exec s t) as [r t']. simpl in *.
  specialize (IH r (n - numbering s)%nat t' (Hk r)). lia.
Qed.

(** ** Times and index values *)

(** Times that [timestamp] keeps apart: the zero time and the years 1970 to 2262. *)
Definition in_range (t : Time) : Prop := t = 0%Z ∨ (unixEpoch < t < unixEpoch + 2 ^ 63)%Z.

Lemma timestamp_in_range t :
  in_range t → timestamp t = if decide (t = 0%Z) then 0%Z else (t - unixEpoch)%Z.
Proof.
  unfold timestamp, UnixNano, IsZero. intros [->|Ht]; [done|].
  assert (0 < unixEpoch)%Z by (unfold unixEpoch, Second; lia).
  rewrite decide_False by lia. rewrite (proj2 (Z.eqb_neq t 0)) by lia. apply i64_small. lia.
Qed.

Lemma timestamp_lt t u : in_range t → in_range u → (timestamp t < timestamp u)%Z ↔ (t < u)%Z.
Proof.
  intros Ht Hu. rewrite !timestamp_in_range by done.
  assert (0 < unixEpoch)%Z by (unfold unixEpoch, Second; lia).
  destruct (decide (t = 0%Z)), (decide (u = 0%Z)); destruct Ht, Hu; lia.
Qed.

Lemma timestamp_le t u : in_range t → in_range u → (timestamp t ≤ timestamp u)%Z ↔ (t ≤ u)%Z.
Proof. intros Ht Hu. pose proof (timestamp_lt u t Hu Ht). lia. Qed.

(** Statuses and kinds that are written as one of the constants are that constant. *)
Definition canonical_status (s : AuthorizationStatus) : bool :=
  if s is AuthorizationOther s then s != "valid" else true.
Definition canonical_kind (k : TaskKind) : bool :=
  if k is TaskKindOther s then s != "validate" else true.

Lemma indexStatus_valid z :
  canonical_status (az_Status z) = true →
  indexStatus z = "valid" ↔ az_Status z = AuthorizationValid ∧ az_PreApproved z = false.
Proof.
  unfold indexStatus. destruct (az_PreApproved z); [naive_solver|].
  destruct (az_Status z) as [| | | | | |s]; simpl; naive_solver.
Qed.

Lemma TaskKind_string_validate k :
  canonical_kind k = true → TaskKind_string k = "validate" ↔ k = TaskValidate.
Proof. destruct k as [| |s]; simpl; naive_solver. Qed.

(** Identifier types without a colon, which end where the scope has its first one. *)
Fixpoint no_colon (s : string) : bool :=
  match s with
  | EmptyString => true
  | String c s => (String c "" != ":") && no_colon s
  end.
Definition plain_type (id : Identifier) : bool :=
  match id_Type id with
  | IdentifierOther s => no_colon s && negb (existsb (String.eqb s) ["dns"; "ip"; "TNAuthList"; "NfInstanceId"; "uri"])
  | _ => true
  end.

Lemma no_colon_split s s' v v' :
  no_colon s = true → no_colon s' = true → s +:+ ":" +:+ v = s' +:+ ":" +:+ v' → s = s' ∧ v = v'.
Proof.
  revert s'. induction s as [|c s IH]; intros [|c' s']; simpl; intros Hs Hs' Heq;
    [by injection Heq|injection Heq as Hc Heq..].
  - by subst.
  - by subst.
  - apply andb_true_iff in Hs as [_ Hs], Hs' as [_ Hs']. subst c'. by destruct (IH s' Hs Hs' Heq) as [-> ->].
Qed.

Lemma Identifier_String_inj id id' :
  plain_type id = true → plain_type id' = true → Identifier_String id = Identifier_String id' → id = id'.
Proof.
  destruct id as [ty v], id' as [ty' v']. unfold Identifier_String, plain_type. simpl. intros Hp Hp' Heq.
  apply no_colon_split in Heq as [Hty ->].
  - f_equal. destruct ty, ty'; simpl in Hty; try reflexivity; try discriminate Hty; subst; try reflexivity; simpl in Hp, Hp'; done.
  - destruct ty; simpl in *; try done. by go_bool.
  - destruct ty'; simpl in *; try done. by go_bool.
Qed.

Lemma scope_orderIdentifier z : scope (az_Identifier z) (az_Wildcard z) = Identifier_String (orderIdentifier z).
Proof. unfold scope, orderIdentifier. by destruct (az_Wildcard z). Qed.

End eval.

Section rel.
Context `{Platform} `{Gob} `{!GobLaws}.
Implicit Types (t : Tables) (a : AStore).

(** ** Encoded resources *)

Lemma gob_encode_decode {V} `{GobType V} (v : V) g :
  toGob v = Ok g → plainValue g = true → fromGob g = Ok v → ∃ d, encode v = Ok d ∧ decode d = Ok v.
Proof.
  intros Hto Hplain Hfrom. destruct (gob_roundtrip g Hplain) as (d & He & Hd). exists d.
  unfold encode, decode. by rewrite Hto, Hd.
Qed.

(** Resources that the encoding preserves. *)
Class Encodes {V} `{GobType V} (v : V) : Prop := encodes : ∃ d, encode v = Ok d ∧ decode d = Ok v.

#[export] Instance encodes_authorization (z : Authorization) : Encodes z.
Proof. by eapply gob_encode_decode. Qed.
#[export] Instance encodes_certificate (c : Certificate) : Encodes c.
Proof. by eapply gob_encode_decode. Qed.
#[export] Instance encodes_task (k : Task) : Encodes k.
Proof. by eapply gob_encode_decode. Qed.

(** Orders and challenges are preserved when their problems are complete, accounts when their key is. *)
Lemma encodes_order (o : Order) : plainOrder o = true → Encodes o.
Proof. intros Ho. by eapply gob_encode_decode. Qed.
Lemma encodes_challenge (c : Challenge) : plainChallenge c = true → Encodes c.
Proof. intros Hc. by eapply gob_encode_decode. Qed.

Lemma encodes_account (b : Account) : portable (acct_Key b) = true → Encodes b.
Proof.
  unfold portable. destruct (x509_MarshalPKIXPublicKey (acct_Key b)) as [der|] eqn:Hk; [|done].
  destruct (x509_ParsePKIXPublicKey der) as [key|] eqn:Hp; [|done]. intros Hkey. go_bool. subst key.
  eapply gob_encode_decode; simpl; [by rewrite Hk|done|]. simpl. rewrite Hp. by destruct b.
Qed.

(** ** Rows that represent resources *)

Record account_row (r : accountRow) (b : Account) : Prop := {
  arow_id : ar_id r = acct_ID b;
  arow_revision : ar_revision r = acct_Revision b;
  arow_thumbprint : ar_key_thumbprint r = acct_KeyThumbprint b;
  arow_claim : ar_external_claim r = claim (acct_ExternalAccountClaim b);
  arow_data : decode (ar_data r) = Ok b
}.

Record order_row (r : orderRow) (o : Order) : Prop := {
  orow_id : or_id r = ord_ID o;
  orow_revision : or_revision r = ord_Revision o;
  orow_data : decode (or_data r) = Ok o;
  orow_plain : plainOrder o = true
}.

Record authz_row (r : authorizationRow) (z : Authorization) : Prop := {
  zrow_id : zr_id r = az_ID z;
  zrow_account : zr_account_id r = az_AccountID z;
  zrow_scope : zr_scope r = Identifier_String (orderIdentifier z);
  zrow_status : zr_status r = indexStatus z;
  zrow_expires : zr_expires r = timestamp (az_Expires z);
  zrow_revision : zr_revision r = az_Revision z;
  zrow_data : decode (zr_data r) = Ok z;
  zrow_range : in_range (az_Expires z);
  zrow_plain : plain_type (orderIdentifier z) = true;
  zrow_canonical : canonical_status (az_Status z) = true
}.

Record challenge_row (r : challengeRow) (c : Challenge) : Prop := {
  hrow_id : hr_id r = ch_ID c;
  hrow_revision : hr_revision r = ch_Revision c;
  hrow_data : decode (hr_data r) = Ok c
}.

Record certificate_row (r : certificateRow) (c : Certificate) : Prop := {
  crow_id : cr_id r = crt_ID c;
  crow_renewal : cr_renewal_id r = renewalKey (crt_RenewalID c);
  crow_revision : cr_revision r = crt_Revision c;
  crow_data : decode (cr_data r) = Ok c
}.

Record task_row (r : taskRow) (k : Task) : Prop := {
  krow_id : tr_id r = task_ID k;
  krow_kind : tr_kind r = TaskKind_string (task_Kind k);
  krow_account : tr_account_id r = task_AccountID k;
  krow_run_at : tr_run_at r = timestamp (task_RunAt k);
  krow_lease : tr_lease_until r = timestamp (task_LeaseUntil k);
  krow_fence : tr_fence r = task_Fence k;
  krow_attempts : tr_attempts r = task_Attempts k;
  krow_data : decode (tr_data r) = Ok k;
  krow_run_range : in_range (task_RunAt k);
  krow_lease_range : in_range (task_LeaseUntil k);
  krow_canonical : canonical_kind (task_Kind k) = true
}.

(** The sequences of a table, each larger than those before it and none above the last one used. *)
Definition increasing (l : list Z) (last : Z) : Prop :=
  (0 ≤ last)%Z ∧ StronglySorted Z.lt l ∧ Forall (λ z, 0 < z ≤ last)%Z l.

Lemma increasing_snoc l last : increasing l last → increasing (l ++ [(last + 1)%Z]) (last + 1).
Proof.
  intros (Hge & Hs & Hl). split_and!; [lia| |].
  - induction l as [|z l IH]; simpl; [repeat constructor|]. apply StronglySorted_inv in Hs as [Hs Hz].
    apply Forall_cons in Hl as [Hlast Hl]. constructor; [by apply IH|]. apply Forall_app. split; [done|].
    apply Forall_singleton. lia.
  - apply Forall_app. split; [|apply Forall_singleton; lia]. eapply Forall_impl; [done|]. simpl. lia.
Qed.

(** No two rows share a value of the column. *)
Definition unique_column {R} (column : R → option string) (l : list R) : Prop :=
  ∀ r s v, r ∈ l → s ∈ l → column r = Some v → column s = Some v → r = s.

Lemma taken_false {R} `{Row R} (column : R → option string) v id l r :
  taken column (Some v) id l = false → r ∈ l → column r = Some v → row_id r = id.
Proof.
  intros Ht Hr Hc. destruct (decide (row_id r = id)) as [|Hne]; [done|]. exfalso.
  assert (taken column (Some v) id l = true) as Htrue; [|congruence]. apply existsb_exists. exists r.
  split; [by apply list_elem_of_In|]. rewrite bool_decide_false, bool_decide_true by done. done.
Qed.

Lemma unique_column_snoc {R} `{Row R} (column : R → option string) l r :
  unique_column column l → taken column (column r) (row_id r) l = false → row_of (row_id r) l = None →
  unique_column column (l ++ [r]).
Proof.
  intros Hl Ht Hn. assert (∀ s v, s ∈ l → column r = Some v → column s = Some v → False) as Hfresh.
  { intros s v Hs Hr Hv. rewrite Hr in Ht. apply row_of_None in Hn. apply Hn.
    rewrite <- (taken_false _ _ _ _ _ Ht Hs Hv). by apply (list_elem_of_fmap_2 row_id). }
  intros r1 r2 v I1 I2 Hv1 Hv2.
  apply elem_of_app in I1 as [I1|I1%list_elem_of_singleton], I2 as [I2|I2%list_elem_of_singleton]; subst.
  - by eapply Hl.
  - by destruct (Hfresh r1 v).
  - by destruct (Hfresh r2 v).
  - done.
Qed.

Lemma unique_column_update {R} `{Row R} (column : R → option string) l id f value :
  unique_column column l → NoDup (map row_id l) → (∀ r, row_id (f r) = row_id r) → (∀ r, column (f r) = value) →
  taken column value id l = false → unique_column column (update_row id f l).
Proof.
  intros Hl Hnd Hid Hf Ht.
  assert (∀ r, r ∈ update_row id f l → ∃ s, s ∈ l ∧ r = (if decide (row_id s = id) then f s else s)) as Hin.
  { intros r (s & -> & Hs)%list_elem_of_fmap. exists s. split; [done|]. by case_bool_decide; case_decide. }
  assert (∀ s v, s ∈ l → row_id s ≠ id → value = Some v → column s = Some v → False) as Hother.
  { intros s v Hs Hne -> Hv. apply Hne. by eapply taken_false. }
  intros r1 r2 v I1 I2 Hv1 Hv2. destruct (Hin _ I1) as (s1 & Hs1 & ->), (Hin _ I2) as (s2 & Hs2 & ->).
  destruct (decide (row_id s1 = id)) as [E1|E1], (decide (row_id s2 = id)) as [E2|E2]; rewrite ?Hf in *.
  - f_equal. pose proof (row_of_elem l s1 Hnd Hs1) as Q1. pose proof (row_of_elem l s2 Hnd Hs2). congruence.
  - by destruct (Hother s2 v).
  - by destruct (Hother s1 v).
  - by eapply Hl.
Qed.

(** An update that leaves the column alone. *)
Lemma unique_column_keep {R} `{Row R} (column : R → option string) l id f :
  unique_column column l → NoDup (map row_id l) → (∀ r, row_id (f r) = row_id r) → (∀ r, column (f r) = column r) →
  unique_column column (update_row id f l).
Proof.
  intros Hl Hnd Hid Hf.
  assert (∀ r, r ∈ update_row id f l → ∃ s, s ∈ l ∧ row_id r = row_id s ∧ column r = column s ∧
    r = (if decide (row_id s = id) then f s else s)) as Hin.
  { intros r (s & -> & Hs)%list_elem_of_fmap. exists s. by case_bool_decide; case_decide; rewrite ?Hid, ?Hf. }
  intros r1 r2 v I1 I2 Hv1 Hv2.
  destruct (Hin _ I1) as (s1 & Hs1 & _ & Hc1 & ->), (Hin _ I2) as (s2 & Hs2 & _ & Hc2 & ->).
  assert (s1 = s2) as ->; [|done]. apply (Hl _ _ v); [done|done|by rewrite <- Hc1|by rewrite <- Hc2].
Qed.

Record sql_rel t a : Prop := {
  sr_accounts : tab_rel account_row (t_accounts t) (as_accounts a);
  sr_thumbprints : unique_column (λ r, Some (ar_key_thumbprint r)) (t_accounts t);
  sr_orders : tab_rel order_row (t_orders t) (as_orders a);
  sr_created : as_created a = map (λ r, (or_account_id r, or_id r)) (t_orders t);
  sr_ordersSequence : increasing (map or_sequence (t_orders t)) (t_ordersSequence t);
  sr_no_empty : as_orders a !! "" = None;
  sr_authzs : tab_rel authz_row (t_authorizations t) (as_authzs a);
  sr_challenges : tab_rel challenge_row (t_challenges t) (as_challenges a);
  sr_certificates : tab_rel certificate_row (t_certificates t) (as_certificates a);
  sr_renewals : unique_column cr_renewal_id (t_certificates t);
  sr_tasks : Forall2 task_row (t_tasks t) (as_tasks a);
  sr_taskIDs : NoDup (map tr_id (t_tasks t));
  sr_tasksSequence : increasing (map tr_sequence (t_tasks t)) (t_tasksSequence t)
}.

Lemma sql_rel_empty : sql_rel Tables_empty AStore_empty.
Proof.
  split; simpl; try apply tab_rel_empty; try done; try (intros r; set_solver); try constructor; try lia; split; constructor.
Qed.

(** Numbers that a statement can still store after an increment. *)
Definition room (z : Z) : Prop := (0 ≤ z < 2 ^ 63 - 1)%Z.
Definition rooms {V} (f : V → Z) (m : gmap string V) : Prop := ∀ k v, m !! k = Some v → room (f v).

Lemma room_u64 z : room z → u64 (z + 1) = (z + 1)%Z ∧ (2 ^ 63 <=? u64 (z + 1))%Z = false.
Proof. unfold room. intros Hz. rewrite u64_small by lia. split; [done|]. apply Z.leb_gt. lia. Qed.

(** ** Steps of a transaction *)

(** A part of an operation that fails as the check [err] of the contract, or else takes the tables to
    those of [a']. *)
Definition step (p : prog onReader (SqlRes unit)) t (err : option error) a' : Prop :=
  match err with
  | Some err => ∃ e t', eval p t = (Err e, t') ∧ storageError e = SqlError err
  | None => ∃ t', eval p t = (Ok tt, t') ∧ sql_rel t' a'
  end.

Lemma step_seq p q t err a' rest a'' :
  step p t err a' →
  (err = None → ∀ t', eval p t = (Ok tt, t') → sql_rel t' a' → step q t' (first_error rest) a'') →
  step (do! p in q) t (first_error (err :: rest)) a''.
Proof.
  destruct err as [err|]; simpl.
  - intros (e & t' & Hp & He) _. exists e, t'. by rewrite eval_bind, Hp.
  - intros (t' & Hp & R') Hq. specialize (Hq eq_refl t' Hp R'). unfold step in *.
    destruct (first_error rest); by setoid_rewrite eval_bind; rewrite Hp.
Qed.

(** ** Checks and updates *)

(** A part whose result is known. *)
Lemma step_bind {A} (p : prog onReader (SqlRes A)) f t t' x err a' :
  eval p t = (Ok x, t') → step (f x) t' err a' → step (sql_bind p f) t err a'.
Proof. intros Hp. unfold step. rewrite eval_bind, Hp. done. Qed.

Lemma step_case {A} (p : prog onReader A) f t t' r err a' :
  eval p t = (r, t') → step (f r) t' err a' → step (p ≫= f) t err a'.
Proof. intros Hp. unfold step, eval in *. rewrite exec_bind, Hp. done. Qed.

Lemma step_stop {A} (p : prog onReader (SqlRes A)) f t t' err a' :
  eval p t = (Err (SqlError err), t') → step (sql_bind p f) t (Some err) a'.
Proof. intros Hp. exists (SqlError err), t'. by rewrite eval_bind, Hp. Qed.

Lemma step_error p t err a' : eval p t = (Err (SqlError err), t) → step p t (Some err) a'.
Proof. intros Hp. by exists (SqlError err), t. Qed.

(** Revisions as the contract reads them. *)
Definition revision_of (table : tableName) (id : string) a : option Z :=
  match table with
  | accountsTable => acct_Revision <$> as_accounts a !! id
  | ordersTable => ord_Revision <$> as_orders a !! id
  | authorizationsTable => az_Revision <$> as_authzs a !! id
  | challengesTable => ch_Revision <$> as_challenges a !! id
  | certificatesTable => crt_Revision <$> as_certificates a !! id
  | tasksTable => None
  end.

Lemma selectRevision_rel table id t a :
  sql_rel t a → table ≠ tasksTable → selectRevision table id t = found (revision_of table id a).
Proof.
  intros R Ht. destruct table; simpl; [| | | | |done].
  - by destruct (tab_rows _ _ _ (sr_accounts _ _ R) id) as [r v []|]; simpl; f_equal.
  - by destruct (tab_rows _ _ _ (sr_orders _ _ R) id) as [r v []|]; simpl; f_equal.
  - by destruct (tab_rows _ _ _ (sr_authzs _ _ R) id) as [r v []|]; simpl; f_equal.
  - by destruct (tab_rows _ _ _ (sr_challenges _ _ R) id) as [r v []|]; simpl; f_equal.
  - by destruct (tab_rows _ _ _ (sr_certificates _ _ R) id) as [r v []|]; simpl; f_equal.
Qed.

Lemma eval_checkRevision table id revision t a :
  sql_rel t a → table ≠ tasksTable →
  eval (checkRevision table id revision) t =
    (match check_revision (revision_of table id a) revision with
     | None => Ok tt
     | Some err => Err (SqlError err)
     end, t).
Proof.
  intros R Ht. unfold checkRevision. rewrite eval_bind, eval_stored, eval_run. simpl.
  rewrite (selectRevision_rel table id t a R Ht). destruct (revision_of table id a) as [r|]; simpl; [|done].
  by destruct (bool_decide (r = revision)).
Qed.

(** Saving and checking use no sequence. *)
Lemma at_most_sql_bind {A B} n (p : prog onReader (SqlRes A)) (f : A → prog onReader (SqlRes B)) :
  at_most 0 p → (∀ x, at_most n (f x)) → at_most n (sql_bind p f).
Proof.
  intros Hp Hf. unfold sql_bind. change n with (0 + n)%nat. apply at_most_bind; [done|]. by intros [x|err].
Qed.

Lemma at_most_stored {A} n (p : prog onReader (SqlRes A)) : at_most n p → at_most n (stored p).
Proof.
  intros Hp. unfold stored. replace n with (n + 0)%nat by lia. apply at_most_bind; [done|]. by intros [x|err].
Qed.

Lemma at_most_pureErr {A} n (r : Res A) : at_most n (pureErr r).
Proof. by destruct r. Qed.

Lemma at_most_run {X} n (s : statement X) : (numbering s ≤ n)%nat → at_most n (run s).
Proof. by intros Hs. Qed.

Lemma at_most_update {V} `{GobType V} table id revision (v : V) : at_most 0 (update table id revision v).
Proof.
  unfold update, checkRevision. apply at_most_sql_bind; [|intros _; apply at_most_sql_bind].
  - apply at_most_sql_bind; [by apply at_most_stored|]. intros r. by case_match.
  - apply at_most_pureErr.
  - by intros d.
Qed.

Section table.
Context {V : Type} `{GobType V}.

Lemma eval_update table id revision (v : V) t a : Encodes v → sql_rel t a → table ≠ tasksTable →
  ∃ d, decode d = Ok v ∧
    eval (update table id revision v) t =
      match check_revision (revision_of table id a) revision with
      | None => updateData table (u64 (revision + 1)) d id t
      | Some err => (Err (SqlError err), t)
      end.
Proof.
  intros (d & He & Hd) R Ht. exists d. split; [done|].
  unfold update. rewrite eval_bind, (eval_checkRevision table id revision t a R Ht).
  destruct (check_revision _ _); [done|]. by rewrite eval_bind, eval_pureErr, He, eval_run.
Qed.

Lemma eval_read table id t :
  eval (read table id) t =
    (match selectData table id t with
     | Some d => match decode d with Ok v => Ok v | Err e => Err (SqlError e) end
     | None => Err (SqlError ErrNotFound)
     end : SqlRes V, t).
Proof.
  unfold read. rewrite eval_bind, eval_stored, eval_run. simpl.
  destruct (selectData table id t) as [d|]; simpl; [|done]. apply eval_pureErr.
Qed.

Lemma eval_insert (s : blob → statement unit) (v : V) t : Encodes v →
  ∃ d, decode d = Ok v ∧ eval (insert s v) t = statement_exec (s d) t.
Proof.
  intros (d & He & Hd). exists d. split; [done|]. unfold insert.
  by rewrite eval_bind, eval_pureErr, He, eval_run.
Qed.

End table.

(** Reading a resource back. *)
Definition result_of {X} (o : option X) : SqlRes X :=
  match o with Some x => Ok x | None => Err (SqlError ErrNotFound) end.

Section reading.
Context t a (R : sql_rel t a) (id : string).

Lemma eval_read_account : eval (read accountsTable id) t = (result_of (as_accounts a !! id), t).
Proof.
  rewrite eval_read. simpl. by destruct (tab_rows _ _ _ (sr_accounts _ _ R) id) as [r v HP|]; simpl; rewrite ?(arow_data _ _ HP).
Qed.

Lemma eval_read_order : eval (read ordersTable id) t = (result_of (as_orders a !! id), t).
Proof.
  rewrite eval_read. simpl. by destruct (tab_rows _ _ _ (sr_orders _ _ R) id) as [r v HP|]; simpl; rewrite ?(orow_data _ _ HP).
Qed.

Lemma eval_read_authz : eval (read authorizationsTable id) t = (result_of (as_authzs a !! id), t).
Proof.
  rewrite eval_read. simpl. by destruct (tab_rows _ _ _ (sr_authzs _ _ R) id) as [r v HP|]; simpl; rewrite ?(zrow_data _ _ HP).
Qed.

Lemma eval_read_challenge : eval (read challengesTable id) t = (result_of (as_challenges a !! id), t).
Proof.
  rewrite eval_read. simpl. by destruct (tab_rows _ _ _ (sr_challenges _ _ R) id) as [r v HP|]; simpl; rewrite ?(hrow_data _ _ HP).
Qed.

Lemma eval_read_certificate : eval (read certificatesTable id) t = (result_of (as_certificates a !! id), t).
Proof.
  rewrite eval_read. simpl. by destruct (tab_rows _ _ _ (sr_certificates _ _ R) id) as [r v HP|]; simpl; rewrite ?(crow_data _ _ HP).
Qed.

End reading.

(** ** Saving resources *)

Lemma check_room {V} (f : V → Z) (m : gmap string V) id revision :
  rooms f m → check_revision (f <$> m !! id) revision = None →
  u64 (revision + 1) = (revision + 1)%Z ∧ (2 ^ 63 <=? u64 (revision + 1))%Z = false ∧ is_Some (m !! id).
Proof.
  intros Hroom Hc%check_revision_None. apply fmap_Some in Hc as (v & Hv & ->).
  destruct (room_u64 (f v)) as [? ?]; [by eapply Hroom|]. eauto.
Qed.

Section saving.
Context t a (R : sql_rel t a).

Lemma saveOrder_step o :
  rooms ord_Revision (as_orders a) → plainOrder o = true →
  step (saveOrder o) t (spec_checkOrder o a) (put_order (bump_order o) a).
Proof.
  intros Hroom Hplain. unfold saveOrder.
  destruct (eval_update ordersTable (ord_ID o) (ord_Revision o) (bump_order o) t a) as (d & Hd & He);
    [by apply encodes_order|done|done|].
  unfold spec_checkOrder. simpl in He. destruct (check_revision _ _) as [err|] eqn:Hc; [by apply step_error|].
  destruct (check_room _ _ _ _ Hroom Hc) as (_ & Hhigh & [o' Ho']). unfold updateData in He. rewrite Hhigh in He.
  eexists. split; [exact He|]. destruct R. split; simpl; try done.
  - apply tab_rel_update; [done|done| |by eexists]. by intros r old [_ Hid]%row_of_Some _ [? ? ? ?].
  - rewrite sr_created0. unfold update_row. rewrite map_map. apply map_ext. intros r. by case_bool_decide.
  - unfold update_row. rewrite map_map. erewrite map_ext; [done|]. intros r. by case_bool_decide.
  - rewrite lookup_insert_ne; [done|]. intros Hid. rewrite Hid in Ho'. congruence.
Qed.

Lemma saveChallenge_step c :
  rooms ch_Revision (as_challenges a) → plainChallenge c = true →
  step (saveChallenge c) t (spec_checkChallenge c a) (put_challenge (bump_challenge c) a).
Proof.
  intros Hroom Hplain. unfold saveChallenge.
  destruct (eval_update challengesTable (ch_ID c) (ch_Revision c) (bump_challenge c) t a) as (d & Hd & He);
    [by apply encodes_challenge|done|done|].
  unfold spec_checkChallenge. simpl in He. destruct (check_revision _ _) as [err|] eqn:Hc; [by apply step_error|].
  destruct (check_room _ _ _ _ Hroom Hc) as (_ & Hhigh & Hs). unfold updateData in He. rewrite Hhigh in He.
  eexists. split; [exact He|]. destruct R. split; simpl; try done.
  apply tab_rel_update; [done|done| |done]. by intros r old [_ Hid]%row_of_Some _ [? ? ?].
Qed.

(** The index columns of an authorization follow its data. *)
Lemma saveAuthorization_step z :
  rooms az_Revision (as_authzs a) → keeps_scope z a → in_range (az_Expires z) → canonical_status (az_Status z) = true →
  step (saveAuthorization z) t (spec_checkAuthz z a) (put_authz (bump_authz z) a).
Proof.
  intros Hroom Hkeep Hrange Hcanon. unfold saveAuthorization. cbv zeta. fold (bump_authz z).
  destruct (eval_update authorizationsTable (az_ID z) (az_Revision z) (bump_authz z) t a) as (d & Hd & He); [apply _|done|done|].
  unfold spec_checkAuthz. unfold revision_of in He. unfold step.
  destruct (check_revision _ _) as [err|] eqn:Hc; [exists (SqlError err), t; by rewrite eval_bind, He|].
  destruct (check_room _ _ _ _ Hroom Hc) as (_ & Hhigh & [old Hold]). unfold updateData in He. rewrite Hhigh in He.
  eexists. rewrite eval_bind, He, eval_run. split; [reflexivity|]. destruct R. split; simpl; try done.
  rewrite update_row_twice by done. apply tab_rel_update; [done|done| |by eexists].
  intros r old' [_ Hid]%row_of_Some Hold' []. destruct (Hkeep _ Hold') as [Hacct Hident].
  split; simpl; try done; [congruence|].
  change (plain_type (orderIdentifier z) = true). by rewrite Hident.
Qed.

End saving.

(** ** Tasks *)

Lemma Forall2_row_of rows tasks id :
  Forall2 task_row rows tasks → option_Forall2 task_row (row_of id rows) (find_task id tasks).
Proof.
  induction 1 as [|r k rows tasks Hrk _ IH]; [constructor|]. rewrite row_of_cons.
  unfold find_task. rewrite filter_cons. pose proof (krow_id _ _ Hrk) as Hid.
  change (row_id r) with (tr_id r). rewrite Hid. by destruct (decide (task_ID k = id)); [constructor|].
Qed.

Lemma Forall2_update_row rows tasks id f g :
  Forall2 task_row rows tasks → (∀ r k, r ∈ rows → tr_id r = id → task_row r k → task_row (f r) (g k)) →
  Forall2 task_row (update_row id f rows) (update_task id g tasks).
Proof.
  induction 1 as [|r k rows tasks Hrk _ IH]; intros Hf; [constructor|]. simpl. constructor.
  - change (row_id r) with (tr_id r). rewrite <- (krow_id _ _ Hrk). case_bool_decide; [|done]. apply Hf; [left|done|done].
  - apply IH. intros r' k' Hr'. apply Hf. by right.
Qed.

Lemma Forall2_remove_row rows tasks id :
  Forall2 task_row rows tasks → Forall2 task_row (filter (λ r, tr_id r ≠ id) rows) (remove_task id tasks).
Proof.
  induction 1 as [|r k rows tasks Hrk _ IH]; [constructor|]. unfold remove_task. rewrite !filter_cons.
  pose proof (krow_id _ _ Hrk) as Hid.
  rewrite Hid. destruct (decide (task_ID k ≠ id)); [by constructor|done].
Qed.

Lemma ids_inj {X} (f : X → string) l r s : NoDup (map f l) → r ∈ l → s ∈ l → f r = f s → r = s.
Proof.
  induction l as [|x l IH]; simpl; [set_solver|]. intros [Hx Hl]%NoDup_cons.
  intros [->|Hr]%elem_of_cons [->|Hs]%elem_of_cons Heq; [done| | |by apply IH]; destruct Hx.
  - rewrite Heq. by apply (list_elem_of_fmap_2 f).
  - rewrite <- Heq. by apply (list_elem_of_fmap_2 f).
Qed.

Lemma task_row_inj r k k' : task_row r k → task_row r k' → k = k'.
Proof. intros Hk Hk'. pose proof (krow_data _ _ Hk). pose proof (krow_data _ _ Hk'). congruence. Qed.

Lemma Forall_map_filter {X} (f : X → Z) (D : X → Prop) `{∀ x, Decision (D x)} (Q : Z → Prop) l :
  Forall Q (map f l) → Forall Q (map f (filter D l)).
Proof.
  rewrite !Forall_forall. intros HQ z (x & -> & [_ Hx]%list_elem_of_filter)%list_elem_of_fmap.
  apply HQ. by apply (list_elem_of_fmap_2 f).
Qed.

Lemma increasing_filter {X} (f : X → Z) (D : X → Prop) `{∀ x, Decision (D x)} l last :
  increasing (map f l) last → increasing (map f (filter D l)) last.
Proof.
  intros (Hge & Hs & Hl). split_and!; [done| |by apply Forall_map_filter].
  clear Hl. induction l as [|x l IH]; [constructor|]. simpl in Hs. apply StronglySorted_inv in Hs as [Hs Hx].
  rewrite filter_cons. destruct (decide (D x)); [|by apply IH]. simpl. constructor; [by apply IH|].
  by apply Forall_map_filter.
Qed.

Section tasks.
Context t a (R : sql_rel t a).

Lemma eval_checkTask k :
  eval (checkTask k) t =
    (match spec_checkTask k a with
     | None => Ok tt
     | Some ErrNotFound => Err SqlNoRows
     | Some err => Err (SqlError err)
     end, t).
Proof.
  unfold checkTask, spec_checkTask. rewrite eval_bind, eval_run. simpl.
  destruct (Forall2_row_of _ _ (task_ID k) (sr_tasks _ _ R)) as [r k' Hrk|]; simpl; [|done].
  rewrite (krow_fence _ _ Hrk). by destruct (bool_decide (task_Fence k' = task_Fence k)).
Qed.

Lemma checkTask_step k : step (checkTask k) t (spec_checkTask k a) a.
Proof.
  unfold step. destruct (spec_checkTask k a) as [err|] eqn:Hc.
  - rewrite eval_checkTask, Hc. by destruct err; eexists _, t.
  - exists t. by rewrite eval_checkTask, Hc.
Qed.

Lemma finishTask_step k :
  step (finishTask k) t (spec_checkTask k a) (put_tasks (remove_task (task_ID k) (as_tasks a)) a).
Proof.
  unfold step, finishTask. destruct (spec_checkTask k a) as [err|] eqn:Hc.
  - rewrite eval_bind, eval_checkTask, Hc. by destruct err; eexists _, t.
  - eexists. rewrite eval_bind, eval_checkTask, Hc, eval_run. split; [reflexivity|]. destruct R. split; simpl; try done.
    + by apply Forall2_remove_row.
    + eapply sublist_NoDup; [exact sr_taskIDs0|]. apply fmap_sublist, sublist_filter.
    + by apply increasing_filter.
Qed.

Lemma insertTask_step k :
  (t_tasksSequence t < 2 ^ 63 - 1)%Z → in_range (task_RunAt k) → canonical_kind (task_Kind k) = true →
  step (insertTask k) t (spec_newTask k a) (put_tasks (as_tasks a ++ [enqueued k]) a).
Proof.
  intros Hseq Hrange Hcanon. unfold step, insertTask.
  edestruct (eval_insert (InsertTask (task_ID k) (TaskKind_string (task_Kind k)) (task_AccountID k) (timestamp (task_RunAt k)))
    (resetTask k) t) as (d & Hd & He); [apply _|].
  simpl in He. rewrite (proj2 (Z.leb_gt _ _) Hseq) in He. unfold spec_newTask, has_row in *.
  pose proof (Forall2_row_of _ _ (task_ID k) (sr_tasks _ _ R)) as Hrk.
  destruct (row_of (task_ID k) (t_tasks t)) as [r|] eqn:Hrow, (find_task (task_ID k) (as_tasks a));
    inversion Hrk; [by eexists _, t|].
  eexists. split; [exact He|]. destruct R. split; simpl; try done.
  - apply Forall2_app; [done|]. constructor; [|constructor]. split; simpl; try done. by left.
  - rewrite map_app. apply NoDup_app. split_and!; [done| |apply NoDup_singleton].
    intros id Hin ->%list_elem_of_singleton. simpl in Hin. by apply row_of_None in Hrow.
  - rewrite map_app. by apply increasing_snoc.
Qed.

(** Releasing the lease of a stored task. *)
Lemma releaseTask_step k :
  spec_checkTask k a = None → in_range (task_RunAt k) →
  step (releaseTask k) t None (put_tasks (update_task (task_ID k) (released (task_RunAt k)) (as_tasks a)) a).
Proof.
  intros Hc Hrange. unfold step, releaseTask. apply check_revision_None, fmap_Some in Hc as (k' & Hk' & _).
  pose proof (Forall2_row_of _ _ (task_ID k) (sr_tasks _ _ R)) as Hrow. rewrite Hk' in Hrow.
  destruct (row_of (task_ID k) (t_tasks t)) as [r|] eqn:Hr; inversion Hrow as [? ? HP|]; subst.
  destruct (encodes_task (released (task_RunAt k) k')) as (d & He & Hd).
  eexists. rewrite eval_bind, eval_read. simpl. rewrite Hr. simpl. rewrite (krow_data _ _ HP).
  rewrite eval_bind, eval_pureErr. fold (released (task_RunAt k) k'). rewrite He, eval_run. split; [reflexivity|].
  split; simpl; try apply R.
  - apply Forall2_update_row; [apply R|]. intros s j Hs Hid Hsj.
    assert (row_of (task_ID k) (t_tasks t) = Some s) as Hrs
      by (rewrite <- Hid; exact (row_of_elem _ s (sr_taskIDs _ _ R) Hs)).
    rewrite Hr in Hrs. simplify_eq. rewrite (task_row_inj _ _ _ HP Hsj) in *.
    destruct Hsj. split; simpl; try done. by left.
  - unfold update_row. rewrite map_map. erewrite map_ext; [apply R|]. intros s. by case_bool_decide.
  - unfold update_row. rewrite map_map. erewrite map_ext; [apply R|]. intros s. by case_bool_decide.
Qed.

End tasks.
(** ** Room for one more call

    A statement cannot bind an unsigned number of 64 bits with the high bit set, and sequences end. *)
Definition roomFor (n : nat) (z : Z) : Prop := (0 ≤ z ∧ z + Z.of_nat n < 2 ^ 63)%Z.

Record sql_capacity (n : nat) t : Prop := {
  cap_first : roomFor n 1;
  cap_accounts : Forall (λ r, roomFor n (ar_revision r)) (t_accounts t);
  cap_orders : Forall (λ r, roomFor n (or_revision r)) (t_orders t);
  cap_authzs : Forall (λ r, roomFor n (zr_revision r)) (t_authorizations t);
  cap_challenges : Forall (λ r, roomFor n (hr_revision r)) (t_challenges t);
  cap_certificates : Forall (λ r, roomFor n (cr_revision r)) (t_certificates t);
  cap_tasks : Forall (λ r, roomFor n (tr_fence r)) (t_tasks t);
  cap_ordersSequence : roomFor n (t_ordersSequence t);
  cap_tasksSequence : roomFor n (t_tasksSequence t)
}.

Definition sql_room t : Prop := sql_capacity 1 t.

Lemma tab_rooms {R V} `{Row R} (P : R → V → Prop) (column : R → Z) (revision : V → Z) l m n :
  tab_rel P l m → (∀ r v, P r v → column r = revision v) →
  Forall (λ r, roomFor (S n) (column r)) l → rooms revision m.
Proof.
  intros T Hc Hl k v Hv. destruct (tab_Some _ T _ _ Hv) as (r & [Hr _]%row_of_Some & HP).
  rewrite <- (Hc _ _ HP). rewrite Forall_forall in Hl. pose proof (Hl r Hr) as [? ?]. unfold room. lia.
Qed.

Section room.
Context t a (R : sql_rel t a) n (C : sql_capacity (S n) t).

Lemma account_rooms : rooms acct_Revision (as_accounts a).
Proof. eapply (tab_rooms account_row); [apply (sr_accounts _ _ R)| |apply (cap_accounts _ _ C)]. by intros r v []. Qed.
Lemma order_rooms : rooms ord_Revision (as_orders a).
Proof. eapply (tab_rooms order_row); [apply (sr_orders _ _ R)| |apply (cap_orders _ _ C)]. by intros r v []. Qed.
Lemma authz_rooms : rooms az_Revision (as_authzs a).
Proof. eapply (tab_rooms authz_row); [apply (sr_authzs _ _ R)| |apply (cap_authzs _ _ C)]. by intros r v []. Qed.
Lemma challenge_rooms : rooms ch_Revision (as_challenges a).
Proof. eapply (tab_rooms challenge_row); [apply (sr_challenges _ _ R)| |apply (cap_challenges _ _ C)]. by intros r v []. Qed.
Lemma certificate_rooms : rooms crt_Revision (as_certificates a).
Proof. eapply (tab_rooms certificate_row); [apply (sr_certificates _ _ R)| |apply (cap_certificates _ _ C)]. by intros r v []. Qed.

End room.

(** ** Methods *)

Definition refined {X} (m : Res X * Tables) (s : Res X * AStore) : Prop := m.1 = s.1 ∧ sql_rel m.2 s.2.

Lemma run_guarded {X} p (x : X) t a errs a' :
  sql_rel t a → step p t (first_error errs) a' →
  refined (sqlite_run None (do! transaction true p in ok x) t) (guarded errs x a' a).
Proof.
  intros R Hp. unfold refined, guarded, sqlite_run, sql_bind, step in *. rewrite exec_bind, exec_transaction_write.
  destruct (first_error errs) as [err|].
  - destruct Hp as (e & t' & -> & He). simpl. by rewrite He.
  - by destruct Hp as (t' & -> & R').
Qed.

Lemma run_guarded_unit p t a errs a' :
  sql_rel t a → step p t (first_error errs) a' →
  refined (sqlite_run None (transaction true p) t) (guarded errs tt a' a).
Proof.
  intros R Hp. unfold refined, guarded, sqlite_run, step in *. rewrite exec_transaction_write.
  destruct (first_error errs) as [err|].
  - destruct Hp as (e & t' & -> & He). simpl. by rewrite He.
  - by destruct Hp as (t' & -> & R').
Qed.

(** A method that reads through the handle. *)
Lemma run_query {X} (p : prog onReader (SqlRes X)) t r :
  eval p t = (r, t) → sqlite_run None (query p) t = (goResult r, t).
Proof. intros Hp. unfold sqlite_run, query. rewrite exec_on_query, Hp. done. Qed.

Lemma refined_lookup {X} (p : prog onReader (SqlRes X)) t a (o : option X) :
  sql_rel t a → eval p t = (result_of o, t) → refined (sqlite_run None (query p) t) (lookup_result o a).
Proof. intros R Hp. rewrite (run_query _ _ _ Hp). by destruct o. Qed.

Lemma step_last p t err a' : step p t err a' → step p t (first_error [err]) a'.
Proof. by destruct err. Qed.

End rel.
