(* ===== verification/SqliteCalls.v ===== *)
(** * Every call of the SQLite store refines the contract

    What a caller has to respect for the SQLite store, one lemma per method, collected in
    [sqlite_step_refines], how far revisions grow in one call and the room a call leaves, and the
    instance of the store interface for the tables. *)

From S2P Require Import Prelude Status Problem Resource Base64 Netip StoreSpec Prog Host Platform Identifier Sqldb Sqlitestore SqliteRel.

Section legal.
Context `{Platform} `{Gob}.

(** The index columns of an authorization determine the fields they come from. *)
Definition indexable (z : Authorization) : Prop :=
  in_range (az_Expires z) ∧ canonical_status (az_Status z) = true.

(** An authorization ID is in use. *)
Definition authz_used (authzs : list Authorization) (a : AStore) : bool :=
  existsb (λ z, bool_decide (is_Some (as_authzs a !! az_ID z))) authzs.

(** The IDs of an order's new authorizations and challenges are not in use. *)
Definition fresh_parts (authzs : list Authorization) (challenges : list Challenge) (a : AStore) : bool :=
  negb (authz_used authzs a ||
        existsb (λ c, bool_decide (is_Some (as_challenges a !! ch_ID c))) challenges).

Definition certificate_conflict (c : Certificate) (a : AStore) : bool :=
  bool_decide (is_Some (as_certificates a !! crt_ID c)) ||
  ((crt_RenewalID c != "") && bool_decide (is_Some (find_renewal (crt_RenewalID c) a))).

(** The orders an authorization still invalidates: [spec_undispatched] and the condition of the
    SQLite store agree on it. *)
Definition regular (o : Order) : bool :=
  spec_undispatched o == negb (OrderStatus_Terminal (ord_Status o) || (ord_Issuance o != None)).

(** The problems of the orders and challenges a call writes are complete. *)
Definition plainCall {X : Type} (c : storeCall X) : bool :=
  match c with
  | CallCreateOrder order _ challenges => plainOrder order && forallb plainChallenge challenges
  | CallAcceptChallenge challenge _ | CallRetryValidation _ challenge => plainChallenge challenge
  | CallFinalizeOrder order _ | CallBeginIssuance _ order _ _ | CallCompleteIssuance _ order _ => plainOrder order
  | CallCompleteValidation _ challenge _ order => plainChallenge challenge && plainOrder order
  | _ => true
  end.

(** References name stored resources, times lie in the range of the columns, keys and problems come
    back from their encoding, and an operation that
    fails in two ways is left out where the store reports the other error first. *)
Definition sqlite_legal {X : Type} (c : storeCall X) (a : AStore) : Prop :=
  plainCall c = true ∧
  match c with
  | CallCreateAccount account => acct_ID account ≠ "" ∧ acct_KeyThumbprint account ≠ "" ∧ portable (acct_Key account) = true
  | CallUpdateAccount account => portable (acct_Key account) = true
  | CallCreateOrder order authzs challenges =>
      ord_ID order ≠ "" ∧ is_Some (as_accounts a !! ord_AccountID order) ∧
      NoDup (map az_ID authzs) ∧ NoDup (map ch_ID challenges) ∧
      Forall (λ z, az_AccountID z = ord_AccountID order ∧ az_OrderID z = ord_ID order ∧ indexable z ∧
                   plain_type (orderIdentifier z) = true) authzs ∧
      (authz_used authzs a = true ∨ Forall (λ c, ch_AuthorizationID c ∈ map az_ID authzs) challenges) ∧
      (ord_Replaces order = "" ∨ fresh_parts authzs challenges a = true) ∧
      (∀ k c, as_certificates a !! k = Some c → crt_ReplacedByOrderID c = ord_ID order → is_Some (as_orders a !! ord_ID order))
  | CallOrderIDs _ _ limit => (0 < limit)%Z
  | CallUpdateAuthorization authz =>
      keeps_scope authz a ∧ indexable authz ∧
      (AuthorizationStatus_Terminal (az_Status authz) = true →
       ∃ o, as_orders a !! az_OrderID authz = Some o ∧ regular o = true)
  | CallAuthorizedFor _ identifiers now => in_range now ∧ Forall (λ id, plain_type id = true) identifiers
  | CallUpdateCertificate cert =>
      ∀ stored, as_certificates a !! crt_ID cert = Some stored → crt_RenewalID cert = crt_RenewalID stored
  | CallAcceptChallenge _ task | CallFinalizeOrder _ task =>
      in_range (task_RunAt task) ∧ canonical_kind (task_Kind task) = true
  | CallBeginIssuance _ order account authzs =>
      is_Some (as_orders a !! ord_ID order) ∧ is_Some (as_accounts a !! acct_ID account) ∧
      Forall (λ z, is_Some (as_authzs a !! az_ID z)) authzs
  | CallClaimTask now leaseUntil => in_range now ∧ in_range leaseUntil
  | CallRescheduleTask task | CallRetryValidation task _ => in_range (task_RunAt task)
  | CallCompleteValidation _ _ authz _ => keeps_scope authz a ∧ indexable authz
  | CallCompleteIssuance _ order (Some cert) =>
      is_Some (as_orders a !! crt_OrderID cert) ∧
      (spec_checkOrder order a = None ∨ certificate_conflict cert a = false)
  | CallPendingTasks now | CallLeasedTasks now => in_range now
  | _ => True
  end.

End legal.

Section calls.
Context `{Platform} `{Gob} `{!GobLaws}.
Context (t : Tables) (a : AStore) (R : sql_rel t a) (C : sql_room t).

(** The contract as the SQLite store keeps it. *)
Definition refines {X} (c : storeCall X) : Prop := refined (sqlite_run None (sqlite_method c) t) (spec_exec c a).

(** ** Accounts *)

Lemma sqlite_account id : refines (CallAccount id).
Proof. apply refined_lookup; [done|]. by apply eval_read_account. Qed.

Lemma taken_claim value id :
  taken ar_external_claim (claim value) id (t_accounts t) =
    (value != "") && has_value (λ b, (acct_ID b != id) && (acct_ExternalAccountClaim b == value)) (as_accounts a).
Proof.
  unfold taken, claim. destruct (decide (value = "")) as [->|Hne]; [by rewrite !bool_decide_true by done|].
  rewrite (bool_decide_false (value = "")) by done. simpl. symmetry. eapply (tab_has_value _ (sr_accounts _ _ R)).
  intros r b []. change (row_id r) with (ar_id r). rewrite arow_id, arow_claim. unfold claim.
  destruct (decide (acct_ExternalAccountClaim b = "")) as [E|E].
  - rewrite E. by rewrite (bool_decide_true ("" = "")), (bool_decide_false ("" = value)) by done.
  - rewrite (bool_decide_false (acct_ExternalAccountClaim b = "")) by done. simpl. f_equal.
    apply bool_decide_ext. naive_solver.
Qed.

Lemma taken_thumbprint value id :
  taken (λ r, Some (ar_key_thumbprint r)) (Some value) id (t_accounts t) =
    has_value (λ b, (acct_ID b != id) && (acct_KeyThumbprint b == value)) (as_accounts a).
Proof.
  symmetry. unfold taken. eapply (tab_has_value _ (sr_accounts _ _ R)). intros r b [].
  change (row_id r) with (ar_id r). rewrite arow_id, arow_thumbprint. f_equal. apply bool_decide_ext. naive_solver.
Qed.

(** A search among the other accounts, for an ID that no account has. *)
Lemma other_fresh (p : Account → bool) id :
  as_accounts a !! id = None →
  has_value (λ b, (acct_ID b != id) && p b) (as_accounts a) = has_value p (as_accounts a).
Proof.
  intros Hid. apply eq_bool_prop_intro. rewrite !Is_true_true, !has_value_true.
  split; intros (k & b & Hb & Hp); exists k, b; (split; [done|]).
  - by go_bool.
  - rewrite Hp, andb_true_r. apply negb_bool_decide_true. intros Heq.
    destruct (tab_Some _ (sr_accounts _ _ R) _ _ Hb) as (r & [Hr Hk]%row_of_Some & HP).
    assert (k = acct_ID b) as Hkb by (rewrite <- (arow_id _ _ HP); by rewrite <- Hk). congruence.
Qed.

Lemma insertAccount_conflict b :
  has_row (acct_ID b) (t_accounts t) ||
    accountConflict (acct_KeyThumbprint b) (claim (acct_ExternalAccountClaim b)) (acct_ID b) (t_accounts t) =
  bool_decide (is_Some (as_accounts a !! acct_ID b)) ||
    has_value (λ c, acct_KeyThumbprint c == acct_KeyThumbprint b) (as_accounts a) ||
    ((acct_ExternalAccountClaim b != "") &&
     has_value (λ c, acct_ExternalAccountClaim c == acct_ExternalAccountClaim b) (as_accounts a)).
Proof.
  rewrite (tab_has_row _ (sr_accounts _ _ R)). unfold accountConflict. rewrite taken_thumbprint, taken_claim.
  destruct (as_accounts a !! acct_ID b) as [old|] eqn:Hold; [done|]. simpl. by rewrite !other_fresh.
Qed.

Lemma sqlite_createAccount b : sqlite_legal (CallCreateAccount b) a → refines (CallCreateAccount b).
Proof.
  intros (_ & Hid & Hkey & Henc). unfold refines. simpl. unfold CreateAccount, spec_createAccount.
  rewrite (bool_decide_false _ Hid), (bool_decide_false _ Hkey). simpl.
  set (b1 := {| b with acct_Revision := 1%Z |}).
  edestruct (eval_insert (InsertAccount (acct_ID b) 1 (acct_KeyThumbprint b) (claim (acct_ExternalAccountClaim b))) b1 t)
    as (d & Hd & He); [by apply encodes_account|].
  rewrite <- (insertAccount_conflict b). simpl in He.
  match goal with |- context [if ?E then (Err ErrConflict, a) else (Ok b1, ?a')] =>
    change (if E then (Err ErrConflict, a) else (Ok b1, a')) with
      (if E then (Err ErrConflict, a) else guarded [] b1 a' a) end.
  destruct (has_row _ _) eqn:Hrow; simpl.
  { apply (run_guarded _ _ t a [Some ErrConflict] a R). by eexists _, t. }
  destruct (accountConflict _ _ _ _) eqn:Hconf.
  { apply (run_guarded _ _ t a [Some ErrConflict] a R). by eexists _, t. }
  apply run_guarded; [done|]. eexists. split; [exact He|].
  rewrite (tab_has_row _ (sr_accounts _ _ R)) in Hrow. apply bool_decide_eq_false, eq_None_not_Some in Hrow.
  unfold accountConflict in Hconf. apply orb_false_iff in Hconf as [Hth _].
  split; simpl; try apply R.
  - by apply (tab_rel_insert account_row (sr_accounts _ _ R) (mkAccountRow (acct_ID b) _ _ _ _)).
  - apply unique_column_snoc; [apply R|done|]. by apply (tab_None account_row (sr_accounts _ _ R)).
Qed.

(** ** The account of a key *)

Lemma sqlite_accountByKey thumbprint : refines (CallAccountByKey thumbprint).
Proof.
  unfold refines. simpl. unfold AccountByKey.
  set (o := find_value (λ b, acct_KeyThumbprint b == thumbprint) (as_accounts a)).
  assert (option_Forall2 account_row (head (filter (λ r, ar_key_thumbprint r = thumbprint) (t_accounts t))) o) as Ho.
  { apply (tab_find account_row (sr_accounts _ _ R)).
    - intros r b []. rewrite bool_decide_eq_true. by rewrite arow_thumbprint.
    - intros r s Hr Hs Hv Hw. by eapply (sr_thumbprints _ _ R); [| |rewrite Hv|rewrite Hw]. }
  unfold sqlite_run, sql_bind, stored. rewrite !exec_bind. unfold query. rewrite exec_on_query, eval_run. simpl.
  destruct Ho as [r b HP|]; simpl; [|done]. by rewrite (arow_data _ _ HP).
Qed.

Lemma updated_conflict thumbprint external id k f :
  (∀ r, ar_id (f r) = ar_id r) → (∀ r, ar_key_thumbprint (f r) = ar_key_thumbprint r) →
  (∀ r, ar_external_claim (f r) = ar_external_claim r) →
  accountConflict thumbprint external id (update_row k f (t_accounts t)) =
    accountConflict thumbprint external id (t_accounts t).
Proof.
  intros Hid Hth Hcl. unfold accountConflict. rewrite !taken_update_row; [done|done|done|done|].
  intros r. by rewrite Hth.
Qed.

Lemma sqlite_updateAccount b : sqlite_legal (CallUpdateAccount b) a → refines (CallUpdateAccount b).
Proof.
  intros [_ Henc]. unfold refines. simpl. unfold UpdateAccount, spec_updateAccount. cbv zeta. fold (bump_account b).
  destruct (eval_update accountsTable (acct_ID b) (acct_Revision b) (bump_account b) t a) as (d & Hd & He);
    [by apply encodes_account|done|done|].
  unfold revision_of in He. destruct (check_revision _ _) as [err|] eqn:Hc.
  { apply (run_guarded _ _ t a [Some err] a R). exists (SqlError err), t. by rewrite eval_bind, He. }
  destruct (check_room _ _ _ _ (account_rooms t a R 0 C) Hc) as (_ & Hhigh & Hs). unfold updateData in He.
  rewrite Hhigh in He.
  match goal with |- refined _ (if ?E then _ else _) =>
    assert (E = accountConflict (acct_KeyThumbprint b) (claim (acct_ExternalAccountClaim b)) (acct_ID b) (t_accounts t))
      as -> by (unfold accountConflict; by rewrite taken_thumbprint, taken_claim) end.
  destruct (accountConflict _ _ _ _) eqn:Hconf.
  { apply (run_guarded _ _ t a [Some ErrConflict] a R). eexists _, _. rewrite eval_bind, He, eval_run. simpl.
    rewrite updated_conflict by done. rewrite Hconf, has_row_is_Some, row_of_update, decide_True by done.
    destruct Hs as [old Hold]. by destruct (tab_Some account_row (sr_accounts _ _ R) _ _ Hold) as (r & -> & _). }
  apply (run_guarded _ _ t a [] _ R). eexists. rewrite eval_bind, He, eval_run. simpl.
  rewrite updated_conflict by done. rewrite Hconf, andb_false_r. split; [reflexivity|].
  rewrite update_row_twice by done. split; simpl; try apply R.
  - apply (tab_rel_update account_row (sr_accounts _ _ R)); [done| |done]. by intros r old [_ Hid]%row_of_Some _ [].
  - unfold accountConflict in Hconf. apply orb_false_iff in Hconf as [Hth _].
    by eapply unique_column_update; [apply R|apply (sr_accounts _ _ R)| | |done].
Qed.

(** ** Certificates *)

Lemma find_renewal_row renewalID :
  renewalID ≠ "" →
  option_Forall2 certificate_row (head (filter (λ r, cr_renewal_id r = Some renewalID) (t_certificates t)))
    (find_renewal renewalID a).
Proof.
  intros Hne. apply (tab_find certificate_row (sr_certificates _ _ R)).
  - intros r c []. rewrite bool_decide_eq_true, crow_renewal. unfold renewalKey. case_bool_decide; naive_solver.
  - intros r s Hr Hs Hv Hw. by eapply (sr_renewals _ _ R).
Qed.

Lemma sqlite_certificateByRenewalID renewalID : refines (CallCertificateByRenewalID renewalID).
Proof.
  unfold refines. simpl. unfold CertificateByRenewalID. case_bool_decide as Hne; [by split|].
  unfold sqlite_run, sql_bind, stored. rewrite !exec_bind. unfold query. rewrite exec_on_query, eval_run. simpl.
  destruct (find_renewal_row renewalID Hne) as [r c HP|]; simpl; [|done]. by rewrite (crow_data _ _ HP).
Qed.

(** Storing a new version of a certificate. *)
Lemma updateCertificate_step revision c :
  rooms crt_Revision (as_certificates a) → crt_Revision c = u64 (revision + 1) →
  (∀ stored, as_certificates a !! crt_ID c = Some stored → crt_RenewalID c = crt_RenewalID stored) →
  step (update certificatesTable (crt_ID c) revision c) t
    (check_revision (crt_Revision <$> as_certificates a !! crt_ID c) revision)
    {| a with as_certificates := <[crt_ID c := c]> (as_certificates a) |}.
Proof.
  intros Hroom Hrev Hkeep.
  destruct (eval_update certificatesTable (crt_ID c) revision c t a) as (d & Hd & He); [apply _|done|done|].
  unfold revision_of in He. destruct (check_revision _ _) as [err|] eqn:Hc; [by apply (step_error _ _ _ a)|].
  destruct (check_room _ _ _ _ Hroom Hc) as (_ & Hhigh & Hs). unfold updateData in He.
  rewrite Hhigh in He. eexists. split; [exact He|]. split; simpl; try apply R.
  - apply (tab_rel_update certificate_row (sr_certificates _ _ R)); [done| |done].
    intros r old [_ Hid]%row_of_Some Hold []. split; simpl; [done| |done|done]. by rewrite crow_renewal, (Hkeep _ Hold).
  - by apply unique_column_keep; [apply R|apply (sr_certificates _ _ R)| |].
Qed.

Lemma sqlite_updateCertificate c : sqlite_legal (CallUpdateCertificate c) a → refines (CallUpdateCertificate c).
Proof.
  intros [_ Hkeep]. apply run_guarded; [done|]. apply step_last.
  apply (updateCertificate_step (crt_Revision c) {| c with crt_Revision := u64 (crt_Revision c + 1) |});
    [by apply (certificate_rooms t a R 0 C)|done|done].
Qed.

(** ** Work *)

(** The sequence of tasks after an update. *)
Lemma tasksSequence_update {V} `{GobType V} table id revision (v : V) t' :
  eval (update table id revision v) t = (Ok tt, t') → (t_tasksSequence t' < 2 ^ 63 - 1)%Z.
Proof.
  intros He. pose proof (eval_sequences 0 _ t (at_most_update table id revision v)) as Hs. rewrite He in Hs.
  destruct (cap_tasksSequence _ _ C). simpl in *. lia.
Qed.

Lemma sqlite_acceptChallenge c k : sqlite_legal (CallAcceptChallenge c k) a → refines (CallAcceptChallenge c k).
Proof.
  intros (Hplain & Hrange & Hcanon). apply run_guarded; [done|]. eapply step_seq.
  - apply saveChallenge_step; [done| |done]. by apply (challenge_rooms t a R 0 C).
  - intros _ t' He R'. apply step_last, (insertTask_step _ _ R'); [|done|done]. exact (tasksSequence_update _ _ _ (bump_challenge c) _ He).
Qed.

Lemma sqlite_finalizeOrder o k : sqlite_legal (CallFinalizeOrder o k) a → refines (CallFinalizeOrder o k).
Proof.
  intros (Hplain & Hrange & Hcanon). apply run_guarded; [done|]. eapply step_seq.
  - apply saveOrder_step; [done| |done]. by apply (order_rooms t a R 0 C).
  - intros _ t' He R'. apply step_last, (insertTask_step _ _ R'); [|done|done]. exact (tasksSequence_update _ _ _ (bump_order o) _ He).
Qed.

Lemma sqlite_finishTask k : refines (CallFinishTask k).
Proof. apply run_guarded_unit; [done|]. by apply step_last, finishTask_step. Qed.

Lemma sqlite_rescheduleTask k : sqlite_legal (CallRescheduleTask k) a → refines (CallRescheduleTask k).
Proof.
  intros [_ Hrange]. apply run_guarded; [done|]. eapply step_seq; [by apply checkTask_step|].
  intros Hc t' He R'. by apply releaseTask_step.
Qed.

Lemma sqlite_retryValidation k c : sqlite_legal (CallRetryValidation k c) a → refines (CallRetryValidation k c).
Proof.
  intros [Hplain Hrange]. apply run_guarded; [done|]. eapply step_seq; [by apply checkTask_step|].
  intros Hc t' He R'. eapply step_seq.
  - apply saveChallenge_step; [done| |done]. by apply (challenge_rooms t a R 0 C).
  - intros _ t'' _ R''. by apply (releaseTask_step _ _ R'').
Qed.

Lemma sqlite_completeValidation k c z o :
  sqlite_legal (CallCompleteValidation k c z o) a → refines (CallCompleteValidation k c z o).
Proof.
  intros ([Hpc Hpo]%andb_prop & Hkeep & Hrange & Hcanon). apply run_guarded; [done|]. eapply step_seq; [by apply checkTask_step|].
  intros Hc t1 _ R1. eapply step_seq.
  { apply saveChallenge_step; [done| |done]. by apply (challenge_rooms t a R 0 C). }
  intros _ t2 _ R2. eapply step_seq.
  { apply (saveAuthorization_step _ _ R2); [|done|done|done]. by apply (authz_rooms t a R 0 C). }
  intros _ t3 _ R3. eapply step_seq.
  { apply (saveOrder_step _ _ R3); [|done]. by apply (order_rooms t a R 0 C). }
  intros _ t4 _ R4. pose proof (finishTask_step t4 _ R4 k) as Hf.
  change (spec_checkTask k a = None) in Hc. unfold spec_checkTask in *. simpl in Hf. by rewrite Hc in Hf.
Qed.

Lemma sqlite_updateAuthorization z :
  sqlite_legal (CallUpdateAuthorization z) a → refines (CallUpdateAuthorization z).
Proof.
  intros (_ & Hkeep & (Hrange & Hcanon) & Hterm).
  set (b := put_authz (bump_authz z) a).
  set (a' := match as_orders b !! az_OrderID z with
             | Some order => if AuthorizationStatus_Terminal (az_Status z) && spec_undispatched order
                             then put_order (spec_invalidated order) b else b
             | None => b
             end).
  assert (spec_exec (CallUpdateAuthorization z) a = guarded [spec_checkAuthz z a] (bump_authz z) a' a) as Hspec.
  { simpl. unfold spec_updateAuthorization, guarded. simpl. by destruct (spec_checkAuthz z a). }
  unfold refines. rewrite Hspec. apply run_guarded; [done|]. eapply step_seq.
  { apply saveAuthorization_step; [done|by apply (authz_rooms t a R 0 C)|done|done|done]. }
  intros _ t' _ R'. fold b in R'. subst a'. unfold step. simpl.
  destruct (AuthorizationStatus_Terminal (az_Status z)); simpl; [|exists t'; by destruct (as_orders a !! _)].
  destruct (Hterm eq_refl) as (o & Ho & Hreg). apply bool_decide_eq_true in Hreg.
  change (as_orders b) with (as_orders a). rewrite Ho, Hreg.
  setoid_rewrite eval_bind. setoid_rewrite (eval_read_order t' b R'). change (as_orders b) with (as_orders a). rewrite Ho.
  simpl. destruct (_ || _); simpl; [by exists t'|].
  destruct (tab_Some order_row (sr_orders _ _ R) _ _ Ho) as (r & [_ Hr]%row_of_Some & HP).
  pose proof (saveOrder_step t' b R'
    {| o with ord_Status := OrderInvalid; ord_Error := Some InvalidAuthorizationProblem |} (order_rooms t a R 0 C)
    (proj2 (andb_prop _ _ (orow_plain _ _ HP)))) as Hs.
  assert (ord_ID o = az_OrderID z) as Hid by (rewrite <- (orow_id _ _ HP); exact Hr).
  assert (spec_checkOrder {| o with ord_Status := OrderInvalid; ord_Error := Some InvalidAuthorizationProblem |} b = None)
    as Hnone.
  { apply check_revision_None. simpl. by rewrite Hid, Ho. }
  rewrite Hnone in Hs. exact Hs.
Qed.

(** Checks that can only fail with a revision mismatch. *)
Lemma first_error_mismatch errs :
  Forall (λ e, e = None ∨ e = Some ErrRevisionMismatch) errs →
  first_error errs = if forallb (λ e, if e is None then true else false) errs then None else Some ErrRevisionMismatch.
Proof. induction 1 as [|e errs [->| ->] _ IH]; simpl; [done|done|done]. Qed.

Lemma eval_checkAuthorizations authorizedAt authzs ids :
  Forall (λ z, is_Some (as_authzs a !! az_ID z)) authzs → length authzs = length ids →
  eval (checkAuthorizations authorizedAt authzs ids) t =
    (match first_error (map (snapshot_error authorizedAt a) (zip authzs ids)) with
     | None => Ok tt
     | Some err => Err (SqlError err)
     end, t).
Proof.
  revert ids. induction authzs as [|z authzs IH]; intros [|id ids] Hall Hlen; simpl; try done.
  apply Forall_cons in Hall as [[z' Hz] Hall]. rewrite eval_bind, (eval_checkRevision _ _ _ t a R) by done.
  unfold revision_of. fold (spec_checkAuthz z a). destruct (spec_checkAuthz z a) as [err|]; [done|].
  simpl. unfold After.
  destruct (bool_decide (az_ID z = id)); simpl; [|done].
  destruct (bool_decide (az_Status z = AuthorizationValid)); simpl; [|done].
  destruct (authorizedAt <? az_Expires z)%Z; simpl; [|done]. apply IH; [done|]. simpl in Hlen. lia.
Qed.

Lemma snapshot_mismatch authorizedAt authzs ids :
  Forall (λ z, is_Some (as_authzs a !! az_ID z)) authzs →
  Forall (λ e, e = None ∨ e = Some ErrRevisionMismatch) (map (snapshot_error authorizedAt a) (zip authzs ids)).
Proof.
  revert ids. induction authzs as [|z authzs IH]; intros [|id ids] Hall; simpl; try constructor.
  - apply Forall_cons in Hall as [[z' Hz] _]. unfold spec_checkAuthz, check_revision. rewrite Hz. simpl.
    repeat case_match; auto; done.
  - apply IH. by apply Forall_cons in Hall as [_ ?].
Qed.

Lemma checkOrder_mismatch o :
  is_Some (as_orders a !! ord_ID o) → spec_checkOrder o a = None ∨ spec_checkOrder o a = Some ErrRevisionMismatch.
Proof. intros [o' Ho]. unfold spec_checkOrder, check_revision. rewrite Ho. simpl. case_match; auto. Qed.

(** The part of a dispatch after the check of its task: it fails with a revision mismatch only,
    whatever fails first. *)
Lemma dispatch_step o b authzs o' b' :
  plainOrder o = true → as_orders a !! ord_ID o = Some o' → as_accounts a !! acct_ID b = Some b' →
  Forall (λ z, is_Some (as_authzs a !! az_ID z)) authzs →
  let authorizedAt := default zeroTime (is_AuthorizedAt <$> ord_Issuance o) in
  let current := (acct_Revision b' == acct_Revision b) && (acct_Status b' == AccountValid) in
  let dispatchable := (ord_Status o' == OrderProcessing) && (ord_Issuance o' == None) && negb (ord_Issuance o == None) &&
                      (length authzs == length (ord_AuthorizationIDs o)) in
  let snapshot := first_error (map (snapshot_error authorizedAt a) (zip authzs (ord_AuthorizationIDs o))) in
  step
    (do! checkRevision accountsTable (acct_ID b) (acct_Revision b) in
     let! currentAccount := read (V := Account) accountsTable (acct_ID b) in
     let! currentOrder := read (V := Order) ordersTable (ord_ID o) in
     if (acct_Status currentAccount != AccountValid) || (ord_Status currentOrder != OrderProcessing) ||
        (ord_Issuance currentOrder != None) || (ord_Issuance o == None) ||
        (length authzs != length (ord_AuthorizationIDs o))
     then fail (SqlError ErrRevisionMismatch)
     else do! checkAuthorizations authorizedAt authzs (ord_AuthorizationIDs o) in saveOrder o) t
    (if current && dispatchable && (snapshot == None) then spec_checkOrder o a else Some ErrRevisionMismatch)
    (put_order (bump_order o) a).
Proof.
  intros Hplain Ho Hb Hz authorizedAt current dispatchable snapshot.
  pose proof (snapshot_mismatch authorizedAt authzs (ord_AuthorizationIDs o) Hz) as Hsnap%first_error_mismatch.
  fold snapshot in Hsnap. subst current dispatchable.
  pose proof (eval_checkRevision accountsTable (acct_ID b) (acct_Revision b) t a R) as Hrev.
  unfold revision_of in Hrev. rewrite Hb in Hrev. simpl in Hrev. specialize (Hrev ltac:(done)).
  destruct (bool_decide (acct_Revision b' = acct_Revision b)); simpl; [|eapply (step_stop _ _ _ _ _ a); exact Hrev].
  eapply step_bind; [exact Hrev|]. eapply step_bind; [by rewrite (eval_read_account t a R), Hb|].
  eapply step_bind; [by rewrite (eval_read_order t a R), Ho|].
  destruct (bool_decide (acct_Status b' = _)); simpl; [|by apply (step_error _ _ _ a)].
  destruct (bool_decide (ord_Status o' = _)); simpl; [|by apply (step_error _ _ _ a)].
  destruct (bool_decide (ord_Issuance o' = _)); simpl; [|by apply (step_error _ _ _ a)].
  destruct (bool_decide (ord_Issuance o = _)); simpl; [by apply (step_error _ _ _ a)|].
  destruct (bool_decide (length authzs = _)) eqn:Hlen; simpl; [|by apply (step_error _ _ _ a)].
  apply bool_decide_eq_true in Hlen. pose proof (eval_checkAuthorizations authorizedAt _ _ Hz Hlen) as Hck.
  fold snapshot in Hck. destruct (forallb _ _) in Hsnap; rewrite Hsnap in Hck |- *; simpl; [|eapply (step_stop _ _ _ _ _ a); exact Hck].
  eapply step_bind; [exact Hck|]. apply (saveOrder_step t a R o (order_rooms t a R 0 C) Hplain).
Qed.

Lemma sqlite_beginIssuance k o b authzs :
  sqlite_legal (CallBeginIssuance k o b authzs) a → refines (CallBeginIssuance k o b authzs).
Proof.
  intros (Hplain & [o' Ho] & [b' Hb] & Hz). apply run_guarded; [done|]. eapply step_seq; [by apply checkTask_step|].
  intros _ t' He R'. rewrite eval_checkTask with (1 := R) in He.
  assert (t' = t) as -> by (by case_match; simplify_eq).
  pose proof (dispatch_step o b authzs o' b' Hplain Ho Hb Hz) as Hstep. simpl in Hstep.
  unfold account_current. rewrite Hb, Ho.
  match type of Hstep with step _ _ ?E _ => match goal with |- step _ _ ?E' _ => assert (E' = E) as -> end end; [|exact Hstep].
  pose proof (checkOrder_mismatch o) as Hc. rewrite Ho in Hc. specialize (Hc (mk_is_Some _ _ eq_refl)).
  pose proof (snapshot_mismatch (default zeroTime (is_AuthorizedAt <$> ord_Issuance o)) authzs (ord_AuthorizationIDs o) Hz)
    as Hsnap%first_error_mismatch. simpl. rewrite Hsnap.
  destruct (ord_Issuance o); simpl; rewrite ?andb_false_r, ?andb_true_r; simpl;
    destruct Hc as [-> | ->]; repeat (case_match; simpl; try done); go_bool; naive_solver.
Qed.

Lemma insertCertificate_conflict c :
  has_row (crt_ID c) (t_certificates t) ||
    taken cr_renewal_id (renewalKey (crt_RenewalID c)) (crt_ID c) (t_certificates t) = certificate_conflict c a.
Proof.
  unfold certificate_conflict. rewrite (tab_has_row certificate_row (sr_certificates _ _ R)).
  destruct (as_certificates a !! crt_ID c) as [old|] eqn:Hold; [done|]. simpl.
  rewrite taken_fresh by (by apply (tab_None certificate_row (sr_certificates _ _ R))).
  unfold renewalKey. destruct (decide (crt_RenewalID c = "")) as [->|Hr]; [done|].
  rewrite (bool_decide_false _ Hr). simpl.
  rewrite (existsb_head _ (λ r, cr_renewal_id r = Some (crt_RenewalID c))) by (intros r; apply bool_decide_eq_true).
  by destruct (find_renewal_row _ Hr).
Qed.

Lemma insertCertificate_step c :
  is_Some (as_orders a !! crt_OrderID c) →
  step (insert (InsertCertificate (crt_ID c) (crt_OrderID c) (renewalKey (crt_RenewalID c)) 1) {| c with crt_Revision := 1%Z |})
    t (if certificate_conflict c a then Some ErrConflict else None)
    {| a with as_certificates := <[crt_ID c := {| c with crt_Revision := 1%Z |}]> (as_certificates a) |}.
Proof.
  intros Ho. edestruct (eval_insert (InsertCertificate (crt_ID c) (crt_OrderID c) (renewalKey (crt_RenewalID c)) 1)
    {| c with crt_Revision := 1%Z |} t) as (d & Hd & He); [apply _|]. simpl in He.
  rewrite <- insertCertificate_conflict. destruct (has_row (crt_ID c) _) eqn:Hrow; [by eexists _, t|].
  destruct (taken _ _ _ _) eqn:Ht; [by eexists _, t|]. simpl.
  rewrite (tab_has_row order_row (sr_orders _ _ R)), bool_decide_true in He by done. simpl in He.
  rewrite (tab_has_row certificate_row (sr_certificates _ _ R)) in Hrow.
  apply bool_decide_eq_false, eq_None_not_Some in Hrow.
  eexists. split; [exact He|]. split; simpl; try apply R.
  - by apply (tab_rel_insert certificate_row (sr_certificates _ _ R) (mkCertificateRow (crt_ID c) _ _ _ _)).
  - apply unique_column_snoc; [apply R|done|]. by apply (tab_None certificate_row (sr_certificates _ _ R)).
Qed.

Lemma sqlite_completeIssuance k o c :
  sqlite_legal (CallCompleteIssuance k o c) a → refines (CallCompleteIssuance k o c).
Proof.
  intros [Hplain Hlegal]. apply run_guarded; [done|]. eapply step_seq; [by apply checkTask_step|].
  intros Hk t' He R'. rewrite eval_checkTask with (1 := R) in He. assert (t' = t) as -> by (by case_match; simplify_eq).
  assert (∀ t1 a1, sql_rel t1 a1 → as_tasks a1 = as_tasks a → as_orders a1 = as_orders a →
    step (do! saveOrder o in finishTask k) t1 (spec_checkOrder o a)
      (put_tasks (remove_task (task_ID k) (as_tasks a)) (put_order (bump_order o) a1))) as Hfinish.
  { intros t1 a1 R1 Htasks Horders.
    pose proof (saveOrder_step t1 a1 R1 o) as Hs. rewrite Horders in Hs. specialize (Hs (order_rooms t a R 0 C) Hplain).
    assert (spec_checkOrder o a1 = spec_checkOrder o a) as Hck by (unfold spec_checkOrder; by rewrite Horders).
    rewrite Hck in Hs. replace (spec_checkOrder o a) with (first_error [spec_checkOrder o a]) by (by destruct (spec_checkOrder o a)).
    eapply step_seq; [exact Hs|]. intros _ t2 _ R2. pose proof (finishTask_step t2 _ R2 k) as Hf.
    unfold spec_checkTask in Hf, Hk. simpl in Hf. rewrite Htasks, Hk in Hf. exact Hf. }
  destruct c as [c|]; simpl in Hlegal.
  - destruct Hlegal as [Ho Hor]. fold (certificate_conflict c a).
    replace (first_error [spec_checkOrder o a; if certificate_conflict c a then Some ErrConflict else None])
      with (first_error [if certificate_conflict c a then Some ErrConflict else None; spec_checkOrder o a])
      by (destruct Hor as [-> | ->]; simpl; by destruct (certificate_conflict c a), (spec_checkOrder o a)).
    eapply step_seq; [by apply insertCertificate_step|]. intros _ t1 _ R1. apply step_last. by apply (Hfinish t1 _ R1).
  - replace (first_error [spec_checkOrder o a; None]) with (spec_checkOrder o a) by (by destruct (spec_checkOrder o a)).
    eapply step_bind; [done|]. by apply (Hfinish t a R).
Qed.

(** ** Counting and claiming *)

Lemma timestamp_nonneg now : in_range now → (0 ≤ timestamp now)%Z.
Proof.
  intros Hnow. change 0%Z with (timestamp zeroTime). apply timestamp_le; [by left|done|].
  unfold in_range, unixEpoch, Second, zeroTime in *. lia.
Qed.

Lemma leased_row now r k :
  in_range now → task_row r k → (timestamp now <? tr_lease_until r)%Z = leased now k.
Proof.
  intros Hnow []. rewrite krow_lease. unfold leased. apply eq_bool_prop_intro.
  rewrite !Is_true_true, andb_true_iff, negb_bool_decide_true, !Z.ltb_lt, timestamp_lt by done.
  split; [|tauto]. intros Hlt. split; [|done]. intros Hz. rewrite Hz in Hlt. revert Hlt.
  unfold in_range, unixEpoch, Second, zeroTime in *. lia.
Qed.

Lemma claimable_row now r k :
  in_range now → task_row r k → claimable (timestamp now) (timestamp now) r = runnable now k.
Proof.
  intros Hnow HP. unfold claimable, runnable. rewrite <- (leased_row now r k Hnow HP). destruct HP. rewrite krow_run_at.
  f_equal.
  - apply eq_bool_prop_intro. by rewrite !Is_true_true, !Z.leb_le, timestamp_le.
  - by rewrite Z.leb_antisym.
Qed.

Lemma count_rows (p : taskRow → bool) (q : Task → bool) :
  (∀ r k, task_row r k → p r = q k) → count p (t_tasks t) = count_tasks q (as_tasks a).
Proof.
  intros Hpq. unfold count, count_tasks. f_equal. pose proof (sr_tasks _ _ R) as Htasks.
  induction Htasks as [|r k rows tasks Hrk _ IH]; [done|]. rewrite !filter_cons, (Hpq _ _ Hrk).
  case_decide; simpl; by rewrite IH.
Qed.

Lemma run_count {X} (s : statement X) (x : X) :
  statement_exec s t = (Ok x, t) → refined (sqlite_run None (stored (query (run s))) t) (Ok x, a).
Proof.
  intros Hs. unfold sqlite_run, stored. rewrite exec_bind. unfold query. rewrite exec_on_query, eval_run, Hs. by split.
Qed.

Lemma sqlite_pendingTasks now : in_range now → refines (CallPendingTasks now).
Proof. intros Hnow. apply run_count. simpl. do 2 f_equal. apply count_rows. intros r k. by apply claimable_row. Qed.

Lemma sqlite_leasedTasks now : in_range now → refines (CallLeasedTasks now).
Proof. intros Hnow. apply run_count. simpl. do 2 f_equal. apply count_rows. intros r k. by apply leased_row. Qed.

Lemma sqlite_accountValidations accountID : refines (CallAccountValidations accountID).
Proof.
  apply run_count. simpl. do 2 f_equal. apply count_rows. intros r k [].
  rewrite krow_account, krow_kind, andb_comm. f_equal. apply bool_decide_ext. by apply TaskKind_string_validate.
Qed.

#[local] Instance by_run_at_total : Total by_run_at.
Proof. intros r s. unfold by_run_at. lia. Qed.
#[local] Instance by_run_at_trans : Transitive by_run_at.
Proof. intros r s u. unfold by_run_at. lia. Qed.

(** The first row of a sorted query precedes the others. *)
Lemma order_by_head {X} (key : X → X → Prop) `{∀ x y, Decision (key x y)} `{!Total key, !Transitive key} l :
  match head (order_by key l) with
  | Some x => x ∈ l ∧ ∀ y, y ∈ l → key x y
  | None => l = []
  end.
Proof.
  unfold order_by. pose proof (merge_sort_Permutation key l) as Hp.
  pose proof (StronglySorted_merge_sort key l) as Hs.
  destruct (merge_sort key l) as [|x k]; simpl; [by apply Permutation_nil|].
  split; [rewrite <- Hp; left|]. intros y Hy. rewrite <- Hp in Hy. apply StronglySorted_inv in Hs as [_ Hs].
  apply elem_of_cons in Hy as [->|Hy]; [by destruct (total key x x)|]. by eapply Forall_forall in Hs.
Qed.

(** The runnable task with the earliest start precedes every claimable row. *)
Lemma earliest_row now rows tasks :
  in_range now → Forall2 task_row rows tasks → StronglySorted Z.lt (map tr_sequence rows) →
  match earliest now tasks with
  | Some k => ∃ r, r ∈ rows ∧ task_row r k ∧ claimable (timestamp now) (timestamp now) r = true ∧
      ∀ s, s ∈ rows → claimable (timestamp now) (timestamp now) s = true → by_run_at r s
  | None => ∀ s, s ∈ rows → claimable (timestamp now) (timestamp now) s = false
  end.
Proof.
  intros Hnow Hrows. induction Hrows as [|r k rows tasks Hrk Hrows IH]; simpl; intros Hs; [intros s; set_solver|].
  apply StronglySorted_inv in Hs as [Hs Hlt]. specialize (IH Hs).
  assert (∀ s, s ∈ rows → tr_sequence r < tr_sequence s)%Z as Hseq.
  { intros s Hin. eapply Forall_forall in Hlt; [exact Hlt|]. by apply (list_elem_of_fmap_2 tr_sequence). }
  pose proof (claimable_row now r k Hnow Hrk) as Hcl. rewrite <- Hcl.
  destruct (claimable _ _ r) eqn:Hr.
  - destruct (earliest now tasks) as [u|].
    + destruct IH as (ru & Hin & Hu & Hclu & Hmin).
      pose proof (timestamp_lt (task_RunAt u) (task_RunAt k) (krow_run_range _ _ Hu) (krow_run_range _ _ Hrk)) as Hts.
      rewrite <- (krow_run_at _ _ Hu), <- (krow_run_at _ _ Hrk) in Hts.
      destruct (task_RunAt u <? task_RunAt k)%Z eqn:E.
      * exists ru. split_and!; [by right|done|done|]. intros s [->|Hin']%elem_of_cons Hc; [|by apply Hmin].
        left. apply Hts. by apply Z.ltb_lt.
      * exists r. split_and!; [by left|done|done|]. intros s [->|Hin']%elem_of_cons Hc; [right; lia|].
        specialize (Hmin s Hin' Hc). specialize (Hseq s Hin'). apply Z.ltb_ge in E. unfold by_run_at in *. lia.
    + exists r. split_and!; [by left|done|done|]. intros s [->|Hin]%elem_of_cons Hc; [right; lia|].
      by rewrite (IH s Hin) in Hc.
  - destruct (earliest now tasks) as [u|].
    + destruct IH as (ru & Hin & Hu & Hclu & Hmin). exists ru. split_and!; [by right|done|done|].
      intros s [->|Hin']%elem_of_cons Hc; [congruence|by apply Hmin].
    + intros s [->|Hin]%elem_of_cons; [done|by apply IH].
Qed.

Lemma sequence_inj r s : r ∈ t_tasks t → s ∈ t_tasks t → tr_sequence r = tr_sequence s → r = s.
Proof.
  destruct (sr_tasksSequence _ _ R) as (_ & Hs & _). induction (t_tasks t) as [|u l IH]; [set_solver|].
  simpl in Hs. apply StronglySorted_inv in Hs as [Hs Hlt].
  assert (∀ v, v ∈ l → tr_sequence u < tr_sequence v)%Z as Hu.
  { intros v Hin. eapply Forall_forall in Hlt; [exact Hlt|]. by apply (list_elem_of_fmap_2 tr_sequence). }
  intros [->|Hr]%elem_of_cons [->|Hs']%elem_of_cons Heq; [done| | |by apply IH].
  - specialize (Hu s Hs'). lia.
  - specialize (Hu r Hr). lia.
Qed.

Lemma select_claim now :
  in_range now →
  option_Forall2 task_row
    (head (order_by by_run_at (filter (λ r, claimable (timestamp now) (timestamp now) r = true) (t_tasks t))))
    (earliest now (as_tasks a)).
Proof.
  intros Hnow. pose proof (sr_tasksSequence _ _ R) as (_ & Hs & _).
  pose proof (earliest_row now _ _ Hnow (sr_tasks _ _ R) Hs) as He.
  pose proof (order_by_head by_run_at (filter (λ r, claimable (timestamp now) (timestamp now) r = true) (t_tasks t))) as Ho.
  destruct (head _) as [r|], (earliest now (as_tasks a)) as [k|]; [| | |constructor].
  - destruct Ho as [[Hc Hr]%list_elem_of_filter Hmin], He as (s & Hin & Hk & Hcs & Hmin').
    assert (r = s) as ->; [|by constructor]. apply sequence_inj; [done|done|].
    specialize (Hmin s (proj2 (list_elem_of_filter _ _ _) (conj Hcs Hin))). specialize (Hmin' r Hr Hc).
    unfold by_run_at in *. lia.
  - destruct Ho as [[Hc Hr]%list_elem_of_filter _]. by rewrite (He r Hr) in Hc.
  - destruct He as (s & Hin & _ & Hcs & _).
    assert (s ∈ filter (λ r, claimable (timestamp now) (timestamp now) r = true) (t_tasks t)) as Hf
      by (by apply list_elem_of_filter). rewrite Ho in Hf. by apply not_elem_of_nil in Hf.
Qed.

(** The tables after a claim. *)
Lemma claimed_rel r k leaseUntil d :
  r ∈ t_tasks t → task_row r k → in_range leaseUntil → decode d = Ok (claimed leaseUntil k) →
  sql_rel
    {| t with t_tasks :=
         update_row (task_ID k) (λ r, {| r with tr_fence := u64 (task_Fence k + 1); tr_attempts := i64 (task_Attempts k + 1);
                                                tr_lease_until := timestamp leaseUntil; tr_data := d |}) (t_tasks t) |}
    (put_tasks (update_task (task_ID k) (claimed leaseUntil) (as_tasks a)) a).
Proof.
  intros Hr HP Hrange Hd. split; simpl; try apply R.
  - apply Forall2_update_row; [apply R|]. intros s j Hs Hid Hsj.
    assert (s = r) as ->.
    { apply (ids_inj tr_id (t_tasks t)); [apply R|done|done|]. by rewrite Hid, (krow_id _ _ HP). }
    pose proof (task_row_inj _ _ _ HP Hsj) as ->. by destruct Hsj.
  - unfold update_row. rewrite map_map. erewrite map_ext; [apply R|]. intros s. by case_bool_decide.
  - unfold update_row. rewrite map_map. erewrite map_ext; [apply R|]. intros s. by case_bool_decide.
Qed.

Lemma sqlite_claimTask now leaseUntil : sqlite_legal (CallClaimTask now leaseUntil) a → refines (CallClaimTask now leaseUntil).
Proof.
  intros (_ & Hnow & Hlease). unfold refines, refined, sqlite_run.
  change (sqlite_method (CallClaimTask now leaseUntil)) with (ClaimTask now leaseUntil). unfold ClaimTask.
  rewrite exec_transaction_write. cbn [spec_exec]. unfold spec_claimTask. rewrite eval_bind, eval_run. cbn [statement_exec].
  pose proof (select_claim now Hnow) as Hsel.
  pose proof (order_by_head by_run_at (filter (λ r, claimable (timestamp now) (timestamp now) r = true) (t_tasks t))) as Ho.
  destruct (head _) as [r|], (earliest now (as_tasks a)) as [k|]; inversion Hsel as [? ? HP|]; subst; [|by split].
  destruct Ho as [[_ Hr]%list_elem_of_filter _]. simpl.
  rewrite eval_bind, eval_pureErr, (krow_data _ _ HP), (krow_fence _ _ HP), (krow_attempts _ _ HP).
  destruct (encodes_task (claimed leaseUntil k)) as (d & He & Hd).
  rewrite eval_bind, eval_pureErr. simpl. fold (claimed leaseUntil k). rewrite He, eval_bind, eval_run. simpl.
  assert (room (task_Fence k)) as Hroom.
  { rewrite <- (krow_fence _ _ HP). pose proof (cap_tasks _ _ C) as Hc. rewrite Forall_forall in Hc.
    destruct (Hc r Hr). unfold room. lia. }
  destruct (room_u64 _ Hroom) as [_ ->]. simpl. split; [done|]. by eapply claimed_rel.
Qed.

(** ** Authorizations and pages of orders *)

Lemma authorizes_row accountID id now r z :
  in_range now → plain_type id = true → authz_row r z →
  (zr_account_id r = accountID ∧ zr_scope r = scope id false ∧
   zr_status r = AuthorizationStatus_string AuthorizationValid ∧ (timestamp now < zr_expires r)%Z) ↔
  authorizes accountID id now z = true.
Proof.
  intros Hnow Hplain []. rewrite zrow_account, zrow_scope, zrow_status, zrow_expires, timestamp_lt by done.
  unfold authorizes. rewrite !andb_true_iff, !bool_decide_eq_true, negb_true_iff, Z.ltb_lt.
  change (AuthorizationStatus_string AuthorizationValid) with "valid". rewrite indexStatus_valid by done.
  change (scope id false) with (Identifier_String id).
  assert (Identifier_String (orderIdentifier z) = Identifier_String id ↔ orderIdentifier z = id) as ->; [|tauto].
  split; [by apply Identifier_String_inj|by intros ->].
Qed.

Lemma eval_authorizedScopes accountID identifiers now allowed :
  in_range now → Forall (λ id, plain_type id = true) identifiers →
  eval (authorizedScopes accountID identifiers now allowed) t =
    (Ok (if forallb (λ id, has_value (authorizes accountID id now) (as_authzs a)) identifiers then allowed else false), t).
Proof.
  intros Hnow. induction 1 as [|id identifiers Hid _ IH]; [done|]. cbn [authorizedScopes forallb].
  unfold eval at 1. rewrite exec_bind. fold (eval (run (AuthorizedScope accountID (scope id false)
    (AuthorizationStatus_string AuthorizationValid) (timestamp now))) t). rewrite eval_run. cbn [statement_exec].
  rewrite (tab_has_value authz_row (sr_authzs _ _ R) _
    (λ r, bool_decide (zr_account_id r = accountID ∧ zr_scope r = scope id false ∧
       zr_status r = AuthorizationStatus_string AuthorizationValid ∧ (timestamp now < zr_expires r)%Z))).
  2: { intros r z HP. apply eq_bool_prop_intro. rewrite !Is_true_true, bool_decide_eq_true. by apply authorizes_row. }
  match goal with |- context [head ?F] => rewrite (existsb_head _ _ : _ → existsb _ _ = bool_decide (is_Some (head F)))
    by (intros r; apply bool_decide_eq_true) end.
  destruct (head _); simpl; [exact IH|done].
Qed.

Lemma reads_bind {A B} (p : prog onReader A) (f : A → prog onReader B) :
  reads p → (∀ x, reads (f x)) → reads (p ≫= f).
Proof.
  change (p ≫= f) with (prog_bind f p). induction p as [x|X [Y s] k IH]; simpl; [by intros _ Hf|].
  intros [Hs Hk] Hf. split; [done|]. intros x. by apply IH.
Qed.

Lemma reads_read {V} `{GobType V} table id : reads (read (V := V) table id).
Proof.
  unfold read, sql_bind, stored. apply reads_bind; [apply reads_bind|].
  - by split.
  - by intros [d|err].
  - intros [d|err]; [|done]. by destruct (decode d).
Qed.

Lemma reads_authorizedScopes accountID identifiers now allowed : reads (authorizedScopes accountID identifiers now allowed).
Proof.
  induction identifiers as [|id identifiers IH]; [done|]. cbn [authorizedScopes]. apply reads_bind; [by split|].
  intros [x|[]]; done.
Qed.

Lemma run_read {X} (p : prog onReader (SqlRes X)) (x : Res X) :
  reads p → match (eval p t).1 with Ok y => x = Ok y | Err err => ∃ e, storageError err = SqlError e ∧ x = Err e end →
  refined (sqlite_run None (transaction false p) t) (x, a).
Proof.
  intros Hp Hx. unfold refined, sqlite_run. rewrite exec_transaction_read by done.
  destruct (eval p t).1; simpl; [by subst|]. destruct Hx as (e' & -> & ->). by split.
Qed.

Lemma sqlite_authorizedFor accountID identifiers now :
  sqlite_legal (CallAuthorizedFor accountID identifiers now) a → refines (CallAuthorizedFor accountID identifiers now).
Proof.
  intros (_ & Hnow & Hplain). apply run_read.
  { apply reads_bind; [apply reads_read|]. intros [b|[| |err]]; [|done|done|by case_match].
    case_match; [done|]. apply reads_authorizedScopes. }
  unfold eval. rewrite exec_bind. fold (eval (read (V := Account) accountsTable accountID) t).
  rewrite (eval_read_account t a R). unfold spec_authorizedFor.
  destruct (as_accounts a !! accountID) as [b|]; simpl; [|done].
  destruct (bool_decide (acct_Status b = AccountValid)); simpl; [|done].
  fold (eval (authorizedScopes accountID identifiers now (0 <? len identifiers)%Z) t).
  rewrite eval_authorizedScopes by done. simpl. f_equal. destruct identifiers as [|id identifiers]; [done|].
  simpl. by destruct (_ && _).
Qed.

#[local] Instance by_sequence_total : Total by_sequence.
Proof. intros r s. unfold by_sequence. lia. Qed.
#[local] Instance by_sequence_trans : Transitive by_sequence.
Proof. intros r s u. unfold by_sequence. lia. Qed.

(** Sorting rows that are in sequence changes nothing. *)
Lemma order_by_sequence l : StronglySorted Z.lt (map or_sequence l) → order_by by_sequence l = l.
Proof.
  intros Hs. assert (StronglySorted by_sequence l ∧ ∀ r s, r ∈ l → s ∈ l → or_sequence r = or_sequence s → r = s) as [Hl Hinj].
  { induction l as [|r l IH]; [split; [constructor|set_solver]|]. simpl in Hs. apply StronglySorted_inv in Hs as [Hs Hlt].
    destruct (IH Hs) as [IHs IHi]. rewrite Forall_forall in Hlt.
    assert (∀ s, s ∈ l → or_sequence r < or_sequence s)%Z as Hr by (intros s Hin; apply Hlt; by apply (list_elem_of_fmap_2 or_sequence)).
    split; [constructor; [done|]; apply Forall_forall; intros s Hin%Hr; unfold by_sequence; lia|].
    intros u v [->|Hu]%elem_of_cons [->|Hv]%elem_of_cons Heq; [done| | |by apply IHi].
    - specialize (Hr v Hv). lia.
    - specialize (Hr u Hu). lia. }
  unfold order_by. pose proof (merge_sort_Permutation by_sequence l) as Hp.
  apply (StronglySorted_unique_strong by_sequence); [|apply (StronglySorted_merge_sort by_sequence)|done|done].
  intros r s Hr%(elem_of_Permutation_proper _ _ _ Hp) Hs' H1' H2'. apply Hinj; [done|done|]. unfold by_sequence in *. lia.
Qed.

Lemma filter_all {X} (D : X → Prop) `{∀ x, Decision (D x)} (l : list X) : (∀ x, x ∈ l → D x) → filter D l = l.
Proof.
  intros Hl. induction l as [|x l IH]; [done|]. rewrite filter_cons, decide_True by (apply Hl; left).
  f_equal. apply IH. intros y Hy. apply Hl. by right.
Qed.

(** The rows after a cursor are those behind its position. *)
Lemma filter_after l i r after :
  StronglySorted Z.lt (map or_sequence l) → list_find (λ s, or_id s = after) l = Some (i, r) →
  filter (λ s, or_sequence r < or_sequence s)%Z l = drop (S i) l.
Proof.
  intros Hs (Hi & _ & _)%list_find_Some. revert i Hi. induction l as [|s l IH]; intros i Hi; [done|].
  simpl in Hs. apply StronglySorted_inv in Hs as [Hs Hlt]. rewrite Forall_forall in Hlt. rewrite filter_cons.
  assert (∀ u, u ∈ l → or_sequence s < or_sequence u)%Z as Hu by (intros u Hin; apply Hlt; by apply (list_elem_of_fmap_2 or_sequence)).
  destruct i as [|i]; simpl in Hi.
  - simplify_eq. rewrite decide_False by lia. simpl. rewrite drop_0. by apply filter_all.
  - rewrite decide_False; [by apply IH|]. apply list_elem_of_lookup_2, Hu in Hi. lia.
Qed.

Lemma find_cursor after accountID l :
  head (filter (λ r, or_id r = after ∧ or_account_id r = accountID) l) =
    snd <$> list_find (λ r, or_id r = after) (filter (λ r, or_account_id r = accountID) l).
Proof.
  induction l as [|r l IH]; [done|]. rewrite !filter_cons.
  destruct (decide (or_account_id r = accountID)) as [Ha|Ha].
  - destruct (decide (or_id r = after)) as [Hi|Hi].
    + rewrite decide_True by done. simpl. by rewrite decide_True.
    + rewrite decide_False by tauto. simpl. rewrite decide_False, IH by done. by destruct (list_find _ _) as [[]|].
  - by rewrite decide_False by tauto.
Qed.

Lemma page_rows accountID sequence n :
  (0 < n)%Z →
  map or_id (limit n (order_by by_sequence
    (filter (λ r, or_account_id r = accountID ∧ (sequence < or_sequence r)%Z) (t_orders t)))) =
  take (Z.to_nat n) (map or_id (filter (λ r, sequence < or_sequence r)%Z
    (filter (λ r, or_account_id r = accountID) (t_orders t)))).
Proof.
  intros Hn. unfold limit. rewrite (proj2 (Z.ltb_ge _ _)) by lia.
  rewrite order_by_sequence by (by apply (increasing_filter or_sequence _ _ _ (sr_ordersSequence _ _ R))).
  rewrite list_filter_filter. change (map or_id) with (fmap or_id : list orderRow → list string).
  rewrite <- fmap_take. do 2 f_equal. apply list_filter_iff. intros r. tauto.
Qed.

Lemma sqlite_orderIDs accountID after n : (0 < n)%Z → refines (CallOrderIDs accountID after n).
Proof.
  intros Hn. unfold refines. change (sqlite_method (CallOrderIDs accountID after n)) with (OrderIDs accountID after n).
  unfold OrderIDs. rewrite (proj2 (Z.leb_gt _ _) Hn). cbn [spec_exec]. unfold spec_orderIDs.
  set (rows := filter (λ r, or_account_id r = accountID) (t_orders t)).
  assert (orders_of accountID (as_created a) = map or_id rows) as ->.
  { rewrite (sr_created _ _ R). subst rows. unfold orders_of. induction (t_orders t) as [|r l IH]; [done|].
    simpl. rewrite !filter_cons. simpl. case_decide; simpl; by rewrite IH. }
  pose proof (increasing_filter or_sequence (λ r, or_account_id r = accountID) _ _ (sr_ordersSequence _ _ R)) as (_ & Hsort & Hpos).
  fold rows in Hsort, Hpos. unfold page_start.
  assert (reads (let! sequence := (if (after != "") then run (OrderCursor after accountID) else ok 0%Z) in
                 run (AccountOrders accountID sequence n))) as Hreads.
  { apply reads_bind; [by case_match|]. by intros [x|err]. }
  destruct (decide (after = "")) as [->|Hne].
  - rewrite bool_decide_true in Hreads |- * by done. apply run_read; [done|].
    simpl. rewrite page_rows by done. fold rows. rewrite filter_all, drop_0; [done|].
    intros r Hr. rewrite Forall_forall in Hpos.
    destruct (Hpos (or_sequence r)); [by apply (list_elem_of_fmap_2 or_sequence)|done].
  - rewrite (bool_decide_false _ Hne) in Hreads |- *. simpl negb in *. cbn iota in *.
    change (map or_id rows) with (or_id <$> rows). rewrite list_find_fmap.
    pose proof (find_cursor after accountID (t_orders t)) as Hcur. fold rows in Hcur.
    destruct (list_find (λ r, or_id r = after) rows) as [[i r]|] eqn:Hf.
    + change (list_find ((λ id, id = after) ∘ or_id) rows) with (list_find (λ r, or_id r = after) rows).
      rewrite Hf. simpl. apply run_read; [done|]. rewrite eval_bind, eval_run. simpl. rewrite Hcur. simpl.
      rewrite page_rows by done. fold rows. rewrite (filter_after rows i r after) by done. by rewrite fmap_drop.
    + change (list_find ((λ id, id = after) ∘ or_id) rows) with (list_find (λ r, or_id r = after) rows).
      rewrite Hf. simpl. apply run_read; [done|]. rewrite eval_bind, eval_run. simpl. rewrite Hcur. simpl. by eexists.
Qed.

End calls.

(** ** New orders *)

(** The order of a new order in the abstract store. *)
Definition add_order (o : Order) (a : AStore) : AStore :=
  let b := put_order {| o with ord_Revision := 1%Z |} a in
  {| b with as_created := as_created b ++ [(ord_AccountID o, ord_ID o)] |}.

Definition put_authzs (authzs : list Authorization) (a : AStore) : AStore :=
  fold_left (λ b z, put_authz z b) (map (λ z, {| z with az_Revision := 1%Z |}) authzs) a.
Definition put_challenges (challenges : list Challenge) (a : AStore) : AStore :=
  fold_left (λ b c, put_challenge c b) (map (λ c, {| c with ch_Revision := 1%Z |}) challenges) a.

Definition conflictIf (b : bool) : option error := if b then Some ErrConflict else None.

Section create.
Context `{Platform} `{Gob} `{!GobLaws}.

Lemma insertOrder_step t a o :
  sql_rel t a → (t_ordersSequence t < 2 ^ 63 - 1)%Z → ord_ID o ≠ "" → is_Some (as_accounts a !! ord_AccountID o) →
  plainOrder o = true →
  step (insert (InsertOrder (ord_ID o) (ord_AccountID o) 1) {| o with ord_Revision := 1%Z |}) t
    (conflictIf (bool_decide (is_Some (as_orders a !! ord_ID o)))) (add_order o a).
Proof.
  intros R Hseq Hid Hacct Hplain.
  edestruct (eval_insert (InsertOrder (ord_ID o) (ord_AccountID o) 1) {| o with ord_Revision := 1%Z |} t)
    as (d & Hd & He); [by apply encodes_order|]. simpl in He. rewrite (proj2 (Z.leb_gt _ _) Hseq) in He.
  rewrite (tab_has_row order_row (sr_orders _ _ R)), (tab_has_row account_row (sr_accounts _ _ R)) in He.
  rewrite (bool_decide_true (is_Some (as_accounts a !! _))) in He by done. simpl in He.
  destruct (as_orders a !! ord_ID o) as [o'|] eqn:Ho; [simpl in He; by eexists _, t|].
  eexists. split; [exact He|]. split; simpl; try apply R.
  - by apply (tab_rel_insert order_row (sr_orders _ _ R) (mkOrderRow _ (ord_ID o) _ _ _)).
  - rewrite map_app. simpl. by rewrite (sr_created _ _ R).
  - rewrite map_app. apply increasing_snoc, R.
  - rewrite lookup_insert_ne by done. apply R.
Qed.

Lemma insertAuthorizations_step t a authzs :
  sql_rel t a → NoDup (map az_ID authzs) →
  Forall (λ z, is_Some (as_accounts a !! az_AccountID z) ∧ is_Some (as_orders a !! az_OrderID z) ∧ indexable z ∧
               plain_type (orderIdentifier z) = true) authzs →
  step (insertAuthorizations authzs) t
    (conflictIf (existsb (λ z, bool_decide (is_Some (as_authzs a !! az_ID z))) authzs)) (put_authzs authzs a).
Proof.
  revert t a. induction authzs as [|z authzs IH]; intros t a R Hnd Hall; [by exists t|].
  apply NoDup_cons in Hnd as [Hz Hnd]. apply Forall_cons in Hall as [(Hacct & Ho & (Hrange & Hcanon) & Hplain) Hall].
  edestruct (eval_insert (InsertAuthorization (az_ID z) (az_AccountID z) (az_OrderID z) (scope (az_Identifier z) (az_Wildcard z))
    (indexStatus z) (timestamp (az_Expires z)) 1) {| z with az_Revision := 1%Z |} t) as (d & Hd & He); [apply _|].
  simpl in He. rewrite (tab_has_row authz_row (sr_authzs _ _ R)), (tab_has_row account_row (sr_accounts _ _ R)),
    (tab_has_row order_row (sr_orders _ _ R)) in He.
  rewrite (bool_decide_true (is_Some (as_accounts a !! _))), (bool_decide_true (is_Some (as_orders a !! _))) in He by done.
  simpl in He |- *. destruct (as_authzs a !! az_ID z) as [old|] eqn:Hold.
  { simpl. eexists _, t. by rewrite eval_bind, He. }
  simpl in *. eapply step_bind; [exact He|].
  set (z1 := {| z with az_Revision := 1%Z |}).
  replace (existsb _ authzs) with (existsb (λ y, bool_decide (is_Some (as_authzs (put_authz z1 a) !! az_ID y))) authzs).
  - apply IH; [|done|done]. split; simpl; try apply R.
    apply (tab_rel_insert authz_row (sr_authzs _ _ R) (mkAuthorizationRow (az_ID z) _ _ _ _ _ _ _)); [done|].
    split; simpl; try done.
  - clear -Hz. induction authzs as [|y l IH]; [done|]. simpl in *. apply not_elem_of_cons in Hz as [Hy Hl].
    rewrite lookup_insert_ne by done. f_equal. by apply IH.
Qed.

Lemma insertChallenges_step t a challenges :
  sql_rel t a → NoDup (map ch_ID challenges) →
  Forall (λ c, is_Some (as_authzs a !! ch_AuthorizationID c)) challenges → forallb plainChallenge challenges = true →
  step (insertChallenges challenges) t
    (conflictIf (existsb (λ c, bool_decide (is_Some (as_challenges a !! ch_ID c))) challenges)) (put_challenges challenges a).
Proof.
  revert t a. induction challenges as [|c challenges IH]; intros t a R Hnd Hall Hplain; [by exists t|].
  apply andb_prop in Hplain as [Hpc Hplain]. apply NoDup_cons in Hnd as [Hc Hnd]. apply Forall_cons in Hall as [Hz Hall].
  edestruct (eval_insert (InsertChallenge (ch_ID c) (ch_AuthorizationID c) 1) {| c with ch_Revision := 1%Z |} t)
    as (d & Hd & He); [by apply encodes_challenge|].
  simpl in He. rewrite (tab_has_row challenge_row (sr_challenges _ _ R)), (tab_has_row authz_row (sr_authzs _ _ R)) in He.
  rewrite (bool_decide_true (is_Some (as_authzs a !! _))) in He by done.
  simpl in He |- *. destruct (as_challenges a !! ch_ID c) as [old|] eqn:Hold.
  { simpl. eexists _, t. by rewrite eval_bind, He. }
  simpl in *. eapply step_bind; [exact He|].
  set (c1 := {| c with ch_Revision := 1%Z |}).
  replace (existsb _ challenges) with (existsb (λ y, bool_decide (is_Some (as_challenges (put_challenge c1 a) !! ch_ID y))) challenges).
  - apply IH; [|done|done|done]. split; simpl; try apply R.
    by apply (tab_rel_insert challenge_row (sr_challenges _ _ R) (mkChallengeRow (ch_ID c) _ _ _)).
  - clear -Hc. induction challenges as [|y l IH]; [done|]. simpl in *. apply not_elem_of_cons in Hc as [Hy Hl].
    rewrite lookup_insert_ne by done. f_equal. by apply IH.
Qed.

(** The error of a replacement and the store it leads to. *)
Definition replace_error (o : Order) (a : AStore) : option error :=
  match spec_replace o a with Ok _ => None | Err err => Some err end.
Definition replaced (o : Order) (a : AStore) : AStore :=
  match spec_replace o a with Ok b => b | Err _ => a end.

Lemma find_renewal_Some renewalID a c :
  find_renewal renewalID a = Some c → ∃ k, as_certificates a !! k = Some c ∧ crt_RenewalID c = renewalID.
Proof. intros (k & Hk & Hp)%find_value_Some. exists k. by apply bool_decide_eq_true in Hp. Qed.

Lemma certificate_key t a k c : sql_rel t a → as_certificates a !! k = Some c → crt_ID c = k.
Proof.
  intros R Hc. destruct (tab_Some certificate_row (sr_certificates _ _ R) _ _ Hc) as (r & [_ Hr]%row_of_Some & HP).
  rewrite <- (crow_id _ _ HP). exact Hr.
Qed.

(** Marking the predecessor that a search found. *)
Lemma markReplaced_step t a o k c :
  sql_rel t a → rooms crt_Revision (as_certificates a) → as_certificates a !! k = Some c →
  let c' := {| c with crt_ReplacedByOrderID := ord_ID o; crt_Revision := u64 (crt_Revision c + 1) |} in
  step (update certificatesTable (crt_ID c') (crt_Revision c) c') t None
    {| a with as_certificates := <[crt_ID c' := c']> (as_certificates a) |}.
Proof.
  intros R Hroom Hc c'. pose proof (certificate_key t a k c R Hc) as Hk.
  assert (check_revision (crt_Revision <$> as_certificates a !! crt_ID c') (crt_Revision c) = None) as Hck.
  { apply check_revision_None. simpl. by rewrite Hk, Hc. }
  rewrite <- Hck. apply updateCertificate_step; [done|done|done|]. simpl. intros s Hs. rewrite Hk in Hs. congruence.
Qed.

Lemma claimReplacement_step t a o :
  sql_rel t a → rooms crt_Revision (as_certificates a) →
  step (if (ord_Replaces o != "") then claimReplacement o else ok tt) t (replace_error o a) (replaced o a).
Proof.
  intros R Hroom. unfold replace_error, replaced, spec_replace.
  destruct (decide (ord_Replaces o = "")) as [->|Hne]; [by exists t|]. rewrite (bool_decide_false _ Hne). simpl negb. cbn iota.
  pose proof (find_renewal_row t a R _ Hne) as Hrow. unfold claimReplacement.
  destruct (find_renewal (ord_Replaces o) a) as [c|] eqn:Hfind.
  2: { inversion Hrow as [|Hhead]. apply (step_stop _ _ _ t _ a). rewrite eval_stored, eval_run. simpl. by rewrite <- Hhead. }
  inversion Hrow as [r ? HP Hhead|]; subst. destruct (find_renewal_Some _ _ _ Hfind) as (k & Hk & _).
  eapply step_bind; [rewrite eval_stored, eval_run; simpl; by rewrite <- Hhead|]. cbn beta iota.
  eapply step_bind; [by rewrite eval_pureErr, (crow_data _ _ HP)|]. rewrite (crow_revision _ _ HP).
  pose proof (markReplaced_step t a o k c R Hroom Hk) as Hmark. cbv zeta in Hmark |- *.
  destruct (decide (crt_ReplacedByOrderID c = "")) as [Hrep|Hrep].
  - rewrite Hrep, (sr_no_empty _ _ R). simpl. exact Hmark.
  - rewrite (bool_decide_false _ Hrep). simpl negb. cbn iota.
    eapply step_case; [apply (eval_read_order t a R)|].
    destruct (as_orders a !! crt_ReplacedByOrderID c) as [o'|]; [|exact Hmark].
    cbn [result_of]. destruct (StatusAt o' (ord_CreatedAt o) != OrderInvalid); [by apply (step_error _ _ _ a)|exact Hmark].
Qed.

Lemma replaced_fields o a :
  as_accounts (replaced o a) = as_accounts a ∧ as_orders (replaced o a) = as_orders a ∧
  as_authzs (replaced o a) = as_authzs a ∧ as_challenges (replaced o a) = as_challenges a.
Proof. unfold replaced, spec_replace. repeat (case_match; simplify_eq/=; try done). Qed.

Lemma put_authzs_fields authzs a :
  as_challenges (put_authzs authzs a) = as_challenges a ∧
  ∀ id, id ∈ map az_ID authzs ∨ is_Some (as_authzs a !! id) → is_Some (as_authzs (put_authzs authzs a) !! id).
Proof.
  unfold put_authzs. revert a. induction authzs as [|z authzs IH]; intros a; simpl.
  - split; [done|]. intros id [Hin|]; [by apply not_elem_of_nil in Hin|done].
  - destruct (IH (put_authz {| z with az_Revision := 1%Z |} a)) as [Hc Hz]. split; [done|].
    intros id [[->|Hin]%elem_of_cons|[old Hold]]; apply Hz; simpl; [right; by rewrite lookup_insert_eq|by left|right].
    destruct (decide (az_ID z = id)) as [->|Hne]; [by rewrite lookup_insert_eq|by rewrite lookup_insert_ne, Hold].
Qed.

(** Adding the order first does not change what it replaces. *)
Lemma spec_replace_add o a :
  (∀ k c, as_certificates a !! k = Some c → crt_ReplacedByOrderID c ≠ ord_ID o) →
  spec_replace o (add_order o a) = match spec_replace o a with Ok b => Ok (add_order o b) | Err err => Err err end.
Proof.
  intros Hfree. unfold spec_replace. case_match; [done|].
  change (find_renewal (ord_Replaces o) (add_order o a)) with (find_renewal (ord_Replaces o) a).
  destruct (find_renewal (ord_Replaces o) a) as [c|] eqn:Hf; [|done].
  destruct (find_renewal_Some _ _ _ Hf) as (k & Hk & _). simpl.
  rewrite lookup_insert_ne by (intros Heq; by apply (Hfree _ _ Hk)). by case_match.
Qed.

Definition create_errors (o : Order) (authzs : list Authorization) (challenges : list Challenge) (a : AStore) : list (option error) :=
  [conflictIf (bool_decide (is_Some (as_orders a !! ord_ID o))); replace_error o (add_order o a);
   conflictIf (authz_used authzs a);
   conflictIf (existsb (λ c, bool_decide (is_Some (as_challenges a !! ch_ID c))) challenges)].

(** The contract of a legal creation, with the checks in the order the SQLite store makes them. *)
Lemma spec_createOrder_guarded o authzs challenges a :
  (ord_Replaces o = "" ∨ fresh_parts authzs challenges a = true) →
  (∀ k c, as_certificates a !! k = Some c → crt_ReplacedByOrderID c = ord_ID o → is_Some (as_orders a !! ord_ID o)) →
  spec_createOrder o authzs challenges a =
    guarded (create_errors o authzs challenges a)
      ({| o with ord_Revision := 1%Z |}, map (λ z, {| z with az_Revision := 1%Z |}) authzs,
       map (λ c, {| c with ch_Revision := 1%Z |}) challenges)
      (put_challenges challenges (put_authzs authzs (replaced o (add_order o a)))) a.
Proof.
  intros Hor Hfree. unfold create_errors, replace_error, replaced.
  unfold spec_createOrder, guarded, fresh_parts, authz_used in *. case_bool_decide as Ho; [done|].
  rewrite spec_replace_add by (intros k c Hc Heq; by apply Ho, (Hfree k c)).
  simpl. destruct (existsb _ authzs) eqn:Ez, (existsb _ challenges) eqn:Ec; simpl;
    try (destruct Hor as [Hor|]; [|done]; unfold spec_replace; by rewrite bool_decide_true);
    by destruct (spec_replace o a).
Qed.

Lemma sqlite_createOrder t a o authzs challenges :
  sql_rel t a → sql_room t → sqlite_legal (CallCreateOrder o authzs challenges) a →
  refines t a (CallCreateOrder o authzs challenges).
Proof.
  intros R C ([Hpo Hpc]%andb_prop & Hid & Hacct & Hndz & Hndc & Hz & Hc & Hor & Hfree). unfold refines. cbn [spec_exec].
  rewrite spec_createOrder_guarded by done. apply run_guarded; [done|]. eapply step_seq.
  { apply insertOrder_step; [done| |done|done|done]. destruct (cap_ordersSequence _ _ C). lia. }
  intros _ t1 _ R1. eapply step_seq.
  { apply claimReplacement_step; [done|]. apply (certificate_rooms t a R 0 C). }
  intros _ t2 _ R2. destruct (replaced_fields o (add_order o a)) as (Ea & Eo & Ez & Ec). eapply step_seq.
  { pose proof (insertAuthorizations_step t2 _ authzs R2 Hndz) as Hs. rewrite Ez in Hs. apply Hs.
    eapply Forall_impl; [exact Hz|]. intros z (-> & -> & Hi & Hp). rewrite Ea, Eo. split_and!; [done| |done|done].
    simpl. by rewrite lookup_insert_eq. }
  intros Hnew t3 _ R3. destruct Hc as [Hc|Hc]; [by rewrite Hc in Hnew|]. apply step_last. destruct (put_authzs_fields authzs (replaced o (add_order o a))) as [Ec' Hin].
  pose proof (insertChallenges_step t3 _ challenges R3 Hndc) as Hs. rewrite Ec', Ec in Hs. apply Hs; [|done].
  eapply Forall_impl; [exact Hc|]. intros c Hcz. apply Hin. by left.
Qed.

(** ** All calls *)

Lemma sqlite_step_refines X (c : storeCall X) t a :
  sql_rel t a → sql_room t → sqlite_legal c a → refines t a c.
Proof.
  intros R C Hlegal. destruct c.
  - by apply sqlite_createAccount.
  - by apply sqlite_account.
  - by apply sqlite_accountByKey.
  - by apply sqlite_updateAccount.
  - by apply sqlite_createOrder.
  - apply refined_lookup; [done|by apply eval_read_order].
  - apply sqlite_orderIDs; try done; apply Hlegal.
  - apply refined_lookup; [done|by apply eval_read_authz].
  - by apply sqlite_updateAuthorization.
  - by apply sqlite_authorizedFor.
  - apply refined_lookup; [done|by apply eval_read_challenge].
  - apply refined_lookup; [done|by apply eval_read_certificate].
  - by apply sqlite_certificateByRenewalID.
  - by apply sqlite_updateCertificate.
  - by apply sqlite_acceptChallenge.
  - by apply sqlite_finalizeOrder.
  - by apply sqlite_beginIssuance.
  - by apply sqlite_claimTask.
  - by apply sqlite_rescheduleTask.
  - by apply sqlite_retryValidation.
  - by apply sqlite_finishTask.
  - by apply sqlite_completeValidation.
  - by apply sqlite_completeIssuance.
  - apply sqlite_pendingTasks; try done; apply Hlegal.
  - apply sqlite_leasedTasks; try done; apply Hlegal.
  - by apply sqlite_accountValidations.
Qed.

End create.

(** ** Growth of revisions

    After a call a resource has its old revision, the next one or the first one. *)

Definition grown {V} (f : V → Z) (m m' : gmap string V) : Prop :=
  ∀ k v', m' !! k = Some v' → f v' = 1%Z ∨ ∃ v, m !! k = Some v ∧ (f v' = f v ∨ f v' = u64 (f v + 1)).

Section grown.
Context {V : Type} (f : V → Z).
Implicit Types m : gmap string V.

Lemma grown_refl m : grown f m m.
Proof. intros k v Hv. right. eauto. Qed.

Lemma grown_first m m' k v : f v = 1%Z → grown f m m' → grown f m (<[k := v]> m').
Proof.
  intros Hv Hm j v' [[-> ->]|[_ Hj]]%lookup_insert_Some; [by left|]. by apply Hm.
Qed.

Lemma grown_next m k v revision :
  check_revision (f <$> m !! k) revision = None → f v = u64 (revision + 1) → grown f m (<[k := v]> m).
Proof.
  intros (old & Hold & ->)%check_revision_None%fmap_Some Hv j v' [[-> ->]|[_ Hj]]%lookup_insert_Some; right; eauto.
Qed.

Lemma grown_fold {X} (put : X → AStore → AStore) (g : AStore → gmap string V) (l : list X) m a :
  (∀ x b, x ∈ l → grown f m (g b) → grown f m (g (put x b))) →
  grown f m (g a) → grown f m (g (fold_left (λ b x, put x b) l a)).
Proof.
  revert a. induction l as [|x l IH]; intros a Hput Ha; simpl; [done|]. apply IH.
  - intros y b Hy. apply Hput. by right.
  - apply Hput; [left|done].
Qed.

End grown.

Definition revisions_grown (a a' : AStore) : Prop :=
  grown acct_Revision (as_accounts a) (as_accounts a') ∧ grown ord_Revision (as_orders a) (as_orders a') ∧
  grown az_Revision (as_authzs a) (as_authzs a') ∧ grown ch_Revision (as_challenges a) (as_challenges a') ∧
  grown crt_Revision (as_certificates a) (as_certificates a').

Lemma revisions_grown_refl a : revisions_grown a a.
Proof. split_and!; apply grown_refl. Qed.

Lemma first_error_None errs : first_error errs = None → Forall (λ e, e = None) errs.
Proof. induction errs as [|[err|] errs IH]; simpl; [done|done|]. intros He. constructor; [done|by apply IH]. Qed.

Lemma guarded_grown {X} errs (x : X) a' a :
  (Forall (λ e, e = None) errs → revisions_grown a a') → revisions_grown a (guarded errs x a' a).2.
Proof.
  intros Ha. unfold guarded. destruct (first_error errs) eqn:E; simpl; [apply revisions_grown_refl|].
  by apply Ha, first_error_None.
Qed.

Create HintDb grown.
#[export] Hint Resolve grown_refl revisions_grown_refl : grown.
#[export] Hint Extern 2 (grown _ _ (<[_ := _]> _)) => eapply grown_next; [eassumption|reflexivity] : grown.

Ltac grow := split_and!; simpl; eauto with grown.

Section spec_grown.
Context (a : AStore).
Context (orders_keyed : ∀ k o, as_orders a !! k = Some o → ord_ID o = k).
Context (certificates_keyed : ∀ k c, as_certificates a !! k = Some c → crt_ID c = k).

Lemma replace_grown o b : spec_replace o a = Ok b → revisions_grown a b.
Proof.
  unfold spec_replace. case_match; [intros [= <-]; apply revisions_grown_refl|].
  destruct (find_renewal _ a) as [c|] eqn:Hf; [|done]. case_match; [done|]. intros [= <-]. grow.
  apply find_value_Some in Hf as (k & Hk & _). rewrite (certificates_keyed _ _ Hk).
  apply (grown_next _ _ _ _ (crt_Revision c)); [|done]. apply check_revision_None. by rewrite Hk.
Qed.

Lemma createOrder_grown o authzs challenges : revisions_grown a (spec_createOrder o authzs challenges a).2.
Proof.
  unfold spec_createOrder. case_match; [apply revisions_grown_refl|].
  destruct (spec_replace o a) as [b|] eqn:Hrep; [|apply revisions_grown_refl]. cbn [snd].
  apply replace_grown in Hrep as (? & ? & ? & ? & ?).
  assert (∀ z, z ∈ map (λ z, {| z with az_Revision := 1%Z |}) authzs → az_Revision z = 1%Z) as Hz
    by (by intros z (? & -> & _)%list_elem_of_fmap).
  assert (∀ c, c ∈ map (λ c, {| c with ch_Revision := 1%Z |}) challenges → ch_Revision c = 1%Z) as Hc
    by (by intros c (? & -> & _)%list_elem_of_fmap).
  split_and!; repeat (apply grown_fold; [intros x b' Hx Hb'; simpl; auto using grown_first|]); simpl; auto using grown_first.
Qed.

Lemma updateAuthorization_grown z : revisions_grown a (spec_updateAuthorization z a).2.
Proof.
  unfold spec_updateAuthorization. destruct (spec_checkAuthz z a) eqn:Hz; [apply revisions_grown_refl|]. simpl.
  unfold spec_checkAuthz in Hz. destruct (as_orders a !! az_OrderID z) as [o|] eqn:Ho; [|grow].
  case_match; [|grow]. grow. rewrite (orders_keyed _ _ Ho).
  apply (grown_next _ _ _ _ (ord_Revision o)); [|done]. apply check_revision_None. by rewrite Ho.
Qed.

Lemma spec_exec_grown {X} (c : storeCall X) : revisions_grown a (spec_exec c a).2.
Proof.
  destruct c; try apply revisions_grown_refl; cbn [spec_exec].
  - unfold spec_createAccount. case_match; [apply revisions_grown_refl|]. grow. apply grown_first; [done|apply grown_refl].
  - unfold spec_updateAccount. destruct (check_revision _ _) eqn:Hc; [apply revisions_grown_refl|].
    case_match; [apply revisions_grown_refl|]. grow.
  - apply createOrder_grown.
  - unfold spec_orderIDs. case_match; apply revisions_grown_refl.
  - apply updateAuthorization_grown.
  - case_match; apply revisions_grown_refl.
  - apply guarded_grown. intros Hall. decompose_Forall. grow.
  - apply guarded_grown. intros Hall. decompose_Forall. unfold spec_checkChallenge in *. grow.
  - apply guarded_grown. intros Hall. decompose_Forall. unfold spec_checkOrder in *. grow.
  - apply guarded_grown. intros Hall. decompose_Forall. unfold spec_checkOrder in *. grow.
  - unfold spec_claimTask. case_match; grow.
  - apply guarded_grown. intros _. grow.
  - apply guarded_grown. intros Hall. decompose_Forall. unfold spec_checkChallenge in *. grow.
  - apply guarded_grown. intros _. grow.
  - apply guarded_grown. intros Hall. decompose_Forall. unfold spec_checkChallenge, spec_checkAuthz, spec_checkOrder in *. grow.
  - apply guarded_grown. intros Hall. decompose_Forall. unfold spec_checkOrder in *. destruct cert as [c|]; grow.
    apply grown_first; [done|apply grown_refl].
Qed.

End spec_grown.

(** ** Growth of fences *)

Section fences.
Context (a : AStore).

Definition fences_grown (l l' : list Task) : Prop :=
  ∀ k', k' ∈ l' → task_Fence k' = 0%Z ∨
    ∃ k, k ∈ l ∧ (task_Fence k' = task_Fence k ∨ task_Fence k' = u64 (task_Fence k + 1)).

Lemma fences_refl l : fences_grown l l.
Proof. intros k Hk. right. eauto. Qed.

Lemma fences_enqueued l k : fences_grown l (l ++ [enqueued k]).
Proof. intros k' [Hk|Hk%list_elem_of_singleton]%elem_of_app; [right; eauto|left; by subst]. Qed.

Lemma fences_removed l id : fences_grown l (remove_task id l).
Proof. intros k' [_ Hk]%list_elem_of_filter. right. eauto. Qed.

Lemma fences_updated l id f :
  (∀ k, task_Fence (f k) = task_Fence k ∨ task_Fence (f k) = u64 (task_Fence k + 1)) →
  fences_grown l (update_task id f l).
Proof. intros Hf k' (k & -> & Hk)%list_elem_of_fmap. right. exists k. split; [done|]. case_bool_decide; auto. Qed.

Lemma guarded_fences {X} errs (x : X) a' :
  fences_grown (as_tasks a) (as_tasks a') → fences_grown (as_tasks a) (as_tasks (guarded errs x a' a).2).
Proof. intros Ha. unfold guarded. case_match; [apply fences_refl|done]. Qed.

Lemma fold_tasks {X} (put : X → AStore → AStore) l b :
  (∀ x b, as_tasks (put x b) = as_tasks b) → as_tasks (fold_left (λ b x, put x b) l b) = as_tasks b.
Proof. intros Hput. revert b. induction l as [|x l IH]; intros b; simpl; [done|]. by rewrite IH, Hput. Qed.

Lemma createOrder_tasks o authzs challenges : as_tasks (spec_createOrder o authzs challenges a).2 = as_tasks a.
Proof.
  unfold spec_createOrder. case_match; [done|]. unfold spec_replace. repeat (case_match; simplify_eq/=; try done);
    by rewrite !fold_tasks.
Qed.

Lemma spec_exec_fences {X} (c : storeCall X) : fences_grown (as_tasks a) (as_tasks (spec_exec c a).2).
Proof.
  destruct c; try apply fences_refl; cbn [spec_exec]; try apply guarded_fences;
    try (first [apply fences_refl|apply fences_enqueued|apply fences_removed|apply fences_updated; intros k; by left]).
  - unfold spec_createAccount. case_match; apply fences_refl.
  - unfold spec_updateAccount. repeat case_match; apply fences_refl.
  - rewrite createOrder_tasks. apply fences_refl.
  - unfold spec_orderIDs. case_match; apply fences_refl.
  - unfold spec_updateAuthorization. repeat case_match; apply fences_refl.
  - case_match; apply fences_refl.
  - unfold spec_claimTask. case_match; [apply fences_updated; intros k; by right|apply fences_refl].
  - destruct cert; apply fences_removed.
Qed.

End fences.

Lemma Forall2_elem_l {A B} (P : A → B → Prop) l k x : Forall2 P l k → x ∈ l → ∃ y, y ∈ k ∧ P x y.
Proof. induction 1; [set_solver|]. intros [->|Hx]%elem_of_cons; set_solver. Qed.

Lemma Forall2_elem_r {A B} (P : A → B → Prop) l k y : Forall2 P l k → y ∈ k → ∃ x, x ∈ l ∧ P x y.
Proof. induction 1; [set_solver|]. intros [->|Hx]%elem_of_cons; set_solver. Qed.

(** ** Room after a call *)

Section capacity.
Context `{Platform} `{Gob} `{!GobLaws}.

Lemma roomFor_grown n (z z' : Z) :
  roomFor (S n) z → z' = z ∨ z' = u64 (z + 1) → roomFor n z'.
Proof. unfold roomFor. intros [? ?] [->| ->]; [lia|]. rewrite u64_small; lia. Qed.

(** Revisions as the rows of a table hold them. *)
Lemma rows_grown {R V} `{Row R} (P : R → V → Prop) (column : R → Z) (f : V → Z) l l' m m' n :
  tab_rel P l m → tab_rel P l' m' → (∀ r v, P r v → column r = f v) → roomFor (S n) 1 → grown f m m' →
  Forall (λ r, roomFor (S n) (column r)) l → Forall (λ r, roomFor n (column r)) l'.
Proof.
  intros T T' Hcol Hone Hg Hl. apply Forall_forall. intros r' Hr'.
  destruct (tab_elem _ T' r' Hr') as (v' & Hv' & HP'). rewrite (Hcol _ _ HP').
  destruct (Hg _ _ Hv') as [->|(v & Hv & Hor)]; [unfold roomFor in *; lia|].
  destruct (tab_Some _ T _ _ Hv) as (r & [Hr _]%row_of_Some & HP). rewrite Forall_forall in Hl.
  apply (roomFor_grown n (f v)); [|done]. rewrite <- (Hcol _ _ HP). by apply Hl.
Qed.

Lemma sql_keyed t a :
  sql_rel t a → (∀ k o, as_orders a !! k = Some o → ord_ID o = k) ∧ (∀ k c, as_certificates a !! k = Some c → crt_ID c = k).
Proof.
  intros R. split; [|intros k c; by apply (certificate_key t)]. intros k o Ho.
  destruct (tab_Some order_row (sr_orders _ _ R) _ _ Ho) as (r & [_ Hr]%row_of_Some & HP).
  rewrite <- (orow_id _ _ HP). exact Hr.
Qed.

(** *** Sequences *)

Definition sequences_grown (t t' : Tables) : Prop :=
  (t_ordersSequence t ≤ t_ordersSequence t' ≤ t_ordersSequence t + 1 ∧
   t_tasksSequence t ≤ t_tasksSequence t' ≤ t_tasksSequence t + 1)%Z.

Lemma sequences_refl t : sequences_grown t t.
Proof. unfold sequences_grown. lia. Qed.

Lemma at_most_bind_first {A B} n (p : prog onReader (SqlRes A)) (f : A → prog onReader (SqlRes B)) :
  at_most n p → (∀ x, at_most 0 (f x)) → at_most n (sql_bind p f).
Proof.
  intros Hp Hf. unfold sql_bind. replace n with (n + 0)%nat by lia. apply at_most_bind; [done|]. by intros [x|err].
Qed.

Lemma at_most_zero {A} n (p : prog onReader A) : at_most 0 p → at_most n p.
Proof. apply at_most_mono. lia. Qed.

Lemma at_most_read {V} `{GobType V} table id : at_most 0 (read (V := V) table id).
Proof. apply at_most_sql_bind; [by apply at_most_stored|]. intros d. apply at_most_pureErr. Qed.

Lemma at_most_checkRevision table id revision : at_most 0 (checkRevision table id revision).
Proof. apply at_most_sql_bind; [by apply at_most_stored|]. intros r. by case_match. Qed.

Lemma at_most_insert {V} `{GobType V} n s (v : V) : (∀ d, numbering (s d) ≤ n)%nat → at_most n (insert s v).
Proof. intros Hs. apply at_most_sql_bind; [apply at_most_pureErr|]. intros d. by apply at_most_run. Qed.

Lemma at_most_saveAuthorization z : at_most 0 (saveAuthorization z).
Proof. apply at_most_sql_bind; [apply at_most_update|]. by intros _. Qed.

Lemma at_most_checkTask k : at_most 0 (checkTask k).
Proof. apply at_most_sql_bind; [by split|]. intros r. by case_match. Qed.

Lemma at_most_finishTask k : at_most 0 (finishTask k).
Proof. apply at_most_sql_bind; [apply at_most_checkTask|]. by intros _. Qed.

Lemma at_most_releaseTask k : at_most 0 (releaseTask k).
Proof.
  apply at_most_sql_bind; [apply at_most_read|]. intros j. apply at_most_sql_bind; [apply at_most_pureErr|]. by intros d.
Qed.

Lemma at_most_insertAuthorizations authzs : at_most 0 (insertAuthorizations authzs).
Proof. induction authzs; [done|]. by apply at_most_sql_bind; [apply at_most_insert|]. Qed.

Lemma at_most_insertChallenges challenges : at_most 0 (insertChallenges challenges).
Proof. induction challenges; [done|]. by apply at_most_sql_bind; [apply at_most_insert|]. Qed.

Lemma at_most_checkAuthorizations at' authzs ids : at_most 0 (checkAuthorizations at' authzs ids).
Proof.
  revert ids. induction authzs as [|z authzs IH]; intros ids; [done|]. apply at_most_sql_bind; [apply at_most_checkRevision|].
  intros _. destruct ids; [done|]. case_match; [done|]. apply IH.
Qed.

Lemma at_most_claimReplacement o : at_most 0 (claimReplacement o).
Proof.
  unfold claimReplacement. apply at_most_sql_bind; [by apply at_most_stored|]. intros [[id revision] data].
  apply at_most_sql_bind; [apply at_most_pureErr|]. intros c. case_match; [|apply at_most_update].
  apply (at_most_bind 0 0); [apply at_most_read|]. intros [o'|[]]; simpl; try done; case_match; try done; apply at_most_update.
Qed.

Create HintDb numbers.
#[local] Hint Resolve at_most_sql_bind at_most_pureErr at_most_update at_most_read at_most_checkRevision at_most_saveAuthorization
  at_most_checkTask at_most_finishTask at_most_releaseTask at_most_insertAuthorizations at_most_insertChallenges
  at_most_checkAuthorizations at_most_claimReplacement : numbers.
#[local] Hint Extern 1 (at_most _ (insert _ _)) => (apply at_most_insert; intros; simpl; lia) : numbers.
#[local] Hint Extern 1 (at_most _ (insertTask _)) => (apply at_most_insert; intros; simpl; lia) : numbers.
#[local] Hint Extern 1 (at_most _ (saveOrder _)) => apply at_most_update : numbers.
#[local] Hint Extern 1 (at_most _ (saveChallenge _)) => apply at_most_update : numbers.
#[local] Hint Extern 1 (at_most _ (run _)) => (apply at_most_run; simpl; lia) : numbers.
#[local] Hint Extern 1 (at_most _ (ok _)) => exact I : numbers.
#[local] Hint Extern 1 (at_most _ (fail _)) => exact I : numbers.
#[local] Hint Extern 2 (at_most _ (if _ then _ else _)) => case_match : numbers.

Lemma run_sequences {X} (p : prog onReader (SqlRes X)) t :
  at_most 1 p → sequences_grown t (sqlite_run None (transaction true p) t).2.
Proof.
  intros Hp. unfold sqlite_run. rewrite exec_transaction_write. pose proof (eval_sequences 1 p t Hp) as Hs.
  destruct (eval p t) as [[x|err] t']; simpl in *; [|apply sequences_refl]. unfold sequences_grown. lia.
Qed.

Lemma run_bind_sequences {X Y} (p : prog onReader (SqlRes X)) (y : Y) t :
  at_most 1 p → sequences_grown t (sqlite_run None (do! transaction true p in ok y) t).2.
Proof.
  intros Hp%(run_sequences p t). unfold sqlite_run, sql_bind in *. rewrite exec_bind.
  destruct (Prog.exec (sql_exec None) (transaction true p) (mkDB t None)) as [[x|err] d]; done.
Qed.

Lemma run_query_tables {X} (p : prog onReader (SqlRes X)) t : reads p → (sqlite_run None (query p) t).2 = t.
Proof.
  intros Hp. unfold sqlite_run, query. rewrite exec_on_query. pose proof (eval_reads p t Hp) as Ht.
  destruct (eval p t). simpl in *. by subst.
Qed.

Lemma run_read_tables {X} (p : prog onReader (SqlRes X)) t : reads p → (sqlite_run None (transaction false p) t).2 = t.
Proof. intros Hp. unfold sqlite_run. by rewrite exec_transaction_read. Qed.

(** A method whose tables stay as they are. *)
Lemma unchanged_sequences t t' : t' = t → sequences_grown t t'.
Proof. intros ->. apply sequences_refl. Qed.

Lemma method_sequences {X} (c : storeCall X) t : sequences_grown t (sqlite_run None (sqlite_method c) t).2.
Proof.
  destruct c; cbn [sqlite_method].
  - unfold CreateAccount. case_match; [apply sequences_refl|]. apply run_bind_sequences. auto with numbers.
  - apply unchanged_sequences, run_query_tables, reads_read.
  - unfold AccountByKey, sqlite_run. simpl. destruct (found _) as [d|]; simpl; [destruct (decode d)|]; apply sequences_refl.
  - unfold UpdateAccount. apply run_bind_sequences. auto with numbers.
  - unfold CreateOrder. apply run_bind_sequences. apply at_most_bind_first; [auto with numbers|]. intros _.
    apply at_most_sql_bind; [case_match; auto with numbers|auto with numbers].
  - apply unchanged_sequences, run_query_tables, reads_read.
  - unfold OrderIDs. case_match; [apply sequences_refl|]. apply unchanged_sequences, run_read_tables.
    apply reads_bind; [by case_match|]. by intros [x|err].
  - apply unchanged_sequences, run_query_tables, reads_read.
  - unfold UpdateAuthorization. apply run_bind_sequences. apply at_most_sql_bind; [auto with numbers|]. intros _. case_match; [done|].
    apply at_most_sql_bind; [auto with numbers|]. intros o. case_match; [done|]. apply at_most_zero, at_most_update.
  - unfold AuthorizedFor. apply unchanged_sequences, run_read_tables. apply reads_bind; [apply reads_read|].
    intros [b|[| |err]]; [|done|done|by case_match]. case_match; [done|]. apply reads_authorizedScopes.
  - apply unchanged_sequences, run_query_tables, reads_read.
  - apply unchanged_sequences, run_query_tables, reads_read.
  - unfold CertificateByRenewalID. case_match; [apply sequences_refl|].
    unfold sqlite_run. simpl. destruct (found _) as [[[id r] d]|]; simpl; [destruct (decode d)|]; apply sequences_refl.
  - unfold UpdateCertificate. apply run_bind_sequences. apply at_most_zero, at_most_update.
  - unfold AcceptChallenge. apply run_bind_sequences. auto with numbers.
  - unfold FinalizeOrder. apply run_bind_sequences. auto with numbers.
  - unfold BeginIssuance. apply run_bind_sequences. apply at_most_zero. repeat (apply at_most_sql_bind; [auto with numbers|intros ?]).
    case_match; auto with numbers.
  - apply run_sequences, at_most_zero. apply at_most_sql_bind; [by split|]. intros [[data fence] attempts].
    repeat (apply at_most_sql_bind; [auto with numbers|intros ?]). done.
  - unfold RescheduleTask. apply run_bind_sequences. apply at_most_zero. auto with numbers.
  - unfold RetryValidation. apply run_bind_sequences. apply at_most_zero. auto with numbers.
  - apply run_sequences, at_most_zero, at_most_finishTask.
  - unfold CompleteValidation. apply run_bind_sequences. apply at_most_zero. auto 6 with numbers.
  - unfold CompleteIssuance. apply run_bind_sequences. apply at_most_zero. apply at_most_sql_bind; [auto with numbers|]. intros _.
    apply at_most_sql_bind; [destruct cert; auto with numbers|auto with numbers].
  - unfold PendingTasks, sqlite_run. simpl. apply sequences_refl.
  - unfold LeasedTasks, sqlite_run. simpl. apply sequences_refl.
  - unfold AccountValidations, sqlite_run. simpl. apply sequences_refl.
Qed.

Lemma roomFor_less n z : roomFor (S n) z → roomFor n z.
Proof. unfold roomFor. lia. Qed.

Lemma sql_capacity_less n t : sql_capacity (S n) t → sql_capacity n t.
Proof. intros []. split; try (eapply Forall_impl; [eassumption|]; intros; simpl in *); by apply roomFor_less. Qed.

(** *** Calls *)

Lemma sql_capacity_exec n t a X (c : storeCall X) :
  sql_rel t a → sql_capacity (S n) t → sqlite_legal c a → sql_capacity n (sqlite_run None (sqlite_method c) t).2.
Proof.
  intros R C Hlegal. assert (sql_room t) as Hroom.
  { clear -C. induction n as [|n IH]; [done|]. by apply IH, sql_capacity_less. }
  destruct (sqlite_step_refines X c t a R Hroom Hlegal) as [_ R'].
  destruct (sql_keyed t a R) as [Ko Kc]. destruct (spec_exec_grown a Ko Kc c) as (Ga & Go & Gz & Gh & Gc).
  pose proof (spec_exec_fences a c) as Gk. pose proof (method_sequences c t) as [Hos Hts].
  destruct C. split.
  - by apply roomFor_less.
  - by eapply (rows_grown account_row); [apply (sr_accounts _ _ R)|apply (sr_accounts _ _ R')|intros r v []|..].
  - by eapply (rows_grown order_row); [apply (sr_orders _ _ R)|apply (sr_orders _ _ R')|intros r v []|..].
  - by eapply (rows_grown authz_row); [apply (sr_authzs _ _ R)|apply (sr_authzs _ _ R')|intros r v []|..].
  - by eapply (rows_grown challenge_row); [apply (sr_challenges _ _ R)|apply (sr_challenges _ _ R')|intros r v []|..].
  - by eapply (rows_grown certificate_row); [apply (sr_certificates _ _ R)|apply (sr_certificates _ _ R')|intros r v []|..].
  - apply Forall_forall. intros r' Hr'. destruct (Forall2_elem_l _ _ _ _ (sr_tasks _ _ R') Hr') as (k' & Hk' & HP').
    rewrite (krow_fence _ _ HP'). destruct (Gk k' Hk') as [->|(k & Hk & Hor)]; [unfold roomFor in *; lia|].
    destruct (Forall2_elem_r _ _ _ _ (sr_tasks _ _ R) Hk) as (r & Hr & HP). rewrite Forall_forall in cap_tasks.
    apply (roomFor_grown n (task_Fence k)); [|done]. rewrite <- (krow_fence _ _ HP). by apply cap_tasks.
  - unfold roomFor in *. lia.
  - unfold roomFor in *. lia.
Qed.

(** A call on an ended context changes nothing, and returns the error of the context unless it
    refuses its arguments first. *)
Lemma sqlite_ended_tables X (c : storeCall X) err t : (sqlite_run (Some err) (sqlite_method c) t).2 = t.
Proof.
  destruct c; try done; cbn [sqlite_method]; [unfold CreateAccount|unfold OrderIDs|unfold CertificateByRenewalID]; by case_match.
Qed.

Lemma sqlite_ended X (c : storeCall X) err t :
  checks_context c = true → sqlite_run (Some err) (sqlite_method c) t = (Err err, t).
Proof.
  destruct c; try done; cbn [sqlite_method checks_context]; intros Hc; go_bool.
  - unfold CreateAccount. by rewrite !bool_decide_false.
  - unfold OrderIDs. by rewrite (proj2 (Z.leb_gt _ _)).
  - unfold CertificateByRenewalID. by rewrite bool_decide_false.
Qed.

#[export] Instance sqlite_store_spec : StoreSpec Tables := {
  store_rel := sql_rel;
  store_room := sql_room;
  store_legal := @sqlite_legal _ _;
  store_refines X c s a := sqlite_step_refines X c s a;
  store_ended := sqlite_ended
}.

End capacity.
