(* ===== verification/SqliteSerial.v ===== *)
(** * Several connections on one database

    Methods of the SQLite store that run at the same time, in one process or in several, with
    statements and commits that fail, transactions that SQLite rolls back on its own and processes
    that crash. The committed tables are those of some sequence of calls made one after the other,
    and every method that returned answered as it does alone on a committed version of its time. *)

From S2P Require Import Prelude Status Problem Resource Base64 Netip StoreSpec Prog Host Platform Identifier Sqldb Sqlitestore SqliteRel SqliteCalls.

(** ** Failures *)

(** Errors of the backend: neither a missing row, nor a violated constraint, nor an error of the
    store contract. *)
Definition fault (err : sqlError) : Prop :=
  match err with
  | SqlNoRows => False
  | SqliteError code => code ≠ 1555%Z ∧ code ≠ 2067%Z
  | SqlError err => IsNotFound err = false ∧ IsConflict err = false ∧ IsRevisionMismatch err = false ∧
                    IsAlreadyReplaced err = false
  end.

(** ** Steps of a connection

    The database is the list of its committed versions, the current one last, each with the thread
    that committed it. *)
Notation version := (option nat * Tables)%type.

Section serial.
Context `{Platform} `{Gob}.
Implicit Types (V : list version) (tx : option transactionState).

Definition current V : option Tables := snd <$> last V.

Section connection.
Context (me : nat) (alone : Prop).

(** The thread [me] makes a call with its transaction [tx]; [alone] says that no other thread holds
    the write lock. An immediate transaction takes the lock when it begins, a deferred one reads the
    version it saw first. A call that fails leaves the transaction open or rolled back; a commit that
    reports an error may have happened. *)
Inductive begin_step : bool → list version → option transactionState → option sqlError →
    list version → option transactionState → Prop :=
| begin_write V t : alone → current V = Some t → begin_step true V None None V (Some (Writing t))
| begin_read V : begin_step false V None None V (Some Deferred)
| begin_fault V tx immediate err : fault err → begin_step immediate V tx (Some err) V tx.

Inductive exec_step {X : Type} (s : statement X) : list version → option transactionState → SqlRes X →
    list version → option transactionState → Prop :=
| exec_writing V t :
    exec_step s V (Some (Writing t)) (statement_exec s t).1 V (Some (Writing (statement_exec s t).2))
| exec_first V t :
    writes s = false → current V = Some t → exec_step s V (Some Deferred) (statement_exec s t).1 V (Some (Reading t))
| exec_reading V t : writes s = false → exec_step s V (Some (Reading t)) (statement_exec s t).1 V (Some (Reading t))
| exec_upgrade V t st :
    writes s = true → alone → current V = Some t → st = Deferred ∨ st = Reading t →
    exec_step s V (Some st) (statement_exec s t).1 V (Some (Writing (statement_exec s t).2))
| exec_auto V t :
    alone → current V = Some t →
    exec_step s V None (statement_exec s t).1 (V ++ [(Some me, (statement_exec s t).2)]) None
| exec_fault V tx tx' err : fault err → tx' = tx ∨ tx' = None → exec_step s V tx (Err err) V tx'.

Inductive commit_step : list version → option transactionState → option sqlError → list version →
    option transactionState → Prop :=
| commit_write V t : commit_step V (Some (Writing t)) None (V ++ [(Some me, t)]) None
| commit_read V st : (∀ t, st ≠ Writing t) → commit_step V (Some st) None V None
| commit_fault V tx tx' err : fault err → tx' = tx ∨ tx' = None → commit_step V tx (Some err) V tx'
| commit_unknown V t err : fault err → commit_step V (Some (Writing t)) (Some err) (V ++ [(Some me, t)]) None.

Inductive query_step {X : Type} (s : statement X) : list version → SqlRes X → Prop :=
| query_ok V t : writes s = false → current V = Some t → query_step s V (statement_exec s t).1
| query_fault V err : fault err → query_step s V (Err err).

Definition may_fail (r : option sqlError) : Prop := match r with Some err => fault err | None => True end.

Definition db_step {X : Type} (c : sqlCall X)
    : list version → option transactionState → X → list version → option transactionState → Prop :=
  match c with
  | OpenDB _ _ | Conn => λ V tx r V' tx', may_fail r ∧ V' = V ∧ tx' = tx
  | CloseDB => λ V tx r V' tx', may_fail r ∧ V' = V ∧ tx' = None
  | CloseConn => λ V tx r V' tx', V' = V ∧ tx' = tx
  | Begin immediate => begin_step immediate
  | Exec s => exec_step s
  | Commit => commit_step
  | Rollback => λ V tx r V' tx', V' = V ∧ tx' = None
  | Query s => λ V tx r V' tx', query_step s V r ∧ V' = V ∧ tx' = tx
  end.

End connection.

(** ** The pool *)

(** A method that was called: its call, the version that was current then, its transaction and what
    is left of it; or the process that called it is gone. *)
Inductive thread : Type :=
| Thread {X : Type} (c : storeCall X) (start : nat) (tx : option transactionState) (p : prog sqlCall (SqlRes X))
| Crashed {X : Type} (c : storeCall X).

Definition writing (th : thread) : Prop :=
  match th with Thread _ _ (Some (Writing _)) _ => True | _ => False end.

(** No thread but the [i]th holds the write lock. *)
Definition unlocked (i : nat) (ts : list thread) : Prop := ∀ j th, j ≠ i → ts !! j = Some th → ¬ writing th.

Inductive sqlite_step : list version * list thread → list version * list thread → Prop :=
| step_call V V' ts i X (c : storeCall X) start tx tx' Y (e : sqlCall Y) k y :
    ts !! i = Some (Thread c start tx (Vis e k)) → db_step i (unlocked i ts) e V tx y V' tx' →
    sqlite_step (V, ts) (V', <[i := Thread c start tx' (k y)]> ts)
| step_start V ts X (c : storeCall X) :
    sqlite_step (V, ts) (V, ts ++ [Thread c (pred (length V)) None (sqlite_method c)])
| step_crash V ts i X (c : storeCall X) start tx p :
    ts !! i = Some (Thread c start tx p) → sqlite_step (V, ts) (V, <[i := Crashed c]> ts).

(** What the call of a thread makes of the tables when it runs alone. *)
Definition thread_effect (th : thread) (t : Tables) : Tables :=
  match th with Thread c _ _ _ | Crashed c => (sqlite_run None (sqlite_method c) t).2 end.

(** ** Reasoning about one thread *)

Section thread.
Context (me : nat) (effect : Tables → Tables → Prop).

(** The thread has committed nothing. *)
Definition unpublished V : Prop := Some me ∉ V.*1.

(** What other threads may do between two calls: while the thread holds the lock, nothing. *)
Definition grows tx V V' : Prop :=
  match tx with
  | Some (Writing _) => V' = V
  | _ => V `prefix_of` V' ∧ (unpublished V → unpublished V')
  end.

Lemma grows_refl tx V : grows tx V V.
Proof. by destruct tx as [[]|]. Qed.

Lemma grows_trans tx V1 V2 V3 : grows tx V1 V2 → grows tx V2 V3 → grows tx V1 V3.
Proof. destruct tx as [[]|]; simpl; [| |by intros -> ->|]; intros [? ?] [? ?]; (split; [by etrans|auto]). Qed.

Lemma grows_prefix tx V V' : grows tx V V' → V `prefix_of` V'.
Proof. destruct tx as [[]|]; simpl; [by intros []|by intros []|by intros ->|by intros []]. Qed.

(** The versions after a call: the same, or one more that has the effect. *)
Definition published V V' : Prop :=
  V' = V ∨ ∃ t t', current V = Some t ∧ V' = V ++ [(Some me, t')] ∧ effect t t' ∧ unpublished V.

Fixpoint tsafe {A} (p : prog sqlCall A) (Q : A → list version → option transactionState → Prop) V tx : Prop :=
  match p with
  | Ret a => Q a V tx
  | Vis e k =>
      ∀ V1 alone x V' tx', grows tx V V1 → db_step me alone e V1 tx x V' tx' → published V1 V' ∧ tsafe (k x) Q V' tx'
  end.

Lemma tsafe_grow {A} (p : prog sqlCall A) Q V V' tx :
  (∀ a V V' tx, grows tx V V' → Q a V tx → Q a V' tx) → grows tx V V' → tsafe p Q V tx → tsafe p Q V' tx.
Proof.
  intros HQ Hg. destruct p as [a|X e k]; simpl; [by apply HQ|]. intros Hk V1 alone x V2 tx2 Hg1. apply Hk. by eapply grows_trans.
Qed.

Lemma tsafe_bind {A B} (p : prog sqlCall A) (f : A → prog sqlCall B) Q V tx :
  tsafe p (λ a V tx, tsafe (f a) Q V tx) V tx → tsafe (p ≫= f) Q V tx.
Proof.
  change (p ≫= f) with (prog_bind f p). revert V tx. induction p as [a|X e k IH]; intros V tx; simpl; [done|].
  intros Hk V1 alone x V' tx' Hg Hs. destruct (Hk V1 alone x V' tx' Hg Hs). split; [done|]. by apply IH.
Qed.

Lemma tsafe_conseq {A} (p : prog sqlCall A) (Q Q' : A → list version → option transactionState → Prop) V tx :
  (∀ a V tx, Q a V tx → Q' a V tx) → tsafe p Q V tx → tsafe p Q' V tx.
Proof.
  intros HQ. revert V tx. induction p as [a|X e k IH]; intros V tx; simpl; [by apply HQ|].
  intros Hk V1 alone x V' tx' Hg Hs. destruct (Hk V1 alone x V' tx' Hg Hs). split; [done|]. by apply IH.
Qed.

(** Operations that end with the error of a statement that failed. *)
Fixpoint fails_fast {A} (p : prog onReader (SqlRes A)) : Prop :=
  match p with
  | Ret _ => True
  | Vis (Run s) k => (∀ err, fault err → k (Err err) = Ret (Err err)) ∧ ∀ x, fails_fast (k x)
  end.

Definition faulted {A} (r : SqlRes A) : Prop := ∃ err, r = Err err ∧ fault err.

(** An operation in an immediate transaction runs as it does alone, or fails. *)
Lemma tsafe_writing {A} (p : prog onReader (SqlRes A)) V t :
  fails_fast p →
  tsafe (on (@Exec _) p)
    (λ r V' tx', V' = V ∧ (faulted r ∧ (tx' = None ∨ ∃ t', tx' = Some (Writing t')) ∨
                           r = (eval p t).1 ∧ tx' = Some (Writing (eval p t).2))) V (Some (Writing t)).
Proof.
  unfold eval. revert t. induction p as [r|X [Y s] k IH]; intros t; simpl; [auto|].
  intros [Hfast Hk] V1 alone x V' tx' -> Hs. inversion Hs; subst; (split; [by left|]).
  - destruct (statement_exec s t) as [r t']. by apply IH.
  - match goal with H : _ ∨ _ |- _ => destruct H; by subst end.
  - rewrite Hfast by done. simpl. split; [done|]. left. split; [by eexists|]. naive_solver.
Qed.

Lemma tsafe_reading {A} (p : prog onReader (SqlRes A)) V t :
  fails_fast p → reads p → ∀ V0, V `prefix_of` V0 →
  tsafe (on (@Exec _) p)
    (λ r V' tx', V `prefix_of` V' ∧ (∀ t', tx' ≠ Some (Writing t')) ∧ (faulted r ∨ r = (eval p t).1)) V0 (Some (Reading t)).
Proof.
  unfold eval. induction p as [r|X [Y s] k IH]; simpl.
  { intros _ _ V0 HV. split_and!; [done|done|by right]. }
  intros [Hfast Hk] [Hr Hrk] V0 HV V1 alone x V' tx' Hg Hs.
  assert (V `prefix_of` V1) as HV1 by (etrans; [done|apply Hg]).
  inversion Hs; subst; (split; [by left|]); try congruence.
  - pose proof (statement_reads s t Hr) as Ht. destruct (statement_exec s t) as [r t']. simpl in *. subst. by apply IH.
  - rewrite Hfast by done. simpl. split_and!; [done|naive_solver|left; by eexists].
Qed.

(** A version that was current after [V], with the answer an operation gives on it. *)
Definition at_version V V' (P : nat → Tables → Prop) : Prop :=
  ∃ k t, (pred (length V) ≤ k)%nat ∧ V'.*2 !! k = Some t ∧ P k t.

Lemma prefix_version V V1 k v : V `prefix_of` V1 → V !! k = Some v → V1 !! k = Some v.
Proof. intros. by eapply prefix_lookup_Some. Qed.

Lemma prefix_tables V V1 k t : V `prefix_of` V1 → V.*2 !! k = Some t → V1.*2 !! k = Some t.
Proof.
  intros Hp. rewrite !list_lookup_fmap, !fmap_Some. intros (v & Hv & ->). exists v. split; [by eapply prefix_version|done].
Qed.

Lemma current_tables V t : current V = Some t → V.*2 !! pred (length V) = Some t.
Proof. unfold current. by rewrite last_lookup, list_lookup_fmap. Qed.

Lemma current_None V : current V = None → V = [].
Proof. unfold current. rewrite fmap_None. apply last_None. Qed.

Lemma at_version_last V V1 t (P : nat → Tables → Prop) :
  V `prefix_of` V1 → current V1 = Some t → P (pred (length V1)) t → at_version V V1 P.
Proof.
  intros Hp Hl HP. exists (pred (length V1)), t. split_and!; [|by apply current_tables|done].
  apply prefix_length in Hp. lia.
Qed.

Lemma at_version_mono V V1 V2 (P P' : nat → Tables → Prop) :
  V1 `prefix_of` V2 → (∀ k t, P k t → P' k t) → at_version V V1 P → at_version V V2 P'.
Proof. intros Hp HP (k & t & Hk & Ht & HPt). exists k, t. split_and!; [done|by eapply prefix_tables|by apply HP]. Qed.

(** An operation in a deferred transaction answers as on one version, or fails. *)
Lemma tsafe_deferred {A} (p : prog onReader (SqlRes A)) V V0 :
  fails_fast p → reads p → V ≠ [] → V `prefix_of` V0 →
  tsafe (on (@Exec _) p)
    (λ r V' tx', V `prefix_of` V' ∧ (∀ t', tx' ≠ Some (Writing t')) ∧
                 (faulted r ∨ at_version V V' (λ _ t, r = (eval p t).1))) V0 (Some Deferred).
Proof.
  intros Hfast Hr HV HV0. destruct p as [r|X [Y s] k]; simpl.
  { split_and!; [done|done|]. right. destruct (current V0) as [t|] eqn:Hl.
    - by eapply at_version_last.
    - apply current_None in Hl. subst. by apply prefix_nil_inv in HV0. }
  destruct Hfast as [Hfault Hk], Hr as [Hs Hrk]. intros V1 alone x V' tx' Hg Hst.
  assert (V `prefix_of` V1) as HV1 by (etrans; [done|apply Hg]).
  inversion Hst; subst; (split; [by left|]); try congruence.
  - pose proof (statement_reads s t Hs) as Ht. unfold eval. simpl. destruct (statement_exec s t) as [r t'] eqn:He. simpl in *. subst t'.
    eapply tsafe_conseq; [|by apply (tsafe_reading (k r) V' t); [apply Hk|apply Hrk|]].
    intros a V2 tx2 (HV2 & Htx & [Hf|Ha]); (split_and!; [by etrans|done|]); [by left|right].
    eapply at_version_mono; [exact HV2|intros j u Hj; exact Hj|]. eapply at_version_last; [done|done|]. by rewrite He.
  - rewrite Hfault by done. simpl. split_and!; [done|naive_solver|left; by eexists].
Qed.

Lemma fault_storage err : fault err → storageError err = err.
Proof.
  destruct err as [|code|]; simpl; [done| |done]. intros [H1 H2].
  by rewrite (proj2 (Z.eqb_neq _ _) H1), (proj2 (Z.eqb_neq _ _) H2).
Qed.

(** The outcome of a write transaction on the version it began with. *)
Definition committed {A} (p : prog onReader (SqlRes A)) (r : SqlRes A) V' (k : nat) (t : Tables) : Prop :=
  match eval p t with
  | (Ok x, t') => r = Ok x ∧ V' !! S k = Some (Some me, t')
  | (Err err, _) => r = Err (storageError err)
  end.

(** The calls after the operation that cannot fail. *)
Lemma tsafe_cleanup {A} (r : A) Q V tx :
  (∀ V', V `prefix_of` V' → Q r V' None) → tsafe (call Rollback ;; call CloseConn ;; Ret r) Q V tx.
Proof.
  intros HQ V1 alone x V' tx' Hg [-> ->]. split; [by left|]. intros V2 alone2 y V3 tx3 Hg2 [-> ->]. split; [by left|].
  apply HQ. apply grows_prefix in Hg. destruct Hg2 as [Hg2 _]. by etrans.
Qed.

Lemma tsafe_transaction_write {A} (p : prog onReader (SqlRes A)) V :
  fails_fast p → V ≠ [] → unpublished V → (∀ t x t', eval p t = (Ok x, t') → effect t t') →
  tsafe (transaction true p)
    (λ r V' tx', V `prefix_of` V' ∧ tx' = None ∧ (faulted r ∨ at_version V V' (committed p r V'))) V None.
Proof.
  intros Hfast HV Hun Heff V1 alone1 x1 V1' tx1 Hg1 (Hx1 & -> & ->). split; [by left|].
  destruct x1 as [e1|]; [simpl; rewrite fault_storage by done; split_and!; [apply Hg1|done|left; by eexists]|].
  intros V2 alone2 x2 V2' tx2 Hg2 Hbegin. destruct Hg1 as [Hg1 Hun1], Hg2 as [Hg2 Hun2].
  assert (V `prefix_of` V2) as HV2 by (by etrans). inversion Hbegin; subst; (split; [by left|]).
  2: { intros V3 alone3 x3 V3' tx3 Hg3 [-> ->]. destruct Hg3 as [Hg3 _]. split; [by left|]. simpl. rewrite fault_storage by done.
       split_and!; [by etrans|done|left; by eexists]. }
  apply tsafe_bind. eapply tsafe_conseq; [|by apply tsafe_writing]. intros r V3 tx3 [-> [[(e & -> & He) Htx]|[-> ->]]].
  { cbn iota. unfold fail. apply tsafe_cleanup. intros V4 HV4. rewrite fault_storage by done. split_and!; [by etrans|done|left; by eexists]. }
  destruct (eval p t) as [[x|e] t'] eqn:Hev; cbn [fst snd]; cbn iota.
  2: { unfold fail. apply tsafe_cleanup. intros V4 HV4. split_and!; [by etrans|done|right].
       eapply at_version_mono; [exact HV4|intros k u Hk; exact Hk|]. eapply at_version_last; [done|done|].
       unfold committed. by rewrite Hev. }
  assert (published V2' (V2' ++ [(Some me, t')])) as Hpub by (right; by eauto 10).
  intros V5 alone5 x5 V5' tx5 -> Hcommit. inversion Hcommit; subst; (split; [first [by left|exact Hpub]|]).
  - refine (tsafe_cleanup (Ok x) _ _ _ _). intros V6 HV6.
    assert (V2' `prefix_of` V6) as HV26 by (etrans; [by apply prefix_app_r|done]).
    split_and!; [by etrans|done|right].
    exists (pred (length V2')), t. split_and!.
    + apply prefix_length in HV2. lia.
    + by eapply prefix_tables, current_tables.
    + unfold committed. rewrite Hev. split; [done|]. eapply prefix_version; [exact HV6|].
      destruct V2' as [|u V2']; [done|]. simpl. rewrite lookup_app_r, Nat.sub_diag by lia. done.
  - match goal with H : ∀ u, Writing t' ≠ Writing u |- _ => by destruct (H t') end.
  - refine (tsafe_cleanup (Err (storageError err)) _ _ _ _). intros V6 HV6. rewrite fault_storage by done.
    split_and!; [by etrans|done|left; by eexists].
  - refine (tsafe_cleanup (Err (storageError err)) _ _ _ _). intros V6 HV6. rewrite fault_storage by done.
    split_and!; [|done|left; by eexists]. etrans; [done|]. etrans; [by apply prefix_app_r|done].
Qed.

Lemma tsafe_transaction_read {A} (p : prog onReader (SqlRes A)) V :
  fails_fast p → reads p → V ≠ [] →
  tsafe (transaction false p)
    (λ r V' tx', V `prefix_of` V' ∧ tx' = None ∧
       (faulted r ∨ at_version V V' (λ _ t, r = match (eval p t).1 with Ok x => Ok x | Err err => Err (storageError err) end)))
    V None.
Proof.
  intros Hfast Hr HV V1 alone1 x1 V1' tx1 Hg1 (Hx1 & -> & ->). split; [by left|].
  destruct x1 as [e1|]; [simpl; rewrite fault_storage by done; split_and!; [apply Hg1|done|left; by eexists]|].
  intros V2 alone2 x2 V2' tx2 Hg2 Hbegin. destruct Hg1 as [Hg1 _], Hg2 as [Hg2 _].
  assert (V `prefix_of` V2) as HV2 by (by etrans). inversion Hbegin; subst; (split; [by left|]).
  2: { intros V3 alone3 x3 V3' tx3 Hg3 [-> ->]. destruct Hg3 as [Hg3 _]. split; [by left|]. simpl. rewrite fault_storage by done.
       split_and!; [by etrans|done|left; by eexists]. }
  apply tsafe_bind. eapply tsafe_conseq; [|by apply (tsafe_deferred p V)].
  intros r V3 tx3 (HV3 & Htx & [(e & -> & He)|Hat]).
  { cbn iota. unfold fail. apply tsafe_cleanup. intros V4 HV4. rewrite fault_storage by done.
    split_and!; [by etrans|done|left; by eexists]. }
  assert (∀ V4, V3 `prefix_of` V4 → at_version V V4 (λ _ t, match r with Ok x => Ok x | Err err => Err (storageError err) end =
    match (eval p t).1 with Ok x => Ok x | Err err => Err (storageError err) end)) as Hat'.
  { intros V4 HV4. eapply at_version_mono; [exact HV4| |exact Hat]. by intros k t ->. }
  destruct r as [x|e]; cbn iota.
  2: { unfold fail. apply tsafe_cleanup. intros V4 HV4. split_and!; [by etrans|done|right; by apply Hat']. }
  intros V5 alone5 x5 V5' tx5 Hg5 Hcommit. apply grows_prefix in Hg5.
  inversion Hcommit; subst; try (by destruct (Htx t)); (split; [by left|]).
  - refine (tsafe_cleanup (Ok x) _ _ _ _). intros V6 HV6. split_and!; [by repeat (etrans; [done|])|done|right; apply Hat'; by etrans].
  - refine (tsafe_cleanup (Err (storageError err)) _ _ _ _). intros V6 HV6. rewrite fault_storage by done.
    split_and!; [by repeat (etrans; [done|])|done|left; by eexists].
Qed.

End thread.

(** ** Methods *)

(** What a method that was called when [V] was current returned: a failure, or its answer alone on a
    version of its time; its effect, if it has one, is the next version. *)
Definition explained (me : nat) {X} (m : prog sqlCall (SqlRes X)) V (r : SqlRes X) V' : Prop :=
  faulted r ∨
  at_version V V' (λ k t, goResult r = (sqlite_run None m t).1 ∧
                          ((sqlite_run None m t).2 = t ∨ V' !! S k = Some (Some me, (sqlite_run None m t).2))).

Definition serial_method {X} (m : prog sqlCall (SqlRes X)) : Prop :=
  ∀ me V, V ≠ [] → unpublished me V →
  tsafe me (λ t t', t' = (sqlite_run None m t).2) m
    (λ r V' tx', V `prefix_of` V' ∧ tx' = None ∧ explained me m V r V') V None.

Lemma serial_pure {X} (r : SqlRes X) : serial_method (Ret r).
Proof.
  intros me V HV Hun. split_and!; [done|done|right]. destruct (current V) as [t|] eqn:Hl; [|by apply current_None in Hl].
  eapply at_version_last; [done|done|]. split; [done|by left].
Qed.

Lemma run_write {X Y} (p : prog onReader (SqlRes X)) (y : Y) t :
  sqlite_run None (do! transaction true p in ok y) t =
    match eval p t with
    | (Ok _, t') => (Ok y, t')
    | (Err err, _) => (Err (goError (storageError err)), t)
    end.
Proof.
  unfold sqlite_run, sql_bind. rewrite exec_bind, exec_transaction_write. by destruct (eval p t) as [[x|err] t'].
Qed.

Lemma run_write_direct {X} (p : prog onReader (SqlRes X)) t :
  sqlite_run None (transaction true p) t =
    match eval p t with
    | (Ok x, t') => (Ok x, t')
    | (Err err, _) => (Err (goError (storageError err)), t)
    end.
Proof. unfold sqlite_run. rewrite exec_transaction_write. by destruct (eval p t) as [[x|err] t']. Qed.

Lemma serial_write {X Y} (p : prog onReader (SqlRes X)) (y : Y) :
  fails_fast p → serial_method (do! transaction true p in ok y).
Proof.
  intros Hfast me V HV Hun. apply tsafe_bind. eapply tsafe_conseq; [|apply tsafe_transaction_write; [done|done|done|]].
  - intros r V' tx' (HV' & -> & Hr). destruct r as [x|e]; simpl; split_and!; try done.
    + destruct Hr as [(e & ? & _)|Hr]; [done|right]. eapply (at_version_mono V V' V'); [done| |exact Hr].
      intros k t Hc. unfold committed in Hc. rewrite run_write. destruct (eval p t) as [[x'|e'] t']; [|done].
      destruct Hc as [_ Hc]. split; [done|by right].
    + destruct Hr as [(e' & ? & ?)|Hr]; [left; exists e; split; congruence|right].
      eapply (at_version_mono V V' V'); [done| |exact Hr]. intros k t Hc. unfold committed in Hc. rewrite run_write.
      destruct (eval p t) as [[x'|e'] t']; [naive_solver|]. split; [simpl; congruence|by left].
  - intros t x t' He. by rewrite run_write, He.
Qed.

Lemma serial_write_direct {X} (p : prog onReader (SqlRes X)) : fails_fast p → serial_method (transaction true p).
Proof.
  intros Hfast me V HV Hun. eapply tsafe_conseq; [|apply tsafe_transaction_write; [done|done|done|]].
  - intros r V' tx' (HV' & -> & Hr). split_and!; [done|done|]. destruct Hr as [Hr|Hr]; [by left|right].
    eapply (at_version_mono V V' V'); [done| |exact Hr]. intros k t Hc. unfold committed in Hc. rewrite run_write_direct.
    destruct (eval p t) as [[x'|e'] t']; [destruct Hc as [-> Hc]; split; [done|by right]|]. subst. split; [done|by left].
  - intros t x t' He. by rewrite run_write_direct, He.
Qed.

Lemma serial_read {X} (p : prog onReader (SqlRes X)) : fails_fast p → reads p → serial_method (transaction false p).
Proof.
  intros Hfast Hr me V HV Hun. eapply tsafe_conseq; [|by apply tsafe_transaction_read].
  intros r V' tx' (HV' & -> & Hat). split_and!; [done|done|]. destruct Hat as [Hf|Hat]; [by left|right].
  eapply (at_version_mono V V' V'); [done| |exact Hat]. intros k t ->. unfold sqlite_run. rewrite exec_transaction_read by done.
  simpl. split; [done|by left].
Qed.

(** A method that makes one query. *)
Lemma serial_query {X Y} (s : statement Y) (k : SqlRes Y → prog sqlCall (SqlRes X)) :
  writes s = false → (∀ y, ∃ r, k y = Ret r) → (∀ err, fault err → k (Err err) = Ret (Err err)) →
  serial_method (Vis (Query s) k).
Proof.
  intros Hs Hret Hf me V HV Hun V1 alone y V' tx' [Hg _] (Hq & -> & ->). split; [by left|].
  inversion Hq; subst; [|rewrite Hf by done; simpl; split_and!; [done|done|left; by exists err]].
  destruct (Hret (statement_exec s t).1) as [r Hr]. rewrite Hr. simpl. split_and!; [done|done|right].
  eapply at_version_last; [done|done|]. unfold sqlite_run. simpl. pose proof (statement_reads s t Hs) as Ht.
  destruct (statement_exec s t) as [q t']. simpl in *. subst t'. rewrite Hr. split; [done|by left].
Qed.

Lemma serial_query_read {W : Type} `{GobType W} table id : serial_method (query (read (V := W) table id)).
Proof.
  apply serial_query; [done| |].
  - intros [d|err]; simpl; [|by eexists]. destruct (decode d); by eexists.
  - intros err Herr. simpl. by rewrite fault_storage.
Qed.

Lemma serial_query_count (s : statement Z) : writes s = false → serial_method (stored (query (run s))).
Proof.
  intros Hs. apply serial_query; [done| |].
  - intros [d|err]; by eexists.
  - intros err Herr. simpl. by rewrite fault_storage.
Qed.

(** *** Operations that stop at a failure *)

Lemma fails_fast_mbind {A B} (p : prog onReader (SqlRes A)) (f : SqlRes A → prog onReader (SqlRes B)) :
  fails_fast p → (∀ err, fault err → f (Err err) = Ret (Err err)) → (∀ r, fails_fast (f r)) → fails_fast (p ≫= f).
Proof.
  change (p ≫= f) with (prog_bind f p). intros Hp He Hf. induction p as [r|X [Y s] k IH]; simpl; [done|].
  destruct Hp as [Hfast Hk]. split; [|intros x; by apply IH]. intros err Herr. rewrite (Hfast err Herr). simpl. by apply He.
Qed.

Lemma fails_fast_bind {A B} (p : prog onReader (SqlRes A)) (f : A → prog onReader (SqlRes B)) :
  fails_fast p → (∀ x, fails_fast (f x)) → fails_fast (sql_bind p f).
Proof. intros Hp Hf. apply fails_fast_mbind; [done|done|]. by intros [x|err]. Qed.

Lemma fails_fast_stored {A} (p : prog onReader (SqlRes A)) : fails_fast p → fails_fast (stored p).
Proof.
  intros Hp. apply fails_fast_mbind; [done| |by intros [x|err]]. intros err Herr. by rewrite fault_storage.
Qed.

Lemma fails_fast_run {X} (s : statement X) : fails_fast (run s).
Proof. by split. Qed.

Lemma fails_fast_pureErr {A} (r : Res A) : fails_fast (pureErr r).
Proof. by destruct r. Qed.

Lemma fails_fast_read {W : Type} `{GobType W} table id : fails_fast (read (V := W) table id).
Proof. apply fails_fast_bind; [apply fails_fast_stored, fails_fast_run|]. intros d. apply fails_fast_pureErr. Qed.

Lemma fails_fast_checkRevision table id revision : fails_fast (checkRevision table id revision).
Proof. apply fails_fast_bind; [apply fails_fast_stored, fails_fast_run|]. intros r. by case_match. Qed.

Lemma fails_fast_insert {W : Type} `{GobType W} s (v : W) : fails_fast (insert s v).
Proof. apply fails_fast_bind; [apply fails_fast_pureErr|]. intros d. apply fails_fast_run. Qed.

Lemma fails_fast_update {W : Type} `{GobType W} table id revision (v : W) : fails_fast (update table id revision v).
Proof.
  apply fails_fast_bind; [apply fails_fast_checkRevision|]. intros _. apply fails_fast_bind; [apply fails_fast_pureErr|].
  intros d. apply fails_fast_run.
Qed.

Lemma fails_fast_saveAuthorization z : fails_fast (saveAuthorization z).
Proof. apply fails_fast_bind; [apply fails_fast_update|]. intros _. apply fails_fast_run. Qed.

Lemma fails_fast_checkTask k : fails_fast (checkTask k).
Proof. apply fails_fast_bind; [apply fails_fast_run|]. intros r. by case_match. Qed.

Lemma fails_fast_finishTask k : fails_fast (finishTask k).
Proof. apply fails_fast_bind; [apply fails_fast_checkTask|]. intros _. apply fails_fast_run. Qed.

Lemma fails_fast_releaseTask k : fails_fast (releaseTask k).
Proof.
  apply fails_fast_bind; [apply fails_fast_read|]. intros j. apply fails_fast_bind; [apply fails_fast_pureErr|].
  intros d. apply fails_fast_run.
Qed.

Lemma fails_fast_insertAuthorizations authzs : fails_fast (insertAuthorizations authzs).
Proof. induction authzs; [done|]. by apply fails_fast_bind; [apply fails_fast_insert|]. Qed.

Lemma fails_fast_insertChallenges challenges : fails_fast (insertChallenges challenges).
Proof. induction challenges; [done|]. by apply fails_fast_bind; [apply fails_fast_insert|]. Qed.

Lemma fails_fast_checkAuthorizations authorizedAt authzs ids : fails_fast (checkAuthorizations authorizedAt authzs ids).
Proof.
  revert ids. induction authzs as [|z authzs IH]; intros ids; [done|].
  apply fails_fast_bind; [apply fails_fast_checkRevision|]. intros _. destruct ids; [done|]. case_match; [done|]. apply IH.
Qed.

(** The missing order or account that the store takes as an answer is no failure. *)
Lemma fails_fast_claimReplacement o : fails_fast (claimReplacement o).
Proof.
  apply fails_fast_bind; [apply fails_fast_stored, fails_fast_run|]. intros [[id revision] data].
  apply fails_fast_bind; [apply fails_fast_pureErr|]. intros c. case_match; [|apply fails_fast_update].
  apply fails_fast_mbind; [apply fails_fast_read| |].
  - intros [| |err] He; [done|done|]. destruct He as [-> _]. done.
  - intros [o'|[| |err]]; [case_match; [done|apply fails_fast_update]|done|done|case_match; [apply fails_fast_update|done]].
Qed.

Lemma fails_fast_authorizedScopes accountID identifiers now allowed :
  fails_fast (authorizedScopes accountID identifiers now allowed).
Proof.
  induction identifiers as [|id identifiers IH]; [done|]. cbn [authorizedScopes].
  apply fails_fast_mbind; [apply fails_fast_run| |by intros [x|[]]]. by intros [] He.
Qed.

Lemma fails_fast_authorizedFor accountID identifiers now :
  fails_fast
    (r ← read (V := Account) accountsTable accountID;
     match r with
     | Err (SqlError err) => if IsNotFound err then ok false else fail (SqlError err)
     | Err err => fail err
     | Ok account =>
         if (acct_Status account != AccountValid) then ok false
         else authorizedScopes accountID identifiers now (0 <? len identifiers)%Z
     end).
Proof.
  apply fails_fast_mbind; [apply fails_fast_read| |].
  - intros [| |err] He; [done|done|]. destruct He as [-> _]. done.
  - intros [b|[| |err]]; [case_match; [done|apply fails_fast_authorizedScopes]|done|done|by case_match].
Qed.

Create HintDb failures.
#[local] Hint Resolve fails_fast_bind fails_fast_run fails_fast_pureErr fails_fast_read fails_fast_checkRevision
  fails_fast_insert fails_fast_saveAuthorization fails_fast_checkTask fails_fast_finishTask
  fails_fast_releaseTask fails_fast_insertAuthorizations fails_fast_insertChallenges fails_fast_checkAuthorizations
  fails_fast_claimReplacement : failures.
#[local] Hint Extern 1 (fails_fast (update _ _ _ _)) => apply fails_fast_update : failures.
#[local] Hint Extern 1 (fails_fast (saveOrder _)) => apply fails_fast_update : failures.
#[local] Hint Extern 1 (fails_fast (saveChallenge _)) => apply fails_fast_update : failures.
#[local] Hint Extern 1 (fails_fast (insertTask _)) => apply fails_fast_insert : failures.
#[local] Hint Extern 1 (fails_fast (ok _)) => exact I : failures.
#[local] Hint Extern 1 (fails_fast (fail _)) => exact I : failures.
#[local] Hint Extern 2 (fails_fast (if _ then _ else _)) => case_match : failures.

Lemma method_serial {X} (c : storeCall X) : serial_method (sqlite_method c).
Proof.
  destruct c; cbn [sqlite_method].
  - unfold CreateAccount. case_match; [apply serial_pure|]. apply serial_write. auto with failures.
  - apply serial_query_read.
  - apply serial_query; [done| |].
    + intros [d|err]; simpl; [destruct (decode d)|]; by eexists.
    + intros err Herr. simpl. by rewrite fault_storage.
  - apply serial_write. auto with failures.
  - apply serial_write. auto 7 with failures.
  - apply serial_query_read.
  - unfold OrderIDs. case_match; [apply serial_pure|]. apply serial_read.
    + apply fails_fast_bind; [case_match; auto with failures|auto with failures].
    + apply reads_bind; [by case_match|]. by intros [x|err].
  - apply serial_query_read.
  - apply serial_write. auto 7 with failures.
  - apply serial_read; [apply fails_fast_authorizedFor|].
    apply reads_bind; [apply reads_read|]. intros [b|[| |err]]; [|done|done|by case_match].
    case_match; [done|]. apply reads_authorizedScopes.
  - apply serial_query_read.
  - apply serial_query_read.
  - unfold CertificateByRenewalID. case_match; [apply serial_pure|]. apply serial_query; [done| |].
    + intros [[[id r] d]|err]; simpl; [destruct (decode d)|]; by eexists.
    + intros err Herr. simpl. by rewrite fault_storage.
  - apply serial_write. auto with failures.
  - apply serial_write. auto with failures.
  - apply serial_write. auto with failures.
  - apply serial_write. auto 8 with failures.
  - apply serial_write_direct. apply fails_fast_bind; [auto with failures|]. intros [[data fence] attempts].
    auto with failures.
  - apply serial_write. auto with failures.
  - apply serial_write. auto with failures.
  - apply serial_write_direct. auto with failures.
  - apply serial_write. auto 8 with failures.
  - apply serial_write. destruct cert; auto 8 with failures.
  - by apply serial_query_count.
  - by apply serial_query_count.
  - by apply serial_query_count.
Qed.

(** ** The pool keeps its versions serial *)

Lemma explained_mono me {X} (m : prog sqlCall (SqlRes X)) V V1 V2 r :
  V1 `prefix_of` V2 → explained me m V r V1 → explained me m V r V2.
Proof.
  intros Hp [Hf|Hat]; [by left|right]. eapply at_version_mono; [done| |exact Hat].
  intros k t [Hr [Ht|Ht]]; (split; [done|]); [by left|right]. by eapply prefix_version.
Qed.

Definition finished (i : nat) {X} (c : storeCall X) (start : nat) (r : SqlRes X) V tx : Prop :=
  tx = None ∧ ∃ V0, pred (length V0) = start ∧ explained i (sqlite_method c) V0 r V.

Definition thread_safe (i : nat) V (th : thread) : Prop :=
  match th with
  | Thread c start tx p => tsafe i (λ t t', t' = thread_effect th t) p (finished i c start) V tx
  | Crashed _ => True
  end.

Definition transaction_of (th : thread) : option transactionState :=
  match th with Thread _ _ tx _ => tx | Crashed _ => None end.

Lemma thread_safe_grow i V V' th : grows i (transaction_of th) V V' → thread_safe i V th → thread_safe i V' th.
Proof.
  destruct th as [X c start tx p|]; [|done]. simpl. intros Hg. apply tsafe_grow; [|done].
  intros r V1 V2 tx2 Hg2 [-> (V0 & HV0 & He)]. split; [done|]. exists V0. split; [done|].
  eapply explained_mono; [by eapply grows_prefix|done].
Qed.

(** Each version is what the call of the thread that committed it makes of the version before. *)
Definition serial V (ts : list thread) : Prop :=
  ∀ k v t', V !! k = Some v → V !! S k = Some t' →
  ∃ i th, t'.1 = Some i ∧ ts !! i = Some th ∧ t'.2 = thread_effect th v.2.

Record pool_safe V (ts : list thread) : Prop := {
  ps_versions : ∃ t0 V', V = (None, t0) :: V';
  ps_serial : serial V ts;
  ps_once : NoDup (V.*1);
  ps_writers : ∀ i, Some i ∈ V.*1 → (i < length ts)%nat;
  ps_threads : ∀ i th, ts !! i = Some th → thread_safe i V th;
  ps_lock : ∀ i th, ts !! i = Some th → writing th → unlocked i ts;
}.

Lemma db_step_versions i alone {X} (e : sqlCall X) V tx x V' tx' :
  db_step i alone e V tx x V' tx' → V' = V ∨ (∃ t', V' = V ++ [(Some i, t')]) ∧ (alone ∨ ∃ t, tx = Some (Writing t)).
Proof.
  destruct e; simpl; try (by intros (? & -> & ->); left); try (by intros [-> ->]; left); inversion 1; subst; eauto 6.
Qed.

Lemma db_step_lock i alone {X} (e : sqlCall X) V tx x V' t' :
  db_step i alone e V tx x V' (Some (Writing t')) → alone ∨ ∃ t, tx = Some (Writing t).
Proof.
  destruct e; simpl; try (by intros (? & -> & <-); right; eexists); try (by intros [-> <-]; right; eexists);
    inversion 1; subst; naive_solver.
Qed.

Lemma lookup_insert_thread (ts : list thread) i j th th' :
  <[i := th]> ts !! j = Some th' → j = i ∧ th' = th ∨ j ≠ i ∧ ts !! j = Some th'.
Proof. intros Hj. apply list_lookup_insert_Some in Hj. naive_solver. Qed.

(** Replacing a thread that made no step of the versions keeps them serial. *)
Lemma serial_replace V ts i th th' :
  ts !! i = Some th → (∀ t, thread_effect th' t = thread_effect th t) → serial V ts → serial V (<[i := th']> ts).
Proof.
  intros Hi Heff Hs k v t' Hv Ht'. destruct (Hs k v t' Hv Ht') as (j & thj & Hj & Hthj & He).
  destruct (decide (j = i)) as [->|Hji]; [|exists j, thj; by rewrite list_lookup_insert_ne by done].
  exists i, th'. rewrite list_lookup_insert_eq by (by eapply lookup_lt_Some).
  split_and!; [done|done|]. rewrite Heff. congruence.
Qed.

Lemma unlocked_replace i j ts th : unlocked j ts → (j ≠ i → ¬ writing th) → unlocked j (<[i := th]> ts).
Proof.
  intros Hu Hw k thk Hkj Hk. destruct (lookup_insert_thread _ _ _ _ _ Hk) as [[-> ->]|[_ Hk']]; [by apply Hw|by eapply Hu].
Qed.

Lemma lock_replace i ts th :
  (∀ j thj, ts !! j = Some thj → writing thj → unlocked j ts) → (writing th → unlocked i ts) →
  ∀ j thj, <[i := th]> ts !! j = Some thj → writing thj → unlocked j (<[i := th]> ts).
Proof.
  intros Hl Hth j thj Hj Hw. destruct (lookup_insert_thread _ _ _ _ _ Hj) as [[-> ->]|[Hji Hj']].
  - by apply unlocked_replace; [apply Hth|].
  - apply unlocked_replace; [by eapply Hl|]. intros _ Hwth. by eapply (Hth Hwth j thj).
Qed.

Lemma published_serial V V' ts i th :
  pool_safe V ts → ts !! i = Some th → published i (λ t t', t' = thread_effect th t) V V' → serial V' ts ∧ NoDup (V'.*1).
Proof.
  intros [_ Hs Hn _ _ _] Hi [->|(t & t' & Hc & -> & -> & Hun)]; [done|]. split.
  - intros k v v' Hv Hv'. apply lookup_app_Some in Hv' as [Hv'|[Hlen Hv']].
    + eapply Hs; [|done]. rewrite lookup_app_l in Hv by (apply lookup_lt_Some in Hv'; lia). done.
    + apply list_lookup_singleton_Some in Hv' as [Hk <-]. exists i, th. split_and!; [done|done|].
      rewrite lookup_app_l in Hv by lia. unfold current in Hc. rewrite last_lookup in Hc.
      replace (pred (length V)) with k in Hc by lia. rewrite Hv in Hc. simpl in Hc. by injection Hc as ->.
  - rewrite fmap_app. apply NoDup_app. split_and!; [done| |by apply NoDup_singleton].
    intros w Hw Hin. simpl in Hin. apply list_elem_of_singleton in Hin as ->. done.
Qed.

Lemma grows_other i j tx V V' t' : i ≠ j → (∀ t, tx ≠ Some (Writing t)) → V' = V ++ [(Some i, t')] → grows j tx V V'.
Proof.
  intros Hij Htx ->. assert (V `prefix_of` V ++ [(Some i, t')] ∧ (unpublished j V → unpublished j (V ++ [(Some i, t')]))).
  { split; [by apply prefix_app_r|]. unfold unpublished. rewrite fmap_app, elem_of_app. simpl. rewrite list_elem_of_singleton.
    intros Hj [?|?]; [done|congruence]. }
  destruct tx as [[]|]; try done. by destruct (Htx t).
Qed.

(** While one thread makes a call, the others stay safe. *)
Lemma call_others V V' ts i th :
  pool_safe V ts → ts !! i = Some th →
  V' = V ∨ (∃ t', V' = V ++ [(Some i, t')]) ∧ (unlocked i ts ∨ writing th) →
  ∀ j thj, j ≠ i → ts !! j = Some thj → thread_safe j V' thj.
Proof.
  intros [_ _ _ _ Ht Hl] Hi HV' j thj Hji Hj. destruct HV' as [->|[[t' HV'] Halone]]; [by apply Ht|].
  assert (unlocked i ts) as Hu by (destruct Halone; [done|by eapply Hl]).
  eapply thread_safe_grow; [|by apply Ht]. eapply grows_other; [by apply not_eq_sym| |exact HV'].
  intros t Htx. apply (Hu j thj Hji Hj). destruct thj as [X c start tx p|]; [|done]. simpl in Htx. by subst.
Qed.

Lemma pool_call V V' ts i X (c : storeCall X) start tx tx' Y (e : sqlCall Y) k y :
  pool_safe V ts → ts !! i = Some (Thread c start tx (Vis e k)) → db_step i (unlocked i ts) e V tx y V' tx' →
  pool_safe V' (<[i := Thread c start tx' (k y)]> ts).
Proof.
  intros Hps Hi Hst. pose proof Hps as [[t0 [V1 ->]] Hs Hn Hw Ht Hl].
  pose proof (db_step_versions _ _ _ _ _ _ _ _ Hst) as HV'.
  pose proof (Ht i _ Hi) as Hsafe. simpl in Hsafe.
  destruct (Hsafe _ _ _ _ _ (grows_refl i tx _) Hst) as [Hpub Hrest].
  destruct (published_serial _ _ ts i (Thread c start tx (Vis e k)) Hps Hi Hpub) as [Hs' Hn']. split.
  - destruct HV' as [->|[[t' ->] _]]; by eexists _, _.
  - by eapply serial_replace; [done| |exact Hs'].
  - done.
  - intros j Hj. rewrite length_insert. destruct HV' as [->|[[t' ->] _]]; [by apply Hw|].
    rewrite fmap_app, elem_of_app in Hj. destruct Hj as [Hj|Hj]; [by apply Hw|].
    simpl in Hj. apply list_elem_of_singleton in Hj as [= ->]. by eapply lookup_lt_Some.
  - intros j thj Hj. destruct (lookup_insert_thread _ _ _ _ _ Hj) as [[-> ->]|[Hji Hj']]; [exact Hrest|].
    eapply call_others; [exact Hps|exact Hi| |done|done].
    destruct HV' as [HV'|[HV' [Ha|[t ->]]]]; [by left|right; split; [done|by left]|right; split; [done|by right]].
  - apply lock_replace; [done|]. destruct tx' as [[]|]; try done. intros _.
    destruct (db_step_lock _ _ _ _ _ _ _ _ Hst) as [Ha|[u ->]]; [done|]. by eapply Hl.
Qed.

Lemma pool_start V ts X (c : storeCall X) :
  pool_safe V ts → pool_safe V (ts ++ [Thread c (pred (length V)) None (sqlite_method c)]).
Proof.
  intros [HV Hs Hn Hw Ht Hl]. split; [done| |done| | |].
  - intros k v t' Hv Ht'. destruct (Hs k v t' Hv Ht') as (i & th & Hi & Hth & He). exists i, th.
    split_and!; [done|by apply lookup_app_l_Some|done].
  - intros i Hi. rewrite length_app. apply Hw in Hi. simpl. lia.
  - intros i th Hi. apply lookup_app_Some in Hi as [Hi|[Hlen Hi]]; [by apply Ht|].
    apply list_lookup_singleton_Some in Hi as [Hi <-]. simpl.
    eapply tsafe_conseq; [|apply method_serial].
    + intros r V' tx' (_ & -> & He). split; [done|]. by exists V.
    + destruct HV as (t0 & V1 & ->). done.
    + intros Hin. apply Hw in Hin. lia.
  - intros i th Hi Hwr j thj Hji Hj. apply lookup_app_Some in Hj as [Hj|[_ Hj]].
    + apply lookup_app_Some in Hi as [Hi|[_ Hi]]; [exact (Hl i th Hi Hwr j thj Hji Hj)|].
      apply list_lookup_singleton_Some in Hi as [_ <-]. done.
    + apply list_lookup_singleton_Some in Hj as [_ <-]. by intros [].
Qed.

Lemma pool_crash V ts i X (c : storeCall X) start tx p :
  pool_safe V ts → ts !! i = Some (Thread c start tx p) → pool_safe V (<[i := Crashed c]> ts).
Proof.
  intros [HV Hs Hn Hw Ht Hl] Hi. split; [done| |done| | |].
  - by eapply serial_replace.
  - intros j Hj. rewrite length_insert. by apply Hw.
  - intros j thj Hj. destruct (lookup_insert_thread _ _ _ _ _ Hj) as [[-> ->]|[_ Hj']]; [done|by apply Ht].
  - by apply lock_replace.
Qed.

Lemma pool_steps t0 V ts : rtc sqlite_step ([(None, t0)], []) (V, ts) → pool_safe V ts.
Proof.
  assert (pool_safe [(None, t0)] []) as Hinit.
  { split; [by eexists _, _|by intros [|k]|by apply NoDup_singleton| | |]; try (by intros ?).
    intros i Hi. by apply list_elem_of_singleton in Hi. }
  intros Hr. change (pool_safe (V, ts).1 (V, ts).2). revert Hr.
  apply (rtc_ind_r (λ s, pool_safe s.1 s.2)); [done|]. intros s s' _ Hst Hs.
  destruct Hst; simpl in *; [by eapply pool_call|by apply pool_start|by eapply pool_crash].
Qed.

(** C9. SQLite transactions make the store serializable: whatever methods run at the same time on
    one database, with statements and commits that fail and processes that crash at any point, every
    committed version of the tables is what one call alone makes of the version before it, and no call
    makes two. A method that returned left no transaction open, and it failed with an error of the
    backend, or gave its answer on a version that was current after it was called, and what it stored
    is the version it committed itself right after that one. *)
Theorem sqlite_serializable t0 V ts :
  rtc sqlite_step ([(None, t0)], []) (V, ts) →
  NoDup V.*1 ∧
  (∀ k v v', V !! k = Some v → V !! S k = Some v' →
     ∃ i th, v'.1 = Some i ∧ ts !! i = Some th ∧ v'.2 = thread_effect th v.2) ∧
  (∀ i X (c : storeCall X) start tx r, ts !! i = Some (Thread c start tx (Ret r)) →
     tx = None ∧
     ((∃ err, r = Err err ∧ fault err) ∨
      ∃ k v, (start ≤ k)%nat ∧ V !! k = Some v ∧
        goResult r = (store_exec c None v.2).1 ∧
        ((store_exec c None v.2).2 = v.2 ∨ V !! S k = Some (Some i, (store_exec c None v.2).2)))).
Proof.
  intros Hr. destruct (pool_steps _ _ _ Hr) as [_ Hs Hn _ Ht _]. split_and!; [done|exact Hs|].
  intros i X c start tx r Hi. destruct (Ht i _ Hi) as [-> (V0 & <- & He)]. split; [done|].
  destruct He as [Hf|(k & t & Hk & HV & Ha & Heff)]; [by left|right].
  rewrite list_lookup_fmap, fmap_Some in HV. destruct HV as (v & Hv & ->). by exists k, v.
Qed.

End serial.
