(* ===== verification/Testing.v ===== *)
(** * Test functions (package testing)

    A test of the conformance suites drives an interface value: it makes calls one at a time or
    from several goroutines it waits for, and [t.Fatalf] ends it. A test is a tree of such calls,
    so that its outcome can be stated for every implementation of the interface and for every
    order in which concurrent calls take effect. *)

From S2P Require Import Prelude.

Inductive test (C : Type → Type) (A : Type) : Type :=
| Done (a : A)
| Fatal (msg : string)
| Do {X : Type} (c : C X) (k : X → test C A)
| Race {X : Type} (cs : list (C X)) (k : list X → test C A).

Arguments Done {C A} a.
Arguments Fatal {C A} msg.
Arguments Do {C A X} c k.
Arguments Race {C A X} cs k.

Fixpoint test_bind {C A B} (f : A → test C B) (p : test C A) : test C B :=
  match p with
  | Done a => f a
  | Fatal msg => Fatal msg
  | Do c k => Do c (λ x, test_bind f (k x))
  | Race cs k => Race cs (λ xs, test_bind f (k xs))
  end.

#[export] Instance test_mret {C} : MRet (test C) := λ A, Done.
#[export] Instance test_mbind {C} : MBind (test C) := λ A B, test_bind.

(** The statement [if b { t.Fatalf(msg) }]. *)
Definition fatalIf {C} (b : bool) (msg : string) : test C unit :=
  if b then Fatal msg else Done tt.

(** The element of a slice; a test that indexes past its end panics. *)
Definition index {C A} (l : list A) (i : nat) : test C A :=
  match l !! i with
  | Some x => Done x
  | None => Fatal "index out of range"
  end.

(** A loop whose body does not change what it ranges over. *)
Fixpoint forEach {C A} (body : A → test C unit) (l : list A) : test C unit :=
  match l with
  | [] => Done tt
  | x :: l => body x ;; forEach body l
  end.

(** ** Outcomes

    [exec] is the atomic effect of a call on the implementation. *)

Section outcomes.
Context {C : Type → Type} {W : Type} (exec : ∀ X, C X → W → X * W).

(** Calls that took effect one after the other, with their answers. *)
Fixpoint linear {X} (l : list (C X * X)) (w w' : W) : Prop :=
  match l with
  | [] => w' = w
  | (c, x) :: l => (exec X c w).1 = x ∧ linear l (exec X c w).2 w'
  end.

(** Concurrent calls took effect in some order; each goroutine keeps the answer to its own. *)
Definition raced {X} (cs : list (C X)) (w : W) (xs : list X) (w' : W) : Prop :=
  length xs = length cs ∧ ∃ l, l ≡ₚ zip cs xs ∧ linear l w w'.

(** Every execution of the test ends without a failure, in a result that satisfies [Q]. *)
Fixpoint passes {A} (p : test C A) (Q : A → W → Prop) (w : W) : Prop :=
  match p with
  | Done a => Q a w
  | Fatal _ => False
  | Do c k => let (x, w) := exec _ c w in passes (k x) Q w
  | Race cs k =>
      (∃ xs w', raced cs w xs w') ∧ ∀ xs w', raced cs w xs w' → passes (k xs) Q w'
  end.

Lemma passes_conseq {A} (p : test C A) (Q Q' : A → W → Prop) w :
  (∀ a w', Q a w' → Q' a w') → passes p Q w → passes p Q' w.
Proof.
  intros HQ. revert w. induction p as [a|msg|X c k IH|X cs k IH]; intros w; simpl; [by apply HQ|done| |].
  - destruct (exec X c w). apply IH.
  - intros [? Hk]. split; [done|]. intros xs w' Hr. by apply IH, Hk.
Qed.

Lemma passes_bind {A B} (f : A → test C B) (p : test C A) (Q : B → W → Prop) w :
  passes p (λ a, passes (f a) Q) w → passes (p ≫= f) Q w.
Proof.
  change (p ≫= f) with (test_bind f p).
  revert w. induction p as [a|msg|X c k IH|X cs k IH]; intros w; simpl; [done|done| |].
  - destruct (exec X c w). apply IH.
  - intros [? Hk]. split; [done|]. intros xs w' Hr. by apply IH, Hk.
Qed.

(** Concurrent calls can take effect in the order they were started. *)
Lemma raced_total {X} (cs : list (C X)) w : ∃ xs w', raced cs w xs w'.
Proof.
  revert w. induction cs as [|c cs IH]; intros w; [by exists [], w; split; [|exists []]|].
  destruct (IH (exec X c w).2) as (xs & w' & Hlen & l & Hl & Hlin).
  exists ((exec X c w).1 :: xs), w'. split; [simpl; by f_equal|].
  exists ((c, (exec X c w).1) :: l). split; [simpl; by constructor|done].
Qed.

End outcomes.
