(* ===== verification/Storetest.v ===== *)
(** * Conformance tests of a store: accounts (src/storetest/storetest.go)

    The suite that checks an implementation against the persistence contract. A test calls the
    store through the interface and generates keys. A call that stores a resource returns it with
    the revision it assigned, where the Go method sets the revision in the caller's struct; the
    message of a failure is the format of its [t.Fatalf]. *)

From S2P Require Import Prelude Status Problem Resource StoreSpec Host Platform Jws Testing.

Inductive suiteCall : Type → Type :=
| OnStore {X : Type} (ctx : Ctx) (c : storeCall X) : suiteCall (Res X)
| GenerateKey : suiteCall (Res PublicKey).

Notation Test := (test suiteCall) (only parsing).

(** [context.Background()], and a context after its [cancel()]. *)
Definition Background : Ctx := None.
Definition canceled : Ctx := Some (ErrContext "context canceled").

Definition onStore {X} (c : storeCall X) : Test (Res X) := Do (OnStore Background c) Done.

(** [if err != nil { t.Fatalf(msg) }] after a call that returns a value. *)
Definition noError {X} (msg : string) (r : Res X) : Test X :=
  match r with
  | Ok x => Done x
  | Err _ => Fatal msg
  end.

Definition must {X} (msg : string) (c : storeCall X) : Test X := r ← onStore c; noError msg r.

(** [if !errors.Is(err, want) { t.Fatalf(msg) }]. *)
Definition wantError {X} (wanted : error → bool) (msg : string) (r : Res X) : Test unit :=
  match r with
  | Err err => fatalIf (negb (wanted err)) msg
  | Ok _ => Fatal msg
  end.

Definition refuses {X} (wanted : error → bool) (msg : string) (c : storeCall X) : Test unit :=
  r ← onStore c; wantError wanted msg r.

(** A call whose error is ignored: a counter is then zero, and the nil resource is dereferenced. *)
Definition counted (c : storeCall Z) : Test Z :=
  r ← onStore c; Done (match r with Ok n => n | Err _ => 0%Z end).
Definition read {X} (c : storeCall X) : Test X := must "nil pointer dereference" c.

(** [fmt.Sprint] of a slice of strings. *)
Definition SprintStrings (l : list string) : string := "[" +:+ String.concat " " l +:+ "]".

Section Storetest.
Context `{Platform}.

(** Returns a valid account with a fresh P-256 key. *)
Definition NewAccount (id : string) : Test Account :=
  key ← Do GenerateKey Done;
  key ← noError "generate key: %v" key;
  thumbprint ← noError "thumbprint: %v" (Thumbprint key);
  Done {| acct_ID := id;
          acct_Status := AccountValid;
          acct_Key := key;
          acct_KeyThumbprint := thumbprint;
          acct_Contact := ["mailto:admin@example.test"];
          acct_TermsOfServiceAgreed := true;
          acct_ExternalAccountID := "";
          acct_ExternalAccountClaim := "";
          acct_CreatedAt := zeroTime;
          acct_Revision := 0%Z |}.

(** Compares two accounts field by field, comparing keys by their PKIX encoding. *)
Definition assertAccountEqual (got want : Account) : Test unit :=
  fatalIf ((acct_ID got != acct_ID want) || (acct_Status got != acct_Status want) ||
           (acct_KeyThumbprint got != acct_KeyThumbprint want) ||
           (acct_TermsOfServiceAgreed got != acct_TermsOfServiceAgreed want) ||
           (acct_ExternalAccountID got != acct_ExternalAccountID want) ||
           (acct_CreatedAt got != acct_CreatedAt want) || (acct_Revision got != acct_Revision want))
    "account mismatch\n got: %+v\nwant: %+v" ;;
  fatalIf (SprintStrings (acct_Contact got) != SprintStrings (acct_Contact want))
    "contact mismatch: got %v, want %v" ;;
  gotKey ← noError "marshal returned key: %v" (x509_MarshalPKIXPublicKey (acct_Key got));
  wantKey ← noError "marshal expected key: %v" (x509_MarshalPKIXPublicKey (acct_Key want));
  fatalIf (bytes_string gotKey != bytes_string wantKey) "key mismatch".

(** Checks that a created account reads back by ID and by key with revision 1. *)
Definition testCreateAndRead : Test unit :=
  want ← NewAccount "acct-1";
  want ← must "CreateAccount: %v" (CallCreateAccount want);
  fatalIf (acct_Revision want != 1%Z) "CreateAccount set Revision %d, want 1" ;;
  got ← must "Account: %v" (CallAccount (acct_ID want));
  assertAccountEqual got want ;;
  got ← must "AccountByKey: %v" (CallAccountByKey (acct_KeyThumbprint want));
  assertAccountEqual got want.

(** Checks the not found errors. *)
Definition testNotFound : Test unit :=
  refuses IsNotFound "Account(missing) error = %v, want ErrNotFound" (CallAccount "missing") ;;
  refuses IsNotFound "AccountByKey(missing) error = %v, want ErrNotFound" (CallAccountByKey "missing").

(** Checks that duplicate IDs and keys are refused without side effects. *)
Definition testCreateConflicts : Test unit :=
  first ← NewAccount "acct-1";
  first ← must "CreateAccount: %v" (CallCreateAccount first);
  sameID ← NewAccount "acct-1";
  refuses IsConflict "CreateAccount(same ID) error = %v, want ErrConflict" (CallCreateAccount sameID) ;;
  sameKey ← NewAccount "acct-2";
  let sameKey := {| sameKey with acct_Key := acct_Key first;
                                 acct_KeyThumbprint := acct_KeyThumbprint first |} in
  refuses IsConflict "CreateAccount(same key) error = %v, want ErrConflict" (CallCreateAccount sameKey) ;;
  refuses IsNotFound "conflicting create left an account behind: %v" (CallAccount "acct-2") ;;
  got ← must "AccountByKey after conflicts = %v, %v; want %s" (CallAccountByKey (acct_KeyThumbprint first));
  fatalIf (acct_ID got != acct_ID first) "AccountByKey after conflicts = %v, %v; want %s".

(** Checks that a matching revision persists changes and advances the revision. *)
Definition testUpdate : Test unit :=
  account ← NewAccount "acct-1";
  account ← must "CreateAccount: %v" (CallCreateAccount account);
  let account := {| account with acct_Contact := ["mailto:ops@example.test"];
                                 acct_Status := AccountDeactivated |} in
  account ← must "UpdateAccount: %v" (CallUpdateAccount account);
  fatalIf (acct_Revision account != 2%Z) "UpdateAccount set Revision %d, want 2" ;;
  got ← must "Account: %v" (CallAccount (acct_ID account));
  assertAccountEqual got account.

(** Checks that an update with an outdated revision is refused and changes nothing. *)
Definition testUpdateStale : Test unit :=
  account ← NewAccount "acct-1";
  account ← must "CreateAccount: %v" (CallCreateAccount account);
  stale ← must "Account: %v" (CallAccount (acct_ID account));
  let account := {| account with acct_Contact := ["mailto:first@example.test"] |} in
  account ← must "UpdateAccount: %v" (CallUpdateAccount account);
  let stale := {| stale with acct_Contact := ["mailto:second@example.test"] |} in
  refuses IsRevisionMismatch "UpdateAccount(stale) error = %v, want ErrRevisionMismatch"
    (CallUpdateAccount stale) ;;
  got ← must "Account: %v" (CallAccount (acct_ID account));
  assertAccountEqual got account.

(** Checks that updating an unknown account reports not found. *)
Definition testUpdateMissing : Test unit :=
  account ← NewAccount "acct-1";
  let account := {| account with acct_Revision := 1%Z |} in
  refuses IsNotFound "UpdateAccount(missing) error = %v, want ErrNotFound" (CallUpdateAccount account).

(** Checks that non-empty external account claims are unique while empty ones never conflict. *)
Definition testExternalAccountClaims : Test unit :=
  let first := "eab-1" in
  let second := "eab-2" in
  claimed ← NewAccount "acct-1";
  let claimed := {| claimed with acct_ExternalAccountID := first; acct_ExternalAccountClaim := first |} in
  must "CreateAccount(claim): %v" (CallCreateAccount claimed) ;;
  again ← NewAccount "acct-2";
  let again := {| again with acct_ExternalAccountID := first; acct_ExternalAccountClaim := first |} in
  refuses IsConflict "CreateAccount(same claim) error = %v, want ErrConflict" (CallCreateAccount again) ;;
  refuses IsNotFound "conflicting claim left an account behind: %v" (CallAccount "acct-2") ;;
  refuses IsNotFound "conflicting claim left a key behind: %v"
    (CallAccountByKey (acct_KeyThumbprint again)) ;;
  forEach (λ id,
    unclaimed ← NewAccount id;
    let unclaimed := {| unclaimed with acct_ExternalAccountID := first |} in
    must "CreateAccount(%s without claim): %v" (CallCreateAccount unclaimed) ;; Done tt)
    ["acct-3"; "acct-4"] ;;
  got ← must "Account(acct-1) = %+v, %v" (CallAccount "acct-1");
  fatalIf (acct_ExternalAccountClaim got != first) "Account(acct-1) = %+v, %v" ;;
  other ← NewAccount "acct-5";
  let other := {| other with acct_ExternalAccountID := second; acct_ExternalAccountClaim := second |} in
  other ← must "CreateAccount(other claim): %v" (CallCreateAccount other);
  let other := {| other with acct_ExternalAccountClaim := first |} in
  refuses IsConflict "UpdateAccount(taken claim) error = %v, want ErrConflict" (CallUpdateAccount other) ;;
  got ← must "Account(acct-5) after refused update = %+v, %v" (CallAccount "acct-5");
  fatalIf ((acct_ExternalAccountClaim got != second) || (acct_Revision got != 1%Z))
    "Account(acct-5) after refused update = %+v, %v".

(** Checks key rollover and refusal of a thumbprint owned by another account. *)
Definition testUpdateKey : Test unit :=
  account ← NewAccount "acct-1";
  other ← NewAccount "acct-2";
  account ← must "CreateAccount(%s): %v" (CallCreateAccount account);
  other ← must "CreateAccount(%s): %v" (CallCreateAccount other);
  let oldThumbprint := acct_KeyThumbprint account in
  let account := {| account with acct_Key := acct_Key other;
                                 acct_KeyThumbprint := acct_KeyThumbprint other |} in
  refuses IsConflict "UpdateAccount(key of another account) error = %v, want ErrConflict"
    (CallUpdateAccount account) ;;
  fresh ← NewAccount "unused";
  let account := {| account with acct_Key := acct_Key fresh;
                                 acct_KeyThumbprint := acct_KeyThumbprint fresh |} in
  account ← must "UpdateAccount(new key): %v" (CallUpdateAccount account);
  got ← must "AccountByKey(new) = %v, %v; want %s" (CallAccountByKey (acct_KeyThumbprint fresh));
  fatalIf (acct_ID got != acct_ID account) "AccountByKey(new) = %v, %v; want %s" ;;
  refuses IsNotFound "AccountByKey(old) error = %v, want ErrNotFound" (CallAccountByKey oldThumbprint) ;;
  got ← must "AccountByKey(other) = %v, %v; want %s" (CallAccountByKey (acct_KeyThumbprint other));
  fatalIf (acct_ID got != acct_ID other) "AccountByKey(other) = %v, %v; want %s".

(** Checks that neither the caller's input nor the returned values alias stored state. Values of
    this model are never shared, so the two assignments change nothing a store holds, and the test
    comes down to the two reads of the account that was created. That the stores hand out copies is
    shown on a heap in Clone.v. *)
Definition testCopies : Test unit :=
  account ← NewAccount "acct-1";
  account ← must "CreateAccount: %v" (CallCreateAccount account);
  let account := {| account with acct_Contact := <[0%nat := "mailto:changed-input@example.test"]> (acct_Contact account) |} in
  got ← must "Account: %v" (CallAccount (acct_ID account));
  contact ← index (acct_Contact got) 0;
  fatalIf (contact != "mailto:admin@example.test") "stored account changed through the input: %q" ;;
  let got := {| got with acct_Contact := <[0%nat := "mailto:changed-output@example.test"]> (acct_Contact got);
                         acct_Status := AccountRevoked |} in
  again ← must "Account: %v" (CallAccount (acct_ID account));
  contact ← index (acct_Contact again) 0;
  fatalIf ((contact != "mailto:admin@example.test") || (acct_Status again != AccountValid))
    "stored account changed through a returned copy: %+v".

(** Counts the racers that succeeded; the others must have failed with the expected error. *)
Fixpoint countCreated {X} (expected : error → bool) (errs : list (Res X)) (created : Z) : Test Z :=
  match errs with
  | [] => Done created
  | Ok _ :: errs => countCreated expected errs (created + 1)%Z
  | Err err :: errs =>
      if expected err then countCreated expected errs created
      else Fatal "racer %d: unexpected error %v"
  end.

(** Checks that exactly one of several racing creates with the same key wins. *)
Definition testConcurrentCreate : Test unit :=
  template ← NewAccount "template";
  let racers := 16%nat in
  errs ← Race (map (λ i, OnStore Background
                (CallCreateAccount {| template with acct_ID := "acct-" +:+ pretty i;
                                                    acct_Contact := ["mailto:admin@example.test"] |}))
              (seq 0 racers)) Done;
  created ← countCreated IsConflict errs 0;
  fatalIf (created != 1%Z) "%d racing creates succeeded, want exactly 1".

(** Checks that operations observe context cancellation. *)
Definition testCanceledContext : Test unit :=
  account ← NewAccount "acct-1";
  r ← Do (OnStore canceled (CallCreateAccount account)) Done;
  fatalIf match r with
          | Ok _ => true
          | Err err => IsConflict err || IsNotFound err
          end "CreateAccount(canceled) error = %v, want a context error" ;;
  refuses IsNotFound "canceled create stored the account: %v" (CallAccount (acct_ID account)).

End Storetest.
