(* ===== verification/Ordertest.v ===== *)
(** * Conformance tests of a store: orders and tasks (src/storetest/ordertest.go)

    Orders with their authorizations and challenges, the task queue with its leases and fences,
    and the outcomes of validation and issuance. *)

From S2P Require Import Prelude Status Problem Resource StoreSpec Host Platform Jws Testing Storetest.

(** The fixed clock value the order tests use: 2026-03-27 10:00 UTC, the Unix time 1774605600. *)
Definition testNow : Time := ((1774605600 + 62135596800) * Second)%Z.

(** The authorization and the challenge of the identifier at a position of an order. *)
Definition newAuthorization (accountID orderID : string) (expires : Time) (i : nat) (name : string)
    : Authorization :=
  {| az_ID := orderID +:+ "-authz-" +:+ pretty i;
     az_AccountID := accountID;
     az_OrderID := orderID;
     az_Identifier := mkIdentifier IdentifierDNS name;
     az_Status := AuthorizationPending;
     az_Expires := expires;
     az_Wildcard := false;
     az_ChallengeIDs := [orderID +:+ "-chall-" +:+ pretty i];
     az_CACertificate := false;
     az_GrantExpires := zeroTime;
     az_GrantNames := [];
     az_GrantNFType := "";
     az_PreApproved := false;
     az_CreatedAt := testNow;
     az_Revision := 0%Z |}.

Definition newChallenge (accountID orderID : string) (i : nat) : Challenge :=
  {| ch_ID := orderID +:+ "-chall-" +:+ pretty i;
     ch_AuthorizationID := orderID +:+ "-authz-" +:+ pretty i;
     ch_AccountID := accountID;
     ch_Type := ChallengeHTTP01;
     ch_Status := ChallengePending;
     ch_Token := "token-" +:+ pretty i;
     ch_AuthorityToken := "";
     ch_KeyThumbprint := "";
     ch_Validated := zeroTime;
     ch_Error := None;
     ch_Revision := 0%Z |}.

(** Returns a pending order with one authorization and one challenge per identifier. *)
Definition NewOrder (accountID orderID : string) (identifiers : list string)
    : Order * list Authorization * list Challenge :=
  let expires := (testNow + 7 * 24 * Hour)%Z in
  let authzs := imap (newAuthorization accountID orderID expires) identifiers in
  let order :=
    {| ord_ID := orderID;
       ord_AccountID := accountID;
       ord_Status := OrderPending;
       ord_Expires := expires;
       ord_Identifiers := map (mkIdentifier IdentifierDNS) identifiers;
       ord_NotBefore := zeroTime;
       ord_NotAfter := zeroTime;
       ord_AuthorizationIDs := map az_ID authzs;
       ord_Error := None;
       ord_CSR := [];
       ord_CertificateID := "";
       ord_Issuance := None;
       ord_UnpublishedResult := None;
       ord_Replaces := "";
       ord_Profile := "";
       ord_CreatedAt := testNow;
       ord_Revision := 0%Z |} in
  (order, authzs, imap (λ i _, newChallenge accountID orderID i) identifiers).

(** Returns a task for the target. *)
Definition newTask (id : string) (kind : TaskKind) (target : string) (runAt : Time) : Task :=
  {| task_ID := id;
     task_Kind := kind;
     task_TargetID := target;
     task_AccountID := "acct-1";
     task_RunAt := runAt;
     task_Attempts := 0%Z;
     task_LeaseUntil := zeroTime;
     task_Fence := 0%Z;
     task_CreatedAt := runAt |}.

Definition earlyTask : string := "early".
Definition lateTask : string := "late".

(** [fmt.Sprint] of a slice of identifiers. *)
Definition SprintIdentifiers (l : list Identifier) : string :=
  SprintStrings (map (λ id, "{" +:+ IdentifierType_string (id_Type id) +:+ " " +:+ id_Value id +:+ "}") l).

(** Compares two orders field by field. *)
Definition assertOrderEqual (got want : Order) : Test unit :=
  fatalIf ((ord_ID got != ord_ID want) || (ord_AccountID got != ord_AccountID want) ||
           (ord_Status got != ord_Status want) || (ord_Expires got != ord_Expires want) ||
           (ord_CreatedAt got != ord_CreatedAt want) || (ord_Revision got != ord_Revision want) ||
           (SprintIdentifiers (ord_Identifiers got) != SprintIdentifiers (ord_Identifiers want)) ||
           (SprintStrings (ord_AuthorizationIDs got) != SprintStrings (ord_AuthorizationIDs want)) ||
           (ord_Profile got != ord_Profile want))
    "order mismatch\n got: %+v\nwant: %+v".

(** The type and detail of the problem an order or a challenge records. *)
Definition recorded (err : option Problem) (typ : ErrorType) (detail : string) : bool :=
  match err with
  | Some p => (p_Type p == typ) && (p_Detail p == detail)
  | None => false
  end.

Section Ordertest.
Context `{Platform}.

(** Creates an account and an order with two identifiers and returns them. *)
Definition seedOrder : Test (Order * list Authorization * list Challenge) :=
  account ← NewAccount "acct-1";
  account ← must "CreateAccount: %v" (CallCreateAccount account);
  let '(order, authzs, challenges) := NewOrder (acct_ID account) "order-1" ["a.example"; "b.example"] in
  let order := {| order with ord_Profile := "tls-server" |} in
  must "CreateOrder: %v" (CallCreateOrder order authzs challenges).

(** Checks that an order reads back with its authorizations and challenges at revision 1. *)
Definition testCreateOrder : Test unit :=
  '(order, authzs, challenges) ← seedOrder;
  authz0 ← index authzs 0;
  challenge0 ← index challenges 0;
  fatalIf ((ord_Revision order != 1%Z) || (az_Revision authz0 != 1%Z) || (ch_Revision challenge0 != 1%Z))
    "CreateOrder revisions = %d %d %d, want 1" ;;
  got ← must "Order: %v" (CallOrder (ord_ID order));
  assertOrderEqual got order ;;
  authz1 ← index authzs 1;
  authz ← must "Authorization: %v" (CallAuthorization (az_ID authz1));
  fatalIf ((az_OrderID authz != ord_ID order) || (id_Value (az_Identifier authz) != "b.example") ||
           (len (az_ChallengeIDs authz) != 1%Z))
    "Authorization = %+v" ;;
  challenge1 ← index challenges 1;
  challenge ← must "Challenge: %v" (CallChallenge (ch_ID challenge1));
  fatalIf ((ch_AuthorizationID challenge != az_ID authz) || (ch_Token challenge != "token-1") ||
           (ch_Status challenge != ChallengePending))
    "Challenge = %+v" ;;
  refuses IsNotFound "lookup of a missing resource = %v, want ErrNotFound" (CallOrder "missing") ;;
  refuses IsNotFound "lookup of a missing resource = %v, want ErrNotFound" (CallAuthorization "missing") ;;
  refuses IsNotFound "lookup of a missing resource = %v, want ErrNotFound" (CallChallenge "missing") ;;
  refuses IsNotFound "lookup of a missing resource = %v, want ErrNotFound" (CallCertificate "missing").

(** Checks that duplicate order, authorization or challenge IDs are refused without side effects. *)
Definition testCreateOrderConflicts : Test unit :=
  '(order, authzs, _) ← seedOrder;
  let '(dup, _, _) := NewOrder (ord_AccountID order) (ord_ID order) ["c.example"] in
  refuses IsConflict "CreateOrder(same order ID) error = %v, want ErrConflict" (CallCreateOrder dup [] []) ;;
  let '(second, secondAuthzs, secondChallenges) := NewOrder (ord_AccountID order) "order-2" ["c.example"] in
  authz0 ← index authzs 0;
  let secondAuthzs := alter (λ z, {| z with az_ID := az_ID authz0 |}) 0%nat secondAuthzs in
  refuses IsConflict "CreateOrder(same authz ID) error = %v, want ErrConflict"
    (CallCreateOrder second secondAuthzs secondChallenges) ;;
  refuses IsNotFound "conflicting CreateOrder left the order behind: %v" (CallOrder "order-2") ;;
  ids ← must "OrderIDs = %v, %v; want one order" (CallOrderIDs (ord_AccountID order) "" 10);
  fatalIf (len ids != 1%Z) "OrderIDs = %v, %v; want one order".

(** Checks creation order and cursor pagination of order IDs. *)
Definition testOrderIDs : Test unit :=
  account ← NewAccount "acct-1";
  account ← must "CreateAccount: %v" (CallCreateAccount account);
  forEach (λ i : nat,
    let '(order, authzs, challenges) := NewOrder (acct_ID account) ("order-" +:+ pretty i) ["a.example"] in
    let order := {| order with ord_CreatedAt := (testNow + Z.of_nat i * Minute)%Z |} in
    must "CreateOrder: %v" (CallCreateOrder order authzs challenges) ;; Done tt) (seq 0 5) ;;
  first ← must "OrderIDs(first page) = %v, %v" (CallOrderIDs (acct_ID account) "" 2);
  fatalIf (SprintStrings first != "[order-0 order-1]") "OrderIDs(first page) = %v, %v" ;;
  rest ← must "OrderIDs(after order-1) = %v, %v" (CallOrderIDs (acct_ID account) "order-1" 10);
  fatalIf (SprintStrings rest != "[order-2 order-3 order-4]") "OrderIDs(after order-1) = %v, %v" ;;
  last ← must "OrderIDs(after last) = %v, %v" (CallOrderIDs (acct_ID account) "order-4" 10);
  fatalIf (len last != 0%Z) "OrderIDs(after last) = %v, %v" ;;
  refuses IsNotFound "OrderIDs(unknown cursor) error = %v, want ErrNotFound"
    (CallOrderIDs (acct_ID account) "unknown" 10) ;;
  none ← must "OrderIDs(other account) = %v, %v" (CallOrderIDs "other" "" 10);
  fatalIf (len none != 0%Z) "OrderIDs(other account) = %v, %v".

(** Checks revision checked authorization updates. *)
Definition testUpdateAuthorization : Test unit :=
  '(_, authzs, _) ← seedOrder;
  authz ← index authzs 0;
  let stale := authz in
  let authz := {| authz with az_Status := AuthorizationDeactivated |} in
  authz ← must "UpdateAuthorization: %v" (CallUpdateAuthorization authz);
  fatalIf (az_Revision authz != 2%Z) "UpdateAuthorization set Revision %d, want 2" ;;
  refuses IsRevisionMismatch "UpdateAuthorization(stale) error = %v, want ErrRevisionMismatch"
    (CallUpdateAuthorization stale) ;;
  got ← must "Authorization after update = %+v, %v" (CallAuthorization (az_ID authz));
  fatalIf ((az_Status got != AuthorizationDeactivated) || (az_Revision got != 2%Z))
    "Authorization after update = %+v, %v" ;;
  let want := InvalidAuthorizationProblem in
  order ← must "order after its authorization was deactivated = %+v, %v" (CallOrder (az_OrderID authz));
  fatalIf ((ord_Status order != OrderInvalid) || negb (recorded (ord_Error order) (p_Type want) (p_Detail want)))
    "order after its authorization was deactivated = %+v, %v" ;;
  let missing := {| authz with az_ID := "missing" |} in
  refuses IsNotFound "UpdateAuthorization(missing) error = %v, want ErrNotFound"
    (CallUpdateAuthorization missing).

(** Checks that accepting a challenge stores it and enqueues its task atomically. *)
Definition testAcceptChallenge : Test unit :=
  '(_, _, challenges) ← seedOrder;
  challenge ← index challenges 0;
  let stale := challenge in
  let challenge := {| challenge with ch_Status := ChallengeProcessing; ch_KeyThumbprint := "thumb";
                                     ch_AuthorityToken := "header.claims.signature" |} in
  let task := newTask "task-1" TaskValidate (ch_ID challenge) testNow in
  '(challenge, _) ← must "AcceptChallenge: %v" (CallAcceptChallenge challenge task);
  fatalIf (ch_Revision challenge != 2%Z) "AcceptChallenge set Revision %d, want 2" ;;
  got ← must "Challenge after accept = %+v, %v" (CallChallenge (ch_ID challenge));
  fatalIf ((ch_Status got != ChallengeProcessing) || (ch_KeyThumbprint got != "thumb") ||
           (ch_AuthorityToken got != ch_AuthorityToken challenge))
    "Challenge after accept = %+v, %v" ;;
  pending ← must "PendingTasks = %d, %v; want 1" (CallPendingTasks testNow);
  fatalIf (pending != 1%Z) "PendingTasks = %d, %v; want 1" ;;
  let stale := {| stale with ch_Status := ChallengeProcessing |} in
  let other := newTask "task-2" TaskValidate (ch_ID challenge) testNow in
  refuses IsRevisionMismatch "AcceptChallenge(stale) error = %v, want ErrRevisionMismatch"
    (CallAcceptChallenge stale other) ;;
  challenge1 ← index challenges 1;
  let dupTask := newTask "task-1" TaskValidate (ch_ID challenge1) testNow in
  refuses IsConflict "AcceptChallenge(duplicate task) error = %v, want ErrConflict"
    (CallAcceptChallenge challenge1 dupTask) ;;
  got ← must "failed accept changed the challenge: %+v, %v" (CallChallenge (ch_ID challenge1));
  fatalIf (ch_Revision got != 1%Z) "failed accept changed the challenge: %+v, %v" ;;
  pending ← counted (CallPendingTasks testNow);
  fatalIf (pending != 1%Z) "failed accepts enqueued tasks: %d pending".

(** Checks that a retried validation stores the challenge error and releases the lease atomically. *)
Definition testRetryValidation : Test unit :=
  '(_, _, challenges) ← seedOrder;
  challenge ← index challenges 0;
  let challenge := {| challenge with ch_Status := ChallengeProcessing |} in
  let task := newTask "task-1" TaskValidate (ch_ID challenge) testNow in
  '(challenge, _) ← must "AcceptChallenge: %v" (CallAcceptChallenge challenge task);
  let lease := (testNow + Minute)%Z in
  claimed ← must "ClaimTask: %v" (CallClaimTask testNow lease);
  let stale := challenge in
  let challenge := {| challenge with ch_Error := Some (NewProblem ErrorConnection "connection refused") |} in
  let claimed := {| claimed with task_RunAt := (testNow + 10 * Second)%Z |} in
  '(claimed, challenge) ← must "RetryValidation: %v" (CallRetryValidation claimed challenge);
  fatalIf ((ch_Revision challenge != 3%Z) || negb (IsZero (task_LeaseUntil claimed)))
    "RetryValidation left Revision %d and lease %v, want 3 and no lease" ;;
  got ← must "Challenge after RetryValidation = %+v, %v" (CallChallenge (ch_ID challenge));
  fatalIf ((ch_Status got != ChallengeProcessing) ||
           negb (recorded (ch_Error got) ErrorConnection "connection refused"))
    "Challenge after RetryValidation = %+v, %v" ;;
  refuses IsNotFound "ClaimTask(before RunAt) error = %v, want ErrNotFound"
    (CallClaimTask (testNow + 5 * Second)%Z lease) ;;
  again ← must "ClaimTask(at RunAt) = %+v, %v" (CallClaimTask (testNow + 10 * Second) (testNow + 2 * Minute));
  fatalIf (task_Fence again != 2%Z) "ClaimTask(at RunAt) = %+v, %v" ;;
  let stale := {| stale with ch_Error := Some (NewProblem ErrorDNS "no answer") |} in
  refuses IsRevisionMismatch "RetryValidation(stale challenge) error = %v, want ErrRevisionMismatch"
    (CallRetryValidation again stale) ;;
  refuses IsRevisionMismatch "RetryValidation(stale fence) error = %v, want ErrRevisionMismatch"
    (CallRetryValidation claimed challenge) ;;
  got ← must "refused retries changed the challenge: %+v, %v" (CallChallenge (ch_ID challenge));
  fatalIf ((ch_Revision got != 3%Z) || (match ch_Error got with
                                        | Some p => p_Type p != ErrorConnection
                                        | None => true
                                        end))
    "refused retries changed the challenge: %+v, %v".

(** Checks claim ordering, leases, fences and rescheduling. *)
Definition testClaimTask : Test unit :=
  '(_, _, challenges) ← seedOrder;
  challenge0 ← index challenges 0;
  challenge1 ← index challenges 1;
  let late := newTask lateTask TaskValidate (ch_ID challenge0) (testNow + Hour) in
  let early := newTask earlyTask TaskValidate (ch_ID challenge1) testNow in
  let challenge0 := {| challenge0 with ch_Status := ChallengeProcessing |} in
  let challenge1 := {| challenge1 with ch_Status := ChallengeProcessing |} in
  must "AcceptChallenge(late): %v" (CallAcceptChallenge challenge0 late) ;;
  must "AcceptChallenge(early): %v" (CallAcceptChallenge challenge1 early) ;;
  let lease := (testNow + 2 * Minute)%Z in
  claimed ← must "ClaimTask: %v" (CallClaimTask testNow lease);
  fatalIf ((task_ID claimed != earlyTask) || (task_Fence claimed != 1%Z) || (task_Attempts claimed != 1%Z) ||
           (task_LeaseUntil claimed != lease)) "ClaimTask = %+v" ;;
  refuses IsNotFound "ClaimTask(leased and future) error = %v, want ErrNotFound" (CallClaimTask testNow lease) ;;
  pending ← counted (CallPendingTasks testNow);
  fatalIf (pending != 0%Z) "PendingTasks during lease = %d, want 0" ;;
  let afterLease := (lease + Second)%Z in
  reclaimed ← must "ClaimTask(after lease) = %+v, %v" (CallClaimTask afterLease (afterLease + Minute));
  fatalIf ((task_ID reclaimed != earlyTask) || (task_Fence reclaimed != 2%Z) || (task_Attempts reclaimed != 2%Z))
    "ClaimTask(after lease) = %+v, %v" ;;
  refuses IsRevisionMismatch "FinishTask(stale fence) error = %v, want ErrRevisionMismatch"
    (CallFinishTask claimed) ;;
  let reclaimed := {| reclaimed with task_RunAt := (afterLease + 10 * Minute)%Z |} in
  must "RescheduleTask: %v" (CallRescheduleTask reclaimed) ;;
  refuses IsNotFound "ClaimTask(before rescheduled RunAt) error = %v, want ErrNotFound"
    (CallClaimTask (afterLease + Minute) (afterLease + 2 * Minute)) ;;
  pending ← counted (CallPendingTasks (afterLease + 10 * Minute));
  fatalIf (pending != 1%Z) "PendingTasks at rescheduled time = %d, want 1" ;;
  third ← must "ClaimTask(rescheduled) = %+v, %v"
            (CallClaimTask (afterLease + 10 * Minute) (afterLease + 12 * Minute));
  fatalIf ((task_ID third != earlyTask) || (task_Fence third != 3%Z)) "ClaimTask(rescheduled) = %+v, %v" ;;
  must "FinishTask: %v" (CallFinishTask third) ;;
  refuses IsNotFound "FinishTask(finished) error = %v, want ErrNotFound" (CallFinishTask third) ;;
  remaining ← must "ClaimTask(late) = %+v, %v" (CallClaimTask (testNow + 2 * Hour) (testNow + 3 * Hour));
  fatalIf (task_ID remaining != lateTask) "ClaimTask(late) = %+v, %v".

(** The lease and validation counts the count test expects at one point. *)
Definition requireCounts (leasedAt : Time) (wantLeased wantValidations : Z) : Test unit :=
  leased ← must "%s: LeasedTasks = %d, %v; want %d" (CallLeasedTasks leasedAt);
  fatalIf (leased != wantLeased) "%s: LeasedTasks = %d, %v; want %d" ;;
  validations ← must "%s: AccountValidations = %d, %v; want %d" (CallAccountValidations "acct-1");
  fatalIf (validations != wantValidations) "%s: AccountValidations = %d, %v; want %d" ;;
  other ← must "%s: AccountValidations(other) = %d, %v; want 0" (CallAccountValidations "acct-2");
  fatalIf (other != 0%Z) "%s: AccountValidations(other) = %d, %v; want 0".

(** Accepts the challenges in their order, with tasks named after their positions. *)
Definition acceptAll (prefix : string) (challenges : list Challenge) : Test unit :=
  forEach (λ e : nat * Challenge,
    let (i, ch) := e in
    let ch := {| ch with ch_Status := ChallengeProcessing |} in
    let task := newTask (prefix +:+ pretty i) TaskValidate (ch_ID ch) testNow in
    must "AcceptChallenge: %v" (CallAcceptChallenge ch task) ;; Done tt) (imap pair challenges).

(** Checks the lease and per-account validation counts across the life of a task. *)
Definition testTaskCounts : Test unit :=
  '(order, _, challenges) ← seedOrder;
  requireCounts testNow 0 0 ;;
  acceptAll "validate-" challenges ;;
  let issue := newTask "issue" TaskIssue (ord_ID order) (testNow + Hour) in
  '(order, _) ← must "FinalizeOrder: %v" (CallFinalizeOrder order issue);
  requireCounts testNow 0 2 ;;
  let lease := (testNow + 2 * Minute)%Z in
  claimed ← must "ClaimTask: %v" (CallClaimTask testNow lease);
  requireCounts testNow 1 2 ;;
  requireCounts lease 0 2 ;;
  let claimed := {| claimed with task_RunAt := (testNow + Minute)%Z |} in
  must "RescheduleTask: %v" (CallRescheduleTask claimed) ;;
  requireCounts testNow 0 2 ;;
  claimed ← must "ClaimTask(other validation): %v" (CallClaimTask (testNow + Minute) lease);
  must "FinishTask: %v" (CallFinishTask claimed) ;;
  requireCounts testNow 0 1 ;;
  remaining ← must "ClaimTask(remaining) = %+v, %v" (CallClaimTask (testNow + Minute) lease);
  fatalIf (task_Kind remaining != TaskValidate) "ClaimTask(remaining) = %+v, %v" ;;
  ch ← must "Challenge: %v" (CallChallenge (task_TargetID remaining));
  let ch := {| ch with ch_Status := ChallengeValid |} in
  authz ← must "Authorization: %v" (CallAuthorization (ch_AuthorizationID ch));
  let authz := {| authz with az_Status := AuthorizationValid |} in
  order ← must "Order: %v" (CallOrder (ord_ID order));
  must "CompleteValidation: %v" (CallCompleteValidation remaining ch authz order) ;;
  requireCounts testNow 0 0.

(** Counts the claims of each task; a worker that found none reports not found. *)
Fixpoint countClaims (claims : list (Res Task)) (seen : gmap string Z) : Test (gmap string Z) :=
  match claims with
  | [] => Done seen
  | Ok task :: claims =>
      countClaims claims (<[task_ID task := (default 0 (seen !! task_ID task) + 1)%Z]> seen)
  | Err err :: claims => if IsNotFound err then countClaims claims seen else Fatal "worker %d: %v"
  end.

(** Checks that racing claims hand each task to exactly one worker. *)
Definition testConcurrentClaim : Test unit :=
  '(_, _, challenges) ← seedOrder;
  acceptAll "task-" challenges ;;
  let workers := 8%nat in
  claims ← Race (replicate workers (OnStore Background (CallClaimTask testNow (testNow + Minute)))) Done;
  seen ← countClaims claims ∅;
  fatalIf (Z.of_nat (size seen) != len challenges) "claimed %d distinct tasks, want %d" ;;
  forEach (λ e : string * Z, fatalIf (e.2 != 1%Z) "task %s was claimed %d times") (map_to_list seen).

(** Checks that a validation outcome updates three resources and removes the task atomically. *)
Definition testCompleteValidation : Test unit :=
  '(order, authzs, challenges) ← seedOrder;
  challenge ← index challenges 0;
  let challenge := {| challenge with ch_Status := ChallengeProcessing |} in
  let task1 := newTask "task-1" TaskValidate (ch_ID challenge) testNow in
  '(challenge, _) ← must "AcceptChallenge: %v" (CallAcceptChallenge challenge task1);
  task ← must "ClaimTask: %v" (CallClaimTask testNow (testNow + Minute));
  let staleOrder := order in
  let challenge := {| challenge with ch_Status := ChallengeValid; ch_Validated := testNow |} in
  authz ← index authzs 0;
  let authz := {| authz with az_Status := AuthorizationValid; az_CACertificate := true;
                             az_GrantExpires := (testNow + Hour)%Z;
                             az_GrantNames := [mkIdentifier IdentifierURI "https://nf.example.test/api"];
                             az_GrantNFType := "AMF" |} in
  '(challenge, authz, order) ← must "CompleteValidation: %v" (CallCompleteValidation task challenge authz order);
  fatalIf ((ch_Revision challenge != 3%Z) || (az_Revision authz != 2%Z) || (ord_Revision order != 2%Z))
    "revisions after completion = %d %d %d" ;;
  gotOrder ← must "Order after completion = %+v, %v" (CallOrder (ord_ID order));
  fatalIf ((ord_Revision gotOrder != 2%Z) || (ord_Status gotOrder != OrderPending))
    "Order after completion = %+v, %v" ;;
  gotAuthz ← must "Authorization after completion = %+v, %v" (CallAuthorization (az_ID authz));
  fatalIf ((az_Status gotAuthz != AuthorizationValid) || negb (az_CACertificate gotAuthz) ||
           (az_GrantExpires gotAuthz != az_GrantExpires authz) || (az_GrantNames gotAuthz != az_GrantNames authz) ||
           (az_GrantNFType gotAuthz != "AMF"))
    "Authorization after completion = %+v, %v" ;;
  refuses IsNotFound "task survived completion: %v" (CallClaimTask (testNow + Hour) (testNow + 2 * Hour)) ;;
  refuses IsNotFound "CompleteValidation(finished task) error = %v, want ErrNotFound"
    (CallCompleteValidation task challenge authz order) ;;
  second ← index challenges 1;
  let second := {| second with ch_Status := ChallengeProcessing |} in
  let task2Spec := newTask "task-2" TaskValidate (ch_ID second) testNow in
  '(second, _) ← must "AcceptChallenge(second): %v" (CallAcceptChallenge second task2Spec);
  task2 ← must "ClaimTask(second): %v" (CallClaimTask testNow (testNow + Minute));
  let second := {| second with ch_Status := ChallengeValid |} in
  authz1 ← index authzs 1;
  let authz1 := {| authz1 with az_Status := AuthorizationValid |} in
  let staleOrder := {| staleOrder with ord_Status := OrderReady |} in
  refuses IsRevisionMismatch "CompleteValidation(stale order) error = %v, want ErrRevisionMismatch"
    (CallCompleteValidation task2 second authz1 staleOrder) ;;
  got ← read (CallChallenge (ch_ID second));
  fatalIf ((ch_Status got != ChallengeProcessing) || (ch_Revision got != 2%Z))
    "failed completion changed the challenge: %+v" ;;
  got ← read (CallAuthorization (az_ID authz1));
  fatalIf (az_Status got != AuthorizationPending) "failed completion changed the authorization: %+v" ;;
  pending ← counted (CallPendingTasks (testNow + 30 * Second));
  fatalIf (pending != 0%Z) "PendingTasks with an active lease = %d, want 0" ;;
  let order := {| order with ord_Status := OrderReady |} in
  must "CompleteValidation(fresh order): %v" (CallCompleteValidation task2 second authz1 order) ;;
  got ← read (CallOrder (ord_ID order));
  fatalIf ((ord_Status got != OrderReady) || (ord_Revision got != 3%Z)) "Order after second completion = %+v".

(** A certificate with the fields the tests set. *)
Definition newCertificate (id accountID orderID : string) (chain : list bytes) : Certificate :=
  {| crt_ID := id;
     crt_AccountID := accountID;
     crt_OrderID := orderID;
     crt_CAReference := "";
     crt_Chain := chain;
     crt_NotBefore := zeroTime;
     crt_NotAfter := zeroTime;
     crt_Revoked := false;
     crt_RevokedAt := zeroTime;
     crt_RevocationReason := 0%Z;
     crt_RevocationOperationID := "";
     crt_RevocationRequestedAt := zeroTime;
     crt_RenewalID := "";
     crt_ReplacedByOrderID := "";
     crt_Validations := [];
     crt_CreatedAt := zeroTime;
     crt_Revision := 0%Z |}.

(** A validation of an identifier with http-01 at [testNow]. *)
Definition newValidation (identifier : Identifier) (names : list Identifier) (nfType : string) : Validation :=
  mkValidation identifier ChallengeHTTP01 testNow false zeroTime names nfType false.

(** Checks finalization and issuance completion including certificate publication. *)
Definition testFinalizeAndIssue : Test unit :=
  '(order, _, _) ← seedOrder;
  let stale := order in
  let order := {| order with ord_Status := OrderProcessing; ord_CSR := [x30; x03; x02; x01; x01] |} in
  '(order, _) ← must "FinalizeOrder: %v"
                  (CallFinalizeOrder order (newTask "issue-1" TaskIssue (ord_ID order) testNow));
  fatalIf (ord_Revision order != 2%Z) "FinalizeOrder set Revision %d, want 2" ;;
  let stale := {| stale with ord_Status := OrderProcessing |} in
  refuses IsRevisionMismatch "FinalizeOrder(stale) error = %v, want ErrRevisionMismatch"
    (CallFinalizeOrder stale (newTask "issue-2" TaskIssue (ord_ID order) testNow)) ;;
  task ← must "ClaimTask = %+v, %v" (CallClaimTask testNow (testNow + Minute));
  fatalIf ((task_Kind task != TaskIssue) || (task_TargetID task != ord_ID order)) "ClaimTask = %+v, %v" ;;
  identifier0 ← index (ord_Identifiers order) 0;
  let cert := newCertificate "cert-1" (ord_AccountID order) (ord_ID order) [[x30; x00]; [x30; x01]] in
  let cert := {| cert with crt_NotBefore := testNow; crt_NotAfter := (testNow + 90 * 24 * Hour)%Z;
                           crt_Validations := [newValidation identifier0 [mkIdentifier IdentifierDNS "granted.test"] "SMF"];
                           crt_CreatedAt := testNow |} in
  let order := {| order with ord_Status := OrderValid; ord_CertificateID := crt_ID cert |} in
  '(order, published) ← must "CompleteIssuance: %v" (CallCompleteIssuance task order (Some cert));
  let cert := default cert published in
  fatalIf ((crt_Revision cert != 1%Z) || (ord_Revision order != 3%Z))
    "revisions after issuance = cert %d order %d" ;;
  gotCert ← must "Certificate: %v" (CallCertificate (crt_ID cert));
  gotValidation ← index (crt_Validations gotCert) 0;
  validation ← index (crt_Validations cert) 0;
  fatalIf ((len (crt_Chain gotCert) != 2%Z) || (crt_OrderID gotCert != ord_ID order) ||
           (len (crt_Validations gotCert) != 1%Z) || (v_Names gotValidation != v_Names validation) ||
           (v_NFType gotValidation != "SMF"))
    "Certificate = %+v" ;;
  let gotCert :=
    {| gotCert with
       crt_Chain := alter (λ der, <[0%nat := xff]> der) 0%nat (crt_Chain gotCert);
       crt_Validations :=
         alter (λ v, {| v with v_Names := alter (λ id, {| id with id_Value := "changed.test" |}) 0%nat (v_Names v) |})
           0%nat (crt_Validations gotCert) |} in
  again ← read (CallCertificate (crt_ID cert));
  der ← index (crt_Chain again) 0;
  byte ← index der 0;
  validation ← index (crt_Validations again) 0;
  name ← index (v_Names validation) 0;
  fatalIf ((byte != x30) || (id_Value name != "granted.test")) "stored certificate changed through a returned copy" ;;
  gotOrder ← read (CallOrder (ord_ID order));
  fatalIf ((ord_Status gotOrder != OrderValid) || (ord_CertificateID gotOrder != crt_ID cert) ||
           (bytes_string (ord_CSR gotOrder) != bytes_string (ord_CSR order)))
    "Order after issuance = %+v" ;;
  refuses IsNotFound "issue task survived completion: %v" (CallClaimTask (testNow + Hour) (testNow + 2 * Hour)) ;;
  let staleCert := gotCert in
  let gotCert := {| gotCert with crt_Revoked := true; crt_RevokedAt := (testNow + Hour)%Z;
                                 crt_RevocationReason := 1%Z |} in
  must "UpdateCertificate: %v" (CallUpdateCertificate gotCert) ;;
  refuses IsRevisionMismatch "UpdateCertificate(stale) error = %v, want ErrRevisionMismatch"
    (CallUpdateCertificate staleCert) ;;
  revoked ← read (CallCertificate (crt_ID cert));
  fatalIf (negb (crt_Revoked revoked) || (crt_RevocationReason revoked != 1%Z) || (crt_Revision revoked != 2%Z))
    "Certificate after revocation = %+v".

(** Stores an order of one identifier, finalizes it and claims its issuance task. *)
Definition processOrder (accountID orderID identifier taskID : string) : Test (Order * Task) :=
  let '(order, authzs, challenges) := NewOrder accountID orderID [identifier] in
  '(order, _, _) ← must "CreateOrder: %v" (CallCreateOrder order authzs challenges);
  let order := {| order with ord_Status := OrderProcessing |} in
  '(order, _) ← must "FinalizeOrder: %v"
                  (CallFinalizeOrder order (newTask taskID TaskIssue (ord_ID order) testNow));
  task ← must "ClaimTask: %v" (CallClaimTask testNow (testNow + Minute));
  Done (order, task).

(** Checks that a failed issuance records the order outcome without a certificate and that a
    duplicate certificate ID is refused. *)
Definition testIssuanceFailureAndDuplicate : Test unit :=
  '(order, _, _) ← seedOrder;
  let order := {| order with ord_Status := OrderProcessing |} in
  '(order, _) ← must "FinalizeOrder: %v"
                  (CallFinalizeOrder order (newTask "issue-1" TaskIssue (ord_ID order) testNow));
  task ← must "ClaimTask: %v" (CallClaimTask testNow (testNow + Minute));
  let order := {| order with ord_Status := OrderInvalid;
                             ord_Error := Some (NewProblem ErrorServerInternal "issuer rejected the request") |} in
  '(order, _) ← must "CompleteIssuance(failure): %v" (CallCompleteIssuance task order None);
  got ← read (CallOrder (ord_ID order));
  fatalIf ((ord_Status got != OrderInvalid) || match ord_Error got with
                                               | Some p => p_Type p != ErrorServerInternal
                                               | None => true
                                               end)
    "Order after failure = %+v" ;;
  let got := {| got with ord_Error := (λ p, {| p with p_Detail := "changed" |}) <$> ord_Error got |} in
  again ← read (CallOrder (ord_ID order));
  fatalIf match ord_Error again with
          | Some p => p_Detail p != "issuer rejected the request"
          | None => true
          end "stored order error changed through a returned copy" ;;
  '(second, task) ← processOrder (ord_AccountID order) "order-2" "c.example" "issue-2";
  let cert := newCertificate "cert-dup" (ord_AccountID order) (ord_ID second) [[x30]] in
  let second := {| second with ord_Status := OrderValid |} in
  must "CompleteIssuance: %v" (CallCompleteIssuance task second (Some cert)) ;;
  '(third, task) ← processOrder (ord_AccountID order) "order-3" "d.example" "issue-3";
  let dup := newCertificate "cert-dup" (ord_AccountID order) (ord_ID third) [[x30]] in
  let third := {| third with ord_Status := OrderValid |} in
  refuses IsConflict "CompleteIssuance(duplicate cert) error = %v, want ErrConflict"
    (CallCompleteIssuance task third (Some dup)) ;;
  got ← read (CallOrder (ord_ID third));
  fatalIf (ord_Status got != OrderProcessing) "failed issuance changed the order: %+v" ;;
  must "task of the failed issuance is gone: %v" (CallClaimTask (testNow + Hour) (testNow + 2 * Hour)) ;;
  Done tt.

End Ordertest.
