(* ===== verification/Issuancetest.v ===== *)
(** * Conformance tests of a store: dispatch, scope and renewal (src/storetest/issuancetest.go, src/storetest/renewaltest.go)

    The dispatch snapshot before a CA call, the lookup of authorizations by scope, renewal
    identifiers and replacement claims, and the list of all tests of the suite. *)

From S2P Require Import Prelude Status Problem Resource StoreSpec Host Platform Jws Testing Storetest Ordertest.

(** The renewal identifier the contract tests attach to the first issued certificate. *)
Definition renewalID : string := "aYhba4dGQEHhs3uEe6CuLN4ByNQ.AIdlQyE".

(** Checks the consistent authorization lookup without treating backend errors as a refusal. *)
Definition assertAuthorized (accountID : string) (identifiers : list Identifier) (now : Time) (want : bool)
    : Test unit :=
  got ← must "AuthorizedFor(%s, %v) = %v, %v, want %v" (CallAuthorizedFor accountID identifiers now);
  fatalIf (got != want) "AuthorizedFor(%s, %v) = %v, %v, want %v".

(** Finalizes the order, claims its issuance task and returns the certificate to complete it with. *)
Definition issueCertificate (order : Order) (certID renewalID : string) : Test (Order * Certificate * Task) :=
  let order := {| order with ord_Status := OrderProcessing; ord_CSR := [x30; x03; x02; x01; x01] |} in
  let task := newTask ("issue-" +:+ ord_ID order) TaskIssue (ord_ID order) testNow in
  '(order, _) ← must "FinalizeOrder: %v" (CallFinalizeOrder order task);
  claimed ← must "ClaimTask = %+v, %v" (CallClaimTask testNow (testNow + Minute));
  fatalIf (task_TargetID claimed != ord_ID order) "ClaimTask = %+v, %v" ;;
  identifier0 ← index (ord_Identifiers order) 0;
  let cert := newCertificate certID (ord_AccountID order) (ord_ID order) [[x30; x00]] in
  let cert := {| cert with crt_NotBefore := testNow; crt_NotAfter := (testNow + 90 * 24 * Hour)%Z;
                           crt_RenewalID := renewalID; crt_Validations := [newValidation identifier0 [] ""];
                           crt_CreatedAt := testNow |} in
  Done ({| order with ord_Status := OrderValid; ord_CertificateID := crt_ID cert |}, cert, claimed).

(** Creates an order of the seeded account that replaces the certificate with the renewal identifier. *)
Definition replacingOrder (orderID replaces : string) (createdAt : Time)
    : storeCall (Order * list Authorization * list Challenge) :=
  let '(order, authzs, challenges) := NewOrder "acct-1" orderID ["a.example"] in
  let order := {| order with ord_Replaces := replaces; ord_CreatedAt := createdAt;
                             ord_Expires := (createdAt + 7 * 24 * Hour)%Z |} in
  CallCreateOrder order authzs challenges.

Section Issuancetest.
Context `{Platform}.

(** Requires unchanged authorization revisions before dispatch and preserves unpublished CA results. *)
Definition testDispatchSnapshot : Test unit :=
  '(order, authzs, _) ← seedOrder;
  account ← must "%v" (CallAccount (ord_AccountID order));
  authzs ← mapM (λ a, must "%v" (CallUpdateAuthorization {| a with az_Status := AuthorizationValid |})) authzs;
  let order := {| order with ord_Status := OrderProcessing |} in
  '(order, _) ← must "%v" (CallFinalizeOrder order (newTask "dispatch" TaskIssue (ord_ID order) testNow));
  task ← must "%v" (CallClaimTask testNow (testNow + Minute));
  identifier0 ← index (ord_Identifiers order) 0;
  let order := {| order with ord_Issuance :=
                    Some (mkIssuanceState (task_ID task) testNow (ord_Expires order)
                            [newValidation identifier0 [] ""]) |} in
  stale ← index authzs 0;
  updated ← must "%v" (CallUpdateAuthorization stale);
  let authzs := <[0%nat := updated]> authzs in
  let checked := <[0%nat := stale]> authzs in
  refuses IsRevisionMismatch "stale dispatch = %v" (CallBeginIssuance task order account checked) ;;
  stored ← must "failed dispatch changed state: %+v, %v" (CallOrder (ord_ID order));
  fatalIf (ord_Issuance stored != None) "failed dispatch changed state: %+v, %v" ;;
  order ← must "%v" (CallBeginIssuance task order account authzs);
  refuses IsRevisionMismatch "repeated dispatch = %v" (CallBeginIssuance task order account authzs) ;;
  updated ← must "%v" (CallUpdateAuthorization {| updated with az_Status := AuthorizationDeactivated |});
  stored ← must "dispatched recovery lost: %+v, %v" (CallOrder (ord_ID order));
  fatalIf ((ord_Status stored != OrderProcessing) || (ord_Issuance stored == None))
    "dispatched recovery lost: %+v, %v" ;;
  let order := {| order with ord_Status := OrderInvalid;
                             ord_UnpublishedResult :=
                    Some (mkIssueResult [string_bytes "unacceptable CA result"] "retained-reference" false 0
                            (Some (NewProblem ErrorServerInternal "conflicting result"))) |} in
  '(order, _) ← must "%v" (CallCompleteIssuance task order None);
  let order := {| order with ord_UnpublishedResult :=
                    (λ r, {| r with ir_Chain := alter (λ der, <[0%nat := x78]> der) 0%nat (ir_Chain r) |}) <$>
                    ord_UnpublishedResult order |} in
  stored ← must "retained result = %+v, %v" (CallOrder (ord_ID order));
  fatalIf match ord_UnpublishedResult stored with
          | Some r => (bytes_string <$> ir_Chain r !! 0%nat != Some "unacceptable CA result") ||
                      (ir_CAReference r != "retained-reference") || (ir_Rejected r == None)
          | None => true
          end "retained result = %+v, %v" ;;
  let stored := {| stored with ord_Issuance :=
                     (λ i, {| i with is_Validations :=
                        alter (λ v, {| v with v_Identifier := mkIdentifier (id_Type (v_Identifier v)) "changed.test" |})
                          0%nat (is_Validations i) |}) <$> ord_Issuance stored |} in
  again ← must "issuance evidence aliases caller state" (CallOrder (ord_ID order));
  issuance ← index (option_list (ord_Issuance again)) 0;
  validation ← index (is_Validations issuance) 0;
  fatalIf (v_Identifier validation != identifier0) "issuance evidence aliases caller state".

(** Distinguishes base and wildcard scope and excludes expired or deactivated authorization. *)
Definition testAuthorizationScope : Test unit :=
  account ← NewAccount "scope-account";
  account ← must "%v" (CallCreateAccount account);
  let '(order, authzs, challenges) := NewOrder (acct_ID account) "scope-order" ["a.test"; "a.test"] in
  let authzs := alter (λ z, {| z with az_Wildcard := true |}) 1%nat authzs in
  let order := {| order with ord_Identifiers :=
                    alter (λ id, {| id with id_Value := "*.a.test" |}) 1%nat (ord_Identifiers order) |} in
  let authzs := map (λ a, {| a with az_Status := AuthorizationValid |}) authzs in
  '(order, authzs, _) ← must "%v" (CallCreateOrder order authzs challenges);
  assertAuthorized (acct_ID account) (ord_Identifiers order) testNow true ;;
  assertAuthorized (acct_ID account) (ord_Identifiers order) (ord_Expires order) false ;;
  assertAuthorized "other-account" (ord_Identifiers order) testNow false ;;
  assertAuthorized (acct_ID account) [] testNow false ;;
  authz1 ← index authzs 1;
  must "%v" (CallUpdateAuthorization {| authz1 with az_Status := AuthorizationDeactivated |}) ;;
  assertAuthorized (acct_ID account) (take 1 (ord_Identifiers order)) testNow true ;;
  assertAuthorized (acct_ID account) (ord_Identifiers order) testNow false ;;
  stored ← must "order not invalidated: %+v, %v" (CallOrder (ord_ID order));
  fatalIf (ord_Status stored != OrderInvalid) "order not invalidated: %+v, %v" ;;
  must "%v" (CallUpdateAccount {| account with acct_Status := AccountDeactivated |}) ;;
  assertAuthorized (acct_ID account) (take 1 (ord_Identifiers order)) testNow false.

(** Stores the pre-approved flag and leaves such an authorization out of [AuthorizedFor]. *)
Definition testPreApprovedScope : Test unit :=
  account ← NewAccount "preapproved-account";
  account ← must "%v" (CallCreateAccount account);
  let '(order, authzs, _) := NewOrder (acct_ID account) "preapproved-order" ["approved.test"] in
  let order := {| order with ord_Status := OrderReady |} in
  let authzs := alter (λ z, {| z with az_Status := AuthorizationValid; az_PreApproved := true;
                                      az_ChallengeIDs := [] |}) 0%nat authzs in
  '(order, authzs, _) ← must "%v" (CallCreateOrder order authzs []);
  authz0 ← index authzs 0;
  stored ← must "pre-approved authorization = %+v, %v" (CallAuthorization (az_ID authz0));
  fatalIf (negb (az_PreApproved stored) || (az_Status stored != AuthorizationValid))
    "pre-approved authorization = %+v, %v" ;;
  assertAuthorized (acct_ID account) (ord_Identifiers order) testNow false.

(** Checks the renewal identifier lookup and its uniqueness. *)
Definition testRenewalLookup : Test unit :=
  '(order, _, _) ← seedOrder;
  '(order, cert, task) ← issueCertificate order "cert-1" renewalID;
  must "CompleteIssuance: %v" (CallCompleteIssuance task order (Some cert)) ;;
  found ← must "CertificateByRenewalID = %+v, %v" (CallCertificateByRenewalID renewalID);
  fatalIf ((crt_ID found != crt_ID cert) || (crt_RenewalID found != renewalID) || (crt_Revision found != 1%Z))
    "CertificateByRenewalID = %+v, %v" ;;
  forEach (λ id, refuses IsNotFound "CertificateByRenewalID(%q) error = %v, want ErrNotFound"
                   (CallCertificateByRenewalID id)) [""; "missing.serial"] ;;
  let '(second, authzs, challenges) := NewOrder (ord_AccountID order) "order-2" ["c.example"] in
  '(second, _, _) ← must "CreateOrder: %v" (CallCreateOrder second authzs challenges);
  '(second, duplicate, task) ← issueCertificate second "cert-2" renewalID;
  refuses IsConflict "CompleteIssuance with a used RenewalID error = %v, want ErrConflict"
    (CallCompleteIssuance task second (Some duplicate)) ;;
  refuses IsNotFound "conflicting certificate was stored: %v" (CallCertificate "cert-2").

(** Stores one issued certificate carrying the renewal identifier. *)
Definition seedCertificate : Test Certificate :=
  '(order, _, _) ← seedOrder;
  '(order, cert, task) ← issueCertificate order "cert-1" renewalID;
  '(_, published) ← must "CompleteIssuance: %v" (CallCompleteIssuance task order (Some cert));
  Done (default cert published).

(** Checks that one live order at a time may replace a certificate. *)
Definition testReplacementClaim : Test unit :=
  cert ← seedCertificate;
  must "first replacement: %v" (replacingOrder "order-2" renewalID testNow) ;;
  stored ← must "certificate after claim = %+v, %v" (CallCertificate (crt_ID cert));
  fatalIf ((crt_ReplacedByOrderID stored != "order-2") || (crt_Revision stored != 2%Z))
    "certificate after claim = %+v, %v" ;;
  refuses IsAlreadyReplaced "second replacement error = %v, want ErrAlreadyReplaced"
    (replacingOrder "order-3" renewalID testNow) ;;
  refuses IsNotFound "refused order was stored: %v" (CallOrder "order-3") ;;
  refuses IsNotFound "unknown predecessor error = %v, want ErrNotFound"
    (replacingOrder "order-4" "missing.serial" testNow) ;;
  let later := (testNow + 8 * 24 * Hour)%Z in
  must "replacement after expiry: %v" (replacingOrder "order-5" renewalID later) ;;
  stored ← must "certificate after second claim = %+v, %v" (CallCertificate (crt_ID cert));
  fatalIf ((crt_ReplacedByOrderID stored != "order-5") || (crt_Revision stored != 3%Z))
    "certificate after second claim = %+v, %v" ;;
  order ← must "stored order = %+v, %v" (CallOrder "order-5");
  fatalIf (ord_Replaces order != renewalID) "stored order = %+v, %v".

(** Checks that racing replacement orders leave exactly one claim. *)
Definition testConcurrentReplacement : Test unit :=
  seedCertificate ;;
  let racers := 8%nat in
  errs ← Race (map (λ i, OnStore Background (replacingOrder ("racer-" +:+ pretty i) renewalID testNow))
                 (seq 0 racers)) Done;
  created ← countCreated IsAlreadyReplaced errs 0;
  fatalIf (created != 1%Z) "%d racing replacements succeeded, want exactly 1".

(** The contract suite: every test runs on a fresh empty store. *)
Definition Run : list (string * Test unit) :=
  [("CreateAndReadAccount", testCreateAndRead);
   ("AccountNotFound", testNotFound);
   ("CreateAccountConflicts", testCreateConflicts);
   ("ExternalAccountClaims", testExternalAccountClaims);
   ("UpdateAccount", testUpdate);
   ("UpdateAccountStaleRevision", testUpdateStale);
   ("UpdateAccountMissing", testUpdateMissing);
   ("UpdateAccountKey", testUpdateKey);
   ("ReturnsCopies", testCopies);
   ("ConcurrentCreateSameKey", testConcurrentCreate);
   ("CanceledContext", testCanceledContext);
   ("CreateOrder", testCreateOrder);
   ("CreateOrderConflicts", testCreateOrderConflicts);
   ("OrderIDs", testOrderIDs);
   ("UpdateAuthorization", testUpdateAuthorization);
   ("AcceptChallenge", testAcceptChallenge);
   ("ClaimTask", testClaimTask);
   ("ConcurrentClaim", testConcurrentClaim);
   ("TaskCounts", testTaskCounts);
   ("RetryValidation", testRetryValidation);
   ("CompleteValidation", testCompleteValidation);
   ("FinalizeAndIssue", testFinalizeAndIssue);
   ("IssuanceFailureAndDuplicate", testIssuanceFailureAndDuplicate);
   ("DispatchSnapshot", testDispatchSnapshot);
   ("AuthorizationScope", testAuthorizationScope);
   ("PreApprovedScope", testPreApprovedScope);
   ("RenewalLookup", testRenewalLookup);
   ("ReplacementClaim", testReplacementClaim);
   ("ConcurrentReplacement", testConcurrentReplacement)].

End Issuancetest.
