(* ===== verification/StoretestProps.v ===== *)
(** * Stores that meet the contract pass the conformance suite

    A test runs on an implementation of the store interface and on a supply of generated keys.
    [permitted] runs it on the abstract store instead, where its calls are legal and their answers
    determined, and [permitted_passes] carries the outcome to every implementation of the contract. *)

From S2P Require Import Prelude Status Problem Resource StoreSpec Host Platform Jws Sqldb SqliteRel SqliteCalls Testing Storetest Ordertest Issuancetest.

(** ** Running a test *)

(** The effect of a call on a store and the keys that are still to be generated. *)
Definition suite_exec {S : Type} `{StoreImpl S} (X : Type) (c : suiteCall X) (w : S * list PublicKey)
    : X * (S * list PublicKey) :=
  match c with
  | OnStore ctx c => let (r, s) := store_exec c ctx w.1 in (r, (s, w.2))
  | GenerateKey =>
      match w.2 with
      | key :: keys => (Ok key, (w.1, keys))
      | [] => (Err (ErrMsg "EOF"), w)
      end
  end.

(** The abstract store answers a call on an ended context with its error. *)
#[export] Instance spec_store : StoreImpl AStore := λ X c ctx a,
  match ctx with Some err => (Err err, a) | None => spec_exec c a end.

(** ** Legal calls *)

Definition keeps_scopeb (authz : Authorization) (a : AStore) : bool :=
  match as_authzs a !! az_ID authz with
  | Some stored => (az_AccountID authz == az_AccountID stored) &&
                   (orderIdentifier authz == orderIdentifier stored)
  | None => true
  end.

Definition legalb {X : Type} (c : storeCall X) (a : AStore) : bool :=
  match c with
  | CallCreateAccount account => (acct_ID account != "") && (acct_KeyThumbprint account != "")
  | CallUpdateAccount account => acct_KeyThumbprint account != ""
  | CallCreateOrder order authzs challenges =>
      (ord_ID order != "") && (ord_AccountID order != "") && bool_decide (NoDup (map az_ID authzs)) &&
      negb (existsb (λ z, az_ID z == "") authzs) && negb (existsb (λ c, ch_ID c == "") challenges)
  | CallOrderIDs accountID _ limit =>
      (0 <? limit)%Z && (Z.of_nat (length (orders_of accountID (as_created a))) + limit <? 2 ^ 63)%Z
  | CallUpdateAuthorization authz => keeps_scopeb authz a
  | CallUpdateCertificate cert =>
      match as_certificates a !! crt_ID cert with
      | Some stored => crt_RenewalID cert == crt_RenewalID stored
      | None => true
      end
  | CallAcceptChallenge _ task | CallFinalizeOrder _ task => task_ID task != ""
  | CallCompleteValidation _ _ authz _ => keeps_scopeb authz a
  | CallCompleteIssuance _ _ (Some cert) => crt_ID cert != ""
  | CallLeasedTasks now => (0 <=? now)%Z
  | _ => true
  end.

Lemma existsb_empty {A} (f : A → string) l : existsb (λ x, f x == "") l = false → "" ∉ map f l.
Proof.
  intros He Hin. apply list_elem_of_fmap in Hin as (x & Hx & Hin).
  assert (existsb (λ x, f x == "") l = true) as Ht; [|by rewrite Ht in He].
  apply existsb_exists. exists x. split; [by apply list_elem_of_In|by apply bool_decide_eq_true].
Qed.

Lemma keeps_scopeb_true z a : keeps_scopeb z a = true → keeps_scope z a.
Proof.
  unfold keeps_scopeb, keeps_scope. intros Hb stored Hz. rewrite Hz in Hb.
  apply andb_true_iff in Hb as [H1 H2]. by apply bool_decide_eq_true in H1, H2.
Qed.

Lemma legalb_legal {X} (c : storeCall X) a : legalb c a = true → legal c a.
Proof.
  destruct c; simpl; try done; rewrite ?andb_true_iff, ?negb_true_iff, ?bool_decide_eq_false, ?bool_decide_eq_true;
    try tauto; try (apply keeps_scopeb_true); try lia.
  - intros [[[[? ?] ?] Hz] Hc]. split_and!; auto using existsb_empty.
  - intros Hb stored Hs. rewrite Hs in Hb. by apply bool_decide_eq_true in Hb.
  - destruct cert; [|done]. by rewrite ?negb_true_iff, ?bool_decide_eq_false.
Qed.

(** What every store of the repository asks of its callers: the rules of the contract, references to
    stored resources, times in the range of an index column, problems without nil subproblems, and no
    operation that fails in two ways at once. The keys of accounts are left to [keysOf]. *)
Definition careful {X : Type} (c : storeCall X) (a : AStore) : bool :=
  legalb c a && plainCall c &&
  match c with
  | CallCreateOrder order authzs challenges =>
      bool_decide (is_Some (as_accounts a !! ord_AccountID order)) && bool_decide (NoDup (map ch_ID challenges)) &&
      forallb (λ z, (az_AccountID z == ord_AccountID order) && (az_OrderID z == ord_ID order) &&
                    bool_decide (indexable z) && plain_type (orderIdentifier z)) authzs &&
      (authz_used authzs a || forallb (λ c, bool_decide (ch_AuthorizationID c ∈ map az_ID authzs)) challenges) &&
      ((ord_Replaces order == "") || fresh_parts authzs challenges a) &&
      (negb (has_value (λ c, crt_ReplacedByOrderID c == ord_ID order) (as_certificates a)) ||
       bool_decide (is_Some (as_orders a !! ord_ID order)))
  | CallUpdateAuthorization authz =>
      bool_decide (indexable authz) &&
      (negb (AuthorizationStatus_Terminal (az_Status authz)) ||
       match as_orders a !! az_OrderID authz with Some o => regular o | None => false end)
  | CallAuthorizedFor _ identifiers now => bool_decide (in_range now) && forallb plain_type identifiers
  | CallAcceptChallenge _ task | CallFinalizeOrder _ task =>
      bool_decide (in_range (task_RunAt task)) && canonical_kind (task_Kind task)
  | CallBeginIssuance _ order account authzs =>
      bool_decide (is_Some (as_orders a !! ord_ID order)) && bool_decide (is_Some (as_accounts a !! acct_ID account)) &&
      forallb (λ z, bool_decide (is_Some (as_authzs a !! az_ID z))) authzs
  | CallClaimTask now leaseUntil => bool_decide (in_range now) && bool_decide (in_range leaseUntil)
  | CallRescheduleTask task | CallRetryValidation task _ => bool_decide (in_range (task_RunAt task))
  | CallCompleteValidation _ _ authz _ => bool_decide (indexable authz)
  | CallCompleteIssuance _ order (Some cert) =>
      bool_decide (is_Some (as_orders a !! crt_OrderID cert)) &&
      ((spec_checkOrder order a == None) || negb (certificate_conflict cert a))
  | CallPendingTasks now | CallLeasedTasks now => bool_decide (in_range now)
  | _ => true
  end.

(** The keys a call stores. *)
Definition keysOf {X : Type} (c : storeCall X) : list PublicKey :=
  match c with
  | CallCreateAccount account | CallUpdateAccount account => [acct_Key account]
  | _ => []
  end.

Lemma careful_legal {X} (c : storeCall X) a : careful c a = true → legal c a.
Proof. intros Hc. apply andb_true_iff in Hc as [[Hc _]%andb_true_iff _]. by apply legalb_legal. Qed.

Lemma careful_plain {X} (c : storeCall X) a : careful c a = true → plainCall c = true.
Proof. intros Hc. by apply andb_true_iff in Hc as [[_ Hc]%andb_true_iff _]. Qed.

Lemma forallb_Forall {A} (f : A → bool) (P : A → Prop) l :
  (∀ x, f x = true → P x) → forallb f l = true → Forall P l.
Proof.
  intros Hf Hl. apply Forall_forall. intros x Hx. apply Hf. eapply forallb_forall; [done|by apply list_elem_of_In].
Qed.

Ltac split_bools :=
  repeat match goal with
  | H : _ && _ = true |- _ => apply andb_true_iff in H as [? ?]
  | H : bool_decide _ = true |- _ => apply bool_decide_eq_true in H
  end.

Lemma careful_order order authzs challenges a :
  careful (CallCreateOrder order authzs challenges) a = true →
  Forall (λ z, az_AccountID z = ord_AccountID order ∧ az_OrderID z = ord_ID order ∧ indexable z ∧
               plain_type (orderIdentifier z) = true) authzs ∧
  (authz_used authzs a = true ∨ Forall (λ c, ch_AuthorizationID c ∈ map az_ID authzs) challenges) ∧
  (ord_Replaces order = "" ∨ fresh_parts authzs challenges a = true) ∧
  (∀ k c, as_certificates a !! k = Some c → crt_ReplacedByOrderID c = ord_ID order → is_Some (as_orders a !! ord_ID order)).
Proof.
  intros Hc. unfold careful in Hc. split_bools. split_and!.
  - eapply forallb_Forall; [|eassumption]. intros z Hz. simpl in Hz. split_bools. done.
  - match goal with H : authz_used _ _ || _ = true |- _ => apply orb_true_iff in H as [H|H]; [by left|right] end.
    eapply forallb_Forall; [|eassumption]. intros c Hc. simpl in Hc. by split_bools.
  - match goal with H : (ord_Replaces _ == _) || _ = true |- _ => apply orb_true_iff in H as [H|H]; [left|by right] end.
    by split_bools.
  - intros k c Hk Hr. match goal with H : negb _ || _ = true |- _ => apply orb_true_iff in H as [Hv|Hv] end.
    + apply negb_true_iff in Hv. rewrite has_value_false in Hv. specialize (Hv k c Hk). by rewrite bool_decide_eq_true_2 in Hv.
    + by split_bools.
Qed.

Lemma careful_sqlite `{Platform} `{Gob} {X} (c : storeCall X) a :
  careful c a = true → Forall (λ key, portable key = true) (keysOf c) → sqlite_legal c a.
Proof.
  intros Hc Hkeys. pose proof (careful_legal c a Hc) as Hl. split; [by eapply careful_plain|].
  destruct c; try done; try (by unfold careful in Hc; split_bools); cbn [legal sqlite_legal keysOf] in *.
  - rewrite Forall_singleton in Hkeys. naive_solver.
  - by rewrite Forall_singleton in Hkeys.
  - pose proof (careful_order _ _ _ _ Hc) as (? & ? & ? & ?). unfold careful in Hc. split_bools. by destruct Hl as (? & ? & ? & _).
  - by destruct Hl.
  - unfold careful in Hc. split_bools. split_and!; [done|done|]. intros Ht.
    match goal with H : negb _ || _ = true |- _ => rewrite Ht in H; simpl in H end. case_match; naive_solver.
  - unfold careful in Hc. split_bools. split; [done|]. by eapply forallb_Forall.
  - unfold careful in Hc. split_bools. split_and!; [done|done|]. eapply forallb_Forall; [|eassumption].
    intros z Hz. simpl in Hz. by split_bools.
  - destruct cert as [cert|]; [|done]. unfold careful in Hc. split_bools. split; [done|].
    match goal with H : _ || negb _ = true |- _ => apply orb_true_iff in H as [H|H]; [left|right; by apply negb_true_iff] end.
    by split_bools.
Qed.

(** Implementations that can store [n] more times, with the keys they can store. *)
Class StoreCapacity (S : Type) `{StoreSpec S} : Type := {
  store_capacity : nat → S → Prop;
  store_key : PublicKey → Prop;
  capacity_room : ∀ n s, store_capacity (Datatypes.S n) s → store_room s;
  capacity_exec : ∀ n s a X (c : storeCall X) ctx,
    store_rel s a → store_capacity (Datatypes.S n) s → (ctx = None → store_legal (S := S) c a) →
    store_capacity n (store_exec c ctx s).2;
  careful_calls : ∀ X (c : storeCall X) a, careful c a = true → Forall store_key (keysOf c) → store_legal (S := S) c a
}.

(** ** Running a test on the abstract store

    [n] bounds the calls that are left, [good] the keys they may store. *)
Section permitted.
Context (good : PublicKey → Prop).

Definition allowed {X} (c : suiteCall X) (a : AStore) : Prop :=
  match c with
  | OnStore None c => careful c a = true ∧ Forall good (keysOf c)
  | OnStore (Some _) c => checks_context c = true
  | GenerateKey => True
  end.

(** The calls are allowed when they are made one after the other. *)
Fixpoint along {X} (cs : list (suiteCall X)) (w : AStore * list PublicKey) : Prop :=
  match cs with
  | [] => True
  | c :: cs => allowed c w.1 ∧ along cs (suite_exec X c w).2
  end.

Fixpoint permitted {A} (n : nat) (p : test suiteCall A) (Q : nat → A → AStore * list PublicKey → Prop)
    (w : AStore * list PublicKey) : Prop :=
  match p with
  | Done a => Q n a w
  | Fatal _ => False
  | Do c k =>
      match n with
      | O => False
      | Datatypes.S n => allowed c w.1 ∧ let (x, w) := suite_exec _ c w in permitted n (k x) Q w
      end
  | Race cs k =>
      (length cs ≤ n)%nat ∧ (∀ l, l ≡ₚ cs → along l w) ∧
      ∀ xs w', raced suite_exec cs w xs w' → permitted (n - length cs) (k xs) Q w'
  end.

Lemma along_always {X} (cs : list (suiteCall X)) w : Forall (λ c, ∀ a, allowed c a) cs → ∀ l, l ≡ₚ cs → along l w.
Proof.
  intros Hcs l Hl. rewrite <- Hl in Hcs. clear Hl. revert w. induction Hcs as [|c l Hc Hcs IH]; intros w; simpl; auto.
Qed.

Lemma permitted_bind {A B} n (f : A → test suiteCall B) (p : test suiteCall A) Q w :
  permitted n p (λ m a, permitted m (f a) Q) w → permitted n (p ≫= f) Q w.
Proof.
  change (p ≫= f) with (test_bind f p).
  revert n w. induction p as [a|msg|X c k IH|X cs k IH]; intros n w; simpl; [done|done| |].
  - destruct n as [|n]; [done|]. intros [Ha Hk]. split; [done|]. destruct (suite_exec X c w). by apply IH.
  - intros (Hn & Hcs & Hk). split_and!; [done|done|]. intros xs w' Hr. by apply IH, Hk.
Qed.

End permitted.

(** The keys a call stores, when it is allowed otherwise. *)
Definition allows {X} (c : suiteCall X) (a : AStore) : option (list PublicKey) :=
  match c with
  | OnStore None c => if careful c a then Some (keysOf c) else None
  | OnStore (Some _) c => if checks_context c then Some [] else None
  | GenerateKey => Some []
  end.

Lemma allows_allowed good {X} (c : suiteCall X) a ks : allows c a = Some ks → Forall good ks → allowed good c a.
Proof. destruct c as [X [err|] c|]; simpl; [| |done]; case_match; naive_solver. Qed.

(** The run of a test that starts no goroutines, when it ends without a failure, with the keys it
    stores. *)
Fixpoint evaluate {A} (n : nat) (p : test suiteCall A) (w : AStore * list PublicKey)
    {struct p} : option (nat * A * (AStore * list PublicKey) * list PublicKey) :=
  match p with
  | Done a => Some (n, a, w, [])
  | Fatal _ | Race _ _ => None
  | Do c k =>
      match n with
      | O => None
      | Datatypes.S n =>
          match allows c w.1 with
          | None => None
          | Some ks =>
              let (x, w) := suite_exec _ c w in
              match evaluate n (k x) w with Some (r, ks') => Some (r, ks ++ ks') | None => None end
          end
      end
  end.

Lemma evaluate_permitted good {A} n (p : test suiteCall A) Q w m a w' ks :
  evaluate n p w = Some (m, a, w', ks) → Forall good ks → Q m a w' → permitted good n p Q w.
Proof.
  intros He Hks HQ. revert n w ks He Hks. induction p as [b|msg|X c k IH|X cs k IH]; intros n w ks; simpl; try discriminate.
  - intros Heq. by simplify_eq.
  - destruct n as [|n]; [done|]. destruct (allows c w.1) as [ks1|] eqn:Ha; [|done]. destruct (suite_exec X c w) as [x w1].
    destruct (evaluate n (k x) w1) as [[r ks2]|] eqn:He; [|done]. intros Heq Hks. simplify_eq.
    apply Forall_app in Hks as [H1 H2]. split; [by eapply allows_allowed|]. by eapply IH.
Qed.

Lemma evaluate_bind {A B} n (f : A → test suiteCall B) (p : test suiteCall A) w :
  evaluate n (p ≫= f) w =
    match evaluate n p w with
    | Some (m, a, w', ks) =>
        match evaluate m (f a) w' with Some (r, ks') => Some (r, ks ++ ks') | None => None end
    | None => None
    end.
Proof.
  change (p ≫= f) with (test_bind f p).
  revert n w. induction p as [b|msg|X c k IH|X cs k IH]; intros n w; simpl; try done.
  - by destruct (evaluate n (f b) w) as [[]|].
  - destruct n as [|n]; [done|]. destruct (allows c w.1); [|done]. destruct (suite_exec X c w) as [x w1]. rewrite IH.
    destruct (evaluate n (k x) w1) as [[[[m a] w2] ks]|]; [|done]. destruct (evaluate m (f a) w2) as [[]|]; [|done].
    by rewrite app_assoc.
Qed.

(** The keys a test stores that ends without a failure. *)
Definition ends {A} (n : nat) (p : test suiteCall A) (w : AStore * list PublicKey) : option (list PublicKey) :=
  snd <$> evaluate n p w.

Lemma ends_permitted good {A} n (p : test suiteCall A) w ks :
  ends n p w = Some ks → Forall good ks → permitted good n p (λ _ _ _, True) w.
Proof.
  unfold ends. destruct (evaluate n p w) as [[[[m a] w'] ks']|] eqn:E; [|done]. intros Hks Hg. simpl in Hks. simplify_eq.
  by eapply evaluate_permitted.
Qed.

Section simulation.
Context {S : Type} `{StoreCapacity S}.

Definition sim (n : nat) (w : S * list PublicKey) (v : AStore * list PublicKey) : Prop :=
  store_rel w.1 v.1 ∧ store_capacity n w.1 ∧ w.2 = v.2.

Lemma suite_step n X (c : suiteCall X) w v :
  sim (Datatypes.S n) w v → allowed store_key c v.1 →
  (suite_exec X c w).1 = (suite_exec X c v).1 ∧ sim n (suite_exec X c w).2 (suite_exec X c v).2.
Proof.
  destruct w as [s keys], v as [a keys']. intros (R & Hcap & Hk) Hc. simpl in *. subst keys'.
  destruct c as [X ctx c|]; simpl in *.
  - assert (ctx = None → store_legal c a) as Hlegal.
    { intros ->. destruct Hc. by apply careful_calls. }
    pose proof (capacity_exec n s a _ c ctx R Hcap Hlegal) as Hcap'.
    assert ((store_exec c ctx s).1 = (spec_store X c ctx a).1 ∧
            store_rel (store_exec c ctx s).2 (spec_store X c ctx a).2) as [Heq R'].
    { destruct ctx as [err|]; simpl; [by rewrite store_ended|].
      apply store_refines; [done|by eapply capacity_room|by apply Hlegal]. }
    change (store_exec c ctx a) with (spec_store X c ctx a).
    destruct (store_exec c ctx s), (spec_store X c ctx a). simpl in *. by subst.
  - pose proof (capacity_exec n s a _ (CallAccount "") (Some ErrPanic) R Hcap) as Hcap'.
    rewrite store_ended in Hcap' by done. specialize (Hcap' ltac:(done)). by destruct keys.
Qed.

Lemma linear_sim X (l : list (suiteCall X * X)) n w v w' :
  sim (length l + n) w v → along store_key l.*1 v →
  linear suite_exec l w w' → ∃ v', linear suite_exec l v v' ∧ sim n w' v'.
Proof.
  revert w v. induction l as [|[c x] l IH]; intros w v Hs Hl; simpl; [intros ->; eauto|].
  destruct Hl as [Hc Hl]. intros [Hx Hlin].
  destruct (suite_step (length l + n) X c w v Hs Hc) as [Heq Hs'].
  destruct (IH _ _ Hs' Hl Hlin) as (v' & Hlin' & Hs''). exists v'. by rewrite <- Heq.
Qed.

Lemma raced_sim X (cs : list (suiteCall X)) n w v xs w' :
  (length cs ≤ n)%nat → sim n w v → (∀ l, l ≡ₚ cs → along store_key l v) →
  raced suite_exec cs w xs w' → ∃ v', raced suite_exec cs v xs v' ∧ sim (n - length cs) w' v'.
Proof.
  intros Hn Hs Hcs (Hlen & l & Hl & Hlin).
  assert (length l = length cs) as Hll by (rewrite Hl, length_zip; lia).
  destruct (linear_sim X l (n - length cs) w v w') as (v' & Hlin' & Hs').
  - by replace (length l + (n - length cs))%nat with n by lia.
  - apply Hcs. rewrite Hl, fst_zip; [done|lia].
  - done.
  - exists v'. split; [|done]. split; [done|]. by exists l.
Qed.

(** A test that the abstract store passes with allowed calls is passed by every implementation. *)
Lemma permitted_passes {A} n (p : test suiteCall A) Q w v :
  sim n w v → permitted store_key n p Q v → passes suite_exec p (λ a _, ∃ m v', Q m a v') w.
Proof.
  revert n w v. induction p as [a|msg|X c k IH|X cs k IH]; intros n w v Hs; simpl; [eauto|done| |].
  - destruct n as [|n]; [done|]. intros [Hc Hk]. destruct (suite_step n X c w v Hs Hc) as [Heq Hs'].
    destruct (suite_exec X c w) as [x w'], (suite_exec X c v) as [y v']. simpl in *. subst y. by eapply IH.
  - intros (Hn & Hcs & Hk). split; [apply raced_total|]. intros xs w' Hr.
    destruct (raced_sim X cs n w v xs w') as (v' & Hr' & Hs'); [done..|]. eapply IH; [done|]. by apply Hk.
Qed.

End simulation.
