(* ===== verification/SqliteProps.v ===== *)
(** * The SQLite store as an implementation of the store interface

    What processes that share one database see: a sequence of committed versions, each the effect of
    one call, and the abstract store of [StoreSpec] behind each of them. *)

From S2P Require Import Prelude Status Problem Resource Base64 Netip StoreSpec Prog Host Platform Identifier SystemDemo Sqldb Sqlitestore SqliteRel SqliteCalls SqliteSerial StoretestProps.

Section linear.
Context `{Platform} `{Gob} `{!GobLaws}.
Implicit Types (V : list version) (ts : list thread).

(** ** The abstract store behind the versions *)

Definition thread_legal (th : thread) (a : AStore) : Prop :=
  match th with Thread c _ _ _ | Crashed c => sqlite_legal c a end.

(** What the contract makes of the store when the call of a thread runs alone. *)
Definition thread_spec (th : thread) (a : AStore) : AStore :=
  match th with Thread c _ _ _ | Crashed c => (spec_exec c a).2 end.

(** The store after the thread with the label committed its call. *)
Definition committed ts (label : option nat) (a : AStore) : AStore :=
  match label ≫= λ i, ts !! i with Some th => thread_spec th a | None => a end.

Fixpoint committedFrom ts (labels : list (option nat)) (a : AStore) : list AStore :=
  a :: match labels with
       | [] => []
       | label :: labels => committedFrom ts labels (committed ts label a)
       end.

(** The stores of the contract behind a list of versions: the empty one, and each next one what the
    contract makes of the one before with the call that committed the version. *)
Definition abstraction V ts : list AStore := committedFrom ts (tail V.*1) AStore_empty.

(** Every call that committed a version was legal in the store it found. *)
Definition legalCommits V ts : Prop :=
  ∀ k i th a, V.*1 !! S k = Some (Some i) → ts !! i = Some th → abstraction V ts !! k = Some a → thread_legal th a.

Lemma sql_capacity_empty n : (Z.of_nat n + 1 < 2 ^ 63)%Z → sql_capacity n Tables_empty.
Proof. intros Hn. split; try apply Forall_nil_2; unfold roomFor; simpl; lia. Qed.

Lemma sql_capacity_room n t : sql_capacity (S n) t → sql_room t.
Proof. intros C. induction n as [|n IH]; [done|]. by apply IH, sql_capacity_less. Qed.

Lemma thread_effect_refines n th t a :
  sql_rel t a → sql_capacity (S n) t → thread_legal th a →
  sql_rel (thread_effect th t) (thread_spec th a) ∧ sql_capacity n (thread_effect th t).
Proof.
  intros R C Hl. destruct th as [X c start tx p|X c]; simpl in *;
    (split; [apply (sqlite_step_refines X c t a); [done|by eapply sql_capacity_room|done]|by eapply sql_capacity_exec]).
Qed.

Lemma committedFrom_length ts labels a : length (committedFrom ts labels a) = S (length labels).
Proof. revert a. induction labels as [|l labels IH]; intros a; simpl; [done|]. by rewrite IH. Qed.

Lemma committedFrom_next ts labels a k l b :
  labels !! k = Some l → committedFrom ts labels a !! k = Some b →
  committedFrom ts labels a !! S k = Some (committed ts l b).
Proof.
  revert a k. induction labels as [|l' labels IH]; intros a k; [done|].
  destruct k as [|k]; cbn; [|by apply IH]. intros [= ->] [= <-]. by destruct labels.
Qed.

Lemma abstraction_length V ts : V ≠ [] → length (abstraction V ts) = length V.
Proof. intros HV. unfold abstraction. rewrite committedFrom_length. destruct V; [done|]. simpl. by rewrite length_fmap. Qed.

Lemma abstraction_lookup V ts k v : V !! k = Some v → is_Some (abstraction V ts !! k).
Proof.
  intros Hv. apply lookup_lt_is_Some. rewrite abstraction_length by by intros ->. by eapply lookup_lt_Some.
Qed.

Lemma abstraction_next V ts k l a :
  V.*1 !! S k = Some l → abstraction V ts !! k = Some a → abstraction V ts !! S k = Some (committed ts l a).
Proof. intros Hl. apply committedFrom_next. by destruct V. Qed.

Section versions.
Context V ts (first : V !! 0%nat = Some (None, Tables_empty)) (steps : serial V ts).
Context (legal : legalCommits V ts) (room : (Z.of_nat (length V) + 1 < 2 ^ 63)%Z).

Lemma versions_abstract k v a :
  V !! k = Some v → abstraction V ts !! k = Some a → sql_rel v.2 a ∧ sql_capacity (length V - k) v.2.
Proof.
  revert v a. induction k as [|k IH]; intros v' a' Hv' Ha'.
  { rewrite first in Hv'. injection Hv' as <-. unfold abstraction in Ha'.
    destruct (tail V.*1); injection Ha' as <-; (split; [apply sql_rel_empty|apply sql_capacity_empty; lia]). }
  pose proof (lookup_lt_Some _ _ _ Hv') as Hlt. destruct (lookup_lt_is_Some_2 V k) as [v Hv]; [lia|].
  destruct (abstraction_lookup V ts k v Hv) as [a Ha]. destruct (IH v a Hv Ha) as [R C].
  destruct (steps k v v' Hv Hv') as (i & th & Hi & Hth & He).
  assert (V.*1 !! S k = Some (Some i)) as Hl by (by rewrite list_lookup_fmap, Hv', <- Hi).
  rewrite (abstraction_next V ts k _ a Hl Ha) in Ha'. unfold committed in Ha'. simpl in Ha'. rewrite Hth in Ha'.
  injection Ha' as <-. replace (length V - k)%nat with (S (length V - S k)) in C by lia.
  rewrite He. by apply thread_effect_refines; [| |eapply legal].
Qed.

Lemma versions_room k v a : V !! k = Some v → abstraction V ts !! k = Some a → sql_room v.2.
Proof.
  intros Hv Ha. destruct (versions_abstract k v a Hv Ha) as [_ C]. apply lookup_lt_Some in Hv.
  apply (sql_capacity_room (pred (length V - k))). by replace (S (pred (length V - k))) with (length V - k)%nat by lia.
Qed.

End versions.

Lemma first_version t0 V ts : rtc sqlite_step ([(None, t0)], []) (V, ts) → V !! 0%nat = Some (None, t0).
Proof.
  intros Hr. change ((V, ts).1 !! 0%nat = Some (None, t0)). revert Hr.
  apply (rtc_ind_r (λ s, s.1 !! 0%nat = Some (None, t0))); [done|]. intros s s' _ Hst Hs.
  destruct Hst as [V1 V2 ts1 i X c start tx tx' Y e k y _ Hdb| |]; simpl in *; [|done|done].
  destruct (db_step_versions _ _ _ _ _ _ _ _ Hdb) as [->|[[t' ->] _]]; [done|]. by apply lookup_app_l_Some.
Qed.

(** C8. Processes that share one SQLite database see one store of the contract, whatever runs at the
    same time, fails or crashes. Start from the empty store and apply, in the order of the commits,
    what the contract says of each call that committed; when each of these calls is legal in the
    store it finds, the committed versions represent these stores. Every method that returned
    failed with an error of the backend, or there is a version that was current after it was called
    such that, when the call is legal in the store behind it, the method answered what the contract
    says of that store and left the store as it was or stored its effect as the next version. *)
Theorem sqlite_linearizable V ts :
  rtc sqlite_step ([(None, Tables_empty)], []) (V, ts) →
  legalCommits V ts → (Z.of_nat (length V) + 1 < 2 ^ 63)%Z →
  length (abstraction V ts) = length V ∧
  (∀ k v a, V !! k = Some v → abstraction V ts !! k = Some a → sql_rel v.2 a) ∧
  (∀ k l, V.*1 !! S k = Some l → ∃ i th, l = Some i ∧ ts !! i = Some th) ∧
  ∀ i X (c : storeCall X) start tx r, ts !! i = Some (Thread c start tx (Ret r)) →
    (∃ err, r = Err err ∧ fault err) ∨
    ∃ k a, (start ≤ k)%nat ∧ abstraction V ts !! k = Some a ∧
      (sqlite_legal c a →
       goResult r = (spec_exec c a).1 ∧
       ((∃ v, V !! k = Some v ∧ sql_rel v.2 (spec_exec c a).2) ∨
        V.*1 !! S k = Some (Some i) ∧ abstraction V ts !! S k = Some (spec_exec c a).2)).
Proof.
  intros Hr Hlegal Hroom. pose proof (pool_steps _ _ _ Hr) as [_ Hs _ _ Ht _]. pose proof (first_version _ _ _ Hr) as Hfirst.
  pose proof (versions_abstract V ts Hfirst Hs Hlegal Hroom) as Habs. split_and!.
  - apply abstraction_length. by intros ->.
  - intros k v a Hv Ha. by destruct (Habs k v a Hv Ha).
  - intros k l Hl. rewrite list_lookup_fmap, fmap_Some in Hl. destruct Hl as (v' & Hv' & ->).
    destruct (lookup_lt_is_Some_2 V k) as [v Hv]; [apply lookup_lt_Some in Hv'; lia|].
    destruct (Hs k v v' Hv Hv') as (i & th & Hi & Hth & _). by exists i, th.
  - intros i X c start tx r Hi. destruct (Ht i _ Hi) as [_ (V0 & <- & He)].
    destruct He as [Hf|(k & t & Hk & HV & Ha & Heff)]; [by left|right].
    rewrite list_lookup_fmap, fmap_Some in HV. destruct HV as (v & Hv & ->).
    destruct (abstraction_lookup V ts k v Hv) as [a HAk]. destruct (Habs k v a Hv HAk) as [R _].
    exists k, a. split_and!; [done|done|]. intros Hl.
    destruct (sqlite_step_refines X c v.2 a R (versions_room V ts Hfirst Hs Hlegal Hroom k v a Hv HAk) Hl) as [Hans Hrel].
    split; [congruence|]. destruct Heff as [Heff|Heff]; [left; exists v; by rewrite Heff in Hrel|right].
    assert (V.*1 !! S k = Some (Some i)) as Hwho by (by rewrite list_lookup_fmap, Heff). split; [done|].
    rewrite (abstraction_next V ts k _ a Hwho HAk). unfold committed. simpl. by rewrite Hi.
Qed.

(** ** Calls one after the other *)

(** What a call of thread [me] does when nothing fails and no other thread writes. *)
Definition db_answer (me : nat) {X} (c : sqlCall X) V (tx : option transactionState)
    : option (X * list version * option transactionState) :=
  match c with
  | OpenDB _ _ | Conn => Some (None, V, tx)
  | CloseDB => Some (None, V, None)
  | CloseConn => Some (tt, V, tx)
  | Begin true => match tx, current V with None, Some t => Some (None, V, Some (Writing t)) | _, _ => None end
  | Begin false => if tx is None then Some (None, V, Some Deferred) else None
  | Exec s =>
      match tx, current V with
      | Some (Writing t), _ => Some ((statement_exec s t).1, V, Some (Writing (statement_exec s t).2))
      | Some Deferred, Some t | Some (Reading t), _ =>
          if writes s then None else Some ((statement_exec s t).1, V, Some (Reading t))
      | _, _ => None
      end
  | Commit =>
      match tx with
      | Some (Writing t) => Some (None, V ++ [(Some me, t)], None)
      | Some _ => Some (None, V, None)
      | None => None
      end
  | Rollback => Some (tt, V, None)
  | Query s => match current V with Some t => if writes s then None else Some ((statement_exec s t).1, V, tx) | None => None end
  end.

Lemma db_answer_step me (alone : Prop) {X} (c : sqlCall X) V tx x V' tx' :
  alone → db_answer me c V tx = Some (x, V', tx') → db_step me alone c V tx x V' tx'.
Proof.
  intros Ha. destruct c as [| | | |[]| | |Y s|Y s]; simpl; intros Heq.
  1, 2, 3, 4, 8: by injection Heq as <- <- <-.
  - destruct tx; [done|]. destruct (current V) eqn:Hc; [|done]. injection Heq as <- <- <-. by constructor.
  - destruct tx; [done|]. injection Heq as <- <- <-. constructor.
  - destruct tx as [[| |]|]; [..|done]; injection Heq as <- <- <-; by constructor.
  - destruct tx as [[|t|t]|]; [..|done].
    + destruct (current V) eqn:Hc; [|done]. destruct (writes s) eqn:Hs; [done|]. injection Heq as <- <- <-. by constructor.
    + destruct (writes s) eqn:Hs; [done|]. injection Heq as <- <- <-. by constructor.
    + injection Heq as <- <- <-. constructor.
  - destruct (current V) eqn:Hc; [|done]. destruct (writes s) eqn:Hs; [done|]. injection Heq as <- <- <-.
    split; [by constructor|done].
Qed.

Fixpoint play (me : nat) {A} (p : prog sqlCall A) V (tx : option transactionState)
    : option (A * list version * option transactionState) :=
  match p with
  | Ret a => Some (a, V, tx)
  | Vis e k => match db_answer me e V tx with Some (x, V, tx) => play me (k x) V tx | None => None end
  end.

Lemma play_steps i {X} (c : storeCall X) start p V ts tx r V' tx' :
  ts !! i = Some (Thread c start tx p) → unlocked i ts → play i p V tx = Some (r, V', tx') →
  rtc sqlite_step (V, ts) (V', <[i := Thread c start tx' (Ret r)]> ts).
Proof.
  revert V ts tx. induction p as [a|Y e k IH]; intros V ts tx Hi Hu; simpl.
  - intros [= -> -> ->]. by rewrite list_insert_id.
  - destruct (db_answer i e V tx) as [[[x V1] tx1]|] eqn:Hx; [|done]. intros Hp.
    eapply rtc_l; [by eapply (step_call _ _ _ i); [|apply db_answer_step]|].
    pose proof (lookup_lt_Some _ _ _ Hi) as Hlt.
    rewrite <- (list_insert_insert_eq ts i (Thread c start tx' (Ret r)) (Thread c start tx1 (k x))).
    apply (IH x V1 _ tx1); [by apply list_lookup_insert_eq| |done].
    intros j th Hne Hth. rewrite list_lookup_insert_ne in Hth by done. by apply (Hu j).
Qed.

(** A call by a new thread. *)
Definition callNext {X} (c : storeCall X) (s : list version * list thread) : list version * list thread :=
  match play (length s.2) (sqlite_method c) s.1 None with
  | Some (r, V', None) => (V', s.2 ++ [Thread c (pred (length s.1)) None (Ret r)])
  | _ => s
  end.

Definition quiet ts : Prop := Forall (λ th, ¬ writing th) ts.

Lemma callNext_steps {X} (c : storeCall X) s :
  quiet s.2 → rtc sqlite_step s (callNext c s) ∧ quiet (callNext c s).2.
Proof.
  destruct s as [V ts]. intros Hq. unfold callNext. simpl in *.
  destruct (play (length ts) (sqlite_method c) V None) as [[[r V'] [tx|]]|] eqn:Hp; [done| |done]. split.
  - eapply rtc_l; [apply (step_start _ _ _ c)|].
    pose proof (play_steps (length ts) c (pred (length V)) (sqlite_method c) V
      (ts ++ [Thread c (pred (length V)) None (sqlite_method c)]) None r V' None) as Hsteps.
    rewrite insert_app_r_alt, Nat.sub_diag in Hsteps by done. apply Hsteps; [by apply list_lookup_middle| |done].
    intros j th Hne Hth. apply lookup_app_Some in Hth as [Hth|[Hj Hth]]; [exact (Forall_lookup_1 _ _ _ _ Hq Hth)|].
    apply list_lookup_singleton_Some in Hth as [Hth _]. lia.
  - apply Forall_app. split; [done|]. by apply Forall_singleton; intros [].
Qed.

(** Commits that a test of their calls finds legal. *)
Definition carefulThread (th : thread) (a : AStore) : bool :=
  match th with Thread c _ _ _ | Crashed c => careful c a && forallb portable (keysOf c) end.

Definition carefulCommits V ts : bool :=
  forallb (λ p, match p.1 ≫= λ i, ts !! i with Some th => carefulThread th p.2 | None => true end)
    (zip (tail V.*1) (abstraction V ts)).

Lemma carefulCommits_legal V ts : carefulCommits V ts = true → legalCommits V ts.
Proof.
  unfold carefulCommits. intros Hc k i th a Hl Hth Ha. rewrite forallb_forall in Hc.
  specialize (Hc (Some i, a)). simpl in Hc. rewrite Hth in Hc.
  assert (carefulThread th a = true) as Hok.
  { apply Hc, list_elem_of_In, (list_elem_of_lookup_2 _ k). apply lookup_zip_Some. split; [|done]. by destruct V. }
  destruct th as [X c start tx p|X c]; simpl in *; apply andb_true_iff in Hok as [Hok Hkeys];
    (apply careful_sqlite; [done|]; by eapply forallb_Forall).
Qed.

End linear.

(** ** A database with four callers *)

Module Concurrent.

(** Ed25519 keys are encoded as they are, and a stream of gob values is the value. *)
#[local] Instance platform : Platform :=
  {| demo_platform with
     x509_MarshalPKIXPublicKey := λ key, match key with KeyEd25519 k => Ok k | _ => Err (ErrMsg "unsupported") end |}.

#[local] Instance gob : Gob := {|
  blob := gobValue;
  gob_Encode v := Ok v;
  gob_Decode v := Ok v;
  x509_ParsePKIXPublicKey der := Ok (KeyEd25519 der)
|}.

#[local] Instance gob_laws : GobLaws.
Proof. split. intros v _. by exists v. Qed.

Definition account (id : string) : Account :=
  mkAccount id AccountValid (KeyEd25519 [x01]) "thumbprint" [] false "" "" 0 0.

(** One call of the thread [i], with the answer and the versions a rule gives. *)
Lemma conn_ok i alone V tx : db_step i alone Conn V tx None V tx.
Proof. done. Qed.
Lemma rollback_ok i alone V tx u : db_step i alone Rollback V tx u V None.
Proof. done. Qed.
Lemma close_ok i alone V tx u : db_step i alone CloseConn V tx u V tx.
Proof. done. Qed.
Lemma query_answers i alone {X} (s : statement X) V tx t :
  writes s = false → current V = Some t → db_step i alone (Query s) V tx (statement_exec s t).1 V tx.
Proof. intros Hs Ht. split; [by constructor|done]. Qed.

Ltac calls i rule := eapply rtc_l; [eapply (step_call _ _ _ i); [reflexivity|rule]|simpl].
Ltac unlocks := intros [|[|[|[|j]]]] th Hne Hth; try done; injection Hth as <-; by intros [].
Ltac begins i := calls i ltac:(apply conn_ok); calls i ltac:(apply begin_write; [unlocks|reflexivity]).
Ltac ends i := calls i ltac:(apply (rollback_ok _ _ _ _ tt)); calls i ltac:(apply (close_ok _ _ _ _ tt)).
Ltac starts c := eapply rtc_l; [apply (step_start _ _ _ c)|simpl].

(** Two processes create an account for one key at the same time; a third looks it up in between, and
    a fourth dies in its transaction. *)
Definition outcome : list (option nat * Tables) * list thread :=
  let t1 := (sqlite_run None (sqlite_method (CallCreateAccount (account "a"))) Tables_empty).2 in
  ([(None, Tables_empty); (Some 0%nat, t1)],
   [Thread (CallCreateAccount (account "a")) 0 None (Ret (Ok {| (account "a") with acct_Revision := 1%Z |}));
    Thread (CallCreateAccount (account "b")) 0 None (Ret (Err (SqlError ErrConflict)));
    Thread (CallAccountByKey "thumbprint") 0 None (Ret (Err (SqlError ErrNotFound)));
    Crashed (CallCreateAccount (account "c"))]).

Lemma outcome_reached : rtc sqlite_step ([(None, Tables_empty)], []) outcome.
Proof.
  starts (CallCreateAccount (account "a")). starts (CallCreateAccount (account "b")).
  starts (CallAccountByKey "thumbprint"). starts (CallCreateAccount (account "c")).
  begins 3%nat. calls 3%nat ltac:(apply exec_writing). eapply rtc_l; [by eapply (step_crash _ _ 3)|simpl].
  begins 0%nat. calls 0%nat ltac:(apply exec_writing).
  calls 2%nat ltac:(apply query_answers; [done|reflexivity]).
  calls 0%nat ltac:(apply commit_write). ends 0%nat.
  begins 1%nat. calls 1%nat ltac:(apply exec_writing). ends 1%nat.
  apply rtc_refl.
Qed.

Lemma sqlite_serializable_witness :
  rtc sqlite_step ([(None, Tables_empty)], []) outcome ∧ NoDup outcome.1.*1 ∧
  (∀ k v v', outcome.1 !! k = Some v → outcome.1 !! S k = Some v' →
     ∃ i th, v'.1 = Some i ∧ outcome.2 !! i = Some th ∧ v'.2 = thread_effect th v.2).
Proof.
  split; [exact outcome_reached|].
  destruct (sqlite_serializable Tables_empty outcome.1 outcome.2 outcome_reached) as (Hn & Hs & _). by split.
Defined.

(** One after the other then, an order of the account is created, finalized and claimed, its issuance
    begins, the certificate is published and a second certificate of the same order is refused. *)
Definition name : Identifier := mkIdentifier IdentifierDNS "a.test".
Definition authz : Authorization :=
  mkAuthorization "z" "a" "o" name AuthorizationValid (unixEpoch + 100) false ["h"] false 0 [] "" false 0 0.
Definition challenge : Challenge := mkChallenge "h" "z" "a" ChallengeHTTP01 ChallengeValid "token" "" "" 0 None 0.
Definition order (status : OrderStatus) (issuance : option IssuanceState) (certificate : string) (revision : Z) : Order :=
  mkOrder "o" "a" status (unixEpoch + 100) [name] 0 0 ["z"] None [] certificate issuance None "" "" 0 revision.
Definition task : Task := mkTask "t" TaskIssue "o" "a" 0 0 0 0 0.
Definition lease : Time := (unixEpoch + 50)%Z.
Definition dispatch : IssuanceState := mkIssuanceState "op" (unixEpoch + 10) lease [].
Definition certificate (id : string) : Certificate :=
  mkCertificate id "a" "o" "" [] 0 0 false 0 0 "" 0 "" "" [] 0 0.

Definition issued : list (option nat * Tables) * list thread :=
  let task' := claimed lease task in
  callNext (CallCompleteIssuance task' (order OrderValid (Some dispatch) "d" 4) (Some (certificate "d")))
 (callNext (CallCompleteIssuance task' (order OrderValid (Some dispatch) "c" 3) (Some (certificate "c")))
 (callNext (CallBeginIssuance task' (order OrderProcessing (Some dispatch) "" 2) {| (account "a") with acct_Revision := 1%Z |}
              [{| authz with az_Revision := 1%Z |}])
 (callNext (CallClaimTask (unixEpoch + 10) lease)
 (callNext (CallFinalizeOrder (order OrderProcessing None "" 1) task)
 (callNext (CallCreateOrder (order OrderReady None "" 0) [authz] [challenge]) outcome))))).

Lemma issued_reached : rtc sqlite_step ([(None, Tables_empty)], []) (issued.1, issued.2).
Proof.
  assert (quiet outcome.2) as Hq by (repeat constructor; by intros []).
  rewrite <- surjective_pairing. etrans; [exact outcome_reached|]. unfold issued. cbv zeta.
  repeat match goal with
  | |- rtc _ _ (callNext ?c ?s) =>
      let Hs := fresh in assert (rtc sqlite_step outcome s ∧ quiet s.2) as Hs;
        [|destruct (callNext_steps c s (proj2 Hs)) as [? ?]; etrans; [exact (proj1 Hs)|done]]
  | |- rtc _ _ (callNext ?c ?s) ∧ _ =>
      let Hs := fresh in assert (rtc sqlite_step outcome s ∧ quiet s.2) as Hs;
        [|destruct (callNext_steps c s (proj2 Hs)) as [? ?]; split; [etrans; [exact (proj1 Hs)|done]|done]]
  | |- _ => by split
  end.
Qed.

Lemma sqlite_linearizable_witness :
  rtc sqlite_step ([(None, Tables_empty)], []) (issued.1, issued.2) ∧
  length issued.1 = 7%nat ∧ length (abstraction issued.1 issued.2) = 7%nat ∧
  (as_certificates <$> last (abstraction issued.1 issued.2)) =
    Some {[ "c" := {| (certificate "c") with crt_Revision := 1%Z |} ]}.
Proof.
  split; [exact issued_reached|]. assert (length issued.1 = 7%nat) as Hlen by (vm_compute; reflexivity). split; [exact Hlen|]. split.
  - rewrite <- Hlen. refine (proj1 (sqlite_linearizable issued.1 issued.2 issued_reached _ _)).
    + apply carefulCommits_legal. vm_compute. reflexivity.
    + rewrite Hlen. reflexivity.
  - vm_compute. reflexivity.
Defined.

End Concurrent.
