(* ===== verification/StoretestSuite.v ===== *)
(** * The conformance suite on the abstract store

    Every test of the suite runs through on the abstract store, with any keys that have distinct
    thumbprints and in any order of the concurrent calls, so every implementation of the contract
    passes it, the in-memory store and the SQLite store among them. *)

From S2P Require Import Prelude Status Problem Resource StoreSpec Host Platform Jws Sqldb Sqlitestore SqliteRel SqliteCalls SqliteProps Testing Storetest Ordertest Issuancetest StoretestProps Memstore MemstoreRefine MemstoreCalls MemstoreSystem MemstoreProps SystemDemo.

Notation finished := (λ (_ : nat) (_ : unit) (_ : AStore * list PublicKey), True).

(** ** Concurrent calls *)

(** The answers to equal calls made one after the other. *)
Fixpoint answers {X} (n : nat) (c : suiteCall X) (w : AStore * list PublicKey) : list X :=
  match n with
  | O => []
  | S n => let (x, w) := suite_exec X c w in x :: answers n c w
  end.

Section races.
Context {X : Type}.
Implicit Types (xs : list (Res X)) (w : AStore * list PublicKey).

(** Whichever call comes first succeeds and makes the others fail. *)
Definition oneWins {I} `{EqDecision I} (wanted : error → bool) (f : I → storeCall X) (ids : list I)
    (a : AStore) : bool :=
  forallb (λ i, match spec_exec (f i) a with
                | (Ok _, b) => forallb (λ j, (j == i) || match (spec_exec (f j) b).1 with
                                                         | Ok _ => false
                                                         | Err err => wanted err
                                                         end) ids
                | (Err _, _) => false
                end) ids.

Definition lost (wanted : error → bool) (r : Res X) : Prop := ∃ err, r = Err err ∧ wanted err = true.

Definition started {I} (f : I → storeCall X) (e : I * Res X) : suiteCall (Res X) * Res X :=
  (OnStore Background (f e.1), e.2).

Lemma linear_lost {I} (wanted : error → bool) (f : I → storeCall X) l a keys w' :
  Forall (λ e, match (spec_exec (f e.1) a).1 with Ok _ => False | Err err => wanted err = true end) l →
  linear suite_exec (map (started f) l) (a, keys) w' → Forall (lost wanted) l.*2.
Proof.
  intros Hall. induction Hall as [|[i x] l Hi Hall IH]; [constructor|]. intros [Hx Hlin].
  pose proof (spec_exec_Err (f i) a) as Herr. simpl in Hi, Hx, Hlin.
  change (store_exec (f i) Background a) with (spec_exec (f i) a) in *.
  destruct (spec_exec (f i) a) as [[y|err] b]; simpl in *; [done|]. rewrite (Herr err) in Hlin by done.
  constructor; [by exists err|]. by apply IH.
Qed.

Lemma raced_once {I} `{EqDecision I} (wanted : error → bool) (f : I → storeCall X) ids a keys xs w' :
  ids ≠ [] → NoDup ids → oneWins wanted f ids a = true →
  raced suite_exec (map (λ i, OnStore Background (f i)) ids) (a, keys) xs w' →
  ∃ x ys, xs ≡ₚ Ok x :: ys ∧ Forall (lost wanted) ys.
Proof.
  intros Hne Hnodup Hone (Hlen & l & Hl & Hlin). rewrite length_map in Hlen.
  assert (zip (map (λ i, OnStore Background (f i)) ids) xs = map (started f) (zip ids xs)) as Hzip.
  { clear. revert xs. induction ids as [|i ids IH]; intros [|x xs]; simpl; [done..|]. by rewrite IH. }
  rewrite Hzip in Hl. apply Permutation_map_inv in Hl as (l' & -> & Hl).
  assert (xs ≡ₚ l'.*2) as Hxs by (rewrite <- Hl, snd_zip; [done|lia]).
  assert (ids ≡ₚ l'.*1) as Hids by (rewrite <- Hl, fst_zip; [done|lia]).
  rewrite Hids in Hnodup. destruct l' as [|[i x] l]; [by apply Permutation_nil_r in Hids|].
  assert (i ∈ ids) as Hi by (rewrite Hids; left). destruct Hlin as [Hx Hlin]. apply NoDup_cons in Hnodup as [Hnew _].
  pose proof (proj1 (forallb_forall _ _) Hone i (proj1 (list_elem_of_In _ _) Hi)) as Hw. cbn beta in Hw.
  simpl in Hx, Hlin. change (store_exec (f i) Background a) with (spec_exec (f i) a) in *.
  destruct (spec_exec (f i) a) as [[y|err] b]; simpl in *; [|done]. subst x. exists y, l.*2. split; [done|].
  eapply linear_lost; [|exact Hlin]. apply Forall_forall. intros [j x] Hj. simpl.
  assert (j ∈ l.*1) as Hj1 by (by apply (list_elem_of_fmap_2 fst) in Hj).
  assert (j ∈ ids) as Hjids by (rewrite Hids; by right).
  pose proof (proj1 (forallb_forall _ _) Hw j (proj1 (list_elem_of_In _ _) Hjids)) as Hwj. cbn beta in Hwj.
  rewrite bool_decide_eq_false_2 in Hwj by (intros ->; by apply Hnew). by destruct (spec_exec (f j) b).1.
Qed.

(** The calls are allowed whichever comes first, and afterwards. *)
Definition carefulOnce {I} `{EqDecision I} (f : I → storeCall X) (ids : list I) (a : AStore) : bool :=
  forallb (λ i, careful (f i) a && forallb (λ j, (j == i) || careful (f j) (spec_exec (f i) a).2) ids) ids.

Lemma along_lost good {I} (wanted : error → bool) (f : I → storeCall X) ids a keys :
  Forall (λ i, careful (f i) a = true ∧ keysOf (f i) = [] ∧
               match (spec_exec (f i) a).1 with Ok _ => False | Err err => wanted err = true end) ids →
  along good (map (λ i, OnStore Background (f i)) ids) (a, keys).
Proof.
  intros Hall. induction Hall as [|i ids (Hc & Hk & Hi) Hall IH]; [done|]. simpl. split; [by rewrite Hk|].
  pose proof (spec_exec_Err (f i) a) as Herr. change (store_exec (f i) Background a) with (spec_exec (f i) a).
  destruct (spec_exec (f i) a) as [[y|err] b]; simpl in *; [done|]. by rewrite (Herr err).
Qed.

Lemma along_once good {I} `{EqDecision I} (wanted : error → bool) (f : I → storeCall X) ids a keys :
  NoDup ids → oneWins wanted f ids a = true → carefulOnce f ids a = true → (∀ i, keysOf (f i) = []) →
  ∀ l, l ≡ₚ map (λ i, OnStore Background (f i)) ids → along good l (a, keys).
Proof.
  intros Hnodup Hone Hcare Hkeys l Hl. apply Permutation_map_inv in Hl as (ids' & -> & Hids).
  destruct ids' as [|i rest]; [done|]. assert (i ∈ ids) as Hi by (rewrite Hids; left).
  rewrite Hids in Hnodup. apply NoDup_cons in Hnodup as [Hnew _].
  pose proof (proj1 (forallb_forall _ _) Hone i (proj1 (list_elem_of_In _ _) Hi)) as Hw. cbn beta in Hw.
  pose proof (proj1 (forallb_forall _ _) Hcare i (proj1 (list_elem_of_In _ _) Hi)) as [Hc Hcs]%andb_true_iff.
  simpl. split; [by rewrite Hkeys|]. change (store_exec (f i) Background a) with (spec_exec (f i) a).
  destruct (spec_exec (f i) a) as [[y|err] b]; simpl in *; [|done]. apply (along_lost good wanted).
  apply Forall_forall. intros j Hj. assert (j ∈ ids) as Hjids by (rewrite Hids; by right).
  pose proof (proj1 (forallb_forall _ _) Hw j (proj1 (list_elem_of_In _ _) Hjids)) as Hwj.
  pose proof (proj1 (forallb_forall _ _) Hcs j (proj1 (list_elem_of_In _ _) Hjids)) as Hcj. cbn beta in Hwj, Hcj.
  rewrite bool_decide_eq_false_2 in Hwj, Hcj by (intros ->; by apply Hnew). split_and!; [done|apply Hkeys|].
  by destruct (spec_exec (f j) b).1.
Qed.

(** Equal calls give the same answers in every order. *)
Lemma linear_equal (c : suiteCall (Res X)) (l : list (suiteCall (Res X) * Res X)) w w' :
  Forall (λ e, e.1 = c) l → linear suite_exec l w w' → l.*2 = answers (length l) c w.
Proof.
  revert w. induction l as [|[c' x] l IH]; intros w; simpl; [done|]. intros [Hc Hl]%Forall_cons [<- Hlin].
  simpl in Hc. subst c'. destruct (suite_exec _ c w). simpl in *. f_equal. by apply IH.
Qed.

Lemma raced_equal (c : suiteCall (Res X)) n w xs w' :
  raced suite_exec (replicate n c) w xs w' → xs ≡ₚ answers n c w.
Proof.
  intros (Hlen & l & Hl & Hlin). rewrite length_replicate in Hlen.
  assert (xs ≡ₚ l.*2) as -> by (rewrite Hl, snd_zip; [done|rewrite length_replicate; lia]).
  assert (length l = n) as Hn by (rewrite Hl, length_zip, length_replicate; lia).
  rewrite (linear_equal c l w w'); [by rewrite Hn| |done].
  rewrite Hl. apply Forall_forall. intros [c' x] Hin. apply elem_of_zip_l in Hin.
  by apply elem_of_replicate_inv in Hin.
Qed.

Lemma countCreated_once (wanted : error → bool) xs x ys z :
  xs ≡ₚ Ok x :: ys → Forall (lost wanted) ys → countCreated wanted xs z = Done (z + 1)%Z.
Proof.
  intros Hxs Hys.
  assert (Forall (λ r, match r with Ok _ => True | Err e => wanted e = true end) xs) as Hall.
  { rewrite Hxs. constructor; [done|]. eapply Forall_impl; [exact Hys|]. by intros r (err & -> & Hw). }
  assert (length (List.filter is_Ok xs) = 1%nat) as Hcount.
  { assert (List.filter is_Ok xs ≡ₚ List.filter is_Ok (Ok x :: ys)) as ->.
    { clear Hall. induction Hxs; simpl; repeat case_match; eauto using Permutation. }
    simpl. f_equal. clear Hxs Hall. by induction Hys as [|r ys (err & -> & _) Hys IH]. }
  replace (z + 1)%Z with (z + Z.of_nat (length (List.filter is_Ok xs)))%Z by lia. clear Hcount Hxs Hys.
  revert z. induction Hall as [|r xs Hr Hall IH]; intros z; simpl; [by rewrite Z.add_0_r|].
  destruct r as [y|e]; simpl; [rewrite IH; f_equal; lia|by rewrite Hr, IH].
Qed.

End races.

Lemma countClaims_perm (xs ys : list (Res Task)) seen m :
  xs ≡ₚ ys → countClaims ys seen = Done m → countClaims xs seen = Done m.
Proof.
  intros Hxs. revert seen. induction Hxs as [|r xs ys Hxs IH|r r' xs|xs ys zs Hxy IH1 Hyz IH2]; intros seen; simpl.
  - done.
  - destruct r; [apply IH|]. case_match; [apply IH|done].
  - destruct r as [t|e], r' as [u|e']; simpl; repeat case_match; try done.
    intros <-. f_equal. destruct (decide (task_ID t = task_ID u)) as [->|Hne]; [done|].
    rewrite !lookup_insert_ne by done. by apply insert_insert_ne.
  - intros Hm. by apply IH1, IH2.
Qed.

(** ** Steps of a test *)

Section steps.
Context `{Platform} (good : PublicKey → Prop).
Implicit Types (w : AStore * list PublicKey).

(** The account [NewAccount] returns for a key and its thumbprint. *)
Definition generated (id : string) (key : PublicKey) (thumbprint : string) : Account :=
  mkAccount id AccountValid key thumbprint ["mailto:admin@example.test"] true "" "" zeroTime 0.

Lemma permitted_NewAccount n id key t Q a keys :
  Thumbprint key = Ok t → Q n (generated id key t) (a, keys) →
  permitted good (S n) (NewAccount id) Q (a, key :: keys).
Proof. intros Ht HQ. split; [done|]. cbn. by rewrite Ht. Qed.

Lemma permitted_must {X} n msg (c : storeCall X) Q a keys x a' :
  careful c a = true → Forall good (keysOf c) → spec_exec c a = (Ok x, a') → Q n x (a', keys) →
  permitted good (S n) (must msg c) Q (a, keys).
Proof. intros Hc Hk He HQ. split; [done|]. cbn. by rewrite He. Qed.

Lemma permitted_refuses {X} n wanted msg (c : storeCall X) Q a keys err a' :
  careful c a = true → Forall good (keysOf c) → spec_exec c a = (Err err, a') → wanted err = true → Q n tt (a', keys) →
  permitted good (S n) (refuses wanted msg c) Q (a, keys).
Proof. intros Hc Hk He Hw HQ. split; [done|]. cbn. rewrite He. cbn. by rewrite Hw. Qed.

Lemma permitted_fatalIf n b msg Q w : b = false → Q n tt w → permitted good n (fatalIf b msg) Q w.
Proof. by intros ->. Qed.

Lemma permitted_assertAccountEqual n account Q w :
  is_Ok (x509_MarshalPKIXPublicKey (acct_Key account)) = true → Q n tt w →
  permitted good n (assertAccountEqual account account) Q w.
Proof.
  intros Hm HQ. unfold assertAccountEqual. rewrite !bool_decide_eq_true_2 by done. simpl.
  destruct (x509_MarshalPKIXPublicKey _); simpl in *; [|done]. by rewrite bool_decide_eq_true_2.
Qed.

End steps.

(** ** Accounts of the abstract store *)

(** The store that holds only accounts. *)
Definition holding (m : gmap string Account) : AStore := mkAStore m ∅ [] ∅ ∅ ∅ [].

(** The account shares neither its key nor its claim with [b]. *)
Definition unrelated (account b : Account) : Prop :=
  acct_KeyThumbprint b ≠ acct_KeyThumbprint account ∧
  (acct_ExternalAccountClaim account = "" ∨ acct_ExternalAccountClaim b ≠ acct_ExternalAccountClaim account).

Definition created (account : Account) : Account := {| account with acct_Revision := 1%Z |}.

Lemma has_value_none {V} (p : V → bool) m : map_Forall (λ _ v, p v = false) m → has_value p m = false.
Proof. intros Hm. apply has_value_false. intros k v Hk. by apply Hm in Hk. Qed.

Lemma spec_create_ok account m :
  m !! acct_ID account = None → map_Forall (λ _, unrelated account) m →
  spec_exec (CallCreateAccount account) (holding m) =
    (Ok (created account), holding (<[acct_ID account := created account]> m)).
Proof.
  intros Hid Hu. simpl. unfold spec_createAccount. simpl. rewrite Hid. simpl.
  rewrite has_value_none; [|intros k b Hb; apply bool_decide_eq_false; by apply Hu in Hb as [? ?]].
  case_bool_decide as Hc; simpl; [done|].
  rewrite has_value_none; [done|]. intros k b Hb. apply bool_decide_eq_false. apply Hu in Hb as [? [?|?]]; congruence.
Qed.

Lemma spec_create_conflict account m k b :
  m !! k = Some b →
  k = acct_ID account ∨ acct_KeyThumbprint b = acct_KeyThumbprint account ∨
  (acct_ExternalAccountClaim account ≠ "" ∧ acct_ExternalAccountClaim b = acct_ExternalAccountClaim account) →
  spec_exec (CallCreateAccount account) (holding m) = (Err ErrConflict, holding m).
Proof.
  intros Hk Hor. simpl. unfold spec_createAccount. simpl.
  assert (∀ p : Account → bool, p b = true → has_value p m = true) as Hhas
    by (intros p Hp; apply has_value_true; eauto).
  destruct Hor as [->|[Ht|[Hne Hc]]].
  - by rewrite Hk.
  - rewrite (Hhas (λ b, _ == _)), orb_true_r; [done|by apply bool_decide_eq_true].
  - rewrite (bool_decide_eq_false_2 _ Hne). simpl.
    rewrite (Hhas (λ b, acct_ExternalAccountClaim b == _)), orb_true_r; [done|by apply bool_decide_eq_true].
Qed.

Lemma spec_update_ok account m old :
  m !! acct_ID account = Some old → acct_Revision old = acct_Revision account →
  map_Forall (λ k b, acct_ID b = k ∧ (k = acct_ID account ∨ unrelated account b)) m →
  spec_exec (CallUpdateAccount account) (holding m) =
    (Ok (bump_account account), holding (<[acct_ID account := bump_account account]> m)).
Proof.
  intros Hold Hrev Hm. simpl. unfold spec_updateAccount, check_revision. simpl. rewrite Hold. simpl.
  rewrite bool_decide_eq_true_2 by done.
  rewrite has_value_none; simpl.
  2: { intros k b Hk. case_bool_decide; [done|]. apply bool_decide_eq_false.
       destruct (Hm k b Hk) as [Hid [?|[? _]]]; congruence. }
  case_bool_decide as Hc; simpl; [done|]. rewrite has_value_none; [done|]. intros k b Hk.
  case_bool_decide; [done|]. apply bool_decide_eq_false.
  destruct (Hm k b Hk) as [Hid [?|[_ [?|?]]]]; congruence.
Qed.

Lemma spec_update_conflict k account m old b :
  m !! acct_ID account = Some old → acct_Revision old = acct_Revision account →
  m !! k = Some b → acct_ID b ≠ acct_ID account →
  acct_KeyThumbprint b = acct_KeyThumbprint account ∨
  (acct_ExternalAccountClaim account ≠ "" ∧ acct_ExternalAccountClaim b = acct_ExternalAccountClaim account) →
  spec_exec (CallUpdateAccount account) (holding m) = (Err ErrConflict, holding m).
Proof.
  intros Hold Hrev Hk Hne Hor. simpl. unfold spec_updateAccount, check_revision. simpl. rewrite Hold. simpl.
  rewrite bool_decide_eq_true_2 by done.
  assert (∀ p : Account → bool, p b = true → has_value p m = true) as Hhas
    by (intros p Hp; apply has_value_true; eauto).
  destruct Hor as [Ht|[Hc0 Hc]].
  - rewrite Hhas; [done|]. by rewrite (bool_decide_eq_false_2 _ Hne), bool_decide_eq_true_2.
  - rewrite (bool_decide_eq_false_2 _ Hc0). simpl. rewrite (Hhas (λ b, _ && (acct_ExternalAccountClaim b == _))), orb_true_r; [done|].
    by rewrite (bool_decide_eq_false_2 _ Hne), bool_decide_eq_true_2.
Qed.

Lemma spec_update_stale account m old :
  m !! acct_ID account = Some old → acct_Revision old ≠ acct_Revision account →
  spec_exec (CallUpdateAccount account) (holding m) = (Err ErrRevisionMismatch, holding m).
Proof.
  intros Hold Hrev. simpl. unfold spec_updateAccount, check_revision. simpl. rewrite Hold. simpl.
  by rewrite bool_decide_eq_false_2.
Qed.

Lemma spec_byKey_ok k t m b :
  m !! k = Some b → acct_KeyThumbprint b = t →
  map_Forall (λ k' b', acct_KeyThumbprint b' = t → k' = k) m →
  spec_exec (CallAccountByKey t) (holding m) = (Ok b, holding m).
Proof.
  intros Hk Ht Hu. simpl. unfold lookup_result. simpl.
  erewrite find_value_unique; [done|exact Hk|by apply bool_decide_eq_true|].
  intros k' b' Hk' Ht'%bool_decide_eq_true. by eapply Hu.
Qed.

Lemma spec_byKey_missing t m :
  map_Forall (λ _ b, acct_KeyThumbprint b ≠ t) m →
  spec_exec (CallAccountByKey t) (holding m) = (Err ErrNotFound, holding m).
Proof.
  intros Hm. simpl. unfold lookup_result. simpl. destruct (find_value _ m) as [b|] eqn:E; [|done].
  apply find_value_Some in E as (k & Hk & Hb%bool_decide_eq_true). by destruct (Hm _ _ Hk).
Qed.

Lemma spec_account_ok id m b : m !! id = Some b → spec_exec (CallAccount id) (holding m) = (Ok b, holding m).
Proof. intros Hb. simpl. unfold lookup_result. simpl. by rewrite Hb. Qed.

Lemma spec_account_missing id m : m !! id = None → spec_exec (CallAccount id) (holding m) = (Err ErrNotFound, holding m).
Proof. intros Hb. simpl. unfold lookup_result. simpl. by rewrite Hb. Qed.

(** ** The tests of one account *)

(** Runs the part of a test up to its postcondition. *)
Ltac run_part := eapply evaluate_permitted; [vm_compute; reflexivity|by repeat constructor|]; cbn beta iota zeta.

Section seeded.
Context `{Platform} (key : PublicKey) (t : string) (keys : list PublicKey).
Context (Ht : Thumbprint key = Ok t) (Hne : t ≠ "").
Context (good : PublicKey → Prop) (Hgood : good key).

(** What is left of [seedOrder] after its account. *)
Definition seedRest : test suiteCall (Order * list Authorization * list Challenge) :=
  account ← must "CreateAccount: %v" (CallCreateAccount (generated "acct-1" key t));
  let '(order, authzs, challenges) := NewOrder (acct_ID account) "order-1" ["a.example"; "b.example"] in
  let order := {| order with ord_Profile := "tls-server" |} in
  must "CreateOrder: %v" (CallCreateOrder order authzs challenges).

Lemma evaluate_NewAccount n id :
  evaluate (S n) (NewAccount id) (AStore_empty, key :: keys) = Some (n, generated id key t, (AStore_empty, keys), []).
Proof. cbn. by rewrite Ht. Qed.

Lemma account_ends {A} n id (f : Account → test suiteCall A) :
  ends (S n) (NewAccount id ≫= f) (AStore_empty, key :: keys) = ends n (f (generated id key t)) (AStore_empty, keys).
Proof. unfold ends. rewrite evaluate_bind, evaluate_NewAccount. by destruct (evaluate n _ _) as [[]|]. Qed.

Lemma seed_ends {A} n (f : Order * list Authorization * list Challenge → test suiteCall A) :
  ends (S n) (seedOrder ≫= f) (AStore_empty, key :: keys) = ends n (seedRest ≫= f) (AStore_empty, keys).
Proof.
  unfold ends. rewrite !evaluate_bind. unfold seedOrder. rewrite evaluate_bind, evaluate_NewAccount.
  by destruct (evaluate n _ _) as [[[[]] ]|].
Qed.

Lemma seeded_start {A} n (f : Order * list Authorization * list Challenge → test suiteCall A) Q :
  permitted good n seedRest (λ m x, permitted good m (f x) Q) (AStore_empty, keys) →
  permitted good (S n) (seedOrder ≫= f) Q (AStore_empty, key :: keys).
Proof. intros Hf. apply permitted_bind, permitted_bind. by eapply permitted_NewAccount. Qed.

(** The single-account tests that compare no thumbprints are decided by running them. *)
Definition seededTests : list (test suiteCall unit) :=
  [testCreateOrder; testCreateOrderConflicts; testUpdateAuthorization; testAcceptChallenge; testClaimTask;
   testTaskCounts; testRetryValidation; testCompleteValidation; testFinalizeAndIssue;
   testIssuanceFailureAndDuplicate; testDispatchSnapshot; testRenewalLookup].

Lemma seeded_permitted : Forall (λ p, permitted good 99 p finished (AStore_empty, key :: keys)) seededTests.
Proof.
  unfold seededTests. repeat apply Forall_cons_2; [..|apply Forall_nil_2].
  all: eapply ends_permitted; [etrans; [apply seed_ends|]; unfold seedRest; clear Ht; (destruct t as [|c r]; [done|]); vm_compute; reflexivity|].
  all: by repeat constructor.
Qed.

(** Tests that start with an account of their own. *)
Definition accountTests : list (test suiteCall unit) :=
  [testUpdateMissing; testCopies; testCanceledContext; testOrderIDs; testAuthorizationScope; testPreApprovedScope].

Lemma account_permitted : Forall (λ p, permitted good 99 p finished (AStore_empty, key :: keys)) accountTests.
Proof.
  unfold accountTests. repeat apply Forall_cons_2; [..|apply Forall_nil_2].
  all: eapply ends_permitted; [etrans; [apply account_ends|]; clear Ht; (destruct t as [|c r]; [done|]); vm_compute; reflexivity|].
  all: by repeat constructor.
Qed.

Lemma notFound_permitted : permitted good 99 testNotFound finished (AStore_empty, key :: keys).
Proof. eapply ends_permitted; [vm_compute; reflexivity|constructor]. Qed.

Lemma replacementClaim_permitted : permitted good 99 testReplacementClaim finished (AStore_empty, key :: keys).
Proof.
  eapply ends_permitted.
  - unfold testReplacementClaim, seedCertificate, seedOrder, ends. rewrite !evaluate_bind, evaluate_NewAccount. clear Ht.
    destruct t as [|c r]; [done|]. vm_compute. reflexivity.
  - by repeat constructor.
Qed.

Lemma concurrentClaim_permitted : permitted good 99 testConcurrentClaim finished (AStore_empty, key :: keys).
Proof.
  apply seeded_start. unfold seedRest. clear Ht. destruct t as [|c r]; [done|]. run_part. apply permitted_bind. run_part.
  apply permitted_bind. split; [simpl; lia|]. split; [apply along_always; by repeat constructor|]. intros xs w' Hr.
  apply raced_equal in Hr.
  cbn [permitted]. apply permitted_bind. erewrite (countClaims_perm xs); [|exact Hr|vm_compute; reflexivity].
  vm_compute. done.
Qed.

Lemma concurrentReplacement_permitted :
  permitted good 99 testConcurrentReplacement finished (AStore_empty, key :: keys).
Proof.
  apply permitted_bind, seeded_start. unfold seedRest. clear Ht. destruct t as [|c r]; [done|]. run_part. run_part.
  apply permitted_bind. split; [simpl; lia|]. split.
  { apply (along_once good IsAlreadyReplaced); [apply NoDup_seq|vm_compute; reflexivity|vm_compute; reflexivity|done]. }
  intros xs w' Hr.
  apply (raced_once IsAlreadyReplaced) in Hr as (x & ys & Hxs & Hys); [|done|apply NoDup_seq|vm_compute; reflexivity].
  cbn [permitted]. apply permitted_bind. by rewrite (countCreated_once _ _ _ _ _ Hxs Hys).
Qed.

End seeded.

(** ** The tests that compare keys *)

(** Takes one step of a test; the side conditions of the call are left to the caller. *)
Ltac new_account := apply permitted_bind; eapply permitted_NewAccount; [eassumption|]; cbn beta zeta.
Ltac legal_call := unfold careful; cbn; rewrite ?bool_decide_eq_false_2 by done; done.
Ltac must_ok L := apply permitted_bind; eapply permitted_must; [legal_call|cbn; by repeat constructor|eapply L|cbn beta zeta].
Ltac refused_by L := apply permitted_bind; eapply permitted_refuses; [legal_call|cbn; by repeat constructor|eapply L|done|cbn beta zeta].

Section accounts.
Context `{Platform} (k0 k1 k2 k3 k4 : PublicKey) (t0 t1 t2 t3 t4 : string) (keys : list PublicKey).
Context (Ht0 : Thumbprint k0 = Ok t0) (Ht1 : Thumbprint k1 = Ok t1) (Ht2 : Thumbprint k2 = Ok t2).
Context (Ht3 : Thumbprint k3 = Ok t3) (Ht4 : Thumbprint k4 = Ok t4).
Context (Hne0 : t0 ≠ "") (Hne1 : t1 ≠ "") (Hne2 : t2 ≠ "") (Hne3 : t3 ≠ "") (Hne4 : t4 ≠ "").
Context (Hdistinct : NoDup [t0; t1; t2; t3; t4]).
Context (good : PublicKey → Prop) (Hg0 : good k0) (Hg1 : good k1) (Hg2 : good k2) (Hg3 : good k3) (Hg4 : good k4).
Context (Hm0 : is_Ok (x509_MarshalPKIXPublicKey k0) = true).


Lemma distinct : (t0 ≠ t1 ∧ t0 ≠ t2 ∧ t0 ≠ t3 ∧ t0 ≠ t4) ∧ (t1 ≠ t2 ∧ t2 ≠ t3 ∧ t2 ≠ t4 ∧ t3 ≠ t4).
Proof. rewrite !NoDup_cons in Hdistinct. set_solver. Qed.

(** Splits a condition on all stored accounts. *)
Ltac each_account :=
  repeat apply map_Forall_insert_2; try apply map_Forall_empty; cbn; unfold unrelated; cbn;
  repeat split; first [done|congruence|by left|by right|right; split; [congruence|by left]].

Lemma createAndRead_permitted : permitted good 99 testCreateAndRead finished (AStore_empty, k0 :: keys).
Proof.
  new_account. change AStore_empty with (holding ∅). must_ok spec_create_ok; [done|done|].
  apply permitted_bind, permitted_fatalIf; [done|].
  must_ok spec_account_ok; [done|]. apply permitted_bind, permitted_assertAccountEqual; [done|].
  must_ok (spec_byKey_ok "acct-1"); [done|done|each_account|by apply permitted_assertAccountEqual].
Qed.

Lemma update_permitted : permitted good 99 testUpdate finished (AStore_empty, k0 :: keys).
Proof.
  new_account. change AStore_empty with (holding ∅). must_ok spec_create_ok; [done|done|].
  must_ok spec_update_ok; [done|done|each_account|].
  apply permitted_bind, permitted_fatalIf; [done|].
  must_ok spec_account_ok; [apply lookup_insert_eq|]. by apply permitted_assertAccountEqual.
Qed.

Lemma updateStale_permitted : permitted good 99 testUpdateStale finished (AStore_empty, k0 :: keys).
Proof.
  new_account. change AStore_empty with (holding ∅). must_ok spec_create_ok; [done|done|].
  must_ok spec_account_ok; [done|]. must_ok spec_update_ok; [done|done|each_account|].
  refused_by spec_update_stale; [done|done|].
  must_ok spec_account_ok; [apply lookup_insert_eq|]. by apply permitted_assertAccountEqual.
Qed.

Lemma createConflicts_permitted : permitted good 99 testCreateConflicts finished (AStore_empty, k0 :: k1 :: k2 :: keys).
Proof.
  new_account. change AStore_empty with (holding ∅). must_ok spec_create_ok; [done|done|].
  new_account. refused_by spec_create_conflict; [apply lookup_insert_eq|by left|].
  new_account. refused_by spec_create_conflict; [apply lookup_insert_eq|by right; left|].
  refused_by spec_account_missing; [done|].
  must_ok (spec_byKey_ok "acct-1"); [done|done|each_account|by apply permitted_fatalIf].
Qed.

Lemma externalAccountClaims_permitted :
  permitted good 99 testExternalAccountClaims finished (AStore_empty, k0 :: k1 :: k2 :: k3 :: k4 :: keys).
Proof.
  destruct distinct as [(? & ? & ? & ?) (? & ? & ? & ?)].
  new_account. change AStore_empty with (holding ∅). must_ok spec_create_ok; [done|done|].
  new_account. refused_by spec_create_conflict; [apply lookup_insert_eq|by right; right|].
  refused_by spec_account_missing; [done|]. refused_by spec_byKey_missing; [each_account|].
  apply permitted_bind, permitted_bind. new_account.
  must_ok spec_create_ok; [done|each_account|]. cbn [permitted].
  apply permitted_bind. new_account.
  must_ok spec_create_ok; [done|each_account|]. cbn [permitted forEach].
  must_ok spec_account_ok; [done|]. apply permitted_bind, permitted_fatalIf; [done|].
  new_account. must_ok spec_create_ok; [done|each_account|].
  refused_by (spec_update_conflict "acct-1"); [done|done|done|done|by right|].
  must_ok spec_account_ok; [done|]. by apply permitted_fatalIf.
Qed.

Lemma updateKey_permitted : permitted good 99 testUpdateKey finished (AStore_empty, k0 :: k1 :: k2 :: keys).
Proof.
  destruct distinct as [(? & ? & ? & ?) (? & ? & ? & ?)].
  new_account. new_account. change AStore_empty with (holding ∅). must_ok spec_create_ok; [done|done|].
  must_ok spec_create_ok; [done|each_account|].
  refused_by (spec_update_conflict "acct-2"); [done|done|done|done|by left|].
  new_account. must_ok spec_update_ok; [done|done|each_account|].
  rewrite insert_insert_ne, insert_insert_eq by done.
  must_ok (spec_byKey_ok "acct-1"); [done|done|each_account|].
  apply permitted_bind, permitted_fatalIf; [done|].
  refused_by spec_byKey_missing; [each_account|].
  must_ok (spec_byKey_ok "acct-2"); [done|done|each_account|].
  by apply permitted_fatalIf.
Qed.

Lemma concurrentCreate_permitted : permitted good 99 testConcurrentCreate finished (AStore_empty, k0 :: keys).
Proof.
  new_account. change AStore_empty with (holding ∅). apply permitted_bind. split; [simpl; lia|]. split.
  { apply along_always, Forall_fmap, Forall_forall. intros i _ a. split; [legal_call|by repeat constructor]. }
  intros xs w' Hr. cbn [permitted].
  apply (raced_once IsConflict) in Hr as (x & ys & Hxs & Hys); [|done|apply NoDup_seq|].
  - apply permitted_bind. by rewrite (countCreated_once _ _ _ _ _ Hxs Hys).
  - apply forallb_forall. intros i _. rewrite spec_create_ok by done.
    apply forallb_forall. intros j _. erewrite spec_create_conflict; [|apply lookup_insert_eq|by right; left].
    by rewrite orb_true_r.
Qed.

End accounts.

(** ** The whole suite *)

Section whole.
Context `{Platform}.

Definition thumbprintOf (key : PublicKey) : option string :=
  match Thumbprint key with Ok t => Some t | Err _ => None end.

(** A key with a thumbprint and an encoding. *)
Definition usable (key : PublicKey) : bool :=
  match Thumbprint key with
  | Ok t => (t != "") && is_Ok (x509_MarshalPKIXPublicKey key)
  | Err _ => false
  end.

(** Keys as [ecdsa.GenerateKey] delivers them: usable and with distinct thumbprints. *)
Definition freshKeys (keys : list PublicKey) : Prop :=
  forallb usable keys = true ∧ NoDup (omap thumbprintOf keys).

Lemma freshKeys_cons key keys :
  freshKeys (key :: keys) →
  ∃ t, Thumbprint key = Ok t ∧ t ≠ "" ∧ is_Ok (x509_MarshalPKIXPublicKey key) = true ∧
    omap thumbprintOf (key :: keys) = t :: omap thumbprintOf keys ∧ freshKeys keys.
Proof.
  unfold freshKeys. simpl. intros [[Hkey Hkeys]%andb_true_iff Hnodup].
  unfold usable, thumbprintOf in *. destruct (Thumbprint key) as [t|]; [|done].
  apply andb_true_iff in Hkey as [Ht%negb_bool_decide_true Hm].
  exists t. split_and!; try done. by apply NoDup_cons in Hnodup as [_ ?].
Qed.

#[local] Opaque testCreateAndRead testNotFound testCreateConflicts testExternalAccountClaims testUpdate testUpdateStale.
#[local] Opaque testUpdateMissing testUpdateKey testCopies testConcurrentCreate testCanceledContext testCreateOrder.
#[local] Opaque testCreateOrderConflicts testOrderIDs testUpdateAuthorization testAcceptChallenge testClaimTask.
#[local] Opaque testConcurrentClaim testTaskCounts testRetryValidation testCompleteValidation testFinalizeAndIssue.
#[local] Opaque testIssuanceFailureAndDuplicate testDispatchSnapshot testAuthorizationScope testPreApprovedScope.
#[local] Opaque testRenewalLookup testReplacementClaim testConcurrentReplacement permitted.

(** The tests that compare keys or start goroutines. *)
Definition keyTests : list (test suiteCall unit) :=
  [testCreateAndRead; testCreateConflicts; testExternalAccountClaims; testUpdate; testUpdateStale; testUpdateKey;
   testConcurrentCreate; testNotFound; testConcurrentClaim; testReplacementClaim; testConcurrentReplacement].

Ltac listed := solve [repeat first [apply list_elem_of_here|apply list_elem_of_further]].

Lemma suite_permitted (good : PublicKey → Prop) keys :
  freshKeys keys → Forall good keys → (5 ≤ length keys)%nat →
  Forall (λ p, permitted good 99 p.2 finished (AStore_empty, keys)) Run.
Proof.
  intros Hkeys Hgood Hlen. pose proof Hkeys as [_ Hnodup].
  do 5 (destruct keys as [|? keys]; [simpl in Hlen; lia|];
    apply freshKeys_cons in Hkeys as (? & ? & ? & ? & Heq & Hkeys); rewrite Heq in Hnodup; clear Heq; apply Forall_cons in Hgood as [? Hgood]).
  change (NoDup ([x; x0; x1; x2; x3] ++ omap thumbprintOf keys)) in Hnodup. apply NoDup_app in Hnodup as [Hnodup _].
  set (rest := p0 :: p1 :: p2 :: p3 :: keys).
  assert (∀ q, q ∈ seededTests ++ accountTests → permitted good 99 q finished (AStore_empty, p :: rest)) as Hin.
  { apply Forall_forall, Forall_app. split; [by eapply seeded_permitted|by eapply account_permitted]. }
  assert (∀ q, q ∈ keyTests → permitted good 99 q finished (AStore_empty, p :: rest)) as Hin'.
  { apply Forall_forall. repeat apply Forall_cons_2; [..|apply Forall_nil_2].
    - by eapply createAndRead_permitted.
    - by eapply createConflicts_permitted.
    - by eapply externalAccountClaims_permitted.
    - by eapply update_permitted.
    - by eapply updateStale_permitted.
    - by eapply (updateKey_permitted _ _ _ p2 p3).
    - by eapply concurrentCreate_permitted.
    - by apply notFound_permitted.
    - by eapply concurrentClaim_permitted.
    - by eapply replacementClaim_permitted.
    - by eapply concurrentReplacement_permitted. }
  unfold Run. repeat apply Forall_cons_2; try apply Forall_nil_2; cbn [snd].
  all: first [apply Hin; listed|apply Hin'; listed].
Qed.

End whole.

(** C11. Every store that meets the contract passes the conformance suite: on a store that represents
    the empty abstract store and has room for a hundred calls, with keys it can store that have
    distinct thumbprints, every test of the suite ends without a failure in every order in which the calls of its
    goroutines take effect. *)
Theorem conformance_suite `{Platform} {S : Type} `{StoreCapacity S} (open : S) (keys : list PublicKey) :
  store_rel open AStore_empty → store_capacity 99 open → freshKeys keys → Forall (store_key (S := S)) keys →
  (5 ≤ length keys)%nat →
  Forall (λ p, passes suite_exec p.2 (λ _ _, True) (open, keys)) Run.
Proof.
  intros R Hcap Hkeys Hgood Hlen. eapply Forall_impl; [by eapply suite_permitted|]. intros [name p] Hp. simpl in *.
  eapply passes_conseq; [|eapply (permitted_passes 99); [|exact Hp]; done]. done.
Qed.

(** ** The in-memory store *)

Definition numbersLeft (n : nat) (s : Store) : Prop :=
  (0 ≤ st_taskSequence s)%Z ∧ (st_taskSequence s + Z.of_nat n < 2 ^ 64)%Z.

Lemma numbersLeft_room n s : numbersLeft (S n) s → store_room s.
Proof. intros [H0 Hn]. cbn [store_room mem_store_spec]. lia. Qed.

Lemma numbersLeft_exec n s (a : AStore) X (c : storeCall X) ctx :
  store_rel s a → numbersLeft (S n) s → (ctx = None → store_legal (S := Store) c a) → numbersLeft n (store_exec c ctx s).2.
Proof.
  intros _ [H0 Hn] _. destruct (mem_exec_sequence c ctx s) as [? ?]; [lia|lia|].
  change (store_exec c ctx s) with (mem_exec c ctx s). split; lia.
Qed.

#[export] Instance mem_capacity : StoreCapacity Store := {
  store_capacity := numbersLeft;
  store_key _ := True;
  capacity_room := numbersLeft_room;
  capacity_exec := numbersLeft_exec;
  careful_calls X c a Hc _ := careful_legal c a Hc
}.

Definition suiteKeys : list PublicKey := map (λ i, KeyECDSA P256 7 (Z.of_nat i)) (seq 1 5).

Lemma conformance_suite_witness :
  freshKeys suiteKeys ∧ Forall (λ p, passes suite_exec p.2 (λ _ _, True) (Memstore.New, suiteKeys)) Run.
Proof.
  assert (freshKeys suiteKeys) as Hkeys.
  { split; [vm_compute; reflexivity|]. apply (bool_decide_unpack _). vm_compute. exact I. }
  split; [exact Hkeys|]. apply (conformance_suite Memstore.New suiteKeys).
  - exact mem_rel_New.
  - split; [apply Z.le_refl|reflexivity].
  - exact Hkeys.
  - by repeat constructor.
  - apply le_n.
Defined.

(** ** The SQLite store *)

Section sqlite.
Context `{Platform} `{Gob} `{!GobLaws}.

Lemma sqlite_capacity_exec n t a X (c : storeCall X) ctx :
  store_rel t a → sql_capacity (S n) t → (ctx = None → store_legal (S := Tables) c a) → sql_capacity n (store_exec c ctx t).2.
Proof.
  intros R C Hl. destruct ctx as [err|]; [|exact (sql_capacity_exec n t a X c R C (Hl eq_refl))].
  change (store_exec c (Some err) t) with (sqlite_run (Some err) (sqlite_method c) t). rewrite sqlite_ended_tables.
  by apply sql_capacity_less.
Qed.

#[export] Instance sqlite_capacity : StoreCapacity Tables := {
  store_capacity := sql_capacity;
  store_key key := portable key = true;
  capacity_room := sql_capacity_room;
  capacity_exec := sqlite_capacity_exec;
  careful_calls X c a := careful_sqlite c a
}.

(** C12. The SQLite store passes the conformance suite on a new database, with any keys that come back
    from their encoding and have distinct thumbprints, in every order in which the calls of the
    goroutines take effect. Of [encoding/gob] it takes that structs without nil subproblems decode to
    what was encoded. *)
Theorem sqlite_conformance (keys : list PublicKey) :
  freshKeys keys → Forall (λ key, portable key = true) keys → (5 ≤ length keys)%nat →
  Forall (λ p, passes suite_exec p.2 (λ _ _, True) (Tables_empty, keys)) Run.
Proof.
  intros Hkeys Hgood Hlen. eapply Forall_impl; [by apply (suite_permitted (store_key (S := Tables)))|].
  intros [name p] Hp. eapply passes_conseq; [|eapply (permitted_passes 99); [|exact Hp]]; [done|].
  split_and!; [apply sql_rel_empty|by apply sql_capacity_empty|done].
Qed.

End sqlite.

Definition ed25519Keys : list PublicKey := map (λ b, KeyEd25519 (replicate 31 x00 ++ [b])) [x01; x02; x03; x04; x05].

Lemma sqlite_conformance_witness :
  freshKeys (H := Concurrent.platform) ed25519Keys ∧
  Forall (λ p, passes (suite_exec (H := sqlite_store (H := Concurrent.platform) (H0 := Concurrent.gob))) p.2 (λ _ _, True)
                 (Tables_empty, ed25519Keys)) (Run (H := Concurrent.platform)).
Proof.
  assert (freshKeys (H := Concurrent.platform) ed25519Keys) as Hkeys.
  { split; [vm_compute; reflexivity|]. apply (bool_decide_unpack _). vm_compute. exact I. }
  split; [exact Hkeys|]. apply (sqlite_conformance (H1 := Concurrent.gob_laws)); [exact Hkeys| |apply le_n].
  apply (bool_decide_unpack _). vm_compute. exact I.
Defined.
