(* ===== verification/Noncetest.v ===== *)
(** * Conformance tests of a nonce manager (src/noncetest/noncetest.go)

    The suite that checks an implementation of the nonce interface against the replay protection
    contract. A test calls one manager, or two that share their nonces as replicas of one server
    do. *)

From S2P Require Import Prelude Status Problem Base64 Testing.

(** The replicas of a shared manager; a test of one manager uses the first for both. *)
Inductive replica : Type :=
| ReplicaA
| ReplicaB.

Inductive nonceCall : Type → Type :=
| IssueOn (m : replica) (ctx : Ctx) : nonceCall (Res string)
| ConsumeOn (m : replica) (ctx : Ctx) (value : string) : nonceCall (Res bool).

Notation Test := (test nonceCall) (only parsing).

(** The pattern [^[A-Za-z0-9_-]+$] of RFC 8555 section 6.5.1. *)
Definition urlByte (c : Byte.byte) : bool :=
  let b := bz c in
  ((65 <=? b) && (b <=? 90) || (97 <=? b) && (b <=? 122) || (48 <=? b) && (b <=? 57) ||
   (b =? 95) || (b =? 45))%Z.

Definition base64url (value : string) : bool := (value != "") && forallb urlByte (string_bytes value).

(** Issues a nonce and fails the test on error. *)
Definition issue (m : replica) : Test string :=
  r ← Do (IssueOn m None) Done;
  match r with
  | Ok value => Done value
  | Err _ => Fatal "Issue: %v"
  end.

(** Consumes a nonce and fails the test on error. *)
Definition consume (m : replica) (value : string) : Test bool :=
  r ← Do (ConsumeOn m None value) Done;
  match r with
  | Ok ok => Done ok
  | Err _ => Fatal "Consume: %v"
  end.

(** Checks that a nonce is non-empty base64url, which clients copy into the JWS header. *)
Definition testIssueFormat (m : replica) : Test unit :=
  value ← issue m;
  fatalIf (negb (base64url value)) "Issue returned %q, want base64url without padding".

(** Checks that outstanding nonces never repeat: the loop over the remaining rounds. *)
Fixpoint issueUnique (m : replica) (rounds : nat) (seen : list string) : Test unit :=
  match rounds with
  | O => Done tt
  | S rounds =>
      value ← issue m;
      fatalIf (bool_decide (value ∈ seen)) "Issue returned %q twice" ;;
      issueUnique m rounds (value :: seen)
  end.

Definition testIssueUnique (m : replica) : Test unit := issueUnique m 1000 [].

(** Checks that a nonce is valid exactly once. *)
Definition testConsumeOnce (m : replica) : Test unit :=
  value ← issue m;
  ok ← consume m value;
  fatalIf (negb ok) "a fresh nonce was not valid" ;;
  ok ← consume m value;
  fatalIf ok "a consumed nonce was valid again".

(** Checks that values the manager never issued are invalid rather than errors. *)
Definition testUnknown (m : replica) : Test unit :=
  issued ← issue m;
  forEach (λ value,
    ok ← consume m value;
    fatalIf ok "Consume(%.20q) reported a nonce that was never issued as valid")
    [""; "AAAAAAAAAAAAAAAAAAAAAA"; issued +:+ "x"; "not base64url!"; bytes_string (replicate 4096 x00)] ;;
  ok ← consume m issued;
  fatalIf (negb ok) "consuming unknown values invalidated an issued nonce".

(** Counts the attempts that reported the nonce as valid. *)
Fixpoint countValid (results : list (Res bool)) (valid : Z) : Test Z :=
  match results with
  | [] => Done valid
  | Err _ :: _ => Fatal "Consume: %v"
  | Ok ok :: results => countValid results (if ok then valid + 1 else valid)%Z
  end.

(** Checks that concurrent requests carrying one nonce succeed exactly once, split over two managers. *)
Definition testConcurrentConsume (a b : replica) : Test unit :=
  let attempts := 16%nat in
  forEach (λ _ : nat,
    value ← issue a;
    results ← Race (map (λ i, ConsumeOn (if (i `mod` 2 == 1)%nat then b else a) None value) (seq 0 attempts)) Done;
    valid ← countValid results 0;
    fatalIf (valid != 1%Z) "%d concurrent requests accepted one nonce, want exactly 1")
    (seq 0 20).

(** Checks that a canceled request neither issues a nonce nor reports one as valid. *)
Definition testCanceledContext (m : replica) : Test unit :=
  value ← issue m;
  let ctx := Some (ErrContext "context canceled") in
  issued ← Do (IssueOn m ctx) Done;
  fatalIf (is_Ok issued) "Issue with a canceled context returned %q and no error" ;;
  ok ← Do (ConsumeOn m ctx value) Done;
  fatalIf match ok with Ok ok => ok | Err _ => false end
    "Consume with a canceled context reported the nonce as valid".

(** Checks that a nonce issued by one replica is valid exactly once on another. *)
Definition testCrossReplica (a b : replica) : Test unit :=
  value ← issue a;
  ok ← consume b value;
  fatalIf (negb ok) "a nonce issued by one replica was not valid on the other" ;;
  ok ← consume a value;
  fatalIf ok "a nonce consumed on one replica was valid again on the replica that issued it" ;;
  value ← issue b;
  ok ← consume a value;
  fatalIf (negb ok) "a nonce issued by the second replica was not valid on the first".

(** The contract suite: every test runs on a fresh manager. *)
Definition Run : list (string * Test unit) :=
  [("IssueFormat", testIssueFormat ReplicaA);
   ("IssueUnique", testIssueUnique ReplicaA);
   ("ConsumeOnce", testConsumeOnce ReplicaA);
   ("UnknownNonce", testUnknown ReplicaA);
   ("ConcurrentConsume", testConcurrentConsume ReplicaA ReplicaA);
   ("CanceledContext", testCanceledContext ReplicaA)].

(** The checks for managers that share nonces between replicas. *)
Definition RunShared : list (string * Test unit) :=
  [("ConsumeOnOtherReplica", testCrossReplica ReplicaA ReplicaB);
   ("ConcurrentConsumeAcrossReplicas", testConcurrentConsume ReplicaA ReplicaB)].
