(* ===== verification/NoncetestProps.v ===== *)
(** * The nonce manager passes its conformance suite

    A test runs on a manager of package nonce with the default options; both replicas are this
    manager. Each call reads the clock and the random source once, and what it reads is part of the
    environment of the test. *)

From S2P Require Import Prelude Status Problem Base64 Nonce NonceProps Testing Noncetest.

(** What the calls of a test read: the time, and the 16 bytes of the random source. *)
Definition environment : Type := list (Time * bytes).

Definition nonce_exec (X : Type) (c : nonceCall X) (w : Manager * environment)
    : X * (Manager * environment) :=
  let now := default zeroTime (fst <$> head w.2) in
  let reads := option_list (Ok ∘ snd <$> head w.2) in
  match c with
  | IssueOn _ ctx => let (r, m) := Issue ctx now reads w.1 in (r, (m, tail w.2))
  | ConsumeOn _ ctx value => let (r, m) := Consume ctx value now w.1 in (r, (m, tail w.2))
  end.

(** The nonce the bytes of a call encode. *)
Definition nonceOf (e : Time * bytes) : string := encode e.2.

(** The environment of one test: less time passes than a nonce lives, and the random source
    delivers distinct values of 16 bytes, not all zero. *)
Record calm (start : Time) (env : environment) : Prop := mkCalm {
  calm_time : Forall (λ e, start ≤ e.1 < start + DefaultTTL)%Z env;
  calm_fresh : NoDup (map snd env);
  calm_bytes : Forall (λ e, length e.2 = 16%nat ∧ e.2 ≠ replicate 16 x00) env;
  calm_length : (Z.of_nat (length env) < 50000)%Z
}.

(** The state between two calls of a test: no nonce is expired, none is evicted and the random
    source delivers none that was issued before. *)
Record ready (start : Time) (m : Manager) (env : environment) : Prop := mkReady {
  ready_wf : wf m;
  ready_ttl : m_ttl m = DefaultTTL;
  ready_capacity : m_capacity m = DefaultCapacity;
  ready_room : (Len m + Z.of_nat (length env) < 50001)%Z;
  ready_live : ∀ v t, m_live m !! v = Some t → (start + DefaultTTL ≤ t)%Z ∧ v ∉ map nonceOf env;
  ready_env : calm start env
}.

Lemma encode_inj b c : encode b = encode c → b = c.
Proof. intros Heq. pose proof (decode_encode b) as Hb. rewrite Heq, decode_encode in Hb. congruence. Qed.

Lemma calm_tail start e env : calm start (e :: env) → calm start env ∧ nonceOf e ∉ map nonceOf env.
Proof.
  intros [Ht Hf Hb Hl]. apply Forall_cons in Ht as [_ Ht], Hb as [_ Hb]. cbn in Hf. apply NoDup_cons in Hf as [Hn Hf].
  split; [split; [done|done|done|simpl in Hl; lia]|]. intros Hin. apply Hn.
  apply list_elem_of_fmap in Hin as (e' & Heq%encode_inj & Hin). rewrite Heq. by apply list_elem_of_fmap_2.
Qed.

(** ** One call *)

Lemma purgeLoop_unexpired now live rest :
  (∀ v t, live !! v = Some t → (now < t)%Z) → (purgeLoop now live rest).1 = live.
Proof.
  intros Hlive. revert live Hlive. induction rest as [|e rest IH]; intros live Hlive; simpl; [done|].
  destruct (live !! e_value e) as [t|] eqn:He.
  - by rewrite (proj2 (Before_true now t) (Hlive _ _ He)).
  - rewrite delete_id by done. specialize (IH live Hlive). by destruct (purgeLoop now live rest).
Qed.

Lemma prepared_unexpired now m :
  (∀ v t, m_live m !! v = Some t → (now < t)%Z) → (Len m < m_capacity m)%Z →
  prepared now m = purge now m ∧ m_live (purge now m) = m_live m.
Proof.
  intros Hlive Hlen.
  assert (m_live (purge now m) = m_live m ∧ m_capacity (purge now m) = m_capacity m) as [Hl Hc].
  { unfold purge. pose proof (purgeLoop_unexpired now (m_live m) (drop (m_head m) (m_queue m)) Hlive) as Hp.
    destruct (purgeLoop _ _ _) as [live n]. rewrite compact_live, compact_capacity. done. }
  split; [|done]. unfold prepared. destruct (_ - _)%nat; cbn [evictSurplus]; unfold Len; rewrite Hl, Hc.
  all: by rewrite (proj2 (Z.leb_gt _ _)) by exact Hlen.
Qed.

Section calls.
Context (start : Time).

Lemma issue_ready m r e env :
  ready start m (e :: env) →
  ∃ m', nonce_exec _ (IssueOn r None) (m, e :: env) = (Ok (nonceOf e), (m', env)) ∧ ready start m' env ∧
    m_live m' = <[nonceOf e := (e.1 + DefaultTTL)%Z]> (m_live m) ∧ m_live m !! nonceOf e = None.
Proof.
  intros [Hwf Httl Hcap Hroom Hlive Hcalm]. pose proof (calm_tail _ _ _ Hcalm) as [Hcalm' Hnew].
  pose proof (calm_time _ _ Hcalm) as [Ht _]%Forall_cons. simpl in Hroom. unfold DefaultCapacity in *.
  assert (m_live m !! nonceOf e = None) as Hnone.
  { destruct (m_live m !! nonceOf e) eqn:Hv; [|done]. apply Hlive in Hv as [_ Hv]. destruct Hv. by left. }
  destruct (prepared_unexpired e.1 m) as [Hprep Hl].
  { intros v t Hv. apply Hlive in Hv as [? _]. lia. }
  { rewrite Hcap. lia. }
  pose proof (wf_prepared e.1 m Hwf) as [Hwf' Hlt]. pose proof (prepared_ttl e.1 m) as Httl'.
  assert (m_capacity (prepared e.1 m) = m_capacity m) as Hcap'.
  { rewrite Hprep. unfold purge. destruct (purgeLoop _ _ _). by rewrite compact_capacity. }
  change (nonce_exec _ (IssueOn r None) (m, e :: env)) with
    (let (r, m) := Issue None e.1 [Ok e.2] m in (r, (m, env))).
  rewrite Issue_prepared. change (draw ?l [Ok e.2]) with
    (if bool_decide (is_Some (l !! nonceOf e)) then Err (ErrMsg "EOF") else Ok (nonceOf e)).
  rewrite Hprep in Hwf', Hlt, Httl', Hcap' |- *. rewrite Hl, Hnone. cbn. eexists. split; [done|].
  rewrite Httl', Httl. split; [|done]. split; simpl; try done.
  - rewrite <- Hl in Hnone |- *. pose proof (wf_issue _ _ (e.1 + DefaultTTL)%Z Hwf' Hlt Hnone) as Hw.
    by rewrite Httl', Httl in Hw.
  - unfold DefaultCapacity. congruence.
  - unfold Len in *. simpl. rewrite map_size_insert_None by done. lia.
  - intros v t [[<- <-]|[_ Hv]]%lookup_insert_Some; [split; [lia|done]|].
    apply Hlive in Hv as [? Hv]. split; [done|]. cbn in Hv. set_solver.
Qed.

Lemma consume_ready m r v env :
  ready start m env → env ≠ [] →
  ∃ m', nonce_exec _ (ConsumeOn r None v) (m, env) = (Ok (bool_decide (is_Some (m_live m !! v))), (m', tail env)) ∧
    ready start m' (tail env) ∧ m_live m' = delete v (m_live m).
Proof.
  intros [Hwf Httl Hcap Hroom Hlive Hcalm] Hne. destruct env as [|e env]; [done|]. simpl in Hroom.
  pose proof (calm_tail _ _ _ Hcalm) as [Hcalm' _]. pose proof (calm_time _ _ Hcalm) as [Ht _]%Forall_cons.
  assert (∀ m', m' = {| m with m_live := delete v (m_live m) |} → ready start m' env) as Hready.
  { intros m' ->. split; simpl; [by apply wf_consume|done|done| | |done].
    - unfold Len in *. simpl. pose proof (map_subseteq_size _ _ (delete_subseteq (m_live m) v)). lia.
    - intros v' t [_ Hv]%lookup_delete_Some. apply Hlive in Hv as [? Hv]. split; [done|]. cbn in Hv. set_solver. }
  unfold nonce_exec. simpl. destruct (m_live m !! v) as [t|] eqn:Hv.
  - eexists. split; [|split; [by apply Hready|done]]. rewrite (proj2 (Before_true e.1 t)); [done|].
    apply Hlive in Hv as [? _]. lia.
  - exists m. rewrite delete_id by done. split; [done|]. split; [|done]. apply Hready.
    rewrite delete_id by done. by destruct m.
Qed.

(** ** Steps of a test *)

Lemma passes_issue r Q m env :
  ready start m env → env ≠ [] →
  (∀ e env' m', env = e :: env' → ready start m' env' →
    m_live m' = <[nonceOf e := (e.1 + DefaultTTL)%Z]> (m_live m) → Q (nonceOf e) (m', env')) →
  passes nonce_exec (issue r) Q (m, env).
Proof.
  intros Hm Hne HQ. destruct env as [|e env]; [done|].
  destruct (issue_ready m r e env Hm) as (m' & He & Hm' & Hl & _). unfold issue.
  change (passes _ _ _ _) with (let (x, w) := nonce_exec _ (IssueOn r None) (m, e :: env) in
    passes nonce_exec match x with Ok value => Done value | Err _ => Fatal "Issue: %v" end Q w).
  rewrite He. by apply HQ.
Qed.

Lemma passes_consume r v Q m env :
  ready start m env → env ≠ [] →
  (∀ m', ready start m' (tail env) → m_live m' = delete v (m_live m) →
    Q (bool_decide (is_Some (m_live m !! v))) (m', tail env)) →
  passes nonce_exec (consume r v) Q (m, env).
Proof.
  intros Hm Hne HQ. destruct (consume_ready m r v env Hm Hne) as (m' & He & Hm' & Hl).
  change (passes _ _ _ _) with (let (x, w) := nonce_exec _ (ConsumeOn r None v) (m, env) in
    passes nonce_exec match x with Ok ok => Done ok | Err _ => Fatal "Consume: %v" end Q w).
  rewrite He. by apply HQ.
Qed.

Lemma passes_fatalIf b msg (Q : unit → Manager * environment → Prop) w :
  b = false → Q tt w → passes nonce_exec (fatalIf b msg) Q w.
Proof. by intros ->. Qed.

(** Every order of the attempts accepts a live nonce once. *)
Lemma linear_consume v l m env w' :
  ready start m env → (length l ≤ length env)%nat →
  Forall (λ e : nonceCall (Res bool) * Res bool, ∃ r, e.1 = ConsumeOn r None v) l →
  linear nonce_exec l (m, env) w' →
  (∃ m', w' = (m', drop (length l) env) ∧ ready start m' (drop (length l) env)) ∧
  l.*2 = match l with
         | [] => []
         | _ :: l => Ok (bool_decide (is_Some (m_live m !! v))) :: replicate (length l) (Ok false)
         end.
Proof.
  revert m env. induction l as [|[c x] l IH]; intros m env Hm Hlen Hl; [intros ->; split; [by exists m|done]|].
  apply Forall_cons in Hl as [[r Hc] Hl]. simpl in Hc. subst c. intros [Hx Hlin].
  destruct env as [|e env]; [simpl in Hlen; lia|].
  destruct (consume_ready m r v (e :: env) Hm) as (m' & He & Hm' & Hlive); [done|].
  rewrite He in Hx, Hlin. simpl in Hx, Hlin, Hm'. subst x.
  destruct (IH m' env Hm') as [Hw Hxs]; [simpl in Hlen; lia|done|done|]. split; [done|].
  cbn. f_equal. rewrite Hxs, Hlive, lookup_delete_eq. by destruct l.
Qed.

Lemma countValid_perm xs ys z r : xs ≡ₚ ys → countValid ys z = Done r → countValid xs z = Done r.
Proof.
  intros Hxs. revert z. induction Hxs as [|x xs ys Hxs IH|x y xs|xs ys zs Hxy IH1 Hyz IH2]; intros z; simpl; [done| | |].
  - destruct x; [apply IH|done].
  - destruct x as [[]|], y as [[]|]; simpl; done.
  - intros Hr. by apply IH1, IH2.
Qed.

Lemma countValid_false n z : countValid (replicate n (Ok false)) z = Done z.
Proof. by induction n. Qed.

(** ** The tests *)

Implicit Types (m : Manager) (env : environment).
Notation ended := (λ (_ : unit) (_ : Manager * environment), True).

Lemma digit_urlByte c d : digit_of c = Some d → urlByte c = true.
Proof. destruct c; vm_compute; done. Qed.

Lemma base64url_encode b : b ≠ [] → base64url (encode b) = true.
Proof.
  intros Hb. unfold base64url. apply andb_true_iff. split.
  - apply negb_bool_decide_true. intros Heq. apply Hb. by apply (encode_inj b []).
  - unfold encode. rewrite String.list_byte_of_string_of_list_byte. apply forallb_forall.
    intros c Hin. apply in_map_iff in Hin as (d & <- & Hd%list_elem_of_In).
    pose proof (proj1 (Forall_forall _ _) (digits_range b) d Hd) as Hrange.
    by eapply digit_urlByte, digit_of_char_of.
Qed.

Lemma append_ne (s : string) c r : s ≠ s +:+ String c r.
Proof. induction s as [|d s IH]; simpl; [done|]. intros [= Heq]. by apply IH. Qed.

(** A nonce has 16 bytes, so it is no value without this many, and none of other characters. *)
Lemma nonceOf_known e v :
  length e.2 = 16%nat → e.2 ≠ replicate 16 x00 →
  v ∈ [""; "AAAAAAAAAAAAAAAAAAAAAA"; nonceOf e +:+ "x"; "not base64url!"; bytes_string (replicate 4096 x00)] →
  nonceOf e ≠ v.
Proof.
  intros Hlen Hzero Hv Heq.
  assert (base64url (nonceOf e) = true) as Hurl by (apply base64url_encode; by destruct e.2).
  repeat apply elem_of_cons in Hv as [Hv|Hv]; try by apply not_elem_of_nil in Hv.
  - rewrite Heq, Hv in Hurl. vm_compute in Hurl. done.
  - apply Hzero. apply encode_inj. unfold nonceOf in Heq. rewrite Heq, Hv. by vm_compute.
  - rewrite Hv in Heq. by apply append_ne in Heq.
  - rewrite Heq, Hv in Hurl. vm_compute in Hurl. done.
  - rewrite Heq, Hv in Hurl. vm_compute in Hurl. done.
Qed.

Lemma issueUnique_passes r n seen m env :
  ready start m env → (n ≤ length env)%nat → (∀ v, v ∈ seen → v ∉ map nonceOf env) →
  passes nonce_exec (issueUnique r n seen) ended (m, env).
Proof.
  revert seen m env. induction n as [|n IH]; intros seen m env Hm Hn Hseen; [done|].
  cbn [issueUnique]. apply passes_bind, passes_issue; [done|by destruct env; [simpl in Hn; lia|]|].
  intros e env' m' -> Hm' _. simpl in Hn. destruct (calm_tail _ _ _ (ready_env _ _ _ Hm)) as [_ Hnew].
  apply passes_bind, passes_fatalIf; [apply bool_decide_eq_false; intros Hin; by apply (Hseen _ Hin); left|].
  apply IH; [done|lia|]. intros v [->|Hv]%elem_of_cons; [done|]. intros Hin. apply (Hseen _ Hv). by right.
Qed.

(** Consuming other values keeps an issued nonce. *)
Lemma unknown_passes r msg values v t m env :
  ready start m env → m_live m = {[v := t]} → (∀ v', v' ∈ values → v ≠ v') → (length values ≤ length env)%nat →
  passes nonce_exec (forEach (λ v', ok ← consume r v'; fatalIf ok msg) values)
    (λ _ w, ∃ m', w = (m', drop (length values) env) ∧ ready start m' (drop (length values) env) ∧
       m_live m' = {[v := t]}) (m, env).
Proof.
  revert m env. induction values as [|v' values IH]; intros m env Hm Hl Hv Hlen; [by exists m|].
  destruct env as [|e env]; [simpl in Hlen; lia|]. cbn [forEach].
  assert (v ≠ v') as Hne by (apply Hv; left).
  apply passes_bind, passes_bind, passes_consume; [done|done|]. cbn [tail]. intros m' Hm' Hl'.
  rewrite Hl in Hl'. rewrite delete_singleton_ne in Hl' by done.
  apply passes_fatalIf; [by rewrite Hl, lookup_singleton_ne|].
  apply IH; [done|done| |simpl in Hlen; lia]. intros w Hw. apply Hv. by right.
Qed.

(** One round of the concurrent test. *)
Lemma concurrentRound_passes a b (ids : list nat) v m env :
  ready start m env → is_Some (m_live m !! v) → ids ≠ [] → (length ids ≤ length env)%nat →
  passes nonce_exec
    (results ← Race (map (λ i, ConsumeOn (if (i `mod` 2 == 1)%nat then b else a) None v) ids) Done;
     valid ← countValid results 0;
     fatalIf (valid != 1%Z) "%d concurrent requests accepted one nonce, want exactly 1")
    (λ _ w, ∃ m', w = (m', drop (length ids) env) ∧ ready start m' (drop (length ids) env)) (m, env).
Proof.
  intros Hm Hv Hids Hlen. apply passes_bind. split; [apply raced_total|]. intros xs w' (Hxs & l & Hl & Hlin).
  cbn [passes]. rewrite length_map in Hxs.
  assert (length l = length ids) as Hll by (rewrite Hl, length_zip, length_map; lia).
  apply (linear_consume v) in Hlin as [Hw Hl2]; [|done|lia|].
  - assert (xs ≡ₚ l.*2) as Hperm by (rewrite Hl, snd_zip; [done|rewrite length_map; lia]).
    apply passes_bind. erewrite (countValid_perm xs _ 0 1); [|exact Hperm|].
    + apply passes_fatalIf; [done|]. by rewrite Hll in Hw.
    + rewrite Hl2. destruct l as [|c l]; [by destruct ids|]. rewrite bool_decide_eq_true_2 by done.
      cbn [countValid]. apply countValid_false.
  - rewrite Hl. apply Forall_forall. intros [c x] Hin%elem_of_zip_l.
    apply list_elem_of_fmap in Hin as (i & -> & _). by eexists.
Qed.

Lemma concurrentConsume_passes a b rounds m env :
  ready start m env → (17 * length rounds ≤ length env)%nat →
  passes nonce_exec (forEach (λ _ : nat,
    value ← issue a;
    results ← Race (map (λ i, ConsumeOn (if (i `mod` 2 == 1)%nat then b else a) None value) (seq 0 16)) Done;
    valid ← countValid results 0;
    fatalIf (valid != 1%Z) "%d concurrent requests accepted one nonce, want exactly 1") rounds) ended (m, env).
Proof.
  revert m env. induction rounds as [|x rounds IH]; intros m env Hm Hlen; [done|]. simpl in Hlen. cbn [forEach].
  destruct env as [|e env]; [simpl in Hlen; lia|].
  apply passes_bind, passes_bind, passes_issue; [done|done|]. intros e' env' m' [= <- <-] Hm' Hl.
  eapply passes_conseq; [|apply concurrentRound_passes; [done| |done|simpl in *; lia]].
  - cbn beta. intros _ w (m'' & -> & Hm''). apply IH; [done|]. rewrite length_drop. simpl in *. lia.
  - rewrite Hl, lookup_insert_eq. by eexists.
Qed.

Context (m : Manager) (env : environment) (Hm : ready start m env) (Hlen : (1000 ≤ length env)%nat).

Lemma issueFormat_passes r : passes nonce_exec (testIssueFormat r) ended (m, env).
Proof.
  apply passes_bind, passes_issue; [done|by destruct env; [simpl in Hlen; lia|]|].
  intros e env' m' -> Hm' _. apply passes_fatalIf; [|done]. apply negb_false_iff, base64url_encode.
  pose proof (calm_bytes _ _ (ready_env _ _ _ Hm)) as [[He _] _]%Forall_cons. by destruct e.2.
Qed.

Lemma consumeOnce_passes r : passes nonce_exec (testConsumeOnce r) ended (m, env).
Proof.
  destruct env as [|e0 [|e1 [|e2 env0]]]; try (simpl in Hlen; lia).
  apply passes_bind, passes_issue; [done|done|]. intros e env' m1 [= <- <-] Hm1 Hl1.
  apply passes_bind, passes_consume; [done|done|]. cbn [tail]. intros m2 Hm2 Hl2.
  apply passes_bind, passes_fatalIf; [by rewrite Hl1, lookup_insert_eq|].
  apply passes_bind, passes_consume; [done|done|]. cbn [tail]. intros m3 Hm3 Hl3.
  apply passes_fatalIf; [|done]. by rewrite Hl2, lookup_delete_eq.
Qed.

Lemma unknownNonce_passes r : m_live m = ∅ → passes nonce_exec (testUnknown r) ended (m, env).
Proof.
  intros Hempty. apply passes_bind, passes_issue; [done|by destruct env; [simpl in Hlen; lia|]|].
  intros e env' m1 Henv Hm1 Hl1. rewrite Henv in Hlen, Hm. simpl in Hlen.
  rewrite Hempty, insert_empty in Hl1.
  pose proof (calm_bytes _ _ (ready_env _ _ _ Hm)) as [[He Hz] _]%Forall_cons.
  apply passes_bind. eapply passes_conseq; [|eapply unknown_passes; [done|exact Hl1| |cbn [length]; lia]].
  - cbn beta. intros _ w (m' & -> & Hm' & Hl'). apply passes_bind, passes_consume; [done| |].
    + intros Hnil. apply (f_equal length) in Hnil. rewrite length_drop in Hnil. cbn [length] in Hnil. lia.
    + intros m2 _ _. apply passes_fatalIf; [|done]. by rewrite Hl', lookup_singleton_eq.
  - intros v Hv. by apply nonceOf_known.
Qed.

Lemma canceledContext_passes r : passes nonce_exec (testCanceledContext r) ended (m, env).
Proof.
  apply passes_bind, passes_issue; [done|by destruct env; [simpl in Hlen; lia|]|].
  intros e env' m1 _ Hm1 Hl1. done.
Qed.

Lemma crossReplica_passes a b : passes nonce_exec (testCrossReplica a b) ended (m, env).
Proof.
  destruct env as [|e0 [|e1 [|e2 [|e3 [|e4 env0]]]]]; try (simpl in Hlen; lia).
  apply passes_bind, passes_issue; [done|done|]. intros e env' m1 [= <- <-] Hm1 Hl1.
  apply passes_bind, passes_consume; [done|done|]. cbn [tail]. intros m2 Hm2 Hl2.
  apply passes_bind, passes_fatalIf; [by rewrite Hl1, lookup_insert_eq|].
  apply passes_bind, passes_consume; [done|done|]. cbn [tail]. intros m3 Hm3 Hl3.
  apply passes_bind, passes_fatalIf; [by rewrite Hl2, lookup_delete_eq|].
  apply passes_bind, passes_issue; [done|done|]. intros e env' m4 [= <- <-] Hm4 Hl4.
  apply passes_bind, passes_consume; [done|done|]. cbn [tail]. intros m5 Hm5 Hl5.
  apply passes_fatalIf; [by rewrite Hl4, lookup_insert_eq|done].
Qed.

End calls.

(** C31. The nonce manager with the default options passes the conformance suite, also the part for
    replicas when both are the same manager: while less time passes than a nonce lives and the
    random source delivers distinct values other than zero, every test ends without a failure in
    every order in which concurrent requests take effect. *)
Theorem nonce_suite start env :
  calm start env → (1000 ≤ length env)%nat →
  Forall (λ p, passes nonce_exec p.2 (λ _ _, True) (Nonce.New (mkOptions 0 0), env)) (Run ++ RunShared).
Proof.
  intros Henv Hlen. assert (ready start (Nonce.New (mkOptions 0 0)) env) as Hm.
  { split; [apply wf_New|done|done| |done|done]. pose proof (calm_length _ _ Henv). unfold Len. cbn [m_live Nonce.New]. rewrite map_size_empty. lia. }
  unfold Run, RunShared. repeat apply Forall_cons_2; [..|apply Forall_nil_2]; cbn [snd].
  - by eapply issueFormat_passes.
  - by eapply issueUnique_passes; [..|intros v Hv; apply not_elem_of_nil in Hv].
  - by eapply consumeOnce_passes.
  - by eapply unknownNonce_passes.
  - eapply concurrentConsume_passes; [done|]. cbn [length seq]. lia.
  - by eapply canceledContext_passes.
  - by eapply crossReplica_passes.
  - eapply concurrentConsume_passes; [done|]. cbn [length seq]. lia.
Qed.

(** A thousand calls within a second, with counted random values. *)
Definition suiteEnvironment : environment :=
  map (λ i, (Hour, [zb (Z.of_nat i `div` 256); zb (Z.of_nat i)] ++ replicate 14 x01)) (seq 0 1000).

Lemma nonce_suite_witness :
  calm Hour suiteEnvironment ∧
  Forall (λ p, passes nonce_exec p.2 (λ _ _, True) (Nonce.New (mkOptions 0 0), suiteEnvironment)) (Run ++ RunShared).
Proof.
  assert (calm Hour suiteEnvironment) as Henv.
  { split; apply (bool_decide_unpack _); vm_compute; exact I. }
  split; [exact Henv|]. apply (nonce_suite Hour suiteEnvironment Henv). apply (bool_decide_unpack _). vm_compute. exact I.
Defined.
