(* ===== verification/Clone.v ===== *)
(** * Copies of stored resources (src/memstore/memstore.go, the clone functions)

    The in-memory store hands out copies and keeps copies, so that its resources are values to its
    callers. This file models the memory behind them: structs, backing arrays and big integers are
    cells of a heap, pointers and slices refer to cells, and the clone functions are programs on the
    heap. A [load] function gives the value a reference denotes with the set of cells it reaches. *)

From S2P Require Import Prelude Status Problem Resource.

Notation loc := nat (only parsing).

(** A slice: nil, or the start of a backing array with a length. *)
Definition slice : Type := option (loc * nat).

(** A [crypto.PublicKey]: a pointer to a struct, a byte slice or another comparable value. *)
Inductive gKey : Type :=
| GECDSA (p : loc)
| GRSA (p : loc)
| GEd25519 (k : slice)
| GOther (description : string).

(** The structs with references. The first field holds the fields that are not references; those
    of its fields that are references in Go are given by the other fields instead. *)
Record gAccount : Type := mkGAccount { ga_fields : Account; ga_Contact : slice; ga_Key : gKey }.
Record gValidation : Type := mkGValidation { gv_fields : Validation; gv_Names : slice }.
Record gIssuance : Type := mkGIssuance { gi_fields : IssuanceState; gi_Validations : slice }.
Record gResult : Type := mkGResult { gr_fields : IssueResult; gr_Chain : slice; gr_Rejected : option loc }.
Record gProblem : Type := mkGProblem {
  gp_fields : Problem; gp_Identifier : option loc; gp_Subproblems : slice; gp_Algorithms : slice }.
Record gOrder : Type := mkGOrder {
  go_fields : Order; go_Identifiers : slice; go_AuthorizationIDs : slice; go_CSR : slice;
  go_Error : option loc; go_Issuance : option loc; go_UnpublishedResult : option loc }.
Record gAuthorization : Type := mkGAuthorization {
  gz_fields : Authorization; gz_ChallengeIDs : slice; gz_GrantNames : slice }.
Record gChallenge : Type := mkGChallenge { gc_fields : Challenge; gc_Error : option loc }.
Record gCertificate : Type := mkGCertificate {
  gx_fields : Certificate; gx_Chain : slice; gx_Validations : slice }.

Inductive cell : Type :=
| StringsCell (l : list string)
| IdentifiersCell (l : list Identifier)
| BytesCell (l : bytes)
| ValidationsCell (l : list gValidation)
| ChainCell (l : list slice)
| ProblemsCell (l : list (option loc))
| IntCell (z : Z)
| ECDSACell (curve : Curve) (x y : loc)
| RSACell (n : loc) (e : Z)
| IdentifierCell (id : Identifier)
| AccountCell (a : gAccount)
| IssuanceCell (i : gIssuance)
| ResultCell (r : gResult)
| ProblemCell (p : gProblem)
| OrderCell (o : gOrder)
| AuthorizationCell (z : gAuthorization)
| ChallengeCell (c : gChallenge)
| CertificateCell (c : gCertificate)
| TaskCell (t : Task).

Notation heap := (gmap loc cell).

(** The cells that hold a value of a type. *)
Class Cell (A : Type) : Type := {
  to_cell : A → cell;
  of_cell : cell → option A;
  of_to_cell : ∀ a, of_cell (to_cell a) = Some a
}.

#[export] Instance Cell_strings : Cell (list string) :=
  { to_cell := StringsCell; of_cell c := if c is StringsCell l then Some l else None; of_to_cell _ := eq_refl }.
#[export] Instance Cell_identifiers : Cell (list Identifier) :=
  { to_cell := IdentifiersCell; of_cell c := if c is IdentifiersCell l then Some l else None; of_to_cell _ := eq_refl }.
#[export] Instance Cell_bytes : Cell (list Byte.byte) :=
  { to_cell := BytesCell; of_cell c := if c is BytesCell l then Some l else None; of_to_cell _ := eq_refl }.
#[export] Instance Cell_validations : Cell (list gValidation) :=
  { to_cell := ValidationsCell; of_cell c := if c is ValidationsCell l then Some l else None; of_to_cell _ := eq_refl }.
#[export] Instance Cell_chain : Cell (list slice) :=
  { to_cell := ChainCell; of_cell c := if c is ChainCell l then Some l else None; of_to_cell _ := eq_refl }.
#[export] Instance Cell_problems : Cell (list (option loc)) :=
  { to_cell := ProblemsCell; of_cell c := if c is ProblemsCell l then Some l else None; of_to_cell _ := eq_refl }.
#[export] Instance Cell_int : Cell Z :=
  { to_cell := IntCell; of_cell c := if c is IntCell z then Some z else None; of_to_cell _ := eq_refl }.
#[export] Instance Cell_ecdsa : Cell (Curve * loc * loc) :=
  { to_cell '(curve, x, y) := ECDSACell curve x y;
    of_cell c := if c is ECDSACell curve x y then Some (curve, x, y) else None; of_to_cell '(_, _, _) := eq_refl }.
#[export] Instance Cell_rsa : Cell (loc * Z) :=
  { to_cell '(n, e) := RSACell n e; of_cell c := if c is RSACell n e then Some (n, e) else None;
    of_to_cell '(_, _) := eq_refl }.
#[export] Instance Cell_identifier : Cell Identifier :=
  { to_cell := IdentifierCell; of_cell c := if c is IdentifierCell id then Some id else None; of_to_cell _ := eq_refl }.
#[export] Instance Cell_account : Cell gAccount :=
  { to_cell := AccountCell; of_cell c := if c is AccountCell a then Some a else None; of_to_cell _ := eq_refl }.
#[export] Instance Cell_issuance : Cell gIssuance :=
  { to_cell := IssuanceCell; of_cell c := if c is IssuanceCell i then Some i else None; of_to_cell _ := eq_refl }.
#[export] Instance Cell_result : Cell gResult :=
  { to_cell := ResultCell; of_cell c := if c is ResultCell r then Some r else None; of_to_cell _ := eq_refl }.
#[export] Instance Cell_problem : Cell gProblem :=
  { to_cell := ProblemCell; of_cell c := if c is ProblemCell p then Some p else None; of_to_cell _ := eq_refl }.
#[export] Instance Cell_order : Cell gOrder :=
  { to_cell := OrderCell; of_cell c := if c is OrderCell o then Some o else None; of_to_cell _ := eq_refl }.
#[export] Instance Cell_authorization : Cell gAuthorization :=
  { to_cell := AuthorizationCell; of_cell c := if c is AuthorizationCell z then Some z else None; of_to_cell _ := eq_refl }.
#[export] Instance Cell_challenge : Cell gChallenge :=
  { to_cell := ChallengeCell; of_cell c := if c is ChallengeCell x then Some x else None; of_to_cell _ := eq_refl }.
#[export] Instance Cell_certificate : Cell gCertificate :=
  { to_cell := CertificateCell; of_cell c := if c is CertificateCell x then Some x else None; of_to_cell _ := eq_refl }.
#[export] Instance Cell_task : Cell Task :=
  { to_cell := TaskCell; of_cell c := if c is TaskCell t then Some t else None; of_to_cell _ := eq_refl }.

(** ** Programs on the heap

    A program that dereferences nil or a reference of another type has no result. *)
Definition HeapM (A : Type) : Type := heap → option (A * heap).

#[export] Instance HeapM_ret : MRet HeapM := λ A a h, Some (a, h).
#[export] Instance HeapM_bind : MBind HeapM := λ A B f m h,
  match m h with Some (a, h) => f a h | None => None end.

(** A new cell, as [&v] or [make] allocates it. *)
Definition alloc {A} `{Cell A} (a : A) : HeapM loc := λ h,
  let l := fresh (dom h) in Some (l, <[l := to_cell a]> h).

Definition deref {A} `{Cell A} (l : loc) : HeapM A := λ h,
  match h !! l ≫= of_cell with Some a => Some (a, h) | None => None end.

(** The assignment [l[i] = x] to an element of a backing array. *)
Definition setIndex {A} `{Cell (list A)} (l : loc) (i : nat) (x : A) : HeapM unit := λ h,
  match h !! l ≫= of_cell with
  | Some xs => if (i <? length xs)%nat then Some (tt, <[l := to_cell (<[i := x]> xs)]> h) else None
  | None => None
  end.

(** The elements of a slice. *)
Definition elements {A} `{Cell (list A)} (s : slice) : HeapM (list A) :=
  match s with
  | None | Some (_, O) => mret []
  | Some (l, n) => λ h, match h !! l ≫= of_cell with
                        | Some xs => if (n <=? length xs)%nat then Some (take n xs, h) else None
                        | None => None
                        end
  end.

(** [slices.Clone]: nil stays nil, and the copy of an empty slice has no elements to share. *)
Definition slicesClone (A : Type) `{Cell (list A)} (s : slice) : HeapM slice :=
  match s with
  | None | Some (_, O) => mret s
  | Some (_, n) => xs ← elements (A := A) s; l ← alloc xs; mret (Some (l, n))
  end.

(** The loop [for i, x := range xs { dst[i] = f(x) }] from an index on. *)
Fixpoint fill {A B} `{Cell (list B)} (f : A → HeapM B) (dst : loc) (i : nat) (xs : list A) : HeapM unit :=
  match xs with
  | [] => mret tt
  | x :: xs => y ← f x; _ ← setIndex dst i y; fill f dst (S i) xs
  end.

(** A function on a pointer that maps nil to nil. *)
Definition unlessNil {A} (f : loc → HeapM A) (p : option loc) : HeapM (option A) :=
  match p with
  | None => mret None
  | Some p => a ← f p; mret (Some a)
  end.

(** ** The clone functions *)

(** Copies every certificate byte slice in a chain. *)
Definition cloneChain (chain : slice) : HeapM slice :=
  ders ← elements chain;
  copyOf ← alloc (replicate (length ders) (None : slice));
  _ ← fill (slicesClone Byte.byte) copyOf 0 ders;
  mret (Some (copyOf, length ders)).

(** Returns a copy of validation evidence whose granted names are not shared. No element of the
    copy changes before the loop reaches it. *)
Definition cloneValidations (validations : slice) : HeapM slice :=
  out ← slicesClone gValidation validations;
  match out with
  | None | Some (_, O) => mret out
  | Some (l, n) =>
      vs ← elements out;
      _ ← fill (λ v, names ← slicesClone Identifier (gv_Names v);
                     mret {| v with gv_Names := names |}) l 0 vs;
      mret out
  end.

(** Returns a deep copy of a problem, or nil. The fuel bounds the nesting of subproblems. *)
Fixpoint cloneProblem (fuel : nat) (p : option loc) : HeapM (option loc) :=
  match p with
  | None => mret None
  | Some p =>
      match fuel with
      | O => λ _, None
      | S fuel =>
          c ← deref p;
          identifier ← unlessNil (λ i, id ← deref (A := Identifier) i; alloc id) (gp_Identifier c);
          algorithms ← slicesClone string (gp_Algorithms c);
          subproblems ← match gp_Subproblems c with
                        | None => mret None
                        | Some (l, n) =>
                            subs ← elements (Some (l, n));
                            dst ← alloc (replicate n (None : option loc));
                            _ ← fill (cloneProblem fuel) dst 0 subs;
                            mret (Some (dst, n))
                        end;
          q ← alloc {| c with gp_Identifier := identifier; gp_Algorithms := algorithms;
                              gp_Subproblems := subproblems |};
          mret (Some q)
      end
  end.

(** Returns a copy of the order with its own slices. *)
Definition cloneOrder (fuel : nat) (o : loc) : HeapM loc :=
  c ← deref o;
  identifiers ← slicesClone Identifier (go_Identifiers c);
  authorizationIDs ← slicesClone string (go_AuthorizationIDs c);
  csr ← slicesClone Byte.byte (go_CSR c);
  err ← cloneProblem fuel (go_Error c);
  issuance ← unlessNil (λ i, state ← deref i;
                             validations ← cloneValidations (gi_Validations state);
                             alloc {| state with gi_Validations := validations |}) (go_Issuance c);
  result ← unlessNil (λ r, result ← deref r;
                           chain ← cloneChain (gr_Chain result);
                           rejected ← cloneProblem fuel (gr_Rejected result);
                           alloc {| result with gr_Chain := chain; gr_Rejected := rejected |})
             (go_UnpublishedResult c);
  alloc {| c with go_Identifiers := identifiers; go_AuthorizationIDs := authorizationIDs; go_CSR := csr;
                  go_Error := err; go_Issuance := issuance; go_UnpublishedResult := result |}.

(** Returns a copy of the authorization with its own slices. *)
Definition cloneAuthorization (a : loc) : HeapM loc :=
  c ← deref a;
  challengeIDs ← slicesClone string (gz_ChallengeIDs c);
  grantNames ← slicesClone Identifier (gz_GrantNames c);
  alloc {| c with gz_ChallengeIDs := challengeIDs; gz_GrantNames := grantNames |}.

(** Returns a copy of the challenge with its own error. *)
Definition cloneChallenge (fuel : nat) (ch : loc) : HeapM loc :=
  c ← deref ch;
  err ← cloneProblem fuel (gc_Error c);
  alloc {| c with gc_Error := err |}.

(** Returns a copy of the certificate with its own chain. *)
Definition cloneCertificate (cert : loc) : HeapM loc :=
  c ← deref cert;
  chain ← cloneChain (gx_Chain c);
  validations ← cloneValidations (gx_Validations c);
  alloc {| c with gx_Chain := chain; gx_Validations := validations |}.

(** Returns a copy of the task. *)
Definition cloneTask (t : loc) : HeapM loc := c ← deref (A := Task) t; alloc c.

Section Clone.
(** The encoding of a point and its parser in crypto/ecdsa. *)
Context (ecdsa_Bytes : Curve → Z → Z → Res bytes) (ecdsa_Parse : Curve → bytes → Res (Z * Z)).

(** Copies a public key so callers cannot mutate stored state through it. *)
Definition clonePublicKey (key : gKey) : HeapM gKey :=
  match key with
  | GECDSA p =>
      '(curve, x, y) ← deref p;
      vx ← deref x;
      vy ← deref y;
      match ecdsa_Bytes curve vx vy with
      | Err _ => mret key
      | Ok point =>
          match ecdsa_Parse curve point with
          | Err _ => mret key
          | Ok (vx, vy) => x ← alloc vx; y ← alloc vy; q ← alloc (curve, x, y); mret (GECDSA q)
          end
      end
  | GRSA p =>
      '(n, e) ← deref p;
      v ← deref (A := Z) n;
      n ← alloc v;
      q ← alloc (n, e);
      mret (GRSA q)
  | GEd25519 k => k ← slicesClone Byte.byte k; mret (GEd25519 k)
  | GOther _ => mret key
  end.

(** Returns a copy that shares no mutable state with the original. *)
Definition cloneAccount (a : loc) : HeapM loc :=
  c ← deref a;
  contact ← slicesClone string (ga_Contact c);
  key ← clonePublicKey (ga_Key c);
  alloc {| c with ga_Contact := contact; ga_Key := key |}.

End Clone.

(** ** The values references denote

    A reader returns a value with the cells it read. *)
Definition Reader (A : Type) : Type := heap → option (A * gset loc).

#[export] Instance Reader_ret : MRet Reader := λ A a h, Some (a, ∅).
#[export] Instance Reader_bind : MBind Reader := λ A B f m h,
  match m h with
  | Some (a, F) => match f a h with Some (b, G) => Some (b, F ∪ G) | None => None end
  | None => None
  end.

Definition load {A} `{Cell A} (l : loc) : Reader A := λ h,
  match h !! l ≫= of_cell with Some a => Some (a, {[l]}) | None => None end.

(** The elements of an array that a slice of length [n] covers. *)
Definition covered {A} (n : nat) (xs : list A) : Reader (list A) := λ _,
  if (n <=? length xs)%nat then Some (take n xs, ∅) else None.

Definition loadSlice (A : Type) `{Cell (list A)} (s : slice) : Reader (list A) :=
  match s with
  | None | Some (_, O) => mret []
  | Some (l, n) => xs ← load (A := list A) l; covered n xs
  end.

Definition loadPointer {A} (f : loc → Reader A) (p : option loc) : Reader (option A) :=
  match p with
  | None => mret None
  | Some p => a ← f p; mret (Some a)
  end.

Definition loadChain (s : slice) : Reader (list bytes) :=
  ders ← loadSlice slice s; mapM (loadSlice Byte.byte) ders.

Definition loadValidation (v : gValidation) : Reader Validation :=
  names ← loadSlice Identifier (gv_Names v);
  let fields := gv_fields v in mret {| fields with v_Names := names |}.

Definition loadValidations (s : slice) : Reader (list Validation) :=
  vs ← loadSlice gValidation s; mapM loadValidation vs.

Fixpoint loadProblem (fuel : nat) (p : option loc) : Reader (option Problem) :=
  match p with
  | None => mret None
  | Some p =>
      match fuel with
      | O => λ _, None
      | S fuel =>
          c ← load p;
          identifier ← loadPointer (load (A := Identifier)) (gp_Identifier c);
          algorithms ← loadSlice string (gp_Algorithms c);
          subs ← loadSlice (option loc) (gp_Subproblems c);
          subproblems ← mapM (loadProblem fuel) subs;
          let fields := gp_fields c in
          mret (Some {| fields with p_Identifier := identifier; p_Subproblems := subproblems;
                                    p_Algorithms := algorithms |})
      end
  end.

Definition loadIssuance (p : loc) : Reader IssuanceState :=
  state ← load p;
  validations ← loadValidations (gi_Validations state);
  let fields := gi_fields state in mret {| fields with is_Validations := validations |}.

Definition loadResult (fuel : nat) (p : loc) : Reader IssueResult :=
  result ← load p;
  chain ← loadChain (gr_Chain result);
  rejected ← loadProblem fuel (gr_Rejected result);
  let fields := gr_fields result in mret {| fields with ir_Chain := chain; ir_Rejected := rejected |}.

Definition loadOrder (fuel : nat) (p : loc) : Reader Order :=
  c ← load p;
  identifiers ← loadSlice Identifier (go_Identifiers c);
  authorizationIDs ← loadSlice string (go_AuthorizationIDs c);
  csr ← loadSlice Byte.byte (go_CSR c);
  err ← loadProblem fuel (go_Error c);
  issuance ← loadPointer loadIssuance (go_Issuance c);
  result ← loadPointer (loadResult fuel) (go_UnpublishedResult c);
  let fields := go_fields c in
  mret {| fields with ord_Identifiers := identifiers; ord_AuthorizationIDs := authorizationIDs; ord_CSR := csr;
                      ord_Error := err; ord_Issuance := issuance; ord_UnpublishedResult := result |}.

Definition loadAuthorization (p : loc) : Reader Authorization :=
  c ← load p;
  challengeIDs ← loadSlice string (gz_ChallengeIDs c);
  grantNames ← loadSlice Identifier (gz_GrantNames c);
  let fields := gz_fields c in
  mret {| fields with az_ChallengeIDs := challengeIDs; az_GrantNames := grantNames |}.

Definition loadChallenge (fuel : nat) (p : loc) : Reader Challenge :=
  c ← load p;
  err ← loadProblem fuel (gc_Error c);
  let fields := gc_fields c in mret {| fields with ch_Error := err |}.

Definition loadCertificate (p : loc) : Reader Certificate :=
  c ← load p;
  chain ← loadChain (gx_Chain c);
  validations ← loadValidations (gx_Validations c);
  let fields := gx_fields c in mret {| fields with crt_Chain := chain; crt_Validations := validations |}.

Definition loadKey (key : gKey) : Reader PublicKey :=
  match key with
  | GECDSA p => '(curve, x, y) ← load p; vx ← load x; vy ← load y; mret (KeyECDSA curve vx vy)
  | GRSA p => '(n, e) ← load p; v ← load n; mret (KeyRSA v e)
  | GEd25519 k => k ← loadSlice Byte.byte k; mret (KeyEd25519 k)
  | GOther description => mret (KeyOther description)
  end.

Definition loadAccount (p : loc) : Reader Account :=
  c ← load p;
  contact ← loadSlice string (ga_Contact c);
  key ← loadKey (ga_Key c);
  let fields := ga_fields c in mret {| fields with acct_Contact := contact; acct_Key := key |}.
