(* ===== verification/CloneProps.v ===== *)
(** * The clone functions make deep copies

    A clone denotes the value of the original in memory of its own: the cells it reaches are new,
    and the memory that existed before is unchanged. So neither the caller's later writes reach what
    the store keeps, nor do writes to a returned copy. *)

From S2P Require Import Prelude Status Problem Resource Clone.

(** ** Readers depend only on the cells they read *)

Class Local {A} (r : Reader A) : Prop := {
  local_dom : ∀ h a F, r h = Some (a, F) → F ⊆ dom h;
  local_agree : ∀ h g a F, r h = Some (a, F) → (∀ l, l ∈ F → g !! l = h !! l) → r g = Some (a, F)
}.

Lemma reader_bind_Some {A B} (m : Reader A) (f : A → Reader B) h b F :
  (m ≫= f) h = Some (b, F) ↔ ∃ a F1 F2, m h = Some (a, F1) ∧ f a h = Some (b, F2) ∧ F = F1 ∪ F2.
Proof.
  unfold mbind, Reader_bind. split.
  - destruct (m h) as [[a F1]|]; [|done]. destruct (f a h) as [[b' F2]|] eqn:Hf; [|done].
    intros [= <- <-]. eauto 10.
  - intros (a & F1 & F2 & -> & -> & ->). done.
Qed.

#[export] Instance Local_ret {A} (a : A) : Local (mret a : Reader A).
Proof. split; intros h; [intros ? ? [= <- <-]; set_solver|by intros g ? ? [= <- <-] _]. Qed.

#[export] Instance Local_bind {A B} (m : Reader A) (f : A → Reader B) :
  Local m → (∀ a, Local (f a)) → Local (m ≫= f).
Proof.
  intros Hm Hf. split.
  - intros h b F (a & F1 & F2 & H1 & H2 & ->)%reader_bind_Some.
    apply local_dom in H1. apply local_dom in H2. set_solver.
  - intros h g b F (a & F1 & F2 & H1 & H2 & ->)%reader_bind_Some Hg. apply reader_bind_Some.
    exists a, F1, F2. split_and!; [eapply local_agree; [exact H1|set_solver]|eapply local_agree; [exact H2|set_solver]|done].
Qed.

Lemma load_Some {A} `{Cell A} l h (a : A) F :
  load l h = Some (a, F) ↔ h !! l ≫= of_cell = Some a ∧ F = {[l]}.
Proof. unfold load. destruct (h !! l ≫= of_cell) as [x|]; naive_solver. Qed.

#[export] Instance Local_load {A} `{Cell A} l : Local (load (A := A) l).
Proof.
  split.
  - intros h a F [Ha ->]%load_Some. destruct (h !! l) eqn:E; [|done]. apply singleton_subseteq_l. by eapply elem_of_dom_2.
  - intros h g a F [Ha ->]%load_Some Hg. apply load_Some. by rewrite Hg by set_solver.
Qed.

#[export] Instance Local_covered {A} n (xs : list A) : Local (covered n xs).
Proof. split; intros h; unfold covered; case_match; [intros ? ? [= <- <-]; set_solver|done|by intros g ? ? [= <- <-] _|done]. Qed.

#[export] Instance Local_mapM {A B} (f : A → Reader B) xs : (∀ x, Local (f x)) → Local (mapM f xs).
Proof. intros Hf. induction xs as [|x xs IH]; simpl; apply _. Qed.

#[export] Instance Local_loadSlice A `{Cell (list A)} s : Local (loadSlice A s).
Proof. unfold loadSlice. destruct s as [[l [|n]]|]; apply _. Qed.

#[export] Instance Local_loadPointer {A} (f : loc → Reader A) p : (∀ l, Local (f l)) → Local (loadPointer f p).
Proof. intros Hf. destruct p; simpl; apply _. Qed.

#[export] Instance Local_loadProblem fuel p : Local (loadProblem fuel p).
Proof. revert p. induction fuel as [|fuel IH]; intros [p|]; simpl; try apply _. by split. Qed.

#[export] Instance Local_loadKey key : Local (loadKey key).
Proof. destruct key; simpl; try apply _; apply Local_bind; try apply _; intros ?; repeat case_match; apply _. Qed.

(** ** Copies *)

(** The program ends, with a result and a heap that satisfy [Q]. *)
Definition yields {A} (c : HeapM A) (h : heap) (Q : A → heap → Prop) : Prop :=
  ∃ a h', c h = Some (a, h') ∧ Q a h'.

(** In [h'], which extends [h], the reader yields [v] from cells that are not in [h]. *)
Definition copied {V} (r : Reader V) (v : V) (h h' : heap) : Prop :=
  h ⊆ h' ∧ ∃ F, r h' = Some (v, F) ∧ F ## dom h.

(** The program copies what [from] reads to a place where [to] reads it. *)
Definition copies {A V} (c : HeapM A) (from : Reader V) (to : A → Reader V) : Prop :=
  ∀ h v F, from h = Some (v, F) → yields c h (λ a h', copied (to a) v h h').

Lemma yields_bind {A B} (c : HeapM A) (k : A → HeapM B) h Q :
  yields c h (λ a h', yields (k a) h' Q) → yields (c ≫= k) h Q.
Proof. intros (a & h' & Hc & b & h'' & Hk & HQ). exists b, h''. unfold mbind, HeapM_bind. by rewrite Hc. Qed.

Lemma yields_ret {A} (a : A) h (Q : A → heap → Prop) : Q a h → yields (mret a) h Q.
Proof. intros HQ. by exists a, h. Qed.

Lemma yields_conseq {A} (c : HeapM A) h (Q Q' : A → heap → Prop) :
  yields c h Q → (∀ a h', Q a h' → Q' a h') → yields c h Q'.
Proof. intros (a & h' & Hc & HQ) HQQ. exists a, h'. eauto. Qed.

Lemma yields_deref {A} `{Cell A} l h (a : A) F Q :
  load l h = Some (a, F) → Q a h → yields (deref l) h Q.
Proof. intros [Ha _]%load_Some HQ. exists a, h. unfold deref. by rewrite Ha. Qed.

Lemma fresh_lookup (h : heap) : h !! fresh (dom h) = None.
Proof. apply not_elem_of_dom, is_fresh. Qed.

Lemma yields_alloc {A} `{Cell A} (a : A) h (Q : loc → heap → Prop) :
  (∀ l, h !! l = None → Q l (<[l := to_cell a]> h)) → yields (alloc a) h Q.
Proof. intros HQ. eexists _, _. split; [done|]. apply HQ, fresh_lookup. Qed.

Section copied.
Implicit Types (h : heap).

Lemma local_weaken {V} (r : Reader V) `{!Local r} h h' v F : r h = Some (v, F) → h ⊆ h' → r h' = Some (v, F).
Proof.
  intros Hr Hh. apply (local_agree h h' v F Hr). intros l Hl. apply (local_dom h v F Hr) in Hl.
  apply elem_of_dom in Hl as [c Hc]. rewrite Hc. by eapply lookup_weaken.
Qed.

(** A copy stays one when the heap grows, and is one of anything older. *)
Lemma copied_weaken {V} (r : Reader V) `{!Local r} v h0 h h' h'' :
  copied r v h h' → h0 ⊆ h → h' ⊆ h'' → copied r v h0 h''.
Proof.
  intros [Hh (F & Hr & HF)] H0 H''. split; [by repeat (etrans; [done|])|]. exists F.
  split; [by eapply local_weaken|]. apply subseteq_dom in H0. set_solver.
Qed.

Lemma copied_ret {V} (v : V) h h' : h ⊆ h' → copied (mret v) v h h'.
Proof. intros Hh. split; [done|]. exists ∅. split; [done|set_solver]. Qed.

Lemma copied_bind {A B} (m : Reader A) (f : A → Reader B) a b h h' :
  copied m a h h' → copied (f a) b h h' → copied (m ≫= f) b h h'.
Proof.
  intros [Hh (F1 & H1 & D1)] [_ (F2 & H2 & D2)]. split; [done|]. exists (F1 ∪ F2). split; [|set_solver].
  apply reader_bind_Some. eauto 10.
Qed.

Lemma copied_bind_inv {A B} (m : Reader A) (f : A → Reader B) b h h' :
  copied (m ≫= f) b h h' → ∃ a, copied m a h h' ∧ copied (f a) b h h'.
Proof.
  intros [Hh (F & (a & F1 & F2 & H1 & H2 & ->)%reader_bind_Some & HF)]. exists a.
  split; (split; [done|]); [exists F1|exists F2]; (split; [done|set_solver]).
Qed.

Lemma copied_load {A} `{Cell A} l (a : A) h h' :
  h ⊆ h' → h !! l = None → h' !! l = Some (to_cell a) → copied (load l) a h h'.
Proof.
  intros Hh Hl Hl'. split; [done|]. exists {[l]}. split.
  - apply load_Some. split; [|done]. rewrite Hl'. apply of_to_cell.
  - apply not_elem_of_dom in Hl. set_solver.
Qed.

Lemma copied_subseteq {V} (r : Reader V) v h h' : copied r v h h' → h ⊆ h'.
Proof. by intros []. Qed.

End copied.

(** ** Slices *)

Lemma loadSlice_elements A `{Cell (list A)} s h xs F :
  loadSlice A s h = Some (xs, F) → elements s h = Some (xs, h).
Proof.
  destruct s as [[l [|n]]|]; simpl; [by intros [= <- <-]| |by intros [= <- <-]].
  intros (ys & F1 & F2 & [Hl ->]%load_Some & Hc & ->)%reader_bind_Some. unfold covered in Hc. rewrite Hl. simpl in *.
  by case_match; simplify_eq.
Qed.

Lemma yields_elements A `{Cell (list A)} s h xs F (Q : list A → heap → Prop) :
  loadSlice A s h = Some (xs, F) → Q xs h → yields (elements s) h Q.
Proof. intros Hs HQ. exists xs, h. split; [by eapply loadSlice_elements|done]. Qed.

Lemma loadSlice_length A `{Cell (list A)} l n h xs F : loadSlice A (Some (l, n)) h = Some (xs, F) → length xs = n.
Proof.
  destruct n as [|n]; simpl; [by intros [= <- <-]|].
  intros (ys & F1 & F2 & _ & Hc & _)%reader_bind_Some. unfold covered in Hc.
  case_match eqn:E; [|done]. simplify_eq. apply Nat.leb_le in E. rewrite length_take. lia.
Qed.

(** A slice over the whole of a new array. *)
Lemma copied_slice A `{Cell (list A)} l (xs : list A) h h' :
  h ⊆ h' → h !! l = None → h' !! l = Some (to_cell xs) → copied (loadSlice A (Some (l, length xs))) xs h h'.
Proof.
  intros Hh Hl Hl'. destruct xs as [|x xs]; [by apply copied_ret|].
  eapply copied_bind; [by eapply copied_load|]. split; [done|]. exists ∅. split; [|set_solver].
  unfold covered. cbn [length]. rewrite Nat.leb_refl. f_equal. f_equal. by apply (take_ge (x :: xs)).
Qed.

Lemma slicesClone_copies A `{Cell (list A)} s : copies (slicesClone A s) (loadSlice A s) (loadSlice A).
Proof.
  intros h xs F Hs. destruct s as [[l [|n]]|].
  1,3: injection Hs as <- <-; apply yields_ret; by apply copied_ret.
  pose proof (loadSlice_length _ _ _ _ _ _ Hs) as Hlen. cbn [slicesClone].
  apply yields_bind. eapply yields_elements; [done|]. apply yields_bind, yields_alloc. intros l' Hl'.
  apply yields_ret. rewrite <- Hlen. apply copied_slice; [by apply insert_subseteq|done|by rewrite lookup_insert_eq].
Qed.

(** ** Loops that fill a new array *)

Section fill.
Context {A B V} `{Cell (list B)} (f : A → HeapM B) (from : A → Reader V) (to : B → Reader V).
Context (Lfrom : ∀ x, Local (from x)) (Lto : ∀ y, Local (to y)).
Context (Hf : ∀ x, copies (f x) (from x) to).

(** The heap changes only at [dst], and by new cells. *)
Lemma fill_copies xs h0 h dst i ys vs F :
  h0 ⊆ h → h0 !! dst = None → h !! dst = Some (to_cell ys) → length ys = (i + length xs)%nat →
  mapM from xs h0 = Some (vs, F) →
  yields (fill f dst i xs) h (λ _ h', delete dst h ⊆ h' ∧ ∃ zs,
    h' !! dst = Some (to_cell (take i ys ++ zs)) ∧ length zs = length xs ∧ copied (mapM to zs) vs h0 h').
Proof.
  intros H0 Hnew. revert h i ys vs F H0. induction xs as [|x xs IH]; intros h i ys vs F H0 Hdst Hlen Hvs.
  - injection Hvs as <- <-. apply yields_ret. split; [apply delete_subseteq|]. exists [].
    rewrite app_nil_r, take_ge by (simpl in Hlen; lia). split_and!; [done|done|]. by apply copied_ret.
  - cbn [mapM] in Hvs. apply reader_bind_Some in Hvs as (v & F1 & F2 & Hv & Hvs & ->).
    apply reader_bind_Some in Hvs as (vs' & F3 & F4 & Hvs & Hret & ->). injection Hret as <- <-.
    cbn [fill]. apply yields_bind. eapply yields_conseq; [exact (Hf x h v F1 (local_weaken _ _ _ _ _ Hv H0))|].
    cbn beta. intros y h1 [Hh1 (G & Hy & HG)].
    assert (h1 !! dst = Some (to_cell ys)) as Hdst1 by (by eapply lookup_weaken).
    assert (dst ∉ G) as HdstG by (apply elem_of_dom_2 in Hdst; set_solver).
    apply yields_bind. eexists tt, _. split.
    { unfold setIndex. rewrite Hdst1. change (Some ?c ≫= ?g) with (g c). rewrite of_to_cell.
      by rewrite (proj2 (Nat.ltb_lt i (length ys))) by (simpl in Hlen; lia). }
    set (h2 := <[dst := _]> h1).
    assert (h0 ⊆ h2) as H02 by (unfold h2; apply insert_subseteq_r; [done|by etrans]).
    eapply yields_conseq; [apply (IH h2 (S i) (<[i := y]> ys) vs' F3)|].
    + done.
    + unfold h2. by rewrite lookup_insert_eq.
    + rewrite length_insert. simpl in Hlen. lia.
    + done.
    + cbn beta. intros _ h' [Hh' (zs & Hz & Hzl & Hcop)]. split.
      { etrans; [|exact Hh']. unfold h2. rewrite delete_insert_eq. by apply delete_mono. }
      exists (y :: zs). split_and!; [|simpl; by f_equal|].
      * rewrite Hz. f_equal. f_equal. rewrite (take_S_r _ _ y), take_insert_ge, <- app_assoc by
          (rewrite ?list_lookup_insert_eq; simpl in Hlen; lia || done). done.
      * cbn [mapM]. eapply copied_bind; [|eapply copied_bind; [exact Hcop|by apply copied_ret, (copied_subseteq _ _ _ _ Hcop)]].
        split; [by apply (copied_subseteq _ _ _ _ Hcop)|]. exists G. split.
        -- eapply local_agree; [exact Hy|]. intros l Hl.
           assert (l ≠ dst) as Hne by set_solver.
           pose proof (local_dom _ _ _ Hy) as Hdom.
           assert (l ∈ dom h1) as [c Hc]%elem_of_dom by set_solver. rewrite Hc.
           eapply lookup_weaken; [|exact Hh']. unfold h2. rewrite delete_insert_eq. by rewrite lookup_delete_ne.
        -- apply subseteq_dom in H0. set_solver.
Qed.

End fill.

(** ** Parts of resources *)

(** A new array of copies, filled from the start. *)
Lemma filled {A B V} `{Cell (list B)} (f : A → HeapM B) (from : A → Reader V) (to : B → Reader V)
    (Lfrom : ∀ x, Local (from x)) (Lto : ∀ y, Local (to y)) xs ys h l vs F (Q : unit → heap → Prop) :
  (∀ x, copies (f x) (from x) to) → h !! l = None → length ys = length xs → mapM from xs h = Some (vs, F) →
  (∀ zs h', h' !! l = Some (to_cell zs) → length zs = length xs → copied (mapM to zs) vs h h' → Q tt h') →
  yields (fill f l 0 xs) (<[l := to_cell ys]> h) Q.
Proof.
  intros Hf Hl Hlen Hvs HQ.
  eapply yields_conseq; [apply (fill_copies f from to Lfrom Lto Hf xs h _ l 0 ys vs F)|].
  - by apply insert_subseteq.
  - done.
  - by rewrite lookup_insert_eq.
  - done.
  - done.
  - intros [] h' [_ (zs & Hz & Hzl & Hcop)]. by apply (HQ zs).
Qed.

Lemma cloneChain_copies s : copies (cloneChain s) (loadChain s) loadChain.
Proof.
  intros h vs F (ders & F1 & F2 & Hs & Hvs & ->)%reader_bind_Some.
  apply yields_bind. eapply yields_elements; [done|]. apply yields_bind, yields_alloc. intros l Hl.
  apply yields_bind. eapply (filled _ (loadSlice Byte.byte) (loadSlice Byte.byte)); [apply _|apply _| |done| |done|].
  - apply slicesClone_copies.
  - apply length_replicate.
  - intros zs h' Hz Hzl Hcop. apply yields_ret. rewrite <- Hzl.
    eapply copied_bind; [apply copied_slice; [by eapply copied_subseteq|done|done]|done].
Qed.

Lemma cloneValidation_copies v :
  copies (names ← slicesClone Identifier (gv_Names v); mret {| v with gv_Names := names |})
    (loadValidation v) loadValidation.
Proof.
  intros h w F (names & F1 & F2 & Hn & Hret & ->)%reader_bind_Some. injection Hret as <- <-.
  apply yields_bind. eapply yields_conseq; [by eapply slicesClone_copies|]. cbn beta. intros s' h' Hcop.
  apply yields_ret. eapply copied_bind; [exact Hcop|]. by apply copied_ret, (copied_subseteq _ _ _ _ Hcop).
Qed.

#[export] Instance Local_loadValidation v : Local (loadValidation v).
Proof. unfold loadValidation. apply _. Qed.

Lemma cloneValidations_copies s : copies (cloneValidations s) (loadValidations s) loadValidations.
Proof.
  intros h vs F (xs & F1 & F2 & Hs & Hvs & ->)%reader_bind_Some. unfold cloneValidations.
  destruct s as [[l [|n]]|].
  1,3: injection Hs as <- <-; apply yields_bind, yields_ret; cbn in Hvs; injection Hvs as <- <-;
    apply yields_ret; by apply copied_ret.
  pose proof (loadSlice_length _ _ _ _ _ _ Hs) as Hlen. cbn [slicesClone].
  apply yields_bind, yields_bind. eapply yields_elements; [done|]. apply yields_bind, yields_alloc. intros l' Hl'.
  apply yields_ret. apply yields_bind. eapply (yields_elements _ (Some (l', S n))).
  { cbn [loadSlice]. apply reader_bind_Some. eexists xs, _, ∅. split; [|split; [|done]].
    - apply load_Some. split; [|done]. rewrite lookup_insert_eq. apply of_to_cell.
    - unfold covered. rewrite <- Hlen, Nat.leb_refl. by rewrite take_ge. }
  apply yields_bind. eapply (filled _ loadValidation loadValidation); [apply _|apply _| |done|done|done|].
  - apply cloneValidation_copies.
  - intros zs h' Hz Hzl Hcop. apply yields_ret. rewrite <- Hlen, <- Hzl.
    eapply copied_bind; [apply copied_slice; [by eapply copied_subseteq|done|done]|done].
Qed.

(** A pointer with the copy of what it points to. *)
Lemma unlessNil_copies {V} (f : loc → HeapM loc) (r : loc → Reader V) p :
  (∀ l, copies (f l) (r l) r) → copies (unlessNil f p) (loadPointer r p) (loadPointer r).
Proof.
  intros Hf h v F. destruct p as [p|]; simpl.
  - intros (a & F1 & F2 & Ha & Hret & ->)%reader_bind_Some. injection Hret as <- <-. apply yields_bind.
    eapply yields_conseq; [by eapply Hf|]. cbn beta. intros q h' Hcop. apply yields_ret.
    eapply copied_bind; [exact Hcop|]. by apply copied_ret, (copied_subseteq _ _ _ _ Hcop).
  - intros Hret. injection Hret as <- <-. apply yields_ret. by apply copied_ret.
Qed.

Lemma cloneIdentifier_copies l :
  copies (id ← deref (A := Identifier) l; alloc id) (load (A := Identifier) l) load.
Proof.
  intros h v F Hl. apply yields_bind. eapply yields_deref; [done|]. apply yields_alloc. intros l' Hl'.
  apply copied_load; [by apply insert_subseteq|done|by rewrite lookup_insert_eq].
Qed.

(** ** Resources

    [part L H] runs the clone [L] of a part whose value [H] reads in the first heap, and [finish]
    allocates the copy and reads its parts. *)

(** What a sequence of clones keeps: the first heap [h] has grown to [h'], and the last part is a copy. *)
Lemma yields_part {A B V} (c : HeapM A) (from : Reader V) (to : A → Reader V) (k : A → HeapM B) h h1 v F Q :
  copies c from to → Local from → (∀ a, Local (to a)) → from h = Some (v, F) → h ⊆ h1 →
  (∀ a h2, h1 ⊆ h2 → h ⊆ h2 → (∀ h', h2 ⊆ h' → copied (to a) v h h') → yields (k a) h2 Q) →
  yields (c ≫= k) h1 Q.
Proof.
  intros Hc Lfrom Lto Hv Hh Hk. apply yields_bind. eapply yields_conseq; [exact (Hc h1 v F (local_weaken _ _ _ _ _ Hv Hh))|].
  cbn beta. intros a h2 Hcop. pose proof (copied_subseteq _ _ _ _ Hcop) as H12. apply Hk; [done|by etrans|].
  intros h' Hh'. by eapply copied_weaken.
Qed.

Lemma yields_final {A V} `{Cell A} (a : A) (to : loc → Reader V) v h h1 :
  h ⊆ h1 → (∀ l h', h' !! l = Some (to_cell a) → h !! l = None → h1 ⊆ h' → h ⊆ h' → copied (to l) v h h') →
  yields (alloc a) h1 (λ l h', copied (to l) v h h').
Proof.
  intros Hh Hto. apply yields_alloc. intros l Hl. apply Hto.
  - by rewrite lookup_insert_eq.
  - by eapply lookup_weaken_None.
  - by apply insert_subseteq.
  - etrans; [done|]. by apply insert_subseteq.
Qed.

Tactic Notation "part" uconstr(L) := eapply yields_part; [apply L|apply _|apply _|eassumption|done|].

(** Splits the read of a struct into those of its parts. *)
Ltac reads H := repeat (apply reader_bind_Some in H as (? & ? & ? & ? & H & _)); injection H as <- <-.

(** Starts with the struct a pointer refers to. *)
Ltac struct := apply yields_bind; eapply yields_deref; [eassumption|].

(** Allocates the copy, which reads the copies of the parts in the last heap. *)
Ltac grown := repeat match goal with
  | H : ?h ⊆ ?h1, K : ?h1 ⊆ ?h2 |- _ =>
      lazymatch goal with _ : h ⊆ h2 |- _ => fail | _ => assert (h ⊆ h2) by (by etrans) end
  end.
Ltac copy_all := apply yields_final; [done|]; intros l h' Hl Hn Hh' Hh; grown;
  eapply copied_bind; [by eapply copied_load|];
  repeat (eapply copied_bind; [match goal with H : ∀ h', _ → copied _ _ _ _ |- _ => by apply H end|]);
  by apply copied_ret.

Lemma cloneAuthorization_copies p : copies (cloneAuthorization p) (loadAuthorization p) loadAuthorization.
Proof.
  intros h v F Hp. reads Hp. struct. part slicesClone_copies. intros ids h1 ? ? ?.
  part slicesClone_copies. intros names h2 ? ? ?. copy_all.
Qed.

#[export] Instance Local_loadChain s : Local (loadChain s).
Proof. unfold loadChain. apply _. Qed.

#[export] Instance Local_loadValidations s : Local (loadValidations s).
Proof. unfold loadValidations. apply _. Qed.

#[export] Instance Local_loadIssuance p : Local (loadIssuance p).
Proof. unfold loadIssuance. apply _. Qed.

#[export] Instance Local_loadResult fuel p : Local (loadResult fuel p).
Proof. unfold loadResult. apply _. Qed.

Lemma cloneCertificate_copies p : copies (cloneCertificate p) (loadCertificate p) loadCertificate.
Proof.
  intros h v F Hp. reads Hp. struct. part cloneChain_copies. intros chain h1 ? ? ?.
  part cloneValidations_copies. intros validations h2 ? ? ?. copy_all.
Qed.

Lemma cloneSubproblems_copies f r s :
  (∀ p : option loc, Local (r p)) → (∀ p : option loc, copies (f p) (r p) (r : option loc → Reader (option Problem))) →
  copies match s with
         | None => mret None
         | Some (l, n) =>
             subs ← elements (Some (l, n));
             dst ← alloc (replicate n (None : option loc));
             _ ← fill f dst 0 subs;
             mret (Some (dst, n))
         end
    (subs ← loadSlice (option loc) s; mapM r subs) (λ s, subs ← loadSlice (option loc) s; mapM r subs).
Proof.
  intros Lr Hf h vs F (subs & F1 & F2 & Hs & Hvs & ->)%reader_bind_Some. destruct s as [[l n]|].
  - pose proof (loadSlice_length _ _ _ _ _ _ Hs) as Hlen.
    apply yields_bind. eapply yields_elements; [done|]. apply yields_bind, yields_alloc. intros l' Hl'.
    apply yields_bind. eapply (filled f r r); [done|done|done|done| |done|].
    + by rewrite length_replicate.
    + intros zs h' Hz Hzl Hcop. apply yields_ret. rewrite <- Hlen, <- Hzl.
      eapply copied_bind; [apply copied_slice; [by eapply copied_subseteq|done|done]|done].
  - injection Hs as <- <-. injection Hvs as <- <-. apply yields_ret. by apply (copied_ret []).
Qed.

Lemma cloneProblem_copies fuel p : copies (cloneProblem fuel p) (loadProblem fuel p) (loadProblem fuel).
Proof.
  revert p. induction fuel as [|fuel IH]; intros [p|] h v F Hp; try done.
  1,3: injection Hp as <- <-; apply yields_ret; by apply copied_ret.
  cbn [loadProblem] in Hp. apply reader_bind_Some in Hp as (c & F1 & F2 & Hc & Hp & _).
  apply reader_bind_Some in Hp as (id & F3 & F4 & Hid & Hp & _).
  apply reader_bind_Some in Hp as (algs & F5 & F6 & Halgs & Hp & _).
  apply reader_bind_Some in Hp as (subs & F7 & F8 & Hsubs & Hp & _).
  apply reader_bind_Some in Hp as (probs & F9 & F10 & Hprobs & Hret & _). injection Hret as <- <-.
  assert ((subs ← loadSlice (option loc) (gp_Subproblems c); mapM (loadProblem fuel) subs) h = Some (probs, F7 ∪ F9)) as Hall
    by (apply reader_bind_Some; eauto 10).
  cbn [cloneProblem]. struct.
  part (unlessNil_copies _ _ _ cloneIdentifier_copies). intros id' h1 ? ? Cid.
  part slicesClone_copies. intros algs' h2 ? ? Calgs.
  part (cloneSubproblems_copies _ _ _ _ IH). intros subs' h3 ? ? Csubs. grown.
  apply yields_bind. apply yields_alloc. intros l Hl. apply yields_ret.
  assert (h3 ⊆ <[l:=to_cell {| c with gp_Identifier := id'; gp_Algorithms := algs'; gp_Subproblems := subs' |}]> h3)
    as Hlast by (by apply insert_subseteq). grown.
  cbn [loadProblem]. eapply copied_bind; [apply copied_load; [done|by eapply lookup_weaken_None|by rewrite lookup_insert_eq]|].
  eapply copied_bind; [by apply Cid|]. eapply copied_bind; [by apply Calgs|].
  destruct (copied_bind_inv _ _ _ _ _ (Csubs _ Hlast)) as (subs'' & Csubs1 & Csubs2).
  eapply copied_bind; [exact Csubs1|]. eapply copied_bind; [exact Csubs2|]. by apply copied_ret.
Qed.

Lemma cloneChallenge_copies fuel p : copies (cloneChallenge fuel p) (loadChallenge fuel p) (loadChallenge fuel).
Proof.
  intros h v F Hp. reads Hp. struct. part cloneProblem_copies. intros err h1 ? ? ?. copy_all.
Qed.

Lemma cloneIssuance_copies p :
  copies (state ← deref p; validations ← cloneValidations (gi_Validations state);
          alloc {| state with gi_Validations := validations |}) (loadIssuance p) loadIssuance.
Proof.
  intros h v F Hp. reads Hp. struct. part cloneValidations_copies. intros validations h1 ? ? ?. copy_all.
Qed.

Lemma cloneResult_copies fuel p :
  copies (result ← deref p; chain ← cloneChain (gr_Chain result);
          rejected ← cloneProblem fuel (gr_Rejected result);
          alloc {| result with gr_Chain := chain; gr_Rejected := rejected |}) (loadResult fuel p) (loadResult fuel).
Proof.
  intros h v F Hp. reads Hp. struct. part cloneChain_copies. intros chain h1 ? ? ?.
  part cloneProblem_copies. intros err h2 ? ? ?. copy_all.
Qed.

Lemma cloneOrder_copies fuel p : copies (cloneOrder fuel p) (loadOrder fuel p) (loadOrder fuel).
Proof.
  intros h v F Hp. reads Hp. struct.
  part slicesClone_copies. intros ids h1 ? ? ?. part slicesClone_copies. intros authzIDs h2 ? ? ?.
  part slicesClone_copies. intros csr h3 ? ? ?. part cloneProblem_copies. intros err h4 ? ? ?.
  part (unlessNil_copies _ _ _ cloneIssuance_copies). intros issuance h5 ? ? ?.
  part (unlessNil_copies _ _ _ (cloneResult_copies fuel)). intros result h6 ? ? ?. copy_all.
Qed.

Lemma cloneTask_copies p : copies (cloneTask p) (load (A := Task) p) load.
Proof.
  intros h v F Hl. apply yields_bind. eapply yields_deref; [done|]. apply yields_alloc. intros l' Hl'.
  apply copied_load; [by apply insert_subseteq|done|by rewrite lookup_insert_eq].
Qed.

(** ** Keys and accounts *)

Section keys.
Context (ecdsa_Bytes : Curve → Z → Z → Res bytes) (ecdsa_Parse : Curve → bytes → Res (Z * Z)).

(** [ecdsa.ParseUncompressedPublicKey] parses what [PublicKey.Bytes] encodes. *)
Hypothesis ecdsa_point : ∀ curve x y point,
  ecdsa_Bytes curve x y = Ok point → ecdsa_Parse curve point = Ok (x, y).

(** A key [PublicKey.Bytes] encodes, when it is one of package ecdsa. *)
Definition encodable (key : PublicKey) : bool :=
  match key with
  | KeyECDSA curve x y => is_Ok (ecdsa_Bytes curve x y)
  | _ => true
  end.

(** Cells allocated one after the other are new. *)
Lemma clonePublicKey_copies key h v F :
  loadKey key h = Some (v, F) → encodable v = true →
  yields (clonePublicKey ecdsa_Bytes ecdsa_Parse key) h (λ key' h', copied (loadKey key') v h h').
Proof.
  destruct key as [p|p|k|description]; cbn [loadKey clonePublicKey].
  - intros ([[curve x] y] & F1 & F2 & Hp & Hv & ->)%reader_bind_Some. reads Hv. cbn [encodable].
    destruct (ecdsa_Bytes curve _ _) as [point|] eqn:Hb; [|done]. intros _.
    apply yields_bind. eapply yields_deref; [done|]. apply yields_bind. eapply yields_deref; [done|].
    apply yields_bind. eapply yields_deref; [done|]. rewrite Hb, (ecdsa_point _ _ _ _ Hb).
    apply yields_bind, yields_alloc. intros l1 Hl1. apply yields_bind, yields_alloc. intros l2 Hl2.
    apply yields_bind, yields_alloc. intros l3 Hl3. apply yields_ret.
    apply lookup_insert_None in Hl2 as [Hl2 H12]. apply lookup_insert_None in Hl3 as [[Hl3 H13]%lookup_insert_None H23].
    set (h' := <[l3 := _]> _).
    assert (h ⊆ h') as Hh by (unfold h'; repeat (apply insert_subseteq_r; [done|]); done).
    eapply copied_bind; [by apply copied_load; [| |apply lookup_insert_eq]|].
    eapply copied_bind; [apply copied_load; [done|done|]; unfold h'; by rewrite !lookup_insert_ne, lookup_insert_eq by done|].
    eapply copied_bind; [|by apply copied_ret].
    apply copied_load; [done|done|]. unfold h'. by rewrite lookup_insert_ne, lookup_insert_eq by done.
  - intros ([n e] & F1 & F2 & Hp & Hv & ->)%reader_bind_Some _. reads Hv.
    apply yields_bind. eapply yields_deref; [done|]. apply yields_bind. eapply yields_deref; [done|].
    apply yields_bind, yields_alloc. intros l1 Hl1. apply yields_bind, yields_alloc. intros l2 Hl2. apply yields_ret.
    apply lookup_insert_None in Hl2 as [Hl2 H12]. set (h' := <[l2 := _]> _).
    assert (h ⊆ h') as Hh by (unfold h'; repeat (apply insert_subseteq_r; [done|]); done).
    eapply copied_bind; [by apply copied_load; [| |apply lookup_insert_eq]|].
    eapply copied_bind; [|by apply copied_ret].
    apply copied_load; [done|done|]. unfold h'. by rewrite lookup_insert_ne, lookup_insert_eq by done.
  - intros (b & F1 & F2 & Hk & Hret & ->)%reader_bind_Some _. injection Hret as <- <-.
    apply yields_bind. eapply yields_conseq; [by eapply slicesClone_copies|]. cbn beta. intros s' h' Hcop.
    apply yields_ret. eapply copied_bind; [exact Hcop|]. by apply copied_ret, (copied_subseteq _ _ _ _ Hcop).
  - intros Hret _. injection Hret as <- <-. apply yields_ret. by apply copied_ret.
Qed.

(** The account with its key, when the key can be copied. *)
Definition loadEncodable (p : loc) : Reader Account := λ h,
  match loadAccount p h with
  | Some (a, F) => if encodable (acct_Key a) then Some (a, F) else None
  | None => None
  end.

Lemma loadEncodable_Some p h a F :
  loadEncodable p h = Some (a, F) ↔ loadAccount p h = Some (a, F) ∧ encodable (acct_Key a) = true.
Proof.
  unfold loadEncodable. destruct (loadAccount p h) as [[b G]|]; [|naive_solver].
  destruct (encodable (acct_Key b)) eqn:E; split.
  - by intros [= <- <-].
  - by intros [-> _].
  - done.
  - intros [[= <- <-] Hk]. congruence.
Qed.

#[export] Instance Local_loadEncodable p : Local (loadEncodable p).
Proof.
  assert (Local (loadAccount p)) as L by (unfold loadAccount; apply _). split.
  - intros h a F [Ha _]%loadEncodable_Some. by eapply local_dom.
  - intros h g a F [Ha Hk]%loadEncodable_Some Hg. apply loadEncodable_Some. split; [by eapply local_agree|done].
Qed.

Lemma copied_encodable l v h h' :
  encodable (acct_Key v) = true → copied (loadAccount l) v h h' → copied (loadEncodable l) v h h'.
Proof. intros Hk [Hh (F & Hl & HF)]. split; [done|]. exists F. split; [|done]. by apply loadEncodable_Some. Qed.

Lemma cloneAccount_copies p :
  copies (cloneAccount ecdsa_Bytes ecdsa_Parse p) (loadEncodable p) loadEncodable.
Proof.
  intros h v F [Hp Hkey]%loadEncodable_Some. reads Hp. cbn [acct_Key] in Hkey. struct.
  part slicesClone_copies. intros contact h1 ? ? Ccontact.
  apply yields_bind. eapply yields_conseq;
    [eapply clonePublicKey_copies; [eapply local_weaken; [apply _|eassumption|done]|done]|].
  cbn beta. intros key' h2 Ckey. pose proof (copied_subseteq _ _ _ _ Ckey) as H12. grown.
  apply yields_final; [done|]. intros l h' Hl Hn Hh' Hh. grown.
  apply copied_encodable; [done|].
  eapply copied_bind; [by eapply copied_load|]. eapply copied_bind; [by apply Ccontact|].
  eapply copied_bind; [|by apply copied_ret]. exact (copied_weaken _ _ h h1 h2 h' Ckey ltac:(done) ltac:(done)).
Qed.

End keys.

(** ** Isolation *)

(** The clone of a resource denotes the same value. What is written to cells that the copy does not
    reach leaves the copy as it is, and what is written to cells it reaches, the original. *)
Definition deepCopy {V} (clone : loc → HeapM loc) (read : loc → Reader V) : Prop :=
  ∀ h p v F, read p h = Some (v, F) →
  ∃ p' h' F', clone p h = Some (p', h') ∧ read p' h' = Some (v, F') ∧ F ## F' ∧
    (∀ g, (∀ l, l ∈ F' → g !! l = h' !! l) → read p' g = Some (v, F')) ∧
    (∀ g, (∀ l, l ∉ F' → g !! l = h' !! l) → read p g = Some (v, F)).

Lemma copies_deepCopy {V} (clone : loc → HeapM loc) (read : loc → Reader V) :
  (∀ p, Local (read p)) → (∀ p, copies (clone p) (read p) read) → deepCopy clone read.
Proof.
  intros L Hc h p v F Hp. destruct (Hc p h v F Hp) as (p' & h' & Heq & Hh & F' & Hp' & HF').
  pose proof (local_dom _ _ _ Hp) as HF. exists p', h', F'. split_and!; [done|done|set_solver| |].
  - intros g Hg. by eapply local_agree.
  - intros g Hg. eapply local_agree; [exact Hp|]. intros l Hl.
    assert (l ∈ dom h) as [c Hc']%elem_of_dom by set_solver. rewrite Hc', Hg by set_solver. by eapply lookup_weaken.
Qed.

(** C27. The copies the in-memory store keeps and returns are deep: for every kind of resource the
    clone denotes the value of the original, no write outside the memory the clone reaches changes
    it, and no write to that memory changes the original. An account is copied this way when its
    key is encodable, a problem when its subproblems are nested at most as deep as the fuel. *)
Theorem clones_deep ecdsa_Bytes ecdsa_Parse fuel :
  (∀ curve x y point, ecdsa_Bytes curve x y = Ok point → ecdsa_Parse curve point = Ok (x, y)) →
  deepCopy (cloneAccount ecdsa_Bytes ecdsa_Parse) (loadEncodable ecdsa_Bytes) ∧
  deepCopy (cloneOrder fuel) (loadOrder fuel) ∧
  deepCopy cloneAuthorization loadAuthorization ∧
  deepCopy (cloneChallenge fuel) (loadChallenge fuel) ∧
  deepCopy cloneCertificate loadCertificate ∧
  deepCopy cloneTask (load (A := Task)).
Proof.
  intros Hpoint. split_and!; apply copies_deepCopy; try (intros p; unfold loadOrder, loadAuthorization,
    loadChallenge, loadCertificate; apply _).
  - by apply cloneAccount_copies.
  - apply cloneOrder_copies.
  - apply cloneAuthorization_copies.
  - apply cloneChallenge_copies.
  - apply cloneCertificate_copies.
  - apply cloneTask_copies.
Qed.

(** An order that failed with a compound problem of one subproblem, in memory. *)
Definition sampleOrder : Order :=
  mkOrder "o" "a" OrderInvalid 0 [] 0 0 [] None [] "" None None "" "" 0 1.

Definition sampleHeap : heap :=
  list_to_map
    [(0%nat, OrderCell (mkGOrder sampleOrder (Some (1%nat, 1%nat)) None (Some (2%nat, 0%nat)) (Some 3%nat) None None));
     (1%nat, IdentifiersCell [mkIdentifier IdentifierDNS "a.test"]);
     (2%nat, BytesCell []);
     (3%nat, ProblemCell (mkGProblem (Compound "order" []) None (Some (4%nat, 2%nat)) None));
     (4%nat, ProblemsCell [Some 5%nat; None]);
     (5%nat, ProblemCell (mkGProblem (NewProblem ErrorDNS "no answer") (Some 6%nat) None None));
     (6%nat, IdentifierCell (mkIdentifier IdentifierDNS "a.test"))].

(** The order the heap holds. *)
Definition sampleDenotes : Order :=
  {| sampleOrder with
     ord_Identifiers := [mkIdentifier IdentifierDNS "a.test"];
     ord_Error := Some (Compound "order"
       [Some (WithIdentifier (NewProblem ErrorDNS "no answer") (mkIdentifier IdentifierDNS "a.test")); None]) |}.

Lemma clones_deep_witness :
  ∃ p' h' F', cloneOrder 2 0%nat sampleHeap = Some (p', h') ∧ loadOrder 2 p' h' = Some (sampleDenotes, F') ∧
    (∀ g, (∀ l, l ∉ F' → g !! l = h' !! l) → ∃ F, loadOrder 2 0%nat g = Some (sampleDenotes, F)).
Proof.
  pose proof (clones_deep (λ _ _ _, Err ErrPanic) (λ _ _, Err ErrPanic) 2 ltac:(discriminate)) as (_ & Horder & _).
  assert (∃ F, loadOrder 2 0%nat sampleHeap = Some (sampleDenotes, F)) as [F HF] by (eexists; vm_compute; reflexivity).
  destruct (Horder _ _ _ _ HF) as (p' & h' & F' & Hc & Hl & _ & _ & Hg).
  exists p', h', F'. split; [exact Hc|]. split; [exact Hl|]. intros g Hag. exists F. exact (Hg g Hag).
Defined.
