(* ===== verification/RunLoop.v ===== *)
(** * The worker loop (src/worker.go, [Server.Run])

    The state that calls of [Run] share, and the loop as a transition system: one transition is one
    operation on a channel, on the running flag or on the store, by a call of [Run], by a task it
    started or by its environment. A channel of capacity [n] is the number of values in it; a select
    with several ready cases takes any of them. The tasks themselves run as [process] of Issuance.v;
    here a task in flight may end at any time. *)

From S2P Require Import Prelude Status Problem Resource.

(** Where a call of [Run] is. *)
Inductive runAt : Type :=
| Starting                         (* before the running flag is swapped *)
| Selecting                        (* the select for a slot *)
| Claiming                         (* holds a slot for the task it claims *)
| Waiting                          (* the select for the wake-up and the timer *)
| Draining                         (* returned, in the deferred wg.Wait *)
| Returned (err : option error).

(** One call of [Run]: whether its context ended, the values in [slots] and the tasks in flight. *)
Record runCall : Type := mkRunCall {
  rc_at : runAt;
  rc_done : bool;
  rc_slots : nat;
  rc_tasks : list Task
}.

(** The running flag, whether the wake channel of capacity 1 is full, and the calls of [Run]. *)
Record runState : Type := mkRunState {
  rs_running : bool;
  rs_wake : bool;
  rs_calls : list runCall
}.

Definition runIdle : runState := mkRunState false false [].

Inductive runStep : Type :=
| CallRun                          (* a goroutine calls Run *)
| Cancel (i : nat)                 (* the context of a call ends *)
| Accept                           (* workAccepted *)
| Swap (i : nat)                   (* s.running.CompareAndSwap *)
| SelectDone (i : nat)             (* case <-ctx.Done() *)
| SelectSlot (i : nat)             (* case slots <- struct{}{} *)
| Claim (i : nat) (r : Res Task)   (* ClaimTask returns *)
| WaitDone (i : nat)               (* case <-ctx.Done() *)
| WaitWake (i : nat)               (* case <-s.wake *)
| WaitTimer (i : nat)              (* case <-timer.C *)
| Finish (i k : nat)               (* a task in flight ends and releases its slot *)
| Return (i : nat).                (* wg.Wait returns *)

Section RunLoop.
Context (concurrency : nat).

Definition errRunning : error := ErrMsg "acmeserver: Run is already active".

Definition newCall : runCall := mkRunCall Starting false 0 [].

(** Moves a call of [Run]; the flags stay. *)
Definition moved (i : nat) (c : runCall) (w : runState) : runState :=
  {| w with rs_calls := <[i := c]> (rs_calls w) |}.

(** A transition of a call at one place of the loop. *)
Definition from (i : nat) (w : runState) (enabled : runCall → bool) (next : runCall → runState) : option runState :=
  match rs_calls w !! i with
  | Some c => if enabled c then Some (next c) else None
  | None => None
  end.

Definition isAt (pc : runAt) (c : runCall) : bool :=
  match rc_at c, pc with
  | Starting, Starting | Selecting, Selecting | Claiming, Claiming | Waiting, Waiting | Draining, Draining => true
  | _, _ => false
  end.

(** The state after a transition, if it is possible. A claim may succeed also when the context ended
    meanwhile: the loop starts the task whenever the store returns one. The deferred calls of [Run] run in
    reverse order: it waits for the tasks and then clears the running flag. *)
Definition runNext (s : runStep) (w : runState) : option runState :=
  match s with
  | CallRun => Some {| w with rs_calls := rs_calls w ++ [newCall] |}
  | Cancel i => from i w (λ _, true) (λ c, moved i {| c with rc_done := true |} w)
  | Accept => Some {| w with rs_wake := true |}
  | Swap i =>
      from i w (isAt Starting) (λ c,
        if rs_running w then moved i {| c with rc_at := Returned (Some errRunning) |} w
        else moved i {| c with rc_at := Selecting |} {| w with rs_running := true |})
  | SelectDone i =>
      from i w (λ c, isAt Selecting c && rc_done c) (λ c, moved i {| c with rc_at := Draining |} w)
  | SelectSlot i =>
      from i w (λ c, isAt Selecting c && (rc_slots c <? concurrency)%nat) (λ c,
        moved i {| c with rc_at := Claiming; rc_slots := S (rc_slots c) |} w)
  | Claim i (Ok task) =>
      from i w (isAt Claiming) (λ c,
        moved i {| c with rc_at := Selecting; rc_tasks := rc_tasks c ++ [task] |} w)
  | Claim i (Err err) =>
      from i w (isAt Claiming) (λ c,
        moved i {| c with rc_at := Waiting; rc_slots := pred (rc_slots c) |} w)
  | WaitDone i =>
      from i w (λ c, isAt Waiting c && rc_done c) (λ c, moved i {| c with rc_at := Draining |} w)
  | WaitWake i =>
      from i w (λ c, isAt Waiting c && rs_wake w) (λ c,
        moved i {| c with rc_at := Selecting |} {| w with rs_wake := false |})
  | WaitTimer i => from i w (isAt Waiting) (λ c, moved i {| c with rc_at := Selecting |} w)
  | Finish i k =>
      from i w (λ c, (k <? length (rc_tasks c))%nat) (λ c,
        moved i {| c with rc_slots := pred (rc_slots c); rc_tasks := delete k (rc_tasks c) |} w)
  | Return i =>
      from i w (λ c, isAt Draining c && (rc_tasks c == [])) (λ c,
        moved i {| c with rc_at := Returned None |} {| w with rs_running := false |})
  end.

(** A sequence of transitions. *)
Fixpoint runSteps (l : list runStep) (w : runState) : option runState :=
  match l with
  | [] => Some w
  | s :: l => w ← runNext s w; runSteps l w
  end.

(** ** Invariant *)

(** A call that has the running flag. *)
Definition active (c : runCall) : bool :=
  match rc_at c with
  | Starting | Returned _ => false
  | _ => true
  end.

(** The values in [slots] are the tasks in flight and the slot of the next claim; a call that does
    not have the flag has no tasks. *)
Record callOk (c : runCall) : Prop := mkCallOk {
  ok_slots : rc_slots c = (length (rc_tasks c) + if isAt Claiming c then 1 else 0)%nat;
  ok_bound : (rc_slots c ≤ concurrency)%nat;
  ok_tasks : active c = false → rc_tasks c = []
}.

(** At most one call has the running flag, and it is set when one has. *)
Record stateOk (w : runState) : Prop := mkStateOk {
  so_calls : Forall callOk (rs_calls w);
  so_active : length (List.filter active (rs_calls w)) = if rs_running w then 1%nat else 0%nat
}.

(** The number of tasks in flight in the process. *)
Definition inFlight (w : runState) : nat := sum_list_with (λ c, length (rc_tasks c)) (rs_calls w).

(** ** Preservation *)

Lemma filter_insert (l : list runCall) i c c' :
  l !! i = Some c →
  (length (List.filter active (<[i := c']> l)) + (if active c then 1 else 0) =
   length (List.filter active l) + (if active c' then 1 else 0))%nat.
Proof.
  revert i. induction l as [|d l IH]; intros [|i] Hi; try done.
  - injection Hi as ->. simpl. destruct (active c), (active c'); simpl; lia.
  - simpl in Hi. specialize (IH _ Hi). simpl. destruct (active d); simpl; lia.
Qed.

(** A transition of one call that keeps its part of the invariant. *)
Lemma moved_ok i c c' (w : runState) (running wake : bool) :
  stateOk w → rs_calls w !! i = Some c → callOk c' →
  ((if active c' then 1 else 0) + (if rs_running w then 1 else 0) =
   (if active c then 1 else 0) + (if running then 1 else 0))%nat →
  stateOk (moved i c' {| w with rs_running := running; rs_wake := wake |}).
Proof.
  intros [Hcalls Hact] Hi Hc' Hn. split; simpl; [by apply Forall_insert|].
  pose proof (filter_insert _ _ _ c' Hi) as Hf. destruct (active c), (active c'), running, (rs_running w); lia.
Qed.

Lemma from_Some i w enabled next w' :
  from i w enabled next = Some w' → ∃ c, rs_calls w !! i = Some c ∧ enabled c = true ∧ w' = next c.
Proof.
  unfold from. destruct (rs_calls w !! i) as [c|]; [|done]. destruct (enabled c) eqn:E; [|done].
  intros [= <-]. eauto.
Qed.

(** A call that has the flag finds it set. *)
Lemma active_running w i c : stateOk w → rs_calls w !! i = Some c → active c = true → rs_running w = true.
Proof.
  intros [_ Hact] Hi Hc. destruct (rs_running w); [done|].
  assert (c ∈ List.filter active (rs_calls w)) as Hin.
  { apply list_elem_of_In, filter_In. split; [by eapply list_elem_of_In, list_elem_of_lookup_2|done]. }
  destruct (List.filter active (rs_calls w)); [by apply not_elem_of_nil in Hin|done].
Qed.

(** What a transition does to one call and to the flags. *)
Definition callStep (w : runState) (c c' : runCall) (running : bool) : Prop :=
  callOk c → (active c = true → rs_running w = true) →
  callOk c' ∧ ((if active c' then 1 else 0) + (if rs_running w then 1 else 0) =
               (if active c then 1 else 0) + (if running then 1 else 0))%nat.

Lemma callStep_ok w i c c' running wake :
  stateOk w → rs_calls w !! i = Some c → callStep w c c' running →
  stateOk (moved i c' (mkRunState running wake (rs_calls w))).
Proof.
  intros Hw Hi Hs. destruct Hs as [Hc' Hn].
  - pose proof (so_calls _ Hw) as Hall. by eapply Forall_lookup_1.
  - by eapply active_running.
  - by eapply (moved_ok i c c' w running wake).
Qed.

Lemma length_delete_lt {A} (l : list A) k : (k <? length l)%nat = true → length (delete k l) = pred (length l).
Proof. intros Hk%Nat.ltb_lt. rewrite length_delete; [lia|]. by apply lookup_lt_is_Some. Qed.

Ltac call_step := intros [Hs Hb Ht] Hr; simpl in *; try (specialize (Hr eq_refl));
  first [discriminate
    |split; [split; simpl|]; rewrite ?length_app; simpl; try done; try lia; try (by intros; apply Ht)].

Lemma runNext_ok s w w' : stateOk w → runNext s w = Some w' → stateOk w'.
Proof.
  intros Hw. destruct s as [| i | | i | i | i | i [t|err] | i | i | i | i k | i]; cbn [runNext].
  1: { intros [= <-]. destruct Hw as [Hcalls Hact]. split; simpl in *.
    - apply Forall_app. split; [done|]. constructor; [split; simpl; [done|lia|done]|constructor].
    - rewrite List.filter_app, length_app, Hact. simpl. destruct (rs_running w); lia. }
  2: { intros [= <-]. by destruct Hw. }
  all: intros ([pc fin slots tasks] & Hi & Hat & ->)%from_Some; simpl in Hat.
  all: try (destruct pc; try discriminate).
  all: try (apply andb_true_iff in Hat as [_ Hat]).
  all: destruct w as [[] wake calls]; cbn [rs_running].
  all: eapply (callStep_ok _ _ _ _ _ _ Hw Hi); call_step.
  all: try (apply Nat.ltb_lt in Hat; lia).
  all: try (intros Ha; rewrite (Ht Ha) in *; done).
  all: try (pose proof (length_delete_lt _ _ Hat); apply Nat.ltb_lt in Hat; lia).
  all: apply bool_decide_eq_true in Hat; by subst.
Qed.

Lemma runIdle_ok : stateOk runIdle.
Proof. by split; [constructor|]. Qed.

Lemma runSteps_ok l w w' : stateOk w → runSteps l w = Some w' → stateOk w'.
Proof.
  revert w. induction l as [|s l IH]; intros w Hw; simpl; [by intros [= <-]|].
  destruct (runNext s w) as [w1|] eqn:Hs; [|done]. apply IH. by eapply runNext_ok.
Qed.

(** ** Tasks in flight *)

Lemma inFlight_bound w : stateOk w → (inFlight w ≤ if rs_running w then concurrency else 0)%nat.
Proof.
  intros [Hcalls Hact]. unfold inFlight.
  assert (sum_list_with (λ c, length (rc_tasks c)) (rs_calls w) ≤
          length (List.filter active (rs_calls w)) * concurrency)%nat as Hsum.
  { clear Hact. induction Hcalls as [|c l [Hs Hb Ht] Hall IH]; simpl; [lia|].
    destruct (active c) eqn:Hc; simpl; [lia|]. rewrite Ht by done. simpl. lia. }
  rewrite Hact in Hsum. destruct (rs_running w); lia.
Qed.

(** ** Returning after cancellation *)

















End RunLoop.

(** C28. However calls of [Run], their cancellation, accepted work and the ends of tasks interleave,
    at most one call is active and at most [Concurrency] tasks are in flight in the process, none of
    them without an active call; a call of [Run] is refused exactly when another one is active. *)
Theorem run_exclusive concurrency l w :
  runSteps concurrency l runIdle = Some w →
  (length (List.filter active (rs_calls w)) ≤ 1)%nat ∧ (inFlight w ≤ concurrency)%nat ∧
  (List.filter active (rs_calls w) = [] → inFlight w = 0%nat) ∧
  ∀ i w', runNext concurrency (Swap i) w = Some w' →
    (rc_at <$> rs_calls w' !! i = Some (Returned (Some errRunning)) ↔ List.filter active (rs_calls w) ≠ []).
Proof.
  intros Hl. apply runSteps_ok in Hl as Hw; [|apply runIdle_ok].
  pose proof (inFlight_bound _ _ Hw) as Hbound. destruct Hw as [Hcalls Hact]. split_and!.
  - rewrite Hact. destruct (rs_running w); lia.
  - destruct (rs_running w); lia.
  - intros Hnone. rewrite Hnone in Hact. destruct (rs_running w); [done|lia].
  - intros i w' (c & Hi & Hat & ->)%from_Some. apply lookup_lt_Some in Hi as Hlt.
    destruct (rs_running w); simpl; rewrite list_lookup_insert_eq by done; simpl.
    + split; [|done]. intros _ Hnone. by rewrite Hnone in Hact.
    + split; [done|]. intros Hsome. by destruct (List.filter active (rs_calls w)).
Qed.

Definition sampleTask : Task := mkTask "t" TaskIssue "o" "a" 0 0 0 0 0.

(** Two calls of which one is refused, and two tasks in flight with two slots. *)
Definition sampleSteps : list runStep :=
  [CallRun; CallRun; Swap 0; Swap 1; SelectSlot 0; Claim 0 (Ok sampleTask); SelectSlot 0; Claim 0 (Ok sampleTask)].

Lemma run_exclusive_witness :
  ∃ w, runSteps 2 sampleSteps runIdle = Some w ∧ inFlight w = 2%nat ∧ (inFlight w ≤ 2)%nat ∧
    runNext 2 (SelectSlot 0) w = None.
Proof.
  eexists. split; [vm_compute; reflexivity|]. split; [reflexivity|]. split; [|reflexivity].
  apply (run_exclusive 2 sampleSteps). vm_compute. reflexivity.
Defined.




