(* ===== verification/Renewal.v ===== *)
(** * The lifetime advisor (src/renewal.go, [LifetimeRenewal])

    The advisor of the library that places the renewal window at fractions of the certificate
    lifetime. Fractions are [float64] values, here the binary64 numbers of the standard library's
    specification of floating point, with its rounding to nearest even. *)

From S2P Require Import Prelude Status Problem Resource StoreSpec Prog Host Platform Revoke.
From Stdlib Require Import Floats.SpecFloat.

(** [t.Sub(u)]: the difference, or the nearest duration when it is out of range. *)
Definition time_Sub (t u : Time) : Duration := Z.max (- 2 ^ 63) (Z.min (t - u) (2 ^ 63 - 1)).

(** ** The advisor *)

Record LifetimeRenewal : Type := mkLifetimeRenewal {
  lr_Start : float64;
  lr_End : float64;
  lr_ExplanationURL : string;
  lr_RetryAfter : Duration
}.

Definition f64_zero : float64 := S754_zero false.
Definition f64_one : float64 := f64_of_int 1.

(** The constants [2.0 / 3] and [5.0 / 6]. *)
Definition twoThirds : float64 := f64_div (f64_of_int 2) (f64_of_int 3).
Definition fiveSixths : float64 := f64_div (f64_of_int 5) (f64_of_int 6).

Section Renewal.
(** [time.Duration(x)] for a value outside the range of [int64] depends on the implementation. *)
Context (outOfRange : float64 → Duration).

Definition f64_Duration (x : float64) : Duration :=
  match f64_trunc x with
  | Some z => if (- 2 ^ 63 <=? z)%Z && (z <? 2 ^ 63)%Z then z else outOfRange x
  | None => outOfRange x
  end.

(** Returns the window for the certificate. A revoked certificate gets a window that opened at its
    revocation and ends at the time of the request. [now] is the time of the advisor's clock. *)
Definition LifetimeRenewalInfo (l : LifetimeRenewal) (cert : Certificate) (now : Time) : Res RenewalInfo :=
  if crt_Revoked cert then
    let (start, stop) := ImmediateRenewal (crt_RevokedAt cert) now in
    Ok (mkRenewalInfo start stop (lr_ExplanationURL l) (lr_RetryAfter l))
  else
    let start := if f64_eq (lr_Start l) f64_zero then twoThirds else lr_Start l in
    let stop := if f64_eq (lr_End l) f64_zero then fiveSixths else lr_End l in
    if f64_lt start f64_zero || f64_le stop start || f64_lt f64_one stop
    then Err (ErrMsg "acmeserver: LifetimeRenewal needs 0 <= Start < End <= 1")
    else
      let lifetime := time_Sub (crt_NotAfter cert) (crt_NotBefore cert) in
      let at_ (fraction : float64) :=
        TruncateSecond (crt_NotBefore cert + f64_Duration (f64_mul (f64_of_int lifetime) fraction)) in
      Ok (mkRenewalInfo (at_ start) (at_ stop) (lr_ExplanationURL l) (lr_RetryAfter l)).

End Renewal.

(** ** Rounding

    Rounding to 53 bits changes a number by at most one part in 2^52. *)

Lemma digits2_log2 p : Zpos (digits2_pos p) = (Z.log2 (Zpos p) + 1)%Z.
Proof.
  induction p as [p IH|p IH|]; [| |done]; cbn [digits2_pos]; rewrite Pos2Z.inj_succ, IH.
  - rewrite (Pos2Z.inj_xI p), Z.log2_succ_double by lia. lia.
  - rewrite (Pos2Z.inj_xO p), Z.log2_double by lia. lia.
Qed.

Lemma shr_1_div mrs : (0 ≤ shr_m mrs)%Z → shr_m (shr_1 mrs) = (shr_m mrs / 2)%Z.
Proof.
  destruct mrs as [m r s]. simpl. intros Hm. destruct m as [|[p|p|]|p]; simpl; try done; try lia.
  - rewrite (Pos2Z.inj_xI p). Z.to_euclidean_division_equations. lia.
  - rewrite (Pos2Z.inj_xO p). Z.to_euclidean_division_equations. lia.
Qed.

Lemma shr_iter_div p mrs :
  (0 ≤ shr_m mrs)%Z → shr_m (iter_pos shr_1 p mrs) = (shr_m mrs / 2 ^ Zpos p)%Z.
Proof.
  revert mrs. induction p as [p IH|p IH|]; intros mrs Hm; cbn [iter_pos].
  - pose proof (shr_1_div _ Hm) as H1. assert (0 ≤ shr_m (shr_1 mrs))%Z as Hm1 by (rewrite H1; apply Z.div_pos; lia).
    pose proof (IH _ Hm1) as H2. assert (0 ≤ shr_m (iter_pos shr_1 p (shr_1 mrs)))%Z as Hm2
      by (rewrite H2; apply Z.div_pos; lia).
    rewrite (IH _ Hm2), H2, H1, !Z.div_div by lia. f_equal. rewrite (Pos2Z.inj_xI p).
    replace (2 * Zpos p + 1)%Z with (1 + Zpos p + Zpos p)%Z by lia. rewrite !Z.pow_add_r by lia. lia.
  - pose proof (IH _ Hm) as H2. assert (0 ≤ shr_m (iter_pos shr_1 p mrs))%Z as Hm2
      by (rewrite H2; apply Z.div_pos; lia).
    rewrite (IH _ Hm2), H2, Z.div_div by lia. f_equal. rewrite (Pos2Z.inj_xO p).
    replace (2 * Zpos p)%Z with (Zpos p + Zpos p)%Z by lia. rewrite !Z.pow_add_r by lia. done.
  - by apply shr_1_div.
Qed.

Lemma round_nearest_even_cases m l : round_nearest_even m l = m ∨ round_nearest_even m l = (m + 1)%Z.
Proof. unfold round_nearest_even. destruct l as [|[]]; auto. case_match; auto. Qed.

(** The number of bits of a positive number. *)
Lemma Zdigits2_bounds m : (0 < m)%Z → (2 ^ (Zdigits2 m - 1) ≤ m < 2 ^ Zdigits2 m)%Z ∧ (0 < Zdigits2 m)%Z.
Proof.
  intros Hm. destruct m as [|p|p]; try lia. cbn [Zdigits2]. rewrite digits2_log2.
  pose proof (Z.log2_spec (Zpos p) ltac:(lia)) as [Hlo Hhi]. pose proof (Z.log2_nonneg (Zpos p)).
  rewrite Z.add_simpl_r. split; [split; [done|]|lia]. by rewrite Z.add_1_r.
Qed.

Lemma fexp_normal e : (-900 ≤ e)%Z → fexp 53 1024 e = (e - 53)%Z.
Proof. intros He. unfold fexp, emin. lia. Qed.

(** Shifting out what is beyond 53 bits. *)
Lemma shr_fexp_normal m e :
  (0 < m)%Z → (-900 ≤ e)%Z →
  let n := Z.max 0 (Zdigits2 m - 53) in
  ∃ r s, shr_fexp 53 1024 m e loc_Exact =
    ({| shr_m := (m / 2 ^ n)%Z; shr_r := r; shr_s := s |}, (e + n)%Z) ∧ (n = 0%Z → r = false ∧ s = false).
Proof.
  intros Hm He n. destruct (Zdigits2_bounds m Hm) as [_ Hd]. unfold shr_fexp. rewrite fexp_normal by lia.
  replace (Zdigits2 m + e - 53 - e)%Z with (Zdigits2 m - 53)%Z by lia. unfold shr.
  destruct (Zdigits2 m - 53)%Z as [|p|p] eqn:Hn.
  - exists false, false. unfold n. simpl. by rewrite Z.div_1_r, Z.add_0_r.
  - assert (n = Zpos p) as Hnp by (unfold n; lia). rewrite Hnp.
    pose proof (shr_iter_div p (shr_record_of_loc m loc_Exact) ltac:(simpl; lia)) as Hit. simpl in Hit.
    destruct (iter_pos shr_1 p _) as [m' r s]. simpl in *. subst m'. exists r, s. split; [done|lia].
  - exists false, false. assert (n = 0%Z) as -> by (unfold n; lia). by rewrite Z.div_1_r, Z.add_0_r.
Qed.

Lemma Zdigits2_unique m d : (0 < m)%Z → (2 ^ (d - 1) ≤ m < 2 ^ d)%Z → (0 < d)%Z → Zdigits2 m = d.
Proof.
  intros Hm Hd Hpos. destruct m as [|p|p]; try lia. cbn [Zdigits2]. rewrite digits2_log2.
  rewrite (Z.log2_unique (Zpos p) (d - 1)); [lia|lia|]. by replace (Z.succ (d - 1)) with d by lia.
Qed.

(** A mantissa that rounding took to at most 53 bits, or to the next power of two. *)
Lemma shr_fexp_rounded m e :
  (0 < m ≤ 2 ^ 53)%Z → (-900 ≤ e)%Z →
  ∃ m' n r s, shr_fexp 53 1024 m e loc_Exact = ({| shr_m := m'; shr_r := r; shr_s := s |}, (e + n)%Z) ∧
    (0 ≤ n ≤ 1)%Z ∧ (m' * 2 ^ n = m)%Z.
Proof.
  intros Hm He. destruct (shr_fexp_normal m e) as (r & s & Heq & _); [lia|done|].
  destruct (Z.eq_dec m (2 ^ 53)) as [Hmax|Hlt].
  - assert (Zdigits2 m = 54%Z) as Hd by (apply Zdigits2_unique; lia). rewrite Hd in Heq.
    exists (m / 2 ^ 1)%Z, 1%Z, r, s. split; [exact Heq|]. split; [lia|]. subst m. reflexivity.
  - assert (Zdigits2 m ≤ 53)%Z as Hd.
    { destruct (Zdigits2_bounds m) as [[Hlo _] Hpos]; [lia|]. destruct (Z.le_gt_cases (Zdigits2 m) 53) as [|Hgt]; [done|].
      pose proof (Z.pow_le_mono_r 2 53 (Zdigits2 m - 1) ltac:(lia) ltac:(lia)). lia. }
    rewrite Z.max_l in Heq by lia. exists (m / 2 ^ 0)%Z, 0%Z, r, s. split; [done|]. split; [lia|].
    by rewrite Z.div_1_r, Z.mul_1_r.
Qed.

Lemma round_normal m e :
  (0 < m)%Z → (-900 ≤ e)%Z → (Zdigits2 m + e ≤ 900)%Z →
  ∃ p e', binary_round_aux 53 1024 false m e loc_Exact = S754_finite false p e' ∧ (e ≤ e')%Z ∧
    (Z.abs (Zpos p * 2 ^ (e' - e) - m) * 2 ^ 52 ≤ m)%Z.
Proof.
  intros Hm He Hsmall. destruct (shr_fexp_normal m e Hm He) as (r & s & Heq & Hexact).
  destruct (Zdigits2_bounds m Hm) as [[Hlo Hhi] Hpos]. set (n := Z.max 0 (Zdigits2 m - 53)) in *.
  assert (0 ≤ n)%Z as Hn by (unfold n; lia).
  set (m1 := (m / 2 ^ n)%Z) in *. set (l := loc_of_shr_record {| shr_m := m1; shr_r := r; shr_s := s |}).
  assert (m1 * 2 ^ n ≤ m < (m1 + 1) * 2 ^ n)%Z as Hm1.
  { unfold m1. pose proof (Z.div_mod m (2 ^ n) ltac:(lia)). pose proof (Z.mod_pos_bound m (2 ^ n) ltac:(lia)). lia. }
  assert (0 < round_nearest_even m1 l ≤ 2 ^ 53 ∧
          Z.abs (round_nearest_even m1 l * 2 ^ n - m) * 2 ^ 52 ≤ m)%Z as [Hr2 Herr].
  { destruct (Z.le_gt_cases (Zdigits2 m) 53) as [Hd|Hd].
    - assert (n = 0%Z) as Hn0 by (unfold n; lia). destruct (Hexact Hn0) as [-> ->].
      assert (m1 = m) as Hm1m by (rewrite Hn0 in Hm1; lia). change (round_nearest_even m1 l) with m1. rewrite Hm1m, Hn0.
      pose proof (Z.pow_le_mono_r 2 (Zdigits2 m) 53 ltac:(lia) ltac:(lia)). lia.
    - assert (2 ^ n * 2 ^ 52 = 2 ^ (Zdigits2 m - 1))%Z as Hpow.
      { rewrite <- Z.pow_add_r by lia. f_equal. unfold n. lia. }
      assert (2 ^ Zdigits2 m = 2 * 2 ^ (Zdigits2 m - 1))%Z as Hdouble.
      { rewrite <- Z.pow_succ_r by lia. f_equal. lia. }
      pose proof (Z.pow_pos_nonneg 2 n ltac:(lia) Hn) as H2n.
      assert (2 ^ 52 ≤ m1 < 2 ^ 53)%Z as Hrange by nia.
      destruct (round_nearest_even_cases m1 l) as [-> | ->]; nia. }
  destruct (shr_fexp_rounded (round_nearest_even m1 l) (e + n)) as (m' & n' & r' & s' & Heq' & Hn' & Hm'); [done|lia|].
  unfold binary_round_aux. rewrite Heq. cbn [shr_m]. fold l. rewrite Heq'. cbn [shr_m].
  assert (0 < m')%Z as Hm'pos by (pose proof (Z.pow_pos_nonneg 2 n' ltac:(lia) ltac:(lia)); nia).
  destruct m' as [|p|p]; try lia. exists p, (e + n + n')%Z.
  rewrite (proj2 (Z.leb_le _ _)) by (unfold n; lia). split; [done|]. split; [lia|].
  replace (e + n + n' - e)%Z with (n' + n)%Z by lia. rewrite Z.pow_add_r, Z.mul_assoc, Hm' by lia. done.
Qed.

(** ** Values

    A finite number with a moderate exponent as a multiple of 2^-200. *)
Definition scaled (p : positive) (e : Z) : Z := (Zpos p * 2 ^ (e + 200))%Z.

(** [v] is within one part in 2^52 of [z]. *)
Definition near (v z : Z) : Prop := (Z.abs (v - z) * 2 ^ 52 ≤ z)%Z.

Lemma round_near m e :
  (0 < m < 2 ^ 300)%Z → (-150 ≤ e ≤ 400)%Z →
  ∃ p e', binary_round_aux 53 1024 false m e loc_Exact = S754_finite false p e' ∧ (e ≤ e' ≤ e + 302)%Z ∧
    near (scaled p e') (m * 2 ^ (e + 200)).
Proof.
  intros Hm He. destruct (Zdigits2_bounds m) as [[Hlo _] Hpos]; [lia|].
  assert (Zdigits2 m ≤ 300)%Z as Hd.
  { destruct (Z.le_gt_cases (Zdigits2 m) 300) as [|Hgt]; [done|].
    pose proof (Z.pow_le_mono_r 2 300 (Zdigits2 m - 1) ltac:(lia) ltac:(lia)). lia. }
  destruct (round_normal m e) as (p & e' & Heq & Hle & Herr); [lia|lia|lia|]. exists p, e'. split; [done|]. split.
  - split; [done|]. destruct (Z.le_gt_cases e' (e + 302)) as [|Hgt]; [done|].
    pose proof (Z.pow_le_mono_r 2 303 (e' - e) ltac:(lia) ltac:(lia)). nia.
  - unfold near, scaled. replace (e' + 200)%Z with ((e' - e) + (e + 200))%Z by lia.
    rewrite Z.pow_add_r, Z.mul_assoc, <- Z.mul_sub_distr_r, Z.abs_mul by lia.
    pose proof (Z.pow_pos_nonneg 2 (e + 200) ltac:(lia) ltac:(lia)) as Hp. rewrite (Z.abs_eq (2 ^ (e + 200))) by lia. nia.
Qed.

Lemma iter_xO p d : Zpos (Pos.iter xO p d) = (Zpos p * 2 ^ Zpos d)%Z.
Proof.
  induction d as [|d IH] using Pos.peano_ind; [cbn; lia|].
  rewrite Pos.iter_succ, Pos2Z.inj_xO, IH, Pos2Z.inj_succ, Z.pow_succ_r by lia. lia.
Qed.

Lemma f64_of_int_near n :
  (0 < n < 2 ^ 63)%Z →
  ∃ p e, f64_of_int n = S754_finite false p e ∧ (-60 ≤ e ≤ 302)%Z ∧ near (scaled p e) (n * 2 ^ 200).
Proof.
  intros Hn. destruct n as [|n|]; [lia| |lia]. unfold f64_of_int, binary_normalize, binary_round.
  destruct (Zdigits2_bounds (Zpos n)) as [Hlog Hpos]; [lia|]. change (Zdigits2 (Zpos n)) with (Zpos (digits2_pos n)) in *.
  rewrite Z.add_0_r, fexp_normal by lia. set (d := Zpos (digits2_pos n)) in *. unfold shl_align. rewrite Z.sub_0_r.
  destruct (d - 53)%Z as [|q|q] eqn:Hd.
  - destruct (round_near (Zpos n) 0) as (p & e & -> & He & Hnear); [lia|lia|]. exists p, e. split_and!; [done|lia|lia|done].
  - destruct (round_near (Zpos n) 0) as (p & e & -> & He & Hnear); [lia|lia|]. exists p, e. split_and!; [done|lia|lia|done].
  - pose proof (iter_xO n q) as Hit. pose proof (Z.pow_le_mono_r 2 (Zpos q) 53 ltac:(lia) ltac:(lia)).
    pose proof (Z.pow_pos_nonneg 2 (Zpos q) ltac:(lia) ltac:(lia)).
    destruct (round_near (Zpos (Pos.iter xO n q)) (Zneg q)) as (p & e & -> & He & Hnear); [nia|lia|].
    exists p, e. split_and!; [done|lia|lia|]. rewrite Hit, <- Z.mul_assoc, <- Z.pow_add_r in Hnear by lia.
    by replace (Zpos q + (Zneg q + 200))%Z with 200%Z in Hnear by lia.
Qed.

(** The integer part of the product of an integer and a fraction of 53 bits. *)
Lemma f64_trunc_scaled p e :
  (-200 ≤ e)%Z → f64_trunc (S754_finite false p e) = Some (scaled p e / 2 ^ 200)%Z.
Proof.
  intros He. cbn. f_equal. unfold scaled. destruct (Z.leb_spec 0 e).
  - rewrite Z.pow_add_r, Z.mul_assoc, Z.div_mul by lia. done.
  - replace (2 ^ 200)%Z with (2 ^ (e + 200) * 2 ^ (- e))%Z by (rewrite <- Z.pow_add_r by lia; f_equal; lia).
    by rewrite <- Z.div_div, Z.div_mul by (try apply Z.pow_pos_nonneg; try apply Z.pow_nonzero; lia).
Qed.

Lemma fraction_near outOfRange n f :
  (0 < n < 2 ^ 63)%Z → (Zpos f ≤ 7 * 2 ^ 50)%Z →
  ∃ d, f64_Duration outOfRange (f64_mul (f64_of_int n) (S754_finite false f (-53))) = d ∧ (0 ≤ d)%Z ∧
    (d * 2 ^ 103 ≤ n * Zpos f * (2 ^ 50 + 1))%Z ∧ (n * Zpos f * (2 ^ 50 - 1) < (d + 1) * 2 ^ 103)%Z.
Proof.
  intros Hn Hf. destruct (f64_of_int_near n Hn) as (p & e & -> & He & Hv). cbn [f64_mul SFmul xorb].
  assert (Zpos p < 2 ^ 200)%Z as Hp.
  { unfold near, scaled in Hv. pose proof (Z.pow_le_mono_r 2 140 (e + 200) ltac:(lia) ltac:(lia)). nia. }
  destruct (round_near (Zpos (p * f)) (e + -53)) as (p' & e' & -> & He' & Hr); [rewrite Pos2Z.inj_mul; nia|lia|].
  exists (scaled p' e' / 2 ^ 200)%Z. unfold f64_Duration. rewrite f64_trunc_scaled by lia.
  set (w := (Zpos (p * f) * 2 ^ (e + -53 + 200))%Z) in *.
  assert (w * 2 ^ 53 = scaled p e * Zpos f)%Z as Hw.
  { unfold w, scaled. replace (e + 200)%Z with ((e + -53 + 200) + 53)%Z by lia. rewrite (Z.pow_add_r 2 (e + -53 + 200)) by lia. lia. }
  generalize dependent w. generalize dependent (scaled p' e'). intros r w Hr Hw. unfold near in *.
  generalize dependent (scaled p e). intros v Hv Hw.
  assert (Z.abs (v * Zpos f - n * Zpos f * 2 ^ 200) * 2 ^ 52 ≤ n * Zpos f * 2 ^ 200)%Z as Hvf.
  { replace (v * Zpos f - n * Zpos f * 2 ^ 200)%Z with ((v - n * 2 ^ 200) * Zpos f)%Z by lia.
    rewrite Z.abs_mul, (Z.abs_eq (Zpos f)) by lia. nia. }
  rewrite <- Hw in Hvf. assert (0 < n * Zpos f ≤ 2 ^ 63 * (7 * 2 ^ 50))%Z as Hx by nia.
  generalize dependent (n * Zpos f)%Z. intros x Hvf Hx. clear v Hv Hw Hf Hn Hp He He'.
  pose proof (Z.mul_div_le r (2 ^ 200) ltac:(lia)). pose proof (Z.mul_succ_div_gt r (2 ^ 200) ltac:(lia)).
  generalize dependent (r / 2 ^ 200)%Z. intros d Hle Hgt.
  rewrite (proj2 (Z.leb_le (- 2 ^ 63) d)), (proj2 (Z.ltb_lt d (2 ^ 63))) by lia. simpl. split; [done|]. lia.
Qed.

Lemma twoThirds_value : twoThirds = S754_finite false 6004799503160661 (-53).
Proof. reflexivity. Qed.

Lemma fiveSixths_value : fiveSixths = S754_finite false 7505999378950827 (-53).
Proof. reflexivity. Qed.

(** C36. With the default fractions the window of a certificate that is not revoked runs from two
    thirds to five sixths of its lifetime, where a lifetime beyond the longest [time.Duration], about
    292 years, counts as that duration: before they are truncated to a second, the start and the end
    differ from the exact fractions by at most a nanosecond and one part in 2^48. They lie inside the
    validity period whatever positive lifetime the certificate has, and a lifetime of seven seconds
    or more leaves a window that is not empty. The bound covers the rounding of the lifetime, of the
    fraction and of their product to the precision of [float64]. *)
Theorem renewal_window outOfRange l cert now :
  let lifetime := (crt_NotAfter cert - crt_NotBefore cert)%Z in
  let counted := Z.min lifetime (2 ^ 63 - 1) in
  lr_Start l = f64_zero → lr_End l = f64_zero → crt_Revoked cert = false → (0 < lifetime)%Z →
  ∃ start stop : Time,
    LifetimeRenewalInfo outOfRange l cert now =
      Ok (mkRenewalInfo (TruncateSecond start) (TruncateSecond stop) (lr_ExplanationURL l) (lr_RetryAfter l)) ∧
    (crt_NotBefore cert ≤ start ≤ stop)%Z ∧ (stop ≤ crt_NotAfter cert)%Z ∧
    (Z.abs (3 * (start - crt_NotBefore cert) - 2 * counted) ≤ 3 + counted / 2 ^ 48)%Z ∧
    (Z.abs (6 * (stop - crt_NotBefore cert) - 5 * counted) ≤ 6 + counted / 2 ^ 47)%Z ∧
    (7 * Second ≤ lifetime → TruncateSecond start < TruncateSecond stop)%Z.
Proof.
  intros lifetime counted Hs He Hr Hl. unfold LifetimeRenewalInfo. rewrite Hr, Hs, He, twoThirds_value, fiveSixths_value.
  cbn -[f64_mul f64_of_int f64_Duration TruncateSecond time_Sub].
  assert (time_Sub (crt_NotAfter cert) (crt_NotBefore cert) = counted) as -> by (unfold time_Sub; lia).
  assert (0 < counted < 2 ^ 63)%Z as Hc by lia. assert (7 * Second ≤ lifetime → 7 * Second ≤ counted)%Z as H7 by (unfold Second; lia).
  destruct (fraction_near outOfRange counted 6004799503160661) as (d1 & -> & H1); [done|done|].
  destruct (fraction_near outOfRange counted 7505999378950827) as (d2 & -> & H2); [done|done|].
  exists (crt_NotBefore cert + d1)%Z, (crt_NotBefore cert + d2)%Z. split; [reflexivity|].
  assert (crt_NotBefore cert + counted ≤ crt_NotAfter cert)%Z as Hafter by lia. clearbody counted lifetime.
  unfold TruncateSecond, Second in *.
  split_and!; Z.to_euclidean_division_equations; lia.
Qed.

(** Every comparison with a NaN is false, so a fraction that is not a number passes the range check. *)
Lemma renewal_nan outOfRange l cert now :
  lr_Start l = S754_nan → lr_End l = S754_nan → crt_Revoked cert = false →
  ∃ info, LifetimeRenewalInfo outOfRange l cert now = Ok info.
Proof. intros Hs He Hr. unfold LifetimeRenewalInfo. rewrite Hr, Hs, He. by eexists. Qed.

(** A certificate of ninety days and the renewal window it gets. *)
Definition ninetyDays : Certificate :=
  mkCertificate "cert-1" "acct-1" "order-1" "" [] 0 (90 * 24 * 3600 * Second)%Z false 0 0 "" 0 "" "" [] 0 1.

Lemma renewal_window_witness :
  ∃ start stop : Time,
    LifetimeRenewalInfo (λ _, 0%Z) (mkLifetimeRenewal f64_zero f64_zero "" 0) ninetyDays 0 =
      Ok (mkRenewalInfo (TruncateSecond start) (TruncateSecond stop) "" 0).
Proof.
  destruct (renewal_window (λ _, 0%Z) (mkLifetimeRenewal f64_zero f64_zero "" 0) ninetyDays 0
    eq_refl eq_refl eq_refl eq_refl) as (start & stop & H & _).
  exists start, stop. exact H.
Defined.
